(* ===== verification/_CoqProject ===== *)
-Q . S2P
Prelude.v
Status.v
RemotePtr.v
Memory.v
SlabAllocator.v
MemoryPool.v
RdmaSync.v
Card.v
RdmaOps.v
Messenger.v
ConnectionManager.v
Facade.v
Broker.v
Shutdown.v
IhtRdma.v
IhtElist.v
IhtInv.v
IhtExample.v
IhtPrint.v
IhtWords.v
IhtSession.v
IhtRehash.v
IhtCache.v
IhtSpec.v
IhtConc.v
IhtAtomic.v
IhtView.v
IhtCrit.v
IhtLin.v
IhtLive.v
QueuePair.v
IhtLocal.v
LocalConc.v
IhtTable.v
Handle.v
Rpc.v
Server.v
Tcp.v
Cli.v
Compete.v
ATree.v
Double.v
DoubleRound.v
MetricJson.v
Summary.v
SummaryStats.v
WorkloadDriver.v
Experiment.v
Report.v
Clock.v
Text.v
ClientRun.v
RandomKeys.v
Benchmark.v
