(* ===== verification/Prelude.v ===== *)
(** * Rome and the interlocked hash table: a verification library

    ** The program

    The code under src/oldAPIHelpMark is a small framework for RDMA programs ("Rome") and
    a distributed hash table built on it (the interlocked hash table, IHT).

    - rdma/: [remote_ptr] packs a node id and an address into a word; [RdmaMemory] owns the
      registered buffer; [rdma_memory_resource] is the slab allocator on it;
      [ConnectionManager] opens connections between nodes, [RdmaBroker] runs the thread that
      listens for them, [TwoSidedRdmaMessenger] and [RdmaChannel] send messages over
      a connection; [MemoryPool] issues one-sided reads, writes and atomics for threads that
      share connections and completion queues.
    - iht/: [RdmaIHT] is the one-sided table (clients read, lock and write remote memory
      themselves); [iht_carumap] is a table in local memory and [TwoSidedIHT] partitions keys
      over nodes and asks the owning node by messages.
    - metrics/, colosseum/: [ATree], [Summary], [Counter], [Stopwatch] and the workload
      driver of the experiments; protos/: the records of a result and their JSON form;
      util/tcp/: the sockets clients and server use to stop together; vendor/sss/: [Status]
      results and the command line; iht/compete.cc: the main program.

    ** Files and what they model

    - Prelude: faults and the [result] type of fallible code, computations on a state that
      outlives an exception ([io]), machine integers, reachability, list lemmas, automation
      (hint database [rome], tactics [done_inv], [run], [case_bool]).
    - Status: vendor/sss/status.h and the macros of logging/logging.h that return or abort.
    - RemotePtr: rdma/remote_ptr.h, rdma/peer.h.
    - Memory, SlabAllocator: [RdmaMemory] and [rdma_memory_resource] of rdma/memory_pool.h;
      the allocator sequentially (all threads' free lists) and, for its compare-and-swap loop,
      as a step relation [bump_step].
    - MemoryPool: the operations of the class of that name as work requests; the network card
      is the class [Nic], the connection manager the class [CmOps]. RdmaSync: the completion
      counters as a step relation of threads, one access to a counter or queue a step
      [sync_step]. Card: the bytes of the nodes, the
      laws of a card ([NicLaws]) and a card that satisfies them. RdmaOps: what the pool's
      operations do to those bytes.
    - Messenger, ConnectionManager: rdma/connection_manager.h. The connection lock is
      also a step relation ([lock_step]). Facade: rdma/rdma.h, which puts the pool, the
      manager and the messengers together. Broker: rdma/broker.h. Shutdown: the end of a
      manager, its destructor and the broker's listener thread as two programs
      ([listener_step], [dtor_step]). QueuePair: the send queues of a node and the writes of
      [unlock] that nobody waits for ([qps_step]).
    - IhtRdma: iht/iht_ds.h. A client is a program counter and a descent context, and
      [client_step] performs one access to shared memory, or those of a critical section before
      its unlock, so that [do_with] runs one client to its end and [sys_step] (IhtConc) interleaves many. IhtElist: element lists. IhtInv: the
      tree invariant and the map a tree represents. IhtRehash, IhtCache: rehashing and the
      client-side caches. IhtSpec: refinement of the operations to a finite map. IhtExample:
      a small instance. IhtAtomic, IhtView, IhtCrit, IhtLin: many clients at once - what one
      step does to the shared tree, what a client may believe about it, the critical
      sections, and the linearization; IhtLive: that calls can return. IhtWords: the objects as
      the bytes of the structs, and the accesses as operations of the pool; IhtSession: any
      number of them over the pool's allocator ([wire_step], [session]).
    - IhtLocal: iht/iht_local.h, and the interface [TableLaws] a table promises its clients.
      LocalConc: the same table under several threads ([local_step]), its spin locks included.
      IhtTable: [RdmaIHT] behind the same interface. IhtPrint: its debug print. Handle: the constructor and
      [destroy] of [RdmaIHT] over the facade. Rpc: iht/rpc.h, a step relation of client and server threads
      over the interface. Server: its server threads and destructor as programs, over any table
      whose calls take effect at one moment, such as the local table ([local_history_run]).
    - Tcp: util/tcp/tcp.h, with the stop barrier of iht/role_server.h and iht/role_client.h
      over it as a step relation ([barrier_step]).
    - Cli: vendor/sss/cli.h. Compete: iht/compete.cc over an interface of the managers.
    - ATree: metrics/atree/*.h, nodes in a heap, keys of any type with the comparisons the
      code uses ([Key], [KeyLaws]). Double: binary64 as such a key, with the arithmetic of the
      Standard Library's specification; DoubleRound: between which multiples of a power of
      two its rounding stays, for products, sums and quotients. Summary: the sample window of metrics/summary.h;
      SummaryStats: its running statistics and percentiles. MetricJson: metrics/metric.h and
      protos/*.h over a class of JSON libraries ([Json], [JsonLaws]).
    - WorkloadDriver: colosseum/workload_driver.h with metrics/counter.h and
      metrics/stopwatch.h. Experiment: the benchmark client of iht/role_client.h with the
      parameters and operations of iht/experiment.h, iht/common.h. Report: from the driver's
      samples to the metric records and the text forms of a result. Clock: the stopwatch with
      its splits and laps. Text: the text and protobuf forms of metrics, driver, result and
      command line. ClientRun: [populate] and
      [Client::Run], from the random keys to the report. RandomKeys: the range of those keys.
      Benchmark: the operations of all clients at once over the one-sided table ([bench_step]).

    ** What the theorems show

    - The tables. One client's calls on [RdmaIHT] refine a finite map (iht_history,
      do_with_refines) while inserted keys find room on the eight levels; any number of clients,
      whose keys do so, interleaved at accesses and critical sections, are linearizable to one finite map and never fault (iht_linearizable, iht_no_fault) as long
      as no insert acts on a base pointer another insert has made stale, which the code does
      not exclude (stale_base_loses_insert); under the same assumption a call that has begun can
      always return (iht_call_returns) and the assertions of the benchmark's clients never
      fail (benchmark_runs); a bucket has one owner at a time
      (bucket_mutual_exclusion) and a rehash loses nothing (rehash_preserves_pairs). The
      accesses of a client, issued to the pool over a conforming card and the slab allocator, do
      to the bytes of the nodes what the model's accesses do to the objects (accesses_on_wire).
      [TwoSidedIHT] is linearizable to one finite map and its calls complete
      (rpc_linearizable, rpc_call_returns) while no root bucket of its local tables splits; as
      long as no server thread polls an empty queue - which is undefined, and happens to an idle
      server (idle_server_undefined) - its threads do the requests of each node one at a time
      (pool_serves_atomically), and it shuts down safely once all requests are answered
      (quiet_shutdown) but not before (delete_before_join); the local table refines a finite
      map while its root buckets have room (iht_carumap_history), under any interleaving of
      its threads (local_linearizable), who work on a bucket one at a time
      (local_lock_discipline) and can always complete their calls (local_call_returns).
    - Memory. Live blocks are disjoint, aligned and in bounds (allocator_safe,
      bump_concurrent_disjoint), size classes are logarithms (UpperLog2_spec), regions stay
      inside the buffer (RegisterMemoryRegion_spec); a handle on the table gives back the
      blocks it took (handle_blocks_reused).
    - Communication. Remote atomics, reads and writes have their sequential meaning on bytes
      (CompareAndSwap_spec, AtomicSwap_spec, Read_spec, ExtendedRead_spec, PartialRead_spec,
      Write_spec), reads are cut into exact chunks, completion counters never break and waiting threads get their completions
      (sync_never_broken); the
      receive ring is a queue, and a message sent by one node's facade is received by the
      other's (send_then_recv); connecting, listening and the connection lock behave as stated
      on every branch; a manager's destructor and its listener destroy every connection id
      once and neither waits for the other for ever (shutdown_destroys_once, shutdown_returns),
      unless a request came too late (late_request_hangs); send queues do not overflow and
      the writes that release locks write what was meant when each thread's locks are behind
      one connection (send_queues_have_room, unlocks_write_intended), which fails with two
      (temp_lock_overwritten); no client passes a stop barrier before all have entered it, and the
      barrier can always be passed (stop_barrier_safe, stop_barrier_progress).
    - Measuring. Percentiles are the samples of their ranks and extremes are exact in the
      code's own floating-point arithmetic (report_is_order_statistics, extremes_are_exact);
      the sample tree frees every node once (samples_are_freed); results survive their JSON
      form (result_roundtrip), a run's report is about the run's samples (driver_report), the text, protobuf and metric forms agree and
      asking for one changes none (reporting_is_stable); the stopwatch's runtime and each of its
      laps are right to two nanoseconds (stopwatch_accurate).
    - Programs. Command lines are parsed back to the settings they print, in the ranges the
      format has (parse_args_roundtrip); on a network that works the main program connects
      with every node, exchanges its messages and returns (main_returns), and polls apart has
      no undefined behaviour of its own (main_no_undef); a client populates its table, applies
      exactly the operations asked for and reports them (client_run_reports); the keys a node
      draws to populate the table are within its range and are its own (population_in_range).
    - Where the code does not do what it means to, a theorem states what it does:
      stale_base_loses_insert, third_layer_collision, bucket_path_overflow,
      local_rehash_strands, multi_chunk_read_never_returns, Connect_failure_keeps_lock,
      disconnect_breaks_lock, recycle_overlaps_neighbour, remove_breaks_tree,
      accumulate_is_wrong, delete_before_join, equal_samples_break_report,
      nonfinite_summary_unreadable, row_has_extra_column, ownership_transfer,
      short_read_breaks_barrier, late_request_hangs, accepted_channel_destroyed,
      temp_lock_overwritten, same_address_write_aborts, idle_server_undefined,
      wide_integer_throws.

    ** Modelling choices

    - Machine integers are [Z]; unsigned arithmetic wraps explicitly ([u64], [u32], ...) and
      signed arithmetic that could overflow goes through [int_op], whose failure is the fault
      [FUndef]. Aborts, undefined behaviour, exceptions and unfinished loops are different
      faults. Doubles are the Standard Library's [spec_float] at 53 bits.
    - Loops of the code that are not structural take fuel. Theorems about results state how
      much is enough: 41 steps for a call on [RdmaIHT] (eight levels of at most five steps and
      the first), the height of the tree for [ATree] (the window size suffices) and twice its
      nodes for its destructor, one poll per awaited completion for the atomics, one more
      iteration than operations for the driver. A fuel fault in a theorem's conclusion means
      the loop does not end.
    - Verbs, rdma_cm, sockets, protobuf, the JSON library, the memory allocator of the C
      library, the printing of doubles, random draws and clocks are parameters or inputs; what
      is assumed of them is a hypothesis or a class with an instance. In the driver's loop the
      conversion of cycles to nanoseconds is a parameter (Report has the code's).
    - Percentiles are proved for windows of up to a thousand samples, the window the driver
      uses: up to there the product of doubles that gives a rank is exact once cut off, which
      is checked by evaluation.
    - Shared memory is sequentially consistent; a step of the concurrent models is one remote
      access, one atomic instruction or one section under a lock: between taking a bucket's lock
      and releasing it a client of the one-sided table reads the list, rehashes, and writes the
      list and the base pointer in one step. All of its clients have one node id, and their
      allocations are at an address that is a function of the memory; the count of a list that a
      rehash has allocated and not set reads 0. In the models of the table
      the write of an unlock takes effect in one step with its post; QueuePair says when the
      value it writes is the one meant although the write is executed later.
    - What is undefined in the code ends the part of an execution the theorems are about: a poll of
      an empty queue takes a server thread to a state of its own ([Undefined]), and is a fault
      in Messenger and in the instance of Compete's network. In the cluster of Rpc a table call
      is one step, servers take requests that are there, and sends succeed.

    ** Not modelled

    The events that [cleanup] takes from the channel of an id before it destroys it.
    In the table over the wire: the pairs a rehash moves into new lists and a removal from a list in
    the client's own memory are at the objects' level only (IhtRdma), as is the client's control
    flow. Setting up the logging, the attributes a queue pair is moved through while a connection is
    made (constants the card reads), node1 and node2 of src/src (unfinished sketches that do
    not compile), generated and vendored code. *)
From stdpp Require Export base tactics numbers list gmap strings.
#[global] Open Scope Z_scope.

(** ** Faults and the fallible computations of the C++ code

    A computation of the program either delivers a value or stops:
    - [FAbort]: [ROME_ASSERT], [ROME_FATAL], [OK_OR_FAIL], [exit(1)];
    - [FUndef]: undefined behaviour (uninitialised read, index out of range,
      a bad [static_cast], signed overflow, an over-long shift);
    - [FThrow]: a C++ exception ([unordered_map::at], [optional::value], ...);
    - [FFuel]: the loop budget of the model is used up (a spin that never ends). *)
Inductive fault := FAbort | FUndef | FThrow | FFuel.

Inductive result (A : Type) : Type :=
| Done (a : A)
| Fault (f : fault).
Arguments Done {A} a.
Arguments Fault {A} f.

#[export] Instance fault_eq_dec : EqDecision fault.
Proof. solve_decision. Defined.
#[export] Instance result_eq_dec {A} `{EqDecision A} : EqDecision (result A).
Proof. solve_decision. Defined.

#[export] Instance result_ret : MRet result := λ A a, Done a.
#[export] Instance result_bind : MBind result := λ A B f m,
  match m with Done a => f a | Fault e => Fault e end.
#[export] Instance result_fmap : FMap result := λ A B f m,
  match m with Done a => Done (f a) | Fault e => Fault e end.

(** [ROME_ASSERT(b, ...)]: stop the program when [b] is false. *)
Definition rome_assert (b : bool) : result unit :=
  if b then Done tt else Fault FAbort.

(** An index check whose failure is undefined behaviour. *)
Definition rome_undef (b : bool) : result unit :=
  if b then Done tt else Fault FUndef.

(** Read of an optional slot whose absence is undefined behaviour. *)
Definition defined {A} (o : option A) : result A :=
  match o with Some a => Done a | None => Fault FUndef end.

(** Read through [.at()] or [.value()], whose absence throws. *)
Definition or_throw {A} (o : option A) : result A :=
  match o with Some a => Done a | None => Fault FThrow end.

Lemma bind_done_inv {A B} (m : result A) (f : A → result B) b :
  (m ≫= f) = Done b ↔ ∃ a, m = Done a ∧ f a = Done b.
Proof.
  destruct m as [a|e]; cbn; split; [by eauto | | done |].
  - intros (a' & [= ->] & H). done.
  - by intros (? & ? & _).
Qed.

Lemma bind_done {A B} (a : A) (f : A → result B) : (Done a ≫= f) = f a.
Proof. done. Qed.

Lemma done_pair {A B} (a a' : A) (b b' : B) : Done (a, b) = Done (a', b') → a = a' ∧ b = b'.
Proof. by intros [= -> ->]. Qed.

Lemma rome_assert_done b u : rome_assert b = Done u ↔ b = true.
Proof. destruct b, u; cbn; split; congruence. Qed.

Lemma defined_Some {A} (a : A) : defined (Some a) = Done a.
Proof. done. Qed.

Lemma defined_done {A} (o : option A) a : defined o = Done a ↔ o = Some a.
Proof. destruct o; cbn; split; congruence. Qed.

(** ** Computations on a state that outlives an exception *)
Definition io (S A : Type) := S → S * result A.
#[export] Instance io_ret S : MRet (io S) := λ A a s, (s, Done a).
#[export] Instance io_bind S : MBind (io S) := λ A B f m s,
  match m s with (s', Done a) => f a s' | (s', Fault e) => (s', Fault e) end.

(** A computation that leaves the state alone, and a change of the state. *)
Definition io_lift {S A} (r : result A) : io S A := λ s, (s, r).
Definition io_modify {S} (f : S → S) : io S unit := λ s, (f s, Done tt).

(** A computation on a part of the state. *)
Definition io_part {S T A} (get : S → T) (set : T → S → S) (m : io T A) : io S A := λ s,
  let '(t, r) := m (get s) in (set t s, r).

Lemma io_lift_done {S A B} (r : result A) (a : A) (k : A → io S B) s :
  r = Done a → (io_lift r ≫= k) s = k a s.
Proof. by intros ->. Qed.

Lemma io_lift_fault {S A B} (r : result A) e (k : A → io S B) s :
  r = Fault e → (io_lift r ≫= k) s = (s, Fault e).
Proof. by intros ->. Qed.

(** ** Machine integers: [Z] with its wrap-around written out *)
Definition u8 (x : Z) : Z := x mod 2 ^ 8.
Definition u16 (x : Z) : Z := x mod 2 ^ 16.
Definition u32 (x : Z) : Z := x mod 2 ^ 32.
Definition u64 (x : Z) : Z := x mod 2 ^ 64.
Definition is_u (w x : Z) : Prop := 0 ≤ x < 2 ^ w.

(** Conversion to [int]: two's complement, as C++20 fixes it. *)
Definition to_i32 (x : Z) : Z :=
  let y := x mod 2 ^ 32 in if y <? 2 ^ 31 then y else y - 2 ^ 32.
Definition INT_MAX : Z := 2 ^ 31 - 1.
Definition INT_MIN : Z := - 2 ^ 31.

(** Signed arithmetic at [int] width: an overflow is undefined behaviour. *)
Definition int_op (x : Z) : result Z :=
  if (INT_MIN <=? x) && (x <=? INT_MAX) then Done x else Fault FUndef.

Lemma int_op_done x y : int_op x = Done y ↔ y = x ∧ INT_MIN ≤ x ≤ INT_MAX.
Proof.
  unfold int_op. destruct (_ && _) eqn:E.
  - split; [intros [= ->] | intros [-> _]]; [|done]. split; [done|]. lia.
  - split; [done|]. intros [-> H]. lia.
Qed.

Lemma to_i32_small x : INT_MIN ≤ x ≤ INT_MAX → to_i32 x = x.
Proof.
  unfold to_i32, INT_MIN, INT_MAX. intros H. cbv zeta.
  destruct (Z.le_gt_cases 0 x).
  - rewrite Z.mod_small by lia. destruct (Z.ltb_spec x (2 ^ 31)); lia.
  - replace (x mod 2 ^ 32) with (x + 2 ^ 32).
    + destruct (Z.ltb_spec (x + 2 ^ 32) (2 ^ 31)); lia.
    + symmetry. rewrite <- (Z_mod_plus_full x 1 (2 ^ 32)).
      rewrite Z.mod_small; lia.
Qed.

Lemma wrap_small w x : is_u w x → x mod 2 ^ w = x.
Proof. apply Z.mod_small. Qed.

Lemma wrap_is_u w x : 0 ≤ w → is_u w (x mod 2 ^ w).
Proof. intros. apply Z.mod_pos_bound, Z.pow_pos_nonneg; lia. Qed.

(** ** Bit masks as arithmetic *)
Lemma land_low_mask a n : 0 ≤ n → Z.land a (2 ^ n - 1) = a mod 2 ^ n.
Proof.
  intros. rewrite <- Z.land_ones by done. f_equal. rewrite Z.ones_equiv. lia.
Qed.

Lemma lor_disjoint_add a b n :
  0 ≤ n → 0 ≤ b < 2 ^ n → Z.lor (Z.shiftl a n) b = a * 2 ^ n + b.
Proof.
  intros Hn Hb. rewrite <- Z.shiftl_mul_pow2 by done.
  rewrite Z.add_nocarry_lxor, Z.lxor_lor; [done|..];
    (apply Z.bits_inj'; intros i Hi; rewrite Z.land_spec, Z.bits_0;
     destruct (Z.lt_ge_cases i n);
     [rewrite Z.shiftl_spec_low by done; done
     |rewrite <- (Z.mod_small b (2 ^ n)) by done;
      rewrite Z.mod_pow2_bits_high by lia; apply andb_false_r]).
Qed.

(** ** Bytes *)
(** Little-endian bytes of an unsigned integer, and back. *)
Fixpoint le_bytes (n : nat) (x : Z) : list Z :=
  match n with O => [] | S n' => x mod 256 :: le_bytes n' (x / 256) end.
Fixpoint of_le (l : list Z) : Z :=
  match l with [] => 0 | b :: l' => b + 256 * of_le l' end.

Lemma length_le_bytes n x : length (le_bytes n x) = n.
Proof. revert x. induction n as [|n IH]; intros x; cbn; [done|]. by rewrite IH. Qed.

Lemma of_le_bytes n x : of_le (le_bytes n x) = x mod 2 ^ (8 * Z.of_nat n).
Proof.
  revert x. induction n as [|n IH]; intros x; cbn [le_bytes of_le].
  { by rewrite Z.mod_1_r. }
  rewrite IH. replace (8 * Z.of_nat (S n)) with (8 + 8 * Z.of_nat n) by lia.
  rewrite Z.pow_add_r by lia. change (2 ^ 8) with 256.
  rewrite (Z.rem_mul_r x 256) by (try apply Z.pow_pos_nonneg; lia). lia.
Qed.

Lemma of_le_range l : Forall (λ b, 0 ≤ b < 256) l → 0 ≤ of_le l < 2 ^ (8 * Z.of_nat (length l)).
Proof.
  induction 1 as [|b l Hb _ IH]; cbn [of_le length]; [by cbn|].
  replace (8 * Z.of_nat (S (length l))) with (8 + 8 * Z.of_nat (length l)) by lia.
  rewrite Z.pow_add_r by lia. change (2 ^ 8) with 256. lia.
Qed.

Lemma le_of_le l : Forall (λ b, 0 ≤ b < 256) l → le_bytes (length l) (of_le l) = l.
Proof.
  induction 1 as [|b l Hb _ IH]; cbn [of_le length le_bytes]; [done|].
  rewrite (Z.mul_comm 256), Z.mod_add, Z.mod_small by lia. by rewrite Z.div_add, Z.div_small, Z.add_0_l, IH by lia.
Qed.

(** ** Reachability: the reflexive transitive closure of a step relation *)
Section star.
Context {S : Type} (step : S → S → Prop).

Inductive star : S → S → Prop :=
| star_refl s : star s s
| star_step s1 s2 s3 : step s1 s2 → star s2 s3 → star s1 s3.

Lemma star_trans s1 s2 s3 : star s1 s2 → star s2 s3 → star s1 s3.
Proof. induction 1; eauto using star_step. Qed.

Lemma star_one s1 s2 : step s1 s2 → star s1 s2.
Proof. eauto using star_step, star_refl. Qed.

Lemma star_invariant (I : S → Prop) s1 s2 :
  (∀ a b, I a → step a b → I b) → I s1 → star s1 s2 → I s2.
Proof. intros Hpres HI Hstar. induction Hstar; eauto. Qed.
End star.

(** ** Lists *)
Section lists.
Context {A : Type}.
Implicit Types (l : list A).

(** [std::list::erase] / [vector] write by position, absence as [None]. *)
Fixpoint find_split (p : A → bool) (l : list A) : option (list A * A * list A) :=
  match l with
  | [] => None
  | x :: l' => if p x then Some ([], x, l') else
      match find_split p l' with
      | Some (pre, y, post) => Some (x :: pre, y, post)
      | None => None
      end
  end.

Lemma find_split_Some p l pre x post :
  find_split p l = Some (pre, x, post) →
  l = pre ++ x :: post ∧ p x = true ∧ Forall (λ y, p y = false) pre.
Proof.
  revert pre. induction l as [|a l IH]; intros pre; cbn; [done|].
  destruct (p a) eqn:Ha; [by intros [= <- <- <-]|].
  destruct (find_split p l) as [[[pre' y] post']|] eqn:E; [|done].
  intros [= <- <- <-]. destruct (IH _ eq_refl) as (-> & ? & ?). auto.
Qed.

Lemma find_split_None p l :
  find_split p l = None → Forall (λ y, p y = false) l.
Proof.
  induction l as [|a l IH]; cbn; [done|].
  destruct (p a) eqn:Ha; [done|].
  destruct (find_split p l) as [[[? ?] ?]|]; [done|]. auto.
Qed.
End lists.

(** ** Automation *)
Create HintDb rome discriminated.
#[export] Hint Resolve star_refl star_one star_step : rome.
#[export] Hint Rewrite @defined_Some @bind_done : rome.

(** Run a computation past the parts that have delivered their value. *)
Ltac run := autorewrite with rome.
Tactic Notation "run" "in" hyp(H) := autorewrite with rome in H.

(** Split a successful monadic computation into its successful parts. *)
Ltac done_inv :=
  repeat match goal with
  | H : (_ ≫= _) = Done _ |- _ =>
      let a := fresh "r" in let H1 := fresh H in
      apply bind_done_inv in H as (a & H1 & H)
  | H : Fault _ = Done _ |- _ => discriminate H
  | H : Done _ = Done _ |- _ => injection H as H; subst
  | H : rome_assert _ = Done _ |- _ => apply rome_assert_done in H
  | H : defined _ = Done _ |- _ => apply defined_done in H
  | H : int_op _ = Done _ |- _ => apply int_op_done in H as [-> H]
  end.

(** Case analysis on the boolean tests of the code. *)
Ltac case_bool :=
  repeat match goal with
  | |- context [?x <? ?y] => destruct (Z.ltb_spec x y)
  | |- context [?x <=? ?y] => destruct (Z.leb_spec x y)
  | |- context [?x =? ?y] => destruct (Z.eqb_spec x y)
  end.
