(* ===== verification/Status.v ===== *)
(** * [sss::Status], [sss::StatusVal] (vendor/sss/status.h) and the early-return
    macros of logging/logging.h that every fallible operation of the program is
    written with. *)
From S2P Require Import Prelude.

Inductive StatusType :=
| Ok | InternalError | Unavailable | Cancelled | NotFound | Unknown
| AlreadyExists | FailedPrecondition | InvalidArgument | ResourceExhausted
| Aborted | OutOfRange | StreamTerminated.

#[export] Instance StatusType_eq_dec : EqDecision StatusType.
Proof. solve_decision. Defined.

Record Status := mkStatus { st_t : StatusType; st_message : option string }.

#[export] Instance Status_eq_dec : EqDecision Status.
Proof. solve_decision. Defined.

(** [Status::Ok()] *)
Definition StatusOk : Status := mkStatus Ok None.

(** [Status::operator<<]: append the printed operand to the message. *)
Definition status_append (s : Status) (printed : string) : Status :=
  mkStatus (st_t s)
    (Some (match st_message s with Some m => m | None => "" end +:+ printed)).

Record StatusVal (T : Type) := mkStatusVal { sv_status : Status; sv_val : option T }.
Arguments mkStatusVal {T} _ _.
Arguments sv_status {T} _.
Arguments sv_val {T} _.

Definition is_ok (s : Status) : bool := bool_decide (st_t s = Ok).

(** [OK_OR_FAIL(status)]: abort on an error. [__s.message.value()] would throw
    first when an error carries no message. *)
Definition OK_OR_FAIL (s : Status) : result unit :=
  if is_ok s then Done tt else
  _ ← or_throw (st_message s); Fault FAbort.

(** [STATUSVAL_OR_DIE(sv)] *)
Definition STATUSVAL_OR_DIE {T} (sv : StatusVal T) : result unit :=
  OK_OR_FAIL (sv_status sv).

(** [RETURN_STATUS_ON_ERROR(status)] / [RETURN_STATUSVAL_ON_ERROR(sv)]: leave the
    enclosing function with the error status. *)
Definition RETURN_STATUS_ON_ERROR {A} (s : Status) (leave : Status → result A)
    (k : result A) : result A :=
  if is_ok s then k else
  _ ← or_throw (st_message s); leave s.

Lemma is_ok_true s : is_ok s = true ↔ st_t s = Ok.
Proof. unfold is_ok. apply bool_decide_eq_true. Qed.

Lemma OK_OR_FAIL_done s u : OK_OR_FAIL s = Done u → st_t s = Ok.
Proof.
  unfold OK_OR_FAIL. destruct (is_ok s) eqn:E; [by rewrite is_ok_true in E|].
  destruct (st_message s); done.
Qed.
