(* ===== verification/RemotePtr.v ===== *)
(** * [remote_ptr] (rdma/remote_ptr.h) and [Peer] (rdma/peer.h)

    A remote pointer packs a 16-bit node id above a 48-bit address in one
    [uint64_t]. *)
From S2P Require Import Prelude.

(** [Peer] *)
Record Peer := mkPeer { peer_id : Z; peer_address : string; peer_port : Z }.
Definition Peer_default : Peer := mkPeer 0 "" 0.

Record remote_ptr := mkRaw { raw_ : Z }.

#[export] Instance remote_ptr_eq_dec : EqDecision remote_ptr.
Proof. solve_decision. Defined.
#[export] Instance remote_ptr_countable : Countable remote_ptr.
Proof. by apply (inj_countable' raw_ mkRaw); intros []. Defined.

Definition bitsof (bytes : Z) : Z := u64 (bytes * 8).
Definition kAddressBits : Z := bitsof 8 - bitsof 2.
Definition kAddressBitmask : Z := u64 (Z.shiftl 1 kAddressBits - 1).
Definition kIdBitmask : Z := Z.lxor (u64 (-1)) kAddressBitmask.

(** [remote_ptr(id_type id, uint64_t address)] *)
Definition mk_ptr (id address : Z) : remote_ptr :=
  mkRaw (Z.lor (u64 (Z.shiftl id kAddressBits)) (Z.land address kAddressBitmask)).

(** [remote_ptr(uint64_t id, T *address)]: delegates, narrowing the id. *)
Definition of_pointer (id address : Z) : remote_ptr := mk_ptr (u16 id) address.

Definition remote_nullptr : remote_ptr := mkRaw 0.

(** Getters *)
Definition id (p : remote_ptr) : Z := Z.shiftr (Z.land (raw_ p) kIdBitmask) kAddressBits.
Definition address (p : remote_ptr) : Z := Z.land (raw_ p) kAddressBitmask.

(** [operator+=] at an element size; [operator++] is [ptr_add sz p 1]. *)
Definition ptr_add (sizeof_elem : Z) (p : remote_ptr) (s : Z) : remote_ptr :=
  let address := Z.land (u64 (raw_ p + u64 (sizeof_elem * s))) kAddressBitmask in
  mkRaw (Z.lor (Z.land (raw_ p) kIdBitmask) address).

(** [pointer_to]: the id is [-1] narrowed. *)
Definition pointer_to (address : Z) : remote_ptr := of_pointer (u64 (-1)) address.

(** Equivalence and order *)
Definition is_null (p : remote_ptr) : bool := raw_ p =? 0.
Definition ptr_eqb (p1 p2 : remote_ptr) : bool := raw_ p1 =? raw_ p2.
Definition ptr_ltb (p1 p2 : remote_ptr) : bool := raw_ p1 <? raw_ p2.

Definition ptr_wf (p : remote_ptr) : Prop := is_u 64 (raw_ p).

Lemma kAddressBits_eq : kAddressBits = 48.
Proof. reflexivity. Qed.
Lemma kAddressBitmask_eq : kAddressBitmask = 2 ^ 48 - 1.
Proof. reflexivity. Qed.
Lemma kIdBitmask_eq : kIdBitmask = Z.shiftl (2 ^ 16 - 1) 48.
Proof. reflexivity. Qed.

Lemma address_mod p : address p = raw_ p mod 2 ^ 48.
Proof. unfold address. rewrite kAddressBitmask_eq. by apply land_low_mask. Qed.

Lemma id_div p : ptr_wf p → id p = raw_ p / 2 ^ 48.
Proof.
  intros Hwf. unfold id. rewrite kIdBitmask_eq, kAddressBits_eq.
  rewrite Z.shiftr_land, Z.shiftr_shiftl_l by lia.
  change (48 - 48) with 0. rewrite Z.shiftl_0_r, land_low_mask by lia.
  rewrite Z.shiftr_div_pow2 by lia. apply Z.mod_small.
  unfold ptr_wf, is_u in Hwf. split; [apply Z.div_pos; lia|].
  apply Z.div_lt_upper_bound; lia.
Qed.

Lemma mk_ptr_raw i a : is_u 16 i → raw_ (mk_ptr i a) = i * 2 ^ 48 + a mod 2 ^ 48.
Proof.
  intros Hi. unfold mk_ptr, u64. cbn [raw_].
  rewrite kAddressBitmask_eq, kAddressBits_eq, land_low_mask by lia.
  unfold is_u in Hi. rewrite wrap_small.
  - apply lor_disjoint_add; [lia|]. apply Z.mod_pos_bound. lia.
  - unfold is_u. rewrite Z.shiftl_mul_pow2 by lia. lia.
Qed.

Lemma mk_ptr_wf i a : is_u 16 i → ptr_wf (mk_ptr i a).
Proof.
  intros Hi. unfold ptr_wf, is_u in *. rewrite mk_ptr_raw by done.
  pose proof (Z.mod_pos_bound a (2 ^ 48) ltac:(lia)). lia.
Qed.

Lemma raw_split p : ptr_wf p → raw_ p = id p * 2 ^ 48 + address p.
Proof.
  intros. rewrite id_div, address_mod by done.
  pose proof (Z.div_mod (raw_ p) (2 ^ 48)). lia.
Qed.

Lemma id_range p : ptr_wf p → is_u 16 (id p).
Proof.
  intros Hwf. rewrite id_div by done. unfold ptr_wf, is_u in *.
  split; [apply Z.div_pos; lia | apply Z.div_lt_upper_bound; lia].
Qed.

Lemma id_mk_ptr i a : is_u 16 i → id (mk_ptr i a) = i.
Proof.
  intros Hi. rewrite id_div by by apply mk_ptr_wf. rewrite mk_ptr_raw by done.
  pose proof (Z.mod_pos_bound a (2 ^ 48) ltac:(lia)).
  rewrite Z.div_add_l by lia. rewrite Z.div_small; lia.
Qed.

Lemma address_mk_ptr i a : is_u 16 i → address (mk_ptr i a) = a mod 2 ^ 48.
Proof.
  intros Hi. rewrite address_mod, mk_ptr_raw by done.
  rewrite Z.add_comm, Z_mod_plus_full. apply Z.mod_mod. lia.
Qed.

(** Packing and unpacking are inverse: a pointer built from a 16-bit node
    id and a 48-bit address yields both back, and a 64-bit word is rebuilt
    from its two fields, so no two (id, address) pairs share a word. *)
Theorem remote_ptr_roundtrip :
  (∀ i a, is_u 16 i → is_u 48 a →
     id (mk_ptr i a) = i ∧ address (mk_ptr i a) = a ∧ ptr_wf (mk_ptr i a)) ∧
  (∀ p, ptr_wf p → mk_ptr (id p) (address p) = p).
Proof.
  split.
  - intros i a Hi Ha. split_and!; [by apply id_mk_ptr | | by apply mk_ptr_wf].
    rewrite address_mk_ptr by done. by apply wrap_small.
  - intros p Hwf. assert (raw_ (mk_ptr (id p) (address p)) = raw_ p) as E.
    + rewrite mk_ptr_raw by by apply id_range. rewrite address_mod, Z.mod_mod by lia.
      rewrite <- address_mod. symmetry. by apply raw_split.
    + destruct p, (mk_ptr _ _). cbn in E. by subst.
Qed.

Lemma ptr_add_raw sz p s :
  raw_ (ptr_add sz p s)
  = Z.lor (Z.land (raw_ p) kIdBitmask) ((raw_ p + sz * s) mod 2 ^ 48).
Proof.
  unfold ptr_add, u64. cbn [raw_]. rewrite kAddressBitmask_eq, land_low_mask by lia.
  f_equal. rewrite Z.add_mod_idemp_r by lia.
  change (2 ^ 64) with (2 ^ 48 * 2 ^ 16). rewrite Z.rem_mul_r by lia.
  rewrite (Z.mul_comm (2 ^ 48) (_ mod _)), Z_mod_plus_full. apply Z.mod_mod. lia.
Qed.

Lemma land_id_mask p : ptr_wf p → Z.land (raw_ p) kIdBitmask = Z.shiftl (id p) 48.
Proof.
  intros Hwf. apply Z.bits_inj'; intros i Hi. unfold id.
  rewrite kAddressBits_eq. rewrite Z.shiftl_spec by lia.
  destruct (Z.lt_ge_cases i 48).
  - rewrite (Z.testbit_neg_r _ (i - 48)) by lia.
    rewrite Z.land_spec, kIdBitmask_eq, Z.shiftl_spec_low by lia. apply andb_false_r.
  - rewrite Z.shiftr_spec by lia. f_equal. lia.
Qed.

(** Pointer arithmetic stays on its node: [p += s] keeps the node id and
    moves the address by [s] elements modulo 2^48, so an increment past the
    48-bit address space wraps around instead of changing the node. *)
Theorem ptr_add_spec sz p s :
  ptr_wf p →
  id (ptr_add sz p s) = id p ∧
  address (ptr_add sz p s) = (address p + sz * s) mod 2 ^ 48 ∧
  ptr_wf (ptr_add sz p s).
Proof.
  intros Hwf. pose proof (id_range p Hwf) as Hid.
  assert (ptr_add sz p s = mk_ptr (id p) (raw_ p + sz * s)) as E.
  { enough (raw_ (ptr_add sz p s) = raw_ (mk_ptr (id p) (raw_ p + sz * s))) as Eq.
    { destruct (ptr_add _ _ _), (mk_ptr _ _). cbn in Eq. by subst. }
    rewrite ptr_add_raw, land_id_mask, mk_ptr_raw by done.
    apply lor_disjoint_add; [lia|]. apply Z.mod_pos_bound. lia. }
  rewrite E. split_and!; [by apply id_mk_ptr | | by apply mk_ptr_wf].
  rewrite address_mk_ptr by done. rewrite address_mod, Z.add_mod_idemp_l by lia. done.
Qed.

(** A pointer compares equal to [remote_nullptr] exactly when it names address
    0 of node 0; so node 0 cannot export an object at address 0. *)
Lemma is_null_spec p : ptr_wf p → is_null p = true ↔ id p = 0 ∧ address p = 0.
Proof.
  intros Hwf. unfold is_null. rewrite Z.eqb_eq, (raw_split p) by done.
  pose proof (id_range p Hwf) as Hid. unfold is_u in Hid.
  assert (0 ≤ address p) by (rewrite address_mod; apply Z.mod_pos_bound; lia). lia.
Qed.

(** The order on words is the lexicographic order on (node id, address). *)
Lemma ptr_ltb_spec p q :
  ptr_wf p → ptr_wf q →
  ptr_ltb p q = true ↔ id p < id q ∨ (id p = id q ∧ address p < address q).
Proof.
  intros Hp Hq. unfold ptr_ltb.
  rewrite Z.ltb_lt, (raw_split p), (raw_split q) by done.
  assert (0 ≤ address p < 2 ^ 48) by (rewrite address_mod; apply Z.mod_pos_bound; lia).
  assert (0 ≤ address q < 2 ^ 48) by (rewrite address_mod; apply Z.mod_pos_bound; lia).
  nia.
Qed.

Lemma ptr_add_spec_witness :
  ptr_wf (mk_ptr 3 (2 ^ 48 - 16)) ∧
  id (ptr_add 16 (mk_ptr 3 (2 ^ 48 - 16)) 2) = 3 ∧
  address (ptr_add 16 (mk_ptr 3 (2 ^ 48 - 16)) 2) = 16.
Proof.
  assert (ptr_wf (mk_ptr 3 (2 ^ 48 - 16))) as Hwf
    by (apply mk_ptr_wf; unfold is_u; lia).
  destruct (ptr_add_spec 16 (mk_ptr 3 (2 ^ 48 - 16)) 2 Hwf) as (E1 & E2 & _).
  split; [exact Hwf|]. split; [exact E1|]. exact E2.
Defined.
