(* ===== verification/Memory.v ===== *)
(** * [RdmaMemory] (rdma/memory_pool.h): one big buffer and the memory regions
    registered on it with the RDMA device.

    The driver ([ibv_reg_mr]), the C allocator and the [/proc] file that tells
    the number of huge pages are parameters. *)
From S2P Require Import Prelude Status.

(** The fields of [ibv_mr] that the program reads. *)
Record ibv_mr := mkMr {
  mr_pd : Z; mr_addr : Z; mr_length : Z; mr_lkey : Z; mr_rkey : Z }.

Definition kDefaultId : string := "default".

Record RdmaMemory := mkMemory {
  capacity_ : Z;
  rm_raw : Z;                           (* address of the buffer *)
  rm_huge : bool;                       (* which alternative of the variant *)
  memory_regions_ : gmap string ibv_mr }.

(** [GetNumHugepages]: [file p = None] when the file cannot be opened,
    [Some None] when no number can be read. *)
Definition GetNumHugepages (file : string → option (option Z)) (path : string)
    : StatusVal Z :=
  match file path with
  | None => mkStatusVal (status_append (mkStatus Unknown (Some "Failed to open file: ")) path) None
  | Some (Some n) => mkStatusVal StatusOk (Some n)
  | Some None => mkStatusVal (mkStatus Unknown (Some "Failed to read nr_hugepages")) None
  end.

(** [ValidateRegion(int, int)]; the sum is an [int] sum. *)
Definition ValidateRegion (m : RdmaMemory) (offset length : Z) : result bool :=
  if (offset <? 0) || (length <? 0) then Done false else
  sum ← int_op (offset + length);
  Done (negb (capacity_ m <? u64 sum)).

(** [GetMemoryRegion(id)] *)
Definition GetMemoryRegion (m : RdmaMemory) (id : string) : StatusVal ibv_mr :=
  match memory_regions_ m !! id with
  | None => mkStatusVal (status_append (mkStatus NotFound (Some "Memory region not found: ")) id) None
  | Some mr => mkStatusVal StatusOk (Some mr)
  end.

(** [GetDefaultMemoryRegion()]: dereferences [find(...)] unchecked. *)
Definition GetDefaultMemoryRegion (m : RdmaMemory) : result ibv_mr :=
  defined (memory_regions_ m !! kDefaultId).

(** [mmap_deleter]: the range handed to [munmap]; [sizeof( *raw)] is 1. *)
Definition mmap_deleter (raw : Z) : Z * Z := (raw, 1).

Section driver.
(** [ibv_reg_mr(pd, addr, length)]: [None] is the null pointer. *)
Context (ibv_reg_mr : Z → Z → Z → option ibv_mr).

(** [RegisterMemoryRegion(id, pd, offset, length)] *)
Definition RegisterMemoryRegion (m : RdmaMemory) (id : string)
    (pd offset length : Z) : result (Status * RdmaMemory) :=
  valid ← ValidateRegion m offset length;
  if negb (valid : bool) then
    Done (status_append (mkStatus FailedPrecondition
            (Some "Requested memory region invalid: ")) id, m)
  else match memory_regions_ m !! id with
  | Some _ =>
      Done (status_append (mkStatus AlreadyExists (Some "Memory region exists: {}")) id, m)
  | None =>
      let base := rm_raw m + offset in
      match ibv_reg_mr pd base length with
      | None => Done (mkStatus InternalError (Some "Failed to register memory region"), m)
      | Some mr =>
          Done (StatusOk, mkMemory (capacity_ m) (rm_raw m) (rm_huge m)
                            (<[id := mr]> (memory_regions_ m)))
      end
  end.

(** [RegisterMemoryRegion(id, offset, length)]: in the default region's domain. *)
Definition RegisterMemoryRegion_default (m : RdmaMemory) (id : string)
    (offset length : Z) : result (Status * RdmaMemory) :=
  mr ← GetDefaultMemoryRegion m;
  RegisterMemoryRegion m id (mr_pd mr) offset length.

(** The constructor. [aligned_alloc] and [mmap] answer an address or fail. *)
Definition RdmaMemory_new (file : string → option (option Z))
    (aligned_alloc mmap : Z → option Z)
    (capacity : Z) (path : option string) (pd : Z) : result RdmaMemory :=
  let use_hugepages :=
    match path with
    | None => false
    | Some p =>
        let nr := GetNumHugepages file p in
        is_ok (sv_status nr) && match sv_val nr with Some n => 0 <? n | None => false end
    end in
  raw ← (if use_hugepages then
           match mmap capacity with Some a => Done a | None => Fault FAbort end
         else
           let bytes := u64 (Z.shiftl (u64 (Z.shiftr capacity 6 + 1)) 6) in
           match aligned_alloc bytes with Some a => Done a | None => Fault FAbort end);
  let m := mkMemory capacity raw use_hugepages ∅ in
  '(s, m') ← RegisterMemoryRegion m kDefaultId pd 0 (to_i32 capacity);
  _ ← OK_OR_FAIL s;
  Done m'.

(** A region lies inside the buffer it was registered on. *)
Definition region_ok (m : RdmaMemory) (mr : ibv_mr) : Prop :=
  0 ≤ mr_length mr ∧ rm_raw m ≤ mr_addr mr ∧
  mr_addr mr + mr_length mr ≤ rm_raw m + capacity_ m.

Definition mem_wf (m : RdmaMemory) : Prop :=
  is_u 64 (capacity_ m) ∧ map_Forall (λ _, region_ok m) (memory_regions_ m).

Lemma ValidateRegion_true m offset length :
  is_u 64 (capacity_ m) →
  ValidateRegion m offset length = Done true →
  0 ≤ offset ∧ 0 ≤ length ∧ offset + length ≤ capacity_ m.
Proof.
  unfold ValidateRegion, is_u. intros Hc.
  destruct (Z.ltb_spec offset 0), (Z.ltb_spec length 0); cbn; try done.
  intros Hv. done_inv. unfold u64, INT_MAX, INT_MIN in *.
  rewrite Z.mod_small in Hv by lia.
  destruct (Z.ltb_spec (capacity_ m) (offset + length)); [done|lia].
Qed.

Lemma ValidateRegion_ok m offset length :
  0 ≤ offset → 0 ≤ length → offset + length ≤ INT_MAX →
  ValidateRegion m offset length = Done (offset + length <=? capacity_ m).
Proof.
  intros. unfold ValidateRegion, int_op, u64, INT_MIN, INT_MAX in *.
  destruct (Z.ltb_spec offset 0), (Z.ltb_spec length 0); cbn; try lia.
  destruct (Z.leb_spec (- 2 ^ 31) (offset + length)); [|lia].
  destruct (Z.leb_spec (offset + length) (2 ^ 31 - 1)); [|lia]. cbn.
  rewrite Z.mod_small by lia. f_equal.
  destruct (Z.ltb_spec (capacity_ m) (offset + length)),
           (Z.leb_spec (offset + length) (capacity_ m)); (done || lia).
Qed.

(** The driver's documented answer: a region over exactly the given range. *)
Hypothesis reg_mr_range : ∀ pd a l mr,
  ibv_reg_mr pd a l = Some mr → mr_pd mr = pd ∧ mr_addr mr = a ∧ mr_length mr = l.

(** Registering a region. It reports [Ok] exactly when the id was free
    and now names the range [raw+offset, +length), which lies inside the
    buffer; whatever it reports, the buffer is unchanged, every earlier
    region is kept, and all regions stay inside the buffer. *)
Theorem RegisterMemoryRegion_spec m id pd offset length s m' :
  mem_wf m →
  RegisterMemoryRegion m id pd offset length = Done (s, m') →
  mem_wf m' ∧ capacity_ m' = capacity_ m ∧ rm_raw m' = rm_raw m ∧
  memory_regions_ m ⊆ memory_regions_ m' ∧
  (st_t s = Ok ↔ memory_regions_ m !! id = None ∧
     ∃ mr, memory_regions_ m' !! id = Some mr ∧ region_ok m' mr ∧
           mr_addr mr = rm_raw m + offset ∧ mr_length mr = length).
Proof.
  intros [Hc Hall] H. unfold RegisterMemoryRegion in H. done_inv.
  destruct r; cbn in H.
  2:{ injection H as <- <-. split_and!; try done.
      split; [done|]. intros (E & mr & E' & _). congruence. }
  apply ValidateRegion_true in H0 as (Ho & Hl & Hsum); [|done].
  destruct (memory_regions_ m !! id) eqn:Hid.
  { injection H as <- <-. split_and!; try done. split; [done|]. by intros []. }
  destruct (ibv_reg_mr pd (rm_raw m + offset) length) as [mr|] eqn:Hreg;
    injection H as <- <-.
  2:{ split_and!; try done. split; [done|].
      intros (_ & mr & E' & _). congruence. }
  apply reg_mr_range in Hreg as (_ & Ha & Hlen).
  assert (region_ok m mr) as Hmr by (unfold region_ok; lia).
  split_and!; cbn; try done.
  - split; [done|]. by apply map_Forall_insert_2.
  - by apply insert_subseteq.
  - split; [intros _; split; [done|]; exists mr; by rewrite lookup_insert_eq|done].
Qed.

(** The constructor and the width of [int]. A buffer below 2 GiB whose
    allocation and registration succeed gets a default region over all of
    it; the registration takes [int] arguments, so every capacity from 2 GiB
    up to 4 GiB wraps to a negative length and aborts the program. *)
Theorem RdmaMemory_new_capacity file aligned_alloc mmap capacity path pd :
  (0 ≤ capacity < 2 ^ 31 →
   (∀ n, is_Some (aligned_alloc n)) → (∀ n, is_Some (mmap n)) →
   (∀ a, is_Some (ibv_reg_mr pd a capacity)) →
   ∃ m mr, RdmaMemory_new file aligned_alloc mmap capacity path pd = Done m ∧
     mem_wf m ∧ memory_regions_ m = {[ kDefaultId := mr ]} ∧
     mr_addr mr = rm_raw m ∧ mr_length mr = capacity ∧ capacity_ m = capacity) ∧
  (2 ^ 31 ≤ capacity < 2 ^ 32 →
   RdmaMemory_new file aligned_alloc mmap capacity path pd = Fault FAbort).
Proof.
  unfold RdmaMemory_new. set (use := match path with None => _ | Some _ => _ end).
  split.
  - intros Hc Ha Hm Hr.
    assert (∃ raw, (if use then match mmap capacity with Some a => Done a | None => Fault FAbort end
      else match aligned_alloc (u64 (Z.shiftl (u64 (Z.shiftr capacity 6 + 1)) 6)) with
           | Some a => Done a | None => Fault FAbort end) = Done raw) as [raw Eraw].
    { destruct use; [destruct (Hm capacity) as [a ->]|
        destruct (Ha (u64 (Z.shiftl (u64 (Z.shiftr capacity 6 + 1)) 6))) as [a ->]]; eauto. }
    cbv zeta. rewrite Eraw, bind_done.
    rewrite to_i32_small by (unfold INT_MIN, INT_MAX; lia).
    unfold RegisterMemoryRegion.
    rewrite ValidateRegion_ok by (unfold INT_MAX; lia). cbn [capacity_ memory_regions_ rm_raw].
    rewrite bind_done. destruct (Z.leb_spec (0 + capacity) capacity); [|lia].
    cbn [negb]. rewrite lookup_empty.
    destruct (Hr (raw + 0)) as [mr Hmr]. rewrite Hmr. rewrite bind_done. cbn.
    apply reg_mr_range in Hmr as (_ & Eaddr & Elen).
    eexists _, mr. split; [done|]. split_and!; cbn; try done; [|lia].
    split; [unfold is_u; cbn; lia|].
    apply map_Forall_insert_2; [unfold region_ok; cbn; lia | apply map_Forall_empty].
  - intros Hc. cbv zeta.
    assert (to_i32 capacity = capacity - 2 ^ 32) as ->.
    { unfold to_i32. cbv zeta. rewrite Z.mod_small by lia.
      destruct (Z.ltb_spec capacity (2 ^ 31)); lia. }
    destruct use; [destruct (mmap _)|destruct (aligned_alloc _)]; try done;
      rewrite bind_done; unfold RegisterMemoryRegion, ValidateRegion;
      (destruct (Z.ltb_spec (capacity - 2 ^ 32) 0); [|lia]); reflexivity.
Qed.
End driver.

(** The concrete driver of the witnesses: it grants every registration. *)
Definition grant_mr (pd a l : Z) : option ibv_mr := Some (mkMr pd a l 7 9).

Lemma RegisterMemoryRegion_spec_witness :
  let m := mkMemory 4096 65536 false ∅ in
  mem_wf m ∧ ∃ m', RegisterMemoryRegion grant_mr m "send" 1 0 2048 = Done (StatusOk, m') ∧
  mem_wf m'.
Proof.
  intros m.
  assert (mem_wf m) as Hwf.
  { split; [unfold is_u; cbn; lia | apply map_Forall_empty]. }
  split; [exact Hwf|]. eexists. split; [reflexivity|].
  eapply (RegisterMemoryRegion_spec grant_mr) with (m := m) (id := "send") (pd := 1)
    (offset := 0) (length := 2048).
  - intros ???? [= <-]. done.
  - exact Hwf.
  - reflexivity.
Defined.

Lemma RdmaMemory_new_capacity_witness :
  (∃ m, RdmaMemory_new grant_mr (λ _, None) (λ _, Some 65536) (λ _, Some 0) 4096 None 1
        = Done m ∧ mem_wf m) ∧
  RdmaMemory_new grant_mr (λ _, None) (λ _, Some 65536) (λ _, None) (2 ^ 31 + 8) None 1
  = Fault FAbort.
Proof.
  assert (∀ pd a l mr, grant_mr pd a l = Some mr →
            mr_pd mr = pd ∧ mr_addr mr = a ∧ mr_length mr = l) as Hdrv
    by (intros ???? [= <-]; done).
  split.
  - destruct (RdmaMemory_new_capacity grant_mr Hdrv (λ _, None) (λ _, Some 65536)
      (λ _, Some 0) 4096 None 1) as [Hsmall _].
    destruct Hsmall as (m & mr & E & Hwf & _); [lia|by eauto..|]. exists m. by split.
  - apply (RdmaMemory_new_capacity grant_mr Hdrv). lia.
Defined.
