(* ===== verification/SlabAllocator.v ===== *)
(** * [rdma_memory_resource] and [rdma_allocator] (rdma/memory_pool.h)

    A slab allocator over the RDMA buffer: freed blocks go to a per-thread free
    list of their size class, and a miss carves a new block off the top of the
    unused part by compare-and-swap on [head_]. *)
From S2P Require Import Prelude.

Definition kMinSlabClass : Z := 3.
Definition kMaxSlabClass : Z := 20.
Definition kNumSlabClasses : Z := kMaxSlabClass - kMinSlabClass + 1.
Definition kMaxAlignment : Z := Z.shiftl 1 8.

Definition LT (n : Z) : list Z := replicate 16 n.
Definition kLogTable : list Z :=
  [-1; 0; 1; 1; 2; 2; 2; 2;
   3; 3; 3; 3; 3; 3; 3; 3] ++
  LT 4 ++ LT 5 ++ LT 5 ++ LT 6 ++ LT 6 ++ LT 6 ++ LT 6 ++ LT 7 ++
  LT 7 ++ LT 7 ++ LT 7 ++ LT 7 ++ LT 7 ++ LT 7 ++ LT 7.

(** [kLogTable[i]]: reading past the table is undefined. *)
Definition log_table (i : Z) : result Z := defined (kLogTable !! Z.to_nat i).

(** [UpperLog2(size_t x)] *)
Definition UpperLog2 (x : Z) : result Z :=
  let q := Z.shiftr x 16 in
  r ← (if negb (q =? 0) then
         let p := Z.shiftr q 8 in
         if negb (p =? 0) then t ← log_table p; Done (u64 (24 + t))
         else t ← log_table q; Done (u64 (16 + t))
       else
         let p := Z.shiftr x 8 in
         if negb (p =? 0) then t ← log_table p; Done (u64 (8 + t))
         else t ← log_table x; Done (u64 t));
  if 64 <=? r then Fault FUndef else
  Done (u32 (if u64 (Z.shiftl 1 r) <? x then r + 1 else r)).

(** [alignments_] and [freelists_] are [thread_local]. *)
Record thread_slabs := mkSlabs {
  alignments_ : list Z;
  freelists_ : list (list (Z * Z)) }.

(** The state [thread_local] storage starts in, and the constructor's [memset]. *)
Definition slabs_init : thread_slabs :=
  mkSlabs (replicate (Z.to_nat kNumSlabClasses) 0) (replicate (Z.to_nat kNumSlabClasses) []).

Record memory_resource := mkResource {
  rdma_raw : Z;                          (* rdma_memory_->raw() *)
  head_ : Z;
  slabs : gmap nat thread_slabs }.       (* by thread *)

Definition thread_state (m : memory_resource) (tid : nat) : thread_slabs :=
  match slabs m !! tid with Some s => s | None => slabs_init end.

(** [rdma_memory_resource(bytes, pd)] on a thread: the buffer comes from
    [RdmaMemory]; [alignments_] of the constructing thread is cleared. *)
Definition rdma_memory_resource_new (raw bytes : Z) (tid : nat)
    (old : gmap nat thread_slabs) : memory_resource :=
  let s := match old !! tid with Some s => s | None => slabs_init end in
  mkResource raw (raw + bytes)
    (<[tid := mkSlabs (replicate (Z.to_nat kNumSlabClasses) 0) (freelists_ s)]> old).

(** The slab class of a request, as both entry points compute it. *)
Definition slab_class (bytes : Z) : result Z :=
  l ← UpperLog2 bytes; Done (Z.max kMinSlabClass (u8 l)).

(** The candidate of the bump loop: the block that would end at [head] rounded
    down to [alignment]; [None] is the out-of-memory exit. *)
Definition bump_candidate (raw head bytes alignment : Z) : option Z :=
  let d := u64 (Z.land head (u64 (Z.lnot (alignment - 1))) - bytes) in
  if d <? raw then None else Some d.

(** The answer of [do_allocate]: the pointer ([0] is [nullptr]) and the range
    cleared by [memset], if any. *)
Record allocation := mkAlloc { al_ptr : Z; al_zeroed : option (Z * Z) }.

(** The bump path, run without interference ([compare_exchange] succeeds). *)
Definition bump_allocate (m : memory_resource) (bytes alignment : Z)
    : allocation * memory_resource :=
  match bump_candidate (rdma_raw m) (head_ m) bytes alignment with
  | None => (mkAlloc 0 None, m)
  | Some d => (mkAlloc d None, mkResource (rdma_raw m) d (slabs m))
  end.

(** [do_allocate(bytes, alignment)] *)
Definition do_allocate (m : memory_resource) (tid : nat) (bytes alignment : Z)
    : result (allocation * memory_resource) :=
  let bytes := if bytes <? alignment then alignment else bytes in
  slabclass ← slab_class bytes;
  let idx := slabclass - kMinSlabClass in
  _ ← rome_assert ((0 <=? idx) && (idx <? kNumSlabClasses));
  _ ← rome_assert (alignment <=? kMaxAlignment);
  let ts := thread_state m tid in
  al ← defined (alignments_ ts !! Z.to_nat idx);
  if negb (Z.land al alignment =? 0) then
    freelist ← defined (freelists_ ts !! Z.to_nat idx);
    _ ← rome_assert (negb (bool_decide (freelist = [])));      (* ROME_ASSERT_DEBUG *)
    match find_split (λ f : Z * Z, alignment <=? f.1) freelist with
    | Some (pre, f, post) =>
        let al' := if bool_decide (post = []) then u8 (Z.land al (Z.lnot alignment)) else al in
        let ts' := mkSlabs (<[Z.to_nat idx := al']> (alignments_ ts))
                           (<[Z.to_nat idx := pre ++ post]> (freelists_ ts)) in
        Done (mkAlloc f.2 (Some (f.2, Z.shiftl 1 slabclass)),
              mkResource (rdma_raw m) (head_ m) (<[tid := ts']> (slabs m)))
    | None => Done (bump_allocate m bytes alignment)
    end
  else Done (bump_allocate m bytes alignment).

(** [do_deallocate(p, bytes, alignment)]: no range check on the class. *)
Definition do_deallocate (m : memory_resource) (tid : nat) (p bytes alignment : Z)
    : result memory_resource :=
  slabclass ← slab_class bytes;
  let idx := slabclass - kMinSlabClass in
  let ts := thread_state m tid in
  al ← defined (alignments_ ts !! Z.to_nat idx);
  freelist ← defined (freelists_ ts !! Z.to_nat idx);
  let ts' := mkSlabs (<[Z.to_nat idx := u8 (Z.lor al alignment)]> (alignments_ ts))
                     (<[Z.to_nat idx := freelist ++ [(alignment, p)]]> (freelists_ ts)) in
  Done (mkResource (rdma_raw m) (head_ m) (<[tid := ts']> (slabs m))).

(** [rdma_allocator<T>::allocate(n)] and [deallocate(p, n)]: alignment 64. *)
Definition allocate (sizeof_T : Z) (m : memory_resource) (tid : nat) (n : Z)
    : result (allocation * memory_resource) :=
  do_allocate m tid (u64 (sizeof_T * n)) 64.
Definition deallocate (sizeof_T : Z) (m : memory_resource) (tid : nat) (p n : Z)
    : result memory_resource :=
  do_deallocate m tid p (u64 (sizeof_T * n)) 64.

(** ** [UpperLog2] *)
Lemma log_table_log2 i : 1 ≤ i < 256 → log_table i = Done (Z.log2 i).
Proof.
  intros Hi.
  assert (forallb (λ n, bool_decide (log_table (Z.of_nat n) = Done (Z.log2 (Z.of_nat n))))
            (seq 1 255) = true) as Hall by (vm_compute; reflexivity).
  rewrite forallb_forall in Hall.
  specialize (Hall (Z.to_nat i)). rewrite in_seq in Hall.
  rewrite Z2Nat.id in Hall by lia. apply (bool_decide_unpack _), Is_true_true, Hall. lia.
Qed.

Lemma log2_shift x k : 0 ≤ k → 0 < Z.shiftr x k → 0 < x →
  Z.log2 x = k + Z.log2 (Z.shiftr x k).
Proof.
  intros Hk Hs Hx. rewrite Z.log2_shiftr by lia.
  rewrite Z.max_r; [lia|].
  destruct (Z.le_gt_cases k (Z.log2 x)) as [|Hlt]; [lia|].
  rewrite Z.shiftr_eq_0 in Hs; lia.
Qed.

Lemma shiftr_bounds x a b : 0 ≤ a → 0 ≤ b → 0 ≤ x < 2 ^ (a + b) → 0 ≤ Z.shiftr x a < 2 ^ b.
Proof.
  intros. rewrite Z.shiftr_div_pow2 by lia. rewrite Z.pow_add_r in * by lia.
  split; [apply Z.div_pos; lia | apply Z.div_lt_upper_bound; lia].
Qed.

Lemma shiftr_eq_0_lt x k : 0 ≤ k → Z.shiftr x k = 0 → x < 2 ^ k.
Proof.
  intros Hk E. rewrite Z.shiftr_div_pow2 in E by lia. pose proof (Z.pow_pos_nonneg 2 k).
  pose proof (Z.div_mod x (2 ^ k)). pose proof (Z.mod_pos_bound x (2 ^ k)). lia.
Qed.

Lemma UpperLog2_log2_up x : 1 ≤ x < 2 ^ 32 → UpperLog2 x = Done (Z.log2_up x).
Proof.
  intros Hx. unfold UpperLog2. cbv zeta.
  pose proof (shiftr_bounds x 16 16 ltac:(lia) ltac:(lia) ltac:(lia)) as Hq.
  pose proof (shiftr_bounds (Z.shiftr x 16) 8 8 ltac:(lia) ltac:(lia) ltac:(lia)) as Hqp.
  pose proof (Z.log2_nonneg x) as Hlog0.
  assert (Z.log2 x < 32) as Hlog by (apply Z.log2_lt_pow2; lia).
  match goal with |- (?m ≫= _) = _ => assert (m = Done (Z.log2 x)) as -> end.
  { destruct (Z.eqb_spec (Z.shiftr x 16) 0) as [Eq|Nq]; cbn [negb].
    - assert (x < 2 ^ 16) as Hx16 by (apply shiftr_eq_0_lt; lia).
      pose proof (shiftr_bounds x 8 8 ltac:(lia) ltac:(lia) ltac:(lia)) as Hp.
      destruct (Z.eqb_spec (Z.shiftr x 8) 0) as [Ep|Np]; cbn [negb].
      + assert (x < 2 ^ 8) by (apply shiftr_eq_0_lt; lia).
        rewrite log_table_log2 by lia. cbn. unfold u64. by rewrite wrap_small by (unfold is_u; lia).
      + rewrite log_table_log2 by lia. cbn. rewrite <- log2_shift by lia.
        unfold u64. by rewrite wrap_small by (unfold is_u; lia).
    - destruct (Z.eqb_spec (Z.shiftr (Z.shiftr x 16) 8) 0) as [Ep|Np]; cbn [negb].
      + assert (Z.shiftr x 16 < 2 ^ 8) by (apply shiftr_eq_0_lt; lia).
        rewrite log_table_log2 by lia. cbn. rewrite <- log2_shift by lia.
        unfold u64. by rewrite wrap_small by (unfold is_u; lia).
      + rewrite log_table_log2 by lia. cbn.
        rewrite Z.shiftr_shiftr in * by lia. change (16 + 8) with 24 in *.
        rewrite <- log2_shift by lia. unfold u64. by rewrite wrap_small by (unfold is_u; lia). }
  rewrite bind_done. destruct (Z.leb_spec 64 (Z.log2 x)); [lia|]. f_equal.
  rewrite Z.shiftl_1_l. unfold u64. rewrite wrap_small.
  2:{ unfold is_u. split; [lia|]. apply Z.pow_lt_mono_r; lia. }
  pose proof (Z.log2_spec x ltac:(lia)) as [Hlo Hhi].
  pose proof (Z.le_log2_log2_up x) as Hup1. pose proof (Z.le_log2_up_succ_log2 x) as Hup2.
  destruct (Z.ltb_spec (2 ^ Z.log2 x) x) as [Hlt|Hge].
  - unfold u32. rewrite wrap_small by (unfold is_u; lia).
    destruct (Z.eq_dec (Z.log2_up x) (Z.log2 x)) as [E|]; [|lia].
    assert (1 < x). { destruct (Z.eq_dec x 1) as [->|]; [cbn in Hlt; lia|lia]. }
    pose proof (Z.log2_up_spec x ltac:(lia)). rewrite E in *. lia.
  - unfold u32. rewrite wrap_small by (unfold is_u; lia).
    assert (x = 2 ^ Z.log2 x) as Ex by lia. rewrite Ex at 2.
    by rewrite Z.log2_up_pow2.
Qed.

(** [UpperLog2], five steps of shifts and masks, is the rounded-up binary logarithm on
    every size from 1 byte up to 4 GiB; size 0 shifts by [(size_t)-1] and is undefined. *)
Theorem UpperLog2_spec x :
  (1 ≤ x < 2 ^ 32 → UpperLog2 x = Done (Z.log2_up x)) ∧ UpperLog2 0 = Fault FUndef.
Proof. split; [apply UpperLog2_log2_up|reflexivity]. Qed.

Lemma UpperLog2_spec_witness : UpperLog2 100000 = Done 17.
Proof. apply (UpperLog2_spec 100000). lia. Defined.

(** ** Blocks *)
Definition block : Type := Z * Z.        (* address, size *)
Definition blocks_disjoint (b1 b2 : block) : Prop :=
  b1.1 + b1.2 ≤ b2.1 ∨ b2.1 + b2.2 ≤ b1.1.

Fixpoint all_disjoint (l : list block) : Prop :=
  match l with
  | [] => True
  | b :: l' => Forall (blocks_disjoint b) l' ∧ all_disjoint l'
  end.

Lemma blocks_disjoint_sym b1 b2 : blocks_disjoint b1 b2 → blocks_disjoint b2 b1.
Proof. unfold blocks_disjoint. tauto. Qed.

#[export] Instance all_disjoint_perm : Proper ((≡ₚ) ==> iff) all_disjoint.
Proof.
  assert (∀ l1 l2, l1 ≡ₚ l2 → all_disjoint l1 → all_disjoint l2) as H.
  { intros l1 l2 HP. induction HP as [|x l1 l2 HP IH|x y l|]; cbn; [done| | |auto].
    - intros [Hf Hd]. split; [by rewrite <- HP|auto].
    - intros [Hf [Hf' Hd]]. inversion Hf; subst.
      split_and!; [|done..]. constructor; [by apply blocks_disjoint_sym|done]. }
  intros l1 l2 HP. split; apply H; [done|by symmetry].
Qed.

(** The free blocks of a thread: class [i] holds blocks of [2^(i+3)] bytes. *)
Definition free_class (i : nat) (fl : list (Z * Z)) : list block :=
  (λ f : Z * Z, (f.2, 2 ^ (Z.of_nat i + kMinSlabClass))) <$> fl.
Definition free_blocks (ts : thread_slabs) : list block :=
  concat (imap free_class (freelists_ ts)).
Definition pool_free (s : gmap nat thread_slabs) : list block :=
  concat ((λ p : nat * thread_slabs, free_blocks p.2) <$> map_to_list s).

Lemma imap_concat_insert {A B} (f : nat → A → list B) (l : list A) i x :
  l !! i = Some x →
  ∃ rest, concat (imap f l) ≡ₚ f i x ++ rest ∧
          ∀ y, concat (imap f (<[i := y]> l)) ≡ₚ f i y ++ rest.
Proof.
  intros Hi. pose proof (lookup_lt_Some _ _ _ Hi) as Hlt.
  exists (concat (imap f (take i l)) ++
          concat (imap (λ n, f (S i + n)%nat) (drop (S i) l))).
  assert (∀ y, concat (imap f (take i l ++ y :: drop (S i) l))
    ≡ₚ f i y ++ concat (imap f (take i l)) ++
       concat (imap (λ n, f (S i + n)%nat) (drop (S i) l))) as E.
  { intros y. rewrite imap_app, concat_app. cbn. rewrite length_take_le by lia.
    rewrite Nat.add_0_r, Permutation_app_comm, <- app_assoc.
    apply Permutation_app_head. rewrite Permutation_app_comm.
    apply Permutation_app_head.
    rewrite (imap_ext (f ∘ Nat.add i ∘ S) (λ n, f (S i + n)%nat)); [done|].
    intros n ? _. cbn. f_equal. lia. }
  split.
  - rewrite <- (take_drop_middle l i x) at 1 by done. apply E.
  - intros y. rewrite insert_take_drop by done. apply E.
Qed.

Lemma pool_free_thread m tid :
  ∃ rest, pool_free (slabs m) ≡ₚ free_blocks (thread_state m tid) ++ rest ∧
    ∀ ts, pool_free (<[tid := ts]> (slabs m)) ≡ₚ free_blocks ts ++ rest.
Proof.
  exists (pool_free (delete tid (slabs m))). split.
  - unfold thread_state. destruct (slabs m !! tid) as [ts|] eqn:E.
    + unfold pool_free. rewrite <- (insert_delete_id _ _ _ E) at 1.
      rewrite map_to_list_insert by apply lookup_delete_eq. done.
    + by rewrite delete_id.
  - intros ts. unfold pool_free. rewrite <- insert_delete_eq.
    rewrite map_to_list_insert by apply lookup_delete_eq. done.
Qed.

(** ** The allocator's invariant, for clients that request power-of-two sizes *)
Definition slabs_ok (ts : thread_slabs) : Prop :=
  length (alignments_ ts) = Z.to_nat kNumSlabClasses ∧
  length (freelists_ ts) = Z.to_nat kNumSlabClasses ∧
  ∀ i fl, freelists_ ts !! i = Some fl →
    Forall (λ f : Z * Z, f.1 = 64) fl ∧
    alignments_ ts !! i = Some (if bool_decide (fl = []) then 0 else 64).

Definition block_ok (lo top : Z) (b : block) : Prop :=
  lo ≤ b.1 ∧ b.1 + b.2 ≤ top ∧ b.1 mod 64 = 0.

Record resource_inv (m : memory_resource) (top : Z) (live : list block) : Prop := {
  inv_raw : 2 ^ 20 ≤ rdma_raw m ∧ rdma_raw m mod 64 = 0;
  inv_head : rdma_raw m ≤ head_ m ≤ top ∧ top < 2 ^ 64;
  inv_disjoint : all_disjoint (live ++ pool_free (slabs m));
  inv_within : Forall (block_ok (head_ m) top) (live ++ pool_free (slabs m));
  inv_slabs : map_Forall (λ _, slabs_ok) (slabs m) }.

#[export] Instance resource_inv_perm m top : Proper ((≡ₚ) ==> iff) (resource_inv m top).
Proof.
  assert (∀ l1 l2, l1 ≡ₚ l2 → resource_inv m top l1 → resource_inv m top l2) as H.
  { intros l1 l2 HP [Hr Hh Hd Hw Hs]. split; [done..| | |done]; by rewrite <- HP. }
  intros l1 l2 HP. split; apply H; [done|by symmetry].
Qed.

(** A size class of the clients: [2^k] bytes, between a cache line and 1 MiB. *)
Definition class_size (s : Z) : Prop := ∃ k, 6 ≤ k ≤ 20 ∧ s = 2 ^ k.

Lemma slab_class_pow2 k : 6 ≤ k ≤ 20 → slab_class (2 ^ k) = Done k.
Proof.
  intros Hk. unfold slab_class.
  rewrite (UpperLog2_log2_up (2 ^ k)).
  - cbn. rewrite Z.log2_up_pow2 by lia. unfold u8.
    rewrite wrap_small by (unfold is_u; lia). unfold kMinSlabClass. f_equal. lia.
  - split; [pose proof (Z.pow_pos_nonneg 2 k); lia|].
    apply Z.pow_lt_mono_r; lia.
Qed.

Lemma align64_land e : 0 ≤ e < 2 ^ 64 → Z.land e (u64 (Z.lnot (64 - 1))) = e - e mod 64.
Proof.
  intros He.
  assert (u64 (Z.lnot (64 - 1)) = Z.shiftl (Z.ones 58) 6) as -> by reflexivity.
  transitivity (Z.shiftl (Z.shiftr e 6) 6).
  - apply Z.bits_inj'; intros i Hi. rewrite Z.land_spec.
    destruct (Z.lt_ge_cases i 6).
    + rewrite !Z.shiftl_spec_low by lia. apply andb_false_r.
    + rewrite !Z.shiftl_spec, Z.shiftr_spec by lia. replace (i - 6 + 6) with i by lia.
      destruct (Z.lt_ge_cases i 64).
      * rewrite Z.ones_spec_low by lia. apply andb_true_r.
      * rewrite Z.ones_spec_high by lia. rewrite andb_false_r. symmetry.
        rewrite <- (Z.mod_small e (2 ^ 64)) by lia. apply Z.mod_pow2_bits_high. lia.
  - rewrite Z.shiftl_mul_pow2, Z.shiftr_div_pow2 by lia. change (2 ^ 6) with 64.
    pose proof (Z.div_mod e 64). lia.
Qed.

Lemma bump_candidate_spec raw head bytes :
  2 ^ 20 ≤ raw → raw mod 64 = 0 → raw ≤ head < 2 ^ 64 → 0 ≤ bytes ≤ 2 ^ 20 →
  bump_candidate raw head bytes 64
  = if head - head mod 64 - bytes <? raw then None else Some (head - head mod 64 - bytes).
Proof.
  intros Hr Hm Hh Hb. unfold bump_candidate. rewrite align64_land by lia.
  cbv zeta. pose proof (Z.mod_pos_bound head 64 ltac:(lia)).
  assert (raw ≤ head - head mod 64).
  { pose proof (Z.div_mod head 64). pose proof (Z.div_mod raw 64).
    assert (raw / 64 ≤ head / 64) by (apply Z.div_le_mono; lia). lia. }
  unfold u64. rewrite wrap_small by (unfold is_u; lia). done.
Qed.

Lemma bump_next_aligned head bytes : bytes mod 64 = 0 →
  (head - head mod 64 - bytes) mod 64 = 0.
Proof.
  intros Hb. replace (head - head mod 64 - bytes)
    with ((head / 64 - bytes / 64) * 64) by
    (pose proof (Z.div_mod head 64); pose proof (Z.div_mod bytes 64); lia).
  apply Z_mod_mult.
Qed.

Lemma class_size_bounds s : class_size s → 64 ≤ s ≤ 2 ^ 20 ∧ s mod 64 = 0.
Proof.
  intros (k & Hk & ->). split.
  - split; [change 64 with (2 ^ 6)|]; apply Z.pow_le_mono_r; lia.
  - replace k with (k - 6 + 6) by lia. rewrite Z.pow_add_r by lia.
    change (2 ^ 6) with 64. apply Z_mod_mult.
Qed.

Lemma slabs_ok_init : slabs_ok slabs_init.
Proof.
  split_and!; [done..|]. intros i fl. cbn.
  intros Hi. do 18 (destruct i as [|i]; [by injection Hi as <-|]). by destruct i.
Qed.

Lemma thread_state_ok m tid : map_Forall (λ _, slabs_ok) (slabs m) →
  slabs_ok (thread_state m tid).
Proof.
  intros H. unfold thread_state. destruct (slabs m !! tid) eqn:E; [by eapply H|].
  apply slabs_ok_init.
Qed.

Lemma free_blocks_insert ts i fl :
  freelists_ ts !! i = Some fl →
  ∃ rest, free_blocks ts ≡ₚ free_class i fl ++ rest ∧
    ∀ al fl', free_blocks (mkSlabs al (<[i := fl']> (freelists_ ts))) ≡ₚ
              free_class i fl' ++ rest.
Proof.
  intros H. destruct (imap_concat_insert free_class _ _ _ H) as (rest & E1 & E2).
  exists rest. split; [done|]. intros al fl'. unfold free_blocks. cbn. apply E2.
Qed.

Lemma slabs_ok_insert ts i fl :
  slabs_ok ts → (i < Z.to_nat kNumSlabClasses)%nat → Forall (λ f : Z * Z, f.1 = 64) fl →
  slabs_ok (mkSlabs (<[i := if bool_decide (fl = []) then 0 else 64]> (alignments_ ts))
                    (<[i := fl]> (freelists_ ts))).
Proof.
  intros (Ha & Hf & Hi) Hlt Hfl. split_and!; cbn; rewrite ?length_insert; try done.
  intros j fl'. destruct (decide (i = j)) as [<-|Hne].
  - rewrite !list_lookup_insert_eq by lia. intros [= <-]. done.
  - rewrite !list_lookup_insert_ne by done. apply Hi.
Qed.

Lemma block_ok_mono lo lo' top b : lo' ≤ lo → block_ok lo top b → block_ok lo' top b.
Proof. unfold block_ok. lia. Qed.

(** The bump path keeps the invariant and hands out a fresh block. *)
Lemma bump_allocate_inv m top live bytes :
  resource_inv m top live → class_size bytes →
  ∃ a m', bump_allocate m bytes 64 = (a, m') ∧
    (a = mkAlloc 0 None ∧ m' = m ∨
     al_ptr a ≠ 0 ∧ al_zeroed a = None ∧ resource_inv m' top ((al_ptr a, bytes) :: live)).
Proof.
  intros [Hraw Hhead Hdis Hin Hsl] Hs. apply class_size_bounds in Hs as [Hb Hb64].
  unfold bump_allocate. rewrite bump_candidate_spec by lia.
  pose proof (Z.mod_pos_bound (head_ m) 64 ltac:(lia)).
  destruct (Z.ltb_spec (head_ m - head_ m mod 64 - bytes) (rdma_raw m)).
  { eexists _, _. split; [done|]. by left. }
  eexists _, _. split; [done|]. right. cbn. split_and!; [lia|done|].
  split; cbn; [done|lia| |..].
  - split; [|done]. eapply Forall_impl; [exact Hin|].
    intros b (? & _). left. cbn. lia.
  - constructor.
    + unfold block_ok. cbn. split_and!; [lia|lia|]. by apply bump_next_aligned.
    + eapply Forall_impl; [exact Hin|]. intros b. apply block_ok_mono. lia.
  - done.
Qed.

(** Replacing one free list: the other free blocks of the pool are untouched. *)
Lemma pool_free_insert m tid i fl :
  freelists_ (thread_state m tid) !! i = Some fl →
  ∃ rest, pool_free (slabs m) ≡ₚ free_class i fl ++ rest ∧
    ∀ al fl', pool_free (<[tid := mkSlabs al (<[i := fl']> (freelists_ (thread_state m tid)))]>
                (slabs m)) ≡ₚ free_class i fl' ++ rest.
Proof.
  intros H. destruct (pool_free_thread m tid) as (rest & E1 & E2).
  destruct (free_blocks_insert _ _ _ H) as (rest' & F1 & F2).
  exists (rest' ++ rest). split.
  - by rewrite E1, F1, <- app_assoc.
  - intros al fl'. by rewrite E2, F2, <- app_assoc.
Qed.

Lemma Forall_64_split pre (f : Z * Z) post :
  Forall (λ f : Z * Z, f.1 = 64) (pre ++ f :: post) →
  f.1 = 64 ∧ Forall (λ f : Z * Z, f.1 = 64) (pre ++ post).
Proof.
  rewrite !Forall_app, Forall_cons. tauto.
Qed.

Lemma find_first_64 (fl : list (Z * Z)) :
  Forall (λ f : Z * Z, f.1 = 64) fl → fl ≠ [] →
  ∃ f post, fl = f :: post ∧ find_split (λ f : Z * Z, 64 <=? f.1) fl = Some ([], f, post).
Proof.
  intros Hall Hne. destruct fl as [|f post]; [done|].
  inversion Hall as [|? ? Hf]; subst. exists f, post. split; [done|].
  cbn. by rewrite Hf.
Qed.

(** Taking the first block of a free list: the block becomes live, nothing else moves. *)
Lemma free_list_pop_inv m top live tid k al p post :
  resource_inv m top live → 3 ≤ k < 21 →
  freelists_ (thread_state m tid) !! Z.to_nat (k - 3) = Some ((al, p) :: post) →
  Forall (λ f : Z * Z, f.1 = 64) ((al, p) :: post) →
  let al' := if bool_decide (post = []) then u8 (Z.land 64 (Z.lnot 64)) else 64 in
  p ≠ 0 ∧ resource_inv (mkResource (rdma_raw m) (head_ m)
    (<[tid := mkSlabs (<[Z.to_nat (k - 3) := al']> (alignments_ (thread_state m tid)))
       (<[Z.to_nat (k - 3) := post]> (freelists_ (thread_state m tid)))]> (slabs m))) top ((p, 2 ^ k) :: live).
Proof.
  intros Hinv Hk Hfl H64 al'. destruct (pool_free_insert m tid _ _ Hfl) as (rest & F1 & F2).
  destruct Hinv as [Hraw Hhead Hdis Hin Hsl].
  assert (2 ^ (Z.of_nat (Z.to_nat (k - 3)) + 3) = 2 ^ k) as Epow by (f_equal; lia).
  unfold free_class, kMinSlabClass in F1, F2. rewrite Epow in F1, F2.
  cbn [fmap list_fmap app snd] in F1, F2.
  assert (∀ al', live ++ pool_free (slabs m) ≡ₚ
    ((p, 2 ^ k) :: live) ++ pool_free (<[tid := mkSlabs al'
       (<[Z.to_nat (k - 3) := post]> (freelists_ (thread_state m tid)))]> (slabs m))) as HP.
  { intros al2. rewrite F1, F2. cbn. symmetry. apply Permutation_middle. }
  split.
  - assert (block_ok (head_ m) top (p, 2 ^ k)) as (? & _).
    { rewrite (HP []), <- app_comm_cons in Hin. by inversion Hin. }
    cbn in *. lia.
  - inversion H64; subst. split; cbn [rdma_raw head_ slabs]; [done|done| | |].
    + by rewrite <- HP.
    + by rewrite <- HP.
    + apply map_Forall_insert_2; [|done]. unfold al'.
      replace (if bool_decide (post = []) then u8 (Z.land 64 (Z.lnot 64)) else 64)
        with (if bool_decide (post = []) then 0 else 64) by (by destruct (bool_decide _)).
      apply slabs_ok_insert; [by apply thread_state_ok| |done].
      unfold kNumSlabClasses, kMaxSlabClass, kMinSlabClass. lia.
Qed.

(** A request by a client of the size classes never faults; it reports out of
    memory or moves one block from the free part to the live blocks. *)
Lemma do_allocate_inv m top live tid bytes :
  resource_inv m top live → 0 ≤ bytes → class_size (Z.max bytes 64) →
  ∃ a m', do_allocate m tid bytes 64 = Done (a, m') ∧
    (a = mkAlloc 0 None ∧ m' = m ∨
     al_ptr a ≠ 0 ∧ (∀ z, al_zeroed a = Some z → z = (al_ptr a, Z.max bytes 64)) ∧
     resource_inv m' top ((al_ptr a, Z.max bytes 64) :: live)).
Proof.
  intros Hinv Hb Hs. unfold do_allocate.
  replace (if bytes <? 64 then 64 else bytes) with (Z.max bytes 64)
    by (destruct (Z.ltb_spec bytes 64); lia).
  destruct (bump_allocate_inv m top live _ Hinv Hs) as (ab & mb & Eb & Hbump).
  destruct Hs as (k & Hk & Ek). rewrite Ek in *. rewrite slab_class_pow2, bind_done by done.
  cbv zeta. unfold kNumSlabClasses, kMaxSlabClass, kMinSlabClass in *.
  destruct (Z.leb_spec 0 (k - 3)); [|lia].
  destruct (Z.ltb_spec (k - 3) (20 - 3 + 1)); [|lia].
  change (64 <=? kMaxAlignment) with true. cbn [andb rome_assert].
  rewrite !bind_done.
  pose proof (thread_state_ok m tid (inv_slabs _ _ _ Hinv)) as (Hla & Hlf & Hcls).
  assert (Z.to_nat (k - 3) < length (freelists_ (thread_state m tid)))%nat as Hlt
    by (rewrite Hlf; unfold kNumSlabClasses, kMaxSlabClass, kMinSlabClass; lia).
  apply lookup_lt_is_Some_2 in Hlt as [fl Hfl].
  destruct (Hcls _ _ Hfl) as [H64 Hal]. rewrite Hal, defined_Some, bind_done.
  destruct (bool_decide_reflect (fl = [])) as [->|Hne].
  { change (negb (Z.land 0 64 =? 0)) with false. cbv iota. rewrite Eb.
    exists ab, mb. split; [done|]. destruct Hbump as [?|(? & Hz & ?)]; [by left|right].
    split_and!; [done| |done]. intros z. by rewrite Hz. }
  change (negb (Z.land 64 64 =? 0)) with true. cbv iota. rewrite Hfl, defined_Some.
  rewrite bind_done, bool_decide_eq_false_2 by done. cbn [negb rome_assert]. rewrite bind_done.
  destruct (find_first_64 fl H64 Hne) as ([al p] & post & -> & ->).
  eexists _, _. split; [done|]. right. cbn [al_ptr al_zeroed snd].
  destruct (free_list_pop_inv m top live tid k al p post Hinv ltac:(lia) Hfl H64) as [Hp Hinv'].
  split_and!; [done| |done]. intros z [= <-]. by rewrite Z.shiftl_1_l.
Qed.

(** Returning a live block with its own size never faults and keeps the
    invariant, on whichever thread it is returned. *)
Lemma do_deallocate_inv m top live1 live2 tid p s :
  resource_inv m top (live1 ++ (p, s) :: live2) → class_size s →
  ∃ m', do_deallocate m tid p s 64 = Done m' ∧ resource_inv m' top (live1 ++ live2).
Proof.
  intros Hinv (k & Hk & ->). unfold do_deallocate.
  rewrite slab_class_pow2, bind_done by done. cbv zeta.
  pose proof (thread_state_ok m tid (inv_slabs _ _ _ Hinv)) as (Hla & Hlf & Hcls).
  unfold kMinSlabClass.
  assert (Z.to_nat (k - 3) < Z.to_nat kNumSlabClasses)%nat as Hlt
    by (unfold kNumSlabClasses, kMaxSlabClass, kMinSlabClass; lia).
  assert (Z.to_nat (k - 3) < length (freelists_ (thread_state m tid)))%nat as Hlt' by lia.
  apply lookup_lt_is_Some_2 in Hlt' as [fl Hfl].
  destruct (Hcls _ _ Hfl) as [H64 Hal]. rewrite Hal, Hfl, !defined_Some, !bind_done.
  eexists. split; [done|].
  destruct (pool_free_insert m tid _ _ Hfl) as (rest & F1 & F2).
  destruct Hinv as [Hraw Hhead Hdis Hin Hsl].
  assert (2 ^ (Z.of_nat (Z.to_nat (k - 3)) + 3) = 2 ^ k) as Epow by (f_equal; lia).
  unfold free_class, kMinSlabClass in F1, F2. rewrite Epow in F1, F2.
  assert (∀ al', (live1 ++ (p, 2 ^ k) :: live2) ++ pool_free (slabs m) ≡ₚ
    (live1 ++ live2) ++ pool_free (<[tid := mkSlabs al'
      (<[Z.to_nat (k - 3) := fl ++ [(64, p)]]> (freelists_ (thread_state m tid)))]>
      (slabs m))) as HP.
  { intros al'. rewrite F1, F2, fmap_app. cbn. rewrite <- !app_assoc. cbn.
    apply Permutation_app_head. rewrite !(app_assoc live2). apply Permutation_middle. }
  split; cbn [rdma_raw head_ slabs]; [done|done| | |].
  - by rewrite <- HP.
  - by rewrite <- HP.
  - apply map_Forall_insert_2; [|done].
    replace (u8 (Z.lor (if bool_decide (fl = []) then 0 else 64) 64))
      with (if bool_decide (fl ++ [(64, p)] = []) then 0 else 64).
    2:{ rewrite bool_decide_eq_false_2 by by destruct fl. by destruct (bool_decide _). }
    apply slabs_ok_insert; [by apply thread_state_ok|done|].
    apply Forall_app. split; [done|]. by constructor.
Qed.

Lemma pool_free_fresh raw bytes tid :
  pool_free (slabs (rdma_memory_resource_new raw bytes tid ∅)) = [].
Proof.
  unfold rdma_memory_resource_new. rewrite lookup_empty. cbn [slabs freelists_ slabs_init].
  unfold pool_free. rewrite insert_empty, map_to_list_singleton. reflexivity.
Qed.

Lemma resource_inv_new raw bytes tid :
  2 ^ 20 ≤ raw → raw mod 64 = 0 → 0 ≤ bytes → raw + bytes < 2 ^ 64 →
  resource_inv (rdma_memory_resource_new raw bytes tid ∅) (raw + bytes) [].
Proof.
  intros. split; rewrite ?pool_free_fresh; cbn; try done; try lia.
  apply map_Forall_insert_2; [|apply map_Forall_empty].
  unfold rdma_memory_resource_new. rewrite lookup_empty. exact slabs_ok_init.
Qed.

(** One operation of some thread of a client of the size classes. [live] is the
    set of blocks handed out and not yet returned. *)
Inductive pool_step : memory_resource * list block → memory_resource * list block → Prop :=
| step_allocate m live tid bytes a m' :
    0 ≤ bytes → class_size (Z.max bytes 64) →
    do_allocate m tid bytes 64 = Done (a, m') → al_ptr a ≠ 0 →
    pool_step (m, live) (m', (al_ptr a, Z.max bytes 64) :: live)
| step_deallocate m live1 p s live2 tid m' :
    class_size s → do_deallocate m tid p s 64 = Done m' →
    pool_step (m, live1 ++ (p, s) :: live2) (m', live1 ++ live2).

Lemma pool_step_inv top s1 s2 :
  resource_inv s1.1 top s1.2 → pool_step s1 s2 → resource_inv s2.1 top s2.2.
Proof.
  intros Hinv Hstep. destruct Hstep as [m live tid bytes a m' Hb Hs E Hne|m l1 p s l2 tid m' Hs E];
    cbn in *.
  - destruct (do_allocate_inv _ _ _ tid bytes Hinv Hb Hs) as (a' & m'' & E' & Hor).
    rewrite E in E'. injection E' as <- <-.
    destruct Hor as [[-> _]|(_ & _ & ?)]; [done|done].
  - destruct (do_deallocate_inv _ _ _ _ tid _ _ Hinv Hs) as (m'' & E' & ?).
    rewrite E in E'. by injection E' as <-.
Qed.

Lemma do_allocate_raw m tid bytes al a m' :
  do_allocate m tid bytes al = Done (a, m') → rdma_raw m' = rdma_raw m.
Proof.
  unfold do_allocate, bump_allocate. intros E. done_inv.
  case_match; done_inv; [case_match; [destruct p as [[? ?] ?]; done_inv; by simplify_eq|]|];
    case_match; by simplify_eq.
Qed.

Lemma do_deallocate_raw m tid p bytes al m' :
  do_deallocate m tid p bytes al = Done m' → rdma_raw m' = rdma_raw m.
Proof. unfold do_deallocate. intros E. done_inv. by simplify_eq. Qed.

(** The bump path takes its block from the room below the head, and succeeds while there is enough. *)
Lemma do_allocate_room m top live tid bytes a m' :
  resource_inv m top live → 0 ≤ bytes → class_size (Z.max bytes 64) → do_allocate m tid bytes 64 = Done (a, m') →
  rdma_raw m' = rdma_raw m ∧ head_ m - (Z.max bytes 64 + 64) ≤ head_ m' ∧
  (Z.max bytes 64 + 64 ≤ head_ m - rdma_raw m → al_ptr a ≠ 0).
Proof.
  intros Hinv Hb Hs E. destruct (do_allocate_inv m top live tid bytes Hinv Hb Hs) as (a0 & m0 & E0 & Hor).
  rewrite E in E0. apply done_pair in E0 as [<- <-]. pose proof (do_allocate_raw _ _ _ _ _ _ E) as Hraw. split; [done|].
  pose proof (class_size_bounds _ Hs) as Hsz. pose proof (inv_head _ _ _ Hinv). pose proof (inv_raw _ _ _ Hinv).
  assert (head_ m' = head_ m ∧ is_Some (al_zeroed a) ∨ (a, m') = bump_allocate m (Z.max bytes 64) 64) as [[Hh Hz]|Hbump].
  { revert E. unfold do_allocate.
    replace (if bytes <? 64 then 64 else bytes) with (Z.max bytes 64) by (destruct (Z.ltb_spec bytes 64); lia).
    intros E. done_inv. case_match; done_inv; [case_match; [destruct p as [[? ?] ?]; done_inv; left; by simplify_eq|]|]; right; by simplify_eq. }
  - split; [lia|]. intros _. destruct Hor as [[-> _]|[? _]]; [by destruct Hz|done].
  - unfold bump_allocate in Hbump. rewrite bump_candidate_spec in Hbump by lia. pose proof (Z.mod_pos_bound (head_ m) 64 ltac:(lia)).
    destruct (Z.ltb_spec (head_ m - head_ m mod 64 - Z.max bytes 64) (rdma_raw m)); injection Hbump as -> ->; cbn; split; lia.
Qed.

(** C12: safety of the slab allocator for power-of-two clients. After any
    sequence of allocations and releases by any threads, a further request of a
    class size never faults, and a block it returns is 64-byte aligned, lies in
    the buffer, overlaps no live block, and is exactly the range it cleared. *)
Theorem allocator_safe raw bytes tid0 m live tid req :
  2 ^ 20 ≤ raw → raw mod 64 = 0 → 0 ≤ bytes → raw + bytes < 2 ^ 64 →
  star pool_step (rdma_memory_resource_new raw bytes tid0 ∅, []) (m, live) →
  0 ≤ req → class_size (Z.max req 64) →
  ∃ a m', do_allocate m tid req 64 = Done (a, m') ∧
    (al_ptr a ≠ 0 →
       let b := (al_ptr a, Z.max req 64) in
       Forall (blocks_disjoint b) live ∧ block_ok raw (raw + bytes) b ∧
       ∀ z, al_zeroed a = Some z → z = b).
Proof.
  intros Hraw H64 Hb Htop Hstar Hreq Hs.
  assert (resource_inv m (raw + bytes) live ∧ rdma_raw m = raw) as [Hinv Eraw].
  { pose (I := λ s : memory_resource * list block,
      resource_inv s.1 (raw + bytes) s.2 ∧ rdma_raw s.1 = raw).
    apply (star_invariant pool_step I) with (2 := conj (resource_inv_new raw bytes tid0
      Hraw H64 Hb Htop) eq_refl) (3 := Hstar).
    intros s1 s2 [HI HE] Hst. split; [by eapply pool_step_inv|].
    rewrite <- HE. destruct Hst; [by eapply do_allocate_raw|by eapply do_deallocate_raw]. }
  destruct (do_allocate_inv m _ live tid req Hinv Hreq Hs) as (a & m' & E & Hor).
  exists a, m'. split; [done|]. intros Hne. destruct Hor as [[-> _]|(_ & Hz & Hinv')]; [done|].
  pose proof (do_allocate_raw _ _ _ _ _ _ E) as Eraw'.
  destruct Hinv' as [_ Hh Hdis Hin _].
  cbn in Hdis, Hin. destruct Hdis as [Hdis _]. apply Forall_app in Hdis as [Hdis _].
  inversion Hin; subst. split_and!; [done| |done].
  eapply block_ok_mono; [|done]. lia.
Qed.

Lemma allocator_safe_witness :
  ∃ a m1 b m2 c m3,
    do_allocate (rdma_memory_resource_new (2 ^ 20) (2 ^ 16) 0 ∅) 0 128 64 = Done (a, m1) ∧
    do_deallocate m1 1 (al_ptr a) 128 64 = Done b ∧
    do_allocate b 1 128 64 = Done (c, m2) ∧ al_ptr c = al_ptr a ∧
    do_allocate m2 0 256 64 = Done m3 ∧ blocks_disjoint (al_ptr m3.1, 256) (al_ptr c, 128).
Proof.
  set (m0 := rdma_memory_resource_new (2 ^ 20) (2 ^ 16) 0 ∅).
  destruct (do_allocate m0 0 128 64) as [[a m1]|] eqn:E1; [|vm_compute in E1; done].
  destruct (do_deallocate m1 1 (al_ptr a) 128 64) as [m2|] eqn:E2;
    [|vm_compute in E1; injection E1 as <- <-; vm_compute in E2; done].
  destruct (do_allocate m2 1 128 64) as [[c m3]|] eqn:E3;
    [|vm_compute in E1; injection E1 as <- <-; vm_compute in E2; injection E2 as <-;
      vm_compute in E3; done].
  assert (al_ptr a = 1113984 ∧ al_ptr c = 1113984) as [Ha Hc].
  { vm_compute in E1; injection E1 as <- <-; vm_compute in E2; injection E2 as <-;
      vm_compute in E3; injection E3 as <- <-; done. }
  assert (class_size 128) as H128 by (by exists 7).
  destruct (allocator_safe (2 ^ 20) (2 ^ 16) 0 m3 [(al_ptr c, 128)] 0 256)
    as (d & m4 & E4 & Hd); [lia|done|lia|lia| |lia|by exists 8|].
  - eapply star_step; [exact (step_allocate m0 [] 0 128 a m1 ltac:(lia) H128 E1 ltac:(lia))|].
    eapply star_step; [exact (step_deallocate m1 [] _ _ [] 1 m2 H128 E2)|].
    eapply star_step; [exact (step_allocate m2 [] 1 128 c m3 ltac:(lia) H128 E3 ltac:(lia))|].
    apply star_refl.
  - exists a, m1, m2, m3, c, (d, m4). split_and!; [done|done|done|by rewrite Ha, Hc|done|].
    assert (al_ptr d ≠ 0) as Hne.
    { vm_compute in E1; injection E1 as <- <-; vm_compute in E2; injection E2 as <-;
        vm_compute in E3; injection E3 as <- <-; vm_compute in E4; injection E4 as <- <-; done. }
    destruct (Hd Hne) as (Hf & _). by inversion Hf.
Defined.

(** Sizes that are not powers of two are recycled by class, not by size. A
    192-byte block is filed in the 256-byte class: handed out again it clears,
    and for a 256-byte request also covers, 64 bytes of the live neighbour that
    was allocated before it. *)
Theorem recycle_overlaps_neighbour :
  ∃ m0 a m1 b m2 m3 c m4,
    m0 = rdma_memory_resource_new (2 ^ 20) (2 ^ 16) 0 ∅ ∧
    do_allocate m0 0 256 64 = Done (a, m1) ∧                 (* stays live *)
    do_allocate m1 0 192 64 = Done (b, m2) ∧
    do_deallocate m2 0 (al_ptr b) 192 64 = Done m3 ∧
    do_allocate m3 0 256 64 = Done (c, m4) ∧
    al_ptr c ≠ 0 ∧ ¬ blocks_disjoint (al_ptr c, 256) (al_ptr a, 256) ∧
    ∃ z, al_zeroed c = Some z ∧ ¬ blocks_disjoint z (al_ptr a, 256).
Proof.
  do 8 eexists. split_and!; [done|vm_compute; reflexivity..|vm_compute; done| |].
  - unfold blocks_disjoint. cbn. lia.
  - eexists. split; [reflexivity|]. unfold blocks_disjoint. cbn. lia.
Qed.

(** ** The bump loop under interleaving

    Threads run the [do ... while (!compare_exchange_strong)] loop against one
    shared [head_]. A thread in [BLoaded] holds the value [__e] it last saw. *)
Inductive bump_pc := BIdle | BLoaded (e bytes : Z).

Record bump_state := mkBump {
  b_head : Z;
  b_pcs : gmap nat bump_pc;
  b_blocks : list block }.               (* blocks handed out so far *)

Section bump.
Context (raw : Z).

Inductive bump_step : bump_state → bump_state → Prop :=
| bump_load s t bytes :                (* uint8_t *__e = head_ *)
    0 ≤ bytes ≤ 2 ^ 20 →
    bump_step s (mkBump (b_head s) (<[t := BLoaded (b_head s) bytes]> (b_pcs s)) (b_blocks s))
| bump_oom s t e bytes :               (* return nullptr *)
    b_pcs s !! t = Some (BLoaded e bytes) → bump_candidate raw e bytes 64 = None →
    bump_step s (mkBump (b_head s) (<[t := BIdle]> (b_pcs s)) (b_blocks s))
| bump_cas s t e bytes d :             (* head_ == __e: take the block *)
    b_pcs s !! t = Some (BLoaded e bytes) → bump_candidate raw e bytes 64 = Some d →
    b_head s = e →
    bump_step s (mkBump d (<[t := BIdle]> (b_pcs s)) ((d, bytes) :: b_blocks s))
| bump_retry s t e bytes d :           (* head_ != __e: __e := head_, again *)
    b_pcs s !! t = Some (BLoaded e bytes) → bump_candidate raw e bytes 64 = Some d →
    b_head s ≠ e →
    bump_step s (mkBump (b_head s) (<[t := BLoaded (b_head s) bytes]> (b_pcs s)) (b_blocks s)).

Record bump_inv (top : Z) (s : bump_state) : Prop := {
  bi_head : raw ≤ b_head s ≤ top;
  bi_pcs : map_Forall (λ _ pc, match pc with
             | BIdle => True
             | BLoaded e bytes => raw ≤ e ≤ top ∧ 0 ≤ bytes ≤ 2 ^ 20 end) (b_pcs s);
  bi_blocks : all_disjoint (b_blocks s);
  bi_within : Forall (λ b : block, b_head s ≤ b.1 ∧ b.1 + b.2 ≤ top) (b_blocks s) }.

Lemma bump_step_inv top s1 s2 :
  2 ^ 20 ≤ raw → raw mod 64 = 0 → top < 2 ^ 64 →
  bump_inv top s1 → bump_step s1 s2 → bump_inv top s2.
Proof.
  intros Hraw H64 Htop [Hh Hp Hb Hw] Hstep.
  destruct Hstep as [s t bytes Hbytes|s t e bytes Ht Hc|s t e bytes d Ht Hc <-|s t e bytes d Ht Hc Hne].
  - split; cbn; [done|by apply map_Forall_insert_2|done|done].
  - split; cbn; [done|by apply map_Forall_insert_2|done|done].
  - pose proof (Hp _ _ Ht) as [_ Hbytes]. cbn in Hbytes.
    rewrite bump_candidate_spec in Hc by lia.
    pose proof (Z.mod_pos_bound (b_head s) 64 ltac:(lia)).
    destruct (Z.ltb_spec (b_head s - b_head s mod 64 - bytes) raw); [done|].
    injection Hc as <-. split; cbn; [lia|by apply map_Forall_insert_2| |].
    + split; [|done]. eapply Forall_impl; [exact Hw|].
      intros b [? _]. left. cbn. lia.
    + constructor; [cbn; lia|]. eapply Forall_impl; [exact Hw|]. cbn. intros b. lia.
  - pose proof (Hp _ _ Ht) as [_ Hbytes].
    split; cbn; [done|by apply map_Forall_insert_2|done|done].
Qed.

(** C39: the lock-free bump path. Whatever the interleaving of the threads'
    loads, compare-and-swaps and retries, the blocks carved off [head_] are
    pairwise disjoint and inside the buffer. *)
Theorem bump_concurrent_disjoint bytes s :
  2 ^ 20 ≤ raw → raw mod 64 = 0 → 0 ≤ bytes → raw + bytes < 2 ^ 64 →
  star bump_step (mkBump (raw + bytes) ∅ []) s →
  all_disjoint (b_blocks s) ∧
  Forall (λ b : block, raw ≤ b.1 ∧ b.1 + b.2 ≤ raw + bytes) (b_blocks s).
Proof.
  intros Hraw H64 Hb Htop Hstar.
  assert (bump_inv (raw + bytes) s) as [Hh Hp Hd Hw].
  { apply (star_invariant bump_step (bump_inv (raw + bytes)) _ _) with (3 := Hstar).
    - intros s1 s2 HI Hst. by eapply bump_step_inv.
    - split; cbn; [lia|apply map_Forall_empty|done|done]. }
  split; [done|]. eapply Forall_impl; [exact Hw|]. cbn. intros b. lia.
Qed.
End bump.

Lemma bump_concurrent_disjoint_witness :
  ∃ s, star (bump_step (2 ^ 20)) (mkBump (2 ^ 20 + 4096) ∅ []) s ∧
       length (b_blocks s) = 2%nat ∧ all_disjoint (b_blocks s).
Proof.
  assert (∃ s, star (bump_step (2 ^ 20)) (mkBump (2 ^ 20 + 4096) ∅ []) s ∧
    length (b_blocks s) = 2%nat) as (s & Hs & Hlen).
  { eexists. split.
    - eapply star_step; [apply (bump_load _ _ 0 64); lia|].
      eapply star_step; [apply (bump_load _ _ 1 128); lia|].
      eapply star_step; [eapply (bump_cas _ _ 1); [reflexivity|vm_compute; reflexivity|reflexivity]|].
      eapply star_step; [eapply (bump_retry _ _ 0);
        [reflexivity|vm_compute; reflexivity|vm_compute; done]|].
      eapply star_step; [eapply (bump_cas _ _ 0); [reflexivity|vm_compute; reflexivity|reflexivity]|].
      apply star_refl.
    - reflexivity. }
  exists s. split_and!; [done|done|].
  apply (bump_concurrent_disjoint (2 ^ 20) 4096 s); [lia|done|lia|lia|exact Hs].
Defined.

(** A block released with fewer bytes than a cache line is filed in a class that
    no 64-aligned request searches: it is never handed out again. *)
Lemma small_classes_untouched m tid bytes a m' tid' i :
  0 ≤ bytes < 2 ^ 32 → (i < 3)%nat →
  do_allocate m tid bytes 64 = Done (a, m') →
  freelists_ (thread_state m' tid') !! i = freelists_ (thread_state m tid') !! i.
Proof.
  intros Hb Hi E. unfold do_allocate in E.
  set (bytes' := if bytes <? 64 then 64 else bytes) in E.
  assert (64 ≤ bytes' < 2 ^ 32) as Hb' by (subst bytes'; destruct (Z.ltb_spec bytes 64); lia).
  unfold slab_class in E. rewrite (UpperLog2_log2_up bytes') in E by lia.
  rewrite !bind_done in E. cbv zeta in E.
  assert (6 ≤ Z.log2_up bytes' ≤ 32) as Hlog.
  { split; [change 6 with (Z.log2_up 64) | change 32 with (Z.log2_up (2 ^ 32))];
      apply Z.log2_up_le_mono; lia. }
  unfold u8 in E. rewrite wrap_small in E by (unfold is_u; lia).
  set (idx := Z.max kMinSlabClass (Z.log2_up bytes') - kMinSlabClass) in E.
  assert (3 ≤ idx) by (subst idx; unfold kMinSlabClass; lia).
  clearbody idx. unfold bump_allocate in E. done_inv.
  case_match; done_inv; [case_match; [destruct p as [[? ?] ?]; done_inv|]|].
  - unfold thread_state at 1. cbn [slabs].
    destruct (decide (tid = tid')) as [<-|Hne].
    + rewrite lookup_insert_eq. cbn [freelists_]. apply list_lookup_insert_ne. lia.
    + by rewrite lookup_insert_ne.
  - case_match; by simplify_eq.
  - case_match; by simplify_eq.
Qed.
