(* ===== verification/MemoryPool.v ===== *)
(** * [MemoryPool] (rdma/memory_pool.h): one-sided RDMA operations of a node

    The work requests of the reads, writes and atomics, the completion accounting that
    threads share through [reordering_counters], thread registration and [Init]. The
    network card and the connection manager are interfaces: a card is anything that
    accepts posts, answers polls and holds the local buffer. *)
From S2P Require Import Prelude Status RemotePtr Memory SlabAllocator.

Definition THREAD_MAX : Z := 20.

Inductive opcode := IBV_WR_RDMA_WRITE | IBV_WR_RDMA_READ | IBV_WR_ATOMIC_CMP_AND_SWP.

(** [ibv_send_wr] with its one [ibv_sge]; every request carries [IBV_SEND_FENCE]. *)
Record ibv_send_wr := mkWr {
  wr_id : Z; wr_opcode : opcode; wr_signaled : bool;
  sge_addr : Z; sge_length : Z; sge_lkey : Z;
  wr_remote_addr : Z; wr_rkey : Z; wr_compare : Z; wr_swap : Z }.

(** [ibv_poll_cq(cq, 1, &wc)]: nothing there (0, or an error with [EAGAIN]), another
    error, or one completion. *)
Inductive poll_result := PollNone | PollError | PollOne (wc_wr_id : Z) (wc_success : bool).

Record conn_info_t := mkConnInfo { ci_conn : Z; ci_rkey : Z; ci_lkey : Z }.

Record MemoryPool := mkPool {
  self_ : Peer;
  id_gen : Z;
  thread_ids : gmap nat Z;               (* std::thread::id *)
  reordering_counters : list Z;
  rdma_memory_ : memory_resource;
  mr_ : ibv_mr;
  conn_info_ : gmap Z conn_info_t }.

Definition set_counters (p : MemoryPool) (cs : list Z) : MemoryPool :=
  mkPool (self_ p) (id_gen p) (thread_ids p) cs (rdma_memory_ p) (mr_ p) (conn_info_ p).
Definition set_memory (p : MemoryPool) (m : memory_resource) : MemoryPool :=
  mkPool (self_ p) (id_gen p) (thread_ids p) (reordering_counters p) m (mr_ p) (conn_info_ p).

Definition conn_info (p : MemoryPool) (i : Z) : result conn_info_t := or_throw (conn_info_ p !! i).

(** [RegisterThread()] *)
Definition RegisterThread (p : MemoryPool) (mid : nat) : result MemoryPool :=
  match thread_ids p !! mid with
  | Some _ => Fault FAbort
  | None =>
      if THREAD_MAX <=? id_gen p then Fault FAbort else
      Done (mkPool (self_ p) (id_gen p + 1) (<[mid := id_gen p]> (thread_ids p))
              (<[Z.to_nat (id_gen p) := 0]> (reordering_counters p))
              (rdma_memory_ p) (mr_ p) (conn_info_ p))
  end.

(** [Allocate<T>(size)]: the node id and the block; a null block is not checked. *)
Definition Allocate (sizeof_T : Z) (p : MemoryPool) (tid : nat) (size : Z)
    : result (remote_ptr * MemoryPool) :=
  '(a, m) ← allocate sizeof_T (rdma_memory_ p) tid size;
  Done (of_pointer (peer_id (self_ p)) (al_ptr a), set_memory p m).

(** [Deallocate<T>(p, size)] *)
Definition Deallocate (sizeof_T : Z) (p : MemoryPool) (tid : nat) (ptr : remote_ptr) (size : Z)
    : result MemoryPool :=
  _ ← rome_assert (id ptr =? peer_id (self_ p));
  m ← deallocate sizeof_T (rdma_memory_ p) tid (address ptr) size;
  Done (set_memory p m).

Definition GetRemotePtr (p : MemoryPool) (a : Z) : remote_ptr := mk_ptr (u16 (peer_id (self_ p))) a.
Definition GetBaseAddress (p : MemoryPool) : remote_ptr := GetRemotePtr p (mr_addr (mr_ p)).

(** ** Work requests *)
(** [num_chunks] of [ReadInternal]; dividing by a chunk size of 0 is undefined. *)
Definition num_chunks (bytes chunk_size : Z) : Z :=
  if negb (bytes mod chunk_size =? 0) then bytes / chunk_size + 1 else bytes / chunk_size.

(** Request [i] of the loop of [ReadInternal]. *)
Definition read_wr (index_as_id local raddr offset bytes chunk_size lkey rkey i : Z) : ibv_send_wr :=
  let remainder := bytes mod chunk_size in
  let chunk_offset := u64 (offset + i * chunk_size) in
  let last := i =? num_chunks bytes chunk_size - 1 in
  mkWr index_as_id IBV_WR_RDMA_READ last
    (u64 (local + chunk_offset))
    (u32 (if remainder =? 0 then chunk_size else if last then remainder else chunk_size)) lkey
    (u64 (raddr + chunk_offset)) rkey 0 0.

Definition read_wrs (index_as_id local raddr offset bytes chunk_size lkey rkey : Z) : list ibv_send_wr :=
  map (λ i, read_wr index_as_id local raddr offset bytes chunk_size lkey rkey (Z.of_nat i))
      (seq 0 (Z.to_nat (num_chunks bytes chunk_size))).

Definition write_wr (index_as_id local sizeof_T lkey raddr rkey : Z) (write_behavior : Z) : ibv_send_wr :=
  mkWr index_as_id IBV_WR_RDMA_WRITE (write_behavior =? 0) local (u32 sizeof_T) lkey raddr rkey 0 0.

Definition cas_wr (index_as_id local lkey raddr rkey compare swap : Z) : ibv_send_wr :=
  mkWr index_as_id IBV_WR_ATOMIC_CMP_AND_SWP true local 8 lkey raddr rkey compare swap.

(** One completion: decrement the counter of the thread that posted the request. *)
Definition on_completion (counters : list Z) (wc_wr_id : Z) : result (list Z) :=
  old ← defined (counters !! Z.to_nat wc_wr_id);
  _ ← rome_assert (1 <=? old);                       (* "Broken synchronization" *)
  Done (<[Z.to_nat wc_wr_id := old - 1]> counters).

(** ** The operations over a network card *)
Class Nic (N : Type) := {
  ibv_post_send : N → Z → list ibv_send_wr → Z * N;          (* connection, requests *)
  ibv_poll_cq : N → Z → poll_result * N;                     (* the connection's send_cq *)
  local_store : N → Z → Z → list Z → N;                      (* memset, then store the bytes *)
  local_load64 : N → Z → Z }.                                (* volatile load *)

Section ops.
Context {N : Type} `{!Nic N}.

(** The polling loop; [checked] when the assertion also requires [poll == 1]. *)
Fixpoint poll_loop (fuel : nat) (checked : bool) (counters : list Z) (index_as_id conn : Z) (n : N)
    : result (list Z * N) :=
  c ← defined (counters !! Z.to_nat index_as_id);
  if c =? 0 then Done (counters, n) else
  match fuel with
  | O => Fault FFuel
  | S f =>
      let '(poll, n) := ibv_poll_cq n conn in
      match poll with
      | PollNone => poll_loop f checked counters index_as_id conn n
      | PollError => if checked then Fault FAbort else Fault FUndef
      | PollOne w success =>
          _ ← rome_assert success;
          counters ← on_completion counters w;
          poll_loop f checked counters index_as_id conn n
      end
  end.

(** Set the counter, post, and poll until every expected completion has arrived. *)
Definition post_and_wait (fuel : nat) (checked : bool) (p : MemoryPool) (index_as_id conn : Z)
    (expected : option Z) (wrs : list ibv_send_wr) (n : N) : result (MemoryPool * N) :=
  cs ← (match expected with
        | Some e => _ ← defined (reordering_counters p !! Z.to_nat index_as_id);
                    Done (<[Z.to_nat index_as_id := e]> (reordering_counters p))
        | None => Done (reordering_counters p)
        end : result (list Z));
  let '(ret, n) := ibv_post_send n conn wrs in
  _ ← rome_assert (ret =? 0);
  '(cs, n) ← poll_loop fuel checked cs index_as_id conn n;
  Done (set_counters p cs, n).

(** [ReadInternal(ptr, offset, bytes, chunk_size, prealloc)] *)
Definition ReadInternal (fuel : nat) (p : MemoryPool) (tid : nat) (ptr : remote_ptr)
    (offset bytes chunk_size : Z) (prealloc : remote_ptr) (n : N) : result (MemoryPool * N) :=
  _ ← rome_undef (negb (chunk_size =? 0));
  info ← conn_info p (id ptr);
  index_as_id ← or_throw (thread_ids p !! tid);
  let k := to_i32 (num_chunks bytes chunk_size) in
  _ ← rome_undef (0 <? k);                              (* sges[num_chunks] *)
  post_and_wait fuel true p index_as_id (ci_conn info) (Some k)
    (read_wrs index_as_id (address prealloc) (address ptr) offset bytes chunk_size
       (mr_lkey (mr_ p)) (ci_rkey info)) n.

Definition prealloc_or (sizeof_T : Z) (p : MemoryPool) (tid : nat) (prealloc : remote_ptr) (size : Z)
    : result (remote_ptr * MemoryPool) :=
  if is_null prealloc then Allocate sizeof_T p tid size else Done (prealloc, p).

Definition Read (sizeof_T : Z) (fuel : nat) (p : MemoryPool) (tid : nat) (ptr prealloc : remote_ptr)
    (n : N) : result (remote_ptr * MemoryPool * N) :=
  '(dst, p) ← prealloc_or sizeof_T p tid prealloc 1;
  '(p, n) ← ReadInternal fuel p tid ptr 0 sizeof_T sizeof_T dst n;
  Done (dst, p, n).

(** [int size] is converted to [size_t]. *)
Definition ExtendedRead (sizeof_T : Z) (fuel : nat) (p : MemoryPool) (tid : nat) (ptr : remote_ptr)
    (size : Z) (prealloc : remote_ptr) (n : N) : result (remote_ptr * MemoryPool * N) :=
  '(dst, p) ← prealloc_or sizeof_T p tid prealloc (u64 size);
  '(p, n) ← ReadInternal fuel p tid ptr 0 (u64 (sizeof_T * u64 size)) (u64 (sizeof_T * u64 size)) dst n;
  Done (dst, p, n).

Definition PartialRead (sizeof_T : Z) (fuel : nat) (p : MemoryPool) (tid : nat) (ptr : remote_ptr)
    (offset bytes : Z) (prealloc : remote_ptr) (n : N) : result (remote_ptr * MemoryPool * N) :=
  '(dst, p) ← prealloc_or sizeof_T p tid prealloc 1;
  '(p, n) ← ReadInternal fuel p tid ptr offset bytes sizeof_T dst n;
  Done (dst, p, n).

(** [Write(ptr, val, prealloc, write_behavior)]; storing through a null block is undefined. *)
Definition Write (sizeof_T : Z) (fuel : nat) (p : MemoryPool) (tid : nat) (ptr : remote_ptr)
    (val : list Z) (prealloc : remote_ptr) (write_behavior : Z) (n : N) : result (MemoryPool * N) :=
  info ← conn_info p (id ptr);
  index_as_id ← or_throw (thread_ids p !! tid);
  '(local, p) ← (if is_null prealloc then
                   '(a, m) ← allocate sizeof_T (rdma_memory_ p) tid 1;
                   Done (al_ptr a, set_memory p m)
                 else Done (address prealloc, p) : result (Z * MemoryPool));
  _ ← rome_assert (negb (local =? address ptr));
  _ ← rome_undef (negb (local =? 0));
  let n := local_store n local sizeof_T val in
  '(p, n) ← post_and_wait fuel false p index_as_id (ci_conn info)
      (if write_behavior =? 0 then Some 1 else None)
      [write_wr index_as_id local sizeof_T (mr_lkey (mr_ p)) (address ptr) (ci_rkey info) write_behavior] n;
  if is_null prealloc then
    m ← deallocate sizeof_T (rdma_memory_ p) tid local 1;
    Done (set_memory p m, n)
  else Done (p, n).

(** [CompareAndSwap(ptr, expected, swap)] *)
Definition CompareAndSwap (fuel : nat) (p : MemoryPool) (tid : nat) (ptr : remote_ptr)
    (expected swap : Z) (n : N) : result (Z * MemoryPool * N) :=
  info ← conn_info p (id ptr);
  index_as_id ← or_throw (thread_ids p !! tid);
  '(a, m) ← allocate 8 (rdma_memory_ p) tid 1;
  let prev_ := al_ptr a in
  '(p, n) ← post_and_wait fuel true (set_memory p m) index_as_id (ci_conn info) (Some 1)
      [cas_wr index_as_id prev_ (mr_lkey (mr_ p)) (address ptr) (ci_rkey info) expected swap] n;
  let ret := local_load64 n prev_ in
  m ← deallocate 8 (rdma_memory_ p) tid prev_ 8;
  Done (ret, set_memory p m, n).

(** The retry loop of [AtomicSwap]. *)
Fixpoint swap_loop (rounds fuel : nat) (p : MemoryPool) (index_as_id : Z) (info : conn_info_t)
    (prev_ raddr compare swap : Z) (n : N) : result (Z * MemoryPool * N) :=
  match rounds with
  | O => Fault FFuel
  | S r =>
      '(p, n) ← post_and_wait fuel true p index_as_id (ci_conn info) (Some 1)
          [cas_wr index_as_id prev_ (mr_lkey (mr_ p)) raddr (ci_rkey info) compare swap] n;
      let got := local_load64 n prev_ in
      if got =? compare then Done (got, p, n)
      else swap_loop r fuel p index_as_id info prev_ raddr got swap n
  end.

(** [AtomicSwap(ptr, swap, hint)] *)
Definition AtomicSwap (rounds fuel : nat) (p : MemoryPool) (tid : nat) (ptr : remote_ptr)
    (swap hint : Z) (n : N) : result (Z * MemoryPool * N) :=
  info ← conn_info p (id ptr);
  index_as_id ← or_throw (thread_ids p !! tid);
  '(a, m) ← allocate 8 (rdma_memory_ p) tid 1;
  let prev_ := al_ptr a in
  '(ret, p, n) ← swap_loop rounds fuel (set_memory p m) index_as_id info prev_ (address ptr) hint swap n;
  m ← deallocate 8 (rdma_memory_ p) tid prev_ 8;
  Done (ret, set_memory p m, n).
End ops.

(** ** [Init], over the connection manager it drives *)
Class CmOps (C : Type) := {
  cm_Start : C → string → Z → Status * C;
  cm_Connect : C → Z → string → Z → StatusVal Z * C;
  cm_GetConnection : C → Z → StatusVal Z * C;
  cm_Send : C → Z → Z * Z → Status * C;                      (* rkey, raddr *)
  cm_Deliver : C → Z → StatusVal (Z * Z) * C }.

Section init.
Context {C : Type} `{!CmOps C}.
(** [rdma_memory_resource(bytes, pd)] and its registered region. *)
Context (new_resource : Z → memory_resource * ibv_mr).

Fixpoint connect_retry (fuel : nat) (p : Peer) (c : C) : result (StatusVal Z * C) :=
  match fuel with
  | O => Fault FFuel
  | S f =>
      let '(sv, c) := cm_Connect c (peer_id p) (peer_address p) (peer_port p) in
      if bool_decide (st_t (sv_status sv) = Unavailable) then connect_retry f p c else Done (sv, c)
  end.

Fixpoint connect_peers (fuel : nat) (peers : list Peer) (c : C) : result (Status * C) :=
  match peers with
  | [] => Done (StatusOk, c)
  | p :: ps =>
      '(sv, c) ← connect_retry fuel p c;
      RETURN_STATUS_ON_ERROR (sv_status sv) (λ s, Done (s, c)) (connect_peers fuel ps c)
  end.

Fixpoint send_regions (peers : list Peer) (region : Z * Z) (c : C) : result (Status * C) :=
  match peers with
  | [] => Done (StatusOk, c)
  | p :: ps =>
      let '(conn, c) := cm_GetConnection c (peer_id p) in
      _ ← STATUSVAL_OR_DIE conn;
      h ← or_throw (sv_val conn);
      let '(s, c) := cm_Send c h region in
      RETURN_STATUS_ON_ERROR s (λ s, Done (s, c)) (send_regions ps region c)
  end.

(** [conn_info_.emplace] keeps an entry that is already there. *)
Definition emplace (m : gmap Z conn_info_t) (i : Z) (x : conn_info_t) : gmap Z conn_info_t :=
  match m !! i with Some _ => m | None => <[i := x]> m end.

Fixpoint recv_regions (peers : list Peer) (lkey : Z) (infos : gmap Z conn_info_t) (c : C)
    : result (Status * gmap Z conn_info_t * C) :=
  match peers with
  | [] => Done (StatusOk, infos, c)
  | p :: ps =>
      let '(conn, c) := cm_GetConnection c (peer_id p) in
      _ ← STATUSVAL_OR_DIE conn;
      h ← or_throw (sv_val conn);
      let '(got, c) := cm_Deliver c h in
      RETURN_STATUS_ON_ERROR (sv_status got) (λ s, Done (s, infos, c))
        (r ← or_throw (sv_val got);
         recv_regions ps lkey (emplace infos (u16 (peer_id p)) (mkConnInfo h r.1 lkey)) c)
  end.

Definition Init (fuel : nat) (p : MemoryPool) (capacity : Z) (peers : list Peer) (c : C)
    : result (Status * MemoryPool * C) :=
  let '(status, c) := cm_Start c (peer_address (self_ p)) (peer_port (self_ p)) in
  RETURN_STATUS_ON_ERROR status (λ s, Done (s, p, c))
  (let '(m, mr) := new_resource (capacity + 8) in
   let p := mkPool (self_ p) (id_gen p) (thread_ids p) (reordering_counters p) m mr (conn_info_ p) in
   '(s, c) ← connect_peers fuel peers c;
   if negb (is_ok s) then Done (s, p, c) else
   '(s, c) ← send_regions peers (mr_rkey mr, mr_addr mr) c;
   if negb (is_ok s) then Done (s, p, c) else
   '(s, infos, c) ← recv_regions peers (mr_lkey mr) (conn_info_ p) c;
   Done (s, mkPool (self_ p) (id_gen p) (thread_ids p) (reordering_counters p) m mr infos, c)).
End init.

(** ** The requests of a read *)
Section chunks.
Context (bytes chunk_size : Z) (Hb : 0 < bytes) (Hc : 0 < chunk_size).
Abbreviation k := (num_chunks bytes chunk_size).

Lemma num_chunks_bounds : 0 < k ∧ (k - 1) * chunk_size < bytes ≤ k * chunk_size.
Proof.
  unfold num_chunks. pose proof (Z.div_mod bytes chunk_size ltac:(lia)) as Hd.
  pose proof (Z.mod_pos_bound bytes chunk_size Hc) as Hm.
  assert (0 ≤ bytes / chunk_size) by (apply Z.div_pos; lia).
  destruct (Z.eqb_spec (bytes mod chunk_size) 0) as [E|E]; cbn [negb]; nia.
Qed.

(** The length the loop gives request [i]. *)
Lemma chunk_length i :
  0 ≤ i < k →
  (if bytes mod chunk_size =? 0 then chunk_size
   else if i =? k - 1 then bytes mod chunk_size else chunk_size) =
  Z.min chunk_size (bytes - i * chunk_size).
Proof.
  intros Hi. pose proof num_chunks_bounds as Hk.
  pose proof (Z.div_mod bytes chunk_size ltac:(lia)) as Hd.
  pose proof (Z.mod_pos_bound bytes chunk_size Hc) as Hm.
  destruct (Z.eqb_spec (bytes mod chunk_size) 0) as [E|E].
  - assert (k = bytes / chunk_size) as Ek by (unfold num_chunks; by rewrite E).
    rewrite Z.min_l; nia.
  - assert (k = bytes / chunk_size + 1) as Ek.
    { unfold num_chunks. by rewrite (proj2 (Z.eqb_neq _ _) E). }
    destruct (Z.eqb_spec i (k - 1)) as [->|Hne]; [rewrite Z.min_r; nia|rewrite Z.min_l; nia].
Qed.

Lemma chunk_lengths_sum n :
  foldr Z.add 0 (map (λ i, Z.min chunk_size (Z.max 0 (bytes - Z.of_nat i * chunk_size))) (seq 0 n)) =
  Z.min (Z.of_nat n * chunk_size) bytes.
Proof.
  induction n as [|n IH]; [cbn; lia|]. rewrite seq_S, map_app, foldr_app. cbn [map foldr Nat.add].
  assert (∀ xs z, foldr Z.add z xs = foldr Z.add 0 xs + z) as Hf.
  { intros xs z. induction xs as [|x xs IHx]; cbn; lia. }
  rewrite Hf, IH. nia.
Qed.
End chunks.

(** The work requests of a read cut the range [offset, offset + bytes) of both
    buffers into consecutive chunks without gap or overlap, each of the chunk size except
    the last, and only the last one is signaled. *)
Theorem read_requests_tile idx local raddr offset bytes chunk_size lkey rkey :
  0 < bytes → 0 < chunk_size < 2 ^ 32 → 0 ≤ offset → 0 ≤ local → 0 ≤ raddr →
  local + offset + bytes ≤ 2 ^ 64 → raddr + offset + bytes ≤ 2 ^ 64 →
  let wrs := read_wrs idx local raddr offset bytes chunk_size lkey rkey in
  Z.of_nat (length wrs) = num_chunks bytes chunk_size ∧
  (∀ i w, wrs !! i = Some w →
     let o := Z.of_nat i * chunk_size in
     sge_addr w = local + offset + o ∧ wr_remote_addr w = raddr + offset + o ∧
     sge_length w = Z.min chunk_size (bytes - o) ∧ 0 < sge_length w ∧
     (wr_signaled w = true ↔ S i = length wrs)) ∧
  foldr Z.add 0 (map sge_length wrs) = bytes.
Proof.
  intros Hb Hc Ho Hl Hr Hlb Hrb wrs. pose proof (num_chunks_bounds bytes chunk_size Hb ltac:(lia)) as Hk.
  assert (Z.of_nat (length wrs) = num_chunks bytes chunk_size) as Hlen.
  { unfold wrs, read_wrs. rewrite length_map, length_seq. lia. }
  assert (∀ i w, wrs !! i = Some w → Z.of_nat i < num_chunks bytes chunk_size ∧
    w = read_wr idx local raddr offset bytes chunk_size lkey rkey (Z.of_nat i)) as Hget.
  { intros i w Hw. split; [apply lookup_lt_Some in Hw; lia|].
    apply list_lookup_fmap_Some in Hw as (j & -> & Hj). by apply lookup_seq in Hj as [-> _]. }
  assert (∀ i w, wrs !! i = Some w →
    sge_length w = Z.min chunk_size (Z.max 0 (bytes - Z.of_nat i * chunk_size))) as Hsl.
  { intros i w [Hi ->]%Hget. unfold read_wr. cbn [sge_length].
    rewrite chunk_length by lia. rewrite Z.max_r by nia. apply (wrap_small 32). unfold is_u. nia. }
  split_and!; [done| |].
  - intros i w Hw o. pose proof (Hsl i w Hw) as Hs. destruct (Hget i w Hw) as [Hi ->].
    assert (o < bytes) by (subst o; nia). assert (0 ≤ o) by (subst o; nia).
    rewrite Z.max_r in Hs by (subst o; lia). fold o in Hs.
    unfold read_wr in *. cbn [sge_addr wr_remote_addr sge_length wr_signaled] in *. fold o.
    rewrite Hs. assert (u64 (offset + o) = offset + o) as -> by (apply (wrap_small 64); unfold is_u; lia).
    split_and!; [unfold u64; rewrite (wrap_small 64); unfold is_u; lia
      |unfold u64; rewrite (wrap_small 64); unfold is_u; lia|done|lia|].
    rewrite Z.eqb_eq. lia.
  - replace (map sge_length wrs) with
      (map (λ i, Z.min chunk_size (Z.max 0 (bytes - Z.of_nat i * chunk_size))) (seq 0 (length wrs))).
    + rewrite chunk_lengths_sum by lia. rewrite Hlen. lia.
    + apply list_eq. intros i. rewrite !list_lookup_fmap. destruct (wrs !! i) as [w|] eqn:Hw.
      * rewrite lookup_seq_lt by by eapply lookup_lt_Some. cbn. by rewrite (Hsl i w Hw).
      * apply lookup_ge_None in Hw. by rewrite lookup_seq_ge.
Qed.

Lemma read_requests_tile_witness :
  Z.of_nat (length (read_wrs 3 4096 65536 8 200 64 1 2)) = num_chunks 200 64 ∧
  (∀ i w, read_wrs 3 4096 65536 8 200 64 1 2 !! i = Some w →
     let o := Z.of_nat i * 64 in
     sge_addr w = 4096 + 8 + o ∧ wr_remote_addr w = 65536 + 8 + o ∧
     sge_length w = Z.min 64 (200 - o) ∧ 0 < sge_length w ∧
     (wr_signaled w = true ↔ S i = length (read_wrs 3 4096 65536 8 200 64 1 2))) ∧
  foldr Z.add 0 (map sge_length (read_wrs 3 4096 65536 8 200 64 1 2)) = 200.
Proof. refine (read_requests_tile 3 4096 65536 8 200 64 1 2 _ _ _ _ _ _ _); lia. Defined.

(** ** Registration *)
(** Registered threads have distinct indices below [id_gen], and [id_gen] counts them. *)
Record registered (p : MemoryPool) : Prop := {
  reg_gen : 0 ≤ id_gen p ≤ THREAD_MAX;
  reg_size : Z.of_nat (size (thread_ids p)) = id_gen p;
  reg_range t i : thread_ids p !! t = Some i → 0 ≤ i < id_gen p;
  reg_inj t t' i : thread_ids p !! t = Some i → thread_ids p !! t' = Some i → t = t';
  reg_counters : length (reordering_counters p) = Z.to_nat THREAD_MAX }.

(** Registration gives each thread its own counter, set to zero, and aborts for a
    thread registered before and for the twenty-first thread. *)
Theorem RegisterThread_spec p mid :
  registered p →
  match RegisterThread p mid with
  | Done p' =>
      thread_ids p !! mid = None ∧ (size (thread_ids p) < 20)%nat ∧ registered p' ∧
      thread_ids p' = <[mid := id_gen p]> (thread_ids p) ∧
      reordering_counters p' !! Z.to_nat (id_gen p) = Some 0 ∧
      (∀ t i, thread_ids p !! t = Some i →
         reordering_counters p' !! Z.to_nat i = reordering_counters p !! Z.to_nat i)
  | Fault f => f = FAbort ∧ (is_Some (thread_ids p !! mid) ∨ size (thread_ids p) = 20%nat)
  end.
Proof.
  intros [[Hg1 Hg2] Hsz Hrange Hinj Hlen]. unfold RegisterThread, THREAD_MAX in *.
  destruct (thread_ids p !! mid) as [i|] eqn:Hmid; [by eauto|].
  destruct (Z.leb_spec 20 (id_gen p)) as [Hge|Hlt]; [split; [done|right; lia]|].
  split_and!; [done|lia| |done|apply list_lookup_insert_eq; lia|].
  - split; cbn.
    + unfold THREAD_MAX. lia.
    + rewrite map_size_insert_None by done. lia.
    + intros t i. rewrite lookup_insert_Some. intros [[_ <-]|[_ Ht]]; [lia|].
      apply Hrange in Ht. lia.
    + intros t t' i. rewrite !lookup_insert_Some.
      intros [[<- <-]|[_ H1]] [[<- E]|[_ H2]]; [done|..].
      * apply Hrange in H2. lia.
      * subst i. apply Hrange in H1. lia.
      * by eapply Hinj.
    + by rewrite length_insert.
  - intros t i Ht. apply Hrange in Ht. cbn. rewrite list_lookup_insert_ne; [done|lia].
Qed.

Definition example_pool0 : MemoryPool :=
  mkPool Peer_default 0 ∅ (replicate 20 0) (mkResource 4096 8192 ∅) (mkMr 0 4096 4096 1 2) ∅.

Lemma RegisterThread_spec_witness :
  registered example_pool0 ∧
  match RegisterThread example_pool0 7 with
  | Done p' =>
      thread_ids example_pool0 !! 7%nat = None ∧ (size (thread_ids example_pool0) < 20)%nat ∧ registered p' ∧
      thread_ids p' = <[7%nat := id_gen example_pool0]> (thread_ids example_pool0) ∧
      reordering_counters p' !! Z.to_nat (id_gen example_pool0) = Some 0 ∧
      (∀ t i, thread_ids example_pool0 !! t = Some i →
         reordering_counters p' !! Z.to_nat i = reordering_counters example_pool0 !! Z.to_nat i)
  | Fault f => f = FAbort ∧ (is_Some (thread_ids example_pool0 !! 7%nat) ∨ size (thread_ids example_pool0) = 20%nat)
  end.
Proof.
  assert (registered example_pool0) as Hr.
  { split; cbn; try done; unfold THREAD_MAX; try lia; intros t; rewrite lookup_empty; done. }
  split; [exact Hr|]. exact (RegisterThread_spec example_pool0 7 Hr).
Defined.
