(* ===== verification/RdmaSync.v ===== *)
(** * Completion accounting across threads (rdma/memory_pool.h)

    All threads of a node poll shared completion queues and may take each other's
    completions; [reordering_counters] tells each thread how many of its own are still
    out. The protocol as a step relation: set the counter, post, poll, return. *)
From S2P Require Import Prelude Status RemotePtr Memory SlabAllocator MemoryPool.

(** Where a thread is in an operation on a connection: between two operations, after
    storing the expected count (with the number of signaled requests it will post), at the test
    of the polling loop, at its [ibv_poll_cq], or with a completion in hand - of the thread
    [w] - that it has not yet counted. *)
Inductive tstate := TIdle | TSet (conn : Z) (signaled : nat) | TPoll (conn : Z) | TTake (conn : Z) | TCount (conn : Z) (w : nat).

Definition waiting (ts : tstate) : option Z :=
  match ts with TPoll conn | TTake conn | TCount conn _ => Some conn | _ => None end.

(** [outstanding]: the signaled requests whose completion nobody has polled yet, as
    (connection, wr_id) pairs. *)
Record sync := mkSync {
  sy_counters : list Z; outstanding : list (Z * nat); sy_threads : list tstate }.

(** [expected] is the value stored into the counter, [signaled] the number of posted
    requests with [IBV_SEND_SIGNALED]. Each access to a counter or to a completion queue is
    a step of its own. *)
Inductive sync_step (req : Z → nat → Prop) : sync → sync → Prop :=
| st_set s t conn expected signaled :
    sy_threads s !! t = Some TIdle → req expected signaled →
    sync_step req s (mkSync (<[t := expected]> (sy_counters s)) (outstanding s)
                       (<[t := TSet conn signaled]> (sy_threads s)))
| st_post s t conn signaled :
    sy_threads s !! t = Some (TSet conn signaled) →
    sync_step req s (mkSync (sy_counters s) (outstanding s ++ replicate signaled (conn, t))
                       (<[t := TPoll conn]> (sy_threads s)))
| st_noack s t conn :                                  (* a write without acknowledgement *)
    sy_threads s !! t = Some TIdle →
    sync_step req s (mkSync (sy_counters s) (outstanding s) (<[t := TPoll conn]> (sy_threads s)))
| st_test s t conn c :                                 (* reordering_counters[index_as_id] != 0 *)
    sy_threads s !! t = Some (TPoll conn) → sy_counters s !! t = Some c → c ≠ 0 →
    sync_step req s (mkSync (sy_counters s) (outstanding s) (<[t := TTake conn]> (sy_threads s)))
| st_none s t conn :                                   (* poll == 0, or EAGAIN: continue *)
    sy_threads s !! t = Some (TTake conn) →
    sync_step req s (mkSync (sy_counters s) (outstanding s) (<[t := TPoll conn]> (sy_threads s)))
| st_take s t conn pre w post :                        (* poll == 1 *)
    sy_threads s !! t = Some (TTake conn) → outstanding s = pre ++ (conn, w) :: post →
    sync_step req s (mkSync (sy_counters s) (pre ++ post) (<[t := TCount conn w]> (sy_threads s)))
| st_count s t conn w cs :                             (* reordering_counters[wc.wr_id].fetch_sub(1) *)
    sy_threads s !! t = Some (TCount conn w) → on_completion (sy_counters s) (Z.of_nat w) = Done cs →
    sync_step req s (mkSync cs (outstanding s) (<[t := TPoll conn]> (sy_threads s)))
| st_return s t conn :
    sy_threads s !! t = Some (TPoll conn) → sy_counters s !! t = Some 0 →
    sync_step req s (mkSync (sy_counters s) (outstanding s) (<[t := TIdle]> (sy_threads s))).

(** What [Write], [CompareAndSwap], [AtomicSwap] and a one-chunk read do: as many
    completions expected as signaled requests posted. *)
Definition balanced (expected : Z) (signaled : nat) : Prop := expected = Z.of_nat signaled.

(** What [ReadInternal] does: all chunks expected, the last one signaled. *)
Definition read_req (bytes chunk_size : Z) : Z * nat :=
  (num_chunks bytes chunk_size,
   length (filter (λ w, wr_signaled w = true) (read_wrs 0 0 0 0 bytes chunk_size 0 0))).

(** The completions that are not counted yet: nobody has them, or a thread has taken them. *)
Definition in_hand (ts : tstate) : list (Z * nat) := match ts with TCount conn w => [(conn, w)] | _ => [] end.
Definition uncounted (s : sync) : list (Z * nat) := outstanding s ++ concat (map in_hand (sy_threads s)).
Definition out (s : sync) (t : nat) : nat := length (filter (λ x, x.2 = t) (uncounted s)).

(** The accounting invariant; [lost] is the number of completions a thread waits for
    that will never come. *)
Record sync_inv (lost : nat → Z) (s : sync) : Prop := {
  si_lost t : 0 ≤ lost t;
  si_thread t ts : sy_threads s !! t = Some ts → ∃ c, sy_counters s !! t = Some c ∧
    match ts with
    | TIdle => c = 0 ∧ out s t = 0%nat ∧ lost t = 0
    | TSet _ signaled => c = Z.of_nat signaled ∧ out s t = 0%nat ∧ lost t = 0
    | _ => c = Z.of_nat (out s t) + lost t ∧ ∀ conn', (conn', t) ∈ uncounted s → Some conn' = waiting ts
    end;
  si_known conn w : (conn, w) ∈ uncounted s → is_Some (sy_threads s !! w) }.

Lemma in_hand_insert (l : list tstate) t ts ts' : l !! t = Some ts →
  in_hand ts ++ concat (map in_hand (<[t := ts']> l)) ≡ₚ in_hand ts' ++ concat (map in_hand l).
Proof.
  intros Ht. pose proof (take_drop_middle l t ts Ht) as E. pose proof (lookup_lt_Some _ _ _ Ht) as Hl.
  rewrite insert_take_drop by done. rewrite <- E at 3. rewrite !map_app, !concat_app. cbn [map concat].
  solve_Permutation.
Qed.

Lemma uncounted_elem s x : x ∈ uncounted s ↔
  x ∈ outstanding s ∨ ∃ t, sy_threads s !! t = Some (TCount x.1 x.2).
Proof.
  unfold uncounted. rewrite elem_of_app, (list_elem_of_In (concat _) x), in_concat. f_equiv. split.
  - intros (l & (ts & <- & Hts)%in_map_iff & Hx). apply list_elem_of_In, list_elem_of_lookup in Hts as [t Ht].
    destruct ts; cbn in Hx; try done. destruct Hx as [<-|[]]. by exists t.
  - intros [t Ht]. exists [x]. split; [|by left]. apply in_map_iff. exists (TCount x.1 x.2).
    split; [by destruct x|]. apply list_elem_of_In. by eapply list_elem_of_lookup_2.
Qed.

Lemma out_zero s t : out s t = 0%nat → ∀ conn, (conn, t) ∉ uncounted s.
Proof.
  unfold out. intros H conn Hin. apply length_zero_iff_nil in H.
  assert ((conn, t) ∈ filter (λ x, x.2 = t) (uncounted s)) as Hf by by apply list_elem_of_filter.
  rewrite H in Hf. by apply elem_of_nil in Hf.
Qed.

Lemma out_pos s t conn : (conn, t) ∈ uncounted s → (0 < out s t)%nat.
Proof. intros Hin. destruct (decide (out s t = 0)%nat) as [E|]; [by destruct (out_zero _ _ E conn)|lia]. Qed.

Lemma out_elem s t : (0 < out s t)%nat → ∃ conn, (conn, t) ∈ uncounted s.
Proof.
  unfold out. destruct (filter _ (uncounted s)) as [|[conn t'] l] eqn:E; cbn; [lia|]. intros _.
  assert ((conn, t') ∈ filter (λ x : Z * nat, x.2 = t) (uncounted s)) as Hin by (rewrite E; apply list_elem_of_here).
  apply list_elem_of_filter in Hin as [Ht Hin]. cbn in Ht. subst. by exists conn.
Qed.

Lemma out_split s s' l t : uncounted s ≡ₚ l ++ uncounted s' →
  out s t = (length (filter (λ x : Z * nat, x.2 = t) l) + out s' t)%nat.
Proof. intros E. unfold out. by rewrite E, filter_app, length_app. Qed.

(** The counter of a thread with an uncounted completion is at least one. *)
Lemma completion_counter lost s conn w : sync_inv lost s → (conn, w) ∈ uncounted s →
  ∃ c, sy_counters s !! w = Some c ∧ 1 ≤ c ∧ ∃ ts, sy_threads s !! w = Some ts ∧ waiting ts = Some conn.
Proof.
  intros [Hl Ht Hk] Hin. destruct (Hk _ _ Hin) as [ts Hts]. destruct (Ht _ _ Hts) as (c & Hc & Hcase).
  pose proof (out_pos _ _ _ Hin) as Hpos. specialize (Hl w).
  exists c. destruct ts; try lia; destruct Hcase as [-> Hw]; (split_and!; [done|lia|]); eexists; (split; [done|]);
    symmetry; by apply Hw.
Qed.

Lemma on_completion_done cs w c :
  cs !! w = Some c → 1 ≤ c → on_completion cs (Z.of_nat w) = Done (<[w := c - 1]> cs).
Proof.
  intros Hc Hle. unfold on_completion. rewrite Nat2Z.id, Hc, defined_Some, bind_done.
  by rewrite (proj2 (Z.leb_le _ _) Hle).
Qed.

(** A change of thread [t] alone, with the completions of the others kept. *)
Lemma sync_inv_own lost lost' s s' t ts ts' :
  sync_inv lost s → sy_threads s !! t = Some ts → sy_threads s' = <[t := ts']> (sy_threads s) →
  (∀ t', t' ≠ t → lost' t' = lost t') → 0 ≤ lost' t →
  (∀ t', t' ≠ t → sy_counters s' !! t' = sy_counters s !! t' ∧ out s' t' = out s t' ∧
     ∀ conn, (conn, t') ∈ uncounted s' → (conn, t') ∈ uncounted s) →
  (∃ c, sy_counters s' !! t = Some c ∧ match ts' with
    | TIdle => c = 0 ∧ out s' t = 0%nat ∧ lost' t = 0
    | TSet _ signaled => c = Z.of_nat signaled ∧ out s' t = 0%nat ∧ lost' t = 0
    | _ => c = Z.of_nat (out s' t) + lost' t ∧ ∀ conn', (conn', t) ∈ uncounted s' → Some conn' = waiting ts'
    end) →
  sync_inv lost' s'.
Proof.
  intros [Hl Ht Hk] Hts Hth Hlo Hlt0 Hother Hown. apply lookup_lt_Some in Hts as Hlt. split.
  - intros t'. destruct (decide (t' = t)) as [->|Hne]; [done|]. by rewrite Hlo.
  - intros t' ts1 Hts1. rewrite Hth in Hts1. apply list_lookup_insert_Some in Hts1 as [(<- & <- & _)|[Hne Hts1]].
    + exact Hown.
    + destruct (Hother t' (not_eq_sym Hne)) as (Ec & Eo & Hin). destruct (Ht _ _ Hts1) as (c & Hc & Hcase).
      exists c. rewrite Ec. split; [done|]. rewrite Eo, (Hlo _ (not_eq_sym Hne)).
      destruct ts1; [done..| | |]; (destruct Hcase as [? Hconn]; split; [done|]; eauto).
  - intros conn w Hin. rewrite Hth. destruct (decide (w = t)) as [->|Hne].
    + rewrite list_lookup_insert_eq by done. eauto.
    + rewrite list_lookup_insert_ne by done. eapply Hk. by apply Hother.
Qed.

(** The same completions in other places. *)
Lemma sync_inv_move lost s s' t ts ts' conn :
  sync_inv lost s → sy_threads s !! t = Some ts → sy_threads s' = <[t := ts']> (sy_threads s) →
  sy_counters s' = sy_counters s → uncounted s' ≡ₚ uncounted s → waiting ts = Some conn → waiting ts' = Some conn →
  sync_inv lost s'.
Proof.
  intros Hinv Ht Hth Hc Hu Hw Hw'. pose proof Hinv as [Hl Hts _].
  assert (∀ t', out s' t' = out s t') as Ho by (intros t'; unfold out; by rewrite Hu).
  eapply sync_inv_own; [done|done|done|done|apply Hl| |].
  - intros t' _. rewrite Hc, Ho. split_and!; [done..|]. intros conn'. by rewrite Hu.
  - destruct (Hts _ _ Ht) as (c & Ec & E). exists c. rewrite Hc, Ho. split; [done|].
    destruct ts, ts'; try done; (destruct E as [? Hall]; split; [done|]; intros conn'; rewrite Hu, Hw', <- Hw; apply Hall).
Qed.

Lemma uncounted_move s cs o t ts ts' : sy_threads s !! t = Some ts →
  in_hand ts ++ uncounted (mkSync cs o (<[t := ts']> (sy_threads s))) ≡ₚ
  o ++ in_hand ts' ++ concat (map in_hand (sy_threads s)).
Proof. intros Ht. unfold uncounted. cbn [outstanding sy_threads]. rewrite <- (in_hand_insert _ _ _ ts' Ht). solve_Permutation. Qed.

Lemma uncounted_same s cs t ts ts' : sy_threads s !! t = Some ts → in_hand ts = [] → in_hand ts' = [] →
  uncounted (mkSync cs (outstanding s) (<[t := ts']> (sy_threads s))) ≡ₚ uncounted s.
Proof. intros Ht E E'. pose proof (uncounted_move s cs (outstanding s) t ts ts' Ht) as Hu. by rewrite E, E' in Hu. Qed.

Lemma count_perm s t conn w cs : sy_threads s !! t = Some (TCount conn w) →
  uncounted s ≡ₚ (conn, w) :: uncounted (mkSync cs (outstanding s) (<[t := TPoll conn]> (sy_threads s))).
Proof. intros Ht. symmetry. exact (uncounted_move s cs (outstanding s) t _ (TPoll conn) Ht). Qed.

Lemma count_out s t conn w cs t' : sy_threads s !! t = Some (TCount conn w) →
  out s t' = ((if decide (w = t') then 1 else 0) + out (mkSync cs (outstanding s) (<[t := TPoll conn]> (sy_threads s))) t')%nat.
Proof.
  intros Ht. rewrite (out_split s _ [(conn, w)] t' (count_perm s t conn w cs Ht)), filter_cons, filter_nil. cbn. by case_decide.
Qed.

(** Counting a completion in hand. *)
Lemma sync_inv_count lost s s' t conn w cs :
  sync_inv lost s → sy_threads s !! t = Some (TCount conn w) → on_completion (sy_counters s) (Z.of_nat w) = Done cs →
  s' = mkSync cs (outstanding s) (<[t := TPoll conn]> (sy_threads s)) → sync_inv lost s'.
Proof.
  intros Hinv Ht Hon ->. pose proof Hinv as [Hl Hts Hk].
  pose proof (count_perm s t conn w cs Ht) as Hu. pose proof (λ t', count_out s t conn w cs t' Ht) as Ho.
  set (s' := mkSync cs _ _) in *.
  assert (∀ x, x ∈ uncounted s' → x ∈ uncounted s) as Hsub by (intros x Hx; rewrite Hu; by apply list_elem_of_further).
  assert ((conn, w) ∈ uncounted s) as Hin by (rewrite Hu; apply list_elem_of_here).
  destruct (completion_counter _ _ _ _ Hinv Hin) as (c & Hc & Hle & tw & Htw & Hww).
  rewrite (on_completion_done _ _ _ Hc Hle) in Hon. injection Hon as <-.
  split; [done| |].
  - intros t' ts1 Hts1. assert (∃ ts0, sy_threads s !! t' = Some ts0 ∧ (ts1 = ts0 ∨ waiting ts0 = waiting ts1 ∧ is_Some (waiting ts1))) as (ts0 & Hts0 & Hsame).
    { apply list_lookup_insert_Some in Hts1 as [(<- & <- & _)|[_ ?]]; [|by eauto].
      eexists. split; [exact Ht|]. right. by split. }
    destruct (Hts _ _ Hts0) as (c0 & Hc0 & Hcase). specialize (Ho t'). cbn [sy_counters s'].
    exists (if decide (w = t') then c0 - 1 else c0). split.
    { case_decide as E; [|by rewrite list_lookup_insert_ne]. subst t'. rewrite Hc in Hc0. injection Hc0 as <-.
      apply list_lookup_insert_eq. by eapply lookup_lt_Some. }
    assert (is_Some (waiting ts0) → (if decide (w = t') then c0 - 1 else c0) = Z.of_nat (out s' t') + lost t' ∧
      ∀ conn', (conn', t') ∈ uncounted s' → Some conn' = waiting ts0) as Hwait.
    { intros [x Hx]. destruct ts0; try done; (destruct Hcase as [-> Hall]; split; [case_decide; lia|eauto]). }
    destruct Hsame as [->|[Hsame Hsome]].
    + destruct ts0; try (by apply Hwait); destruct Hcase as (? & ? & ?); case_decide; split_and!; (done || lia).
    + rewrite Hsame in Hwait. destruct ts1; try (by destruct Hsome); by apply Hwait.
  - intros conn' w' Hin'. apply Hsub, Hk in Hin'. cbn. apply lookup_lt_is_Some in Hin'.
    apply lookup_lt_is_Some. by rewrite length_insert.
Qed.

Lemma filter_own n (conn : Z) (t t' : nat) :
  length (filter (λ x : Z * nat, x.2 = t') (replicate n (conn, t))) = if decide (t = t') then n else 0%nat.
Proof.
  induction n as [|n IH]; cbn [replicate]; [rewrite filter_nil; by case_decide|].
  rewrite filter_cons. cbn [snd]. case_decide; cbn [length]; [by rewrite IH|done].
Qed.

(** Posting [n] requests, with the counter set to [k]. *)
Lemma sync_inv_post lost s s' t ts conn k n :
  sync_inv lost s → sy_threads s !! t = Some ts → in_hand ts = [] → out s t = 0%nat → n ≤ k →
  sy_counters s' !! t = Some k → (∀ t', t' ≠ t → sy_counters s' !! t' = sy_counters s !! t') →
  outstanding s' = outstanding s ++ replicate (Z.to_nat n) (conn, t) → 0 ≤ n →
  sy_threads s' = <[t := TPoll conn]> (sy_threads s) →
  sync_inv (λ t', if decide (t' = t) then k - n else lost t') s'.
Proof.
  intros Hinv Ht Hh Hout Hk Hc Ho Hu Hn Hth.
  assert (uncounted s' ≡ₚ replicate (Z.to_nat n) (conn, t) ++ uncounted s) as Hp.
  { pose proof (in_hand_insert _ _ _ (TPoll conn) Ht) as E. rewrite Hh in E. cbn in E.
    unfold uncounted. rewrite Hth, Hu, E. solve_Permutation. }
  eapply sync_inv_own; [done|exact Ht|done|intros t' Hne; by rewrite decide_False|rewrite decide_True by done; lia| |].
  - intros t' Hne. split_and!; [by apply Ho| |].
    + rewrite (out_split s' s _ t' Hp), filter_own, decide_False by done. done.
    + intros conn'. rewrite Hp, elem_of_app. intros [[E _]%elem_of_replicate|?]; [congruence|done].
  - exists k. split; [done|]. rewrite decide_True by done. split.
    + rewrite (out_split s' s _ t Hp), filter_own, decide_True, Hout by done. lia.
    + intros conn'. rewrite Hp, elem_of_app. intros [[E _]%elem_of_replicate|E]; [by injection E as <-|by apply out_zero in E].
Qed.

Lemma sync_inv_ext lost lost' s : (∀ t, lost t = lost' t) → sync_inv lost s → sync_inv lost' s.
Proof.
  intros E [Hl Ht Hk]. split; [intros t; by rewrite <- E| |done].
  intros t ts Hts. destruct (Ht t ts Hts) as (c & Hc & H). exists c. by rewrite <- E.
Qed.

Lemma sync_inv_step lost s s' :
  sync_inv lost s → sync_step balanced s s' → sync_inv lost s'.
Proof.
  intros Hinv Hs. pose proof Hinv as [Hl Ht Hk].
  destruct Hs as [s t conn k n H Hb|s t conn n H|s t conn H|s t conn c H Hc Hne|s t conn H|s t conn pre w post H Ho
    |s t conn w cs H Hon|s t conn H Hz].
  - destruct (Ht _ _ H) as (c & Hc & -> & Hout & Hlost). rewrite Hb.
    pose proof (uncounted_same s (<[t := Z.of_nat n]> (sy_counters s)) t _ (TSet conn n) H eq_refl eq_refl) as Hu.
    eapply sync_inv_own; [done|done|done|done|apply Hl| |].
    + intros t' Hne. cbn [sy_counters]. rewrite list_lookup_insert_ne by done.
      split; [done|]. unfold out. setoid_rewrite Hu. done.
    + exists (Z.of_nat n). cbn [sy_counters]. rewrite list_lookup_insert_eq by by eapply lookup_lt_Some.
      unfold out. by rewrite Hu.
  - destruct (Ht _ _ H) as (c & Hc & -> & Hout & Hlost).
    eapply sync_inv_ext; [|eapply (sync_inv_post lost s _ t _ conn (Z.of_nat n) (Z.of_nat n)); try done; [cbn; by rewrite Nat2Z.id|lia]].
    intros t'. cbn. case_decide; [subst; lia|done].
  - destruct (Ht _ _ H) as (c & Hc & -> & Hout & Hlost).
    eapply sync_inv_ext; [|eapply (sync_inv_post lost s _ t _ conn 0 0); try done; cbn; by rewrite app_nil_r].
    intros t'. cbn. case_decide; [subst; lia|done].
  - eapply sync_inv_move; [done|done|done|done| |done|done].
    by eapply uncounted_same.
  - eapply sync_inv_move; [done|done|done|done| |done|done].
    by eapply uncounted_same.
  - eapply sync_inv_move; [done|done|done|done| |done|done]. unfold uncounted at 2. rewrite Ho.
    pose proof (uncounted_move s (sy_counters s) (pre ++ post) t _ (TCount conn w) H) as Hu. cbn in Hu. rewrite Hu. solve_Permutation.
  - by eapply sync_inv_count.
  - destruct (Ht _ _ H) as (c & Hc & E & _). specialize (Hl t). rewrite Hz in Hc. injection Hc as <-.
    pose proof (uncounted_same s (sy_counters s) t _ TIdle H eq_refl eq_refl) as Hu.
    eapply sync_inv_own; [done|done|done|done|done| |].
    + intros t' _. split; [done|]. unfold out. by setoid_rewrite Hu.
    + exists 0. split; [done|]. unfold out in *. rewrite Hu. split_and!; [done|lia|lia].
Qed.

(** ** The protocol as the operations use it *)
(** [n] registered threads, none of them in an operation. *)
Definition sync0 (n : nat) : sync := mkSync (replicate n 0) [] (replicate n TIdle).

Lemma sync0_inv n : sync_inv (λ _, 0) (sync0 n).
Proof.
  assert (uncounted (sync0 n) = []) as E by (unfold uncounted; cbn; by induction n).
  split; [done| |].
  - intros t ts [-> Hlt]%lookup_replicate. exists 0. unfold out. rewrite E. cbn. by rewrite lookup_replicate_2.
  - intros conn w. rewrite E. by intros ?%elem_of_nil.
Qed.

Lemma sync_reach n s : star (sync_step balanced) (sync0 n) s → sync_inv (λ _, 0) s.
Proof. apply star_invariant; [apply sync_inv_step|apply sync0_inv]. Qed.

Lemma sync_inv_run s s' : star (sync_step balanced) s s' → sync_inv (λ _, 0) s → sync_inv (λ _, 0) s'.
Proof. intros Hs Hi. revert Hs. by apply star_invariant; [apply sync_inv_step|]. Qed.

(** A waiting thread that counts what it has in hand is back at the test. *)
Lemma back_to_test s t ts conn : sync_inv (λ _, 0) s → sy_threads s !! t = Some ts → waiting ts = Some conn →
  ∃ s', star (sync_step balanced) s s' ∧ sy_threads s' !! t = Some (TPoll conn).
Proof.
  intros Hinv Ht Hw. assert (∀ l : list tstate, l = sy_threads s → <[t := TPoll conn]> l !! t = Some (TPoll conn)) as Hins.
  { intros l ->. apply list_lookup_insert_eq. by eapply lookup_lt_Some. }
  destruct ts as [| |conn'|conn'|conn' w]; try done; cbn in Hw; injection Hw as ->.
  - exists s. split; [apply star_refl|done].
  - eexists. split; [by apply star_one, (st_none _ s t conn)|]. by apply Hins.
  - destruct (completion_counter _ s conn w Hinv) as (c & Hc & Hle & _); [apply uncounted_elem; right; by exists t|].
    eexists. split; [eapply star_one, (st_count _ s t conn w); [done|by eapply on_completion_done]|]. by apply Hins.
Qed.

(** A thread at the test finds its counter at zero, or one more of its completions is counted. *)
Lemma test_progress s t conn : sync_inv (λ _, 0) s → sy_threads s !! t = Some (TPoll conn) → (0 < out s t)%nat →
  ∃ s', star (sync_step balanced) s s' ∧ sy_threads s' !! t = Some (TPoll conn) ∧ out s t = S (out s' t).
Proof.
  intros Hinv Ht Hpos. pose proof (lookup_lt_Some _ _ _ Ht) as Hlt.
  destruct (si_thread _ _ Hinv _ _ Ht) as (c & Hc & E & Hconn). destruct (out_elem s t Hpos) as [conn' Hin].
  injection (Hconn _ Hin) as ->. pose proof (on_completion_done _ _ _ Hc ltac:(lia)) as Hon.
  apply uncounted_elem in Hin as [Hin|[t' Ht']]; cbn [fst snd] in *.
  - apply list_elem_of_split in Hin as (pre & post & Ho).
    set (s2 := mkSync (sy_counters s) (pre ++ post) (<[t := TCount conn t]> (<[t := TTake conn]> (sy_threads s)))).
    assert (sy_threads s2 !! t = Some (TCount conn t)) as Ht2 by (cbn; apply list_lookup_insert_eq; by rewrite length_insert).
    eexists. split; [|split].
    + eapply star_step; [apply (st_test _ s t conn c); [done|done|lia]|].
      eapply star_step; [eapply st_take; [by apply list_lookup_insert_eq|exact Ho]|].
      apply star_one, (st_count _ s2 t conn t _ Ht2 Hon).
    + cbn. apply list_lookup_insert_eq. by rewrite !length_insert.
    + transitivity (out s2 t); [|by rewrite (count_out s2 t conn t (<[t := c - 1]> (sy_counters s)) t Ht2), decide_True].
      unfold out. apply Permutation_length, filter_Permutation. unfold s2. rewrite list_insert_insert_eq.
      pose proof (uncounted_move s (sy_counters s) (pre ++ post) t _ (TCount conn t) Ht) as Hu. cbn in Hu. rewrite Hu.
      unfold uncounted. rewrite Ho. solve_Permutation.
  - eexists. split; [apply star_one, (st_count _ s t' conn t _ Ht' Hon)|]. split.
    + cbn. rewrite list_lookup_insert_ne; [done|congruence].
    + by rewrite (count_out s t' conn t (<[t := c - 1]> (sy_counters s)) t Ht'), decide_True.
Qed.

(** From every reachable state a waiting thread can finish, whoever polls its completions. *)
Lemma waiting_returns s t ts conn : sync_inv (λ _, 0) s → sy_threads s !! t = Some ts → waiting ts = Some conn →
  ∃ s', star (sync_step balanced) s s' ∧ sy_threads s' !! t = Some TIdle.
Proof.
  intros Hinv Hts Hw. destruct (back_to_test s t ts conn Hinv Hts Hw) as (s1 & Hs1 & Ht).
  pose proof (sync_inv_run _ _ Hs1 Hinv) as Hi. cut (∃ s', star (sync_step balanced) s1 s' ∧ sy_threads s' !! t = Some TIdle).
  { intros (s' & Hs' & H). exists s'. split; [by eapply star_trans|done]. }
  remember (out s1 t) as d eqn:Hd. clear Hs1 Hinv Hts. revert s1 Ht Hi Hd. induction d as [|d IH]; intros s1 Ht Hi Hd.
  - destruct (si_thread _ _ Hi _ _ Ht) as (c & Hc & E & _). eexists. split.
    + apply star_one, (st_return _ s1 t conn Ht). rewrite Hc. f_equal. lia.
    + cbn. apply list_lookup_insert_eq. by eapply lookup_lt_Some.
  - destruct (test_progress s1 t conn Hi Ht) as (s2 & Hs2 & Ht2 & Ho); [lia|].
    destruct (IH s2 Ht2 (sync_inv_run _ _ Hs2 Hi)) as (s' & Hs' & H); [lia|]. exists s'. split; [by eapply star_trans|done].
Qed.

(** C16: the completion counters of threads that share connections, every access to a counter
    or a queue being one step. If every operation waits for as many completions as it signals,
    then in every interleaving a completion that is outstanding or has been taken by any thread
    passes the assertion on its owner's counter; a thread whose counter is not zero has a
    completion that is outstanding on its connection, or that some thread has taken from there
    and will count; and every waiting thread can return. *)
Theorem sync_never_broken n s :
  star (sync_step balanced) (sync0 n) s →
  (∀ t conn w, (conn, w) ∈ outstanding s ∨ sy_threads s !! t = Some (TCount conn w) →
    ∃ cs, on_completion (sy_counters s) (Z.of_nat w) = Done cs) ∧
  ∀ t ts conn c, sy_threads s !! t = Some ts → waiting ts = Some conn → sy_counters s !! t = Some c →
    (c ≠ 0 → (conn, t) ∈ outstanding s ∨ ∃ t', sy_threads s !! t' = Some (TCount conn t)) ∧
    ∃ s', star (sync_step balanced) s s' ∧ sy_threads s' !! t = Some TIdle.
Proof.
  intros Hinv%sync_reach. split.
  - intros t conn w Hin. destruct (completion_counter _ s conn w Hinv) as (c & Hc & Hle & _).
    { apply uncounted_elem. destruct Hin; [by left|right; by exists t]. }
    eexists. by apply on_completion_done.
  - intros t ts conn c Ht Hw Hc. split; [|by eapply waiting_returns]. intros Hne.
    destruct (si_thread _ _ Hinv _ _ Ht) as (c' & Hc' & E). rewrite Hc in Hc'. injection Hc' as <-.
    assert (c = Z.of_nat (out s t) + 0 ∧ ∀ conn', (conn', t) ∈ uncounted s → Some conn' = waiting ts) as [-> Hconn] by (by destruct ts).
    destruct (out_elem s t) as [conn' Hin]; [lia|]. pose proof (Hconn _ Hin) as Ec. rewrite Hw in Ec. injection Ec as ->.
    by apply uncounted_elem in Hin.
Qed.

(** Thread 1 has taken the completion of thread 0, whose counter waits for it to be counted. *)
Definition ex_sync : sync := mkSync [1; 1] [(7, 1%nat)] [TPoll 7; TCount 7 0].

Lemma ex_sync_reach : star (sync_step balanced) (sync0 2) ex_sync.
Proof.
  eapply star_step; [apply (st_set _ _ 0 7 1 1); done|]. cbn.
  eapply star_step; [apply (st_set _ _ 1 7 1 1); done|]. cbn.
  eapply star_step; [apply (st_post _ _ 0 7 1); done|]. cbn.
  eapply star_step; [apply (st_post _ _ 1 7 1); done|]. cbn.
  eapply star_step; [apply (st_test _ _ 1 7 1); done|]. cbn.
  eapply star_step; [apply (st_take _ _ 1 7 [] 0%nat [(7, 1%nat)]); done|]. cbn.
  apply star_refl.
Defined.

Lemma sync_never_broken_witness :
  (∃ cs, on_completion (sy_counters ex_sync) 0 = Done cs) ∧
  ((7, 0%nat) ∈ outstanding ex_sync ∨ ∃ t', sy_threads ex_sync !! t' = Some (TCount 7 0)) ∧
  ∃ s', star (sync_step balanced) ex_sync s' ∧ sy_threads s' !! 0%nat = Some TIdle.
Proof.
  destruct (sync_never_broken 2 ex_sync ex_sync_reach) as [Hon Hwait]. split; [apply (Hon 1%nat 7 0%nat); right; reflexivity|].
  destruct (Hwait 0%nat (TPoll 7) 7 1 eq_refl eq_refl eq_refl) as [Hc Hret]. split; [by apply Hc|exact Hret].
Defined.

(** ** A read in several chunks *)
Lemma read_wrs_signaled idx local raddr offset bytes chunk lkey rkey :
  0 < bytes → 0 < chunk →
  length (filter (λ w, wr_signaled w = true) (read_wrs idx local raddr offset bytes chunk lkey rkey)) = 1%nat.
Proof.
  intros Hb Hc. destruct (num_chunks_bounds bytes chunk Hb Hc) as [Hk _]. unfold read_wrs.
  set (f := λ i : nat, read_wr idx local raddr offset bytes chunk lkey rkey (Z.of_nat i)).
  replace (Z.to_nat (num_chunks bytes chunk)) with (S (Z.to_nat (num_chunks bytes chunk - 1))) by lia.
  rewrite seq_S, map_app, filter_app, length_app. cbn [map].
  assert (∀ l : list nat, (∀ i, i ∈ l → Z.of_nat i < num_chunks bytes chunk - 1) →
    filter (λ w, wr_signaled w = true) (map f l) = []) as Hnone.
  { induction l as [|i l IH]; intros Hl; cbn [map]; [by rewrite filter_nil|].
    rewrite filter_cons_False, IH; [done|intros j Hj; apply Hl; by apply list_elem_of_further|].
    specialize (Hl i (list_elem_of_here _ _)). unfold f, read_wr. cbn. rewrite Z.eqb_eq. lia. }
  rewrite Hnone by (intros i Hi%elem_of_seq; lia). rewrite filter_cons_True, filter_nil; [done|].
  unfold f, read_wr. cbn [wr_signaled]. rewrite Z.eqb_eq. lia.
Qed.

(** A thread that waits for completions which never come goes on waiting. *)
Definition waits (s : sync) (t : nat) (conn : Z) : Prop :=
  ∃ ts, sy_threads s !! t = Some ts ∧ waiting ts = Some conn.

Lemma lost_stays lost s s' t conn :
  0 < lost t → sync_inv lost s → waits s t conn → sync_step balanced s s' → waits s' t conn.
Proof.
  intros Hlost Hinv (ts & Ht & Hw) Hs. destruct (si_thread _ _ Hinv _ _ Ht) as (c & Hc & E). pose proof (lookup_lt_Some _ _ _ Ht) as Hlt.
  destruct Hs; (destruct (decide (t0 = t)) as [->|Hne];
    [rewrite Ht in H; injection H as ->; try done; try (eexists; split; [by apply list_lookup_insert_eq|exact Hw])
    |exists ts; split; [by cbn; rewrite list_lookup_insert_ne|done]]).
  rewrite Hc in H0. injection H0 as ->. lia.
Qed.

(** The state right after thread [t] has stored the counter and posted its requests. *)
Definition posted (s : sync) (t : nat) (conn : Z) (r : Z * nat) : sync :=
  mkSync (<[t := r.1]> (sy_counters s)) (outstanding s ++ replicate r.2 (conn, t))
    (<[t := TPoll conn]> (sy_threads s)).

Lemma posted_inv s t conn k :
  sync_inv (λ _, 0) s → sy_threads s !! t = Some TIdle → 1 ≤ k →
  sync_inv (λ t', if decide (t' = t) then k - 1 else 0) (posted s t conn (k, 1%nat)).
Proof.
  intros Hinv Ht Hk. destruct (si_thread _ _ Hinv _ _ Ht) as (c & Hc & -> & Hout & _).
  eapply (sync_inv_post (λ _, 0) s _ t _ conn k 1); try done; cbn [posted sy_counters fst].
  - apply list_lookup_insert_eq. by eapply lookup_lt_Some.
  - intros t' Hne. by rewrite list_lookup_insert_ne.
Qed.

(** A read of more than one chunk waits for [num_chunks] completions but signals
    one: its thread stays in the poll loop in every continuation. *)
Theorem multi_chunk_read_never_returns n s t conn bytes chunk_size s2 :
  0 < chunk_size → chunk_size < bytes →
  star (sync_step balanced) (sync0 n) s → sy_threads s !! t = Some TIdle →
  star (sync_step balanced) (posted s t conn (read_req bytes chunk_size)) s2 →
  waits s2 t conn.
Proof.
  intros Hc Hb Hinv%sync_reach Ht Hstar.
  destruct (num_chunks_bounds bytes chunk_size ltac:(lia) Hc) as [_ Hk].
  assert (2 ≤ num_chunks bytes chunk_size) as Hk2 by nia.
  unfold read_req in Hstar. rewrite read_wrs_signaled in Hstar by lia.
  set (lost := λ t' : nat, if decide (t' = t) then num_chunks bytes chunk_size - 1 else 0).
  apply (star_invariant (sync_step balanced) (λ x, sync_inv lost x ∧ waits x t conn) _ _) in Hstar; [apply Hstar| |].
  - intros a b [Ha Hta] Hstep. split; [by eapply sync_inv_step|].
    eapply lost_stays; [|done..]. unfold lost. rewrite decide_True by done. lia.
  - split; [apply posted_inv; [done|done|lia]|]. exists (TPoll conn). split; [|done].
    cbn. apply list_lookup_insert_eq. by eapply lookup_lt_Some.
Qed.

Lemma multi_chunk_read_never_returns_witness : waits (mkSync [1; 0] [] [TPoll 7; TIdle]) 0 7.
Proof.
  refine (multi_chunk_read_never_returns 2 (sync0 2) 0 7 128 64 _ _ _ _ _ _); [lia|lia|apply star_refl
    |reflexivity|].
  eapply star_step; [apply (st_test _ _ 0 7 2); try reflexivity; done|]. cbn.
  eapply star_step; [apply (st_take _ _ 0 7 [] 0%nat []); reflexivity|]. cbn.
  eapply star_step; [apply (st_count _ _ 0 7 0 [1; 0]); reflexivity|]. apply star_refl.
Defined.
