(* ===== verification/Card.v ===== *)
(** * Registered memory and a conforming network card (rdma/memory_pool.h)

    The memory of all nodes as bytes, and what [MemoryPool] relies on from a card: a request
    moves bytes between the posting node's memory and that of the node behind the
    connection (which may be the posting node itself), a signaled one leaves a completion, and
    polls take completions from the queue. A request here is executed when it is posted: its
    poster only looks after the completion. QueuePair.v is about the requests nobody waits for. *)
From S2P Require Import Prelude MemoryPool.

(** ** Bytes of a node *)
Definition bytes_at (f : Z → Z) (a : Z) (n : nat) : list Z := (λ i, f (a + Z.of_nat i)) <$> seq 0 n.
Definition word_at (f : Z → Z) (a : Z) : Z := of_le (bytes_at f a 8).
(** [l] stored from [a] on. *)
Definition put (f : Z → Z) (a : Z) (l : list Z) : Z → Z := λ x,
  if a <=? x then default (f x) (l !! Z.to_nat (x - a)) else f x.
(** The same in the memory of node [nd]. *)
Definition put_at (m : Z → Z → Z) (nd a : Z) (l : list Z) : Z → Z → Z := λ nd' x,
  if nd' =? nd then put (m nd) a l x else m nd' x.

Definition same_memory (m m' : Z → Z → Z) : Prop := ∀ nd x, m nd x = m' nd x.
#[export] Instance same_memory_equiv : Equivalence same_memory.
Proof. split; [done|by intros ? ? H nd x|intros ? ? ? H1 H2 nd x; by rewrite H1]. Qed.

Lemma bytes_at_length f a n : length (bytes_at f a n) = n.
Proof. unfold bytes_at. by rewrite length_fmap, length_seq. Qed.

Lemma bytes_at_lookup f a n i : (i < n)%nat → bytes_at f a n !! i = Some (f (a + Z.of_nat i)).
Proof. intros Hi. unfold bytes_at. by rewrite list_lookup_fmap, lookup_seq_lt by done. Qed.

Lemma bytes_at_ext f g a n : (∀ x, a ≤ x < a + Z.of_nat n → f x = g x) → bytes_at f a n = bytes_at g a n.
Proof.
  intros Hfg. unfold bytes_at. apply list_fmap_ext. intros i x Hx. apply lookup_seq in Hx as [-> Hx]. apply Hfg. lia.
Qed.

Lemma put_out f a l x : x < a ∨ a + Z.of_nat (length l) ≤ x → put f a l x = f x.
Proof.
  intros Hx. unfold put. destruct (Z.leb_spec a x); [|done]. rewrite lookup_ge_None_2; [done|lia].
Qed.

Lemma put_in f a l i b : l !! i = Some b → put f a l (a + Z.of_nat i) = b.
Proof.
  intros Hi. unfold put. rewrite (proj2 (Z.leb_le a _)) by lia.
  by replace (Z.to_nat (a + Z.of_nat i - a)) with i by lia; rewrite Hi.
Qed.

Lemma bytes_at_put f a l : bytes_at (put f a l) a (length l) = l.
Proof.
  apply list_eq_same_length with (length l); [done|apply bytes_at_length|]. intros i x y Hi Hx Hy.
  rewrite bytes_at_lookup in Hx by done. injection Hx as <-. by apply put_in.
Qed.

Lemma bytes_at_put_out f a l b n : b + Z.of_nat n ≤ a ∨ a + Z.of_nat (length l) ≤ b →
  bytes_at (put f a l) b n = bytes_at f b n.
Proof. intros Hd. apply bytes_at_ext. intros x Hx. apply put_out. lia. Qed.

(** Storing over what has just been stored. *)
Lemma put_put f a l l' : (length l ≤ length l')%nat → ∀ x, put (put f a l) a l' x = put f a l' x.
Proof.
  intros Hl x. unfold put at 1 3. destruct (a <=? x) eqn:E; [|unfold put; by rewrite E].
  destruct (l' !! Z.to_nat (x - a)) as [b|] eqn:Hb; [done|]. cbn. apply lookup_ge_None in Hb.
  unfold put. rewrite E, lookup_ge_None_2; [done|lia].
Qed.

Lemma word_at_put f a w : is_u 64 w → word_at (put f a (le_bytes 8 w)) a = w.
Proof.
  intros Hw. unfold word_at. rewrite <- (length_le_bytes 8 w) at 2. rewrite bytes_at_put, of_le_bytes. by apply Z.mod_small.
Qed.

Lemma put_at_ext m m' nd a l : same_memory m m' → same_memory (put_at m nd a l) (put_at m' nd a l).
Proof. intros H nd' x. unfold put_at, put. destruct (nd' =? nd); [|apply H]. by rewrite H. Qed.
#[export] Instance put_at_proper : Proper (same_memory ==> eq ==> eq ==> eq ==> same_memory) put_at.
Proof. intros m m' Hm nd _ <- a _ <- l _ <-. by apply put_at_ext. Qed.

Lemma put_at_here m nd a l x : put_at m nd a l nd x = put (m nd) a l x.
Proof. unfold put_at. by rewrite Z.eqb_refl. Qed.

Lemma put_at_else m nd a l nd' x : nd' ≠ nd → put_at m nd a l nd' x = m nd' x.
Proof. intros Hn. unfold put_at. by rewrite (proj2 (Z.eqb_neq _ _) Hn). Qed.

Lemma put_at_out m nd a l nd' x : nd' ≠ nd ∨ x < a ∨ a + Z.of_nat (length l) ≤ x → put_at m nd a l nd' x = m nd' x.
Proof.
  intros Hd. destruct (decide (nd' = nd)) as [->|Hn]; [|by apply put_at_else]. rewrite put_at_here. apply put_out. naive_solver.
Qed.

(** ** A conforming card *)
(** Completions [l] have been added to one queue. *)
Definition queued {N : Type} (pending : N → Z → list Z) (n n' : N) (conn : Z) (l : list Z) : Prop :=
  ∀ c, pending n' c = pending n c ++ (if c =? conn then l else []).

(** [mem n nd x] is byte [x] of node [nd], [self] the node of the card, [node conn] the
    node behind a connection, [pending] the completions waiting in a connection's queue. *)
Class NicLaws (N : Type) `{!Nic N} (mem : N → Z → Z → Z) (self : Z) (node : Z → Z) (pending : N → Z → list Z) : Prop := {
  mem_byte n nd x : 0 ≤ mem n nd x < 256;
  load_word n a : local_load64 n a = word_at (mem n self) a;
  store_bytes n a len bytes : Forall (λ b, 0 ≤ b < 256) bytes →
    let n' := local_store n a len bytes in
    same_memory (mem n') (put_at (put_at (mem n) self a (replicate (Z.to_nat len) 0)) self a bytes) ∧
    ∀ c, pending n' c = pending n c;
  post_read n conn w : wr_opcode w = IBV_WR_RDMA_READ → wr_signaled w = true →
    ∃ n', ibv_post_send n conn [w] = (0, n') ∧ queued pending n n' conn [wr_id w] ∧
      same_memory (mem n') (put_at (mem n) self (sge_addr w)
        (bytes_at (mem n (node conn)) (wr_remote_addr w) (Z.to_nat (sge_length w))));
  post_write n conn w : wr_opcode w = IBV_WR_RDMA_WRITE →
    ∃ n', ibv_post_send n conn [w] = (0, n') ∧ queued pending n n' conn (if wr_signaled w then [wr_id w] else []) ∧
      same_memory (mem n') (put_at (mem n) (node conn) (wr_remote_addr w)
        (bytes_at (mem n self) (sge_addr w) (Z.to_nat (sge_length w))));
  post_cas n conn w : wr_opcode w = IBV_WR_ATOMIC_CMP_AND_SWP → wr_signaled w = true →
    let old := word_at (mem n (node conn)) (wr_remote_addr w) in
    ∃ n', ibv_post_send n conn [w] = (0, n') ∧ queued pending n n' conn [wr_id w] ∧
      same_memory (mem n') (put_at (if old =? wr_compare w
          then put_at (mem n) (node conn) (wr_remote_addr w) (le_bytes 8 (wr_swap w)) else mem n)
        self (sge_addr w) (le_bytes 8 old));
  poll_pending n conn i l : pending n conn = i :: l →
    ∃ n', ibv_poll_cq n conn = (PollOne i true, n') ∧
      (∀ c, pending n' c = if c =? conn then l else pending n c) ∧ same_memory (mem n') (mem n) }.

(** ** A reference card *)
Record card := mkCard { cd_mem : gmap (Z * Z) Z; cd_cq : gmap Z (list Z) }.
Definition cd_byte (n : card) (nd x : Z) : Z := u8 (default 0 (cd_mem n !! (nd, x))).
Definition cd_pending (n : card) (conn : Z) : list Z := default [] (cd_cq n !! conn).

Fixpoint cd_put (m : gmap (Z * Z) Z) (nd a : Z) (l : list Z) : gmap (Z * Z) Z :=
  match l with [] => m | b :: l => <[(nd, a) := b]> (cd_put m nd (a + 1) l) end.

Section reference.
Context (self : Z) (node : Z → Z).

Definition cd_exec (conn : Z) (n : card) (w : ibv_send_wr) : card :=
  let cq := if wr_signaled w then <[conn := cd_pending n conn ++ [wr_id w]]> (cd_cq n) else cd_cq n in
  match wr_opcode w with
  | IBV_WR_RDMA_READ =>
      mkCard (cd_put (cd_mem n) self (sge_addr w) (bytes_at (cd_byte n (node conn)) (wr_remote_addr w) (Z.to_nat (sge_length w)))) cq
  | IBV_WR_RDMA_WRITE =>
      mkCard (cd_put (cd_mem n) (node conn) (wr_remote_addr w) (bytes_at (cd_byte n self) (sge_addr w) (Z.to_nat (sge_length w)))) cq
  | IBV_WR_ATOMIC_CMP_AND_SWP =>
      let old := word_at (cd_byte n (node conn)) (wr_remote_addr w) in
      mkCard (cd_put (if old =? wr_compare w then cd_put (cd_mem n) (node conn) (wr_remote_addr w) (le_bytes 8 (wr_swap w)) else cd_mem n)
                self (sge_addr w) (le_bytes 8 old)) cq
  end.

#[export] Instance card_nic : Nic card := {
  ibv_post_send n conn wrs := (0, foldl (cd_exec conn) n wrs);
  ibv_poll_cq n conn :=
    match cd_pending n conn with
    | [] => (PollNone, n)
    | i :: l => (PollOne i true, mkCard (cd_mem n) (<[conn := l]> (cd_cq n)))
    end;
  local_store n a len bytes := mkCard (cd_put (cd_put (cd_mem n) self a (replicate (Z.to_nat len) 0)) self a bytes) (cd_cq n);
  local_load64 n a := word_at (cd_byte n self) a }.

Lemma cd_put_lookup m nd a l nd' x : cd_put m nd a l !! (nd', x) =
  if (nd' =? nd) && (a <=? x) then match l !! Z.to_nat (x - a) with Some b => Some b | None => m !! (nd', x) end else m !! (nd', x).
Proof.
  revert a. induction l as [|b l IH]; intros a; cbn; [by destruct (_ && _)|].
  destruct (decide ((nd, a) = (nd', x))) as [[= -> ->]|Hne].
  - rewrite lookup_insert_eq, Z.eqb_refl, Z.leb_refl, Z.sub_diag. done.
  - rewrite lookup_insert_ne, IH by done. destruct (Z.eqb_spec nd' nd) as [->|]; [|done]. cbn.
    assert (x ≠ a) by congruence. destruct (Z.leb_spec (a + 1) x), (Z.leb_spec a x); try lia; [|done].
    by replace (Z.to_nat (x - a)) with (S (Z.to_nat (x - (a + 1)))) by lia.
Qed.

Lemma cd_put_bytes m cq cq' nd a l : Forall (λ b, 0 ≤ b < 256) l →
  same_memory (cd_byte (mkCard (cd_put m nd a l) cq)) (put_at (cd_byte (mkCard m cq')) nd a l).
Proof.
  intros Hl nd' x. unfold cd_byte, put_at, put. cbn. rewrite cd_put_lookup.
  destruct (Z.eqb_spec nd' nd) as [->|]; [|done]. cbn. destruct (a <=? x); [|done].
  destruct (l !! _) as [b|] eqn:Hb; [|done]. cbn. apply (wrap_small 8). exact (Forall_lookup_1 _ _ _ _ Hl Hb).
Qed.

Lemma le_bytes_range k x : Forall (λ b, 0 ≤ b < 256) (le_bytes k x).
Proof. revert x. induction k as [|k IH]; intros x; cbn; constructor; [apply Z.mod_pos_bound; lia|apply IH]. Qed.

Lemma bytes_at_range f a k : (∀ x, 0 ≤ f x < 256) → Forall (λ b, 0 ≤ b < 256) (bytes_at f a k).
Proof. intros Hf. apply Forall_forall. intros b (i & -> & _)%list_elem_of_fmap. apply Hf. Qed.

Lemma cd_byte_range n nd x : 0 ≤ cd_byte n nd x < 256.
Proof. apply Z.mod_pos_bound. lia. Qed.

Lemma cd_queued m m' cq conn l : queued cd_pending (mkCard m cq) (mkCard m' (<[conn := default [] (cq !! conn) ++ l]> cq)) conn l.
Proof.
  intros c. unfold cd_pending. cbn. destruct (Z.eqb_spec c conn) as [->|Hne]; [by rewrite lookup_insert_eq|].
  by rewrite lookup_insert_ne, app_nil_r.
Qed.

Lemma cd_unqueued m m' cq conn : queued cd_pending (mkCard m cq) (mkCard m' cq) conn [].
Proof. intros c. unfold cd_pending. cbn. by destruct (c =? conn); rewrite app_nil_r. Qed.

#[export] Instance card_laws : NicLaws card cd_byte self node cd_pending.
Proof.
  split.
  - apply cd_byte_range.
  - done.
  - intros n a len bytes Hb n'. split; [|done]. etrans; [by apply (cd_put_bytes _ _ (cd_cq n))|]. apply put_at_ext.
    etrans; [apply (cd_put_bytes _ _ (cd_cq n)), Forall_replicate; lia|]. by destruct n.
  - intros n conn w Hop Hsig. eexists. split; [reflexivity|]. cbn [foldl]. unfold cd_exec. rewrite Hop, Hsig.
    split; [destruct n; apply cd_queued|].
    etrans; [apply (cd_put_bytes _ _ (cd_cq n)), bytes_at_range, cd_byte_range|]. by destruct n.
  - intros n conn w Hop. eexists. split; [reflexivity|]. cbn [foldl]. unfold cd_exec. rewrite Hop.
    split; [destruct n, (wr_signaled w); [apply cd_queued|apply cd_unqueued]|].
    etrans; [apply (cd_put_bytes _ _ (cd_cq n)), bytes_at_range, cd_byte_range|]. by destruct n.
  - intros n conn w Hop Hsig old. eexists. split; [reflexivity|]. cbn [foldl]. unfold cd_exec. rewrite Hop, Hsig.
    split; [destruct n; apply cd_queued|]. fold old.
    etrans; [apply (cd_put_bytes _ _ (cd_cq n)), le_bytes_range|]. apply put_at_ext. destruct (old =? wr_compare w); [|by destruct n].
    etrans; [apply (cd_put_bytes _ _ (cd_cq n)), le_bytes_range|]. by destruct n.
  - intros n conn i l Hp. cbn. rewrite Hp. eexists. split; [done|]. split; [|done]. intros c.
    unfold cd_pending. cbn. destruct (Z.eqb_spec c conn) as [->|Hne]; [by rewrite lookup_insert_eq|by rewrite lookup_insert_ne].
Qed.
End reference.
