(* ===== verification/RdmaOps.v ===== *)
(** * The one-sided operations over a conforming network card, and [Init]

    Over a card that satisfies the laws of Card.v the operations return, give their
    thread's counter back at zero and do the memory operation they are named for, up to the
    bytes of the buffer they use on their own node. *)
From S2P Require Import Prelude Status RemotePtr Memory SlabAllocator MemoryPool Card.

Section card.
Context {N : Type} `{!Nic N} (mem : N → Z → Z → Z) (self : Z) (node : Z → Z) (pending : N → Z → list Z).
Context `{!NicLaws N mem self node pending}.
Implicit Types (n : N) (p : MemoryPool).

(** The counters after an operation of the thread with index [idx]. *)
Definition settled p (idx : Z) : MemoryPool := set_counters p (<[Z.to_nat idx := 0]> (reordering_counters p)).

(** One request with its completion: posted, polled, counter back at zero. *)
Lemma post_one_and_wait fuel checked p idx conn w n n1 c0 :
  reordering_counters p !! Z.to_nat idx = Some c0 → ibv_post_send n conn [w] = (0, n1) → pending n conn = [] →
  queued pending n n1 conn [idx] → (1 ≤ fuel)%nat →
  ∃ n', post_and_wait fuel checked p idx conn (Some 1) [w] n = Done (settled p idx, n') ∧
    (∀ c, pending n' c = pending n c) ∧ same_memory (mem n') (mem n1).
Proof.
  intros Hc0 Hpost Hp Hp1 Hfuel.
  assert (pending n1 conn = [idx]) as Hp1c by (by rewrite (Hp1 conn), Hp, Z.eqb_refl).
  destruct (poll_pending n1 conn idx [] Hp1c) as (n2 & Hpoll & Hp2 & Hm2).
  assert (Z.to_nat idx < length (reordering_counters p))%nat as Hlt by by eapply lookup_lt_Some.
  exists n2. split; [|split; [|done]].
  2:{ intros c. rewrite Hp2, Hp1. destruct (Z.eqb_spec c conn) as [->|]; [done|by rewrite app_nil_r]. }
  unfold post_and_wait. rewrite Hc0, defined_Some, !bind_done, Hpost. cbn [rome_assert Z.eqb].
  rewrite bind_done. destruct fuel as [|fuel]; [lia|]. cbn [poll_loop].
  rewrite list_lookup_insert_eq by done. rewrite defined_Some, bind_done.
  change (1 =? 0) with false. cbv iota. rewrite Hpoll. cbn [rome_assert]. rewrite bind_done.
  unfold on_completion. rewrite list_lookup_insert_eq by done.
  rewrite defined_Some, bind_done. cbn [Z.leb rome_assert Z.compare Pos.compare Pos.compare_cont].
  rewrite !bind_done, list_insert_insert_eq. change (1 - 1) with 0.
  destruct fuel as [|fuel]; cbn [poll_loop]; rewrite list_lookup_insert_eq by done; by rewrite defined_Some, bind_done.
Qed.

(** The pool state an operation needs: known peer, registered thread. *)
Record can_post p (tid : nat) (ptr : remote_ptr) (info : conn_info_t) (idx c0 : Z) : Prop := {
  cp_info : conn_info_ p !! id ptr = Some info;
  cp_thread : thread_ids p !! tid = Some idx;
  cp_counter : reordering_counters p !! Z.to_nat idx = Some c0 }.
(** and an atomic also a word to land on. *)
Record can_issue p (tid : nat) (ptr : remote_ptr) (info : conn_info_t) (idx : Z)
    (a : allocation) (m m' : memory_resource) : Prop := {
  ci_post : ∃ c0, can_post p tid ptr info idx c0;
  ci_alloc : allocate 8 (rdma_memory_ p) tid 1 = Done (a, m);
  ci_free : deallocate 8 m tid (al_ptr a) 8 = Done m' }.

Lemma old_word n conn a : is_u 64 (word_at (mem n (node conn)) a).
Proof.
  unfold word_at. pose proof (bytes_at_range (mem n (node conn)) a 8 (mem_byte n (node conn))) as Hr.
  apply of_le_range in Hr. by rewrite bytes_at_length in Hr.
Qed.

(** One compare-and-swap, up to its landing. *)
Lemma cas_and_wait fuel p idx conn prev lkey raddr rkey compare swap n c0 :
  reordering_counters p !! Z.to_nat idx = Some c0 → pending n conn = [] → (1 ≤ fuel)%nat →
  let old := word_at (mem n (node conn)) raddr in
  ∃ n', post_and_wait fuel true p idx conn (Some 1) [cas_wr idx prev lkey raddr rkey compare swap] n = Done (settled p idx, n') ∧
    (∀ c, pending n' c = pending n c) ∧ local_load64 n' prev = old ∧
    same_memory (mem n') (put_at (if old =? compare then put_at (mem n) (node conn) raddr (le_bytes 8 swap) else mem n)
      self prev (le_bytes 8 old)).
Proof.
  intros Hc0 Hp Hfuel old.
  destruct (post_cas n conn (cas_wr idx prev lkey raddr rkey compare swap) eq_refl eq_refl) as (n1 & Hpost & Hp1 & Hm1).
  destruct (post_one_and_wait fuel true p idx conn _ n n1 c0 Hc0 Hpost Hp Hp1 Hfuel) as (n' & E & Hp' & Hm').
  exists n'. split; [done|]. split; [done|]. rewrite Hm1 in Hm'. split; [|done].
  rewrite (load_word n' prev). unfold word_at at 1. rewrite (bytes_at_ext _ (put ((if old =? compare then put_at (mem n) (node conn) raddr (le_bytes 8 swap) else mem n) self) prev (le_bytes 8 old))).
  - apply word_at_put, old_word.
  - intros x _. rewrite (Hm' self x). apply put_at_here.
Qed.

Lemma CompareAndSwap_run fuel p tid ptr expected swap n info idx a m m' :
  can_issue p tid ptr info idx a m m' → pending n (ci_conn info) = [] → (1 ≤ fuel)%nat →
  let old := word_at (mem n (node (ci_conn info))) (address ptr) in
  ∃ n', CompareAndSwap fuel p tid ptr expected swap n = Done (old, set_memory (settled p idx) m', n') ∧
    (∀ c, pending n' c = pending n c) ∧
    same_memory (mem n')
      (put_at (if old =? expected then put_at (mem n) (node (ci_conn info)) (address ptr) (le_bytes 8 swap) else mem n)
         self (al_ptr a) (le_bytes 8 old)).
Proof.
  intros [(c0 & [Hi Ht Hc]) Ha Hf] Hp Hfuel old. unfold CompareAndSwap, conn_info.
  rewrite Hi. cbn [or_throw]. rewrite bind_done, Ht. cbn [or_throw]. rewrite bind_done, Ha, bind_done.
  destruct (cas_and_wait fuel (set_memory p m) idx (ci_conn info) (al_ptr a) (mr_lkey (mr_ p)) (address ptr) (ci_rkey info)
    expected swap n c0) as (n' & E & Hp' & Hl & Hm); [done..|].
  exists n'. split; [|done]. cbn [rdma_memory_ mr_ set_memory reordering_counters] in *. rewrite E, bind_done.
  cbn [settled set_counters set_memory rdma_memory_]. by rewrite Hf, bind_done, Hl.
Qed.

(** C19: [CompareAndSwap] returns the old remote word and stores the new one exactly
    when the old word equals the expected one; it leaves no completion behind, resets the
    thread's counter, and changes no other byte of any node but the landing block, which holds
    the old word. *)
Theorem CompareAndSwap_spec fuel p tid ptr expected swap n info idx a m m' :
  can_issue p tid ptr info idx a m m' → pending n (ci_conn info) = [] → (1 ≤ fuel)%nat →
  let old := word_at (mem n (node (ci_conn info))) (address ptr) in
  ∃ p' n', CompareAndSwap fuel p tid ptr expected swap n = Done (old, p', n') ∧
    (∀ c, pending n' c = pending n c) ∧ rdma_memory_ p' = m' ∧
    reordering_counters p' = <[Z.to_nat idx := 0]> (reordering_counters p) ∧
    same_memory (mem n')
      (put_at (if old =? expected then put_at (mem n) (node (ci_conn info)) (address ptr) (le_bytes 8 swap) else mem n)
         self (al_ptr a) (le_bytes 8 old)).
Proof.
  intros Hcan Hp Hfuel old.
  destruct (CompareAndSwap_run fuel p tid ptr expected swap n info idx a m m' Hcan Hp Hfuel) as (n' & E & Hp' & Hm').
  do 2 eexists. split; [exact E|]. by split_and!.
Qed.

(** ** [AtomicSwap] *)
(** Equal but for a block of the own node. *)
Definition off_block (a k : Z) (m m' : Z → Z → Z) : Prop := ∀ nd x, nd ≠ self ∨ x < a ∨ a + k ≤ x → m nd x = m' nd x.
(** The target of an operation does not meet that block. *)
Definition apart (conn raddr a : Z) : Prop := node conn ≠ self ∨ raddr + 8 ≤ a ∨ a + 8 ≤ raddr.

Lemma off_landing m m' a old : same_memory m (put_at m' self a (le_bytes 8 old)) → off_block a 8 m m'.
Proof. intros Hm nd x Hx. rewrite (Hm nd x). apply put_at_out. by rewrite length_le_bytes. Qed.

Lemma off_word m m' conn raddr a : off_block a 8 m m' → apart conn raddr a → word_at (m (node conn)) raddr = word_at (m' (node conn)) raddr.
Proof.
  intros Hm Hap. unfold word_at. f_equal. apply bytes_at_ext. intros x Hx. apply Hm.
  destruct Hap as [?|[?|?]]; [by left|right; lia..].
Qed.

Lemma off_put m m' nd raddr l a k : off_block a k m m' → off_block a k (put_at m nd raddr l) (put_at m' nd raddr l).
Proof.
  intros Hm nd' x Hx. unfold put_at, put. destruct (Z.eqb_spec nd' nd) as [->|]; [|by apply Hm]. by rewrite (Hm _ x Hx).
Qed.

(** A round of [AtomicSwap] whose comparison matches is the last one. *)
Lemma swap_loop_hit r fuel p idx info prev raddr swap n c0 :
  reordering_counters p !! Z.to_nat idx = Some c0 → pending n (ci_conn info) = [] → (1 ≤ fuel)%nat →
  let old := word_at (mem n (node (ci_conn info))) raddr in
  ∃ n', swap_loop (S r) fuel p idx info prev raddr old swap n = Done (old, settled p idx, n') ∧
    (∀ c, pending n' c = pending n c) ∧
    off_block prev 8 (mem n') (put_at (mem n) (node (ci_conn info)) raddr (le_bytes 8 swap)).
Proof.
  intros Hc Hp Hfuel old.
  destruct (cas_and_wait fuel p idx (ci_conn info) prev (mr_lkey (mr_ p)) raddr (ci_rkey info) old swap n c0)
    as (n' & E & Hp' & Hl & Hm); [done..|]. fold old in Hl, Hm. rewrite Z.eqb_refl in Hm.
  exists n'. cbn [swap_loop]. rewrite E, bind_done, Hl, Z.eqb_refl. split_and!; [done..|]. by eapply off_landing.
Qed.

(** A round that does not match changes nothing else and comes back with the current value. *)
Lemma swap_loop_miss r fuel p idx info prev raddr hint swap n c0 :
  reordering_counters p !! Z.to_nat idx = Some c0 → pending n (ci_conn info) = [] → (1 ≤ fuel)%nat →
  let old := word_at (mem n (node (ci_conn info))) raddr in hint ≠ old →
  ∃ n', swap_loop (S r) fuel p idx info prev raddr hint swap n =
      swap_loop r fuel (settled p idx) idx info prev raddr old swap n' ∧
    (∀ c, pending n' c = pending n c) ∧ off_block prev 8 (mem n') (mem n).
Proof.
  intros Hc Hp Hfuel old Hne.
  destruct (cas_and_wait fuel p idx (ci_conn info) prev (mr_lkey (mr_ p)) raddr (ci_rkey info) hint swap n c0)
    as (n' & E & Hp' & Hl & Hm); [done..|]. fold old in Hl, Hm. rewrite (proj2 (Z.eqb_neq old hint)) in Hm by congruence.
  exists n'. cbn [swap_loop]. rewrite E, bind_done, Hl, (proj2 (Z.eqb_neq old hint)) by congruence.
  split_and!; [done..|]. by eapply off_landing.
Qed.

(** [AtomicSwap] returns the old remote word and stores the new one whatever the
    hint is, in at most two rounds when nobody else writes the word. *)
Theorem AtomicSwap_spec rounds fuel p tid ptr swap hint n info idx a m m' :
  can_issue p tid ptr info idx a m m' → pending n (ci_conn info) = [] →
  (1 ≤ fuel)%nat → (2 ≤ rounds)%nat → apart (ci_conn info) (address ptr) (al_ptr a) →
  let old := word_at (mem n (node (ci_conn info))) (address ptr) in
  ∃ p' n', AtomicSwap rounds fuel p tid ptr swap hint n = Done (old, p', n') ∧
    (∀ c, pending n' c = pending n c) ∧ rdma_memory_ p' = m' ∧
    reordering_counters p' = <[Z.to_nat idx := 0]> (reordering_counters p) ∧
    off_block (al_ptr a) 8 (mem n') (put_at (mem n) (node (ci_conn info)) (address ptr) (le_bytes 8 swap)).
Proof.
  intros [(c0 & [Hi Ht Hc]) Ha Hf] Hp Hfuel Hrounds Hap old. unfold AtomicSwap, conn_info.
  rewrite Hi. cbn [or_throw]. rewrite bind_done, Ht. cbn [or_throw]. rewrite bind_done, Ha, bind_done.
  destruct rounds as [|[|r]]; [lia..|]. destruct (decide (hint = old)) as [->|Hne].
  - destruct (swap_loop_hit (S r) fuel (set_memory p m) idx info (al_ptr a) (address ptr) swap n c0)
      as (n' & E1 & Hp' & Hw'); [done..|]. fold old in E1. rewrite E1, bind_done.
    cbn [settled set_counters set_memory rdma_memory_]. rewrite Hf, bind_done. eexists _, n'. by split_and!.
  - destruct (swap_loop_miss (S r) fuel (set_memory p m) idx info (al_ptr a) (address ptr) hint swap n c0)
      as (n1 & E1 & Hp1 & Hw1); [done..|]. fold old in E1. rewrite E1.
    destruct (swap_loop_hit r fuel (settled (set_memory p m) idx) idx info (al_ptr a) (address ptr) swap n1 0)
      as (n' & E2 & Hp' & Hw'); [|by rewrite Hp1|done|].
    { cbn. apply list_lookup_insert_eq. by eapply lookup_lt_Some. }
    assert (word_at (mem n1 (node (ci_conn info))) (address ptr) = old) as Eold by by eapply off_word.
    rewrite Eold in E2. cbn [set_memory reordering_counters] in *.
    rewrite E2, bind_done. cbn [settled set_counters set_memory rdma_memory_ reordering_counters]. rewrite Hf, bind_done.
    eexists _, n'. split_and!; [done|intros c; by rewrite Hp', Hp1|done| |].
    + cbn. by rewrite list_insert_insert_eq.
    + intros nd x Hx. rewrite (Hw' nd x Hx). by eapply off_put.
Qed.

(** ** Reads and writes *)
(** A read of at most one chunk is one signaled request. *)
Lemma one_chunk idx local raddr offset bytes chunk lkey rkey :
  0 < bytes ≤ chunk → bytes < 2 ^ 32 → 0 ≤ offset → 0 ≤ local → 0 ≤ raddr → local + offset < 2 ^ 64 → raddr + offset < 2 ^ 64 →
  num_chunks bytes chunk = 1 ∧
  read_wrs idx local raddr offset bytes chunk lkey rkey =
    [mkWr idx IBV_WR_RDMA_READ true (local + offset) bytes lkey (raddr + offset) rkey 0 0].
Proof.
  intros Hb Hb32 Ho Hl Hr Hlo Hro.
  assert (num_chunks bytes chunk = 1 ∧ (if bytes mod chunk =? 0 then chunk else bytes mod chunk) = bytes) as [Hn Hlen].
  { unfold num_chunks. destruct (decide (bytes = chunk)) as [->|Hne].
    - rewrite Z_mod_same_full, Z_div_same_full by lia. done.
    - rewrite Z.mod_small, Z.div_small by lia. by rewrite (proj2 (Z.eqb_neq bytes 0)) by lia. }
  split; [done|]. unfold read_wrs, read_wr. rewrite Hn. change (seq 0 (Z.to_nat 1)) with [0%nat]. cbn [map].
  change (Z.of_nat 0) with 0. change (0 =? 1 - 1) with true. cbv iota. rewrite Hlen, Z.mul_0_l, Z.add_0_r.
  unfold u64, u32. by rewrite (wrap_small 64 offset), !(wrap_small 64 (_ + offset)), (wrap_small 32 bytes) by (unfold is_u; lia).
Qed.

(** [ReadInternal] copies the range from the peer to the buffer. *)
Lemma ReadInternal_one fuel p tid ptr offset bytes chunk prealloc n info idx c0 :
  can_post p tid ptr info idx c0 → pending n (ci_conn info) = [] → (1 ≤ fuel)%nat →
  0 < bytes ≤ chunk → bytes < 2 ^ 32 → 0 ≤ offset < 2 ^ 63 →
  ∃ n', ReadInternal fuel p tid ptr offset bytes chunk prealloc n = Done (settled p idx, n') ∧
    (∀ c, pending n' c = pending n c) ∧
    same_memory (mem n') (put_at (mem n) self (address prealloc + offset)
      (bytes_at (mem n (node (ci_conn info))) (address ptr + offset) (Z.to_nat bytes))).
Proof.
  intros [Hi Ht Hc] Hp Hfuel Hb Hb32 Ho. unfold ReadInternal, conn_info.
  assert (∀ q, 0 ≤ address q < 2 ^ 48) as Haddr by (intros q; rewrite address_mod; apply Z.mod_pos_bound; lia).
  pose proof (Haddr prealloc). pose proof (Haddr ptr).
  destruct (one_chunk idx (address prealloc) (address ptr) offset bytes chunk (mr_lkey (mr_ p)) (ci_rkey info)) as [Hn Hw]; [lia..|].
  rewrite (proj2 (Z.eqb_neq chunk 0)) by lia. cbn [negb rome_undef]. rewrite bind_done, Hi. cbn [or_throw].
  rewrite bind_done, Ht. cbn [or_throw]. rewrite bind_done, Hn. change (to_i32 1) with 1. change (0 <? 1) with true.
  cbn [rome_undef]. rewrite bind_done, Hw.
  match goal with |- context [post_and_wait _ _ _ _ _ _ [?w] _] =>
    destruct (post_read n (ci_conn info) w eq_refl eq_refl) as (n1 & Hpost & Hp1 & Hm1);
    destruct (post_one_and_wait fuel true p idx (ci_conn info) w n n1 c0 Hc Hpost Hp Hp1 Hfuel) as (n' & E & Hp' & Hm') end.
  exists n'. split; [done|]. split; [done|]. by rewrite Hm'.
Qed.

(** [ExtendedRead] (and [Read], the case of one object) delivers a copy of [size] objects. *)
Theorem ExtendedRead_spec sizeof_T fuel p tid ptr size prealloc n dst p1 info idx c0 :
  prealloc_or sizeof_T p tid prealloc (u64 size) = Done (dst, p1) → can_post p1 tid ptr info idx c0 →
  pending n (ci_conn info) = [] → (1 ≤ fuel)%nat → 0 < size → 0 < sizeof_T → sizeof_T * size < 2 ^ 32 →
  ∃ n', ExtendedRead sizeof_T fuel p tid ptr size prealloc n = Done (dst, settled p1 idx, n') ∧
    (∀ c, pending n' c = pending n c) ∧
    same_memory (mem n') (put_at (mem n) self (address dst)
      (bytes_at (mem n (node (ci_conn info))) (address ptr) (Z.to_nat (sizeof_T * size)))).
Proof.
  intros Hd Hc Hp Hfuel Hs Ht Hlt. unfold ExtendedRead. rewrite Hd, bind_done.
  assert (u64 size = size) as -> by (apply (wrap_small 64); unfold is_u; nia).
  assert (u64 (sizeof_T * size) = sizeof_T * size) as -> by (apply (wrap_small 64); unfold is_u; nia).
  destruct (ReadInternal_one fuel p1 tid ptr 0 (sizeof_T * size) (sizeof_T * size) dst n info idx c0) as (n' & E & Hp' & Hm');
    [done..|nia|done|lia|]. rewrite !Z.add_0_r in Hm'. exists n'. by rewrite E, bind_done.
Qed.

Theorem Read_spec sizeof_T fuel p tid ptr prealloc n dst p1 info idx c0 :
  prealloc_or sizeof_T p tid prealloc 1 = Done (dst, p1) → can_post p1 tid ptr info idx c0 →
  pending n (ci_conn info) = [] → (1 ≤ fuel)%nat → 0 < sizeof_T < 2 ^ 32 →
  ∃ n', Read sizeof_T fuel p tid ptr prealloc n = Done (dst, settled p1 idx, n') ∧
    (∀ c, pending n' c = pending n c) ∧
    same_memory (mem n') (put_at (mem n) self (address dst)
      (bytes_at (mem n (node (ci_conn info))) (address ptr) (Z.to_nat sizeof_T))).
Proof.
  intros Hd Hc Hp Hfuel Ht. unfold Read. rewrite Hd, bind_done.
  destruct (ReadInternal_one fuel p1 tid ptr 0 sizeof_T sizeof_T dst n info idx c0) as (n' & E & Hp' & Hm'); [done..|lia|lia|lia|].
  rewrite !Z.add_0_r in Hm'. exists n'. by rewrite E, bind_done.
Qed.

(** [PartialRead] delivers part of one object, at its place in the buffer. *)
Theorem PartialRead_spec sizeof_T fuel p tid ptr offset bytes prealloc n dst p1 info idx c0 :
  prealloc_or sizeof_T p tid prealloc 1 = Done (dst, p1) → can_post p1 tid ptr info idx c0 →
  pending n (ci_conn info) = [] → (1 ≤ fuel)%nat → 0 < bytes ≤ sizeof_T → bytes < 2 ^ 32 → 0 ≤ offset < 2 ^ 63 →
  ∃ n', PartialRead sizeof_T fuel p tid ptr offset bytes prealloc n = Done (dst, settled p1 idx, n') ∧
    (∀ c, pending n' c = pending n c) ∧
    same_memory (mem n') (put_at (mem n) self (address dst + offset)
      (bytes_at (mem n (node (ci_conn info))) (address ptr + offset) (Z.to_nat bytes))).
Proof.
  intros Hd Hc Hp Hfuel Hb Hb32 Ho. unfold PartialRead. rewrite Hd, bind_done.
  destruct (ReadInternal_one fuel p1 tid ptr offset bytes sizeof_T dst n info idx c0) as (n' & E & Hp' & Hm'); [done..|].
  exists n'. by rewrite E, bind_done.
Qed.
(** [Write] puts its value in a buffer of its own node, its own or a borrowed one, *)
Definition borrow sizeof_T p (tid : nat) (prealloc : remote_ptr) : result (Z * MemoryPool) :=
  if is_null prealloc then '(a, m) ← allocate sizeof_T (rdma_memory_ p) tid 1; Done (al_ptr a, set_memory p m)
  else Done (address prealloc, p).
Definition give_back sizeof_T p (tid : nat) (prealloc : remote_ptr) (local : Z) : result MemoryPool :=
  if is_null prealloc then m ← deallocate sizeof_T (rdma_memory_ p) tid local 1; Done (set_memory p m) else Done p.

Lemma store_exact n a len bytes : Forall (λ b, 0 ≤ b < 256) bytes → length bytes = Z.to_nat len →
  let n' := local_store n a len bytes in
  same_memory (mem n') (put_at (mem n) self a bytes) ∧ ∀ c, pending n' c = pending n c.
Proof.
  intros Hb Hl n'. destruct (store_bytes n a len bytes Hb) as [Hm Hc]. split; [|done]. intros nd x. fold n' in Hm.
  rewrite (Hm nd x). destruct (decide (nd = self)) as [->|Hne]; [|by rewrite !put_at_else].
  rewrite !put_at_here. unfold put at 1. rewrite put_at_here.
  change (put (put (mem n self) a (replicate (Z.to_nat len) 0)) a bytes x = put (mem n self) a bytes x).
  apply put_put. rewrite length_replicate. lia.
Qed.

(** A request that nobody waits for, while no completion is expected. *)
Lemma post_and_go fuel p idx conn w n n1 :
  reordering_counters p !! Z.to_nat idx = Some 0 → ibv_post_send n conn [w] = (0, n1) →
  post_and_wait fuel false p idx conn None [w] n = Done (settled p idx, n1).
Proof.
  intros Hc Hpost. unfold post_and_wait, settled. rewrite bind_done, Hpost. cbn [rome_assert Z.eqb]. rewrite bind_done.
  destruct fuel as [|fuel]; cbn [poll_loop]; rewrite Hc, defined_Some, bind_done, (list_insert_id _ _ 0 Hc); done.
Qed.

(** and sends it: both nodes hold it afterwards. Acknowledged or not, the counter is at
    zero again; an unacknowledged one needs it there before, and leaves no completion. *)
Theorem Write_spec sizeof_T fuel p tid ptr val prealloc wb n info idx c0 local p1 p' :
  borrow sizeof_T p tid prealloc = Done (local, p1) → can_post p tid ptr info idx c0 → can_post p1 tid ptr info idx c0 →
  give_back sizeof_T (settled p1 idx) tid prealloc local = Done p' →
  pending n (ci_conn info) = [] → (1 ≤ fuel)%nat → (wb ≠ 0 → c0 = 0) →
  local ≠ address ptr → local ≠ 0 → 0 ≤ sizeof_T < 2 ^ 32 → length val = Z.to_nat sizeof_T → Forall (λ b, 0 ≤ b < 256) val →
  ∃ n', Write sizeof_T fuel p tid ptr val prealloc wb n = Done (p', n') ∧ (∀ c, pending n' c = pending n c) ∧
    same_memory (mem n') (put_at (put_at (mem n) self local val) (node (ci_conn info)) (address ptr) val).
Proof.
  intros Hb [Hi0 Ht0 _] [Hi Ht Hc] Hg Hp Hfuel Hack Hne Hnz Hs Hl Hv. unfold Write, conn_info. fold (borrow sizeof_T p tid prealloc).
  rewrite Hi0. cbn [or_throw]. rewrite bind_done, Ht0. cbn [or_throw]. rewrite bind_done, Hb, bind_done.
  rewrite (proj2 (Z.eqb_neq local _) Hne), (proj2 (Z.eqb_neq local 0) Hnz). cbn [negb rome_assert rome_undef]. rewrite !bind_done.
  destruct (store_exact n local sizeof_T val Hv Hl) as [Hm1 Hp1]. set (n1 := local_store n local sizeof_T val) in *.
  set (w := write_wr idx local sizeof_T (mr_lkey (mr_ p1)) (address ptr) (ci_rkey info) wb).
  destruct (post_write n1 (ci_conn info) w eq_refl) as (n2 & Hpost & Hp2 & Hm2).
  assert (same_memory (mem n2) (put_at (put_at (mem n) self local val) (node (ci_conn info)) (address ptr) val)) as Hm.
  { cbn [w wr_remote_addr sge_addr sge_length write_wr] in Hm2. unfold u32 in Hm2. rewrite wrap_small in Hm2 by done.
    rewrite <- Hl in Hm2. rewrite (bytes_at_ext _ (put (mem n self) local val)) in Hm2 by (intros x _; by rewrite (Hm1 self x), put_at_here).
    by rewrite bytes_at_put, Hm1 in Hm2. }
  assert (∃ n', post_and_wait fuel false p1 idx (ci_conn info) (if wb =? 0 then Some 1 else None) [w] n1 = Done (settled p1 idx, n') ∧
    (∀ c, pending n' c = pending n c) ∧ same_memory (mem n') (mem n2)) as (n' & E & Hp' & Hm').
  { unfold w in Hp2. cbn [wr_signaled write_wr wr_id] in Hp2. destruct (Z.eqb_spec wb 0) as [->|Hwb].
    - destruct (post_one_and_wait fuel false p1 idx (ci_conn info) w n1 n2 c0) as (n' & E & Hp' & Hm'); [by rewrite ?Hp1..|].
      exists n'. split; [done|]. split; [|done]. intros c. by rewrite Hp', Hp1.
    - exists n2. rewrite (Hack Hwb) in Hc. split; [by apply post_and_go|]. split; [|done].
      intros c. rewrite Hp2, Hp1. case_match; by rewrite app_nil_r. }
  exists n'. rewrite E, bind_done. unfold give_back in Hg. destruct (is_null prealloc).
  - apply bind_done_inv in Hg as (m & -> & [= <-]). rewrite bind_done. split; [done|]. split; [done|]. by rewrite Hm'.
  - injection Hg as <-. split; [done|]. split; [done|]. by rewrite Hm'.
Qed.
(** The assertion before a write compares addresses of two machines: a buffer at the address
    that the target has on its own node ends the program. *)
Lemma same_address_write_aborts sizeof_T fuel p tid ptr val prealloc wb n info idx c0 :
  can_post p tid ptr info idx c0 → is_null prealloc = false → address prealloc = address ptr → id prealloc ≠ id ptr →
  Write sizeof_T fuel p tid ptr val prealloc wb n = Fault FAbort.
Proof.
  intros [Hi Ht _] Hn Ha _. unfold Write, conn_info. rewrite Hi. cbn [or_throw]. rewrite bind_done, Ht. cbn [or_throw].
  rewrite bind_done, Hn, bind_done, Ha, Z.eqb_refl. done.
Qed.
End card.

(** A node with one peer (id 1, connection 5) and one registered thread. *)
Definition ex_pool : MemoryPool :=
  mkPool (mkPeer 2 "node2" 18000) 1 {[ 9%nat := 0 ]} (replicate 20 0)
    (mkResource 4096 (4096 + 65536) ∅) (mkMr 0 4096 65536 11 12) {[ 1 := mkConnInfo 5 77 11 ]}.
Definition ex_ptr : remote_ptr := mk_ptr 1 640.
Definition ex_node (_ : Z) : Z := 1.
(** The word behind [ex_ptr] holds 2. *)
Definition ex_card : card := mkCard {[ (1, 640) := 2 ]} ∅.
Definition ex_card_nic : Nic card := card_nic 2 ex_node.
Definition ex_alloc : allocation * memory_resource :=
  match allocate 8 (rdma_memory_ ex_pool) 9 1 with
  | Done x => x | Fault _ => (mkAlloc 0 None, rdma_memory_ ex_pool) end.
Definition ex_freed : memory_resource :=
  match deallocate 8 ex_alloc.2 9 (al_ptr ex_alloc.1) 8 with Done x => x | Fault _ => ex_alloc.2 end.

Lemma ex_can_issue :
  can_issue ex_pool 9 ex_ptr (mkConnInfo 5 77 11) 0 ex_alloc.1 ex_alloc.2 ex_freed.
Proof. split; [exists 0; split; vm_compute; reflexivity|vm_compute; reflexivity..]. Qed.

Lemma CompareAndSwap_spec_witness :
  ∃ p' n', CompareAndSwap (Nic0 := ex_card_nic) 1 ex_pool 9 ex_ptr 2 1 ex_card = Done (2, p', n') ∧
    (∀ c, cd_pending n' c = cd_pending ex_card c) ∧ rdma_memory_ p' = ex_freed ∧
    reordering_counters p' = <[Z.to_nat 0 := 0]> (reordering_counters ex_pool) ∧
    same_memory (cd_byte n')
      (put_at (put_at (cd_byte ex_card) 1 640 (le_bytes 8 1)) 2 (al_ptr ex_alloc.1) (le_bytes 8 2)).
Proof.
  exact (CompareAndSwap_spec cd_byte 2 ex_node cd_pending 1 ex_pool 9 ex_ptr 2 1 ex_card _ _ _ _ _
    ex_can_issue eq_refl (le_n 1)).
Defined.

Lemma AtomicSwap_spec_witness :
  ∃ p' n', AtomicSwap (Nic0 := ex_card_nic) 2 1 ex_pool 9 ex_ptr 33 0 ex_card = Done (2, p', n') ∧
    (∀ c, cd_pending n' c = cd_pending ex_card c) ∧ rdma_memory_ p' = ex_freed ∧
    reordering_counters p' = <[Z.to_nat 0 := 0]> (reordering_counters ex_pool) ∧
    off_block 2 (al_ptr ex_alloc.1) 8 (cd_byte n') (put_at (cd_byte ex_card) 1 640 (le_bytes 8 33)).
Proof.
  apply (AtomicSwap_spec cd_byte 2 ex_node cd_pending 2 1 ex_pool 9 ex_ptr 33 0 ex_card _ _ _ _ _
    ex_can_issue eq_refl (le_n 1) (le_n 2)). by left.
Defined.

(** ** [Init] *)
Section init_spec.
Context {C : Type} `{!CmOps C}.

Lemma recv_regions_spec peers lkey infos (c : C) s infos' c' :
  recv_regions peers lkey infos c = Done (s, infos', c') →
  infos ⊆ infos' ∧
  (∀ i x, infos' !! i = Some x → infos !! i = Some x ∨
     ci_lkey x = lkey ∧ ∃ p, p ∈ peers ∧ u16 (peer_id p) = i) ∧
  (st_t s = Ok → ∀ p, p ∈ peers → is_Some (infos' !! u16 (peer_id p))).
Proof.
  revert infos c. induction peers as [|p ps IH]; intros infos c; cbn.
  { intros [= <- <- <-]. split_and!; [done|by auto|]. by intros _ p ?%elem_of_nil. }
  destruct (cm_GetConnection c (peer_id p)) as [conn c1]. intros Hr.
  apply bind_done_inv in Hr as (u & _ & Hr). apply bind_done_inv in Hr as (h & _ & Hr).
  destruct (cm_Deliver c1 h) as [got c2]. unfold RETURN_STATUS_ON_ERROR in Hr.
  destruct (is_ok (sv_status got)) eqn:Hok.
  - apply bind_done_inv in Hr as (r & _ & Hr). apply IH in Hr as (Hsub & Hinv & Hall).
    assert (infos ⊆ emplace infos (u16 (peer_id p)) (mkConnInfo h r.1 lkey)) as Hemp.
    { unfold emplace. case_match; [done|]. by apply insert_subseteq. }
    assert (is_Some (infos' !! u16 (peer_id p))) as [x Hx].
    { destruct (emplace infos (u16 (peer_id p)) (mkConnInfo h r.1 lkey) !! u16 (peer_id p)) as [x|] eqn:E.
      - exists x. by eapply lookup_weaken.
      - unfold emplace in E. case_match; [congruence|]. by rewrite lookup_insert_eq in E. }
    split_and!; [by etrans| |].
    + intros i y Hy. destruct (Hinv _ _ Hy) as [He|(Hk & p' & Hp' & Hi)].
      * unfold emplace in He. case_match; [by left|]. apply lookup_insert_Some in He as [[<- <-]|[_ He]].
        -- right. split; [done|]. exists p. split; [apply list_elem_of_here|done].
        -- by left.
      * right. split; [done|]. exists p'. split; [by apply list_elem_of_further|done].
    + intros Hs p' [->|Hp']%elem_of_cons; [by exists x|]. by apply Hall.
  - apply bind_done_inv in Hr as (msg & _ & Hr). injection Hr as <- <- <-.
    split_and!; [done|by auto|]. intros Hs. unfold is_ok in Hok. by rewrite bool_decide_eq_false in Hok.
Qed.

(** [Init] only adds connection entries, each of a peer of the list and with the
    local key of the new region; when it reports [Ok] every peer of the list has one. *)
Theorem Init_spec new_resource fuel p capacity peers (c : C) s p' c' :
  Init new_resource fuel p capacity peers c = Done (s, p', c') →
  conn_info_ p ⊆ conn_info_ p' ∧
  thread_ids p' = thread_ids p ∧ reordering_counters p' = reordering_counters p ∧
  (∀ i x, conn_info_ p' !! i = Some x → conn_info_ p !! i = Some x ∨
     ci_lkey x = mr_lkey (mr_ p') ∧ ∃ q, q ∈ peers ∧ u16 (peer_id q) = i) ∧
  (st_t s = Ok →
     (rdma_memory_ p', mr_ p') = new_resource (capacity + 8) ∧
     ∀ q, q ∈ peers → ∃ x, conn_info p' (u16 (peer_id q)) = Done x).
Proof.
  unfold Init. destruct (cm_Start c _ _) as [st c0]. unfold RETURN_STATUS_ON_ERROR.
  assert (∀ b, is_ok b = false → st_t b ≠ Ok) as Hbad.
  { intros b. unfold is_ok. apply bool_decide_eq_false. }
  destruct (is_ok st) eqn:Hst.
  2:{ intros Hr. apply bind_done_inv in Hr as (? & _ & [= <- <- <-]).
      split_and!; [done..|by auto|]. intros Hok. by apply Hbad in Hst. }
  destruct (new_resource (capacity + 8)) as [m mr]. intros Hr.
  apply bind_done_inv in Hr as ([s1 c1] & _ & Hr). destruct (is_ok s1) eqn:H1; cbn in Hr.
  2:{ injection Hr as <- <- <-. cbn. split_and!; [done..|by auto|]. intros Hok. by apply Hbad in H1. }
  apply bind_done_inv in Hr as ([s2 c2] & _ & Hr). destruct (is_ok s2) eqn:H2; cbn in Hr.
  2:{ injection Hr as <- <- <-. cbn. split_and!; [done..|by auto|]. intros Hok. by apply Hbad in H2. }
  apply bind_done_inv in Hr as ([[s3 infos] c3] & Hrecv & Hr). injection Hr as <- <- <-.
  apply recv_regions_spec in Hrecv as (Hsub & Hinv & Hall). cbn in *.
  split_and!; [done..|]. intros Hok. split; [done|]. intros q Hq.
  destruct (Hall Hok q Hq) as [x Hx]. exists x. unfold conn_info. cbn. by rewrite Hx.
Qed.
End init_spec.

(** A manager that connects at the second attempt. *)
#[export] Instance ex_cm : CmOps nat := {
  cm_Start c _ _ := (StatusOk, c);
  cm_Connect c _ _ _ := (if Nat.even c then mkStatusVal (mkStatus Unavailable (Some "busy")) None
                         else mkStatusVal StatusOk (Some 5), S c);
  cm_GetConnection c i := (mkStatusVal StatusOk (Some (i + 100)), c);
  cm_Send c _ _ := (StatusOk, c);
  cm_Deliver c h := (mkStatusVal StatusOk (Some (h, 0)), c) }.

Definition ex_init : result (Status * MemoryPool * nat) :=
  Init (λ b, (mkResource 4096 (4096 + b) ∅, mkMr 0 4096 65536 11 12)) 2 ex_pool 1024
    [mkPeer 3 "node3" 1; mkPeer 4 "node4" 2] 0%nat.
Definition ex_init_pool : MemoryPool :=
  match ex_init with Done (_, p, _) => p | Fault _ => ex_pool end.

Lemma Init_spec_witness :
  conn_info_ ex_pool ⊆ conn_info_ ex_init_pool ∧
  thread_ids ex_init_pool = thread_ids ex_pool ∧
  reordering_counters ex_init_pool = reordering_counters ex_pool ∧
  (∀ i x, conn_info_ ex_init_pool !! i = Some x → conn_info_ ex_pool !! i = Some x ∨
     ci_lkey x = mr_lkey (mr_ ex_init_pool) ∧
     ∃ q, q ∈ [mkPeer 3 "node3" 1; mkPeer 4 "node4" 2] ∧ u16 (peer_id q) = i) ∧
  (st_t StatusOk = Ok →
     (rdma_memory_ ex_init_pool, mr_ ex_init_pool) = (mkResource 4096 (4096 + (1024 + 8)) ∅, mkMr 0 4096 65536 11 12) ∧
     ∀ q, q ∈ [mkPeer 3 "node3" 1; mkPeer 4 "node4" 2] → ∃ x, conn_info ex_init_pool (u16 (peer_id q)) = Done x).
Proof.
  refine (Init_spec (λ b, (mkResource 4096 (4096 + b) ∅, mkMr 0 4096 65536 11 12)) 2 ex_pool 1024
    [mkPeer 3 "node3" 1; mkPeer 4 "node4" 2] 0%nat StatusOk ex_init_pool 4%nat _).
  vm_compute. reflexivity.
Defined.
