(* ===== verification/Messenger.v ===== *)
(** * [TwoSidedRdmaMessenger] and [RdmaChannel] (rdma/connection_manager.h)

    Two-sided messages: a send buffer filled from front to back, and a receive buffer
    of eight slots posted to the card in order and reposted together once all are
    consumed. The answers of the verbs library are arguments of the operations. *)
From S2P Require Import Prelude Status Memory.

Definition kCapacity : Z := Z.shiftl 1 12.
Definition kRecvMaxBytes : Z := Z.shiftl 1 8.
Definition kSendId : string := "send".
Definition kRecvId : string := "recv".

Abbreviation bytes := (list Z).

Record TwoSidedRdmaMessenger := mkMessenger {
  rm_ : RdmaMemory;
  send_lkey : Z; send_cap_ : Z; send_base_ : Z; send_next_ : Z; send_total_ : Z;
  recv_cap_ : Z; recv_base_ : Z; recv_next_ : Z; recv_total_ : Z }.

(** [PrepareRecvBuffer()]: the assertion, the posted slots, the new [recv_next_];
    [rdma_post_recv] answers 0 on success. *)
Fixpoint post_recvs (rdma_post_recv : Z → Z) (fuel : nat) (curr last : Z) : result (list Z) :=
  match fuel with
  | O => Fault FFuel
  | S f =>
      if curr <=? last then
        _ ← rome_assert (rdma_post_recv curr =? 0);
        rest ← post_recvs rdma_post_recv f (curr + kRecvMaxBytes) last;
        Done (curr :: rest)
      else Done []
  end.

Definition PrepareRecvBuffer (rdma_post_recv : Z → Z) (t : TwoSidedRdmaMessenger)
    : result (TwoSidedRdmaMessenger * list Z) :=
  _ ← rome_assert (recv_total_ t mod (recv_cap_ t / kRecvMaxBytes) =? 0);
  posted ← post_recvs rdma_post_recv (S (Z.to_nat (recv_cap_ t / kRecvMaxBytes)))
             (recv_base_ t) (recv_base_ t + (recv_cap_ t - kRecvMaxBytes));
  Done (mkMessenger (rm_ t) (send_lkey t) (send_cap_ t) (send_base_ t) (send_next_ t) (send_total_ t)
          (recv_cap_ t) (recv_base_ t) (recv_base_ t) (recv_total_ t), posted).

(** The constructor, over the driver functions of [RdmaMemory]. *)
Definition TwoSidedRdmaMessenger_new (ibv_reg_mr : Z → Z → Z → option ibv_mr)
    (file : string → option (option Z)) (aligned_alloc mmap : Z → option Z)
    (rdma_post_recv : Z → Z) (pd : Z) : result (TwoSidedRdmaMessenger * list Z) :=
  let cap := kCapacity / 2 in
  rm ← RdmaMemory_new ibv_reg_mr file aligned_alloc mmap kCapacity None pd;
  '(s1, rm) ← RegisterMemoryRegion_default ibv_reg_mr rm kSendId 0 cap;
  _ ← OK_OR_FAIL s1;
  '(s2, rm) ← RegisterMemoryRegion_default ibv_reg_mr rm kRecvId cap cap;
  _ ← OK_OR_FAIL s2;
  let t1 := GetMemoryRegion rm kSendId in
  _ ← STATUSVAL_OR_DIE t1;
  send_mr ← or_throw (sv_val t1);
  let t2 := GetMemoryRegion rm kRecvId in
  _ ← STATUSVAL_OR_DIE t2;
  recv_mr ← or_throw (sv_val t2);
  PrepareRecvBuffer rdma_post_recv
    (mkMessenger rm (mr_lkey send_mr) cap (mr_addr send_mr) (mr_addr send_mr) 0
       cap (mr_addr recv_mr) (mr_addr recv_mr) 0).

(** ** Sending *)
(** [rdma_get_send_comp]: try again, another error, or a completion. *)
Inductive comp_result := CompAgain | CompError | Comp (success : bool).

(** The loop on [EAGAIN] over the answers of the library. *)
Fixpoint wait_send_comp (answers : list comp_result) : result comp_result :=
  match answers with
  | [] => Fault FFuel
  | CompAgain :: l => wait_send_comp l
  | c :: _ => Done c
  end.

Definition set_send (t : TwoSidedRdmaMessenger) (next total : Z) : TwoSidedRdmaMessenger :=
  mkMessenger (rm_ t) (send_lkey t) (send_cap_ t) (send_base_ t) next total
    (recv_cap_ t) (recv_base_ t) (recv_next_ t) (recv_total_ t).

Definition str_nat (z : Z) : string := pretty.pretty z.

(** What was handed to the card: source address and bytes copied there. *)
Record send_effect := mkSend { se_addr : Z; se_bytes : bytes; se_wr_id : Z }.

(** [SendMessage(msg)] *)
Definition SendMessage (post_ret : Z) (answers : list comp_result)
    (t : TwoSidedRdmaMessenger) (msg : bytes)
    : result (Status * TwoSidedRdmaMessenger * option send_effect) :=
  let len := Z.of_nat (length msg) in
  if kRecvMaxBytes <=? len then
    Done (status_append (status_append (status_append (status_append
            (mkStatus ResourceExhausted (Some "")) "Message too large: expected<=")
            (str_nat kRecvMaxBytes)) ", actual=") (str_nat len), t, None)
  else
    let next := if send_base_ t + send_cap_ t <? send_next_ t + len then send_base_ t else send_next_ t in
    let t1 := set_send t next (u32 (send_total_ t + 1)) in
    let eff := mkSend next msg (send_total_ t) in
    if negb (post_ret =? 0) then
      Done (status_append (mkStatus InternalError (Some "")) "ibv_post_send(): ", t1, Some eff)
    else
      c ← wait_send_comp answers;
      match c with
      | Comp true => Done (StatusOk, set_send t1 (next + len) (send_total_ t1), Some eff)
      | Comp false => Done (status_append (mkStatus InternalError None) "rdma_get_send_comp(): ", t1, Some eff)
      | _ => Done (status_append (mkStatus InternalError None) "rdma_get_send_comp: {}", t1, Some eff)
      end.

(** ** Receiving *)
Inductive wc_status := IBV_WC_SUCCESS | IBV_WC_WR_FLUSH_ERR | IBV_WC_OTHER_ERR.

(** The answers of the two polling calls; [RecvNone] is [ibv_poll_cq] returning 0,
    which leaves [wc] unset. *)
Inductive recv_result := RecvError | RecvAgain | RecvNone | Recv (s : wc_status) (byte_len : Z).

(** The common part: the [switch] on [wc.status], reading the slot at [recv_next_]. *)
Definition on_recv (rdma_post_recv : Z → Z) (slot : Z → bytes) (t : TwoSidedRdmaMessenger)
    (s : wc_status) (byte_len : Z)
    : result (StatusVal bytes * TwoSidedRdmaMessenger * list Z) :=
  match s with
  | IBV_WC_WR_FLUSH_ERR => Done (mkStatusVal (mkStatus Aborted (Some "QP in error state")) None, t, [])
  | IBV_WC_OTHER_ERR =>
      Done (mkStatusVal (status_append (mkStatus InternalError None) "rdma_get_recv_comp(): ") None, t, [])
  | IBV_WC_SUCCESS =>
      let res := mkStatusVal StatusOk (Some (take (Z.to_nat byte_len) (slot (recv_next_ t)))) in
      let t := mkMessenger (rm_ t) (send_lkey t) (send_cap_ t) (send_base_ t) (send_next_ t) (send_total_ t)
                 (recv_cap_ t) (recv_base_ t) (recv_next_ t + kRecvMaxBytes) (u32 (recv_total_ t + 1)) in
      if recv_base_ t + (recv_cap_ t - kRecvMaxBytes) <? recv_next_ t then
        '(t, posted) ← PrepareRecvBuffer rdma_post_recv t; Done (res, t, posted)
      else Done (res, t, [])
  end.

Definition TryDeliverMessage (rdma_post_recv : Z → Z) (slot : Z → bytes) (ret : recv_result)
    (t : TwoSidedRdmaMessenger) : result (StatusVal bytes * TwoSidedRdmaMessenger * list Z) :=
  match ret with
  | RecvError => Done (mkStatusVal (status_append (mkStatus InternalError None) "rdma_get_recv_comp: ") None, t, [])
  | RecvAgain => Done (mkStatusVal (mkStatus Unavailable (Some "Retry")) None, t, [])
  | RecvNone => Fault FUndef
  | Recv s len => on_recv rdma_post_recv slot t s len
  end.

(** [TryPollMessage()] takes the branch of a completion also when [ibv_poll_cq]
    returned 0, and then switches on an uninitialised [wc]. *)
Definition TryPollMessage (rdma_post_recv : Z → Z) (slot : Z → bytes) (ret : recv_result)
    (t : TwoSidedRdmaMessenger) : result (StatusVal bytes * TwoSidedRdmaMessenger * list Z) :=
  match ret with
  | RecvError => Done (mkStatusVal (status_append (mkStatus InternalError None) "rdma_get_recv_comp: ") None, t, [])
  | RecvAgain => Done (mkStatusVal (mkStatus Unavailable (Some "Retry")) None, t, [])
  | RecvNone => Fault FUndef
  | Recv s len => on_recv rdma_post_recv slot t s len
  end.

(** ** The channel: protocol buffers over messages *)
Section channel.
Context {P : Type} (SerializeToArray : P → bytes) (ParseFromArray : bytes → P).

Definition Send (post_ret : Z) (answers : list comp_result) (t : TwoSidedRdmaMessenger) (proto : P)
    : result (Status * TwoSidedRdmaMessenger * option send_effect) :=
  SendMessage post_ret answers t (SerializeToArray proto).

Definition TryDeliver (rdma_post_recv : Z → Z) (slot : Z → bytes) (ret : recv_result)
    (t : TwoSidedRdmaMessenger) : result (StatusVal P * TwoSidedRdmaMessenger * list Z) :=
  '(m, t, posted) ← TryDeliverMessage rdma_post_recv slot ret t;
  if bool_decide (st_t (sv_status m) = Ok) then
    b ← or_throw (sv_val m); Done (mkStatusVal StatusOk (Some (ParseFromArray b)), t, posted)
  else Done (mkStatusVal (sv_status m) None, t, posted).

(** [Deliver()]: retry while the status is [Unavailable]. *)
Fixpoint Deliver (rdma_post_recv : Z → Z) (slot : Z → bytes) (rets : list recv_result)
    (t : TwoSidedRdmaMessenger) : result (StatusVal P * TwoSidedRdmaMessenger * list Z) :=
  match rets with
  | [] => Fault FFuel
  | ret :: l =>
      '(p, t', posted) ← TryDeliver rdma_post_recv slot ret t;
      if bool_decide (st_t (sv_status p) = Unavailable) then Deliver rdma_post_recv slot l t'
      else Done (p, t', posted)
  end.

Definition TryReceive (rdma_post_recv : Z → Z) (slot : Z → bytes) (ret : recv_result)
    (t : TwoSidedRdmaMessenger) : result (option P * TwoSidedRdmaMessenger * list Z) :=
  '(m, t, posted) ← TryPollMessage rdma_post_recv slot ret t;
  if bool_decide (st_t (sv_status m) = Ok) then
    b ← or_throw (sv_val m); Done (Some (ParseFromArray b), t, posted)
  else Done (None, t, posted).
End channel.

(** ** The send buffer *)
Definition send_ok (t : TwoSidedRdmaMessenger) : Prop :=
  kRecvMaxBytes ≤ send_cap_ t ∧ send_base_ t ≤ send_next_ t ≤ send_base_ t + send_cap_ t.

(** [SendMessage] refuses messages of 256 bytes or more without any effect; it posts
    a shorter one from inside the send buffer and reports [Ok] exactly when the post and
    its completion succeed; it never touches the receive side, and waits for ever only
    if the completion never arrives. *)
Theorem SendMessage_spec post_ret answers t msg :
  send_ok t →
  match SendMessage post_ret answers t msg with
  | Done (s, t', eff) =>
      send_ok t' ∧
      (recv_base_ t', recv_next_ t', recv_total_ t') = (recv_base_ t, recv_next_ t, recv_total_ t) ∧
      (if decide (length msg < 256)%nat then
         ∃ e, eff = Some e ∧ se_bytes e = msg ∧ send_base_ t ≤ se_addr e ∧
           se_addr e + Z.of_nat (length msg) ≤ send_base_ t + send_cap_ t ∧
           (st_t s = Ok ↔ post_ret = 0 ∧ wait_send_comp answers = Done (Comp true))
       else eff = None ∧ t' = t ∧ st_t s = ResourceExhausted)
  | Fault f => f = FFuel ∧ Forall (eq CompAgain) answers
  end.
Proof.
  unfold send_ok, SendMessage, kRecvMaxBytes. change (Z.shiftl 1 8) with 256. intros [Hcap Hn].
  destruct (Z.leb_spec 256 (Z.of_nat (length msg))) as [Hbig|Hsmall].
  { rewrite decide_False by lia. done. }
  destruct (decide (length msg < 256)%nat) as [_|]; [|lia].
  set (next := if _ <? _ then _ else _). assert (send_base_ t ≤ next ∧
    next + Z.of_nat (length msg) ≤ send_base_ t + send_cap_ t) as [Hlo Hhi].
  { unfold next. destruct (Z.ltb_spec (send_base_ t + send_cap_ t) (send_next_ t + Z.of_nat (length msg))); lia. }
  destruct (Z.eqb_spec post_ret 0) as [->|Hp]; cbn [negb].
  2:{ split_and!; cbn; try lia; [done|]. eexists. split_and!; [done..|]. split; [done|by intros [? _]]. }
  destruct (wait_send_comp answers) as [c|f] eqn:E; cbn.
  2:{ revert E. clear. induction answers as [|[] l IH]; cbn; [by intros [= <-]| |done..].
      intros [-> ?]%IH. by auto. }
  destruct c as [| |[]]; cbn; split_and!; try lia; try done;
    (eexists; split_and!; [done..|]; split; [done|]); by intros [_ [=]].
Qed.

Definition ex_messenger : TwoSidedRdmaMessenger :=
  mkMessenger (mkMemory 4096 8192 false ∅) 7 2048 8192 (8192 + 2000) 9 2048 10240 10240 0.

Lemma SendMessage_spec_witness :
  send_ok ex_messenger ∧
  match SendMessage 0 [CompAgain; Comp true] ex_messenger (replicate 100 1) with
  | Done (s, t', eff) =>
      send_ok t' ∧
      (recv_base_ t', recv_next_ t', recv_total_ t') =
        (recv_base_ ex_messenger, recv_next_ ex_messenger, recv_total_ ex_messenger) ∧
      (if decide (length (replicate 100 1) < 256)%nat then
         ∃ e, eff = Some e ∧ se_bytes e = replicate 100 1 ∧ send_base_ ex_messenger ≤ se_addr e ∧
           se_addr e + Z.of_nat (length (replicate 100 1)) ≤ send_base_ ex_messenger + send_cap_ ex_messenger ∧
           (st_t s = Ok ↔ 0 = 0 ∧ wait_send_comp [CompAgain; Comp true] = Done (Comp true))
       else eff = None ∧ t' = ex_messenger ∧ st_t s = ResourceExhausted)
  | Fault f => f = FFuel ∧ Forall (eq CompAgain) [CompAgain; Comp true]
  end.
Proof.
  assert (send_ok ex_messenger) as Hok by (vm_compute; repeat split; congruence).
  split; [exact Hok|]. exact (SendMessage_spec 0 [CompAgain; Comp true] ex_messenger (replicate 100 1) Hok).
Defined.

(** ** The receive side as a queue *)
(** The messenger, the slots the card may fill, the completions nobody has polled
    (slot and length), and the contents of the slots. *)
Record receiver := mkRx {
  rx_t : TwoSidedRdmaMessenger; rx_posted : list Z; rx_filled : list (Z * Z); rx_slot : Z → bytes }.

Inductive rx_event := Arrive (msg : bytes) | DeliverNow.

(** A message arrives in the oldest posted slot, if there is one (otherwise the sender
    is told to retry); [TryDeliverMessage] takes the oldest completion, if any. *)
Definition rx_step (e : rx_event) (s : receiver) : result (receiver * option bytes) :=
  match e with
  | Arrive msg =>
      match rx_posted s with
      | [] => Done (s, None)
      | b :: rest =>
          Done (mkRx (rx_t s) rest (rx_filled s ++ [(b, Z.of_nat (length msg))])
                  (λ a, if a =? b then msg ++ drop (length msg) (rx_slot s b) else rx_slot s a), None)
      end
  | DeliverNow =>
      let ret := match rx_filled s with [] => RecvAgain | (_, len) :: _ => Recv IBV_WC_SUCCESS len end in
      '(m, t, posted) ← TryDeliverMessage (λ _, 0) (rx_slot s) ret (rx_t s);
      Done (mkRx t (rx_posted s ++ posted) (tail (rx_filled s)) (rx_slot s), sv_val m)
  end.

Fixpoint rx_run (es : list rx_event) (s : receiver) : result (list (option bytes)) :=
  match es with
  | [] => Done []
  | e :: es' => '(s', o) ← rx_step e s; os ← rx_run es' s'; Done (o :: os)
  end.

(** The abstract queue: [k] slots of the current round are consumed. *)
Definition q_step (e : rx_event) (kq : nat * list bytes) : nat * list bytes * option bytes :=
  let '(k, q) := kq in
  match e with
  | Arrive msg => (if decide (k + length q < 8)%nat then (k, q ++ [msg]) else (k, q), None)
  | DeliverNow =>
      match q with
      | [] => ((k, q), None)
      | m :: q' => ((if decide (S k = 8)%nat then 0%nat else S k, q'), Some m)
      end
  end.

Fixpoint q_run (es : list rx_event) (kq : nat * list bytes) : list (option bytes) :=
  match es with
  | [] => []
  | e :: es' => let '(kq', o) := q_step e kq in o :: q_run es' kq'
  end.

Definition slot_addr (t : TwoSidedRdmaMessenger) (j : nat) : Z := recv_base_ t + 256 * Z.of_nat j.

Record rx_rel (s : receiver) (k : nat) (q : list bytes) : Prop := {
  rr_cap : recv_cap_ (rx_t s) = 2048;
  rr_fit : (k < 8)%nat ∧ (k + length q ≤ 8)%nat;
  rr_total : 0 ≤ recv_total_ (rx_t s) < 2 ^ 32 ∧ recv_total_ (rx_t s) mod 8 = Z.of_nat k;
  rr_next : recv_next_ (rx_t s) = slot_addr (rx_t s) k;
  rr_posted : rx_posted s = map (slot_addr (rx_t s)) (seq (k + length q) (8 - (k + length q)));
  rr_filled : rx_filled s =
    zip (map (slot_addr (rx_t s)) (seq k (length q))) (map (λ m, Z.of_nat (length m)) q);
  rr_slots j m : q !! j = Some m → take (length m) (rx_slot s (slot_addr (rx_t s) (k + j))) = m }.

Lemma slot_addr_inj t i j : slot_addr t i = slot_addr t j → i = j.
Proof. unfold slot_addr. lia. Qed.

Lemma post_recvs_all n curr last fuel :
  (n < fuel)%nat → curr + 256 * Z.of_nat n = last + 256 →
  post_recvs (λ _, 0) fuel curr last = Done (map (λ j, curr + 256 * Z.of_nat j) (seq 0 n)).
Proof.
  revert curr fuel. induction n as [|n IH]; intros curr fuel Hf Hl; destruct fuel as [|fuel]; [lia| |lia|]; cbn.
  - rewrite (proj2 (Z.leb_gt _ _)) by lia. done.
  - rewrite (proj2 (Z.leb_le _ _)) by lia. unfold kRecvMaxBytes. change (Z.shiftl 1 8) with 256.
    rewrite (IH (curr + 256) fuel) by lia. cbn. do 2 f_equal; [lia|].
    rewrite <- seq_shift, map_map. apply map_ext. intros j. lia.
Qed.

Lemma PrepareRecvBuffer_ok t :
  recv_cap_ t = 2048 → recv_total_ t mod 8 = 0 →
  PrepareRecvBuffer (λ _, 0) t =
  Done (mkMessenger (rm_ t) (send_lkey t) (send_cap_ t) (send_base_ t) (send_next_ t) (send_total_ t)
          (recv_cap_ t) (recv_base_ t) (recv_base_ t) (recv_total_ t),
        map (slot_addr t) (seq 0 8)).
Proof.
  intros Hc Ht. unfold PrepareRecvBuffer, kRecvMaxBytes. change (Z.shiftl 1 8) with 256. rewrite Hc.
  change (2048 / 256) with 8. rewrite Ht. cbn [Z.eqb rome_assert]. rewrite bind_done.
  rewrite (post_recvs_all 8) by lia. done.
Qed.

Lemma rx_arrive_rel s k q msg :
  rx_rel s k q → (length msg < 256)%nat →
  ∃ s', rx_step (Arrive msg) s = Done (s', None) ∧
    rx_rel s' k (if decide (k + length q < 8)%nat then q ++ [msg] else q).
Proof.
  intros [Hc [Hk Hfit] Ht Hn Hp Hf Hs] Hlen. cbn. rewrite Hp. case_decide as Hd.
  - replace (8 - (k + length q))%nat with (S (7 - (k + length q)))%nat by lia. cbn [seq map].
    eexists. split; [done|]. split; cbn; try done.
    + rewrite length_app. cbn. lia.
    + rewrite length_app. cbn. f_equal. f_equal; lia.
    + rewrite Hf, length_app, map_app. cbn [map length].
      replace (length q + 1)%nat with (S (length q)) by lia. rewrite seq_S, map_app.
      rewrite zip_with_app by by rewrite !length_map, length_seq. done.
    + intros j m Hj. destruct (decide (j = length q)) as [->|Hne].
      * rewrite lookup_app_r, Nat.sub_diag in Hj by lia. injection Hj as <-.
        rewrite Z.eqb_refl. by rewrite take_app_length.
      * apply lookup_app_Some in Hj as [Hj|[Hge Hj]].
        2:{ apply lookup_lt_Some in Hj. cbn in Hj. lia. }
        apply lookup_lt_Some in Hj as Hlt. rewrite (proj2 (Z.eqb_neq _ _)); [by apply Hs|].
        intros E%slot_addr_inj. lia.
  - replace (8 - (k + length q))%nat with 0%nat by lia. cbn [seq map].
    eexists. split; [done|]. by split.
Qed.

Lemma rx_deliver_rel s k m q :
  rx_rel s k (m :: q) →
  ∃ s', rx_step DeliverNow s = Done (s', Some m) ∧ rx_rel s' (if decide (S k = 8)%nat then 0 else S k) q.
Proof.
  intros [Hc [Hk Hfit] [Ht Hm] Hn Hp Hf Hs]. cbn [length] in *.
  assert (u32 (recv_total_ (rx_t s) + 1) mod 8 = (recv_total_ (rx_t s) + 1) mod 8) as Hu.
  { unfold u32. apply Z.mod_mod_divide. exists (2 ^ 29). lia. }
  pose proof (Hs 0%nat m eq_refl) as Hm0. rewrite Nat.add_0_r in Hm0.
  unfold rx_step. rewrite Hf. cbn [seq map zip zip_with length]. unfold TryDeliverMessage, on_recv, kRecvMaxBytes.
  change (Z.shiftl 1 8) with 256. rewrite Nat2Z.id, Hn, Hm0. cbn [recv_base_ recv_cap_ recv_next_].
  rewrite Hc. case_decide as H8.
  - rewrite (proj2 (Z.ltb_lt _ _)) by (unfold slot_addr; lia).
    rewrite PrepareRecvBuffer_ok; [|done|cbn; rewrite Hu, Z.add_mod, Hm by lia; replace k with 7%nat by lia; done].
    rewrite !bind_done. eexists. split; [done|]. assert (q = []) as -> by (destruct q; [done|cbn in *; lia]).
    split; cbn; try done; [lia|..].
    + split; [apply (wrap_is_u 32); lia|]. rewrite Hu, Z.add_mod, Hm by lia. by replace k with 7%nat by lia.
    + unfold slot_addr. cbn. lia.
    + rewrite Hp. cbn [length]. replace (8 - (k + 1))%nat with 0%nat by lia. reflexivity.
  - rewrite (proj2 (Z.ltb_ge _ _)) by (unfold slot_addr; lia). rewrite bind_done. eexists. split; [done|].
    split; cbn; try done; [lia|..].
    + split; [apply (wrap_is_u 32); lia|]. rewrite Hu, Z.add_mod, Hm by lia.
      change (1 mod 8) with 1. rewrite Z.mod_small; lia.
    + unfold slot_addr. cbn. lia.
    + rewrite app_nil_r, Hp. f_equal. f_equal; lia.
    + intros j m' Hj. replace (S (k + j)) with (k + S j)%nat by lia. by apply (Hs (S j)).
Qed.

Lemma rx_idle_rel s k : rx_rel s k [] → rx_step DeliverNow s = Done (s, None).
Proof.
  intros [Hc _ _ _ Hp Hf _]. unfold rx_step. rewrite Hf. cbn. rewrite app_nil_r. destruct s. cbn in *. by subst.
Qed.

Definition small_event (e : rx_event) : Prop :=
  match e with Arrive msg => (length msg < 256)%nat | DeliverNow => True end.

Lemma rx_run_rel es s k q :
  rx_rel s k q → Forall small_event es → rx_run es s = Done (q_run es (k, q)).
Proof.
  revert s k q. induction es as [|e es IH]; intros s k q Hr Hall; [done|].
  apply Forall_cons in Hall as [He Hall]. destruct e as [msg|]; cbn [rx_run q_run q_step].
  - destruct (rx_arrive_rel s k q msg Hr He) as (s' & E & Hr'). rewrite E, bind_done.
    rewrite (IH _ _ _ Hr' Hall), bind_done. by case_decide.
  - destruct q as [|m q].
    + rewrite (rx_idle_rel _ _ Hr), bind_done, (IH _ _ _ Hr Hall). done.
    + destruct (rx_deliver_rel _ _ _ _ Hr) as (s' & E & Hr'). rewrite E, bind_done.
      rewrite (IH _ _ _ Hr' Hall), bind_done. by case_decide.
Qed.

Lemma register_fresh reg m rid pd off len mr :
  ValidateRegion m off len = Done true → memory_regions_ m !! rid = None →
  reg pd (rm_raw m + off) len = Some mr →
  RegisterMemoryRegion reg m rid pd off len =
  Done (StatusOk, mkMemory (capacity_ m) (rm_raw m) (rm_huge m) (<[rid := mr]> (memory_regions_ m))).
Proof.
  intros Hv Hn Hr. unfold RegisterMemoryRegion. rewrite Hv, bind_done. cbn [negb]. by rewrite Hn, Hr.
Qed.

(** The messenger a connection starts with, on a device that registers what it is given. *)
Lemma TwoSidedRdmaMessenger_new_ok reg file alloc mmap pd raw lk rk :
  (∀ pd a len, reg pd a len = Some (mkMr pd a len (lk a) (rk a))) → alloc 4160 = Some raw →
  ∃ rm lkey, TwoSidedRdmaMessenger_new reg file alloc mmap (λ _, 0) pd =
    Done (mkMessenger rm lkey 2048 raw raw 0 2048 (raw + 2048) (raw + 2048) 0,
          map (λ j, raw + 2048 + 256 * Z.of_nat j) (seq 0 8)).
Proof.
  intros Hreg Halloc. unfold TwoSidedRdmaMessenger_new, RdmaMemory_new.
  change (u64 (Z.shiftl (u64 (Z.shiftr kCapacity 6 + 1)) 6)) with 4160. rewrite Halloc, bind_done.
  erewrite (register_fresh reg (mkMemory kCapacity raw false ∅)); [|reflexivity|done|apply Hreg].
  rewrite bind_done. change (OK_OR_FAIL StatusOk) with (Done tt). rewrite !bind_done.
  unfold RegisterMemoryRegion_default, GetDefaultMemoryRegion. cbn [memory_regions_].
  rewrite lookup_insert_eq, defined_Some, bind_done.
  erewrite register_fresh; [|reflexivity|reflexivity|apply Hreg]. rewrite bind_done.
  change (OK_OR_FAIL StatusOk) with (Done tt). rewrite !bind_done. cbn [memory_regions_].
  rewrite lookup_insert_ne, lookup_insert_eq by done. rewrite defined_Some, bind_done.
  erewrite register_fresh; [|reflexivity|reflexivity|apply Hreg]. rewrite bind_done.
  change (OK_OR_FAIL StatusOk) with (Done tt). rewrite !bind_done. unfold GetMemoryRegion. cbn [memory_regions_ mr_pd].
  rewrite (lookup_insert_ne _ kRecvId kSendId) by done. rewrite !lookup_insert_eq.
  unfold STATUSVAL_OR_DIE. cbn [sv_status sv_val or_throw].
  change (OK_OR_FAIL StatusOk) with (Done tt). rewrite !bind_done.
  change (kCapacity / 2) with 2048. cbn [mr_addr mr_lkey rm_raw]. rewrite Z.add_0_r.
  rewrite PrepareRecvBuffer_ok by done. eexists _, _. done.
Qed.

(** C13: the receive ring behaves as a queue. From the constructor on, for any sequence
    of arrivals and delivery attempts, the deliveries return the accepted messages in
    arrival order, byte for byte; eight slots are posted per round and an arrival that
    finds none is left to the sender to repeat. The send and receive buffers do not
    overlap. *)
Theorem messenger_fifo reg file alloc mmap pd raw lk rk slot es :
  (∀ pd a len, reg pd a len = Some (mkMr pd a len (lk a) (rk a))) → alloc 4160 = Some raw →
  Forall small_event es →
  ∃ t posted, TwoSidedRdmaMessenger_new reg file alloc mmap (λ _, 0) pd = Done (t, posted) ∧
    send_ok t ∧ send_base_ t + send_cap_ t ≤ recv_base_ t ∧
    rx_run es (mkRx t posted [] slot) = Done (q_run es (0%nat, [])).
Proof.
  intros Hreg Halloc Hes.
  destruct (TwoSidedRdmaMessenger_new_ok reg file alloc mmap pd raw lk rk Hreg Halloc) as (rm & lkey & E).
  eexists _, _. split_and!; [exact E|unfold send_ok; change kRecvMaxBytes with 256; cbn; lia|cbn; lia|].
  apply rx_run_rel; [|done]. split; cbn; try done; try lia. unfold slot_addr. cbn. lia.
Qed.

Definition ex_events : list rx_event :=
  concat (map (λ i, [Arrive [i; i + 1]; DeliverNow]) [1; 2; 3; 4; 5; 6; 7; 8; 9; 10]) ++ [DeliverNow].

Lemma messenger_fifo_witness :
  ∃ t posted, TwoSidedRdmaMessenger_new (λ pd a len, Some (mkMr pd a len 7 8)) (λ _, None)
      (λ _, Some 65536) (λ _, None) (λ _, 0) 3 = Done (t, posted) ∧
    send_ok t ∧ send_base_ t + send_cap_ t ≤ recv_base_ t ∧
    rx_run ex_events (mkRx t posted [] (λ _, [])) = Done (q_run ex_events (0%nat, [])).
Proof.
  refine (messenger_fifo (λ pd a len, Some (mkMr pd a len 7 8)) (λ _, None) (λ _, Some 65536) (λ _, None)
    3 65536 (λ _, 7) (λ _, 8) (λ _, []) ex_events _ _ _); [reflexivity|reflexivity|].
  repeat constructor; vm_compute; lia.
Defined.
