(* ===== verification/ConnectionManager.v ===== *)
(** * [ConnectionManager] (rdma/connection_manager.h)

    Connections by peer, protected by a lock word that holds the id of the peer it is
    taken for ([-1] when free). The calls into the rdma_cm library answer through
    arguments of the operations. *)
From S2P Require Import Prelude Status.

Definition kUnlocked : Z := -1.
Definition kMinBackoffUs : Z := 100.
Definition kMaxBackoffUs : Z := 5000000.

(** A [Connection]: source, destination and the [rdma_cm_id] it owns. *)
Record Connection := mkConnection { src_id : Z; dst_id : Z; conn_id : Z }.

Record ConnectionManager := mkCM {
  accepting_ : bool;
  my_id_ : Z;
  broker_ : bool;                          (* non-null *)
  mu_ : Z;
  requested_ : gset Z;
  established_ : gmap Z Connection;
  backoff_us_ : Z;
  loopback_id_ : option Z }.

Definition ConnectionManager_new (my_id : Z) : ConnectionManager :=
  mkCM false my_id false kUnlocked ∅ ∅ 0 None.

Definition set_mu (c : ConnectionManager) (mu : Z) : ConnectionManager :=
  mkCM (accepting_ c) (my_id_ c) (broker_ c) mu (requested_ c) (established_ c) (backoff_us_ c) (loopback_id_ c).
Definition set_established (c : ConnectionManager) (e : gmap Z Connection) : ConnectionManager :=
  mkCM (accepting_ c) (my_id_ c) (broker_ c) (mu_ c) (requested_ c) e (backoff_us_ c) (loopback_id_ c).
Definition set_backoff (c : ConnectionManager) (b : Z) : ConnectionManager :=
  mkCM (accepting_ c) (my_id_ c) (broker_ c) (mu_ c) (requested_ c) (established_ c) b (loopback_id_ c).

(** One turn of [Acquire]'s loop: taken, given up, or try again. *)
Inductive attempt := Taken | GivenUp | Spin.
Definition try_acquire (my_id mu : Z) : attempt :=
  if mu =? kUnlocked then Taken else if u32 mu =? my_id then GivenUp else Spin.

(** [Acquire(int peer_id)] with nobody else running: spinning never ends. *)
Definition Acquire (c : ConnectionManager) (peer_id : Z) : result (bool * ConnectionManager) :=
  match try_acquire (my_id_ c) (mu_ c) with
  | Taken => Done (true, set_mu c (to_i32 peer_id))
  | GivenUp => Done (false, c)
  | Spin => Fault FFuel
  end.

Definition Release (c : ConnectionManager) : ConnectionManager := set_mu c kUnlocked.

(** [Start(addr, port)]; [created] is whether the broker could be created. *)
Definition Start (created : bool) (c : ConnectionManager) : Status * ConnectionManager :=
  if accepting_ c then (mkStatus InternalError (Some "Cannot start broker twice"), c) else
  let c := mkCM true (my_id_ c) created (mu_ c) (requested_ c) (established_ c) (backoff_us_ c) (loopback_id_ c) in
  if created then (mkStatus Ok None, c)
  else (mkStatus InternalError (Some "Failed to create broker"), c).

(** [GetConnection(peer_id)]: the loop on [Acquire], then the lookup. *)
Definition GetConnection (c : ConnectionManager) (peer_id : Z) : result (StatusVal Connection * ConnectionManager) :=
  '(got, c) ← Acquire c (my_id_ c);
  if negb (got : bool) then Fault FFuel else          (* spins: nobody else releases *)
  match established_ c !! peer_id with
  | Some conn => Done (mkStatusVal StatusOk (Some conn), Release c)
  | None => Done (mkStatusVal (status_append (mkStatus NotFound (Some "Connection not found: "))
                    (pretty.pretty peer_id)) None, Release c)
  end.

(** ** Connecting *)
Inductive cm_event := RDMA_CM_EVENT_ESTABLISHED | RDMA_CM_EVENT_ADDR_RESOLVED
  | RDMA_CM_EVENT_REJECTED | RDMA_CM_EVENT_OTHER.

(** The library's answers during [Connect]: return codes (0 is success), the new id,
    and the answers of [rdma_get_cm_event] once it no longer says [EAGAIN]: an event with the
    return code of its acknowledgement, or another error. *)
Record connect_env := mkEnv {
  ce_getaddrinfo : Z; ce_create_ep : Z; ce_id : Z;
  ce_fcntl_nonblock : Z; ce_migrate_id : Z; ce_connect : Z;
  ce_events : list (option (cm_event * Z));
  ce_fcntl_sync : Z; ce_fcntl_recv : Z; ce_fcntl_send : Z;
  ce_disconnect : Z; ce_ack_disconnect : Z;
  (* ConnectLoopback *)
  ce_qp_init : Z; ce_query_port : Z; ce_qp_rtr : Z; ce_qp_rts : Z }.

Definition cm_err (msg : string) : StatusVal Connection :=
  mkStatusVal (status_append (mkStatus InternalError (Some "")) msg) None.

(** [RDMA_CM_CHECK_TOVAL]: return the error as it stands, the lock included. *)
Definition CM_CHECK (ret : Z) (what : string) (c : ConnectionManager)
    (k : result (StatusVal Connection * ConnectionManager)) : result (StatusVal Connection * ConnectionManager) :=
  if negb (ret =? 0) then Done (cm_err what, c) else k.

(** [established_.emplace] followed by [ROME_ASSERT(iter.second)]. *)
Definition emplace_new (c : ConnectionManager) (peer_id : Z) (conn : Connection)
    : result ConnectionManager :=
  match established_ c !! peer_id with
  | Some _ => Fault FAbort
  | None => Done (set_established c (<[peer_id := conn]> (established_ c)))
  end.

(** [ConnectLoopback(id)]; it is called with the lock held. *)
Definition ConnectLoopback (env : connect_env) (c : ConnectionManager)
    : result (StatusVal Connection * ConnectionManager) :=
  CM_CHECK (ce_qp_init env) "ibv_modify_qp(): " c
  (CM_CHECK (ce_query_port env) "ibv_query_port(): " c
  (CM_CHECK (ce_qp_rtr env) "ibv_modify_qp(): " c
  (CM_CHECK (ce_qp_rts env) "ibv_modify_qp(): " c
  (CM_CHECK (ce_fcntl_recv env) "fcntl(): " c
  (CM_CHECK (ce_fcntl_send env) "fcntl(): " c
  (let conn := mkConnection (my_id_ c) (my_id_ c) (ce_id env) in
   c ← emplace_new c (my_id_ c) conn;
   Done (mkStatusVal StatusOk (Some conn), Release c))))))).

(** [backoff_us_] after a failed attempt, in [uint32_t] arithmetic. *)
Definition next_backoff (backoff my_id : Z) : Z :=
  if 0 <? backoff then Z.min (u32 (u32 (backoff + u32 (100 * my_id)) * 2)) kMaxBackoffUs
  else kMinBackoffUs.

(** The event loop of [Connect]. After an error of [rdma_get_cm_event] the pointer to the event
    is not set, and is followed. *)
Fixpoint connect_loop (env : connect_env) (events : list (option (cm_event * Z))) (peer_id : Z)
    (c : ConnectionManager) : result (StatusVal Connection * ConnectionManager) :=
  match events with
  | [] => Fault FFuel
  | None :: _ => Fault FUndef
  | Some (RDMA_CM_EVENT_ESTABLISHED, ack) :: _ =>
      CM_CHECK ack "rdma_ack_cm_event(): " c
      (match established_ c !! peer_id with
       | Some conn =>
           let c := Release c in
           CM_CHECK (ce_disconnect env) "rdma_disconnect(): " c
           (CM_CHECK (ce_ack_disconnect env) "rdma_ack_cm_event(): " c
           (Done (mkStatusVal StatusOk (Some conn), c)))
       | None =>
           CM_CHECK (ce_fcntl_sync env) "fcntl(): " c
           (CM_CHECK (ce_fcntl_recv env) "fcntl(): " c
           (CM_CHECK (ce_fcntl_send env) "fcntl(): " c
           (let conn := mkConnection (my_id_ c) peer_id (ce_id env) in
            c ← emplace_new c peer_id conn;
            Done (mkStatusVal StatusOk (Some conn), Release c))))
       end)
  | Some (RDMA_CM_EVENT_ADDR_RESOLVED, ack) :: l =>
      CM_CHECK ack "rdma_ack_cm_event(): " c (connect_loop env l peer_id c)
  | Some (ev, ack) :: _ =>
      CM_CHECK ack "rdma_ack_cm_event(): " c
      (let c := Release (set_backoff c (next_backoff (backoff_us_ c) (my_id_ c))) in
       match ev with
       | RDMA_CM_EVENT_REJECTED =>
           Done (mkStatusVal (mkStatus Unavailable (Some "Connection request rejected")) None, c)
       | _ => Done (mkStatusVal (mkStatus InternalError (Some "Got unexpected event: ")) None, c)
       end)
  end.

(** [Connect(peer_id, server, port)] *)
Definition Connect (env : connect_env) (peer_id : Z) (c : ConnectionManager)
    : result (StatusVal Connection * ConnectionManager) :=
  '(got, c) ← Acquire c (my_id_ c);
  if negb (got : bool) then
    Done (mkStatusVal (mkStatus Unavailable (Some "Lock acquisition failed")) None, c)
  else match established_ c !! peer_id with
  | Some conn => Done (mkStatusVal StatusOk (Some conn), Release c)
  | None =>
      _ ← rome_undef (broker_ c);                        (* broker_->address() *)
      if negb (ce_getaddrinfo env =? 0) then
        Done (mkStatusVal (mkStatus InternalError (Some "rdma_getaddrinfo(): ")) None, c)
      else if negb (ce_create_ep env =? 0) then
        Done (mkStatusVal (mkStatus InternalError (Some "rdma_create_ep(): ")) None, Release c)
      else if peer_id =? my_id_ c then ConnectLoopback env c
      else
        CM_CHECK (ce_fcntl_nonblock env) "fcntl(): " c
        (CM_CHECK (ce_migrate_id env) "rdma_migrate_id(): " c
        (CM_CHECK (ce_connect env) "rdma_connect(): " c
        (connect_loop env (ce_events env) peer_id c)))
  end.

(** ** Callbacks of the broker *)
(** What became of a connection request. *)
Inductive request_outcome := Ignored | Rejected | Accepted (c : Connection).

(** [OnConnectRequest(id, event)]: [qp_ret] and [accept_ret] are the return codes of
    [rdma_create_qp] and [rdma_accept]. *)
Definition OnConnectRequest (event_id peer_id qp_ret accept_ret : Z) (c : ConnectionManager)
    : result (request_outcome * ConnectionManager) :=
  if negb (accepting_ c) then Done (Ignored, c) else
  if negb (peer_id =? my_id_ c) then
    '(got, c) ← Acquire c peer_id;
    if negb (got : bool) then Done (Rejected, c) else
    if bool_decide (is_Some (established_ c !! peer_id)) || bool_decide (peer_id ∈ requested_ c) then
      Done (Rejected, Release c)
    else
      _ ← rome_assert (qp_ret =? 0);
      let conn := mkConnection (my_id_ c) peer_id event_id in
      c ← emplace_new c peer_id conn;
      _ ← rome_assert (accept_ret =? 0);
      Done (Accepted conn, Release c)
  else
    lid ← defined (loopback_id_ c);                      (* id = loopback_id_; id->context = ... *)
    let conn := mkConnection (my_id_ c) peer_id lid in
    c ← emplace_new c peer_id conn;
    _ ← rome_assert (accept_ret =? 0);
    Done (Accepted conn, c).

(** [OnDisconnect(id)]: the answer of [Acquire] is not looked at. *)
Definition OnDisconnect (event_id peer_id : Z) (c : ConnectionManager) : result ConnectionManager :=
  '(_, c) ← Acquire c peer_id;
  let c := match established_ c !! peer_id with
           | Some conn => if conn_id conn =? event_id
                          then set_established c (delete peer_id (established_ c)) else c
           | None => c
           end in
  Done (Release c).

(** [~ConnectionManager()]: the state of the lock and the ids it disconnects. *)
Definition ConnectionManager_destroy (c : ConnectionManager) : result (list Z * ConnectionManager) :=
  '(_, c) ← Acquire c (my_id_ c);
  let c := mkCM false (my_id_ c) (broker_ c) (mu_ c) (requested_ c) (established_ c) (backoff_us_ c) (loopback_id_ c) in
  Done (map (λ x, conn_id x.2) (filter (λ x, x.1 ≠ my_id_ c) (map_to_list (established_ c))), Release c).

(** ** The lock through [Connect] *)
Lemma id_i32 i : is_u 16 i → to_i32 i = i.
Proof. intros [? ?]. apply to_i32_small. unfold INT_MIN, INT_MAX. lia. Qed.

Lemma Acquire_free c i : mu_ c = kUnlocked → Acquire c i = Done (true, set_mu c (to_i32 i)).
Proof. intros H. unfold Acquire, try_acquire. by rewrite H, Z.eqb_refl. Qed.

Lemma Acquire_own c i : is_u 16 (my_id_ c) → mu_ c = my_id_ c → Acquire c i = Done (false, c).
Proof.
  intros Hid H. unfold Acquire, try_acquire. rewrite H. destruct Hid.
  destruct (Z.eqb_spec (my_id_ c) kUnlocked) as [E|_]; [unfold kUnlocked in E; lia|].
  unfold u32. rewrite (wrap_small 32) by (unfold is_u; lia). by rewrite Z.eqb_refl.
Qed.

(** What a return of [Connect] with the lock held may look like. *)
Definition connect_post (c : ConnectionManager) (peer_id : Z)
    (r : result (StatusVal Connection * ConnectionManager)) : Prop :=
  match r with
  | Done (sv, c') =>
      my_id_ c' = my_id_ c ∧ (mu_ c' = kUnlocked ∨ mu_ c' = my_id_ c ∧ st_t (sv_status sv) = InternalError) ∧
      match sv_val sv with
      | Some conn => st_t (sv_status sv) = Ok ∧ mu_ c' = kUnlocked ∧ established_ c' !! peer_id = Some conn ∧
          (∀ p, p ≠ peer_id → established_ c' !! p = established_ c !! p)
      | None => st_t (sv_status sv) ≠ Ok ∧ established_ c' = established_ c
      end
  | Fault f => f ≠ FThrow
  end.

Lemma connect_post_check c0 peer ret what c k :
  my_id_ c = my_id_ c0 → mu_ c = my_id_ c0 ∨ mu_ c = kUnlocked → established_ c = established_ c0 →
  connect_post c0 peer k → connect_post c0 peer (CM_CHECK ret what c k).
Proof.
  intros Hid Hmu He Hk. unfold CM_CHECK. case_match; [|done]. cbn.
  split; [done|]. split; [|done]. destruct Hmu; auto.
Qed.

Lemma connect_post_emplace c peer conn :
  established_ c !! peer = None →
  connect_post c peer (c' ← emplace_new c peer conn; Done (mkStatusVal StatusOk (Some conn), Release c')).
Proof.
  intros Hn. unfold emplace_new. rewrite Hn, bind_done. cbn. split_and!; [done|by left|done|done| |].
  - apply lookup_insert_eq.
  - intros p Hp. by rewrite lookup_insert_ne.
Qed.

Lemma connect_loop_post env events peer c :
  mu_ c = my_id_ c → established_ c !! peer = None → connect_post c peer (connect_loop env events peer c).
Proof.
  intros Hmu Hn. induction events as [|[[ev ack]|] l IH]; [done| |done]. destruct ev; cbn [connect_loop].
  - apply connect_post_check; auto. rewrite Hn.
    do 3 (apply connect_post_check; [done|by auto|done|]). by apply connect_post_emplace.
  - apply connect_post_check; auto.
  - apply connect_post_check; auto. cbn. split_and!; [done|by left|done|done].
  - apply connect_post_check; auto. cbn. split_and!; [done|by left|done|done].
Qed.

(** C25: every outcome of [Connect] from an unlocked manager: a connection is returned
    exactly with status [Ok], it is then the one established for the peer, other peers
    keep theirs and the lock is free; an error establishes nothing and leaves the lock
    either free or held with an internal error; no exception is thrown. *)
Theorem Connect_spec env peer_id c :
  is_u 16 (my_id_ c) → mu_ c = kUnlocked → connect_post c peer_id (Connect env peer_id c).
Proof.
  intros Hid Hmu. unfold Connect. rewrite (Acquire_free _ _ Hmu), bind_done, (id_i32 _ Hid). cbn [negb].
  set (c1 := set_mu c (my_id_ c)).
  assert (∀ r, connect_post c1 peer_id r → connect_post c peer_id r) as Hlift by done.
  apply Hlift. change (established_ c1) with (established_ c).
  destruct (established_ c !! peer_id) as [conn|] eqn:He.
  { cbn. split_and!; [done|by left|done|done|done|done]. }
  unfold rome_undef. destruct (broker_ c1); [rewrite bind_done|done].
  destruct (ce_getaddrinfo env =? 0); cbn [negb].
  2:{ cbn. split_and!; [done|by right|done|done]. }
  destruct (ce_create_ep env =? 0); cbn [negb].
  2:{ cbn. split_and!; [done|by left|done|done]. }
  destruct (Z.eqb_spec peer_id (my_id_ c1)) as [->|Hne].
  - unfold ConnectLoopback. do 6 (apply connect_post_check; [done|by left|done|]).
    by apply connect_post_emplace.
  - do 3 (apply connect_post_check; [done|by left|done|]). by apply connect_loop_post.
Qed.

Definition ex_cm0 : ConnectionManager := (Start true (ConnectionManager_new 2)).2.
Definition ex_env : connect_env :=
  mkEnv 0 0 77 0 0 0 [Some (RDMA_CM_EVENT_ADDR_RESOLVED, 0); Some (RDMA_CM_EVENT_ESTABLISHED, 0)] 0 0 0 0 0 0 0 0 0.

Lemma Connect_spec_witness :
  connect_post ex_cm0 5 (Connect ex_env 5 ex_cm0) ∧
  Connect ex_env 5 ex_cm0 =
    Done (mkStatusVal StatusOk (Some (mkConnection 2 5 77)),
          set_established ex_cm0 {[ 5 := mkConnection 2 5 77 ]}).
Proof.
  split; [|vm_compute; reflexivity].
  refine (Connect_spec ex_env 5 ex_cm0 _ _); [vm_compute; split; congruence|reflexivity].
Defined.

(** When address resolution fails [Connect] returns with the manager locked: then
    [GetConnection] spins for ever, every further [Connect] is refused and every foreign
    connection request is rejected. *)
Theorem Connect_failure_keeps_lock env peer_id c :
  is_u 16 (my_id_ c) → mu_ c = kUnlocked → broker_ c = true → accepting_ c = true →
  established_ c !! peer_id = None → ce_getaddrinfo env ≠ 0 →
  ∃ sv c', Connect env peer_id c = Done (sv, c') ∧ st_t (sv_status sv) = InternalError ∧
    (∀ p, GetConnection c' p = Fault FFuel) ∧
    (∀ env' p, ∃ sv', Connect env' p c' = Done (sv', c') ∧ st_t (sv_status sv') = Unavailable) ∧
    (∀ e p q a, p ≠ my_id_ c → OnConnectRequest e p q a c' = Done (Rejected, c')).
Proof.
  intros Hid Hmu Hb Hacc Hn Hgai. unfold Connect at 1.
  rewrite (Acquire_free _ _ Hmu), bind_done, (id_i32 _ Hid). cbn [negb].
  set (c1 := set_mu c (my_id_ c)). change (established_ c1) with (established_ c). rewrite Hn.
  change (broker_ c1) with (broker_ c). rewrite Hb. cbn [rome_undef]. rewrite bind_done.
  rewrite (proj2 (Z.eqb_neq _ _) Hgai). cbn [negb].
  assert (∀ i, Acquire c1 i = Done (false, c1)) as Hown by (intros i; by apply Acquire_own).
  eexists _, c1. split_and!; [done|done|..].
  - intros p. unfold GetConnection. by rewrite Hown.
  - intros env' p. unfold Connect. rewrite Hown. by eexists.
  - intros e p q a Hp. unfold OnConnectRequest. change (accepting_ c1) with (accepting_ c). rewrite Hacc.
    cbn [negb]. change (my_id_ c1) with (my_id_ c). rewrite (proj2 (Z.eqb_neq _ _) Hp). cbn [negb].
    by rewrite Hown.
Qed.

Definition ex_bad_env : connect_env := mkEnv (-2) 0 77 0 0 0 [] 0 0 0 0 0 0 0 0 0.

Lemma Connect_failure_keeps_lock_witness :
  ∃ sv c', Connect ex_bad_env 5 ex_cm0 = Done (sv, c') ∧ st_t (sv_status sv) = InternalError ∧
    (∀ p, GetConnection c' p = Fault FFuel) ∧
    (∀ env' p, ∃ sv', Connect env' p c' = Done (sv', c') ∧ st_t (sv_status sv') = Unavailable) ∧
    (∀ e p q a, p ≠ my_id_ ex_cm0 → OnConnectRequest e p q a c' = Done (Rejected, c')).
Proof.
  refine (Connect_failure_keeps_lock ex_bad_env 5 ex_cm0 _ _ _ _ _ _);
    [vm_compute; split; congruence|reflexivity..|vm_compute; congruence].
Defined.

(** ** The lock under interleaving *)
(** A thread outside, trying to take the lock for [peer] (and going on regardless of
    the answer when [ignore]), or inside. *)
Inductive lpc := LOut | LTry (peer : Z) (ignore : bool) | LIn.

Inductive lock_step (allow : Z → bool → Prop) (my_id : Z) : Z * list lpc → Z * list lpc → Prop :=
| lk_start mu ts i peer ignore :
    ts !! i = Some LOut → allow peer ignore → lock_step allow my_id (mu, ts) (mu, <[i := LTry peer ignore]> ts)
| lk_taken mu ts i peer ignore :
    ts !! i = Some (LTry peer ignore) → try_acquire my_id mu = Taken →
    lock_step allow my_id (mu, ts) (to_i32 peer, <[i := LIn]> ts)
| lk_given_up mu ts i peer ignore :
    ts !! i = Some (LTry peer ignore) → try_acquire my_id mu = GivenUp →
    lock_step allow my_id (mu, ts) (mu, <[i := if ignore : bool then LIn else LOut]> ts)
| lk_release mu ts i :
    ts !! i = Some LIn → lock_step allow my_id (mu, ts) (kUnlocked, <[i := LOut]> ts).

(** [Connect], [GetConnection] and [OnConnectRequest] only go on with the lock. *)
Definition careful (peer : Z) (ignore : bool) : Prop := is_u 16 peer ∧ ignore = false.
(** [OnDisconnect] and the destructor go on in any case. *)
Definition as_written (peer : Z) (ignore : bool) : Prop := is_u 16 peer.

Definition lock_inv (s : Z * list lpc) : Prop :=
  (∀ i p ign, s.2 !! i = Some (LTry p ign) → careful p ign) ∧
  (∀ i j, s.2 !! i = Some LIn → s.2 !! j = Some LIn → i = j) ∧
  (∀ i, s.2 !! i = Some LIn → s.1 ≠ kUnlocked).

Lemma lock_inv_step my_id s s' : lock_inv s → lock_step careful my_id s s' → lock_inv s'.
Proof.
  intros (Htry & Huniq & Hmu) Hs. destruct Hs; cbn in *.
  - split_and!; cbn.
    + intros j p ign Hj. apply list_lookup_insert_Some in Hj as [(_ & [= -> ->] & _)|[_ Hj]]; eauto.
    + intros j j' Hj Hj'. apply list_lookup_insert_Some in Hj as [(_ & [=] & _)|[_ Hj]].
      apply list_lookup_insert_Some in Hj' as [(_ & [=] & _)|[_ Hj']]. eauto.
    + intros j Hj. apply list_lookup_insert_Some in Hj as [(_ & [=] & _)|[_ Hj]]. eauto.
  - unfold try_acquire in H0. destruct (Z.eqb_spec mu kUnlocked) as [->|]; [|by case_match].
    assert (∀ j, ts !! j ≠ Some LIn) as Hno by (intros j Hj; by apply (Hmu j)).
    split_and!; cbn.
    + intros j p ign Hj. apply list_lookup_insert_Some in Hj as [(_ & [=] & _)|[_ Hj]]; eauto.
    + intros j j' Hj Hj'. apply list_lookup_insert_Some in Hj as [(<- & _ & _)|[_ Hj]]; [|by destruct (Hno j)].
      apply list_lookup_insert_Some in Hj' as [(<- & _ & _)|[_ Hj']]; [done|by destruct (Hno j')].
    + intros _ _. destruct (Htry _ _ _ H) as [Hp _]. rewrite id_i32 by done. destruct Hp. unfold kUnlocked. lia.
  - destruct (Htry _ _ _ H) as [_ ->]. split_and!; cbn.
    + intros j p ign Hj. apply list_lookup_insert_Some in Hj as [(_ & [=] & _)|[_ Hj]]; eauto.
    + intros j j' Hj Hj'. apply list_lookup_insert_Some in Hj as [(_ & [=] & _)|[_ Hj]].
      apply list_lookup_insert_Some in Hj' as [(_ & [=] & _)|[_ Hj']]. eauto.
    + intros j Hj. apply list_lookup_insert_Some in Hj as [(_ & [=] & _)|[_ Hj]]. eauto.
  - assert (∀ j, <[i := LOut]> ts !! j ≠ Some LIn) as Hno.
    { intros j Hj. apply list_lookup_insert_Some in Hj as [(_ & [=] & _)|[Hne Hj]]. by apply Hne, Huniq. }
    split_and!; cbn.
    + intros j p ign Hj. apply list_lookup_insert_Some in Hj as [(_ & [=] & _)|[_ Hj]]; eauto.
    + intros j j' Hj. by destruct (Hno j).
    + intros j Hj. by destruct (Hno j).
Qed.

(** Threads that respect the result of [Acquire] are never in the critical section
    of the connection manager together. *)
Theorem lock_excludes my_id n mu ts i j :
  star (lock_step careful my_id) (kUnlocked, replicate n LOut) (mu, ts) →
  ts !! i = Some LIn → ts !! j = Some LIn → i = j.
Proof.
  intros Hstar. assert (lock_inv (mu, ts)) as (_ & Huniq & _); [|apply Huniq].
  eapply star_invariant; [apply lock_inv_step| |exact Hstar].
  split_and!; cbn; intros k; intros; by match goal with H : replicate _ _ !! _ = Some _ |- _ =>
    apply lookup_replicate in H as [[=] _] end.
Qed.

Lemma lock_excludes_witness : [LIn; LTry 5 false] !! 0%nat = Some LIn ∧ 0%nat = 0%nat.
Proof.
  split; [reflexivity|]. refine (lock_excludes 2 2 2 [LIn; LTry 5 false] 0 0 _ eq_refl eq_refl).
  eapply star_step; [apply (lk_start _ _ _ _ 0 2 false); [reflexivity|by vm_compute]|]. cbn.
  eapply star_step; [apply (lk_start _ _ _ _ 1 5 false); [reflexivity|by vm_compute]|]. cbn.
  eapply star_step; [apply (lk_taken _ _ _ _ 0 2 false); reflexivity|]. cbn. apply star_refl.
Defined.

(** [OnDisconnect] ignores a refused [Acquire] and releases the lock all the same,
    after which two other threads can be in the critical section together. *)
Theorem disconnect_breaks_lock :
  ∃ mu ts, star (lock_step as_written 2) (kUnlocked, replicate 3 LOut) (mu, ts) ∧
    ts !! 0%nat = Some LIn ∧ ts !! 2%nat = Some LIn.
Proof.
  exists 2, [LIn; LOut; LIn]. split; [|done].
  eapply star_step; [apply (lk_start _ _ _ _ 0 2 false); [reflexivity|by vm_compute]|]. cbn.
  eapply star_step; [apply (lk_taken _ _ _ _ 0 2 false); reflexivity|]. cbn.
  eapply star_step; [apply (lk_start _ _ _ _ 1 5 true); [reflexivity|by vm_compute]|]. cbn.
  eapply star_step; [apply (lk_given_up _ _ _ _ 1 5 true); reflexivity|]. cbn.
  eapply star_step; [apply (lk_release _ _ _ _ 1); reflexivity|]. cbn.
  eapply star_step; [apply (lk_start _ _ _ _ 2 2 false); [reflexivity|by vm_compute]|]. cbn.
  eapply star_step; [apply (lk_taken _ _ _ _ 2 2 false); reflexivity|]. cbn. apply star_refl.
Qed.

(** ** Backoff *)
Lemma next_backoff_grows b my_id :
  is_u 16 my_id → b = 0 ∨ kMinBackoffUs ≤ b ≤ kMaxBackoffUs →
  kMinBackoffUs ≤ next_backoff b my_id ≤ kMaxBackoffUs ∧ Z.min (2 * b) kMaxBackoffUs ≤ next_backoff b my_id.
Proof.
  intros [H0 H1] Hb. unfold next_backoff, kMinBackoffUs, kMaxBackoffUs in *.
  destruct (Z.ltb_spec 0 b) as [Hpos|Hz]; [|lia].
  assert (u32 (100 * my_id) = 100 * my_id) as -> by (apply (wrap_small 32); unfold is_u; lia).
  assert (u32 (b + 100 * my_id) = b + 100 * my_id) as -> by (apply (wrap_small 32); unfold is_u; lia).
  assert (u32 ((b + 100 * my_id) * 2) = (b + 100 * my_id) * 2) as -> by (apply (wrap_small 32); unfold is_u; lia).
  lia.
Qed.

(** The backoff grows, stays between its bounds and reaches the upper one. *)
Theorem backoff_bounds my_id n :
  is_u 16 my_id →
  let b := Nat.iter n (λ b, next_backoff b my_id) 0 in
  ((0 < n)%nat → kMinBackoffUs ≤ b ≤ kMaxBackoffUs) ∧ b ≤ next_backoff b my_id ∧
  ((17 ≤ n)%nat → b = kMaxBackoffUs).
Proof.
  intros Hid. cbv zeta.
  assert (∀ n, (n = 0%nat ∧ Nat.iter n (λ b, next_backoff b my_id) 0 = 0) ∨
    (0 < n)%nat ∧ kMinBackoffUs ≤ Nat.iter n (λ b, next_backoff b my_id) 0 ≤ kMaxBackoffUs ∧
    Z.min (100 * 2 ^ Z.of_nat (n - 1)) kMaxBackoffUs ≤ Nat.iter n (λ b, next_backoff b my_id) 0) as Hall.
  { clear n. induction n as [|n IH]; [by left|right].
    change (Nat.iter (S n) ?f 0) with (f (Nat.iter n f 0)). cbv beta.
    destruct IH as [[-> _]|(Hn & Hr & Hg)].
    { change (next_backoff _ my_id) with 100. unfold kMinBackoffUs, kMaxBackoffUs. cbn. lia. }
    destruct (next_backoff_grows _ _ Hid (or_intror Hr)) as [Hr' Hg']. split_and!; [lia|lia|lia|].
    replace (Z.of_nat (S n - 1)) with (Z.of_nat (n - 1) + 1) by lia.
    rewrite Z.pow_add_r by lia. unfold kMaxBackoffUs in *. lia. }
  destruct (Hall n) as [[-> E]|(Hn & Hr & Hg)].
  - split_and!; [lia|rewrite E; vm_compute; congruence|lia].
  - split_and!; [intros _; exact Hr| |].
    + pose proof (next_backoff_grows _ _ Hid (or_intror Hr)) as [_ Hg']. unfold kMaxBackoffUs in *. lia.
    + intros Hn17. assert (2 ^ 16 ≤ 2 ^ Z.of_nat (n - 1)) by (apply Z.pow_le_mono_r; lia).
      unfold kMaxBackoffUs in *. lia.
Qed.

Lemma backoff_bounds_witness :
  ((0 < 20)%nat → kMinBackoffUs ≤ Nat.iter 20 (λ b, next_backoff b 3) 0 ≤ kMaxBackoffUs) ∧
  Nat.iter 20 (λ b, next_backoff b 3) 0 ≤ next_backoff (Nat.iter 20 (λ b, next_backoff b 3) 0) 3 ∧
  ((17 ≤ 20)%nat → Nat.iter 20 (λ b, next_backoff b 3) 0 = kMaxBackoffUs).
Proof. refine (backoff_bounds 3 20 _). vm_compute. split; congruence. Defined.
