(* ===== verification/Facade.v ===== *)
(** * [rdma_capability] (rdma/rdma.h): what the tables see of the network

    The class forwards to its [MemoryPool] and, for two-sided messages, to the channel of
    the connection that its [ConnectionManager] has for a peer. Here the connection manager
    and the channels are the detailed models of [ConnectionManager.v] and [Messenger.v];
    [init_pool] runs over the interface of [MemoryPool.v]. *)
From S2P Require Import Prelude Status RemotePtr Memory SlabAllocator MemoryPool RdmaOps Messenger ConnectionManager.

(** The pool, the manager it owns, and the channel each connection owns, by [conn_id]. *)
Record rdma_capability := mkCapability {
  pool : MemoryPool; manager : ConnectionManager; channels : gmap Z TwoSidedRdmaMessenger }.

Definition set_pool (c : rdma_capability) (p : MemoryPool) : rdma_capability :=
  mkCapability p (manager c) (channels c).

(** ** One-sided operations: the pool's, by the calling thread *)
Section onesided.
Context {N : Type} `{!Nic N}.

Definition rc_RegisterThread (c : rdma_capability) (tid : nat) : result rdma_capability :=
  p ← RegisterThread (pool c) tid; Done (set_pool c p).

Definition rc_Allocate (sizeof_T : Z) (c : rdma_capability) (tid : nat) (size : Z)
    : result (remote_ptr * rdma_capability) :=
  '(a, p) ← Allocate sizeof_T (pool c) tid size; Done (a, set_pool c p).

Definition rc_Deallocate (sizeof_T : Z) (c : rdma_capability) (tid : nat) (ptr : remote_ptr) (size : Z)
    : result rdma_capability :=
  p ← Deallocate sizeof_T (pool c) tid ptr size; Done (set_pool c p).

Inductive RDMAWriteBehavior := RDMAWriteWithAck | RDMAWriteNoAck.
Definition behavior_int (b : RDMAWriteBehavior) : Z :=
  match b with RDMAWriteWithAck => 0 | RDMAWriteNoAck => 1 end.

Definition rc_Write (sizeof_T : Z) (fuel : nat) (c : rdma_capability) (tid : nat) (ptr : remote_ptr)
    (val : list Z) (prealloc : remote_ptr) (b : RDMAWriteBehavior) (n : N) : result (rdma_capability * N) :=
  '(p, n) ← Write sizeof_T fuel (pool c) tid ptr val prealloc (behavior_int b) n; Done (set_pool c p, n).

Definition rc_CompareAndSwap (fuel : nat) (c : rdma_capability) (tid : nat) (ptr : remote_ptr)
    (expected swap : Z) (n : N) : result (Z * rdma_capability * N) :=
  '(v, p, n) ← CompareAndSwap fuel (pool c) tid ptr expected swap n; Done (v, set_pool c p, n).

Definition rc_ExtendedRead (sizeof_T : Z) (fuel : nat) (c : rdma_capability) (tid : nat) (ptr : remote_ptr)
    (size : Z) (prealloc : remote_ptr) (n : N) : result (remote_ptr * rdma_capability * N) :=
  '(r, p, n) ← ExtendedRead sizeof_T fuel (pool c) tid ptr size prealloc n; Done (r, set_pool c p, n).

Definition rc_Read (sizeof_T : Z) (fuel : nat) (c : rdma_capability) (tid : nat) (ptr prealloc : remote_ptr)
    (n : N) : result (remote_ptr * rdma_capability * N) :=
  '(r, p, n) ← Read sizeof_T fuel (pool c) tid ptr prealloc n; Done (r, set_pool c p, n).
End onesided.

(** [init_pool(block_size, peers)] *)
Definition init_pool {C} `{!CmOps C} (new_resource : Z → memory_resource * ibv_mr) (fuel : nat)
    (block_size : Z) (peers : list Peer) (p : MemoryPool) (c : C) : result (MemoryPool * C) :=
  '(status_pool, p, c) ← Init new_resource fuel p block_size peers c;
  _ ← OK_OR_FAIL status_pool;
  Done (p, c).

(** ** Two-sided messages *)
Section twosided.
Context {P : Type} (SerializeToArray : P → bytes) (ParseFromArray : bytes → P).

Definition set_channel (c : rdma_capability) (m : ConnectionManager) (conn : Connection)
    (t : TwoSidedRdmaMessenger) : rdma_capability :=
  mkCapability (pool c) m (<[conn_id conn := t]> (channels c)).

(** [Send(to, proto)]: what is handed to the card comes with the connection it goes to. *)
Definition rc_Send (post_ret : Z) (answers : list comp_result) (c : rdma_capability) (to : Peer) (proto : P)
    : result (Status * rdma_capability * option (Z * send_effect)) :=
  '(conn_or, m) ← GetConnection (manager c) (peer_id to);
  RETURN_STATUS_ON_ERROR (sv_status conn_or)
    (λ s, Done (s, mkCapability (pool c) m (channels c), None))
    (conn ← or_throw (sv_val conn_or);
     t ← defined (channels c !! conn_id conn);
     '(s, t, eff) ← Messenger.Send SerializeToArray post_ret answers t proto;
     Done (s, set_channel c m conn t, option_map (pair (conn_id conn)) eff)).

(** [Recv(from)]: the answers of the polling calls until a message is there. *)
Definition rc_Recv (rdma_post_recv : Z → Z) (slot : Z → bytes) (rets : list recv_result)
    (c : rdma_capability) (from : Peer) : result (StatusVal P * rdma_capability * list Z) :=
  '(conn_or, m) ← GetConnection (manager c) (peer_id from);
  if negb (is_ok (sv_status conn_or)) then
    Done (mkStatusVal (sv_status conn_or) None, mkCapability (pool c) m (channels c), [])
  else
    conn ← or_throw (sv_val conn_or);
    t ← defined (channels c !! conn_id conn);
    '(got, t, posted) ← Deliver ParseFromArray rdma_post_recv slot rets t;
    Done (got, set_channel c m conn t, posted).

(** ** Both ends of a message *)
(** The ring of a messenger is at its slot [k]. *)
Definition recv_at (t : TwoSidedRdmaMessenger) (k : nat) : Prop :=
  (k < 8)%nat ∧ recv_cap_ t = 2048 ∧ recv_next_ t = slot_addr t k ∧
  0 ≤ recv_total_ t < 2 ^ 32 ∧ recv_total_ t mod 8 = Z.of_nat k.
Definition channel_ok (t : TwoSidedRdmaMessenger) : Prop := send_ok t ∧ ∃ k, recv_at t k.

(** Every established connection owns a channel, and the channels are sound. *)
Record capability_ok (c : rdma_capability) : Prop := {
  ca_free : mu_ (manager c) = kUnlocked;
  ca_channels : map_Forall (λ _ conn, is_Some (channels c !! conn_id conn)) (established_ (manager c));
  ca_sound : map_Forall (λ _ t, channel_ok t) (channels c) }.

Lemma lookup_connection c i : mu_ c = kUnlocked →
  GetConnection c i = Done (match established_ c !! i with
    | Some conn => mkStatusVal StatusOk (Some conn)
    | None => mkStatusVal (status_append (mkStatus NotFound (Some "Connection not found: ")) (pretty.pretty i)) None
    end, c).
Proof.
  intros Hmu. unfold GetConnection. rewrite Acquire_free, bind_done by done. cbn.
  assert (Release (set_mu c (to_i32 (my_id_ c))) = c) as -> by (destruct c; cbn in *; by rewrite Hmu).
  by destruct (established_ c !! i).
Qed.

Lemma channel_of c i conn : capability_ok c → established_ (manager c) !! i = Some conn →
  ∃ t, channels c !! conn_id conn = Some t ∧ channel_ok t.
Proof.
  intros [_ Hc Hs] Hi. destruct (Hc i conn Hi) as [t Ht]. exists t. split; [done|]. by eapply Hs.
Qed.

Lemma capability_ok_set c i conn t : capability_ok c → established_ (manager c) !! i = Some conn → channel_ok t →
  capability_ok (set_channel c (manager c) conn t).
Proof.
  intros [Hf Hc Hs] Hi Ht. split; [done| |].
  - intros j conn' Hj. cbn. destruct (decide (conn_id conn = conn_id conn')) as [->|Hne].
    + rewrite lookup_insert_eq. by eexists.
    + rewrite lookup_insert_ne by done. by eapply Hc.
  - by apply map_Forall_insert_2.
Qed.

(** [Send] and the loop of [Deliver] on one channel. *)
Lemma send_done answers t msg :
  send_ok t → (length msg < 256)%nat → wait_send_comp answers = Done (Comp true) →
  ∃ t' e, SendMessage 0 answers t msg = Done (StatusOk, t', Some e) ∧ send_ok t' ∧ (∀ k, recv_at t k → recv_at t' k) ∧ se_bytes e = msg ∧
    send_base_ t ≤ se_addr e ∧ se_addr e + Z.of_nat (length msg) ≤ send_base_ t + send_cap_ t.
Proof.
  unfold send_ok, SendMessage, kRecvMaxBytes. change (Z.shiftl 1 8) with 256. intros [Hcap Hn] Hlen Ha.
  rewrite (proj2 (Z.leb_gt _ _)) by lia. cbn [negb Z.eqb]. rewrite Ha, bind_done. do 2 eexists. split; [done|].
  cbn. destruct (Z.ltb_spec (send_base_ t + send_cap_ t) (send_next_ t + Z.of_nat (length msg))); split_and!; (done || lia).
Qed.

(** One message leaves the ring at slot [k]; after the last one all eight are posted again. *)
Definition reposted (t : TwoSidedRdmaMessenger) (k : nat) : list Z :=
  if decide (S k = 8)%nat then map (slot_addr t) (seq 0 8) else [].

Lemma receive_done slot t k b : recv_at t k → slot (slot_addr t k) = b →
  ∃ t', on_recv (λ _, 0) slot t IBV_WC_SUCCESS (Z.of_nat (length b)) =
      Done (mkStatusVal StatusOk (Some b), t', reposted t k) ∧
    recv_at t' (if decide (S k = 8)%nat then 0 else S k) ∧ (send_ok t → send_ok t').
Proof.
  intros (Hk & Hc & Hn & Ht & Hm) Hb. unfold on_recv, reposted, kRecvMaxBytes. change (Z.shiftl 1 8) with 256.
  rewrite Nat2Z.id, Hn, Hb, firstn_all. cbn [recv_base_ recv_cap_ recv_next_]. rewrite Hc.
  assert (u32 (recv_total_ t + 1) mod 8 = (recv_total_ t + 1) mod 8) as Hu by (unfold u32; apply Z.mod_mod_divide; exists (2 ^ 29); lia).
  assert (0 ≤ u32 (recv_total_ t + 1) < 2 ^ 32) as Hu32 by (apply (wrap_is_u 32); lia).
  case_decide as H8.
  - rewrite (proj2 (Z.ltb_lt _ _)) by (unfold slot_addr; lia).
    rewrite PrepareRecvBuffer_ok; [|done|cbn; rewrite Hu, Z.add_mod, Hm by lia; replace k with 7%nat by lia; done].
    rewrite bind_done. eexists. split; [done|]. split; [|done]. unfold recv_at, slot_addr. cbn.
    rewrite Hu, Z.add_mod, Hm by lia. replace k with 7%nat by lia. split_and!; (done || lia).
  - rewrite (proj2 (Z.ltb_ge _ _)) by (unfold slot_addr; lia). eexists. split; [done|]. split; [|done].
    unfold recv_at, slot_addr. cbn. rewrite Hu, Z.add_mod, Hm by lia. change (1 mod 8) with 1. rewrite Z.mod_small by lia.
    split_and!; (done || lia).
Qed.

Lemma deliver_done slot n t k b : recv_at t k → slot (recv_next_ t) = b →
  ∃ t', Deliver ParseFromArray (λ _, 0) slot
      (replicate n RecvAgain ++ [Recv IBV_WC_SUCCESS (Z.of_nat (length b))]) t =
    Done (mkStatusVal StatusOk (Some (ParseFromArray b)), t', reposted t k) ∧ (send_ok t → channel_ok t').
Proof.
  intros Hr Hb. pose proof Hr as (_ & _ & Hn & _). rewrite Hn in Hb.
  destruct (receive_done slot t k b Hr Hb) as (t' & E & Hr' & Hs). exists t'.
  split; [|intros Hok; split; [by apply Hs|by eexists]].
  induction n as [|n IH]; [|exact IH]. cbn [replicate app Deliver]. unfold TryDeliver, TryDeliverMessage.
  rewrite E, bind_done. reflexivity.
Qed.

Lemma rc_Send_done answers c to conn t proto :
  capability_ok c → established_ (manager c) !! peer_id to = Some conn → channels c !! conn_id conn = Some t →
  (length (SerializeToArray proto) < 256)%nat → wait_send_comp answers = Done (Comp true) →
  ∃ c' e, rc_Send 0 answers c to proto = Done (StatusOk, c', Some (conn_id conn, e)) ∧
    se_bytes e = SerializeToArray proto ∧ send_base_ t ≤ se_addr e ∧
    se_addr e + Z.of_nat (length (se_bytes e)) ≤ send_base_ t + send_cap_ t ∧
    capability_ok c' ∧ ∀ i, i ≠ conn_id conn → channels c' !! i = channels c !! i.
Proof.
  intros Hc Hconn Ht Hlen Ha. unfold rc_Send. rewrite (lookup_connection _ _ (ca_free _ Hc)), Hconn, bind_done.
  destruct (ca_sound _ Hc _ _ Ht) as (Hs & k & Hk).
  destruct (send_done answers t (SerializeToArray proto) Hs Hlen Ha) as (t' & e & E & Hok & Hrecv & Hb & Hlo & Hhi).
  unfold RETURN_STATUS_ON_ERROR. cbn. rewrite Ht. cbn. unfold Messenger.Send. rewrite E, bind_done. cbn.
  do 2 eexists. split; [done|]. rewrite Hb. do 3 (split; [done|]). split; [eapply capability_ok_set; [done..|split; eauto]|].
  intros i Hi. cbn. by rewrite lookup_insert_ne.
Qed.

Lemma rc_Recv_done slot n c from conn t k b :
  capability_ok c → established_ (manager c) !! peer_id from = Some conn → channels c !! conn_id conn = Some t →
  recv_at t k → slot (recv_next_ t) = b →
  ∃ c', rc_Recv (λ _, 0) slot (replicate n RecvAgain ++ [Recv IBV_WC_SUCCESS (Z.of_nat (length b))]) c from =
      Done (mkStatusVal StatusOk (Some (ParseFromArray b)), c', reposted t k) ∧
    capability_ok c' ∧ ∀ i, i ≠ conn_id conn → channels c' !! i = channels c !! i.
Proof.
  intros Hc Hconn Ht Hr Hslot. unfold rc_Recv. rewrite (lookup_connection _ _ (ca_free _ Hc)), Hconn, bind_done.
  destruct (deliver_done slot n t k b Hr Hslot) as (t' & E & Hok). cbn. rewrite Ht. cbn. rewrite E, bind_done.
  eexists. split; [done|]. split; [eapply capability_ok_set; [done..|]|].
  - apply Hok. exact (proj1 (ca_sound _ Hc _ _ Ht)).
  - intros i Hi. cbn. by rewrite lookup_insert_ne.
Qed.

(** Without a connection both operations report it and do nothing. *)
Lemma not_connected c p post_ret answers proto post slot rets :
  capability_ok c → established_ (manager c) !! peer_id p = None →
  (∃ s, rc_Send post_ret answers c p proto = Done (s, c, None) ∧ st_t s = NotFound) ∧
  (∃ s, rc_Recv post slot rets c p = Done (mkStatusVal s None, c, []) ∧ st_t s = NotFound).
Proof.
  intros Hc Hp. unfold rc_Send, rc_Recv. rewrite (lookup_connection _ _ (ca_free _ Hc)), Hp, bind_done. cbn.
  split; eexists; (split; [by destruct c|done]).
Qed.

(** C35: a two-sided message from end to end. When both sides have a connection to the other,
    [Send] of a message whose encoding is shorter than 256 bytes succeeds if the card does,
    from inside the send buffer of the connection of that peer and of no other; when the card
    has placed these bytes in the receiver's next slot - any of the eight of its ring - [Recv]
    returns the message after any number of retries; when it was the last slot of the ring and the
    card accepts the receives, all eight are posted again. Both sides stay sound. *)
Theorem send_then_recv a b (to from : Peer) ca cb ta tb proto answers n :
  (∀ p, ParseFromArray (SerializeToArray p) = p) → capability_ok a → capability_ok b →
  established_ (manager a) !! peer_id to = Some ca → channels a !! conn_id ca = Some ta →
  established_ (manager b) !! peer_id from = Some cb → channels b !! conn_id cb = Some tb →
  (length (SerializeToArray proto) < 256)%nat → wait_send_comp answers = Done (Comp true) →
  ∃ a' e, rc_Send 0 answers a to proto = Done (StatusOk, a', Some (conn_id ca, e)) ∧ capability_ok a' ∧
    send_base_ ta ≤ se_addr e ∧ se_addr e + Z.of_nat (length (se_bytes e)) ≤ send_base_ ta + send_cap_ ta ∧
    (∀ i, i ≠ conn_id ca → channels a' !! i = channels a !! i) ∧
    ∃ k, recv_next_ tb = slot_addr tb k ∧ (k < 8)%nat ∧
    ∀ slot, slot (recv_next_ tb) = se_bytes e →
      ∃ b', rc_Recv (λ _, 0) slot
          (replicate n RecvAgain ++ [Recv IBV_WC_SUCCESS (Z.of_nat (length (se_bytes e)))]) b from =
        Done (mkStatusVal StatusOk (Some proto), b',
              if decide (S k = 8)%nat then map (slot_addr tb) (seq 0 8) else []) ∧
        capability_ok b' ∧ ∀ i, i ≠ conn_id cb → channels b' !! i = channels b !! i.
Proof.
  intros Hparse Ha Hb Hca Hta Hcb Htb Hlen Hans. destruct (proj2 (ca_sound _ Hb _ _ Htb)) as [k Hk].
  destruct (rc_Send_done answers a to ca ta proto Ha Hca Hta Hlen Hans) as (a' & e & E & He & Hlo & Hhi & Ha' & Ho).
  exists a', e. do 5 (split; [done|]). exists k. split; [apply Hk|]. split; [apply Hk|]. intros slot Hslot.
  destruct (rc_Recv_done slot n b from cb tb k _ Hb Hcb Htb Hk Hslot) as (b' & E' & Hb' & Hother).
  exists b'. split; [|done]. by rewrite E', He, Hparse.
Qed.
End twosided.

(** ** [init_pool] *)
(** Once the pool is set up, the one-sided operations find the connection of every peer. *)
Lemma init_pool_ready {C} `{!CmOps C} new_resource fuel block_size peers p (c : C) p' c' :
  init_pool new_resource fuel block_size peers p c = Done (p', c') →
  ∀ q, q ∈ peers → ∃ x, conn_info p' (u16 (peer_id q)) = Done x.
Proof.
  intros Hi q Hq. unfold init_pool in Hi. apply bind_done_inv in Hi as ([[s p1] c1] & Hinit & Hi).
  apply bind_done_inv in Hi as (u & Hok & [= <- <-]). apply OK_OR_FAIL_done in Hok.
  by apply (Init_spec _ _ _ _ _ _ _ _ _ Hinit).
Qed.

(** ** Example *)
(** A receive ring at its last slot. *)
Definition ex_rx (base : Z) : TwoSidedRdmaMessenger :=
  mkMessenger (mkMemory 4096 base false ∅) 7 2048 base base 0 2048 (base + 2048) (base + 2048 + 1792) 15.
Definition ex_side (me other conn : Z) (base : Z) : rdma_capability :=
  mkCapability ex_pool (set_established (ConnectionManager_new me) {[ other := mkConnection me other conn ]})
    {[ conn := ex_rx base ]}.

Lemma ex_side_ok me other conn base : capability_ok (ex_side me other conn base).
Proof.
  split; [done| |]; cbn.
  - intros i x Hx. apply lookup_singleton_Some in Hx as [<- <-]. cbn. rewrite lookup_singleton_eq. by eexists.
  - intros i x Hx. apply lookup_singleton_Some in Hx as [<- <-]. split.
    + unfold send_ok, kRecvMaxBytes. change (Z.shiftl 1 8) with 256. cbn. lia.
    + exists 7%nat. unfold recv_at, slot_addr. cbn. split_and!; (done || lia).
Qed.

Lemma send_then_recv_witness :
  ∃ a' e, rc_Send (P:=list Z) (λ x, x) 0 [CompAgain; Comp true] (ex_side 1 2 70 8192) (mkPeer 2 "node2" 18000) [5; 6]
      = Done (StatusOk, a', Some (70, e)) ∧
    ∃ b' posted, rc_Recv (P:=list Z) (λ x, x) (λ _, 0) (λ _, se_bytes e)
        [RecvAgain; RecvAgain; Recv IBV_WC_SUCCESS (Z.of_nat (length (se_bytes e)))] (ex_side 2 1 90 4096)
        (mkPeer 1 "node1" 18000) = Done (mkStatusVal StatusOk (Some [5; 6]), b', posted) ∧ capability_ok b'.
Proof.
  destruct (send_then_recv (P:=list Z) (λ x, x) (λ x, x) (ex_side 1 2 70 8192) (ex_side 2 1 90 4096)
    (mkPeer 2 "node2" 18000) (mkPeer 1 "node1" 18000) (mkConnection 1 2 70) (mkConnection 2 1 90)
    (ex_rx 8192) (ex_rx 4096) [5; 6] [CompAgain; Comp true] 2) as (a' & e & E & _ & _ & _ & _ & k & _ & _ & Hr);
    [done|apply ex_side_ok|apply ex_side_ok|reflexivity|reflexivity|reflexivity|reflexivity|cbn; lia|reflexivity|].
  exists a', e. split; [exact E|]. destruct (Hr (λ _, se_bytes e) eq_refl) as (b' & Eb & Hb & _).
  exists b'. eexists. split; [exact Eb|exact Hb].
Defined.
