(* ===== verification/Broker.v ===== *)
(** * [RdmaBroker] (rdma/broker.h): the listener that feeds connection events to the
    connection manager. *)
From S2P Require Import Prelude Status ConnectionManager.

(** ** Devices *)
(** [FindActivePorts(context)]: [active i] is whether port [i] is active. *)
Definition FindActivePorts (phys_port_cnt : nat) (active : nat → bool) : StatusVal (list nat) :=
  let ports := filter (λ i, active i = true) (seq 1 phys_port_cnt) in
  if bool_decide (ports = []) then mkStatusVal (mkStatus Unavailable (Some "No active ports")) None
  else mkStatusVal StatusOk (Some ports).

(** A device of [ibv_get_device_list]: whether it opens, its name and its ports. *)
Record device := mkDevice { dv_opens : bool; dv_name : string; dv_ports : nat; dv_active : nat → bool }.

Definition device_ports (d : device) : list (string * nat) :=
  if dv_opens d then
    let ports_or := FindActivePorts (dv_ports d) (dv_active d) in
    if bool_decide (st_t (sv_status ports_or) = Ok) then
      map (λ p, (dv_name d, p)) (default [] (sv_val ports_or))
    else []
  else [].

Definition GetAvailableDevices (devices : list device) : StatusVal (list (string * nat)) :=
  if bool_decide (devices = []) then mkStatusVal (mkStatus NotFound (Some "No devices found")) None
  else mkStatusVal StatusOk (Some (concat (map device_ports devices))).

(** ** The broker *)
Record RdmaBroker := mkBroker {
  br_address : string; br_port : Z; terminate_ : bool; br_running : bool;
  br_status : Status; br_listening : bool; num_connections_ : Z }.

Definition RdmaBroker_new : RdmaBroker := mkBroker "" 0 false false StatusOk false 0.

(** The library's answers during [Init]. *)
Record init_env := mkInitEnv {
  ie_devices : list device; ie_getaddrinfo : Z; ie_create_ep : Z; ie_migrate_id : Z;
  ie_fcntl : Z; ie_listen : Z; ie_address : string; ie_port : Z }.

(** [Init(address, port)] *)
Definition Broker_Init (env : init_env) (b : RdmaBroker) : Status * RdmaBroker :=
  let devices := GetAvailableDevices (ie_devices env) in
  if bool_decide (st_t (sv_status devices) ≠ Ok) then (sv_status devices, b) else
  if negb (ie_getaddrinfo env =? 0) then (mkStatus InternalError (Some "rdma_getaddrinfo(): "), b) else
  if negb (ie_create_ep env =? 0) then (mkStatus InternalError (Some "rdma_create_ep(): "), b) else
  let b := mkBroker (br_address b) (br_port b) (terminate_ b) (br_running b) (br_status b) true (num_connections_ b) in
  if negb (ie_migrate_id env =? 0) then (status_append (mkStatus InternalError (Some "")) "rdma_migrate_id(): ", b) else
  if negb (ie_fcntl env =? 0) then (status_append (mkStatus InternalError (Some "")) "fcntl(): ", b) else
  if negb (ie_listen env =? 0) then (status_append (mkStatus InternalError (Some "")) "rdma_listen(): ", b) else
  (StatusOk, mkBroker (ie_address env) (u16 (ie_port env)) (terminate_ b) true (br_status b) true (num_connections_ b)).

(** [Create]: the broker, or null. *)
Definition Broker_Create (env : init_env) : option RdmaBroker :=
  let '(s, b) := Broker_Init env RdmaBroker_new in
  if bool_decide (st_t s = Ok) then Some b else None.

(** [Stop()] *)
Definition Broker_Stop (b : RdmaBroker) : Status * RdmaBroker :=
  (br_status b, mkBroker (br_address b) (br_port b) true false (br_status b) (br_listening b) (num_connections_ b)).

(** ** The event loop *)
(** What [rdma_get_cm_event] answers: try again, an error, or an event; [Terminate] is
    the moment the flag is seen. *)
Inductive listen_event :=
| EvAgain
| EvError
| EvTerminate
| EvTimewaitExit
| EvConnectRequest (event_id peer_id qp_ret accept_ret : Z)
| EvEstablished
| EvDisconnected (event_id peer_id : Z)
| EvDeviceRemoval
| EvUnexpected.

Definition set_connections (b : RdmaBroker) (n : Z) : RdmaBroker :=
  mkBroker (br_address b) (br_port b) (terminate_ b) (br_running b) (br_status b) (br_listening b) n.
Definition set_status (b : RdmaBroker) (s : Status) : RdmaBroker :=
  mkBroker (br_address b) (br_port b) (terminate_ b) (br_running b) s (br_listening b) (num_connections_ b).

(** The [switch] of [HandleConnectionRequests]. *)
Definition handle_event (ev : listen_event) (b : RdmaBroker) (c : ConnectionManager)
    : result (RdmaBroker * ConnectionManager) :=
  match ev with
  | EvTimewaitExit | EvDeviceRemoval => Done (b, c)
  | EvConnectRequest e p q a => '(_, c) ← OnConnectRequest e p q a c; Done (b, c)
  | EvEstablished => Done (set_connections b (u32 (num_connections_ b + 1)), c)
  | EvDisconnected e p => c ← OnDisconnect e p c; Done (set_connections b (u32 (num_connections_ b - 1)), c)
  | _ => Fault FAbort
  end.

(** [HandleConnectionRequests()] over the answers of the event channel. *)
Fixpoint HandleConnectionRequests (evs : list listen_event) (b : RdmaBroker) (c : ConnectionManager)
    : result (RdmaBroker * ConnectionManager) :=
  if terminate_ b then Done (b, c) else
  match evs with
  | [] => Fault FFuel
  | EvTerminate :: _ => Done (b, c)
  | EvAgain :: l => HandleConnectionRequests l b c
  | EvError :: _ => Done (set_status b (mkStatus InternalError (Some "rdma_get_cm_event(): ")), c)
  | ev :: l => '(b, c) ← handle_event ev b c; HandleConnectionRequests l b c
  end.

(** ** What the listener keeps *)
(** The abstract state: one accepted connection id per peer, and the balance of
    established and disconnected events. *)
Definition abs_event (ev : listen_event) (s : gmap Z Z * Z) : gmap Z Z * Z :=
  match ev with
  | EvConnectRequest e p _ _ => (match s.1 !! p with Some _ => s.1 | None => <[p := e]> s.1 end, s.2)
  | EvEstablished => (s.1, s.2 + 1)
  | EvDisconnected e p => (if bool_decide (s.1 !! p = Some e) then delete p s.1 else s.1, s.2 - 1)
  | _ => s
  end.

(** Events a remote peer causes on a working device. *)
Definition peer_event (my_id : Z) (ev : listen_event) : Prop :=
  match ev with
  | EvConnectRequest _ p q a => is_u 16 p ∧ p ≠ my_id ∧ q = 0 ∧ a = 0
  | EvDisconnected _ p => is_u 16 p
  | EvAgain | EvTimewaitExit | EvEstablished | EvDeviceRemoval => True
  | _ => False
  end.

Record listener_rel (my_id : Z) (b : RdmaBroker) (c : ConnectionManager) (s : gmap Z Z * Z) : Prop := {
  lr_id : my_id_ c = my_id;
  lr_free : mu_ c = kUnlocked;
  lr_accepting : accepting_ c = true ∧ requested_ c = ∅ ∧ terminate_ b = false;
  lr_conns : conn_id <$> established_ c = s.1;
  lr_dst : map_Forall (λ p x, dst_id x = p ∧ src_id x = my_id) (established_ c);
  lr_count : num_connections_ b = u32 s.2 }.

Lemma u32_shift x d : u32 (u32 x + d) = u32 (x + d).
Proof. unfold u32. by rewrite Zplus_mod_idemp_l. Qed.

Lemma handle_request_rel my_id b c s e p :
  is_u 16 p → p ≠ my_id → listener_rel my_id b c s →
  ∃ c', handle_event (EvConnectRequest e p 0 0) b c = Done (b, c') ∧
    listener_rel my_id b c' (abs_event (EvConnectRequest e p 0 0) s).
Proof.
  intros Hp Hne [Hid Hfree (Hacc & Hreq & Hterm) Hconns Hdst Hcount]. cbn.
  unfold OnConnectRequest. rewrite Hacc, Hid, (proj2 (Z.eqb_neq _ _) Hne). cbn [negb].
  rewrite (Acquire_free _ _ Hfree), bind_done. cbn [negb]. change (requested_ (set_mu c ?m)) with (requested_ c).
  rewrite Hreq. rewrite (bool_decide_eq_false_2 (p ∈ ∅)) by set_solver. rewrite orb_false_r.
  change (established_ (set_mu c ?m)) with (established_ c).
  assert (s.1 !! p = conn_id <$> established_ c !! p) as Hlook by by rewrite <- Hconns, lookup_fmap.
  destruct (established_ c !! p) as [x|] eqn:E.
  - rewrite bool_decide_eq_true_2 by done. cbn in Hlook. rewrite Hlook, bind_done.
    eexists. split; [done|]. split; try done; by cbn.
  - rewrite bool_decide_eq_false_2 by (intros [? [=]]). cbn in Hlook. rewrite Hlook. cbn [rome_assert Z.eqb].
    rewrite bind_done. unfold emplace_new. change (established_ (set_mu c ?m)) with (established_ c).
    rewrite E, !bind_done. eexists. split; [done|]. split; cbn; try done.
    + by rewrite fmap_insert, Hconns.
    + apply map_Forall_insert_2; [|done]. by rewrite Hid.
Qed.

Lemma handle_disconnect_rel my_id b c s e p :
  is_u 16 p → listener_rel my_id b c s →
  ∃ b' c', handle_event (EvDisconnected e p) b c = Done (b', c') ∧
    listener_rel my_id b' c' (abs_event (EvDisconnected e p) s).
Proof.
  intros Hp [Hid Hfree (Hacc & Hreq & Hterm) Hconns Hdst Hcount]. cbn.
  unfold OnDisconnect. rewrite (Acquire_free _ _ Hfree), !bind_done.
  change (established_ (set_mu c ?m)) with (established_ c).
  assert (s.1 !! p = conn_id <$> established_ c !! p) as Hlook by by rewrite <- Hconns, lookup_fmap.
  eexists _, _. split; [done|]. rewrite Hlook. split; cbn.
  - by destruct (established_ c !! p) as [x|]; [destruct (_ =? _)|].
  - done.
  - by destruct (established_ c !! p) as [x|]; [destruct (_ =? _)|].
  - destruct (established_ c !! p) as [x|]; cbn; [|done].
    destruct (Z.eqb_spec (conn_id x) e) as [->|Hn]; cbn.
    + rewrite bool_decide_eq_true_2 by done. by rewrite fmap_delete, Hconns.
    + rewrite bool_decide_eq_false_2 by congruence. done.
  - destruct (established_ c !! p) as [x|]; cbn; [|done]. destruct (_ =? _); cbn; [|done].
    by apply map_Forall_delete.
  - rewrite Hcount. apply (u32_shift s.2 (-1)).
Qed.

Lemma listen_run my_id evs b c s :
  listener_rel my_id b c s → Forall (peer_event my_id) evs →
  ∃ b' c', HandleConnectionRequests (evs ++ [EvTerminate]) b c = Done (b', c') ∧
    listener_rel my_id b' c' (foldl (flip abs_event) s evs).
Proof.
  revert b c s. induction evs as [|ev evs IH]; intros b c s Hr Hall.
  { cbn. destruct (lr_accepting _ _ _ _ Hr) as (_ & _ & ->). eauto. }
  apply Forall_cons in Hall as [He Hall]. cbn [app HandleConnectionRequests foldl flip].
  destruct (lr_accepting _ _ _ _ Hr) as (_ & _ & Ht). rewrite Ht.
  destruct ev; cbn in He; try done.
  - by apply IH.
  - by apply IH.
  - destruct He as (Hp & Hne & -> & ->).
    destruct (handle_request_rel _ _ _ _ event_id _ Hp Hne Hr) as (c' & -> & Hr'). by apply IH.
  - apply IH; [|done]. destruct Hr. split; cbn; try done. rewrite lr_count0. apply u32_shift.
  - destruct (handle_disconnect_rel _ _ _ _ event_id _ He Hr) as (b' & c' & -> & Hr'). by apply IH.
  - by apply IH.
Qed.

(** C22: the listener thread, on events of foreign peers: it ends when told to, the
    established connections are those the sequence of requests and disconnects describes,
    one per peer, the lock is free and the connection count is events up minus down,
    modulo 2^32. *)
Theorem broker_listens my_id b c evs :
  my_id_ c = my_id → mu_ c = kUnlocked → accepting_ c = true → requested_ c = ∅ → established_ c = ∅ →
  terminate_ b = false → num_connections_ b = 0 → Forall (peer_event my_id) evs →
  ∃ b' c', HandleConnectionRequests (evs ++ [EvTerminate]) b c = Done (b', c') ∧
    mu_ c' = kUnlocked ∧
    conn_id <$> established_ c' = (foldl (flip abs_event) (∅, 0) evs).1 ∧
    map_Forall (λ p x, dst_id x = p ∧ src_id x = my_id) (established_ c') ∧
    num_connections_ b' = u32 (foldl (flip abs_event) (∅, 0) evs).2.
Proof.
  intros H1 H2 H3 H4 H5 H6 H7 Hall.
  destruct (listen_run my_id evs b c (∅, 0)) as (b' & c' & E & []); [|done|by exists b', c'].
  split; cbn; try done; rewrite ?H5, ?fmap_empty; try done.
Qed.

Definition ex_listen : list listen_event :=
  [EvConnectRequest 100 5 0 0; EvAgain; EvEstablished; EvConnectRequest 101 5 0 0;
   EvConnectRequest 102 6 0 0; EvEstablished; EvDisconnected 100 5; EvDisconnected 101 5].

Lemma broker_listens_witness :
  ∃ b' c', HandleConnectionRequests (ex_listen ++ [EvTerminate]) RdmaBroker_new ex_cm0 = Done (b', c') ∧
    mu_ c' = kUnlocked ∧
    conn_id <$> established_ c' = (foldl (flip abs_event) (∅, 0) ex_listen).1 ∧
    map_Forall (λ p x, dst_id x = p ∧ src_id x = 2) (established_ c') ∧
    num_connections_ b' = u32 (foldl (flip abs_event) (∅, 0) ex_listen).2.
Proof.
  refine (broker_listens 2 RdmaBroker_new ex_cm0 ex_listen _ _ _ _ _ _ _ _); try reflexivity.
  repeat constructor; vm_compute; congruence.
Defined.

(** The devices reported are the active ports of the devices that open. *)
Theorem GetAvailableDevices_spec devices :
  match sv_val (GetAvailableDevices devices) with
  | Some l => devices ≠ [] ∧ st_t (sv_status (GetAvailableDevices devices)) = Ok ∧
      ∀ name p, (name, p) ∈ l ↔ ∃ d, d ∈ devices ∧ dv_opens d = true ∧ dv_name d = name ∧
                   (1 ≤ p ≤ dv_ports d)%nat ∧ dv_active d p = true
  | None => devices = [] ∧ st_t (sv_status (GetAvailableDevices devices)) = NotFound
  end.
Proof.
  unfold GetAvailableDevices. case_bool_decide as Hd; cbn; [done|]. split_and!; [done..|].
  intros name p. rewrite list_elem_of_In, in_concat.
  assert (∀ d, (name, p) ∈ device_ports d ↔ dv_opens d = true ∧ dv_name d = name ∧
    (1 ≤ p ≤ dv_ports d)%nat ∧ dv_active d p = true) as Hdev.
  { intros d. unfold device_ports, FindActivePorts. destruct (dv_opens d); [|rewrite elem_of_nil; split; [done|by intros [? _]]].
    assert ((name, p) ∈ map (λ p, (dv_name d, p)) (filter (λ i, dv_active d i = true) (seq 1 (dv_ports d))) ↔
      dv_name d = name ∧ (1 ≤ p ≤ dv_ports d)%nat ∧ dv_active d p = true) as Hmap.
    { rewrite list_elem_of_fmap. split.
      - intros (i & [= -> ->] & [Ha Hi]%list_elem_of_filter). apply elem_of_seq in Hi.
        split_and!; [done|lia|lia|done].
      - intros (<- & Hr & Ha). exists p. split; [done|]. apply list_elem_of_filter.
        split; [done|]. apply elem_of_seq. lia. }
    revert Hmap. destruct (filter (λ i, dv_active d i = true) (seq 1 (dv_ports d))) as [|x xs] eqn:E;
      intros Hmap; cbn in Hmap |- *; [rewrite elem_of_nil in *|rewrite Hmap]; tauto. }
  split.
  - intros (l & (d & <- & Hin)%in_map_iff & Hl).
    exists d. split; [by apply list_elem_of_In|]. by apply Hdev, list_elem_of_In.
  - intros (d & Hin & Hprops). exists (device_ports d).
    split; [|by apply list_elem_of_In, Hdev]. apply in_map_iff. exists d. split; [done|].
    by apply list_elem_of_In.
Qed.
