(* ===== verification/Shutdown.v ===== *)
(** * The end of a connection manager (rdma/connection_manager.h, rdma/broker.h)

    [~ConnectionManager()] runs while the listener thread is still handling events. The
    two are programs here that share the manager, the lock word and the flags; every test of a
    flag, every turn of [Acquire] and every critical section is a step, and so are the
    answers of the rdma_cm library. Connection ids are followed from the event that brings
    them to the [rdma_destroy_ep] that destroys them. *)
From S2P Require Import Prelude Status ConnectionManager Broker.

(** ** The critical sections of the callbacks *)
(** The body of [OnConnectRequest] under the lock, on a working device: whether the request is
    accepted, and the connections. *)
Definition request_section (event_id peer_id : Z) (c : ConnectionManager) : bool * ConnectionManager :=
  if bool_decide (is_Some (established_ c !! peer_id)) || bool_decide (peer_id ∈ requested_ c) then (false, c)
  else (true, set_established c (<[peer_id := mkConnection (my_id_ c) peer_id event_id]> (established_ c))).

(** The body of [OnDisconnect] after its [Acquire]. *)
Definition disconnect_section (event_id peer_id : Z) (c : ConnectionManager) : ConnectionManager :=
  match established_ c !! peer_id with
  | Some conn => if conn_id conn =? event_id then set_established c (delete peer_id (established_ c)) else c
  | None => c
  end.

(** ** The two programs *)
(** The listener: at the test of [terminate_], at the poll of the channel, in
    [OnConnectRequest] (before the test of [accepting_], at [Acquire], under the lock), in
    [OnDisconnect] (at [Acquire], under the lock), at [Release] with what follows, at the end
    of [OnDisconnect], and out of [Run]. *)
Inductive listener :=
| CheckFlag | Poll
| Request (e p : Z) | RequestLock (e p : Z) | RequestIn (e p : Z)
| DisconnectLock (e p : Z) | DisconnectIn (e p : Z)
| Unlock (next : option Z) | DisconnectEnd (e : Z)
| Returned.

(** The destructor: not called, at [Acquire], at [accepting_ = false], in [Stop] (setting
    the flag, then joining), in [cleanup] with the connections left, at [Release], at the
    [rdma_destroy_ep] of the listening id in [~RdmaBroker()], and returned. *)
Inductive dtor_pc :=
| NotCalled | Locking | Refusing | Stopping | JoiningListener
| Cleaning (l : list (Z * Connection)) | Releasing | ClosingListener | Closed.

(** What the library and the records it hands out know: events got and not acknowledged,
    ids handed out, the node id in an id's context, ids whose end has been reported. *)
Record library := mkLibrary {
  unacked : nat; seen : gset Z; context : gmap Z Z; down : gset Z }.

Record system := mkSystem {
  cm : ConnectionManager; br : RdmaBroker; loop : listener; dtor : dtor_pc; lib : library;
  gone : list Z;        (* ids in the order of their [rdma_destroy_ep] *)
  ignored : list Z;     (* ids of requests that found [accepting_] false *)
  channels : list Z     (* event channels destroyed *) }.

Definition set_cm (c : ConnectionManager) s := mkSystem c (br s) (loop s) (dtor s) (lib s) (gone s) (ignored s) (channels s).
Definition set_br (b : RdmaBroker) s := mkSystem (cm s) b (loop s) (dtor s) (lib s) (gone s) (ignored s) (channels s).
Definition at_loop (l : listener) s := mkSystem (cm s) (br s) l (dtor s) (lib s) (gone s) (ignored s) (channels s).
Definition at_dtor (d : dtor_pc) s := mkSystem (cm s) (br s) (loop s) d (lib s) (gone s) (ignored s) (channels s).
Definition set_lib (k : library) s := mkSystem (cm s) (br s) (loop s) (dtor s) k (gone s) (ignored s) (channels s).
Definition destroy_ep (e : Z) s := mkSystem (cm s) (br s) (loop s) (dtor s) (lib s) (gone s ++ [e]) (ignored s) (channels s).
Definition ignore (e : Z) s := mkSystem (cm s) (br s) (loop s) (dtor s) (lib s) (gone s) (ignored s ++ [e]) (channels s).
Definition destroy_channel (ch : Z) s := mkSystem (cm s) (br s) (loop s) (dtor s) (lib s) (gone s) (ignored s) (channels s ++ [ch]).

(** [rdma_get_cm_event] and [rdma_ack_cm_event]. *)
Definition got_event (k : library) : library := mkLibrary (S (unacked k)) (seen k) (context k) (down k).
Definition ack_event s : system := set_lib (mkLibrary (pred (unacked (lib s))) (seen (lib s)) (context (lib s)) (down (lib s))) s.
Definition new_id (e : Z) (k : library) : library := mkLibrary (unacked k) ({[e]} ∪ seen k) (context k) (down k).
Definition new_context (e p : Z) s : system :=
  set_lib (mkLibrary (unacked (lib s)) (seen (lib s)) (<[e := p]> (context (lib s))) (down (lib s))) s.
Definition report_end (e : Z) (k : library) : library := mkLibrary (unacked k) (seen k) (context k) ({[e]} ∪ down k).

Definition set_accepting (c : ConnectionManager) (a : bool) : ConnectionManager :=
  mkCM a (my_id_ c) (broker_ c) (mu_ c) (requested_ c) (established_ c) (backoff_us_ c) (loopback_id_ c).
Definition set_terminate (b : RdmaBroker) : RdmaBroker :=
  mkBroker (br_address b) (br_port b) true (br_running b) (br_status b) (br_listening b) (num_connections_ b).
Definition set_joined (b : RdmaBroker) : RdmaBroker :=
  mkBroker (br_address b) (br_port b) (terminate_ b) false (br_status b) (br_listening b) (num_connections_ b).
Definition close_listener (b : RdmaBroker) : RdmaBroker :=
  mkBroker (br_address b) (br_port b) (terminate_ b) (br_running b) (br_status b) false (num_connections_ b).

(** Of the library: whether destroying the listening id returns while [n] of its events
    are not acknowledged, and the event channel of an id. *)
Section programs.
Context (closable : nat → bool) (channel : Z → Z).

(** The listener's next steps: [HandleConnectionRequests] and the callbacks. Events that end the
    program and the node's requests to itself are in Broker.v only: a program that has ended
    does not shut down. *)
Inductive listener_step (s : system) : system → Prop :=
| ls_stop : loop s = CheckFlag → terminate_ (br s) = true → listener_step s (at_loop Returned s)
| ls_go : loop s = CheckFlag → terminate_ (br s) = false → listener_step s (at_loop Poll s)
| ls_again : loop s = Poll → listener_step s (at_loop CheckFlag s)
| ls_error : loop s = Poll →
    listener_step s (at_loop Returned (set_br (set_status (br s) (mkStatus InternalError (Some "rdma_get_cm_event(): "))) s))
| ls_timewait : loop s = Poll → listener_step s (at_loop CheckFlag s)
| ls_established : loop s = Poll →
    listener_step s (at_loop CheckFlag (set_br (set_connections (br s) (u32 (num_connections_ (br s) + 1))) s))
| ls_removal : loop s = Poll → listener_step s (at_loop CheckFlag (set_lib (got_event (lib s)) s))
| ls_request e p : loop s = Poll → e ∉ seen (lib s) → is_u 16 p → p ≠ my_id_ (cm s) →
    listener_step s (at_loop (Request e p) (set_lib (new_id e (got_event (lib s))) s))
| ls_ignored e p : loop s = Request e p → accepting_ (cm s) = false →
    listener_step s (at_loop CheckFlag (ignore e s))
| ls_accepting e p : loop s = Request e p → accepting_ (cm s) = true → listener_step s (at_loop (RequestLock e p) s)
| ls_refused e p : loop s = RequestLock e p → try_acquire (my_id_ (cm s)) (mu_ (cm s)) = GivenUp →
    listener_step s (at_loop CheckFlag (ack_event (destroy_ep e s)))
| ls_locked e p : loop s = RequestLock e p → try_acquire (my_id_ (cm s)) (mu_ (cm s)) = Taken →
    listener_step s (at_loop (RequestIn e p) (set_cm (set_mu (cm s) (to_i32 p)) s))
| ls_rejected e p : loop s = RequestIn e p → (request_section e p (cm s)).1 = false →
    listener_step s (at_loop (Unlock None) (ack_event (destroy_ep e s)))
| ls_accepted e p : loop s = RequestIn e p → (request_section e p (cm s)).1 = true →
    listener_step s (at_loop (Unlock None) (ack_event (new_context e p (set_cm (request_section e p (cm s)).2 s))))
| ls_disconnected e p : loop s = Poll → context (lib s) !! e = Some p → e ∉ down (lib s) →
    listener_step s (at_loop (DisconnectLock e p) (set_lib (report_end e (lib s)) s))
| ls_disc_locked e p : loop s = DisconnectLock e p → try_acquire (my_id_ (cm s)) (mu_ (cm s)) = Taken →
    listener_step s (at_loop (DisconnectIn e p) (set_cm (set_mu (cm s) (to_i32 p)) s))
| ls_disc_refused e p : loop s = DisconnectLock e p → try_acquire (my_id_ (cm s)) (mu_ (cm s)) = GivenUp →
    listener_step s (at_loop (DisconnectIn e p) s)
| ls_erased e p : loop s = DisconnectIn e p →
    listener_step s (at_loop (Unlock (Some e)) (set_cm (disconnect_section e p (cm s)) s))
| ls_unlocked k : loop s = Unlock k →
    listener_step s (at_loop (match k with None => CheckFlag | Some e => DisconnectEnd e end) (set_cm (Release (cm s)) s))
| ls_disc_end e : loop s = DisconnectEnd e →
    listener_step s (at_loop CheckFlag (destroy_channel (channel e) (destroy_ep e
                       (set_br (set_connections (br s) (u32 (num_connections_ (br s) - 1))) s)))).

(** The lambda [cleanup] on one connection: the context of an id made by a callback is
    freed, the channel of another is destroyed; the loopback id has neither. That the events
    pending on the id's own channel are taken and acknowledged before that changes nothing that is
    represented here. *)
Definition cleanup (iter : Z * Connection) (s : system) : system :=
  let id := conn_id iter.2 in
  let s' := destroy_ep id s in
  if iter.1 =? my_id_ (cm s) then s'
  else match context (lib s) !! id with Some _ => s' | None => destroy_channel (channel id) s' end.

(** The destructor's next step. *)
Inductive dtor_step (s : system) : system → Prop :=
| ds_call : dtor s = NotCalled → dtor_step s (at_dtor Locking s)
| ds_locked : dtor s = Locking → try_acquire (my_id_ (cm s)) (mu_ (cm s)) = Taken →
    dtor_step s (at_dtor Refusing (set_cm (set_mu (cm s) (to_i32 (my_id_ (cm s)))) s))
| ds_refused : dtor s = Locking → try_acquire (my_id_ (cm s)) (mu_ (cm s)) = GivenUp → dtor_step s (at_dtor Refusing s)
| ds_refuse : dtor s = Refusing → dtor_step s (at_dtor Stopping (set_cm (set_accepting (cm s) false) s))
| ds_stop : dtor s = Stopping → dtor_step s (at_dtor JoiningListener (set_br (set_terminate (br s)) s))
| ds_join : dtor s = JoiningListener → loop s = Returned →
    dtor_step s (at_dtor (Cleaning (map_to_list (established_ (cm s)))) (set_br (set_joined (br s)) s))
| ds_clean i l : dtor s = Cleaning (i :: l) → dtor_step s (at_dtor (Cleaning l) (cleanup i s))
| ds_cleaned : dtor s = Cleaning [] → dtor_step s (at_dtor Releasing s)
| ds_release : dtor s = Releasing → dtor_step s (at_dtor ClosingListener (set_cm (Release (cm s)) s))
| ds_close : dtor s = ClosingListener → closable (unacked (lib s)) = true →
    dtor_step s (at_dtor Closed (set_br (close_listener (br s)) s)).

Inductive system_step (s : system) : system → Prop :=
| sy_listener s' : listener_step s s' → system_step s s'
| sy_dtor s' : dtor_step s s' → system_step s s'.

(** ** The ids, the lock and the acknowledgements *)
Definition ids (c : ConnectionManager) : list Z := conn_id ∘ snd <$> map_to_list (established_ c).
(** Where an id is between its event and its destruction: with the listener, in the map
    (for the destructor: in what is left of it), destroyed or ignored. *)
Definition in_flight (l : listener) : list Z :=
  match l with Request e _ | RequestLock e _ | RequestIn e _ | Unlock (Some e) | DisconnectEnd e => [e] | _ => [] end.
Definition kept s : list Z :=
  match dtor s with
  | Cleaning l => conn_id ∘ snd <$> l
  | Releasing | ClosingListener | Closed => []
  | _ => ids (cm s)
  end.
Definition joined (d : dtor_pc) : bool :=
  match d with Cleaning _ | Releasing | ClosingListener | Closed => true | _ => false end.
Definition welcoming (d : dtor_pc) : bool := match d with NotCalled | Locking | Refusing => true | _ => false end.
Definition in_section (l : listener) : bool :=
  match l with RequestIn _ _ | DisconnectIn _ _ | Unlock _ => true | _ => false end.
Definition pending (l : listener) : nat := match l with Request _ _ | RequestLock _ _ | RequestIn _ _ => 1 | _ => 0 end.
Definition ending (l : listener) : option (Z * Z) :=
  match l with DisconnectLock e p | DisconnectIn e p => Some (e, p) | _ => None end.
Definition has_id (c : ConnectionManager) (p e : Z) : Prop := ∃ x, established_ c !! p = Some x ∧ conn_id x = e.

Record system_ok (my : Z) (s : system) : Prop := {
  so_my : my_id_ (cm s) = my ∧ is_u 16 my;
  so_ids : in_flight (loop s) ++ kept s ++ gone s ++ ignored s ≡ₚ elements (seen (lib s));
  so_context e p : context (lib s) !! e = Some p → e ∉ down (lib s) → has_id (cm s) p e;
  so_ending e p : ending (loop s) = Some (e, p) → e ∈ down (lib s) ∧ has_id (cm s) p e;
  so_lock : mu_ (cm s) = kUnlocked ∨ mu_ (cm s) = my ∨ in_section (loop s) = true;
  so_joined : joined (dtor s) = true → loop s = Returned;
  so_unacked : (length (ignored s) + pending (loop s) ≤ unacked (lib s))%nat;
  so_accepting : accepting_ (cm s) = welcoming (dtor s);
  so_stopped : dtor s = JoiningListener → terminate_ (br s) = true;
  so_closed : dtor s = Closed → closable (unacked (lib s)) = true }.

Lemma ids_same c c' : established_ c' = established_ c → ids c' = ids c.
Proof. unfold ids. by intros ->. Qed.

Lemma kept_map s : joined (dtor s) = false → kept s = ids (cm s).
Proof. unfold kept, joined. by destruct (dtor s). Qed.

Lemma listener_early my s : system_ok my s → loop s ≠ Returned → joined (dtor s) = false.
Proof. intros Hs Hl. destruct (joined (dtor s)) eqn:E; [|done]. by destruct Hl; apply (so_joined my s Hs). Qed.

(** What a step of the listener has to keep. *)
Lemma ok_listener my s s' : system_ok my s → joined (dtor s) = false →
  (dtor s', my_id_ (cm s'), accepting_ (cm s'), terminate_ (br s')) = (dtor s, my_id_ (cm s), accepting_ (cm s), terminate_ (br s)) →
  in_flight (loop s') ++ ids (cm s') ++ gone s' ++ ignored s' ≡ₚ elements (seen (lib s')) →
  (∀ e p, context (lib s') !! e = Some p → e ∉ down (lib s') → has_id (cm s') p e) →
  (∀ e p, ending (loop s') = Some (e, p) → e ∈ down (lib s') ∧ has_id (cm s') p e) →
  mu_ (cm s') = kUnlocked ∨ mu_ (cm s') = my ∨ in_section (loop s') = true →
  (length (ignored s') + pending (loop s') ≤ unacked (lib s'))%nat →
  system_ok my s'.
Proof.
  intros [] Hj [= Hd Hm Ha Ht] Hids Hc He Hl Hu. split; try done; try congruence.
  - by rewrite kept_map by congruence.
  - by rewrite Ht, Hd.
  - intros E. rewrite Hd in E. by rewrite E in Hj.
Qed.

Lemma section_accepts e p c : (request_section e p c).1 = true →
  established_ c !! p = None ∧ (request_section e p c).2 = set_established c (<[p := mkConnection (my_id_ c) p e]> (established_ c)).
Proof.
  unfold request_section. case_bool_decide as Hp; cbn; [done|]. case_bool_decide; cbn; [done|]. intros _. split; [|done].
  by apply eq_None_not_Some.
Qed.

Lemma section_erases e p c : has_id c p e → disconnect_section e p c = set_established c (delete p (established_ c)).
Proof. intros (x & Hx & <-). unfold disconnect_section. by rewrite Hx, Z.eqb_refl. Qed.

Lemma ids_insert c p x : established_ c !! p = None → ids (set_established c (<[p := x]> (established_ c))) ≡ₚ conn_id x :: ids c.
Proof. intros Hp. unfold ids. cbn. by rewrite map_to_list_insert by done. Qed.

Lemma ids_delete c p e : has_id c p e → e :: ids (set_established c (delete p (established_ c))) ≡ₚ ids c.
Proof. intros (x & Hx & <-). unfold ids. cbn. by rewrite <- (map_to_list_delete _ _ _ Hx). Qed.

Lemma listener_ok my s s' : system_ok my s → listener_step s s' → system_ok my s'.
Proof.
  intros Hs Hst. assert (loop s ≠ Returned) as Hn by (destruct Hst; congruence).
  pose proof (listener_early my s Hs Hn) as Hj.
  pose proof (so_ids my s Hs) as Hids. rewrite (kept_map _ Hj) in Hids.
  pose proof (so_context my s Hs) as Hc. pose proof (so_ending my s Hs) as He.
  pose proof (so_lock my s Hs) as Hl. pose proof (so_unacked my s Hs) as Hu.
  destruct Hst as [E|E|E|E|E|E|E|e p E Hf _ _|e p E Ha|e p E Ha|e p E Ht|e p E Ht|e p E Hr|e p E Hr|e p E Hx Hd|e p E Ht|e p E Ht|e p E|k E|e E];
    rewrite E in *; try (destruct (section_accepts _ _ _ Hr) as [Hp ->]);
    try rewrite (section_erases _ _ _ (proj2 (He _ _ eq_refl)));
    (eapply ok_listener; [exact Hs|exact Hj|reflexivity|..]); cbn in *; try exact Hc; try exact Hids; try done; try lia.
  - rewrite elements_union_singleton by done. by constructor.
  - rewrite <- Hids. solve_Permutation.
  - rewrite length_app. cbn. lia.
  - rewrite <- Hids. solve_Permutation.
  - rewrite <- Hids. solve_Permutation.
  - by rewrite (ids_insert (cm s)).
  - intros e' p' H Hd. apply lookup_insert_Some in H as [[<- <-]|[_ H]].
    + exists (mkConnection (my_id_ (cm s)) p e). split; [|done]. cbn. apply lookup_insert_eq.
    + destruct (Hc _ _ H Hd) as (x & Hx & Hid). exists x. split; [|done]. cbn. rewrite lookup_insert_ne; congruence.
  - intros e' p' H Hd'. apply Hc; [done|]. set_solver.
  - intros e' p' [= <- <-]. split; [set_solver|]. by apply Hc.
  - rewrite app_comm_cons, (ids_delete (cm s)); [done|]. by apply He.
  - intros e' p' H Hd. destruct (Hc _ _ H Hd) as (x & Hx & Hid), (He _ _ eq_refl) as [Hdown (y & Hy & Hid')].
    exists x. split; [|done]. cbn. rewrite lookup_delete_ne; [done|]. intros ->. by simplify_eq.
  - by destruct k.
  - by destruct k.
  - destruct k; cbn; lia.
  - rewrite <- Hids. solve_Permutation.
Qed.

Lemma cleanup_eq i s :
  cleanup i s = mkSystem (cm s) (br s) (loop s) (dtor s) (lib s) (gone s ++ [conn_id i.2]) (ignored s) (channels (cleanup i s)).
Proof. unfold cleanup. destruct (i.1 =? _); [done|]. by destruct (context (lib s) !! conn_id i.2). Qed.

Lemma dtor_ok my s s' : system_ok my s → dtor_step s s' → system_ok my s'.
Proof.
  intros Hs Hst. pose proof Hs as [[Hm Hsm] Hids Hc He Hl Hj Hu Ha Ht Hcl].
  destruct Hst as [E|E Hq|E Hq|E|E|E Hr|i l E|E|E|E Hq]; unfold kept in Hids; rewrite E in *; try rewrite cleanup_eq; split; cbn in *; try done.
  - right. left. rewrite Hm. by apply id_i32.
  - rewrite <- Hids. solve_Permutation.
  - by left.
Qed.

Lemma step_ok my s s' : system_ok my s → system_step s s' → system_ok my s'.
Proof. intros Hs [s1 H|s1 H]; [by eapply listener_ok|by eapply dtor_ok]. Qed.

(** A manager that is running, with the connections its own [Connect]s have made. *)
Definition system_new (c : ConnectionManager) (b : RdmaBroker) : system :=
  mkSystem c b CheckFlag NotCalled (mkLibrary 0 (list_to_set (ids c)) ∅ ∅) [] [] [].
Definition running (c : ConnectionManager) : Prop :=
  is_u 16 (my_id_ c) ∧ mu_ c = kUnlocked ∧ accepting_ c = true ∧ NoDup (ids c).

Lemma running_ok c b s : running c → star system_step (system_new c b) s → system_ok (my_id_ c) s.
Proof.
  intros (Hm & Hl & Ha & Hids). apply (star_invariant system_step (system_ok (my_id_ c))); [apply step_ok|].
  split; cbn; try done; try lia.
  - rewrite app_nil_r. by rewrite elements_list_to_set.
Qed.

(** C23: connection ids through the end of a manager. Whatever events arrive and however the
    destructor and the listener interleave, no connection id is destroyed twice, no id in the
    connection map has been destroyed before the clean-up, and when the destructor returns
    the listener thread has ended, every event it got is acknowledged and the ids destroyed
    are exactly those the library ever handed out or the manager had made. *)
Theorem shutdown_destroys_once c b s :
  running c → (∀ n, closable n = true → n = 0%nat) → star system_step (system_new c b) s →
  NoDup (gone s) ∧ (∀ p e, joined (dtor s) = false → has_id (cm s) p e → e ∉ gone s) ∧
  (dtor s = Closed → loop s = Returned ∧ unacked (lib s) = 0%nat ∧ gone s ≡ₚ elements (seen (lib s))).
Proof.
  intros Hrun Hz Hst. destruct (running_ok c b s Hrun Hst) as [[Hm Hsm] Hids Hc He Hl Hj Hu Ha Ht Hcl].
  pose proof (NoDup_elements (seen (lib s))) as Hnd. rewrite <- Hids in Hnd.
  apply NoDup_app in Hnd as (_ & _ & Hnd). apply NoDup_app in Hnd as (Hk & Hdis & Hnd).
  apply NoDup_app in Hnd as (Hg & _ & _). split; [done|]. split.
  - intros p e Hnj (x & Hx & <-) Hgone. rewrite kept_map in Hdis by done. apply (Hdis (conn_id x)); [|set_solver].
    unfold ids. apply list_elem_of_fmap. exists (p, x). split; [done|]. by apply elem_of_map_to_list.
  - intros Hd. pose proof (Hz _ (Hcl Hd)) as H0. rewrite H0 in Hu.
    assert (ignored s = []) as Hi by (destruct (ignored s); [done|cbn in Hu; lia]).
    rewrite Hd in Hj. specialize (Hj eq_refl). split; [done|]. split; [done|].
    unfold kept in Hids. rewrite Hd, Hj, Hi, app_nil_r in Hids. done.
Qed.

(** ** The destructor returns *)
(** Events got whose acknowledgement no step of the program will make. *)
Definition lost s : nat := unacked (lib s) - pending (loop s).
Definition resting (l : listener) : Prop := l = CheckFlag ∨ l = Returned.
(** The listener can get back to its test of the flag, losing no acknowledgement. *)
Definition settles s : Prop :=
  ∃ s', star system_step s s' ∧ resting (loop s') ∧ dtor s' = dtor s ∧ lost s' = 0%nat.

Lemma settles_step s s1 : listener_step s s1 → dtor s1 = dtor s → settles s1 → settles s.
Proof. intros Hs Hd (s' & Hst & Hr & Hd' & Hl). exists s'. split; [eapply star_step; [by left|done]|]. by rewrite Hd'. Qed.

Lemma settles_here s : resting (loop s) → lost s = 0%nat → settles s.
Proof. intros. exists s. eauto using star_refl. Qed.

Lemma settles_unlock s k : loop s = Unlock k → lost s = 0%nat → settles s.
Proof.
  intros E Hl. unfold lost in Hl. rewrite E in Hl. eapply settles_step; [by eapply ls_unlocked|done|]. destruct k as [e|].
  - eapply settles_step; [by eapply ls_disc_end|done|]. apply settles_here; [by left|exact Hl].
  - apply settles_here; [by left|exact Hl].
Qed.

Lemma settles_request s e p : loop s = RequestIn e p → lost s = 0%nat → settles s.
Proof.
  intros E Hl. unfold lost in Hl. rewrite E in Hl. cbn in Hl. destruct (request_section e p (cm s)).1 eqn:Er.
  - eapply settles_step; [by eapply ls_accepted|done|]. eapply settles_unlock; [done|]. unfold lost. cbn. lia.
  - eapply settles_step; [by eapply ls_rejected|done|]. eapply settles_unlock; [done|]. unfold lost. cbn. lia.
Qed.

Lemma try_cases my s : system_ok my s → in_section (loop s) = false →
  try_acquire (my_id_ (cm s)) (mu_ (cm s)) = Taken ∨ try_acquire (my_id_ (cm s)) (mu_ (cm s)) = GivenUp.
Proof.
  intros Hs Hn. destruct (so_my _ _ Hs) as [-> Hm], (so_lock _ _ Hs) as [->|[->|Hl]]; [by left| |congruence].
  right. unfold try_acquire. destruct Hm. destruct (Z.eqb_spec my kUnlocked) as [E|_]; [unfold kUnlocked in E; lia|].
  unfold u32. rewrite (wrap_small 32) by (unfold is_u; lia). by rewrite Z.eqb_refl.
Qed.

Lemma settles_lock my s e p : system_ok my s → loop s = RequestLock e p → lost s = 0%nat → settles s.
Proof.
  intros Hs E Hl. unfold lost in Hl. rewrite E in Hl. cbn in Hl.
  destruct (try_cases my s Hs) as [Ht|Ht]; [by rewrite E| |].
  - eapply settles_step; [by eapply ls_locked|done|].
    by eapply settles_request.
  - eapply settles_step; [by eapply ls_refused|done|]. apply settles_here; [by left|]. unfold lost. cbn. lia.
Qed.

Lemma settles_disconnect my s e p : system_ok my s → ending (loop s) = Some (e, p) → lost s = 0%nat → settles s.
Proof.
  intros Hs He Hl. unfold lost in Hl.
  assert (∀ s1, loop s1 = DisconnectIn e p → lost s1 = 0%nat → settles s1) as Hin.
  { intros s1 E1 Hl1. unfold lost in Hl1. rewrite E1 in Hl1.
    eapply settles_step; [by eapply ls_erased|done|]. by eapply settles_unlock. }
  destruct (loop s) eqn:E; try done; injection He as -> ->.
  - destruct (try_cases my s Hs) as [Ht|Ht]; [by rewrite E| |].
    + eapply settles_step; [by eapply ls_disc_locked|done|]. by apply Hin.
    + eapply settles_step; [by eapply ls_disc_refused|done|]. by apply Hin.
  - apply Hin; [done|]. unfold lost. by rewrite E.
Qed.

(** No request is about to be dropped: a request in hand has not seen the refusal. *)
Definition welcome s : Prop := ∀ e p, loop s = Request e p → accepting_ (cm s) = true.

Lemma listener_settles my s : system_ok my s → welcome s → lost s = 0%nat → settles s.
Proof.
  intros Hs Hw Hl. destruct (loop s) as [| |e p|e p|e p|e p|e p|k|e|] eqn:E.
  - apply settles_here; [by left|done].
  - eapply settles_step; [by eapply ls_again|done|]. apply settles_here; [by left|]. unfold lost in *. by rewrite E in Hl.
  - eapply settles_step; [eapply ls_accepting; [done|by eapply Hw]|done|].
    eapply (settles_lock my); [|done|].
    + apply (listener_ok my s); [done|]. eapply ls_accepting; [done|by eapply Hw].
    + unfold lost in *. by rewrite E in Hl.
  - by eapply settles_lock.
  - by eapply settles_request.
  - eapply settles_disconnect; [done| |done]. by rewrite E.
  - eapply settles_disconnect; [done| |done]. by rewrite E.
  - by eapply settles_unlock.
  - eapply settles_step; [by eapply ls_disc_end|done|]. apply settles_here; [by left|]. unfold lost in *. by rewrite E in Hl.
  - apply settles_here; [by right|done].
Qed.

Definition closes s : Prop := ∃ s', star system_step s s' ∧ dtor s' = Closed.

Lemma closes_step s s1 : system_step s s1 → closes s1 → closes s.
Proof. intros Hs (s' & Hst & Hd). exists s'. split; [by eapply star_step|done]. Qed.

Lemma closes_joined s : closable 0 = true → loop s = Returned → lost s = 0%nat → joined (dtor s) = true → closes s.
Proof.
  intros Hc Hr Hl Hj.
  assert (∀ s1, loop s1 = Returned → lost s1 = 0%nat → dtor s1 = ClosingListener → closes s1) as H1.
  { intros s1 Hr1 Hl1 E. eapply closes_step; [apply sy_dtor, ds_close; [done|]|by eexists; split; [apply star_refl|]].
    unfold lost in Hl1. rewrite Hr1, Nat.sub_0_r in Hl1. by rewrite Hl1. }
  assert (∀ s1, loop s1 = Returned → lost s1 = 0%nat → dtor s1 = Releasing → closes s1) as H2.
  { intros s1 Hr1 Hl1 E. eapply closes_step; [by apply sy_dtor, ds_release|]. by apply H1. }
  assert (∀ l s1, loop s1 = Returned → lost s1 = 0%nat → dtor s1 = Cleaning l → closes s1) as H3.
  { induction l as [|i l IH]; intros s1 Hr1 Hl1 E.
    - eapply closes_step; [by apply sy_dtor, ds_cleaned|]. by apply H2.
    - eapply closes_step; [by eapply sy_dtor, ds_clean|]. rewrite cleanup_eq. by apply IH. }
  destruct (dtor s) eqn:E; try done; [by eapply H3|by apply H2|by apply H1|].
  exists s. split; [apply star_refl|done].
Qed.

Lemma closes_resting my s : closable 0 = true → system_ok my s → resting (loop s) → lost s = 0%nat → closes s.
Proof.
  intros Hc Hs Hr Hl. destruct (joined (dtor s)) eqn:Hj; [apply closes_joined; [done|by apply (so_joined my s)|done..]|].
  assert (∀ s1, resting (loop s1) → lost s1 = 0%nat → terminate_ (br s1) = true → dtor s1 = JoiningListener → closes s1) as H1.
  { assert (∀ s1, loop s1 = Returned → lost s1 = 0%nat → dtor s1 = JoiningListener → closes s1) as H0.
    { intros s1 Hr1 Hl1 E. eapply closes_step; [by apply sy_dtor, ds_join|]. by apply closes_joined. }
    intros s1 [Hr1|Hr1] Hl1 Ht E; [|by apply H0].
    eapply closes_step; [by apply sy_listener, ls_stop|]. apply H0; [done| |done]. unfold lost in *. by rewrite Hr1 in Hl1. }
  assert (∀ s1, resting (loop s1) → lost s1 = 0%nat → dtor s1 = Stopping → closes s1) as H2.
  { intros s1 Hr1 Hl1 E. eapply closes_step; [by apply sy_dtor, ds_stop|]. by apply H1. }
  assert (∀ s1, resting (loop s1) → lost s1 = 0%nat → dtor s1 = Refusing → closes s1) as H3.
  { intros s1 Hr1 Hl1 E. eapply closes_step; [by apply sy_dtor, ds_refuse|]. by apply H2. }
  assert (∀ s1, system_ok my s1 → resting (loop s1) → lost s1 = 0%nat → dtor s1 = Locking → closes s1) as H4.
  { intros s1 Hs1 Hr1 Hl1 E. destruct (try_cases my s1 Hs1) as [Ht|Ht]; [by destruct Hr1 as [->| ->]| |].
    - eapply closes_step; [by apply sy_dtor, ds_locked|]. by apply H3.
    - eapply closes_step; [by apply sy_dtor, ds_refused|]. by apply H3. }
  destruct (dtor s) eqn:E; try done.
  - eapply closes_step; [by apply sy_dtor, ds_call|]. apply H4; try done. by apply (dtor_ok my s), ds_call.
  - by apply H4.
  - by apply H3.
  - by apply H2.
  - apply H1; try done. by apply (so_stopped my s).
Qed.

(** C24: a manager's destructor can always come to its end. From every state its destructor
    and its listener reach - a request half admitted, a disconnection half handled, the lock
    with the listener - as long as no connection request has been dropped unacknowledged and none
    is about to be, the two can go on to the state in which the destructor has returned: neither
    waits for the other for ever. *)
Theorem shutdown_returns c b s :
  running c → closable 0 = true → star system_step (system_new c b) s → welcome s → lost s = 0%nat →
  ∃ s', star system_step s s' ∧ dtor s' = Closed.
Proof.
  intros Hrun Hc Hst Hw Hl. pose proof (running_ok c b s Hrun Hst) as Hs.
  destruct (listener_settles _ s Hs Hw Hl) as (s1 & Hst1 & Hr & _ & Hl1).
  assert (system_ok (my_id_ c) s1) as Hs1.
  { eapply (star_invariant system_step (system_ok (my_id_ c))); [apply step_ok|exact Hs|done]. }
  destruct (closes_resting _ s1 Hc Hs1 Hr Hl1) as (s' & Hst' & Hd). exists s'. split; [by eapply star_trans|done].
Qed.

(** ** A request that comes too late *)
Lemma lost_kept my s s' : system_ok my s → system_step s s' → (lost s ≤ lost s')%nat.
Proof.
  intros Hs Hst. pose proof (so_unacked my s Hs) as Hu. unfold lost in *.
  destruct Hst as [s' [E|E|E|E|E|E|E|e p E Hf _ _|e p E Ha|e p E Ha|e p E Ht|e p E Ht|e p E Hr|e p E Hr|e p E Hx Hd|e p E Ht|e p E Ht|e p E|k E|e E]
    |s' [E|E Hq|E Hq|E|E|E Hr|i l E|E|E|E Hq]]; rewrite ?E in *; try rewrite cleanup_eq; cbn in *; try lia.
  destruct k; cbn; lia.
Qed.

(** A late connection request blocks the end. [OnConnectRequest] returns without an
    acknowledgement when [accepting_] is false, and a device removal is not acknowledged either.
    On a library that destroys an id only once its events are acknowledged, no continuation of
    a run in which that has happened lets the destructor return. *)
Theorem late_request_hangs c b s s' :
  running c → (∀ n, closable n = true → n = 0%nat) → star system_step (system_new c b) s → (0 < lost s)%nat →
  star system_step s s' → dtor s' ≠ Closed.
Proof.
  intros Hrun Hz Hst Hl Hst' Hd. pose proof (running_ok c b s Hrun Hst) as Hs.
  assert (system_ok (my_id_ c) s' ∧ (0 < lost s')%nat) as [Hs' Hl'].
  { eapply (star_invariant system_step (λ s, system_ok (my_id_ c) s ∧ (0 < lost s)%nat)); [|by split|exact Hst'].
    intros s1 s2 [H1 H2] Hs12. split; [by eapply step_ok|]. pose proof (lost_kept _ _ _ H1 Hs12). lia. }
  pose proof (Hz _ (so_closed _ _ Hs' Hd)) as H0. unfold lost in Hl'. rewrite H0 in Hl'. cbn in Hl'. lia.
Qed.

(** ** The callbacks without interruption *)
Lemma request_sections e p c : p ≠ my_id_ c → accepting_ c = true →
  OnConnectRequest e p 0 0 c =
    match try_acquire (my_id_ c) (mu_ c) with
    | Spin => Fault FFuel
    | GivenUp => Done (Rejected, c)
    | Taken => let c' := set_mu c (to_i32 p) in
        Done (if (request_section e p c').1 then Accepted (mkConnection (my_id_ c) p e) else Rejected,
              Release (request_section e p c').2)
    end.
Proof.
  intros Hp Ha. unfold OnConnectRequest, Acquire, request_section. rewrite Ha, (proj2 (Z.eqb_neq _ _) Hp). cbn [negb].
  destruct (try_acquire _ _); [|done..]. rewrite bind_done. cbn [negb].
  case_bool_decide as H1; [done|]. case_bool_decide; [done|]. cbn [orb rome_assert Z.eqb].
  rewrite bind_done. unfold emplace_new. cbn [established_ set_mu] in *. apply eq_None_not_Some in H1. by rewrite H1.
Qed.

Lemma disconnect_sections e p c :
  OnDisconnect e p c =
    match try_acquire (my_id_ c) (mu_ c) with
    | Spin => Fault FFuel
    | GivenUp => Done (Release (disconnect_section e p c))
    | Taken => Done (Release (disconnect_section e p (set_mu c (to_i32 p))))
    end.
Proof. unfold OnDisconnect, Acquire. by destruct (try_acquire _ _). Qed.

(** An event of the sequential model as the listener can meet it here. *)
Definition meets (ev : listen_event) s : Prop :=
  match ev with
  | EvConnectRequest e p q a => e ∉ seen (lib s) ∧ is_u 16 p ∧ p ≠ my_id_ (cm s) ∧ q = 0 ∧ a = 0
  | EvDisconnected e p => context (lib s) !! e = Some p ∧ e ∉ down (lib s)
  | EvEstablished | EvTimewaitExit | EvDeviceRemoval => True
  | _ => False
  end.

(** The handler of [Broker.v] is the listener's steps taken without interruption. *)
Theorem handle_event_steps ev s b' c' :
  loop s = Poll → meets ev s → handle_event ev (br s) (cm s) = Done (b', c') →
  ∃ s', star listener_step s s' ∧ loop s' = CheckFlag ∧ br s' = b' ∧ cm s' = c' ∧ dtor s' = dtor s.
Proof.
  intros E Hm Hh. destruct ev as [| | | |e p q a| |e p| |]; try done; cbn in Hm, Hh.
  - injection Hh as <- <-. eexists. split; [apply star_one, ls_timewait; done|done].
  - destruct Hm as (Hf & Hp & Hne & -> & ->). destruct (accepting_ (cm s)) eqn:Ha.
    + rewrite request_sections in Hh by done. destruct (try_acquire _ _) eqn:Ht; cbn in Hh; [| |done].
      * destruct (request_section e p (set_mu (cm s) (to_i32 p))).1 eqn:Er; injection Hh as <- <-;
          (eexists; split; [eapply star_step; [by eapply ls_request|]; eapply star_step; [by eapply ls_accepting|];
             eapply star_step; [by eapply ls_locked|]; eapply star_step; [first [by eapply ls_accepted|by eapply ls_rejected]|];
             by eapply star_one, ls_unlocked|]); try done.
        unfold request_section in *. cbn in *. by destruct (_ || _).
      * injection Hh as <- <-. eexists. split; [eapply star_step; [by eapply ls_request|];
          eapply star_step; [by eapply ls_accepting|]; by eapply star_one, ls_refused|done].
    + unfold OnConnectRequest in Hh. rewrite Ha in Hh. injection Hh as <- <-.
      eexists. split; [eapply star_step; [by eapply ls_request|]; by eapply star_one, ls_ignored|done].
  - injection Hh as <- <-. eexists. split; [by apply star_one, ls_established|done].
  - destruct Hm as [Hx Hd]. rewrite disconnect_sections in Hh. destruct (try_acquire _ _) eqn:Ht; cbn in Hh; [| |done];
      injection Hh as <- <-; (eexists; split; [eapply star_step; [by eapply ls_disconnected|];
        eapply star_step; [first [by eapply ls_disc_locked|by eapply ls_disc_refused]|]; eapply star_step; [by eapply ls_erased|];
        eapply star_step; [by eapply ls_unlocked|]; by eapply star_one, ls_disc_end|done]).
  - injection Hh as <- <-. eexists. split; [by apply star_one, ls_removal|done].
Qed.

(** ** The channel of an accepted id *)
(** After one request and its disconnection the listener polls again, and the event channel
    of the accepted id has been destroyed. The library creates that id on the channel of the
    listening id, so it is the channel being polled. *)
Theorem accepted_channel_destroyed c b e p :
  running c → terminate_ b = false → e ∉ ids c → is_u 16 p → p ≠ my_id_ c → established_ c !! p = None → p ∉ requested_ c →
  ∃ s, star system_step (system_new c b) s ∧ loop s = Poll ∧ dtor s = NotCalled ∧ channels s = [channel e].
Proof.
  intros (Hm & Hl & Ha & _) Ht He Hp Hne Hmap Hreq.
  assert (∀ s1 s2, star listener_step s1 s2 → star system_step s1 s2) as Hstar.
  { induction 1; [apply star_refl|]. eapply star_step; [by left|done]. }
  eexists. split; [apply Hstar|].
  - eapply star_step; [by apply ls_go|]. eapply star_step; [eapply (ls_request _ e p); cbn; [done|set_solver|done..]|].
    eapply star_step; [by eapply ls_accepting|]. eapply star_step; [eapply ls_locked; [done|cbn; by rewrite Hl]|].
    eapply star_step; [eapply ls_accepted; [done|]|].
    { unfold request_section. cbn. rewrite Hmap. rewrite bool_decide_eq_false_2 by (by intros [? [=]]).
      by rewrite bool_decide_eq_false_2. }
    eapply star_step; [by eapply ls_unlocked|]. eapply star_step; [by eapply ls_go|].
    eapply star_step; [eapply (ls_disconnected _ e p); cbn; [done|apply lookup_insert_eq|set_solver]|].
    eapply star_step; [eapply ls_disc_locked; [done|reflexivity]|]. eapply star_step; [by eapply ls_erased|].
    eapply star_step; [by eapply ls_unlocked|]. eapply star_step; [by eapply ls_disc_end|]. by apply star_one, ls_go.
  - done.
Qed.
End programs.

(** ** Runs *)
(** Node 2 with no connection yet, on a library that waits for acknowledgements. *)
Definition all_acked (n : nat) : bool := Nat.eqb n 0.
Definition ex_system : system := system_new ex_cm0 RdmaBroker_new.
Definition ex_steps := star (system_step all_acked id) ex_system.

Lemma ex_running : running ex_cm0.
Proof. split; [by vm_compute|]. split; [done|]. split; [done|]. apply NoDup_nil_2. Defined.
Lemma all_acked_zero n : all_acked n = true → n = 0%nat.
Proof. apply Nat.eqb_eq. Defined.

(** Node 5 connects; the destructor is called while its request is being admitted, and
    disconnects it. *)
Ltac listen k := eapply star_step; [apply sy_listener; k; try reflexivity|].
Ltac tear k := eapply star_step; [apply sy_dtor; k; try reflexivity|].

Lemma ex_admitting : ∃ s, ex_steps s ∧ loop s = RequestIn 100 5 ∧ dtor s = Locking ∧ lost s = 0%nat.
Proof.
  eexists. split.
  - listen ltac:(apply ls_go). listen ltac:(apply (ls_request _ _ 100 5); [reflexivity|by apply (bool_decide_unpack _)|by vm_compute|discriminate]).
    listen ltac:(eapply ls_accepting). listen ltac:(eapply ls_locked). tear ltac:(apply ds_call). apply star_refl.
  - done.
Defined.

Lemma ex_closed : ∃ s, ex_steps s ∧ dtor s = Closed ∧ gone s = [100].
Proof.
  eexists. split.
  - listen ltac:(apply ls_go). listen ltac:(apply (ls_request _ _ 100 5); [reflexivity|by apply (bool_decide_unpack _)|by vm_compute|discriminate]).
    listen ltac:(eapply ls_accepting). listen ltac:(eapply ls_locked). listen ltac:(eapply ls_accepted).
    tear ltac:(apply ds_call). listen ltac:(eapply ls_unlocked). tear ltac:(apply ds_locked). tear ltac:(apply ds_refuse).
    tear ltac:(apply ds_stop). listen ltac:(apply ls_stop). tear ltac:(apply ds_join).
    tear ltac:(apply (ds_clean _ _ _ (5, mkConnection 2 5 100) [])). tear ltac:(apply ds_cleaned).
    tear ltac:(apply ds_release). tear ltac:(apply ds_close). apply star_refl.
  - done.
Defined.

(** A request that is read before and tested after [accepting_] becomes false. *)
Lemma ex_late : ∃ s, ex_steps s ∧ lost s = 1%nat.
Proof.
  eexists. split.
  - listen ltac:(apply ls_go). listen ltac:(apply (ls_request _ _ 100 5); [reflexivity|by apply (bool_decide_unpack _)|by vm_compute|discriminate]).
    tear ltac:(apply ds_call). tear ltac:(apply ds_locked). tear ltac:(apply ds_refuse). listen ltac:(eapply ls_ignored). apply star_refl.
  - done.
Defined.

Lemma shutdown_destroys_once_witness : ∃ s, ex_steps s ∧ dtor s = Closed ∧ gone s = [100] ∧ gone s ≡ₚ elements (seen (lib s)).
Proof.
  destruct ex_closed as (s & Hs & Hd & Hg). exists s. split; [exact Hs|]. split; [exact Hd|]. split; [exact Hg|].
  destruct (shutdown_destroys_once all_acked id ex_cm0 RdmaBroker_new s ex_running all_acked_zero Hs) as (_ & _ & H).
  by apply (H Hd).
Defined.

Lemma shutdown_returns_witness : ∃ s, ex_steps s ∧ dtor s = Locking ∧ ∃ s', star (system_step all_acked id) s s' ∧ dtor s' = Closed.
Proof.
  destruct ex_admitting as (s & Hs & Hl & Hd & H0). exists s. split; [exact Hs|]. split; [exact Hd|].
  apply (shutdown_returns all_acked id ex_cm0 RdmaBroker_new s ex_running eq_refl Hs); [|exact H0].
  intros e p E. rewrite Hl in E. discriminate E.
Defined.

Lemma late_request_hangs_witness : ∃ s, ex_steps s ∧ lost s = 1%nat ∧ ∀ s', star (system_step all_acked id) s s' → dtor s' ≠ Closed.
Proof.
  destruct ex_late as (s & Hs & Hl). exists s. split; [exact Hs|]. split; [exact Hl|]. intros s'.
  apply (late_request_hangs all_acked id ex_cm0 RdmaBroker_new s s' ex_running all_acked_zero Hs). rewrite Hl. exact Nat.lt_0_1.
Defined.
