(* ===== verification/IhtRdma.v ===== *)
(** * [RdmaIHT] (iht/iht_ds.h): the interlocked hash table over one-sided RDMA

    Data, hashing, the PList caches and the operations. One client's traversal
    ([do_with]) is a step function: each step performs at most one access to the
    shared memory, so that the sequential runs and the interleavings of several
    clients are built from the same definition. *)
From S2P Require Import Prelude RemotePtr.

(** State of a bucket. *)
Definition E_LOCKED : Z := 1.
Definition E_UNLOCKED : Z := 2.
Definition P_UNLOCKED : Z := 3.

(** [sizeof(plist_pair_t)] *)
Definition sizeof_plist_pair : Z := 16.

(** A [plist_pair_t]: pointer-lock pair. *)
Record plist_pair_t := mkBucket { base : remote_ptr; lock : Z }.

(** A [PList] of any level: its array of buckets. *)
Abbreviation PList := (list plist_pair_t).

(** Address of the lock and of the base pointer of a bucket. *)
Definition get_lock (arr_start : remote_ptr) (index : Z) : remote_ptr :=
  mk_ptr (u16 (id arr_start)) (u64 (address arr_start + sizeof_plist_pair * index + 8)).
Definition get_baseptr (arr_start : remote_ptr) (index : Z) : remote_ptr :=
  mk_ptr (u16 (id arr_start)) (u64 (address arr_start + sizeof_plist_pair * index)).

(** [InitPList]: [PLIST_SIZE * mult_modder] free buckets. *)
Definition InitPList (PLIST_SIZE mult_modder : nat) : PList :=
  replicate (PLIST_SIZE * mult_modder) (mkBucket remote_nullptr E_UNLOCKED).

(** The finalizer of [level_hash] (mix13 on 64-bit words). *)
Definition mix13 (x : Z) : Z :=
  let x := Z.lxor x (Z.shiftr x 33) in
  let x := u64 (x * 0xff51afd7ed558ccd) in
  let x := Z.lxor x (Z.shiftr x 33) in
  let x := u64 (x * 0xc4ceb9fe1a85ec53) in
  Z.lxor x (Z.shiftr x 33).

(** [CachedRDMA<PList>]: a private copy of [size] times the first level's bytes,
    or a pointer to a cache entry (layer, index). *)
Inductive plist_source :=
| Fetched (size : Z)
| FromCache (layer idx : nat).
Record CachedPList := mkCached { cp_plist : PList; cp_source : plist_source }.

(** The three cache layers: [None] is an entry whose [is_cached] flag is false. *)
Record caches := mkCaches { layers : list (list (option PList)) }.

(** [RdmaIHT] constructor: empty caches; PLists must fill whole cache lines. *)
Definition RdmaIHT_new (PLIST_SIZE : nat) : result caches :=
  if negb ((Z.of_nat PLIST_SIZE * sizeof_plist_pair) mod 64 =? 0) then Fault FAbort else
  Done (mkCaches [ replicate 1 None; replicate PLIST_SIZE None;
                   replicate (PLIST_SIZE * PLIST_SIZE * 2) None ]).

Definition bucket_path_init : list Z := replicate 8 (-1).

(** [sizes[i]] of [fetch_cache] and [try_cache]. *)
Definition sizes (PLIST_SIZE i : nat) : Z :=
  match i with
  | O => 1
  | 1%nat => Z.of_nat PLIST_SIZE
  | _ => 2 * Z.of_nat PLIST_SIZE * Z.of_nat PLIST_SIZE
  end.

(** The common loop of [fetch_cache] and [try_cache]: the layer and index of a
    bucket path and the bucket count of that level, or [None] at [cache_depth_]. *)
Fixpoint cache_slot (PLIST_SIZE cache_depth_ : nat) (path : list Z) (i : nat)
    (bucket_of_cache : Z) (count : Z) : option (nat * Z * Z) :=
  match path with
  | [] => Some (pred i, bucket_of_cache, count)
  | b :: path' =>
      if bool_decide (i = cache_depth_) then None
      else if b =? -1 then Some (i, bucket_of_cache, count)
      else cache_slot PLIST_SIZE cache_depth_ path' (S i)
             (bucket_of_cache * sizes PLIST_SIZE i + b) (count * 2)
  end.

Definition slot_of (PLIST_SIZE cache_depth_ : nat) (path : list Z) : option (nat * Z * Z) :=
  cache_slot PLIST_SIZE cache_depth_ path 0 0 (Z.of_nat PLIST_SIZE).

Definition cache_lookup (c : caches) (layer : nat) (idx : Z) : result (option PList) :=
  l ← defined (layers c !! layer); defined (l !! Z.to_nat idx).
Definition cache_store (c : caches) (layer : nat) (idx : Z) (pl : PList) : caches :=
  mkCaches (alter (λ l, <[Z.to_nat idx := Some pl]> l) layer (layers c)).

(** [fetch_cache(bucket_path)] *)
Definition fetch_cache (PLIST_SIZE cache_depth_ : nat) (c : caches) (path : list Z)
    : result (option CachedPList) :=
  match slot_of PLIST_SIZE cache_depth_ path with
  | None => Done None
  | Some (layer, idx, _) =>
      o ← cache_lookup c layer idx;
      Done (match o with
            | Some pl => Some (mkCached pl (FromCache layer (Z.to_nat idx)))
            | None => None end)
  end.

(** [try_cache(root_ptr, bucket_path)]: the new caches, and whether it stored. *)
Definition try_cache (PLIST_SIZE cache_depth_ : nat) (c : caches) (pl : PList) (path : list Z)
    : result (caches * bool) :=
  match slot_of PLIST_SIZE cache_depth_ path with
  | None => Done (c, false)
  | Some (layer, idx, count) =>
      o ← cache_lookup c layer idx;
      match o with
      | Some _ => Done (c, false)
      | None =>
          if forallb (λ b, lock b =? P_UNLOCKED) (take (Z.to_nat (count - 1)) pl)
          then Done (cache_store c layer idx (take (Z.to_nat count) pl), true)
          else Done (c, false)
      end
  end.

Section iht.
Context {K V : Type} `{EqDecision K}.
Context (to_num : K → Z).                        (* std::hash<K> *)
Context (ELIST_SIZE PLIST_SIZE cache_depth_ : nat).
Context (self_id : Z).

Abbreviation pair_t := (K * V)%type.

(** An [EList]: its live count and its array; [None] is uninitialised. *)
Record EList := mkEList { count : nat; pairs : list (option pair_t) }.

Inductive obj := OElist (e : EList) | OPlist (p : PList).
Abbreviation memory := (gmap remote_ptr obj).

(** [pool->Allocate] and the contents an [EList] block has when it is handed out
    (the allocator clears recycled blocks, and nothing clears fresh ones). *)
Context (palloc : memory → remote_ptr) (raw_elist : EList).

Definition is_local (p : remote_ptr) : bool := id p =? self_id.

Definition level_hash (key : K) (level count : Z) : Z :=
  mix13 (Z.lxor (to_num key) level) mod (count - 1).

(** [elist_insert]: writing past the array is undefined. *)
Definition elist_insert (e : EList) (kv : pair_t) : result EList :=
  if bool_decide (count e < length (pairs e))%nat then
    Done (mkEList (S (count e)) (<[count e := Some kv]> (pairs e)))
  else Fault FUndef.

(** [e->pairs[i]] *)
Definition pair_at (e : EList) (i : nat) : result pair_t :=
  o ← defined (pairs e !! i); defined o.

(** Typed reads of the shared memory. *)
Definition read_elist (m : memory) (p : remote_ptr) : result EList :=
  match m !! p with Some (OElist e) => Done e | _ => Fault FUndef end.
Definition read_plist (m : memory) (p : remote_ptr) : result PList :=
  match m !! p with Some (OPlist pl) => Done pl | _ => Fault FUndef end.

Definition write_bucket (m : memory) (p : remote_ptr) (i : nat)
    (f : plist_pair_t → plist_pair_t) : result memory :=
  pl ← read_plist m p;
  b ← defined (pl !! i);
  Done (<[p := OPlist (<[i := f b]> pl)]> m).

(** [change_bucket_pointer] (an RDMA write or a local store) and [unlock]. *)
Definition change_bucket_pointer (m : memory) (list_start : remote_ptr) (bucket : nat)
    (baseptr : remote_ptr) : result memory :=
  write_bucket m list_start bucket (λ b, mkBucket baseptr (lock b)).
(** The write is posted without acknowledgement; here it takes effect at once ([QueuePair.v]
    has the delay). *)
Definition unlock (m : memory) (list_start : remote_ptr) (bucket : nat)
    (unlock_status : Z) : result memory :=
  write_bucket m list_start bucket (λ b, mkBucket (base b) unlock_status).

(** One compare-and-swap of [acquire] on the bucket's lock word: the old value. *)
Definition cas_lock (m : memory) (list_start : remote_ptr) (bucket : nat)
    (expected swap : Z) : result (Z * memory) :=
  pl ← read_plist m list_start;
  b ← defined (pl !! bucket);
  if lock b =? expected then
    Done (lock b, <[list_start := OPlist (<[bucket := mkBucket (base b) swap]> pl)]> m)
  else Done (lock b, m).

(** The redistribution loop of [rehash]: pairs [i, count) of [source]. *)
Fixpoint rehash_loop (n i : nat) (source : EList) (new_p : remote_ptr)
    (level pcount : Z) (m : memory) : result memory :=
  match n with
  | O => Done m
  | S n' =>
      kv ← pair_at source i;
      let b := Z.to_nat (level_hash kv.1 level pcount) in
      pl ← read_plist m new_p;
      bk ← defined (pl !! b);
      '(m, dest) ← (if is_null (base bk) then
                 let e := palloc m in
                 let m := <[e := OElist raw_elist]> m in
                 Done (<[new_p := OPlist (<[b := mkBucket e E_UNLOCKED]> pl)]> m, e)
               else Done (m, base bk) : result (memory * remote_ptr));
      el ← read_elist m dest;
      el' ← elist_insert el kv;
      rehash_loop n' (S i) source new_p level pcount (<[dest := OElist el']> m)
  end.

(** [rehash(pool, parent, pcount, pdepth, pidx)]: the new PList and the memory.
    [Deallocate] frees the source itself when it is local, and otherwise only
    the private copy that was read. *)
Definition rehash (m : memory) (parent : PList) (pcount pdepth : Z) (pidx : nat)
    : result (remote_ptr * memory) :=
  let pcount := pcount * 2 in
  let plist_size_factor := Z.to_nat (pcount / Z.of_nat PLIST_SIZE) in
  let new_p := palloc m in
  let m := <[new_p := OPlist (InitPList PLIST_SIZE plist_size_factor)]> m in
  pb ← defined (parent !! pidx);
  source ← read_elist m (base pb);
  m ← rehash_loop (count source) 0 source new_p (pdepth + 1) pcount m;
  Done (new_p, if is_local (base pb) then delete (base pb) m else m).

(** ** The three operations applied to the locked bucket *)
Inductive op := Contains | Insert (v : V) | Remove.

(** The descent context the operations see. *)
Record descent_context := mkCtx {
  c_e : option EList;                   (* [None]: [e] is null *)
  c_bucket_base : remote_ptr;
  c_depth : Z;
  c_count : Z;
  c_bucket : nat;
  c_parent_ptr : remote_ptr;
  c_curr : CachedPList }.

(** Linear search from index [i] over [n] pairs: position and pair of the key. *)
Fixpoint search (key : K) (e : EList) (n i : nat) : result (option (nat * pair_t)) :=
  match n with
  | O => Done None
  | S n' =>
      kv ← pair_at e i;
      if bool_decide (kv.1 = key) then Done (Some (i, kv)) else search key e n' (S i)
  end.

Definition apply_contains (m : memory) (key : K) (ctx : descent_context)
    : result (option V) :=
  match c_e ctx with
  | None => Done None
  | Some e =>
      found ← search key e (count e) 0;
      Done (match found with Some (_, kv) => Some kv.2 | None => None end)
  end.

(** The loop of [remove]: it keeps scanning after a removal, with the count as
    it stands ([e] and [result] are updated in place). *)
Fixpoint remove_loop (fuel : nat) (key : K) (e : EList) (i : nat) (res : option V)
    : result (EList * option V) :=
  match fuel with
  | O => Done (e, res)
  | S f =>
      if bool_decide (i < count e)%nat then
        kv ← pair_at e i;
        if bool_decide (kv.1 = key) then
          e' ← (if bool_decide (1 < count e)%nat then
                  last ← defined (pairs e !! pred (count e));
                  Done (mkEList (count e) (<[i := last]> (pairs e)))
                else Done e);
          remove_loop f key (mkEList (pred (count e')) (pairs e')) (S i) (Some kv.2)
        else remove_loop f key e (S i) res
      else Done (e, res)
  end.

(** What [apply] returns: memory, context, result, and whether it is finished. *)
Definition apply (m : memory) (key : K) (o : op) (ctx : descent_context)
    : result (memory * descent_context * option V * bool) :=
  match o with
  | Contains => r ← apply_contains m key ctx; Done (m, ctx, r, true)
  | Insert value =>
      match c_e ctx with
      | None =>
          let e_new := palloc m in
          e ← elist_insert (mkEList 0 (pairs raw_elist)) (key, value);
          m ← change_bucket_pointer (<[e_new := OElist e]> m)
                (c_parent_ptr ctx) (c_bucket ctx) e_new;
          Done (m, ctx, None, true)
      | Some e =>
          found ← search key e (count e) 0;
          match found with
          | Some (_, kv) => Done (m, ctx, Some kv.2, true)
          | None =>
              if bool_decide (count e < ELIST_SIZE)%nat then
                e' ← elist_insert e (key, value);
                Done (<[c_bucket_base ctx := OElist e']> m, ctx, None, true)
              else
                '(p, m) ← rehash m (cp_plist (c_curr ctx)) (c_count ctx) (c_depth ctx) (c_bucket ctx);
                m ← change_bucket_pointer m (c_parent_ptr ctx) (c_bucket ctx) p;
                let curr := c_curr ctx in
                let curr' := mkCached (<[c_bucket ctx := mkBucket p P_UNLOCKED]> (cp_plist curr))
                                      (cp_source curr) in
                Done (m, mkCtx (c_e ctx) (c_bucket_base ctx) (c_depth ctx) (c_count ctx)
                           (c_bucket ctx) (c_parent_ptr ctx) curr', None, false)
          end
      end
  | Remove =>
      match c_e ctx with
      | None => Done (m, ctx, None, true)
      | Some e =>
          '(e', res) ← remove_loop (count e) key e 0 None;
          Done (match res with Some _ => <[c_bucket_base ctx := OElist e']> m | None => m end,
                ctx, res, true)
      end
  end.

(** ** One client *)
Inductive pc :=
| PStart                                 (* before the root is read *)
| PLoop                                  (* head of the [while (true)] *)
| PLock                                  (* the next CAS of [acquire] *)
| PRefetch                               (* [acquire] said the bucket is a PList *)
| PCrit                                  (* the lock is held: read and apply *)
| PUnlock (status : Z)                   (* the lock is held: store [status] *)
| PDone.

Record client := mkClient {
  k_pc : pc; k_root : remote_ptr; k_key : K; k_op : op; k_ctx : descent_context;
  k_path : list Z; k_caches : caches; k_result : option V }.

Definition set_pc (k : client) (p : pc) : client :=
  mkClient p (k_root k) (k_key k) (k_op k) (k_ctx k) (k_path k) (k_caches k) (k_result k).

Definition ctx_init (root : remote_ptr) : descent_context :=
  mkCtx None remote_nullptr 1 (Z.of_nat PLIST_SIZE) 0 root (mkCached [] (Fetched 1)).

(** A call of [contains], [insert] or [remove]. *)
Definition call (root : remote_ptr) (c : caches) (key : K) (o : op) : client :=
  mkClient PStart root key o (ctx_init root) bucket_path_init c None.

(** [ExtendedRead(p, size)]: a private copy of [size * PLIST_SIZE] buckets. *)
Definition fetch_plist (m : memory) (p : remote_ptr) (size : Z) : result PList :=
  pl ← read_plist m p;
  if bool_decide (Z.to_nat size * PLIST_SIZE ≤ length pl)%nat
  then Done (take (Z.to_nat size * PLIST_SIZE) pl) else Fault FUndef.

(** A PList for the traversal: from the cache, or fetched and maybe cached. *)
Definition obtain (m : memory) (c : caches) (path : list Z) (p : remote_ptr) (depth : Z)
    : result (CachedPList * caches) :=
  cached ← fetch_cache PLIST_SIZE cache_depth_ c path;
  match cached with
  | Some cp => Done (cp, c)
  | None =>
      pl ← fetch_plist m p (Z.shiftl 1 depth);
      '(c', _) ← try_cache PLIST_SIZE cache_depth_ c pl path;
      Done (mkCached pl (Fetched (Z.shiftl 1 depth)), c')
  end.

Definition client_step (m : memory) (k : client) : result (memory * client) :=
  let ctx := k_ctx k in
  match k_pc k with
  | PStart =>
      '(curr, c) ← obtain m (k_caches k) (k_path k) (k_root k) 0;
      Done (m, mkClient PLoop (k_root k) (k_key k) (k_op k)
                 (mkCtx None (c_bucket_base ctx) 1 (Z.of_nat PLIST_SIZE) 0 (k_root k) curr)
                 (k_path k) c (k_result k))
  | PLoop =>
      let bz := level_hash (k_key k) (c_depth ctx) (c_count ctx) in
      let bucket := Z.to_nat bz in
      _ ← rome_undef (c_depth ctx <=? 8);             (* bucket_path[8] *)
      let path := <[Z.to_nat (c_depth ctx - 1) := to_i32 bz]> (k_path k) in
      bk ← defined (cp_plist (c_curr ctx) !! bucket);
      if lock bk =? P_UNLOCKED then
        '(curr, c) ← obtain m (k_caches k) path (base bk) (c_depth ctx);
        Done (m, mkClient PLoop (k_root k) (k_key k) (k_op k)
                   (mkCtx (c_e ctx) (c_bucket_base ctx) (c_depth ctx + 1) (c_count ctx * 2)
                          bucket (base bk) curr) path c (k_result k))
      else
        Done (m, mkClient PLock (k_root k) (k_key k) (k_op k)
                   (mkCtx (c_e ctx) (c_bucket_base ctx) (c_depth ctx) (c_count ctx) bucket
                          (c_parent_ptr ctx) (c_curr ctx)) path (k_caches k) (k_result k))
  | PLock =>
      '(v, m') ← cas_lock m (c_parent_ptr ctx) (c_bucket ctx) E_UNLOCKED E_LOCKED;
      Done (m', set_pc k (if v =? P_UNLOCKED then PRefetch
                          else if v =? E_UNLOCKED then PCrit else PLock))
  | PRefetch =>
      pl ← fetch_plist m (c_parent_ptr ctx) (Z.shiftl 1 (c_depth ctx - 1));
      Done (m, mkClient PLoop (k_root k) (k_key k) (k_op k)
                 (mkCtx (c_e ctx) (c_bucket_base ctx) (c_depth ctx) (c_count ctx) (c_bucket ctx)
                        (c_parent_ptr ctx) (mkCached pl (Fetched (Z.shiftl 1 (c_depth ctx - 1)))))
                 (k_path k) (k_caches k) (k_result k))
  | PCrit =>
      bk ← defined (cp_plist (c_curr ctx) !! c_bucket ctx);   (* the copy read before the lock *)
      e ← (if is_null (base bk) then Done None
           else el ← read_elist m (base bk); Done (Some el) : result (option EList));
      let ctx := mkCtx e (base bk) (c_depth ctx) (c_count ctx) (c_bucket ctx)
                       (c_parent_ptr ctx) (c_curr ctx) in
      '(m', ctx', res, fin) ← apply m (k_key k) (k_op k) ctx;
      let c' := match cp_source (c_curr ctx') with
                | FromCache l i => cache_store (k_caches k) l (Z.of_nat i) (cp_plist (c_curr ctx'))
                | Fetched _ => k_caches k end in
      Done (m', mkClient (PUnlock (if fin : bool then E_UNLOCKED else P_UNLOCKED)) (k_root k)
                  (k_key k) (k_op k) ctx' (k_path k) c' res)
  | PUnlock status =>
      m' ← unlock m (c_parent_ptr ctx) (c_bucket ctx) status;
      Done (m', set_pc k (if status =? E_UNLOCKED then PDone else PLoop))
  | PDone => Done (m, k)
  end.

(** [do_with] run without interference, within a step budget. *)
Fixpoint do_with (fuel : nat) (m : memory) (k : client) : result (memory * client) :=
  match k_pc k with
  | PDone => Done (m, k)
  | _ => match fuel with
         | O => Fault FFuel
         | S f => '(m', k') ← client_step m k; do_with f m' k'
         end
  end.

(** [InitAsFirst]: a fresh root. *)
Definition InitAsFirst (m : memory) : remote_ptr * memory :=
  let root := palloc m in (root, <[root := OPlist (InitPList PLIST_SIZE 1)]> m).

End iht.

(** ** The words of a PList *)
Lemma bucket_word_address p off :
  ptr_wf p → 0 ≤ off → address p + off < 2 ^ 48 →
  id (mk_ptr (u16 (id p)) (u64 (address p + off))) = id p ∧
  address (mk_ptr (u16 (id p)) (u64 (address p + off))) = address p + off.
Proof.
  intros Hp Hoff Hlt. pose proof (id_range p Hp) as Hid.
  assert (u16 (id p) = id p) as -> by (by apply (wrap_small 16)).
  assert (0 ≤ address p) by (rewrite address_mod; apply Z.mod_pos_bound; lia).
  assert (u64 (address p + off) = address p + off) as -> by (apply (wrap_small 64); unfold is_u; lia).
  split; [by apply id_mk_ptr|]. rewrite address_mk_ptr by done. apply Z.mod_small. lia.
Qed.

(** The lock and the base pointer of a bucket are two words of the bucket's own 16
    bytes, on the list's node: no two buckets of a list share a word, and a lock word
    is never a base-pointer word. *)
Theorem bucket_words_disjoint arr n i j :
  ptr_wf arr → address arr + sizeof_plist_pair * n ≤ 2 ^ 48 → 0 ≤ i < n → 0 ≤ j < n →
  id (get_lock arr i) = id arr ∧ address (get_lock arr i) = address arr + 16 * i + 8 ∧
  id (get_baseptr arr i) = id arr ∧ address (get_baseptr arr i) = address arr + 16 * i ∧
  get_lock arr i ≠ get_baseptr arr j ∧
  (get_lock arr i = get_lock arr j → i = j) ∧ (get_baseptr arr i = get_baseptr arr j → i = j).
Proof.
  intros Hp Hb Hi Hj. unfold sizeof_plist_pair in Hb.
  assert (∀ x, 0 ≤ x < n → id (get_lock arr x) = id arr ∧
    address (get_lock arr x) = address arr + 16 * x + 8) as Hlock.
  { intros x Hx. unfold get_lock, sizeof_plist_pair. rewrite <- Z.add_assoc.
    destruct (bucket_word_address arr (16 * x + 8) Hp) as [-> ->]; lia. }
  assert (∀ x, 0 ≤ x < n → id (get_baseptr arr x) = id arr ∧
    address (get_baseptr arr x) = address arr + 16 * x) as Hbase.
  { intros x Hx. unfold get_baseptr, sizeof_plist_pair.
    destruct (bucket_word_address arr (16 * x) Hp) as [-> ->]; lia. }
  destruct (Hlock i Hi) as [L1 L2], (Hlock j Hj) as [_ L3], (Hbase i Hi) as [B1 B2], (Hbase j Hj) as [_ B3].
  split_and!; [done..| | |]; intros E; (rewrite E in L2 || rewrite E in B2); lia.
Qed.

Lemma bucket_words_disjoint_witness :
  id (get_lock (mk_ptr 3 4096) 2) = id (mk_ptr 3 4096) ∧
  address (get_lock (mk_ptr 3 4096) 2) = address (mk_ptr 3 4096) + 16 * 2 + 8 ∧
  id (get_baseptr (mk_ptr 3 4096) 2) = id (mk_ptr 3 4096) ∧
  address (get_baseptr (mk_ptr 3 4096) 2) = address (mk_ptr 3 4096) + 16 * 2 ∧
  get_lock (mk_ptr 3 4096) 2 ≠ get_baseptr (mk_ptr 3 4096) 3 ∧
  (get_lock (mk_ptr 3 4096) 2 = get_lock (mk_ptr 3 4096) 3 → 2 = 3) ∧
  (get_baseptr (mk_ptr 3 4096) 2 = get_baseptr (mk_ptr 3 4096) 3 → 2 = 3).
Proof.
  refine (bucket_words_disjoint (mk_ptr 3 4096) 4 2 3 _ _ _ _); [vm_compute; split; congruence
    |vm_compute; congruence|lia|lia].
Defined.
