(* ===== verification/IhtElist.v ===== *)
(** * Element lists of the interlocked hash table: the list an [EList] holds,
    and what its search, insertion and removal do to it. *)
From S2P Require Import Prelude RemotePtr IhtRdma.

Section elist.
Context {K V : Type} `{EqDecision K}.
Context (ELIST_SIZE : nat).
Implicit Types (e : @EList K V) (l : list (K * V)) (kv : K * V).

(** [e] holds the pairs [l], in array order. *)
Definition elist_repr e l : Prop :=
  length (pairs e) = ELIST_SIZE ∧ count e = length l ∧ (length l ≤ ELIST_SIZE)%nat ∧
  ∀ i kv, l !! i = Some kv → pairs e !! i = Some (Some kv).

Lemma pair_at_repr e l i kv : elist_repr e l → l !! i = Some kv → pair_at e i = Done kv.
Proof.
  intros (_ & _ & _ & Hl) Hi. unfold pair_at. by rewrite (Hl _ _ Hi).
Qed.

Lemma elist_repr_inj e l l' : elist_repr e l → elist_repr e l' → l = l'.
Proof.
  intros (_ & C & _ & H1) (_ & C' & _ & H2). apply list_eq_same_length with (length l);
    [congruence|done|].
  intros i x y _ Hx Hy. apply H1 in Hx. apply H2 in Hy. congruence.
Qed.

Lemma search_spec key e l n i :
  elist_repr e l → (i + n = length l)%nat →
  (∃ j kv, search key e n i = Done (Some (j, kv)) ∧ l !! j = Some kv ∧ kv.1 = key ∧ (i ≤ j)%nat) ∨
  (search key e n i = Done None ∧ ∀ j kv, (i ≤ j)%nat → l !! j = Some kv → kv.1 ≠ key).
Proof.
  intros Hr. revert i. induction n as [|n IH]; intros i Hin; cbn.
  - right. split; [done|]. intros j kv Hij Hj. apply lookup_lt_Some in Hj. lia.
  - destruct (lookup_lt_is_Some_2 l i) as [kv Hkv]; [lia|].
    rewrite (pair_at_repr _ _ _ _ Hr Hkv), bind_done.
    destruct (bool_decide_reflect (kv.1 = key)) as [Hk|Hk]; [left; eauto 7|].
    destruct (IH (S i) ltac:(lia)) as [(j & kv' & E & ? & ? & ?)|[E Hno]].
    + left. exists j, kv'. split_and!; [done..|lia].
    + right. split; [done|]. intros j kv' Hij Hj.
      destruct (decide (i = j)) as [->|]; [congruence|]. apply (Hno j); [lia|done].
Qed.

Lemma search_found key e l v :
  elist_repr e l → NoDup l.*1 → (key, v) ∈ l →
  ∃ j, search key e (count e) 0 = Done (Some (j, (key, v))).
Proof.
  intros Hr Hnd Hin. pose proof Hr as (_ & Hc & _). rewrite Hc.
  apply list_elem_of_lookup in Hin as [i Hi].
  destruct (search_spec key e l (length l) 0 Hr ltac:(lia))
    as [(j & [k' v'] & E & Hj & Hk & _)|[_ Hno]].
  - cbn in Hk. subst k'. exists j. rewrite E.
    assert (i = j) as <-.
    { eapply NoDup_lookup; [exact Hnd|by rewrite list_lookup_fmap, Hi|by rewrite list_lookup_fmap, Hj]. }
    congruence.
  - by destruct (Hno i (key, v)); [lia|..].
Qed.

Lemma search_missing key e l :
  elist_repr e l → key ∉ l.*1 → search key e (count e) 0 = Done None.
Proof.
  intros Hr Hni. pose proof Hr as (_ & Hc & _). rewrite Hc.
  destruct (search_spec key e l (length l) 0 Hr ltac:(lia))
    as [(j & kv & E & Hj & Hk & _)|[E _]]; [|done].
  destruct Hni. rewrite <- Hk. apply list_elem_of_fmap_2.
  by eapply list_elem_of_lookup_2.
Qed.

Lemma elist_insert_repr e l kv :
  elist_repr e l → (length l < ELIST_SIZE)%nat →
  ∃ e', elist_insert e kv = Done e' ∧ elist_repr e' (l ++ [kv]).
Proof.
  intros (Hlen & Hc & Hle & Hl) Hlt. unfold elist_insert.
  rewrite bool_decide_eq_true_2 by lia. eexists. split; [done|].
  split_and!; cbn; rewrite ?length_insert, ?length_app; cbn; try lia.
  intros i kv' Hi. rewrite Hc. destruct (decide (i = length l)) as [->|Hne].
  - rewrite list_lookup_insert_eq by lia.
    rewrite lookup_app_r, Nat.sub_diag in Hi by lia. by injection Hi as <-.
  - rewrite list_lookup_insert_ne by done. apply Hl.
    apply lookup_app_Some in Hi as [Hi|[Hge Hi]]; [done|].
    apply lookup_lt_Some in Hi as Hlt'. cbn in Hlt'. lia.
Qed.

(** Scanning past the key changes nothing. *)
Lemma remove_loop_skip key e l fuel i res :
  elist_repr e l → (∀ j kv, (i ≤ j)%nat → l !! j = Some kv → kv.1 ≠ key) →
  remove_loop fuel key e i res = Done (e, res).
Proof.
  intros Hr. revert i. induction fuel as [|f IH]; intros i Hno; cbn; [done|].
  pose proof Hr as (_ & Hc & _).
  destruct (bool_decide_reflect (i < count e)%nat) as [Hi|Hi]; [|done].
  destruct (lookup_lt_is_Some_2 l i) as [kv Hkv]; [lia|].
  rewrite (pair_at_repr _ _ _ _ Hr Hkv), bind_done.
  rewrite bool_decide_eq_false_2 by (apply (Hno i); [lia|done]).
  apply IH. intros j kv' Hj. apply Hno. lia.
Qed.

(** The list after [pairs[i] = pairs[count - 1]; count -= 1]. *)
Definition swap_remove (i : nat) l : list (K * V) :=
  match last l with
  | Some x => take (pred (length l)) (<[i := x]> l)
  | None => []
  end.

Lemma swap_remove_perm i l kv :
  l !! i = Some kv → l ≡ₚ kv :: swap_remove i l.
Proof.
  intros Hi. unfold swap_remove. destruct l as [|x l _] using rev_ind; [done|].
  rewrite last_snoc, length_app, Nat.add_comm. cbn [length Nat.add pred].
  destruct (decide (i = length l)) as [->|Hne].
  - rewrite lookup_app_r, Nat.sub_diag in Hi by lia. injection Hi as ->.
    rewrite take_insert_ge by lia. rewrite take_app_length. apply Permutation_app_comm.
  - assert (i < length l)%nat as Hlt.
    { apply lookup_lt_Some in Hi. rewrite length_app in Hi. cbn in Hi. lia. }
    rewrite lookup_app_l in Hi by done. rewrite insert_app_l by done.
    rewrite take_app_length' by by rewrite length_insert.
    rewrite insert_take_drop by done. set (d := drop (S i) l).
    transitivity ((take i l ++ kv :: d) ++ [x]); [by unfold d; rewrite take_drop_middle|].
    rewrite <- !app_assoc. cbn. rewrite <- Permutation_middle. constructor.
    apply Permutation_app_head. by rewrite Permutation_app_comm.
Qed.

Lemma swap_remove_length i l : length (swap_remove i l) = pred (length l).
Proof.
  unfold swap_remove. destruct l as [|x l _] using rev_ind; [done|].
  rewrite last_snoc, length_take, length_insert. lia.
Qed.

Lemma swap_remove_lookup i l j kv :
  (i < length l)%nat → swap_remove i l !! j = Some kv →
  (j < pred (length l))%nat ∧ <[i := default kv (last l)]> l !! j = Some kv.
Proof.
  intros Hi. unfold swap_remove. destruct (last l) as [x|] eqn:E; [|done].
  intros Hj. apply lookup_take_Some in Hj as [Hj Hlt]. done.
Qed.

(** One removal step of the loop, at the position [i] of the key. *)
Lemma remove_loop_hit key e l i v :
  elist_repr e l → l !! i = Some (key, v) →
  ∃ e', elist_repr e' (swap_remove i l) ∧
    ∀ f res, remove_loop (S f) key e i res = remove_loop f key e' (S i) (Some v).
Proof.
  intros Hr Hi. pose proof Hr as (Hlen & Hc & Hle & Hl).
  assert (i < length l)%nat as Hlt by by eapply lookup_lt_Some.
  destruct (lookup_lt_is_Some_2 l (pred (length l))) as [x Hx]; [lia|].
  exists (mkEList (pred (length l))
            (if bool_decide (1 < length l)%nat then <[i := Some x]> (pairs e) else pairs e)).
  split.
  - split_and!; cbn; [by case_bool_decide; rewrite ?length_insert|by rewrite swap_remove_length
      |rewrite swap_remove_length; lia|].
    intros j kv Hj. apply swap_remove_lookup in Hj as [Hj Hk]; [|done].
    rewrite bool_decide_eq_true_2 by lia.
    rewrite last_lookup, Hx in Hk. change (default kv (Some x)) with x in Hk. destruct (decide (i = j)) as [->|Hne].
    + rewrite list_lookup_insert_eq in Hk by lia. injection Hk as <-.
      by rewrite list_lookup_insert_eq by lia.
    + rewrite list_lookup_insert_ne in Hk by done.
      rewrite list_lookup_insert_ne by done. by apply Hl.
  - intros f res. cbn [remove_loop]. rewrite bool_decide_eq_true_2 by lia.
    rewrite (pair_at_repr _ _ _ _ Hr Hi), bind_done. cbn [fst snd].
    rewrite bool_decide_eq_true_2 by done. rewrite Hc.
    case_bool_decide; [|by rewrite bind_done, Hc].
    rewrite (Hl _ _ Hx), defined_Some. by rewrite !bind_done.
Qed.

Lemma swap_remove_keys i l kv : l !! i = Some kv → l.*1 ≡ₚ kv.1 :: (swap_remove i l).*1.
Proof. intros Hi. by rewrite (swap_remove_perm i l kv Hi) at 1. Qed.

Lemma remove_loop_scan key e l v i d f res :
  elist_repr e l → l !! (i + d)%nat = Some (key, v) →
  (∀ j kv, (j < i + d)%nat → l !! j = Some kv → kv.1 ≠ key) →
  remove_loop (d + f) key e i res = remove_loop f key e (i + d) res.
Proof.
  intros Hr. revert i. induction d as [|d IH]; intros i Hi Hno; cbn.
  { by rewrite Nat.add_0_r. }
  pose proof Hr as (_ & Hc & _). apply lookup_lt_Some in Hi as Hlt.
  rewrite bool_decide_eq_true_2 by lia.
  destruct (lookup_lt_is_Some_2 l i) as [kv Hkv]; [lia|].
  rewrite (pair_at_repr _ _ _ _ Hr Hkv), bind_done.
  rewrite bool_decide_eq_false_2 by (apply (Hno i); [lia|done]).
  rewrite <- Nat.add_succ_comm. apply IH; rewrite Nat.add_succ_comm; done.
Qed.

(** The whole loop of [remove] on a bucket with distinct keys. *)
Lemma remove_loop_present key e l v :
  elist_repr e l → NoDup l.*1 → (key, v) ∈ l →
  ∃ e' l', remove_loop (count e) key e 0 None = Done (e', Some v) ∧
    elist_repr e' l' ∧ l ≡ₚ (key, v) :: l'.
Proof.
  intros Hr Hnd Hin. pose proof Hr as (_ & Hc & _).
  apply list_elem_of_lookup in Hin as [i Hi]. apply lookup_lt_Some in Hi as Hlt.
  destruct (remove_loop_hit _ _ _ _ _ Hr Hi) as (e' & Hr' & Hstep).
  exists e', (swap_remove i l). split_and!; [|done|by apply swap_remove_perm].
  replace (count e) with (i + S (length l - S i))%nat by lia.
  rewrite (remove_loop_scan _ _ l v); [|done..|].
  - cbn [Nat.add]. rewrite Hstep. apply remove_loop_skip with (swap_remove i l); [done|].
    intros j kv _ Hj Hk. pose proof (swap_remove_keys i l _ Hi) as Hp.
    rewrite Hp in Hnd. apply NoDup_cons in Hnd as [Hni _]. apply Hni. cbn. rewrite <- Hk.
    apply list_elem_of_fmap_2. by eapply list_elem_of_lookup_2.
  - intros j kv Hj Hkv Hk. assert (j = i) by (eapply NoDup_lookup;
      [exact Hnd|by rewrite list_lookup_fmap, Hkv|by rewrite list_lookup_fmap, Hi; cbn; rewrite Hk]).
    lia.
Qed.

Lemma remove_loop_absent key e l :
  elist_repr e l → key ∉ l.*1 → remove_loop (count e) key e 0 None = Done (e, None).
Proof.
  intros Hr Hni. apply remove_loop_skip with l; [done|]. intros j kv _ Hj <-. apply Hni.
  apply list_elem_of_fmap_2. by eapply list_elem_of_lookup_2.
Qed.
End elist.
