(* ===== verification/IhtInv.v ===== *)
(** * The heap invariant of the interlocked hash table

    PLists form a tree rooted at [root]: a bucket in state [P_UNLOCKED] points to
    the PList of the next level (twice as many buckets), a bucket in state
    [E_UNLOCKED] is null or points to an EList. The invariant is stated on the flat
    memory through the walk along bucket indices; the lemmas say what setting a leaf
    and splitting a leaf (the heap effects of the operations) do to it. *)
From S2P Require Import Prelude RemotePtr IhtRdma IhtElist.

(** What the hash table relies on: the pool hands out fresh non-null blocks, an
    EList block starts with count 0 and room for [ELIST_SIZE] pairs. *)
Class PoolLaws {K V : Type} (ELIST_SIZE : nat)
    (palloc : gmap remote_ptr (@obj K V) → remote_ptr) (raw_elist : @EList K V) : Prop := {
  palloc_fresh m : m !! palloc m = None;
  palloc_nonnull m : is_null (palloc m) = false;
  raw_count : count raw_elist = 0%nat;
  raw_length : length (pairs raw_elist) = ELIST_SIZE }.

(** The template parameters the code is used with: at least one pair per EList,
    and a top level whose eighth successor still has [int] bucket indices. *)
Class Geometry (ELIST_SIZE PLIST_SIZE : nat) : Prop := {
  elist_pos : (0 < ELIST_SIZE)%nat;
  plist_two : (2 ≤ PLIST_SIZE)%nat;
  plist_max : Z.of_nat PLIST_SIZE ≤ 2 ^ 24 }.

Section inv.
Context {K V : Type} `{EqDecision K}.
Context (to_num : K → Z) (ELIST_SIZE PLIST_SIZE : nat).
Context `{Geometry ELIST_SIZE PLIST_SIZE}.
Abbreviation memory := (gmap remote_ptr (@obj K V)).
Implicit Types (m : memory) (root q : remote_ptr) (π : list nat) (b : plist_pair_t)
  (l : list (K * V)) (k : K) (v : V).

(** ** Hash paths *)
(** Buckets of a PList of level [n] (the root has level 0). *)
Definition width (n : nat) : nat := PLIST_SIZE * 2 ^ n.

(** The bucket of [k] at level [n]; the code's depth is [n + 1]. *)
Definition bkt k (n : nat) : nat :=
  Z.to_nat (level_hash to_num k (Z.of_nat n + 1) (Z.of_nat (width n))).

Definition kpath k (n : nat) : list nat := map (bkt k) (seq 0 n).

Lemma width_pos n : (2 ≤ width n)%nat.
Proof.
  unfold width. pose proof plist_two. pose proof (Nat.pow_nonzero 2 n ltac:(lia)). nia.
Qed.

Lemma width_S n : width (S n) = (width n * 2)%nat.
Proof. unfold width. rewrite Nat.pow_succ_r'. lia. Qed.

Lemma level_hash_range k d c :
  2 ≤ c → 0 ≤ level_hash to_num k d c < c - 1.
Proof. intros. apply Z.mod_pos_bound. lia. Qed.

Lemma bkt_lt k n : (bkt k n < width n - 1)%nat.
Proof.
  pose proof (width_pos n). unfold bkt.
  pose proof (level_hash_range k (Z.of_nat n + 1) (Z.of_nat (width n)) ltac:(lia)). lia.
Qed.

Lemma kpath_S k n : kpath k (S n) = kpath k n ++ [bkt k n].
Proof. unfold kpath. by rewrite seq_S, map_app. Qed.

Lemma kpath_length k n : length (kpath k n) = n.
Proof. unfold kpath. by rewrite length_map, length_seq. Qed.

Lemma kpath_add k n d : kpath k (n + d) = kpath k n ++ map (bkt k) (seq n d).
Proof. unfold kpath. by rewrite seq_app, map_app. Qed.

Lemma kpath_prefix k k' n n' : (n ≤ n')%nat → kpath k n' = kpath k' n' → kpath k n = kpath k' n.
Proof.
  intros Hle E. replace n' with (n + (n' - n))%nat in E by lia. rewrite !kpath_add in E.
  apply app_inj_1 in E as [E _]; [done|]. by rewrite !kpath_length.
Qed.

Lemma kpath_snoc_inv k π i :
  kpath k (S (length π)) = π ++ [i] → π = kpath k (length π) ∧ i = bkt k (length π).
Proof.
  rewrite kpath_S. intros E. apply app_inj_2 in E as [E1 E2]; [|done]. by simplify_eq.
Qed.

(** ** Walking down the tree *)
(** One level down: the PList behind bucket [i], when the bucket is calcified. *)
Definition child m q (i : nat) : option remote_ptr :=
  match m !! q with
  | Some (OPlist pl) =>
      match pl !! i with
      | Some b => if lock b =? P_UNLOCKED then Some (base b) else None
      | None => None
      end
  | _ => None
  end.

Fixpoint walk m q π : option remote_ptr :=
  match π with
  | [] => Some q
  | i :: π' => match child m q i with Some q' => walk m q' π' | None => None end
  end.

Lemma walk_app m q π π' :
  walk m q (π ++ π') = match walk m q π with Some q' => walk m q' π' | None => None end.
Proof. revert q. induction π as [|i π IH]; intros q; cbn; [done|]. by destruct child. Qed.

Lemma walk_snoc m q π i :
  walk m q (π ++ [i]) = match walk m q π with Some q' => child m q' i | None => None end.
Proof. rewrite walk_app. destruct (walk m q π); cbn; [by destruct child|done]. Qed.

Lemma child_Some m q i q' :
  child m q i = Some q' ↔
  ∃ pl b, m !! q = Some (OPlist pl) ∧ pl !! i = Some b ∧ lock b = P_UNLOCKED ∧ base b = q'.
Proof.
  unfold child. split.
  - destruct (m !! q) as [[e|pl]|]; [done| |done].
    destruct (pl !! i) as [b|] eqn:E; [|done].
    destruct (Z.eqb_spec (lock b) P_UNLOCKED); [|done]. intros [= <-]. eauto 6.
  - by intros (pl & b & -> & -> & -> & <-).
Qed.

(** Bucket [i] of the PList at path [π] is a leaf in state [E_UNLOCKED]. *)
Definition leaf m root π (i : nat) q (pl : PList) b : Prop :=
  walk m root π = Some q ∧ m !! q = Some (OPlist pl) ∧ pl !! i = Some b ∧ lock b = E_UNLOCKED.

(** The pairs behind a leaf bucket. *)
Definition bucket_list m b l : Prop :=
  (is_null (base b) = true ∧ l = []) ∨
  (is_null (base b) = false ∧ ∃ e, m !! base b = Some (OElist e) ∧ elist_repr ELIST_SIZE e l).

Record iht_inv m root : Prop := {
  inv_plist π q : walk m root π = Some q → (length π ≤ 7)%nat ∧
    ∃ pl, m !! q = Some (OPlist pl) ∧ length pl = width (length π) ∧
      ∀ i b, pl !! i = Some b → lock b = P_UNLOCKED ∨ lock b = E_UNLOCKED;
  inv_leaf π i q pl b : leaf m root π i q pl b → ∃ l, bucket_list m b l ∧ NoDup l.*1 ∧
    ∀ kv, kv ∈ l → kpath kv.1 (S (length π)) = π ++ [i];
  inv_walk π π' q : walk m root π = Some q → walk m root π' = Some q → π = π';
  inv_share π i q pl b π' i' q' pl' b' :
    leaf m root π i q pl b → leaf m root π' i' q' pl' b' →
    is_null (base b) = false → base b = base b' → π = π' ∧ i = i' }.

(** [k] is mapped to [v]. *)
Definition maps m root k v : Prop :=
  ∃ π i q pl b l, leaf m root π i q pl b ∧ bucket_list m b l ∧ (k, v) ∈ l.

(** ** Basic facts *)
Lemma bucket_list_inj m b l l' : bucket_list m b l → bucket_list m b l' → l = l'.
Proof.
  intros [[? ->]|(? & e & He & Hr)] [[? ->]|(? & e' & He' & Hr')]; try congruence.
  simplify_eq. by eapply elist_repr_inj.
Qed.

Lemma leaf_not_walk m root π i q pl b π' :
  leaf m root π i q pl b → walk m root (π ++ i :: π') = None.
Proof.
  intros (Hw & Hq & Hi & Hb). rewrite walk_app, Hw. cbn. unfold child.
  by rewrite Hq, Hi, Hb.
Qed.

(** Along one key's path there is a single leaf. *)
Lemma leaf_unique m root k n n' q pl b q' pl' b' :
  leaf m root (kpath k n) (bkt k n) q pl b → leaf m root (kpath k n') (bkt k n') q' pl' b' →
  n = n'.
Proof.
  assert (∀ n n' q pl b q' pl' b', leaf m root (kpath k n) (bkt k n) q pl b →
    leaf m root (kpath k n') (bkt k n') q' pl' b' → ¬ (n < n')%nat) as Hlt.
  { intros n1 n2 ?????? H1 (H2 & _) Hlt. replace n2 with (n1 + S (n2 - S n1))%nat in H2 by lia.
    rewrite kpath_add in H2. cbn [seq map] in H2.
    by rewrite (leaf_not_walk _ _ _ _ _ _ _ _ H1) in H2. }
  intros H1 H2. pose proof (Hlt _ _ _ _ _ _ _ _ H1 H2). pose proof (Hlt _ _ _ _ _ _ _ _ H2 H1). lia.
Qed.

Lemma leaf_fun m root π i q pl b q' pl' b' :
  leaf m root π i q pl b → leaf m root π i q' pl' b' → q = q' ∧ pl = pl' ∧ b = b'.
Proof. intros (? & ? & ? & ?) (? & ? & ? & ?). by simplify_eq. Qed.

(** A stored key is in the leaf of its own path. *)
Lemma maps_own_leaf m root k v π i q pl b l :
  iht_inv m root → leaf m root π i q pl b → bucket_list m b l → (k, v) ∈ l →
  π = kpath k (length π) ∧ i = bkt k (length π).
Proof.
  intros Hinv Hl Hb Hin. destruct (inv_leaf _ _ Hinv _ _ _ _ _ Hl) as (l' & Hb' & _ & Hp).
  rewrite (bucket_list_inj _ _ _ _ Hb Hb') in Hin.
  apply kpath_snoc_inv, (Hp (k, v) Hin).
Qed.

Lemma maps_in_leaf m root k v n q pl b l :
  iht_inv m root → leaf m root (kpath k n) (bkt k n) q pl b → bucket_list m b l →
  maps m root k v ↔ (k, v) ∈ l.
Proof.
  intros Hinv Hl Hb. split; [|intros; do 6 eexists; eauto].
  intros (π & i & q' & pl' & b' & l' & Hl' & Hb' & Hin).
  destruct (maps_own_leaf _ _ _ _ _ _ _ _ _ _ Hinv Hl' Hb' Hin) as [Hπ Hi].
  rewrite Hπ, Hi in Hl'. pose proof (leaf_unique _ _ _ _ _ _ _ _ _ _ _ Hl Hl') as En.
  rewrite <- En in Hl'. destruct (leaf_fun _ _ _ _ _ _ _ _ _ _ Hl Hl') as (_ & _ & <-).
  by rewrite (bucket_list_inj _ _ _ _ Hb Hb').
Qed.

Lemma maps_fun m root k v v' : iht_inv m root → maps m root k v → maps m root k v' → v = v'.
Proof.
  intros Hinv (π & i & q & pl & b & l & Hl & Hb & Hin) H2.
  destruct (maps_own_leaf _ _ _ _ _ _ _ _ _ _ Hinv Hl Hb Hin) as [Hπ Hi].
  rewrite Hπ, Hi in Hl. apply (maps_in_leaf _ _ _ _ _ _ _ _ _ Hinv Hl Hb) in H2.
  destruct (inv_leaf _ _ Hinv _ _ _ _ _ Hl) as (l' & Hb' & Hnd & _).
  rewrite (bucket_list_inj _ _ _ _ Hb' Hb) in Hnd.
  apply list_elem_of_lookup in Hin as [j Hj], H2 as [j' Hj'].
  assert (j = j') as ->; [|congruence].
  eapply NoDup_lookup; [exact Hnd|by rewrite list_lookup_fmap, Hj|by rewrite list_lookup_fmap, Hj'].
Qed.
(** ** Evolution: calcified buckets of reachable PLists never change *)
Definition evolves m root m' : Prop :=
  ∀ π q pl, walk m root π = Some q → m !! q = Some (OPlist pl) →
    ∃ pl', m' !! q = Some (OPlist pl') ∧
      ∀ i b, pl !! i = Some b → lock b = P_UNLOCKED → pl' !! i = Some b.

Lemma evolves_walk m root m' π q :
  evolves m root m' → walk m root π = Some q → walk m' root π = Some q.
Proof.
  intros Hev. revert q. induction π as [|i π IH] using rev_ind; intros q; [done|].
  rewrite !walk_snoc. destruct (walk m root π) as [q0|] eqn:Hw; [|done].
  rewrite (IH _ eq_refl). intros (pl & b & Hq & Hi & Hb & <-)%child_Some.
  destruct (Hev _ _ _ Hw Hq) as (pl' & Hq' & Hkeep).
  apply child_Some. exists pl', b. split_and!; eauto.
Qed.

Lemma evolves_refl m root : evolves m root m.
Proof. intros π q pl _ Hq. eauto. Qed.

Lemma evolves_trans m1 m2 m3 root :
  evolves m1 root m2 → evolves m2 root m3 → evolves m1 root m3.
Proof.
  intros H1 H2 π q pl Hw Hq. destruct (H1 _ _ _ Hw Hq) as (pl1 & Hq1 & K1).
  destruct (H2 _ _ _ (evolves_walk _ _ _ _ _ H1 Hw) Hq1) as (pl2 & Hq2 & K2). eauto 6.
Qed.

Lemma bucket_list_frame m m' b l :
  (is_null (base b) = false → m' !! base b = m !! base b) →
  bucket_list m b l → bucket_list m' b l.
Proof.
  intros Hf [?|(Hn & e & He & Hr)]; [by left|]. right. rewrite Hf by done. eauto.
Qed.

(** ** Setting a leaf: the effect of an insertion or a removal in an EList *)
Section set_leaf.
Context m root π (i : nat) q (pl : PList) b l (b' : plist_pair_t) (e' : @EList K V) l'.
Hypotheses (Hinv : iht_inv m root) (Hleaf : leaf m root π i q pl b) (Hl : bucket_list m b l)
  (Hlock : lock b' = E_UNLOCKED) (Hnn : is_null (base b') = false)
  (Hbase : (is_null (base b) = false ∧ base b' = base b) ∨ m !! base b' = None)
  (Hr : elist_repr ELIST_SIZE e' l') (Hnd : NoDup l'.*1)
  (Hpath : ∀ kv, kv ∈ l' → kpath kv.1 (S (length π)) = π ++ [i]).

Definition set_leaf_mem : memory :=
  <[q := OPlist (<[i := b']> pl)]> (<[base b' := OElist e']> m).
Abbreviation m' := set_leaf_mem.

Lemma set_leaf_not_plist q1 pl1 : m !! q1 = Some (OPlist pl1) → q1 ≠ base b'.
Proof.
  intros Hq1 ->. destruct Hbase as [[Hn E]|?]; [|congruence].
  destruct Hl as [[? _]|(_ & e & He & _)]; congruence.
Qed.

Lemma set_leaf_plist q1 pl1 :
  m !! q1 = Some (OPlist pl1) →
  m' !! q1 = Some (OPlist (if decide (q1 = q) then <[i := b']> pl else pl1)).
Proof.
  intros Hq1. unfold set_leaf_mem. destruct (decide (q1 = q)) as [->|Hne].
  - by rewrite lookup_insert_eq.
  - rewrite lookup_insert_ne by done. rewrite lookup_insert_ne; [done|].
    pose proof (set_leaf_not_plist _ _ Hq1). done.
Qed.

Lemma set_leaf_child q1 pl1 j : m !! q1 = Some (OPlist pl1) → child m' q1 j = child m q1 j.
Proof.
  intros Hq1. destruct Hleaf as (_ & Hq & Hi & Hb). unfold child.
  rewrite (set_leaf_plist _ _ Hq1), Hq1. destruct (decide (q1 = q)) as [->|]; [|done].
  simplify_eq. destruct (decide (i = j)) as [->|Hne].
  - rewrite list_lookup_insert_eq by by eapply lookup_lt_Some. by rewrite Hi, Hb, Hlock.
  - by rewrite list_lookup_insert_ne by done.
Qed.

Lemma set_leaf_walk π' : walk m' root π' = walk m root π'.
Proof.
  induction π' as [|j π' IH] using rev_ind; [done|]. rewrite !walk_snoc, IH.
  destruct (walk m root π') as [q1|] eqn:Hw; [|done].
  destruct (inv_plist _ _ Hinv _ _ Hw) as (_ & pl1 & Hq1 & _). by eapply set_leaf_child.
Qed.

Lemma set_leaf_inv_leaf π1 j q1 pl1 c :
  leaf m' root π1 j q1 pl1 c →
  (π1 = π ∧ j = i ∧ c = b') ∨
  ((π1 ≠ π ∨ j ≠ i) ∧ ∃ pl1', leaf m root π1 j q1 pl1' c).
Proof.
  intros (Hw & Hq1 & Hj & Hc). rewrite set_leaf_walk in Hw.
  destruct Hleaf as (Hw0 & Hq & Hi & Hb).
  destruct (inv_plist _ _ Hinv _ _ Hw) as (_ & pl1' & Hq1' & _).
  rewrite (set_leaf_plist _ _ Hq1') in Hq1. injection Hq1 as <-.
  destruct (decide (q1 = q)) as [->|Hne].
  - rewrite (inv_walk _ _ Hinv _ _ _ Hw Hw0) in *. simplify_eq.
    destruct (decide (j = i)) as [->|Hne].
    + rewrite list_lookup_insert_eq in Hj by by eapply lookup_lt_Some. left. by simplify_eq.
    + rewrite list_lookup_insert_ne in Hj by done. right. split; [by right|]. eexists. by split_and!.
  - right. split; [left; congruence|]. eexists. by split_and!.
Qed.

Lemma set_leaf_this : leaf m' root π i q (<[i := b']> pl) b'.
Proof.
  destruct Hleaf as (Hw & Hq & Hi & Hb). split_and!; [by rewrite set_leaf_walk| | |done].
  - unfold set_leaf_mem. by rewrite lookup_insert_eq.
  - apply list_lookup_insert_eq. by eapply lookup_lt_Some.
Qed.

Lemma set_leaf_other π1 j q1 pl1 c :
  leaf m root π1 j q1 pl1 c → π1 ≠ π ∨ j ≠ i → ∃ pl1', leaf m' root π1 j q1 pl1' c.
Proof.
  intros (Hw & Hq1 & Hj & Hc) Hne. destruct Hleaf as (Hw0 & Hq & Hi & Hb).
  eexists. split_and!; [by rewrite set_leaf_walk|by apply set_leaf_plist| |done].
  destruct (decide (q1 = q)) as [->|]; [|done].
  rewrite (inv_walk _ _ Hinv _ _ _ Hw Hw0) in *. simplify_eq.
  rewrite list_lookup_insert_ne; [done|destruct Hne; congruence].
Qed.

Lemma set_leaf_list : bucket_list m' b' l'.
Proof.
  right. split; [done|]. exists e'. split; [|done]. unfold set_leaf_mem.
  rewrite lookup_insert_ne, lookup_insert_eq; [done|].
  destruct Hleaf as (_ & Hq & _). by apply set_leaf_not_plist in Hq.
Qed.

Lemma set_leaf_list_other π1 j q1 pl1 c l1 :
  leaf m root π1 j q1 pl1 c → π1 ≠ π ∨ j ≠ i → bucket_list m c l1 → bucket_list m' c l1.
Proof.
  intros Hl1 Hne Hb1. apply bucket_list_frame with m; [|done]. intros Hn.
  destruct Hb1 as [[? _]|(_ & e1 & He1 & _)]; [congruence|].
  destruct Hleaf as (_ & Hq & _). unfold set_leaf_mem.
  rewrite lookup_insert_ne by congruence. rewrite lookup_insert_ne; [done|].
  intros E. destruct Hbase as [[_ E2]|?]; [|congruence].
  destruct (inv_share _ _ Hinv _ _ _ _ _ _ _ _ _ _ Hl1 Hleaf Hn) as [-> ->]; [congruence|].
  destruct Hne; congruence.
Qed.

Lemma set_leaf_maps k v :
  maps m' root k v ↔ (maps m root k v ∧ (k, v) ∉ l) ∨ (k, v) ∈ l'.
Proof.
  split.
  - intros (π1 & j & q1 & pl1 & c & l1 & Hl1 & Hb1 & Hin).
    destruct (set_leaf_inv_leaf _ _ _ _ _ Hl1) as [(-> & -> & ->)|(Hne & pl1' & Hl1')].
    { right. by rewrite (bucket_list_inj _ _ _ _ set_leaf_list Hb1). }
    destruct (inv_leaf _ _ Hinv _ _ _ _ _ Hl1') as (l2 & Hb2 & _).
    pose proof (set_leaf_list_other _ _ _ _ _ _ Hl1' Hne Hb2) as Hb2'.
    rewrite (bucket_list_inj _ _ _ _ Hb1 Hb2') in Hin. left. split; [by do 6 eexists|].
    intros Hin0. destruct (maps_own_leaf _ _ _ _ _ _ _ _ _ _ Hinv Hleaf Hl Hin0) as [E1 E2].
    destruct (maps_own_leaf _ _ _ _ _ _ _ _ _ _ Hinv Hl1' Hb2 Hin) as [E3 E4].
    pose proof Hleaf as H1. rewrite E1, E2 in H1. pose proof Hl1' as H2. rewrite E3, E4 in H2.
    pose proof (leaf_unique _ _ _ _ _ _ _ _ _ _ _ H1 H2) as En. rewrite En in *. destruct Hne; congruence.
  - intros [[(π1 & j & q1 & pl1 & c & l1 & Hl1 & Hb1 & Hin) Hni]|Hin].
    + assert (π1 ≠ π ∨ j ≠ i) as Hne.
      { destruct (decide (π1 = π)) as [->|]; [|by left]. destruct (decide (j = i)) as [->|]; [|by right].
        destruct (leaf_fun _ _ _ _ _ _ _ _ _ _ Hleaf Hl1) as (_ & _ & <-).
        by rewrite (bucket_list_inj _ _ _ _ Hb1 Hl) in Hin. }
      destruct (set_leaf_other _ _ _ _ _ Hl1 Hne) as (pl1' & Hl1').
      do 6 eexists. split_and!; [done|by eapply set_leaf_list_other|done].
    + do 6 eexists. split_and!; [apply set_leaf_this|apply set_leaf_list|done].
Qed.

Lemma set_leaf_evolves : evolves m root m'.
Proof.
  intros π1 q1 pl1 Hw Hq1. eexists. split; [by apply set_leaf_plist|].
  intros j c Hj Hc. destruct (decide (q1 = q)) as [->|]; [|done].
  destruct Hleaf as (_ & Hq & Hi & Hb). simplify_eq.
  rewrite list_lookup_insert_ne; [done|]. intros ->. simplify_eq. by rewrite Hb in Hc.
Qed.

Lemma set_leaf_share π1 j q1 pl1 c :
  leaf m root π1 j q1 pl1 c → π1 ≠ π ∨ j ≠ i → is_null (base c) = false → base c ≠ base b'.
Proof.
  intros Hl1 Hne Hn E. destruct (inv_leaf _ _ Hinv _ _ _ _ _ Hl1) as (l1 & Hb1 & _).
  destruct Hb1 as [[? _]|(_ & e1 & He1 & _)]; [congruence|].
  destruct Hbase as [[_ E2]|?]; [|congruence].
  destruct (inv_share _ _ Hinv _ _ _ _ _ _ _ _ _ _ Hl1 Hleaf Hn) as [-> ->]; [congruence|].
  destruct Hne; congruence.
Qed.

Lemma set_leaf_inv : iht_inv m' root.
Proof.
  split.
  - intros π1 q1 Hw. rewrite set_leaf_walk in Hw.
    destruct (inv_plist _ _ Hinv _ _ Hw) as (Hlen & pl1 & Hq1 & Hw1 & Hst). split; [done|].
    eexists. split; [by apply set_leaf_plist|]. destruct (decide (q1 = q)) as [->|]; [|done].
    destruct Hleaf as (_ & Hq & Hi & Hb). simplify_eq. split; [by rewrite length_insert|].
    intros j c Hj. apply list_lookup_insert_Some in Hj as [(_ & <- & _)|[_ Hj]]; [by right|eauto].
  - intros π1 j q1 pl1 c Hl1.
    destruct (set_leaf_inv_leaf _ _ _ _ _ Hl1) as [(-> & -> & ->)|(Hne & pl1' & Hl1')].
    + exists l'. split_and!; [apply set_leaf_list|done|done].
    + destruct (inv_leaf _ _ Hinv _ _ _ _ _ Hl1') as (l2 & Hb2 & Hr2).
      exists l2. split; [|done]. by eapply set_leaf_list_other.
  - intros π1 π2 q1. rewrite !set_leaf_walk. apply (inv_walk _ _ Hinv).
  - intros π1 j q1 pl1 c π2 j2 q2 pl2 c2 Hl1 Hl2 Hn E.
    destruct (set_leaf_inv_leaf _ _ _ _ _ Hl1) as [(-> & -> & ->)|(Hne & pl1' & Hl1')];
      destruct (set_leaf_inv_leaf _ _ _ _ _ Hl2) as [(-> & -> & ->)|(Hne2 & pl2' & Hl2')].
    + done.
    + destruct (set_leaf_share _ _ _ _ _ Hl2' Hne2); congruence.
    + by destruct (set_leaf_share _ _ _ _ _ Hl1' Hne).
    + by eapply (inv_share _ _ Hinv).
Qed.
End set_leaf.
End inv.
