(* ===== verification/IhtExample.v ===== *)
(** * A concrete pool and geometry, at which the hash table theorems are evaluated *)
From S2P Require Import Prelude RemotePtr IhtRdma IhtElist IhtInv.

(** The block after the highest one in use. *)
Definition next_block {A} (m : gmap remote_ptr A) : remote_ptr :=
  mkRaw (64 * (1 + foldr Z.max 0 (map (λ x, raw_ x.1) (map_to_list m)))).

Definition raw_zz (n : nat) : @EList Z Z := mkEList 0 (replicate n None).

Lemma foldr_max_ge (zs : list Z) z : z ∈ zs → z ≤ foldr Z.max 0 zs.
Proof.
  induction zs as [|y zs IH]; [by intros ?%elem_of_nil|].
  intros [->|Hin]%elem_of_cons; cbn; [|specialize (IH Hin)]; lia.
Qed.

Lemma foldr_max_pos (zs : list Z) : 0 ≤ foldr Z.max 0 zs.
Proof. induction zs; cbn; lia. Qed.

#[export] Instance example_pool n :
  PoolLaws n (next_block : gmap remote_ptr (@obj Z Z) → remote_ptr) (raw_zz n).
Proof.
  split.
  - intros m. destruct (m !! next_block m) as [x|] eqn:E; [|done].
    assert (raw_ (next_block m) ∈ map (λ x, raw_ x.1) (map_to_list m)) as Hin.
    { apply list_elem_of_fmap. exists (next_block m, x). split; [done|]. by apply elem_of_map_to_list. }
    apply foldr_max_ge in Hin. unfold next_block in Hin at 1. cbn [raw_] in Hin.
    pose proof (foldr_max_pos (map (λ x, raw_ x.1) (map_to_list m))). lia.
  - intros m. unfold is_null, next_block. cbn [raw_]. apply Z.eqb_neq.
    pose proof (foldr_max_pos (map (λ x, raw_ x.1) (map_to_list m))). lia.
  - done.
  - cbn. by rewrite length_replicate.
Qed.

#[export] Instance example_geometry : Geometry 2 4.
Proof. split; lia. Qed.
