(* ===== verification/IhtPrint.v ===== *)
(** * The debug print of the table (iht/iht_ds.h)

    [print] walks the local memory without taking locks or using the pool, and stops after
    three levels. Its output is a list of lines. *)
From S2P Require Import Prelude RemotePtr IhtRdma IhtElist IhtInv IhtExample.

Section print.
Context {K V : Type} `{EqDecision K}.
Context (to_num : K → Z) (ELIST_SIZE PLIST_SIZE : nat) `{Geometry ELIST_SIZE PLIST_SIZE}.
Abbreviation memory := (gmap remote_ptr (@obj K V)).
Implicit Types (m : memory) (q root : remote_ptr) (π : list nat) (b : plist_pair_t) (k : K) (v : V).
Context (self_id : Z).

(** The lines of [ROME_INFO], with their indentation and bucket. *)
Inductive line :=
| LList (indent i : nat) (n : Z) | LEmpty (indent i : nat) | LPair (indent i : nat) (k : K) (v : V)
| LLocked (indent : nat) (lock : Z).

(** [operator->] and [operator*]: the address on the own node, whatever the pointer's id. *)
Definition here (p : remote_ptr) : remote_ptr := mk_ptr self_id (address p).

(** A loop that prints. *)
Fixpoint printing (body : nat → result (list line)) (js : list nat) : result (list line) :=
  match js with [] => Done [] | i :: js => x ← body i; y ← printing body js; Done (x ++ y) end.

(** One bucket; [sub] prints the list below it. *)
Definition print_bucket (sub : remote_ptr → Z → result (list line)) m (start : remote_ptr) (cnt : Z) (indent i : nat)
    : result (list line) :=
  pl ← read_plist m (here start);
  t ← defined (pl !! i);
  if lock t =? P_UNLOCKED then below ← sub (base t) (cnt * 2); Done (LList indent i (cnt * 2) :: below)
  else if lock t =? E_UNLOCKED then
    if is_null (base t) then Done [LEmpty indent i] else
    e ← read_elist m (here (base t));
    printing (λ j, p ← pair_at e j; Done [LPair indent i p.1 p.2]) (seq 0 (count e))
  else if lock t =? E_LOCKED then Done [LLocked indent (lock t)]
  else Fault FAbort.

(** [print(start, count, indent)], [levels] being [3 - indent]. *)
Fixpoint print (levels : nat) m (start : remote_ptr) (cnt : Z) (indent : nat) : result (list line) :=
  match levels with
  | O => Done []
  | S levels => printing (print_bucket (λ p n, print levels m p n (S indent)) m start cnt indent) (seq 0 (Z.to_nat cnt))
  end.

(** ** What it shows *)
Definition shown (out : list line) k v : Prop := ∃ n i, LPair n i k v ∈ out.

Lemma shown_app x y k v : shown (x ++ y) k v ↔ shown x k v ∨ shown y k v.
Proof. unfold shown. setoid_rewrite elem_of_app. naive_solver. Qed.

Lemma shown_list n i c out k v : shown (LList n i c :: out) k v ↔ shown out k v.
Proof. unfold shown. set_solver. Qed.

Lemma printing_shows body js (R : nat → K → V → Prop) :
  (∀ i, i ∈ js → ∃ out, body i = Done out ∧ ∀ k v, shown out k v ↔ R i k v) →
  ∃ out, printing body js = Done out ∧ ∀ k v, shown out k v ↔ ∃ i, i ∈ js ∧ R i k v.
Proof.
  induction js as [|i js IH]; intros Hb; cbn.
  - exists []. split; [done|]. intros k v. unfold shown. set_solver.
  - destruct (Hb i) as (x & -> & Hx); [set_solver|]. destruct IH as (y & -> & Hy); [set_solver|]. cbn.
    exists (x ++ y). split; [done|]. intros k v. rewrite shown_app, Hx, Hy. set_solver.
Qed.

Lemma pairs_shown e l indent i : elist_repr ELIST_SIZE e l →
  ∃ out, printing (λ j, p ← pair_at e j; Done [LPair indent i p.1 p.2]) (seq 0 (count e)) = Done out ∧
    ∀ k v, shown out k v ↔ (k, v) ∈ l.
Proof.
  intros Hr. destruct (printing_shows (λ j, p ← pair_at e j; Done [LPair indent i p.1 p.2]) (seq 0 (count e))
    (λ j k v, l !! j = Some (k, v))) as (out & E & Hs).
  - intros j Hj. apply elem_of_seq in Hj. pose proof Hr as (_ & Hc & _).
    destruct (lookup_lt_is_Some_2 l j) as [[k v] Hkv]; [lia|]. rewrite (pair_at_repr _ _ _ _ _ Hr Hkv). cbn.
    eexists. split; [done|]. intros k' v'. rewrite Hkv. unfold shown. split.
    + intros (n & i' & Hin%list_elem_of_singleton). by injection Hin as -> -> -> ->.
    + intros [= <- <-]. exists indent, i. by apply list_elem_of_singleton.
  - exists out. split; [exact E|]. intros k v. rewrite Hs, list_elem_of_lookup. split; [naive_solver|].
    intros [j Hj]. exists j. split; [|done]. apply elem_of_seq. pose proof Hr as (_ & Hc & _). apply lookup_lt_Some in Hj. lia.
Qed.

(** The pairs in the leaves at most [levels] lists below the path [π]. *)
Definition within m root (levels : nat) π k v : Prop :=
  ∃ π' i q pl b l, leaf m root (π ++ π') i q pl b ∧ (length π' < levels)%nat ∧ bucket_list ELIST_SIZE m b l ∧ (k, v) ∈ l.

(** A leaf is printed as the pairs behind it. *)
Lemma leaf_shown sub m root π i q pl b cnt : iht_inv to_num ELIST_SIZE PLIST_SIZE m root → (∀ p, is_Some (m !! p) → here p = p) →
  leaf m root π i q pl b →
  ∃ out, print_bucket sub m q cnt (length π) i = Done out ∧
    ∀ k v, shown out k v ↔ ∃ l, bucket_list ELIST_SIZE m b l ∧ (k, v) ∈ l.
Proof.
  intros Hinv Hhere Hleaf. destruct (inv_leaf _ _ _ _ _ Hinv _ _ _ _ _ Hleaf) as (l & Hbl & _ & _).
  destruct Hleaf as (_ & Hpl & Hb & Hl). unfold print_bucket, read_plist. rewrite (Hhere q) by by rewrite Hpl.
  rewrite Hpl, bind_done, Hb. cbn [defined]. rewrite bind_done, Hl.
  change (E_UNLOCKED =? P_UNLOCKED) with false. change (E_UNLOCKED =? E_UNLOCKED) with true. cbv iota.
  assert (∀ k v, (∃ l', bucket_list ELIST_SIZE m b l' ∧ (k, v) ∈ l') ↔ (k, v) ∈ l) as Hto.
  { intros k v. split; [|by exists l]. intros (l' & Hbl' & Hin). by rewrite (bucket_list_inj _ _ _ _ _ Hbl Hbl'). }
  setoid_rewrite Hto. destruct Hbl as [[Hn ->]|(Hn & e & He & Hr)]; rewrite Hn.
  - eexists. split; [done|]. intros k v. unfold shown. split; [|set_solver]. intros (? & ? & ?%list_elem_of_singleton). done.
  - unfold read_elist. rewrite (Hhere (base b)) by by rewrite He. rewrite He, bind_done. by apply pairs_shown.
Qed.

(** Below a leaf there is nothing. *)
Lemma leaf_ends m root levels π i q pl b k v : leaf m root π i q pl b → ¬ within m root levels (π ++ [i]) k v.
Proof.
  intros Hleaf (π' & j & q' & pl' & b' & l & (Hw' & _) & _). rewrite <- app_assoc in Hw'. cbn in Hw'.
  by rewrite (leaf_not_walk _ _ _ _ _ _ _ _ Hleaf) in Hw'.
Qed.

(** What lies within [S levels] of a list lies in one of its leaves or within [levels] of a child. *)
Definition through m root levels π i k v : Prop :=
  (∃ q pl b l, leaf m root π i q pl b ∧ bucket_list ELIST_SIZE m b l ∧ (k, v) ∈ l) ∨ within m root levels (π ++ [i]) k v.

Lemma within_S m root levels π q pl k v : walk m root π = Some q → m !! q = Some (OPlist pl) →
  within m root (S levels) π k v ↔ ∃ i, i ∈ seq 0 (length pl) ∧ through m root levels π i k v.
Proof.
  intros Hw Hpl. split.
  - intros (π' & j & q' & pl' & b & l & Hl & Hlt & Hbl & Hin). destruct π' as [|i π'].
    + rewrite app_nil_r in Hl. pose proof Hl as (Hw' & H2 & H3 & _). simplify_eq. exists j.
      split; [apply elem_of_seq; apply lookup_lt_Some in H3; lia|]. left. by eauto 8.
    + exists i. assert (is_Some (child m q i)) as [c Hc].
      { destruct Hl as (Hw' & _). rewrite walk_app, Hw in Hw'. cbn in Hw'. by destruct (child m q i). }
      apply child_Some in Hc as (pl0 & b0 & H1 & H2 & _). simplify_eq.
      split; [apply elem_of_seq; apply lookup_lt_Some in H2; lia|]. right.
      exists π', j, q', pl', b, l. rewrite <- app_assoc. split; [done|]. split; [cbn in Hlt; lia|done].
  - intros (i & _ & [(q' & pl' & b & l & Hl & Hbl & Hin)|(π' & j & q' & pl' & b & l & Hl & Hlt & Hbl & Hin)]).
    + exists [], i, q', pl', b, l. rewrite app_nil_r. split; [done|]. split; [cbn; lia|done].
    + exists (i :: π'), j, q', pl', b, l. rewrite <- app_assoc in Hl. split; [done|]. split; [cbn; lia|done].
Qed.

Lemma print_shows_below m root levels : iht_inv to_num ELIST_SIZE PLIST_SIZE m root → (∀ p, is_Some (m !! p) → here p = p) →
  ∀ π q, walk m root π = Some q →
  ∃ out, print levels m q (Z.of_nat (width PLIST_SIZE (length π))) (length π) = Done out ∧
    ∀ k v, shown out k v ↔ within m root levels π k v.
Proof.
  intros Hinv Hhere. induction levels as [|levels IH]; intros π q Hw; cbn [print].
  { exists []. split; [done|]. intros k v. unfold shown, within. split; [set_solver|]. intros (? & ? & ? & ? & ? & ? & _ & ? & _). lia. }
  destruct (inv_plist _ _ _ _ _ Hinv π q Hw) as (_ & pl & Hpl & Hlen & Hlocks).
  setoid_rewrite (within_S m root levels π q pl _ _ Hw Hpl). rewrite Nat2Z.id, <- Hlen.
  apply printing_shows. intros i Hi. apply elem_of_seq in Hi.
  destruct (lookup_lt_is_Some_2 pl i) as [b Hb]; [lia|]. destruct (Hlocks i b Hb) as [Hl|Hl].
  - destruct (IH (π ++ [i]) (base b)) as (out & E & Hs); [rewrite walk_snoc, Hw; apply child_Some; eauto 7|].
    rewrite length_app, Nat.add_1_r, width_S, <- Hlen, Nat2Z.inj_mul in E. change (Z.of_nat 2) with 2 in E.
    unfold print_bucket, read_plist. rewrite (Hhere q) by by rewrite Hpl. rewrite Hpl, bind_done, Hb. cbn [defined].
    rewrite bind_done, Hl. change (P_UNLOCKED =? P_UNLOCKED) with true. cbv iota. rewrite E, bind_done. eexists. split; [done|].
    intros k v. rewrite shown_list, Hs. split; [by right|].
    intros [(q' & pl' & b' & l & (H1 & H2 & H3 & H4) & _)|H1]; [|done]. simplify_eq. by rewrite Hl in H4.
  - assert (leaf m root π i q pl b) as Hleaf by by split.
    destruct (leaf_shown (λ p n, print levels m p n (S (length π))) m root π i q pl b (Z.of_nat (length pl)) Hinv Hhere Hleaf)
      as (out & E & Hs). exists out. split; [exact E|]. intros k v. rewrite Hs. split.
    + intros (l & Hbl & Hin). left. by eauto 8.
    + intros [(q' & pl' & b' & l & Hl' & Hbl & Hin)|Hin]; [|by destruct (leaf_ends m root levels π i q pl b k v Hleaf)].
      destruct (leaf_fun _ _ _ _ _ _ _ _ _ _ Hleaf Hl') as (_ & _ & <-). by exists l.
Qed.

(** The debug print on a quiet table that lives on the printing node: it comes to its end,
    every pair it shows is in the table, and it shows exactly the pairs in the first three
    levels, so all of them when no list lies deeper. *)
Theorem print_shows m root :
  iht_inv to_num ELIST_SIZE PLIST_SIZE m root → (∀ p, is_Some (m !! p) → here p = p) →
  ∃ out, print 3 m root (Z.of_nat PLIST_SIZE) 0 = Done out ∧
    (∀ k v, shown out k v → maps ELIST_SIZE m root k v) ∧
    (∀ k v, shown out k v ↔ within m root 3 [] k v) ∧
    ((∀ π q, walk m root π = Some q → (length π < 3)%nat) → ∀ k v, shown out k v ↔ maps ELIST_SIZE m root k v).
Proof.
  intros Hinv Hhere. destruct (print_shows_below m root 3 Hinv Hhere [] root eq_refl) as (out & E & Hs).
  change (width PLIST_SIZE (length (@nil nat))) with (PLIST_SIZE * 1)%nat in E. rewrite Nat.mul_1_r in E.
  assert (∀ k v, shown out k v → maps ELIST_SIZE m root k v) as Hm.
  { intros k v (π & i & q & pl & b & l & Hl & _ & Hbl & Hin)%Hs. by exists π, i, q, pl, b, l. }
  exists out. split; [exact E|]. split; [exact Hm|]. split; [exact Hs|]. intros Hshort k v. split; [apply Hm|].
  intros (π & i & q & pl & b & l & Hl & Hbl & Hin). apply Hs. exists π, i, q, pl, b, l.
  split; [done|]. split; [|done]. destruct Hl as (Hw & _). by apply (Hshort π q).
Qed.
End print.

(** A table of two buckets, one of which has been split. *)
Definition ex_printed : gmap remote_ptr (@obj Z Z) :=
  list_to_map
    [(mkRaw 64, OPlist [mkBucket (mkRaw 128) P_UNLOCKED; mkBucket (mkRaw 192) E_UNLOCKED]);
     (mkRaw 128, OPlist [mkBucket remote_nullptr E_UNLOCKED; mkBucket (mkRaw 256) E_UNLOCKED;
                         mkBucket remote_nullptr E_LOCKED; mkBucket remote_nullptr E_UNLOCKED]);
     (mkRaw 192, OElist (mkEList 1 [Some (5, 50); None])); (mkRaw 256, OElist (mkEList 2 [Some (7, 70); Some (8, 80)]))].

Example ex_print : print 0 3 ex_printed (mkRaw 64) 2 0 =
  Done [LList 0 0 4; LEmpty 1 0; LPair 1 1 7 70; LPair 1 1 8 80; LLocked 1 1; LEmpty 1 3; LPair 0 1 5 50].
Proof. vm_compute. reflexivity. Qed.
