(* ===== verification/IhtWords.v ===== *)
(** * The one-sided table in the bytes of its nodes (iht/iht_ds.h over rdma/memory_pool.h)

    IhtRdma.v works on a memory of objects. Here the objects are laid out in the bytes of the
    nodes as the structs of the source are, the accesses of a call are the operations of the
    pool the source issues (a compare-and-swap on the lock word, an unacknowledged write of the
    lock word, a write of the base pointer, reads and a write of whole lists), and each of them,
    over a conforming card, does to the stored objects what the access of IhtRdma.v does. *)
From S2P Require Import Prelude RemotePtr SlabAllocator MemoryPool Card RdmaOps IhtRdma.

Section words.
Context {K V : Type}.
(** [sizeof(pair_t)], the offset of [pairs], [sizeof(EList)], and the bytes of a pair. *)
Context (psz off esz : nat) (pair_bytes : K * V → list Z).
Context {N : Type} `{!Nic N} (mem : N → Z → Z → Z) (self : Z) (node : Z → Z) (pending : N → Z → list Z).
Context `{!NicLaws N mem self node pending}.
Abbreviation obj := (@obj K V).
Abbreviation EList := (@EList K V).
Implicit Types (m : gmap remote_ptr obj) (f g : Z → Z) (p : MemoryPool) (n : N).

(** ** Objects as bytes *)
Definition elist_bytes (l : list Z) (e : EList) : Prop :=
  length l = esz ∧ of_le (take 8 l) = Z.of_nat (count e) ∧
  ∀ i kv, pairs e !! i = Some (Some kv) → take psz (drop (off + psz * i) l) = pair_bytes kv.
Definition stored_elist f (a : Z) (e : EList) : Prop := elist_bytes (bytes_at f a esz) e.
(** [plist_pair_t]: the base pointer, then the lock. *)
Definition stored_plist f (a : Z) (pl : PList) : Prop :=
  ∀ i b, pl !! i = Some b → word_at f (a + 16 * Z.of_nat i) = raw_ (base b) ∧ word_at f (a + 16 * Z.of_nat i + 8) = lock b.
Definition stored_obj f (a : Z) (o : obj) : Prop :=
  match o with OElist e => stored_elist f a e | OPlist pl => stored_plist f a pl end.
Definition size_of (o : obj) : Z :=
  match o with OElist _ => Z.of_nat esz | OPlist pl => 16 * Z.of_nat (length pl) end.

(** Every object is in the bytes of the node its pointer names. *)
Definition stored (mm : Z → Z → Z) m : Prop := ∀ q o, m !! q = Some o → stored_obj (mm (id q)) (address q) o.

(** Block [a, a + k) of node [nd] does not meet that of an object, *)
Definition clear_of (nd a k : Z) (q : remote_ptr) (o : obj) : Prop :=
  id q ≠ nd ∨ a + k ≤ address q ∨ address q + size_of o ≤ a.
(** or of any object; *)
Definition spare m (nd a k : Z) : Prop := ∀ q o, m !! q = Some o → clear_of nd a k q o.
(** and the objects do not meet each other. *)
Record laid m : Prop := {
  laid_fits q o : m !! q = Some o → ptr_wf q ∧ address q + size_of o ≤ 2 ^ 48;
  laid_apart q o q' o' : m !! q = Some o → m !! q' = Some o' → q ≠ q' → clear_of (id q) (address q) (size_of o) q' o' }.

Lemma word_at_ext f g a : (∀ x, a ≤ x < a + 8 → f x = g x) → word_at f a = word_at g a.
Proof. intros H. unfold word_at. f_equal. by apply bytes_at_ext. Qed.

Lemma stored_obj_ext f g a o : (∀ x, a ≤ x < a + size_of o → f x = g x) → stored_obj f a o → stored_obj g a o.
Proof.
  destruct o as [e|pl]; cbn [stored_obj size_of]; intros Hfg.
  - unfold stored_elist. by rewrite (bytes_at_ext f g).
  - intros Hf i b Hi. destruct (Hf i b Hi) as [<- <-]. apply lookup_lt_Some in Hi.
    split; symmetry; apply word_at_ext; intros x Hx; apply Hfg; lia.
Qed.

#[export] Instance stored_proper : Proper (same_memory ==> eq ==> iff) stored.
Proof.
  intros mm mm' Hmm m _ <-. by split; intros H q o Hq; (eapply stored_obj_ext; [|by apply H]); intros x _.
Qed.

(** Bytes that no object uses may change. *)
Lemma stored_frame mm m nd a l : stored mm m → spare m nd a (Z.of_nat (length l)) → stored (put_at mm nd a l) m.
Proof.
  intros Hs Hsp q o Hq. eapply stored_obj_ext; [|by apply Hs]. intros x Hx. symmetry. apply put_at_out.
  destruct (Hsp q o Hq) as [?|[?|?]]; [by left|right; lia..].
Qed.

(** An object changes in place. *)
Lemma stored_insert mm m q o o' a l :
  laid m → stored mm m → m !! q = Some o → size_of o' = size_of o →
  address q ≤ a → a + Z.of_nat (length l) ≤ address q + size_of o →
  stored_obj (put (mm (id q)) a l) (address q) o' → stored (put_at mm (id q) a l) (<[q := o']> m).
Proof.
  intros Hl Hs Hq Hsz Ha Hal Ho' q' o1 Hq'. destruct (decide (q = q')) as [<-|Hne].
  - rewrite lookup_insert_eq in Hq'. injection Hq' as <-. eapply stored_obj_ext; [|exact Ho'].
    intros x _. symmetry. apply put_at_here.
  - rewrite lookup_insert_ne in Hq' by done. eapply stored_obj_ext; [|by apply Hs]. intros x Hx. symmetry. apply put_at_out.
    destruct (laid_apart m Hl q o q' o1 Hq Hq' Hne) as [?|[?|?]]; [by left|right; lia..].
Qed.

Lemma spare_same m m' nd a k : spare m nd a k → (∀ q o', m' !! q = Some o' → ∃ o, m !! q = Some o ∧ size_of o' = size_of o) → spare m' nd a k.
Proof. intros Hs Hm q o' (o & Hq & Hsz)%Hm. specialize (Hs q o Hq). unfold clear_of in *. by rewrite Hsz. Qed.

(** ** The words of a bucket *)
Lemma word_at_put_out f a l b : b + 8 ≤ a ∨ a + Z.of_nat (length l) ≤ b → word_at (put f a l) b = word_at f b.
Proof. intros Hd. unfold word_at. f_equal. by apply bytes_at_put_out. Qed.

Lemma put_lock_word f a pl i b s : stored_plist f a pl → pl !! i = Some b → is_u 64 s →
  stored_plist (put f (a + 16 * Z.of_nat i + 8) (le_bytes 8 s)) a (<[i := mkBucket (base b) s]> pl).
Proof.
  intros Hf Hi Hs j b'. destruct (decide (i = j)) as [<-|Hne].
  - rewrite list_lookup_insert_eq by (by eapply lookup_lt_Some). intros [= <-]. destruct (Hf i b Hi) as [Hb _].
    split; cbn [base lock]; [|by apply word_at_put]. rewrite <- Hb. apply word_at_put_out. lia.
  - rewrite list_lookup_insert_ne by done. intros [<- <-]%Hf. split; apply word_at_put_out; rewrite length_le_bytes; lia.
Qed.

Lemma put_base_word f a pl i b q : stored_plist f a pl → pl !! i = Some b → ptr_wf q →
  stored_plist (put f (a + 16 * Z.of_nat i) (le_bytes 8 (raw_ q))) a (<[i := mkBucket q (lock b)]> pl).
Proof.
  intros Hf Hi Hs j b'. destruct (decide (i = j)) as [<-|Hne].
  - rewrite list_lookup_insert_eq by (by eapply lookup_lt_Some). intros [= <-]. destruct (Hf i b Hi) as [_ Hb].
    split; cbn [base lock]; [by apply word_at_put|]. rewrite <- Hb. apply word_at_put_out. rewrite length_le_bytes. lia.
  - rewrite list_lookup_insert_ne by done. intros [<- <-]%Hf. split; apply word_at_put_out; rewrite length_le_bytes; lia.
Qed.

(** The addresses the source computes for them. *)
Lemma bucket_addresses m arr pl i : laid m → m !! arr = Some (OPlist pl) → (i < length pl)%nat →
  id (get_lock arr (Z.of_nat i)) = id arr ∧ address (get_lock arr (Z.of_nat i)) = address arr + 16 * Z.of_nat i + 8 ∧
  id (get_baseptr arr (Z.of_nat i)) = id arr ∧ address (get_baseptr arr (Z.of_nat i)) = address arr + 16 * Z.of_nat i.
Proof.
  intros Hl Hq Hi. destruct (laid_fits m Hl _ _ Hq) as [Hwf Hfit]. cbn [size_of] in Hfit.
  destruct (bucket_words_disjoint arr (Z.of_nat (length pl)) (Z.of_nat i) (Z.of_nat i) Hwf) as (? & ? & ? & ? & _);
    [unfold sizeof_plist_pair; lia..|done].
Qed.

Lemma store_lock_word mm m arr pl i b s :
  laid m → stored mm m → m !! arr = Some (OPlist pl) → pl !! i = Some b → is_u 64 s →
  stored (put_at mm (id arr) (address (get_lock arr (Z.of_nat i))) (le_bytes 8 s))
    (<[arr := OPlist (<[i := mkBucket (base b) s]> pl)]> m).
Proof.
  intros Hl Hs Hq Hi Hu. pose proof (lookup_lt_Some _ _ _ Hi) as Hlt.
  destruct (bucket_addresses m arr pl i Hl Hq Hlt) as (_ & -> & _).
  apply (stored_insert _ _ _ (OPlist pl)); cbn [size_of stored_obj]; rewrite ?length_insert, ?length_le_bytes; [done..|lia|lia|].
  apply put_lock_word; [exact (Hs _ _ Hq)|done..].
Qed.

Lemma store_base_word mm m arr pl i b q :
  laid m → stored mm m → m !! arr = Some (OPlist pl) → pl !! i = Some b → ptr_wf q →
  stored (put_at mm (id arr) (address (get_baseptr arr (Z.of_nat i))) (le_bytes 8 (raw_ q)))
    (<[arr := OPlist (<[i := mkBucket q (lock b)]> pl)]> m).
Proof.
  intros Hl Hs Hq Hi Hu. pose proof (lookup_lt_Some _ _ _ Hi) as Hlt.
  destruct (bucket_addresses m arr pl i Hl Hq Hlt) as (_ & _ & _ & ->).
  apply (stored_insert _ _ _ (OPlist pl)); cbn [size_of stored_obj]; rewrite ?length_insert, ?length_le_bytes; [done..|lia|lia|].
  apply put_base_word; [exact (Hs _ _ Hq)|done..].
Qed.

(** A private copy holds what was copied. *)
Lemma bytes_at_copy f g d a k j l : (j + l ≤ k)%nat →
  bytes_at (put g d (bytes_at f a k)) (d + Z.of_nat j) l = bytes_at f (a + Z.of_nat j) l.
Proof.
  intros Hjl. apply list_eq_same_length with l; [by rewrite bytes_at_length|by rewrite bytes_at_length|].
  intros i x y Hi Hx Hy. rewrite bytes_at_lookup in Hx, Hy by done. injection Hx as <-. injection Hy as <-.
  replace (d + Z.of_nat j + Z.of_nat i) with (d + Z.of_nat (j + i)) by lia. apply put_in.
  rewrite bytes_at_lookup by lia. do 2 f_equal. lia.
Qed.

Lemma copy_elist f g a d e : stored_elist f a e → stored_elist (put g d (bytes_at f a esz)) d e.
Proof. unfold stored_elist. rewrite <- (bytes_at_length f a esz) at 3. by rewrite bytes_at_put. Qed.

Lemma copy_plist f g a d pl k : stored_plist f a pl → (k ≤ length pl)%nat →
  stored_plist (put g d (bytes_at f a (16 * k))) d (take k pl).
Proof.
  intros Hf Hk i b [Hi Hlt]%lookup_take_Some. destruct (Hf i b Hi) as [<- <-]. unfold word_at.
  replace (d + 16 * Z.of_nat i + 8) with (d + Z.of_nat (16 * i + 8)) by lia.
  replace (d + 16 * Z.of_nat i) with (d + Z.of_nat (16 * i)) by lia.
  rewrite !bytes_at_copy by lia. split; do 2 f_equal; lia.
Qed.

(** and a PList is determined by its bytes. *)
Lemma stored_plist_inj f a pl pl' : stored_plist f a pl → stored_plist f a pl' → length pl = length pl' → pl = pl'.
Proof.
  intros H H' Hl. apply list_eq_same_length with (length pl'); [done..|]. intros i [[b] l] [[b'] l'] _ Hi Hi'.
  destruct (H _ _ Hi) as [H1 H2], (H' _ _ Hi') as [H3 H4]. cbn in *. congruence.
Qed.

(** ** The accesses of a call, as the source issues them *)
Section ops.
Context (PLIST_SIZE : nat) (fuel : nat) (tid : nat).
(** The landing blocks allocated by the constructor. *)
Context (temp_lock temp_ptr temp_elist : remote_ptr).

(** One round of [acquire]; [unlock]; [change_bucket_pointer]. *)
Definition acquire_cas p (arr : remote_ptr) (bucket : nat) n : result (Z * MemoryPool * N) :=
  CompareAndSwap fuel p tid (get_lock arr (Z.of_nat bucket)) E_UNLOCKED E_LOCKED n.
Definition unlock_write p (arr : remote_ptr) (bucket : nat) (unlock_status : Z) n : result (MemoryPool * N) :=
  Write 8 fuel p tid (get_lock arr (Z.of_nat bucket)) (le_bytes 8 unlock_status) temp_lock 1 n.
Definition base_write p (arr : remote_ptr) (bucket : nat) (baseptr : remote_ptr) n : result (MemoryPool * N) :=
  let bucket_ptr := get_baseptr arr (Z.of_nat bucket) in
  if negb (is_local self bucket_ptr) then Write 8 fuel p tid bucket_ptr (le_bytes 8 (raw_ baseptr)) temp_ptr 0 n
  else Done (p, local_store n (address bucket_ptr) 8 (le_bytes 8 (raw_ baseptr))).
(** The reads of a PList and of an element list (the list itself when it is local). *)
Definition plist_read p (arr : remote_ptr) (size : Z) n : result (remote_ptr * MemoryPool * N) :=
  ExtendedRead (16 * Z.of_nat PLIST_SIZE) fuel p tid arr size remote_nullptr n.
Definition root_read p (root : remote_ptr) n : result (remote_ptr * MemoryPool * N) :=
  Read (16 * Z.of_nat PLIST_SIZE) fuel p tid root remote_nullptr n.
Definition elist_read p (bucket_base : remote_ptr) n : result (remote_ptr * MemoryPool * N) :=
  if is_local self bucket_base || is_null bucket_base then Done (bucket_base, p, n)
  else Read (Z.of_nat esz) fuel p tid bucket_base temp_elist n.
(** The write of a changed copy. *)
Definition elist_write p (bucket_base : remote_ptr) (bytes : list Z) n : result (MemoryPool * N) :=
  Write (Z.of_nat esz) fuel p tid bucket_base bytes remote_nullptr 0 n.

Section specs.
Context (info : conn_info_t) (idx : Z).
Context (Hfuel : (1 ≤ fuel)%nat).

(** The connection to the node of [q]: known, idle and leading there. *)
Record reaches p n (q : remote_ptr) : Prop := {
  re_post : can_post p tid q info idx 0;
  re_node : node (ci_conn info) = id q;
  re_idle : pending n (ci_conn info) = [] }.

(** The buffer of a write: of [k] bytes, no object's, and not at the target's address. *)
Record write_buffer m p (prealloc q : remote_ptr) (k local : Z) (p' : MemoryPool) : Prop := {
  wb_take : ∃ p1, borrow k p tid prealloc = Done (local, p1) ∧ give_back k (settled p1 idx) tid prealloc local = Done p';
  wb_spare : spare m self local k;
  wb_addr : local ≠ address q ∧ local ≠ 0 }.

(** Its counter is at zero, so an operation leaves the pool as it was, *)
Lemma settled_id p : reordering_counters p !! Z.to_nat idx = Some 0 → settled p idx = p.
Proof. intros Hc. unfold settled, set_counters. rewrite list_insert_id by done. by destruct p. Qed.

Lemma can_post_address p q q' c0 : id q = id q' → can_post p tid q info idx c0 → can_post p tid q' info idx c0.
Proof. intros E [Hi ? ?]. split; [by rewrite <- E|done..]. Qed.

Lemma borrow_can_post p q prealloc k local p1 c0 :
  borrow k p tid prealloc = Done (local, p1) → can_post p tid q info idx c0 → can_post p1 tid q info idx c0.
Proof.
  unfold borrow. intros Hb [? ? ?]. destruct (is_null prealloc); [|apply done_pair in Hb as [_ <-]; by split].
  apply bind_done_inv in Hb as ([a m1] & _ & [= _ <-]). by split.
Qed.

(** A write of [l] through a buffer leaves [l] at the target and what the objects are alone. *)
Lemma write_stored m p n prealloc q k l local p' wb :
  stored (mem n) m → reaches p n q → write_buffer m p prealloc q k local p' → 0 ≤ k < 2 ^ 32 →
  length l = Z.to_nat k → Forall (λ b, 0 ≤ b < 256) l →
  ∃ n', Write k fuel p tid q l prealloc wb n = Done (p', n') ∧ (∀ c, pending n' c = pending n c) ∧
    stored (put_at (mem n) self local l) m ∧ same_memory (mem n') (put_at (put_at (mem n) self local l) (id q) (address q) l).
Proof.
  intros Hs [Hc Hn Hp] [(p1 & Hb & Hg) Hsp [Ha Hz]] Hk Hl Hv.
  destruct (Write_spec mem self node pending k fuel p tid q l prealloc wb n info idx 0 local p1 p') as (n' & E & Hp' & Hm);
    [done|done|by eapply borrow_can_post|done..|]. exists n'. rewrite Hn in Hm. split_and!; [done..| |done].
  apply stored_frame; [done|]. by rewrite Hl, Z2Nat.id by lia.
Qed.

(** A landing block of the handle is such a buffer. *)
Lemma temp_buffer m p t q k : reordering_counters p !! Z.to_nat idx = Some 0 → is_null t = false → spare m self (address t) k →
  address t ≠ address q → address t ≠ 0 → write_buffer m p t q k (address t) p.
Proof.
  intros Hc Hn Hs Hq H0. split; [|done..]. exists p. unfold borrow, give_back. rewrite Hn. by rewrite settled_id.
Qed.

(** A round of [acquire] is [cas_lock]. *)
Lemma acquire_cas_spec m p n arr i v m' a r1 r2 :
  laid m → stored (mem n) m → cas_lock m arr i E_UNLOCKED E_LOCKED = Done (v, m') →
  reaches p n arr → allocate 8 (rdma_memory_ p) tid 1 = Done (a, r1) → deallocate 8 r1 tid (al_ptr a) 8 = Done r2 →
  spare m self (al_ptr a) 8 →
  ∃ n', acquire_cas p arr i n = Done (v, set_memory p r2, n') ∧ (∀ c, pending n' c = pending n c) ∧ stored (mem n') m'.
Proof.
  intros Hl Hs Hcas [Hc Hn Hp] Hal Hfr Hsp. unfold cas_lock in Hcas.
  apply bind_done_inv in Hcas as (pl & Hpl & Hcas). apply bind_done_inv in Hcas as (b & Hb & Hcas).
  unfold read_plist in Hpl. destruct (m !! arr) as [[|pl']|] eqn:Hq; [done|injection Hpl as ->|done]. apply defined_done in Hb.
  pose proof (lookup_lt_Some _ _ _ Hb) as Hlt. destruct (bucket_addresses m arr pl i Hl Hq Hlt) as (Hid & Had & _).
  destruct (CompareAndSwap_run mem self node pending fuel p tid (get_lock arr (Z.of_nat i)) E_UNLOCKED E_LOCKED n info idx a r1 r2)
    as (n' & E & Hp' & Hm); [split; [exists 0; by eapply can_post_address|done..]|done..|].
  rewrite Hn, Had in E, Hm. destruct (Hs _ _ Hq i b Hb) as [_ Hw]. rewrite Hw in E, Hm. rewrite <- Had in Hm.
  exists n'. rewrite settled_id in E by apply Hc. destruct (lock b =? E_UNLOCKED); apply done_pair in Hcas as [<- <-]; (split; [exact E|]); (split; [done|]); rewrite Hm.
  - apply stored_frame; [by apply store_lock_word|]. rewrite length_le_bytes. eapply spare_same; [exact Hsp|].
    intros q o' [[<- <-]|[_ Hq']]%lookup_insert_Some; [|by eexists]. exists (OPlist pl). cbn [size_of]. by rewrite length_insert.
  - by apply stored_frame; [|by rewrite length_le_bytes].
Qed.

(** [unlock] is the write of [IhtRdma.unlock], *)
Lemma unlock_write_spec m p n arr i s m' local p' :
  laid m → stored (mem n) m → unlock m arr i s = Done m' → is_u 64 s → reaches p n arr →
  write_buffer m p temp_lock (get_lock arr (Z.of_nat i)) 8 local p' →
  ∃ n', unlock_write p arr i s n = Done (p', n') ∧ (∀ c, pending n' c = pending n c) ∧ stored (mem n') m'.
Proof.
  intros Hl Hs Hu Hsu [Hc Hn Hp] Hbuf. unfold unlock, write_bucket in Hu. done_inv. rename r into pl, r0 into b.
  unfold read_plist in Hu0. destruct (m !! arr) as [[|pl']|] eqn:Hq; [done|injection Hu0 as ->|done].
  pose proof (lookup_lt_Some _ _ _ Hu1) as Hlt. destruct (bucket_addresses m arr pl i Hl Hq Hlt) as (Hid & _).
  destruct (write_stored m p n temp_lock (get_lock arr (Z.of_nat i)) 8 (le_bytes 8 s) local p' 1) as (n' & E & Hp' & Hs' & Hm);
    [done|split; [by eapply can_post_address|by rewrite Hid|done]|done|lia|by rewrite length_le_bytes|apply le_bytes_range|].
  exists n'. split_and!; [done..|]. rewrite Hm, Hid. by apply store_lock_word.
Qed.

(** [change_bucket_pointer] that of [IhtRdma.change_bucket_pointer], by request or in place, *)
Lemma base_write_spec m p n arr i q m' local :
  laid m → stored (mem n) m → change_bucket_pointer m arr i q = Done m' → ptr_wf q → reaches p n arr →
  write_buffer m p temp_ptr (get_baseptr arr (Z.of_nat i)) 8 local p →
  ∃ n', base_write p arr i q n = Done (p, n') ∧ (∀ c, pending n' c = pending n c) ∧ stored (mem n') m'.
Proof.
  intros Hl Hs Hu Hsu [Hc Hn Hp] Hbuf. unfold change_bucket_pointer, write_bucket in Hu. done_inv. rename r into pl, r0 into b.
  unfold read_plist in Hu0. destruct (m !! arr) as [[|pl']|] eqn:Hq; [done|injection Hu0 as ->|done].
  pose proof (lookup_lt_Some _ _ _ Hu1) as Hlt. destruct (bucket_addresses m arr pl i Hl Hq Hlt) as (_ & _ & Hid & _).
  unfold base_write, is_local. rewrite Hid. destruct (Z.eqb_spec (id arr) self) as [El|Hne]; cbn [negb].
  - destruct (store_exact mem self node pending n (address (get_baseptr arr (Z.of_nat i))) 8 (le_bytes 8 (raw_ q))) as [Hm Hpe];
      [apply le_bytes_range|by rewrite length_le_bytes|].
    eexists. split; [done|]. split; [done|]. rewrite Hm, <- El. by apply store_base_word.
  - destruct (write_stored m p n temp_ptr (get_baseptr arr (Z.of_nat i)) 8 (le_bytes 8 (raw_ q)) local p 0) as (n' & E & Hp' & Hs' & Hm);
      [done|split; [by eapply can_post_address|by rewrite Hid|done]|done|lia|by rewrite length_le_bytes|apply le_bytes_range|].
    eexists. split; [exact E|]. split; [done|]. rewrite Hm, Hid. by apply store_base_word.
Qed.

(** a fetched PList is a copy of what [fetch_plist] returns, *)
Lemma plist_copied m n n' arr size pl dst :
  stored (mem n) m → fetch_plist PLIST_SIZE m arr size = Done pl → 0 < size →
  same_memory (mem n') (put_at (mem n) self (address dst)
    (bytes_at (mem n (id arr)) (address arr) (Z.to_nat (16 * Z.of_nat PLIST_SIZE * size)))) →
  spare m self (address dst) (16 * Z.of_nat PLIST_SIZE * size) →
  stored (mem n') m ∧ stored_plist (mem n' self) (address dst) pl.
Proof.
  intros Hs Hf Hsz Hm Hsp. unfold fetch_plist in Hf. apply bind_done_inv in Hf as (pl0 & Hr & Hf).
  case_bool_decide as Hlen; [|done]. injection Hf as <-. unfold read_plist in Hr.
  destruct (m !! arr) as [[|pl']|] eqn:Hq; [done|injection Hr as ->|done].
  replace (Z.to_nat (16 * Z.of_nat PLIST_SIZE * size)) with (16 * (Z.to_nat size * PLIST_SIZE))%nat in Hm by lia. split.
  - rewrite Hm. apply stored_frame; [done|]. rewrite bytes_at_length. eapply (eq_ind _ (spare m self (address dst)) Hsp). lia.
  - eapply (stored_obj_ext _ _ _ (OPlist _)); [|eapply copy_plist; [exact (Hs _ _ Hq)|exact Hlen]].
    intros x _. by rewrite (Hm self x), put_at_here.
Qed.

Lemma Allocate_can_post p q k size dst p1 c0 : Allocate k p tid size = Done (dst, p1) → can_post p tid q info idx c0 → can_post p1 tid q info idx c0.
Proof. unfold Allocate. intros (a & _ & Ha)%bind_done_inv [? ? ?]. destruct a. apply done_pair in Ha as [_ <-]. by split. Qed.

Lemma plist_read_spec m p n arr size pl dst p1 :
  stored (mem n) m → fetch_plist PLIST_SIZE m arr size = Done pl → reaches p n arr → 0 < size → (0 < PLIST_SIZE)%nat →
  16 * Z.of_nat PLIST_SIZE * size < 2 ^ 32 →
  Allocate (16 * Z.of_nat PLIST_SIZE) p tid (u64 size) = Done (dst, p1) → spare m self (address dst) (16 * Z.of_nat PLIST_SIZE * size) →
  ∃ n', plist_read p arr size n = Done (dst, p1, n') ∧ (∀ c, pending n' c = pending n c) ∧ stored (mem n') m ∧
    stored_plist (mem n' self) (address dst) pl.
Proof.
  intros Hs Hf [Hc Hn Hp] Hsz HP Hlt Hal Hsp. pose proof (Allocate_can_post _ _ _ _ _ _ _ Hal Hc) as Hc1.
  destruct (ExtendedRead_spec mem self node pending (16 * Z.of_nat PLIST_SIZE) fuel p tid arr size remote_nullptr n dst p1 info idx 0)
    as (n' & E & Hp' & Hm); [done..|lia|done|].
  exists n'. rewrite settled_id in E by apply Hc1. rewrite Hn in Hm. split_and!; [done..| |]; by eapply plist_copied.
Qed.

Lemma root_read_spec m p n arr pl dst p1 :
  stored (mem n) m → fetch_plist PLIST_SIZE m arr 1 = Done pl → reaches p n arr → (0 < PLIST_SIZE)%nat →
  16 * Z.of_nat PLIST_SIZE < 2 ^ 32 →
  Allocate (16 * Z.of_nat PLIST_SIZE) p tid 1 = Done (dst, p1) → spare m self (address dst) (16 * Z.of_nat PLIST_SIZE) →
  ∃ n', root_read p arr n = Done (dst, p1, n') ∧ (∀ c, pending n' c = pending n c) ∧ stored (mem n') m ∧
    stored_plist (mem n' self) (address dst) pl.
Proof.
  intros Hs Hf [Hc Hn Hp] HP Hlt Hal Hsp. pose proof (Allocate_can_post _ _ _ _ _ _ _ Hal Hc) as Hc1.
  destruct (Read_spec mem self node pending (16 * Z.of_nat PLIST_SIZE) fuel p tid arr remote_nullptr n dst p1 info idx 0)
    as (n' & E & Hp' & Hm); [done..|lia|].
  exists n'. rewrite settled_id in E by apply Hc1. rewrite Hn in Hm. rewrite <- (Z.mul_1_r (16 * _)) in Hm, Hsp.
  split_and!; [done..| |]; by eapply (plist_copied m n n' arr 1).
Qed.

(** and what stands for an element list is the list, or a copy of it in [temp_elist]; *)
Lemma elist_read_spec m p n q e :
  stored (mem n) m → read_elist m q = Done e → is_null q = false → is_null temp_elist = false → reaches p n q → (0 < esz)%nat →
  Z.of_nat esz < 2 ^ 32 → spare m self (address temp_elist) (Z.of_nat esz) →
  ∃ dst n', elist_read p q n = Done (dst, p, n') ∧ (∀ c, pending n' c = pending n c) ∧ stored (mem n') m ∧
    stored_elist (mem n' self) (address dst) e.
Proof.
  intros Hs Hr Hnq Hnt [Hc Hn Hp] He Hlt Hsp. unfold read_elist in Hr. destruct (m !! q) as [[e'|]|] eqn:Hq; [injection Hr as ->|done..].
  unfold elist_read, is_local. rewrite Hnq, orb_false_r. destruct (Z.eqb_spec (id q) self) as [El|Hne].
  { do 2 eexists. split_and!; [done..|]. rewrite <- El. exact (Hs _ _ Hq). }
  destruct (Read_spec mem self node pending (Z.of_nat esz) fuel p tid q temp_elist n temp_elist p info idx 0) as (n' & E & Hp' & Hm);
    [unfold prealloc_or; by rewrite Hnt|done..|lia|].
  exists temp_elist, n'. rewrite settled_id in E by apply Hc. rewrite Hn, Nat2Z.id in Hm. split_and!; [done..| |].
  - rewrite Hm. apply stored_frame; [done|]. by rewrite bytes_at_length.
  - eapply (stored_obj_ext _ _ _ (OElist _)); [|eapply copy_elist; exact (Hs _ _ Hq)].
    intros x _. by rewrite (Hm self x), put_at_here.
Qed.

(** the write of a changed copy replaces the list. *)
Lemma elist_write_spec m p n q e e' bytes local p' :
  laid m → stored (mem n) m → read_elist m q = Done e → elist_bytes bytes e' → Forall (λ b, 0 ≤ b < 256) bytes → reaches p n q →
  Z.of_nat esz < 2 ^ 32 → write_buffer m p remote_nullptr q (Z.of_nat esz) local p' →
  ∃ n', elist_write p q bytes n = Done (p', n') ∧ (∀ c, pending n' c = pending n c) ∧ stored (mem n') (<[q := OElist e']> m).
Proof.
  intros Hl Hs Hr He Hb [Hc Hn Hp] Hlt Hbuf. unfold read_elist in Hr. destruct (m !! q) as [[e0|]|] eqn:Hq; [injection Hr as ->|done..].
  pose proof (proj1 He) as Hlen.
  destruct (write_stored m p n remote_nullptr q (Z.of_nat esz) bytes local p' 0) as (n' & E & Hp' & Hs' & Hm);
    [done..|lia|by rewrite Nat2Z.id|done|].
  exists n'. split_and!; [done..|]. rewrite Hm. apply (stored_insert _ _ _ (OElist e)); [done..|lia| |].
  - cbn [size_of]. lia.
  - cbn [stored_obj]. unfold stored_elist. by rewrite <- Hlen, bytes_at_put.
Qed.
End specs.
End ops.
End words.
