(* ===== verification/IhtSession.v ===== *)
(** * A client of the one-sided table over the wire (iht/iht_ds.h over rdma/memory_pool.h)

    The accesses of IhtWords.v in sequence, with the pool's allocator under them: the private
    copies of fetched lists and their release, the buffers of writes, and the new lists a
    client makes in its own memory. A session is a client whose pool, memory and connections are
    in order; every access leaves one, so that no access can spoil the objects or what the next
    one needs, as long as the bump region has room. *)
From S2P Require Import Prelude RemotePtr Memory SlabAllocator MemoryPool Card RdmaOps IhtRdma IhtWords.

(** ** In-place changes of a list in the client's own memory *)
Section local.
Context {K V : Type} (psz off esz PLIST_SIZE : nat) (pair_bytes : K * V → list Z).
Context {N : Type} `{!Nic N}.
Implicit Types (p : MemoryPool) (n : N).

(** [elist_insert] on the list at [a]. *)
Definition insert_in_place n (a : Z) (kv : K * V) : N :=
  let count := local_load64 n a in
  let n := local_store n (a + Z.of_nat off + Z.of_nat psz * count) (Z.of_nat psz) (pair_bytes kv) in
  local_store n a 8 (le_bytes 8 (u64 (count + 1))).

(** [InitPList(p, mult_modder)] on the block at [a]. *)
Definition init_in_place n (a : Z) (mult_modder : nat) : N :=
  foldl (λ n i, local_store n (a + 16 * Z.of_nat i) 16 (le_bytes 8 (raw_ remote_nullptr) ++ le_bytes 8 E_UNLOCKED))
    n (seq 0 (PLIST_SIZE * mult_modder)).

(** The new lists: of [rehash] and [InitAsFirst], and of an insert into an empty bucket. *)
Definition new_plist p (tid mult : nat) n : result (remote_ptr * MemoryPool * N) :=
  '(q, p) ← Allocate (16 * Z.of_nat PLIST_SIZE) p tid (Z.of_nat mult);
  Done (q, p, init_in_place n (address q) mult).
Definition new_elist p (tid : nat) (kv : K * V) n : result (remote_ptr * MemoryPool * N) :=
  '(q, p) ← Allocate (Z.of_nat esz) p tid 1;
  Done (q, p, insert_in_place (local_store n (address q) 8 (le_bytes 8 0)) (address q) kv).
End local.

Lemma first_of_replicate {A} (x y : A) k : (0 < k)%nat → <[0%nat := x]> (replicate k y) = x :: replicate (pred k) y.
Proof. destruct k; [lia|done]. Qed.

Section local_specs.
Context {K V : Type} (psz off esz PLIST_SIZE : nat) (pair_bytes : K * V → list Z).
Context {N : Type} `{!Nic N} (mem : N → Z → Z → Z) (self : Z) (node : Z → Z) (pending : N → Z → list Z).
Context `{!NicLaws N mem self node pending}.
(** The layout of an [EList]: the count, then room for [cap] pairs. *)
Context (cap : nat).
Record layout : Prop := {
  la_pair kv : length (pair_bytes kv) = psz ∧ Forall (λ b, 0 ≤ b < 256) (pair_bytes kv);
  la_psz : (0 < psz)%nat;
  la_off : (8 ≤ off)%nat;
  la_fits : (off + psz * cap ≤ esz)%nat;
  la_class : class_size (Z.of_nat esz) }.
Context (Hla : layout).
Abbreviation stored_elist := (stored_elist psz off esz pair_bytes).
Abbreviation elist_bytes := (elist_bytes psz off esz pair_bytes).
Implicit Types (f : Z → Z) (n : N) (e : @EList K V).

Lemma bytes_at_app f a i j : bytes_at f a (i + j) = bytes_at f a i ++ bytes_at f (a + Z.of_nat i) j.
Proof.
  apply list_eq_same_length with (i + j)%nat; [by rewrite length_app, !bytes_at_length|by rewrite bytes_at_length|].
  intros k x y Hk. rewrite bytes_at_lookup by done. intros [= <-]. destruct (decide (k < i)%nat).
  - rewrite lookup_app_l by (by rewrite bytes_at_length). rewrite bytes_at_lookup by done. by intros [= <-].
  - rewrite lookup_app_r by (rewrite bytes_at_length; lia). rewrite bytes_at_length, bytes_at_lookup by lia.
    intros [= <-]. f_equal. lia.
Qed.

Lemma bytes_at_sub f a i j k : (i + j ≤ k)%nat → take j (drop i (bytes_at f a k)) = bytes_at f (a + Z.of_nat i) j.
Proof.
  intros Hk. replace k with (i + (j + (k - i - j)))%nat by lia. rewrite bytes_at_app, bytes_at_app.
  rewrite drop_app_length' by (by rewrite bytes_at_length). by rewrite take_app_length' by (by rewrite bytes_at_length).
Qed.

(** A stored list, place by place. *)
Lemma stored_elist_places f a e : (length (pairs e) ≤ cap)%nat →
  stored_elist f a e ↔ word_at f a = Z.of_nat (count e) ∧
    ∀ i kv, pairs e !! i = Some (Some kv) → bytes_at f (a + Z.of_nat off + Z.of_nat psz * Z.of_nat i) psz = pair_bytes kv.
Proof.
  intros Hl. destruct Hla as [_ Hpsz Hoff Hfit _]. unfold IhtWords.stored_elist, IhtWords.elist_bytes.
  assert (∀ i, (i < cap)%nat → take psz (drop (off + psz * i) (bytes_at f a esz)) =
    bytes_at f (a + Z.of_nat off + Z.of_nat psz * Z.of_nat i) psz) as Hp.
  { intros i Hi. rewrite bytes_at_sub by nia. f_equal. lia. }
  assert (take 8 (bytes_at f a esz) = bytes_at f a 8) as Hw.
  { rewrite <- (drop_0 (bytes_at f a esz)), bytes_at_sub by lia. f_equal. lia. }
  rewrite Hw. fold (word_at f a). split.
  - intros (_ & Hc & H). split; [done|]. intros i kv Hi. rewrite <- Hp; [by apply H|]. apply lookup_lt_Some in Hi. lia.
  - intros (Hc & H). split; [by rewrite bytes_at_length|]. split; [done|]. intros i kv Hi. rewrite Hp; [by apply H|].
    apply lookup_lt_Some in Hi. lia.
Qed.

(** A sequence of stores in one block. *)
Definition within (mm mm' : Z → Z → Z) (a k : Z) : Prop := ∀ nd x, nd ≠ self ∨ x < a ∨ a + k ≤ x → mm' nd x = mm nd x.

Lemma store_within n b l bytes : Forall (λ b, 0 ≤ b < 256) bytes → length bytes = Z.to_nat l →
  let n' := local_store n b l bytes in
  (∀ x, mem n' self x = put (mem n self) b bytes x) ∧
  (∀ a k, a ≤ b → b + Z.of_nat (length bytes) ≤ a + k → within (mem n) (mem n') a k) ∧ ∀ c, pending n' c = pending n c.
Proof.
  intros Hb Hl n'. destruct (store_exact mem self node pending n b l bytes Hb Hl) as [Hm Hp]. fold n' in Hm, Hp. split_and!; [| |done].
  - intros x. by rewrite (Hm self x), put_at_here.
  - intros a k Ha Hk nd x Hx. rewrite (Hm nd x). apply put_at_out. destruct Hx as [?|[?|?]]; [by left|right; lia..].
Qed.

Lemma within_trans mm1 mm2 mm3 a k : within mm1 mm2 a k → within mm2 mm3 a k → within mm1 mm3 a k.
Proof. intros H1 H2 nd x Hx. by rewrite H2, H1. Qed.

Lemma insert_in_place_spec n a e e' kv :
  length (pairs e) = cap → stored_elist (mem n self) a e → elist_insert e kv = Done e' →
  let n' := insert_in_place psz off pair_bytes n a kv in
  stored_elist (mem n' self) a e' ∧ length (pairs e') = cap ∧ within (mem n) (mem n') a (Z.of_nat esz) ∧
  ∀ c, pending n' c = pending n c.
Proof.
  intros Hlen Hs Hi n'. unfold elist_insert in Hi. case_bool_decide as Hlt; [|done]. injection Hi as <-.
  apply stored_elist_places in Hs as [Hc Hps]; [|lia]. destruct (la_pair Hla kv) as [Hpl Hpb].
  pose proof (la_psz Hla). pose proof (la_off Hla). pose proof (la_fits Hla). pose proof (class_size_bounds _ (la_class Hla)).
  unfold n', insert_in_place. rewrite (load_word n a), Hc.
  set (b := a + Z.of_nat off + Z.of_nat psz * Z.of_nat (count e)).
  destruct (store_within n b (Z.of_nat psz) (pair_bytes kv)) as (B1 & W1 & P1); [done|by rewrite Nat2Z.id|].
  set (n1 := local_store n b (Z.of_nat psz) (pair_bytes kv)) in *.
  replace (u64 (Z.of_nat (count e) + 1)) with (Z.of_nat (S (count e))) by (unfold u64; rewrite wrap_small; unfold is_u; nia).
  destruct (store_within n1 a 8 (le_bytes 8 (Z.of_nat (S (count e))))) as (B2 & W2 & P2); [apply le_bytes_range|by rewrite length_le_bytes|].
  set (n2 := local_store n1 a 8 _) in *. rewrite length_le_bytes in W2. split_and!.
  - apply stored_elist_places; cbn [pairs count]; [rewrite length_insert; lia|]. split.
    + rewrite (word_at_ext _ _ _ (λ x _, B2 x)). apply word_at_put. unfold is_u. nia.
    + intros i kv' Hi. pose proof (lookup_lt_Some _ _ _ Hi) as Hil. rewrite length_insert in Hil.
      rewrite (bytes_at_ext _ _ _ _ (λ x _, B2 x)), bytes_at_put_out by (rewrite length_le_bytes; lia).
      rewrite (bytes_at_ext _ _ _ _ (λ x _, B1 x)). destruct (decide (i = count e)) as [->|Hne].
      * rewrite list_lookup_insert_eq in Hi by lia. injection Hi as <-. fold b. rewrite <- Hpl. apply bytes_at_put.
      * rewrite list_lookup_insert_ne in Hi by done. rewrite bytes_at_put_out by (rewrite Hpl; unfold b; nia). by apply Hps.
  - cbn. by rewrite length_insert.
  - eapply within_trans; [apply W1|apply W2]; unfold b; rewrite ?Hpl; nia.
  - intros c. by rewrite P2, P1.
Qed.

(** The list an insert makes for an empty bucket, whatever the block held. *)
Lemma first_pair_spec n a kv : (0 < cap)%nat →
  let n' := insert_in_place psz off pair_bytes (local_store n a 8 (le_bytes 8 0)) a kv in
  stored_elist (mem n' self) a (mkEList 1 (Some kv :: replicate (pred cap) None)) ∧
  within (mem n) (mem n') a (Z.of_nat esz) ∧ ∀ c, pending n' c = pending n c.
Proof.
  intros Hcap n'. pose proof (la_off Hla). pose proof (la_fits Hla).
  destruct (store_within n a 8 (le_bytes 8 0)) as (B1 & W1 & P1); [apply le_bytes_range|by rewrite length_le_bytes|].
  set (n1 := local_store n a 8 (le_bytes 8 0)) in *. rewrite length_le_bytes in W1.
  destruct (insert_in_place_spec n1 a (mkEList 0 (replicate cap None)) (mkEList 1 (<[0%nat := Some kv]> (replicate cap None))) kv)
    as (Hs & _ & W2 & P2); [by cbn; rewrite length_replicate| | |].
  - apply stored_elist_places; cbn [pairs count]; [by rewrite length_replicate|]. split.
    + rewrite (word_at_ext _ _ _ (λ x _, B1 x)). by apply word_at_put.
    + intros i kv' [Hi _]%lookup_replicate. done.
  - unfold elist_insert. cbn [pairs count]. rewrite length_replicate. by rewrite bool_decide_eq_true_2.
  - fold n' in Hs, W2, P2. rewrite first_of_replicate in Hs by done. split_and!; [done| |intros c; by rewrite P2, P1].
    eapply within_trans; [apply W1; lia|exact W2].
Qed.

Lemma init_in_place_spec n a mult :
  let n' := init_in_place PLIST_SIZE n a mult in
  stored_plist (mem n' self) a (InitPList PLIST_SIZE mult) ∧
  within (mem n) (mem n') a (16 * Z.of_nat (PLIST_SIZE * mult)) ∧ ∀ c, pending n' c = pending n c.
Proof.
  unfold init_in_place, InitPList. generalize (PLIST_SIZE * mult)%nat as k. induction k as [|k IH]; cbv zeta.
  { split_and!; [by intros i b [_ Hi]%lookup_replicate; lia|by intros ???|done]. }
  rewrite seq_S, foldl_app. cbn [foldl plus]. set (nk := foldl _ n (seq 0 k)) in *. destruct IH as (Hs & W & P).
  destruct (store_within nk (a + 16 * Z.of_nat k) 16 (le_bytes 8 (raw_ remote_nullptr) ++ le_bytes 8 E_UNLOCKED)) as (B1 & W1 & P1);
    [apply Forall_app; split; apply le_bytes_range|by rewrite length_app, !length_le_bytes|].
  set (n1 := local_store nk _ _ _) in *. rewrite length_app, !length_le_bytes in W1. split_and!.
  - intros i b [-> Hi]%lookup_replicate. cbn [base lock]. destruct (decide (i = k)) as [->|Hne].
    + set (w := le_bytes 8 (raw_ remote_nullptr) ++ le_bytes 8 E_UNLOCKED) in *.
      assert (bytes_at (mem n1 self) (a + 16 * Z.of_nat k) (8 + 8) = w) as Hb.
      { rewrite (bytes_at_ext _ _ _ _ (λ x _, B1 x)). change (8 + 8)%nat with (length w). apply bytes_at_put. }
      rewrite bytes_at_app in Hb. apply app_inj_1 in Hb as [Hb1 Hb2]; [|by rewrite bytes_at_length, length_le_bytes].
      unfold word_at. change (Z.of_nat 8) with 8 in Hb2. rewrite Hb1, Hb2. by vm_compute.
    + destruct (Hs i (mkBucket remote_nullptr E_UNLOCKED)) as [E1 E2]; [apply lookup_replicate; split; [done|lia]|].
      cbn [base lock] in E1, E2. rewrite <- E1, <- E2.
      split; rewrite (word_at_ext _ _ _ (λ x _, B1 x)); apply word_at_put_out; rewrite length_app, !length_le_bytes; lia.
  - eapply within_trans; [|apply W1; lia]. intros nd x Hx. apply W. destruct Hx as [?|[?|?]]; [by left|right; lia..].
  - intros c. by rewrite P1, P.
Qed.
End local_specs.

Section session.
Context {K V : Type} (psz off esz PLIST_SIZE ELIST_SIZE : nat) (pair_bytes : K * V → list Z).
Context {N : Type} `{!Nic N} (mem : N → Z → Z → Z) (self : Z) (node : Z → Z) (pending : N → Z → list Z).
Context `{!NicLaws N mem self node pending}.
Context (fuel tid : nat) (temp_lock temp_ptr temp_elist : remote_ptr).
Abbreviation obj := (@obj K V).
Abbreviation EList := (@EList K V).
Abbreviation memory := (gmap remote_ptr obj).
Abbreviation elist_bytes := (elist_bytes psz off esz pair_bytes).
Abbreviation stored := (stored psz off esz pair_bytes).
Abbreviation stored_elist := (stored_elist psz off esz pair_bytes).
Abbreviation laid := (laid esz).
Abbreviation spare := (spare esz).
Abbreviation size_of := (@size_of K V esz).
Implicit Types (m : memory) (p : MemoryPool) (n : N).

(** ** The accesses of a call *)
Inductive access :=
| ACas (arr : remote_ptr) (bucket : nat)
| AUnlock (arr : remote_ptr) (bucket : nat) (unlock_status : Z)
| ABase (arr : remote_ptr) (bucket : nat) (baseptr : remote_ptr)
| ARoot (root : remote_ptr)
| AFetch (arr : remote_ptr) (size : Z)
| ARelease                                          (* [ctx.curr.deallocate(pool)] *)
| ARead (bucket_base : remote_ptr)
| AWrite (bucket_base : remote_ptr) (e : EList) (bytes : list Z)
| ANewPlist (mult : nat)
| ANewElist (kv : K * V)
| AInsert (bucket_base : remote_ptr) (kv : K * V).

(** What an access answers and does to the objects: the functions of IhtRdma.v; a new list
    is at a place that no object has. *)
Inductive answer := AnsLock (v : Z) | AnsPlist (pl : PList) | AnsElist (e : EList) | AnsNew (q : remote_ptr) | AnsNone.
Definition does m (acc : access) (ans : answer) m' : Prop :=
  match acc with
  | ACas arr i => ∃ v, cas_lock m arr i E_UNLOCKED E_LOCKED = Done (v, m') ∧ ans = AnsLock v
  | AUnlock arr i s => unlock m arr i s = Done m' ∧ ans = AnsNone
  | ABase arr i q => change_bucket_pointer m arr i q = Done m' ∧ ans = AnsNone
  | ARoot arr => ∃ pl, fetch_plist PLIST_SIZE m arr 1 = Done pl ∧ ans = AnsPlist pl ∧ m' = m
  | AFetch arr size => ∃ pl, fetch_plist PLIST_SIZE m arr size = Done pl ∧ ans = AnsPlist pl ∧ m' = m
  | ARelease => ans = AnsNone ∧ m' = m
  | ARead q => ∃ e, read_elist m q = Done e ∧ ans = AnsElist e ∧ m' = m
  | AWrite q e' _ => ans = AnsNone ∧ m' = <[q := OElist e']> m
  | ANewPlist mult => ∃ q, m !! q = None ∧ is_null q = false ∧ ans = AnsNew q ∧ m' = <[q := OPlist (InitPList PLIST_SIZE mult)]> m
  | ANewElist kv => ∃ q e, m !! q = None ∧ is_null q = false ∧ ans = AnsNew q ∧
      elist_insert (mkEList 0 (replicate ELIST_SIZE None)) kv = Done e ∧ m' = <[q := OElist e]> m
  | AInsert q kv => ∃ e e', read_elist m q = Done e ∧ elist_insert e kv = Done e' ∧ ans = AnsNone ∧ m' = <[q := OElist e']> m
  end.

(** It can be done: the objects are there, sizes are size classes of the allocator. *)
Definition possible m (acc : access) : Prop :=
  match acc with
  | ACas arr i => ∃ r, cas_lock m arr i E_UNLOCKED E_LOCKED = Done r
  | AUnlock arr i s => is_u 64 s ∧ ∃ m', unlock m arr i s = Done m'
  | ABase arr i q => ptr_wf q ∧ ∃ m', change_bucket_pointer m arr i q = Done m'
  | ARoot arr => class_size (16 * Z.of_nat PLIST_SIZE) ∧ ∃ pl, fetch_plist PLIST_SIZE m arr 1 = Done pl
  | AFetch arr size => class_size (16 * Z.of_nat PLIST_SIZE * size) ∧ ∃ pl, fetch_plist PLIST_SIZE m arr size = Done pl
  | ARelease => True
  | ARead q => ∃ e, read_elist m q = Done e
  | AWrite q e' bytes => id q ≠ self ∧ elist_bytes bytes e' ∧ Forall (λ b, 0 ≤ b < 256) bytes ∧
      length (pairs e') = ELIST_SIZE ∧ ∃ e, read_elist m q = Done e
  | ANewPlist mult => class_size (16 * Z.of_nat PLIST_SIZE * Z.of_nat mult)
  | ANewElist kv => (0 < ELIST_SIZE)%nat
  | AInsert q kv => id q = self ∧ ∃ e e', read_elist m q = Done e ∧ elist_insert e kv = Done e'
  end.

(** ** Through the pool *)
Record wire := mkWire { w_pool : MemoryPool; w_nic : N; w_curr : option (remote_ptr * Z) }.
Inductive wire_answer := WWord (v : Z) | WCopy (dst : remote_ptr) | WNone.

Definition release (w : wire) : result wire :=
  match w_curr w with
  | Some (plist, size) =>
      p ← Deallocate (16 * Z.of_nat PLIST_SIZE) (w_pool w) tid plist size;
      Done (mkWire p (w_nic w) None)
  | None => Done w
  end.

Definition wire_step (acc : access) (w : wire) : result (wire_answer * wire) :=
  let p := w_pool w in let n := w_nic w in
  match acc with
  | ACas arr i => '(v, p, n) ← acquire_cas fuel tid p arr i n; Done (WWord v, mkWire p n (w_curr w))
  | AUnlock arr i s => '(p, n) ← unlock_write fuel tid temp_lock p arr i s n; Done (WNone, mkWire p n (w_curr w))
  | ABase arr i q => '(p, n) ← base_write self fuel tid temp_ptr p arr i q n; Done (WNone, mkWire p n (w_curr w))
  | ARoot arr => '(dst, p, n) ← root_read PLIST_SIZE fuel tid p arr n; Done (WCopy dst, mkWire p n (Some (dst, 1)))
  | AFetch arr size => '(dst, p, n) ← plist_read PLIST_SIZE fuel tid p arr size n; Done (WCopy dst, mkWire p n (Some (dst, size)))
  | ARelease => w' ← release w; Done (WNone, w')
  | ARead q => '(dst, p, n) ← elist_read esz self fuel tid temp_elist p q n; Done (WCopy dst, mkWire p n (w_curr w))
  | AWrite q _ bytes => '(p, n) ← elist_write esz fuel tid p q bytes n; Done (WNone, mkWire p n (w_curr w))
  | ANewPlist mult => '(q, p, n) ← new_plist PLIST_SIZE p tid mult n; Done (WCopy q, mkWire p n (w_curr w))
  | ANewElist kv => '(q, p, n) ← new_elist psz off esz pair_bytes p tid kv n; Done (WCopy q, mkWire p n (w_curr w))
  | AInsert q kv => Done (WNone, mkWire p (insert_in_place psz off pair_bytes n (address q) kv) (w_curr w))
  end.

(** The answers are the same, or the bytes of the same. *)
Definition agrees (f : Z → Z) (wa : wire_answer) (ans : answer) : Prop :=
  match wa, ans with
  | WWord v, AnsLock v' => v = v'
  | WCopy dst, AnsPlist pl => stored_plist f (address dst) pl
  | WCopy dst, AnsElist e => stored_elist f (address dst) e
  | WCopy dst, AnsNew q => dst = q
  | WNone, AnsNone => True
  | _, _ => False
  end.

(** ** A client whose pool, memory and connections are in order *)
Context (lo top idx : Z).
Definition temps : list (remote_ptr * Z) := [(temp_lock, 8); (temp_ptr, 8); (temp_elist, Z.of_nat esz)].

(** The block of size class [k] at [a] is the client's, and no object's. *)
Definition apart_block m (live : list block) (a k : Z) : Prop :=
  spare m self a k ∧ lo ≤ a ∧ a + k ≤ top ∧ Forall (blocks_disjoint (a, k)) live ∧ a ≠ 0.

(** The objects of the client's node are in blocks that are in use; those of others are at
    addresses that its own buffer does not have (the assertion of [Write] compares the two). *)
Record objects_ok (live : list block) m : Prop := {
  oo_laid : laid m;
  oo_null q o : m !! q = Some o → is_null q = false ∧ 0 < size_of o;
  oo_own q o : m !! q = Some o → id q = self → ∃ b, b ∈ live ∧ b.1 ≤ address q ∧ address q + size_of o ≤ b.1 + b.2;
  oo_far q o : m !! q = Some o → id q ≠ self → address q + size_of o ≤ lo ∨ top ≤ address q;
  oo_elist q e : m !! q = Some (OElist e) → length (pairs e) = ELIST_SIZE }.
Definition temps_ok (live : list block) m : Prop :=
  ∀ t k, (t, k) ∈ temps → is_null t = false ∧ (address t, Z.max k 64) ∈ live ∧ spare m self (address t) k.

Record pool_ok p : Prop := {
  po_self : peer_id (self_ p) = self;
  po_thread : thread_ids p !! tid = Some idx;
  po_counter : reordering_counters p !! Z.to_nat idx = Some 0;
  po_raw : rdma_raw (rdma_memory_ p) = lo }.
(** A known, idle connection to a node. *)
Definition connected p n (nd : Z) : Prop :=
  ∃ info, conn_info_ p !! nd = Some info ∧ node (ci_conn info) = nd ∧ pending n (ci_conn info) = [].

Definition held (w : wire) : list block :=
  match w_curr w with Some (d, size) => [(address d, 16 * Z.of_nat PLIST_SIZE * size)] | None => [] end.

Record session (live : list block) m (w : wire) : Prop := {
  se_objects : objects_ok live m;
  se_temps : temps_ok live m;
  se_stored : stored (mem (w_nic w)) m;
  se_pool : pool_ok (w_pool w);
  se_connected nd : nd = self ∨ (∃ q o, m !! q = Some o ∧ id q = nd) → connected (w_pool w) (w_nic w) nd;
  se_resource : resource_inv (rdma_memory_ (w_pool w)) top (held w ++ live);
  se_curr d size : w_curr w = Some (d, size) → id d = self ∧ class_size (16 * Z.of_nat PLIST_SIZE * size) }.

Definition room (w : wire) : Z := head_ (rdma_memory_ (w_pool w)) - rdma_raw (rdma_memory_ (w_pool w)).
(** What an access may take from the bump region. *)
Definition need (acc : access) : Z :=
  match acc with
  | ACas _ _ => 128
  | ARoot _ => 16 * Z.of_nat PLIST_SIZE + 64
  | AFetch _ size => 16 * Z.of_nat PLIST_SIZE * Z.max 0 size + 64
  | AWrite _ _ _ | ANewElist _ => Z.of_nat esz + 64
  | ANewPlist mult => 16 * Z.of_nat PLIST_SIZE * Z.of_nat mult + 64
  | _ => 0
  end.

Context (Hfuel : (1 ≤ fuel)%nat) (Hself : is_u 16 self) (Htop : top ≤ 2 ^ 48).
Context (Hla : layout psz off esz pair_bytes ELIST_SIZE).

(** *** Blocks *)
Lemma take_block live m w bytes :
  session live m w → 0 ≤ bytes → class_size (Z.max bytes 64) → Z.max bytes 64 + 64 ≤ room w →
  ∃ a r, do_allocate (rdma_memory_ (w_pool w)) tid bytes 64 = Done (a, r) ∧
    resource_inv r top ((al_ptr a, Z.max bytes 64) :: held w ++ live) ∧ rdma_raw r = lo ∧
    room w - (Z.max bytes 64 + 64) ≤ head_ r - rdma_raw r ∧ apart_block m live (al_ptr a) (Z.max bytes 64).
Proof.
  intros Hse Hb Hs Hroom. pose proof (se_resource _ _ _ Hse) as Hinv. pose proof (po_raw _ (se_pool _ _ _ Hse)) as Hraw.
  destruct (do_allocate_inv _ _ _ tid bytes Hinv Hb Hs) as (a & r & E & Hor). exists a, r. unfold room in *.
  destruct (do_allocate_room _ _ _ _ _ _ _ Hinv Hb Hs E) as (Hr & Hh & Hne). specialize (Hne Hroom).
  destruct Hor as [[-> _]|(_ & _ & Hinv')]; [done|]. split_and!; [done..|lia|lia|].
  pose proof (inv_head _ _ _ Hinv') as Hhd. destruct (inv_disjoint _ _ _ Hinv') as [Hd _].
  pose proof (inv_within _ _ _ Hinv') as Hin. inversion Hin as [|? ? [Hlo [Hhi _]] _]; subst. cbn in Hlo, Hhi.
  apply Forall_app in Hd as [[_ Hd]%Forall_app _].
  split_and!; [|lia|lia|done|done]. intros q o Hq. destruct (decide (id q = self)) as [El|?]; [|by left].
  destruct (oo_own _ _ (se_objects _ _ _ Hse) q o Hq El) as (b & Hbl & Hb1 & Hb2). right.
  rewrite Forall_forall in Hd. destruct (Hd b Hbl) as [H1|H1]; cbn in H1; lia.
Qed.

(** The block of a buffer is not at the place of an object, on any node. *)
Lemma apart_address live m a k q o x :
  objects_ok live m → spare m self a k → lo ≤ a → a < top → 0 < k → m !! q = Some o → address q ≤ x < address q + size_of o → a ≠ x.
Proof.
  intros Hoo Hsp Hlo Hhi Hk Hq Hx ->. destruct (decide (id q = self)) as [El|Hne].
  - destruct (Hsp q o Hq) as [?|[?|?]]; [done|lia..].
  - destruct (oo_far _ _ Hoo q o Hq Hne); lia.
Qed.

(** *** What an access leaves *)
(** No object moves, grows or shrinks. *)
Definition same_shape m m' : Prop := ∀ q o', m' !! q = Some o' → ∃ o, m !! q = Some o ∧ size_of o' = size_of o ∧
  ((∀ e, o = OElist e → length (pairs e) = ELIST_SIZE) → ∀ e', o' = OElist e' → length (pairs e') = ELIST_SIZE).

Lemma shape_refl m : same_shape m m.
Proof. intros q o Hq. by exists o. Qed.

Lemma shape_insert m q o o' : m !! q = Some o → size_of o' = size_of o →
  (∀ e', o' = OElist e' → (∀ e, o = OElist e → length (pairs e) = ELIST_SIZE) → length (pairs e') = ELIST_SIZE) →
  same_shape m (<[q := o']> m).
Proof.
  intros Hq Hsz Hl q' o1 [[<- <-]|[_ Hq']]%lookup_insert_Some; [|by exists o1]. exists o. split_and!; [done..|]. intros He e' Ho'. by apply Hl.
Qed.

Lemma shape_bucket m arr i upd m' : write_bucket m arr i upd = Done m' → same_shape m m'.
Proof.
  unfold write_bucket, read_plist. intros Hw. done_inv. destruct (m !! arr) as [[|pl]|] eqn:Hq; [done|injection Hw0 as ->|done].
  eapply shape_insert; [done|cbn; by rewrite length_insert|done].
Qed.

Lemma shape_cas m arr i x y v m' : cas_lock m arr i x y = Done (v, m') → same_shape m m'.
Proof.
  unfold cas_lock. intros (pl & Hpl & (b & Hb & Hc)%bind_done_inv)%bind_done_inv.
  case_match; apply done_pair in Hc as [_ <-]; [|apply shape_refl].
  apply (shape_bucket m arr i (λ b, mkBucket (base b) y)). unfold write_bucket. by rewrite Hpl, bind_done, Hb, bind_done.
Qed.

Lemma shape_elist m q e e' : read_elist m q = Done e → (length (pairs e) = ELIST_SIZE → length (pairs e') = ELIST_SIZE) →
  same_shape m (<[q := OElist e']> m).
Proof.
  unfold read_elist. intros Hr Hl. destruct (m !! q) as [[e0|]|] eqn:Hq; [injection Hr as ->|done..].
  eapply shape_insert; [done|done|]. intros e1 [= <-] He. apply Hl. by apply He.
Qed.

Lemma shape_laid m m' : same_shape m m' → laid m → laid m'.
Proof.
  intros Hm [Hf Ha]. split.
  - intros q o' (o & Hq & -> & _)%Hm. by apply Hf.
  - intros q o1' q' o2' (o1 & B1 & E1 & _)%Hm (o2 & B2 & E2 & _)%Hm Hne. specialize (Ha _ _ _ _ B1 B2 Hne).
    unfold clear_of in *. by rewrite E1, E2.
Qed.

Lemma shape_objects live live' m m' : same_shape m m' → live ⊆ live' → objects_ok live m → objects_ok live' m'.
Proof.
  intros Hm Hl [Ha Hn Ho Hf He]. split.
  - by eapply shape_laid.
  - intros q o' (o & Hq & -> & _)%Hm. by apply Hn.
  - intros q o' (o & Hq & -> & _)%Hm Hid. destruct (Ho q o Hq Hid) as (b & Hb & ?). exists b. split; [by apply Hl|done].
  - intros q o' (o & Hq & -> & _)%Hm. by apply Hf.
  - intros q e' (o & Hq & _ & Hlen)%Hm. eapply Hlen; [|done]. intros e ->. by eapply He.
Qed.

Lemma shape_temps live live' m m' : same_shape m m' → live ⊆ live' → temps_ok live m → temps_ok live' m'.
Proof.
  intros Hm Hl Ht t k Hin. destruct (Ht t k Hin) as (Hn & Hb & Hs). split_and!; [done|by apply Hl|].
  eapply spare_same; [done|]. intros q o' (o & Hq & Hsz & _)%Hm. by exists o.
Qed.

(** An access that keeps the objects' shape keeps the session. *)
Lemma session_after live live' m m' w r n' curr :
  session live m w → same_shape m m' → live ⊆ live' → stored (mem n') m' → (∀ c, pending n' c = pending (w_nic w) c) →
  rdma_raw r = lo → resource_inv r top (held (mkWire (w_pool w) n' curr) ++ live') →
  (∀ d size, curr = Some (d, size) → id d = self ∧ class_size (16 * Z.of_nat PLIST_SIZE * size)) →
  session live' m' (mkWire (set_memory (w_pool w) r) n' curr).
Proof.
  intros [Ho Ht Hs [P1 P2 P3 P4] Hc Hr Hcu] Hsh Hl Hs' Hq Hraw Hr' Hcu'. split; cbn [w_pool w_nic w_curr]; [| |done|by split| |done|done].
  - by eapply shape_objects.
  - by eapply shape_temps.
  - intros nd Hnd. destruct (Hc nd) as (info & Hi & Hn & Hp).
    + destruct Hnd as [?|(q & o' & (o & Hq' & _)%Hsh & Hid)]; [by left|]. right. by exists q, o.
    + exists info. split_and!; [done..|]. by rewrite Hq.
Qed.

Lemma session_same live m m' w n' :
  session live m w → same_shape m m' → stored (mem n') m' → (∀ c, pending n' c = pending (w_nic w) c) →
  session live m' (mkWire (w_pool w) n' (w_curr w)).
Proof.
  intros Hse Hsh Hs' Hq. replace (w_pool w) with (set_memory (w_pool w) (rdma_memory_ (w_pool w))) by (by destruct (w_pool w)).
  eapply session_after; [done..|apply (se_pool _ _ _ Hse)|exact (se_resource _ _ _ Hse)|exact (se_curr _ _ _ Hse)].
Qed.

(** A new object in a block that has just been taken. *)
Lemma new_laid m q o k : laid m → spare m self (address q) k → size_of o ≤ k → id q = self → ptr_wf q → address q + k ≤ 2 ^ 48 →
  laid (<[q := o]> m).
Proof.
  intros [Hf Ha] Hsp Hsz Hid Hwf Hfit. split.
  - intros q' o' [[<- <-]|[_ Hq']]%lookup_insert_Some; [split; [done|lia]|by apply Hf].
  - intros q1 o1 q2 o2 [[<- <-]|[_ B1]]%lookup_insert_Some [[<- <-]|[_ B2]]%lookup_insert_Some Hne; [done| | |by apply Ha].
    + rewrite Hid. destruct (Hsp q2 o2 B2) as [?|[?|?]]; [by left|right; lia..].
    + unfold clear_of. rewrite Hid. destruct (Hsp q1 o1 B1) as [?|[?|?]]; [left; congruence|right; lia..].
Qed.

Lemma new_objects live m q o k : objects_ok live m → spare m self (address q) k → size_of o ≤ k → 0 < size_of o → id q = self → ptr_wf q →
  address q + k ≤ 2 ^ 48 → address q ≠ 0 → (∀ e, o = OElist e → length (pairs e) = ELIST_SIZE) →
  objects_ok ((address q, k) :: live) (<[q := o]> m).
Proof.
  intros [Hl Hn Ho Hf He] Hsp Hsz Hpos Hid Hwf Hfit Hnz Hel. split.
  - by eapply new_laid.
  - intros q' o' [[<- <-]|[_ Hq']]%lookup_insert_Some; [|by apply Hn]. split; [|done].
    apply Z.eqb_neq. intros E. apply Hnz. by rewrite address_mod, E.
  - intros q' o' [[<- <-]|[_ Hq']]%lookup_insert_Some Hid'.
    + exists (address q, k). split; [apply list_elem_of_here|]. cbn. lia.
    + destruct (Ho q' o' Hq' Hid') as (b & Hb & ?). exists b. split; [by apply list_elem_of_further|done].
  - intros q' o' [[<- <-]|[_ Hq']]%lookup_insert_Some Hid'; [done|by apply Hf].
  - intros q' e' [[<- ->]|[_ Hq']]%lookup_insert_Some; [by apply Hel|by eapply He].
Qed.

Lemma new_place live m q k : objects_ok live m → Forall (blocks_disjoint (address q, k)) live → 0 < k → id q = self → m !! q = None.
Proof.
  intros Hoo Hd Hk Hid. destruct (m !! q) as [o'|] eqn:Hq; [|done]. destruct (oo_own _ _ Hoo q o' Hq Hid) as (b & Hb & H1 & H2).
  pose proof (proj2 (oo_null _ _ Hoo q o' Hq)). rewrite Forall_forall in Hd. destruct (Hd b Hb) as [?|?]; cbn in *; lia.
Qed.

Lemma session_new live m w r n' q o k :
  session live m w → apart_block m live (address q) k → size_of o ≤ k → 0 < size_of o → id q = self → ptr_wf q → address q + k ≤ 2 ^ 48 →
  (∀ e, o = OElist e → length (pairs e) = ELIST_SIZE) →
  stored (mem n') m → stored_obj psz off esz pair_bytes (mem n' self) (address q) o → (∀ c, pending n' c = pending (w_nic w) c) →
  rdma_raw r = lo → resource_inv r top ((address q, k) :: held w ++ live) →
  session ((address q, k) :: live) (<[q := o]> m) (mkWire (set_memory (w_pool w) r) n' (w_curr w)) ∧ m !! q = None ∧ is_null q = false.
Proof.
  intros [Hoo Ht Hs0 [P1 P2 P3 P4] Hc Hr0 Hcu] (Hsp & Hlo & Hhi & Hdis & Hnz) Hsz Hpos Hid Hwf Hfit Hel Hs Ho Hq Hraw Hr.
  assert (objects_ok ((address q, k) :: live) (<[q := o]> m)) as Hoo' by by eapply new_objects.
  split; [split; cbn [w_pool w_nic w_curr]; [done| | |by split| | |done]|split; [|by eapply (oo_null _ _ Hoo'), lookup_insert_eq]].
  - intros t kt Hin. destruct (Ht t kt Hin) as (Hn & Hb & Hst). split_and!; [done|by apply list_elem_of_further|].
    intros q' o' [[<- <-]|[_ Hq']]%lookup_insert_Some; [|by apply Hst]. right. rewrite Forall_forall in Hdis.
    destruct (Hdis _ Hb) as [?|?]; cbn in *; lia.
  - intros q' o' [[<- <-]|[_ Hq']]%lookup_insert_Some; [by rewrite Hid|by apply Hs].
  - intros nd Hnd. destruct (Hc nd) as (info & Hi & Hn & Hp).
    + destruct Hnd as [?|(q' & o' & [[<- _]|[_ Hq']]%lookup_insert_Some & Hid')]; [by left|left; congruence|]. right. by exists q', o'.
    + exists info. split_and!; [done..|]. by rewrite Hq.
  - cbn. unfold held in *. cbn. by rewrite <- Permutation_middle.
  - eapply new_place; [done..|lia|done].
Qed.

(** *** Each access *)
Lemma session_Allocate live m w sizeof cnt :
  session live m w → class_size (sizeof * cnt) → sizeof * cnt + 64 ≤ room w →
  ∃ q r, Allocate sizeof (w_pool w) tid cnt = Done (q, set_memory (w_pool w) r) ∧ id q = self ∧ ptr_wf q ∧
    address q + sizeof * cnt ≤ 2 ^ 48 ∧ apart_block m live (address q) (sizeof * cnt) ∧
    resource_inv r top ((address q, sizeof * cnt) :: held w ++ live) ∧ rdma_raw r = lo ∧
    room w - (sizeof * cnt + 64) ≤ head_ r - rdma_raw r.
Proof.
  intros Hse Hs Hroom. pose proof (class_size_bounds _ Hs) as [Hb _].
  destruct (take_block live m w (sizeof * cnt) Hse) as (a & r & E & Hr & Hraw & Hrm & Hap); [lia|by rewrite Z.max_l by lia|lia|].
  rewrite Z.max_l in Hr, Hrm, Hap by lia. pose proof (inv_head _ _ _ (se_resource _ _ _ Hse)).
  pose proof (inv_raw _ _ _ Hr). destruct Hap as (Hsp & Hlo & Hhi & Hd & Hnz).
  assert (u16 self = self) as Es by by apply (wrap_small 16).
  assert (address (of_pointer self (al_ptr a)) = al_ptr a) as Ea.
  { unfold of_pointer. rewrite Es, address_mk_ptr by done. apply Z.mod_small. lia. }
  exists (of_pointer self (al_ptr a)), r. rewrite Ea. split_and!; [| | |lia|by split_and!|done..].
  - unfold Allocate, allocate, u64. rewrite wrap_small by (unfold is_u; lia). rewrite E, bind_done.
    by rewrite (po_self _ (se_pool _ _ _ Hse)).
  - unfold of_pointer. rewrite Es. by apply id_mk_ptr.
  - unfold of_pointer. rewrite Es. by apply mk_ptr_wf.
Qed.

(** The buffer of one operation: taken, and given back with the size [k] in bytes. *)
Lemma borrowed_block live m w bytes :
  session live m w → 0 ≤ bytes → class_size (Z.max bytes 64) → Z.max bytes 64 + 64 ≤ room w →
  ∃ a r r', do_allocate (rdma_memory_ (w_pool w)) tid bytes 64 = Done (a, r) ∧
    do_deallocate r tid (al_ptr a) (Z.max bytes 64) 64 = Done r' ∧ apart_block m live (al_ptr a) (Z.max bytes 64) ∧
    resource_inv r' top (held w ++ live) ∧ rdma_raw r' = lo ∧ room w - (Z.max bytes 64 + 64) ≤ head_ r' - rdma_raw r'.
Proof.
  intros Hse Hb Hs Hroom. destruct (take_block live m w bytes Hse Hb Hs Hroom) as (a & r & E & Hr & Hraw & Hrm & Hap).
  destruct (do_deallocate_inv r top [] (held w ++ live) tid (al_ptr a) _ Hr Hs) as (r' & E' & Hr').
  exists a, r, r'. pose proof (do_deallocate_raw _ _ _ _ _ _ E'). split_and!; [done..|congruence|].
  assert (head_ r' = head_ r) as -> by (unfold do_deallocate in E'; done_inv; by simplify_eq). by rewrite H.
Qed.

Lemma session_reaches live m w q o : session live m w → m !! q = Some o →
  ∃ info, reaches node pending tid info idx (w_pool w) (w_nic w) q.
Proof.
  intros Hse Hq. destruct (se_connected _ _ _ Hse (id q)) as (info & Hi & Hn & Hp); [right; by exists q, o|].
  exists info. destruct (se_pool _ _ _ Hse). by split.
Qed.

Lemma temp_block live m w t k q o x : session live m w → (t, k) ∈ temps → 0 < k → m !! q = Some o → address q ≤ x < address q + size_of o →
  is_null t = false ∧ spare m self (address t) k ∧ address t ≠ x ∧ address t ≠ 0.
Proof.
  intros Hse Hin Hk Hq Hx. destruct (se_temps _ _ _ Hse t k Hin) as (Hn & Hb & Hs).
  pose proof (inv_within _ _ _ (se_resource _ _ _ Hse)) as Hw. rewrite Forall_forall in Hw.
  destruct (Hw (address t, Z.max k 64)) as (H1 & H2 & _); [rewrite !elem_of_app; auto|]. cbn in H1, H2.
  pose proof (inv_head _ _ _ (se_resource _ _ _ Hse)). pose proof (inv_raw _ _ _ (se_resource _ _ _ Hse)).
  pose proof (po_raw _ (se_pool _ _ _ Hse)). split_and!; [done..| |lia].
  eapply apart_address; [apply (se_objects _ _ _ Hse)|done|lia|lia|done..].
Qed.

(** What is to be shown of an access. *)
Definition works m w (acc : access) : Prop :=
  ∃ wa w' ans m' live', wire_step acc w = Done (wa, w') ∧ does m acc ans m' ∧ agrees (mem (w_nic w') self) wa ans ∧
    session live' m' w' ∧ room w - need acc ≤ room w'.

Lemma cas_works live m w arr i : session live m w → possible m (ACas arr i) → 128 ≤ room w → works m w (ACas arr i).
Proof.
  intros Hse [[v m'] Hc] Hroom. assert (∃ pl, m !! arr = Some (OPlist pl)) as [pl Hq].
  { unfold cas_lock, read_plist in Hc. destruct (m !! arr) as [[|pl]|]; [done|by eexists|done]. }
  destruct (session_reaches live m w arr _ Hse Hq) as [info Hre].
  destruct (borrowed_block live m w 8 Hse) as (a & r & r' & Ea & Ed & Hap & Hr' & Hraw & Hrm); [lia|by exists 6|done|].
  change (Z.max 8 64) with 64 in *.
  destruct (acquire_cas_spec psz off esz pair_bytes mem self node pending fuel tid info idx Hfuel m (w_pool w) (w_nic w) arr i v m' a r r')
    as (n' & E & Hp & Hs'); [apply (se_objects _ _ _ Hse)|apply (se_stored _ _ _ Hse)|done..| |].
  { destruct Hap as [Hsp _]. intros q o Hqo. destruct (Hsp q o Hqo) as [?|[?|?]]; [by left|right; lia..]. }
  exists (WWord v), (mkWire (set_memory (w_pool w) r') n' (w_curr w)), (AnsLock v), m', live. split_and!.
  - unfold wire_step. by rewrite E, bind_done.
  - by exists v.
  - done.
  - eapply session_after; [done|by eapply shape_cas|done|done|done|done|exact Hr'|exact (se_curr _ _ _ Hse)].
  - unfold room. cbn. unfold room in Hrm. lia.
Qed.

Lemma write_bucket_list m arr i upd m' : write_bucket m arr i upd = Done m' → ∃ pl, m !! arr = Some (OPlist pl) ∧ (i < length pl)%nat.
Proof.
  unfold write_bucket, read_plist. intros Hw. done_inv. destruct (m !! arr) as [[|pl]|]; [done|injection Hw0 as ->|done].
  eexists. split; [done|]. by eapply lookup_lt_Some.
Qed.

(** An access that leaves the pool as it is. *)
Lemma works_same live m w acc wa ans m' n' :
  session live m w → wire_step acc w = Done (wa, mkWire (w_pool w) n' (w_curr w)) → does m acc ans m' →
  agrees (mem n' self) wa ans → same_shape m m' → stored (mem n') m' → (∀ c, pending n' c = pending (w_nic w) c) →
  0 ≤ need acc → works m w acc.
Proof.
  intros Hse E Hd Ha Hsh Hs Hq Hn. exists wa, (mkWire (w_pool w) n' (w_curr w)), ans, m', live. split_and!; [done..| |].
  - by eapply session_same.
  - unfold room. cbn. lia.
Qed.

Lemma unlock_works live m w arr i st : session live m w → possible m (AUnlock arr i st) → works m w (AUnlock arr i st).
Proof.
  intros Hse [Hu [m' Hw]]. destruct (write_bucket_list _ _ _ _ _ Hw) as (pl & Hq & Hi).
  destruct (session_reaches live m w arr _ Hse Hq) as [info Hre]. pose proof (oo_laid _ _ (se_objects _ _ _ Hse)) as Hl.
  destruct (bucket_addresses esz m arr pl i Hl Hq Hi) as (_ & Had & _).
  destruct (temp_block live m w temp_lock 8 arr (OPlist pl) (address (get_lock arr (Z.of_nat i))) Hse) as (Hn & Hsp & Hne & Hnz);
    [apply list_elem_of_here|done|done|rewrite Had; cbn; lia|].
  destruct (unlock_write_spec psz off esz pair_bytes mem self node pending fuel tid temp_lock info idx Hfuel m (w_pool w) (w_nic w) arr i st m'
    (address temp_lock) (w_pool w)) as (n' & E & Hp & Hs); [done|apply (se_stored _ _ _ Hse)|done..| |].
  { apply temp_buffer; [apply (se_pool _ _ _ Hse)|done..]. }
  eapply (works_same live m w _ WNone AnsNone m' n'); [done| |done|done|by eapply shape_bucket|done|done|done].
  unfold wire_step. by rewrite E, bind_done.
Qed.

Lemma base_works live m w arr i q : session live m w → possible m (ABase arr i q) → works m w (ABase arr i q).
Proof.
  intros Hse [Hu [m' Hw]]. destruct (write_bucket_list _ _ _ _ _ Hw) as (pl & Hq & Hi).
  destruct (session_reaches live m w arr _ Hse Hq) as [info Hre]. pose proof (oo_laid _ _ (se_objects _ _ _ Hse)) as Hl.
  destruct (bucket_addresses esz m arr pl i Hl Hq Hi) as (_ & _ & _ & Had).
  destruct (temp_block live m w temp_ptr 8 arr (OPlist pl) (address (get_baseptr arr (Z.of_nat i))) Hse) as (Hn & Hsp & Hne & Hnz);
    [apply list_elem_of_further, list_elem_of_here|done|done|rewrite Had; cbn; lia|].
  destruct (base_write_spec psz off esz pair_bytes mem self node pending fuel tid temp_ptr info idx Hfuel m (w_pool w) (w_nic w) arr i q m'
    (address temp_ptr)) as (n' & E & Hp & Hs); [done|apply (se_stored _ _ _ Hse)|done..| |].
  { apply temp_buffer; [apply (se_pool _ _ _ Hse)|done..]. }
  eapply (works_same live m w _ WNone AnsNone m' n'); [done| |done|done|by eapply shape_bucket|done|done|done].
  unfold wire_step. by rewrite E, bind_done.
Qed.

Lemma read_elist_at m q e : read_elist m q = Done e → m !! q = Some (OElist e).
Proof. unfold read_elist. destruct (m !! q) as [[|]|]; by intros [= <-]. Qed.

Lemma esz_bounds : 64 ≤ Z.of_nat esz ≤ 2 ^ 20.
Proof. exact (proj1 (class_size_bounds _ (la_class _ _ _ _ _ Hla))). Qed.

Lemma read_works live m w q : session live m w → possible m (ARead q) → works m w (ARead q).
Proof.
  intros Hse [e Hr]. pose proof (read_elist_at _ _ _ Hr) as Hq. destruct (session_reaches live m w q _ Hse Hq) as [info Hre].
  pose proof esz_bounds as He. destruct (oo_null _ _ (se_objects _ _ _ Hse) q _ Hq) as [Hnull _].
  destruct (temp_block live m w temp_elist (Z.of_nat esz) q (OElist e) (address q) Hse) as (Hn & Hsp & _);
    [apply list_elem_of_further, list_elem_of_further, list_elem_of_here|lia|done|cbn; lia|].
  destruct (elist_read_spec psz off esz pair_bytes mem self node pending fuel tid temp_elist info idx Hfuel m (w_pool w) (w_nic w) q e)
    as (dst & n' & E & Hp & Hs & Hd); [apply (se_stored _ _ _ Hse)|done..|lia|lia|done|].
  eapply (works_same live m w _ (WCopy dst) (AnsElist e) m n'); [done| |by exists e|done|apply shape_refl|done|done|done].
  unfold wire_step. by rewrite E, bind_done.
Qed.

Lemma insert_works live m w q kv : session live m w → possible m (AInsert q kv) → works m w (AInsert q kv).
Proof.
  intros Hse (Hid & e & e' & Hr & Hi). pose proof (read_elist_at _ _ _ Hr) as Hq.
  pose proof (oo_elist _ _ (se_objects _ _ _ Hse) q e Hq) as Hlen. pose proof (se_stored _ _ _ Hse q _ Hq) as Hst.
  rewrite Hid in Hst. destruct (insert_in_place_spec psz off esz pair_bytes mem self node pending ELIST_SIZE Hla (w_nic w) (address q) e e' kv)
    as (Hs & Hl' & Hw & Hp); [done..|]. set (n' := insert_in_place psz off pair_bytes (w_nic w) (address q) kv) in *.
  eapply (works_same live m w _ WNone AnsNone (<[q := OElist e']> m) n'); [done|done|by exists e, e'|done|by eapply shape_elist| |done|done].
  intros q' o' [[<- <-]|[Hne Hq']]%lookup_insert_Some; [by rewrite Hid|].
  eapply stored_obj_ext; [|by apply (se_stored _ _ _ Hse)]. intros x Hx. symmetry. apply Hw.
  destruct (laid_apart _ _ (oo_laid _ _ (se_objects _ _ _ Hse)) q _ q' o' Hq Hq' Hne) as [?|[?|?]];
    [left; congruence|right; cbn [size_of] in *; lia..].
Qed.

(** The copies of fetched lists. A copy that is not released stays among the client's blocks. *)
Lemma fetched live m w acc arr size pl n' dst r :
  session live m w → fetch_plist PLIST_SIZE m arr size = Done pl → class_size (16 * Z.of_nat PLIST_SIZE * size) →
  wire_step acc w = Done (WCopy dst, mkWire (set_memory (w_pool w) r) n' (Some (dst, size))) → does m acc (AnsPlist pl) m →
  need acc = 16 * Z.of_nat PLIST_SIZE * size + 64 → id dst = self → stored (mem n') m → stored_plist (mem n' self) (address dst) pl →
  (∀ c, pending n' c = pending (w_nic w) c) →
  resource_inv r top ((address dst, 16 * Z.of_nat PLIST_SIZE * size) :: held w ++ live) → rdma_raw r = lo →
  room w - (16 * Z.of_nat PLIST_SIZE * size + 64) ≤ head_ r - rdma_raw r → works m w acc.
Proof.
  intros Hse Hf Hcl E Hd Hn Hid Hs Hpl Hq Hr Hraw Hrm.
  exists (WCopy dst), (mkWire (set_memory (w_pool w) r) n' (Some (dst, size))), (AnsPlist pl), m, (held w ++ live).
  split_and!; [done..| |by rewrite Hn].
  eapply session_after; [done|apply shape_refl|intros b Hb; apply elem_of_app; by right|done|done|done|exact Hr|].
  intros d sz [= <- <-]. by split.
Qed.

Lemma fetch_plist_at m arr size pl : fetch_plist PLIST_SIZE m arr size = Done pl → ∃ pl0, m !! arr = Some (OPlist pl0).
Proof.
  unfold fetch_plist, read_plist. intros Hf. apply bind_done_inv in Hf as (pl0 & Hr & _).
  destruct (m !! arr) as [[|]|]; [done|by eexists|done].
Qed.

Lemma factors_pos a b : 0 ≤ a → 64 ≤ a * b ≤ 2 ^ 20 → 0 < a ∧ 0 < b ≤ 2 ^ 20.
Proof.
  intros Ha [H1 H2]. assert (a ≠ 0) by (intros ->; lia). assert (0 < b) by (destruct (Z.le_gt_cases b 0); [nia|lia]). split; [lia|]. nia.
Qed.

Lemma fetch_works live m w arr size : session live m w → possible m (AFetch arr size) → need (AFetch arr size) ≤ room w →
  works m w (AFetch arr size).
Proof.
  intros Hse [Hcl [pl Hf]] Hroom. destruct (fetch_plist_at _ _ _ _ Hf) as [pl0 Hq]. pose proof (class_size_bounds _ Hcl) as [Hb _].
  destruct (session_reaches live m w arr _ Hse Hq) as [info Hre].
  destruct (factors_pos (16 * Z.of_nat PLIST_SIZE) size) as [HP Hsz]; [lia|done|].
  assert (need (AFetch arr size) = 16 * Z.of_nat PLIST_SIZE * size + 64) as En by (cbn; by rewrite Z.max_r by lia). rewrite En in Hroom.
  destruct (session_Allocate live m w (16 * Z.of_nat PLIST_SIZE) size Hse Hcl Hroom) as (dst & r & Ea & Hid & Hwf & Hfit & [Hsp _] & Hr & Hraw & Hrm).
  destruct (plist_read_spec psz off esz pair_bytes mem self node pending PLIST_SIZE fuel tid info idx Hfuel m (w_pool w) (w_nic w) arr size pl dst
    (set_memory (w_pool w) r)) as (n' & E & Hp & Hs & Hpl); [apply (se_stored _ _ _ Hse)|done|done|lia|lia|lia| |done|].
  { unfold u64. by rewrite wrap_small by (unfold is_u; lia). }
  eapply (fetched live m w _ arr size pl n' dst r); [done|done|done| |by exists pl|done..]. unfold wire_step. by rewrite E, bind_done.
Qed.

Lemma root_works live m w arr : session live m w → possible m (ARoot arr) → need (ARoot arr) ≤ room w → works m w (ARoot arr).
Proof.
  intros Hse [Hcl [pl Hf]] Hroom. destruct (fetch_plist_at _ _ _ _ Hf) as [pl0 Hq]. pose proof (class_size_bounds _ Hcl) as [Hb _].
  destruct (session_reaches live m w arr _ Hse Hq) as [info Hre]. cbn [need] in Hroom.
  pose proof (Z.mul_1_r (16 * Z.of_nat PLIST_SIZE)) as E1. rewrite <- E1 in Hcl, Hroom.
  destruct (session_Allocate live m w (16 * Z.of_nat PLIST_SIZE) 1 Hse Hcl Hroom) as (dst & r & Ea & Hid & Hwf & Hfit & [Hsp _] & Hr & Hraw & Hrm).
  destruct (root_read_spec psz off esz pair_bytes mem self node pending PLIST_SIZE fuel tid info idx Hfuel m (w_pool w) (w_nic w) arr pl dst
    (set_memory (w_pool w) r)) as (n' & E & Hp & Hs & Hpl); [apply (se_stored _ _ _ Hse)|done|done|lia|lia|done|by rewrite <- E1|].
  eapply (fetched live m w _ arr 1 pl n' dst r); [done|done|done| |by exists pl|cbn [need]; lia|done..]. unfold wire_step. by rewrite E, bind_done.
Qed.

Lemma release_works live m w : session live m w → works m w ARelease.
Proof.
  intros Hse. destruct (w_curr w) as [[d size]|] eqn:Hcu.
  - destruct (se_curr _ _ _ Hse d size Hcu) as [Hid Hcl]. pose proof (class_size_bounds _ Hcl) as [Hb _].
    pose proof (se_resource _ _ _ Hse) as Hr. unfold held in Hr. rewrite Hcu in Hr. cbn [app] in Hr.
    destruct (do_deallocate_inv _ top [] live tid (address d) _ Hr Hcl) as (r & E & Hr').
    exists WNone, (mkWire (set_memory (w_pool w) r) (w_nic w) None), AnsNone, m, live. split_and!; [|done|done| |].
    + unfold wire_step, release, Deallocate, deallocate. rewrite Hcu, Hid, (po_self _ (se_pool _ _ _ Hse)), Z.eqb_refl.
      cbn [rome_assert]. rewrite bind_done. unfold u64. rewrite wrap_small by (unfold is_u; lia). by rewrite E, !bind_done.
    + eapply session_after; [done|apply shape_refl|done|apply (se_stored _ _ _ Hse)|done| |exact Hr'|done].
      rewrite (do_deallocate_raw _ _ _ _ _ _ E). apply (se_pool _ _ _ Hse).
    + unfold room. cbn. assert (head_ r = head_ (rdma_memory_ (w_pool w))) as -> by (unfold do_deallocate in E; done_inv; by simplify_eq).
      rewrite (do_deallocate_raw _ _ _ _ _ _ E). lia.
  - exists WNone, w, AnsNone, m, live. split_and!; [|done|done|done|unfold room; cbn; lia].
    unfold wire_step, release. by rewrite Hcu.
Qed.

Lemma write_works live m w q e' bytes : session live m w → possible m (AWrite q e' bytes) → need (AWrite q e' bytes) ≤ room w →
  works m w (AWrite q e' bytes).
Proof.
  intros Hse (Hfar & Hby & Hrange & Hlen & e & Hr) Hroom. pose proof (read_elist_at _ _ _ Hr) as Hq. pose proof esz_bounds as He.
  destruct (session_reaches live m w q _ Hse Hq) as [info Hre]. cbn [need] in Hroom. pose proof (la_class _ _ _ _ _ Hla) as Hcl.
  destruct (borrowed_block live m w (Z.of_nat esz) Hse) as (a & r & r' & Ea & Ed & Hap & Hr' & Hraw & Hrm);
    [lia|by rewrite Z.max_l by lia|lia|]. rewrite Z.max_l in Ed, Hap, Hrm by lia. destruct Hap as (Hsp & Hlo & Hhi & _ & Hnz).
  destruct (elist_write_spec psz off esz pair_bytes mem self node pending fuel tid info idx Hfuel m (w_pool w) (w_nic w) q e e' bytes
    (al_ptr a) (set_memory (w_pool w) r')) as (n' & E & Hp & Hs);
    [apply (se_objects _ _ _ Hse)|apply (se_stored _ _ _ Hse)|done..|lia| |].
  { split; [exists (set_memory (w_pool w) r); split|done|split; [|done]].
    - unfold borrow, allocate, u64. cbn [is_null]. rewrite Z.mul_1_r, wrap_small by (unfold is_u; lia). by rewrite Ea, bind_done.
    - unfold give_back, deallocate, u64. cbn [is_null]. rewrite Z.mul_1_r, wrap_small by (unfold is_u; lia).
      rewrite settled_id by (apply (se_pool _ _ _ Hse)). cbn [set_memory rdma_memory_]. by rewrite Ed, bind_done.
    - eapply (apart_address live m _ (Z.of_nat esz)); [apply (se_objects _ _ _ Hse)|done|done|lia|lia|exact Hq|cbn [size_of]; lia]. }
  exists WNone, (mkWire (set_memory (w_pool w) r') n' (w_curr w)), AnsNone, (<[q := OElist e']> m), live. split_and!; [|done|done| |].
  - unfold wire_step. by rewrite E, bind_done.
  - eapply session_after; [done|by eapply shape_elist|done|done|done|done|exact Hr'|exact (se_curr _ _ _ Hse)].
  - unfold room. cbn. unfold room in Hrm. lia.
Qed.

(** Storing in a block that is no object's leaves the objects. *)
Lemma within_stored mm mm' m a k k' : within self mm mm' a k → spare m self a k' → k ≤ k' → stored mm m → stored mm' m.
Proof.
  intros Hw Hsp Hk Hs q o Hq. eapply stored_obj_ext; [|by apply Hs]. intros x Hx. symmetry. apply Hw.
  destruct (Hsp q o Hq) as [?|[?|?]]; [by left|right; lia..].
Qed.

Lemma new_plist_works live m w mult : session live m w → possible m (ANewPlist mult) → need (ANewPlist mult) ≤ room w → works m w (ANewPlist mult).
Proof.
  intros Hse Hcl Hroom. cbn [need possible] in *. pose proof (class_size_bounds _ Hcl) as [Hb _].
  destruct (session_Allocate live m w (16 * Z.of_nat PLIST_SIZE) (Z.of_nat mult) Hse Hcl Hroom) as (q & r & Ea & Hid & Hwf & Hfit & Hap & Hr & Hraw & Hrm).
  destruct (init_in_place_spec PLIST_SIZE mem self node pending (w_nic w) (address q) mult) as (Hs & Hw & Hp).
  set (n' := init_in_place PLIST_SIZE (w_nic w) (address q) mult) in *. set (o := OPlist (InitPList PLIST_SIZE mult) : obj).
  assert (size_of o = 16 * Z.of_nat PLIST_SIZE * Z.of_nat mult) as Hsz by (unfold o, InitPList; cbn [IhtWords.size_of]; rewrite length_replicate; lia).
  destruct (session_new live m w r n' q o (16 * Z.of_nat PLIST_SIZE * Z.of_nat mult)) as (Hse' & Hq & Hn);
    [done|done|lia|lia|done|done|done|by unfold o; intros e [=]| |exact Hs|done|done|exact Hr|].
  { eapply within_stored; [exact Hw|apply Hap|lia|apply (se_stored _ _ _ Hse)]. }
  eexists (WCopy q), _, (AnsNew q), _, _. split_and!; [|by exists q|done|exact Hse'|].
  - unfold wire_step, new_plist. by rewrite Ea, !bind_done.
  - unfold room. cbn. unfold room in Hrm. lia.
Qed.

Lemma new_elist_works live m w kv : session live m w → possible m (ANewElist kv) → need (ANewElist kv) ≤ room w → works m w (ANewElist kv).
Proof.
  intros Hse Hcap Hroom. cbn [need possible] in *. pose proof esz_bounds as Hb. pose proof (la_class _ _ _ _ _ Hla) as Hcl.
  pose proof (Z.mul_1_r (Z.of_nat esz)) as E1. rewrite <- E1 in Hcl, Hroom.
  destruct (session_Allocate live m w (Z.of_nat esz) 1 Hse Hcl Hroom) as (q & r & Ea & Hid & Hwf & Hfit & Hap & Hr & Hraw & Hrm).
  rewrite E1 in Hap, Hr, Hrm, Hfit.
  destruct (first_pair_spec psz off esz pair_bytes mem self node pending ELIST_SIZE Hla (w_nic w) (address q) kv Hcap) as (Hs & Hw & Hp).
  set (n' := insert_in_place psz off pair_bytes (local_store (w_nic w) (address q) 8 (le_bytes 8 0)) (address q) kv) in *.
  set (e := mkEList 1 (Some kv :: replicate (pred ELIST_SIZE) None)) in *.
  destruct (session_new live m w r n' q (OElist e) (Z.of_nat esz)) as (Hse' & Hq & Hn);
    [done|done|cbn; lia|cbn; lia|done|done|done| | |exact Hs|done|done|exact Hr|].
  { intros e' [= <-]. cbn. rewrite length_replicate. lia. }
  { eapply within_stored; [exact Hw|apply Hap|lia|apply (se_stored _ _ _ Hse)]. }
  eexists (WCopy q), _, (AnsNew q), _, _. split_and!; [| |done|exact Hse'|].
  - unfold wire_step, new_elist. by rewrite Ea, !bind_done.
  - exists q, e. split_and!; [done..| |done]. unfold elist_insert. cbn [pairs count]. rewrite length_replicate, bool_decide_eq_true_2 by done.
    by rewrite first_of_replicate.
  - unfold room. cbn. unfold room in Hrm. lia.
Qed.

Lemma access_works live m w acc : session live m w → possible m acc → need acc ≤ room w → works m w acc.
Proof.
  intros Hse Hpos Hroom. destruct acc; [by eapply cas_works|by eapply unlock_works|by eapply base_works|by eapply root_works|
    by eapply fetch_works|by eapply release_works|by eapply read_works|by eapply write_works|by eapply new_plist_works|
    by eapply new_elist_works|by eapply insert_works].
Qed.

(** ** Any number of accesses *)
(** The objects' side, with the answers; *)
Inductive objects_run : memory → list access → list answer → memory → Prop :=
| run_nil m : objects_run m [] [] m
| run_cons m acc ans m1 accs anss m2 : does m acc ans m1 → objects_run m1 accs anss m2 → objects_run m (acc :: accs) (ans :: anss) m2.
(** the pool's, each answer judged when it is given; *)
Inductive wire_run : wire → list access → list answer → wire → Prop :=
| wire_nil w : wire_run w [] [] w
| wire_cons w acc wa w1 ans accs anss w2 : wire_step acc w = Done (wa, w1) → agrees (mem (w_nic w1) self) wa ans →
    wire_run w1 accs anss w2 → wire_run w (acc :: accs) (ans :: anss) w2.
(** a sequence that can be done, wherever the new lists come to be. *)
Fixpoint feasible m (accs : list access) : Prop :=
  match accs with
  | [] => True
  | acc :: accs => possible m acc ∧ ∀ ans m', does m acc ans m' → feasible m' accs
  end.
Definition needs (accs : list access) : Z := foldr (λ acc z, need acc + z) 0 accs.

Lemma needs_cons acc accs : needs (acc :: accs) = need acc + needs accs.
Proof. done. Qed.

Lemma needs_nonneg accs : 0 ≤ needs accs.
Proof. induction accs as [|acc accs IH]; [done|]. rewrite needs_cons. destruct acc; cbn [need]; lia. Qed.

(** C6: the one-sided table over the wire. Objects are laid out in the bytes of the nodes as the
    structs are; a client's accesses (rounds of [acquire], [unlock], [change_bucket_pointer],
    fetching lists into private copies and releasing them, reading, writing and making lists,
    inserting in place) are issued to its pool as the source issues them, over a conforming
    card and the slab allocator. From a session in order - the objects laid out in the bytes, the
    client's three buffers apart from them and at addresses no object has on any node (without
    that, [same_address_write_aborts]), connections to their nodes, the allocator's invariant -
    every sequence of these accesses that is feasible - the objects are there, and block sizes are
    powers of two - and for which the region has room returns and answers as the operations of
    the table's model do; the bytes then hold the objects as the model changed them, new lists
    are where no object was, and the session is in order for what comes next. A rehash's moves of
    pairs, removals from a list in the client's own memory and the release of lists are not
    among the accesses. *)
Theorem accesses_on_wire live m w accs :
  session live m w → feasible m accs → needs accs ≤ room w →
  ∃ anss m' w' live', wire_run w accs anss w' ∧ objects_run m accs anss m' ∧ session live' m' w' ∧
    room w - needs accs ≤ room w'.
Proof.
  revert live m w. induction accs as [|acc accs IH]; intros live m w Hse Hf Hroom.
  { exists [], m, w, live. split_and!; [constructor..|done|cbn; lia]. }
  destruct Hf as [Hpos Hf]. rewrite needs_cons in Hroom |- *. pose proof (needs_nonneg accs).
  destruct (access_works live m w acc Hse Hpos) as (wa & w1 & ans & m1 & live1 & E & Hd & Ha & Hse1 & Hr1); [lia|].
  destruct (IH live1 m1 w1 Hse1) as (anss & m' & w' & live' & Hw & Ho & Hse' & Hr'); [by eapply Hf|lia|].
  exists (ans :: anss), m', w', live'. split_and!; [by econstructor..|done|lia].
Qed.
End session.

(** ** A client on node 2 and a fresh root of four buckets on node 1 *)
Definition pair_bytes_zz (kv : Z * Z) : list Z := le_bytes 8 kv.1 ++ le_bytes 8 kv.2.
Definition ex_table : gmap remote_ptr (@obj Z Z) := {[ ex_ptr := OPlist (InitPList 4 1) ]}.
Definition ex_locked : gmap remote_ptr (@obj Z Z) :=
  <[ex_ptr := OPlist (<[2%nat := mkBucket remote_nullptr E_LOCKED]> (InitPList 4 1))]> ex_table.
Definition ex_table_card : card := mkCard {[ (1, 648) := 2; (1, 664) := 2; (1, 680) := 2; (1, 696) := 2 ]} ∅.
Definition ex_wire_node (conn : Z) : Z := if conn =? 5 then 1 else 2.
Definition ex_wire_nic : Nic card := card_nic 2 ex_wire_node.
(** Its buffer, with the three landing blocks of the handle at the top. *)
Definition ex_lo : Z := 2 ^ 20.
Definition ex_top : Z := 2 ^ 20 + 2 ^ 16.
Definition ex_landing (i : Z) : remote_ptr := mk_ptr 2 (ex_top - 64 * i).
Definition ex_live : list block := [(ex_top - 64 * 3, 64); (ex_top - 64 * 2, 64); (ex_top - 64 * 1, 64)].
Definition ex_wire : @wire card :=
  mkWire (mkPool (mkPeer 2 "node2" 18000) 1 {[ 9%nat := 0 ]} (replicate 20 0)
    (mkResource ex_lo (ex_top - 64 * 3) (slabs (rdma_memory_resource_new ex_lo (2 ^ 16) 9 ∅)))
    (mkMr 0 ex_lo 65536 11 12) {[ 1 := mkConnInfo 5 77 11; 2 := mkConnInfo 6 78 11 ]}) ex_table_card None.
(** Fetch the root, take the lock of bucket 2, give it back, release the copy. *)
Definition ex_accesses : list (@access Z Z) := [ARoot ex_ptr; ACas ex_ptr 2; AUnlock ex_ptr 2 E_UNLOCKED; ARelease].

Lemma ex_table_lookup q o : ex_table !! q = Some o → ex_ptr = q ∧ OPlist (InitPList 4 1) = o.
Proof. apply lookup_singleton_Some. Qed.

Lemma ex_layout : layout 16 8 64 pair_bytes_zz 3.
Proof.
  split; [|lia..|by exists 6]. intros kv. split; [unfold pair_bytes_zz; by rewrite length_app, !length_le_bytes|].
  apply Forall_app; split; apply le_bytes_range.
Qed.

Lemma ex_resource : resource_inv (rdma_memory_ (w_pool ex_wire)) ex_top ex_live.
Proof.
  pose proof (resource_inv_new ex_lo (2 ^ 16) 9 ltac:(done) ltac:(done) ltac:(done) ltac:(done)) as [_ _ _ _ Hs].
  split; [done|done|..|exact Hs]; cbn [w_pool ex_wire rdma_memory_ slabs]; rewrite pool_free_fresh; cbn [app ex_live].
  - cbn [all_disjoint]. unfold blocks_disjoint. repeat constructor; cbn; lia.
  - unfold block_ok. repeat constructor; cbn; unfold ex_top; lia.
Qed.

Lemma ex_session : session 16 8 64 4 3 pair_bytes_zz cd_byte 2 ex_wire_node cd_pending 9 (ex_landing 1) (ex_landing 2) (ex_landing 3)
  ex_lo ex_top 0 ex_live ex_table ex_wire.
Proof.
  split; [split| | |by split| |exact ex_resource|done].
  - split.
    + intros q o [<- <-]%ex_table_lookup. vm_compute. by split.
    + intros q o q' o' [<- <-]%ex_table_lookup [<- _]%ex_table_lookup. done.
  - intros q o [<- <-]%ex_table_lookup. by split.
  - by intros q o [<- <-]%ex_table_lookup.
  - intros q o [<- <-]%ex_table_lookup _. left. by vm_compute.
  - by intros q e [<- ?]%ex_table_lookup.
  - intros t k Ht. unfold temps in Ht. rewrite !elem_of_cons, elem_of_nil in Ht.
    destruct Ht as [[= -> ->]|[[= -> ->]|[[= -> ->]|[]]]]; (split; [done|split; [vm_compute; set_solver|]]);
      intros q o [<- <-]%ex_table_lookup; by left.
  - intros q o [<- <-]%ex_table_lookup i b Hi. do 4 (destruct i as [|i]; [injection Hi as <-; by vm_compute|]). done.
  - intros nd [->|(q & o & [<- _]%ex_table_lookup & <-)]; [by exists (mkConnInfo 6 78 11)|by exists (mkConnInfo 5 77 11)].
Qed.

Lemma ex_feasible : feasible 16 8 64 4 3 pair_bytes_zz 2 ex_table ex_accesses.
Proof.
  split; [split; [by exists 6|by eexists]|]. intros ans m (pl & _ & _ & ->).
  split; [by eexists|]. intros ans' m' (v & Hc & _). assert (m' = ex_locked) as -> by (by injection Hc).
  split; [split; [done|by eexists]|]. intros ans'' m'' _. split; [done|]. by intros.
Qed.

Lemma accesses_on_wire_witness :
  ∃ anss m' w' live',
    wire_run 16 8 64 4 pair_bytes_zz (N := card) (Nic0 := ex_wire_nic) cd_byte 2 1 9 (ex_landing 1) (ex_landing 2) (ex_landing 3)
      ex_wire ex_accesses anss w' ∧
    objects_run 4 3 ex_table ex_accesses anss m' ∧
    session 16 8 64 4 3 pair_bytes_zz cd_byte 2 ex_wire_node cd_pending 9 (ex_landing 1) (ex_landing 2) (ex_landing 3)
      ex_lo ex_top 0 live' m' w' ∧
    room ex_wire - needs 64 4 ex_accesses ≤ room w'.
Proof.
  apply (accesses_on_wire 16 8 64 4 3 pair_bytes_zz cd_byte 2 ex_wire_node cd_pending 1 9 (ex_landing 1) (ex_landing 2) (ex_landing 3)
    ex_lo ex_top 0 (le_n 1)) with (live := ex_live).
  - by split.
  - by apply (bool_decide_unpack _).
  - exact ex_layout.
  - exact ex_session.
  - exact ex_feasible.
  - apply (bool_decide_unpack _). vm_compute. exact I.
Defined.
