(* ===== verification/IhtRehash.v ===== *)
(** * [rehash]: the new PList holds exactly the pairs of the full EList, each in
    the bucket of its next-level hash, and splitting a leaf preserves the contents. *)
From S2P Require Import Prelude RemotePtr IhtRdma IhtElist IhtInv IhtExample.

Section rehash.
Context {K V : Type} `{EqDecision K}.
Context (to_num : K → Z) (ELIST_SIZE PLIST_SIZE : nat) `{Geometry ELIST_SIZE PLIST_SIZE}.
Context (self_id : Z) (palloc : gmap remote_ptr (@obj K V) → remote_ptr) (raw_elist : @EList K V).
Context `{!PoolLaws ELIST_SIZE palloc raw_elist}.
Abbreviation memory := (gmap remote_ptr (@obj K V)).
Abbreviation bkt := (bkt to_num PLIST_SIZE).
Abbreviation width := (width PLIST_SIZE).
Implicit Types (m : memory) (l : list (K * V)) (k : K).

(** The pairs of [l] whose bucket at level [n] is [j]. *)
Definition share (n j : nat) l : list (K * V) := filter (λ kv, bkt kv.1 n = j) l.

(** [m1] is [m] with a new PList [np] of level [n] at [new_p] holding [l]. *)
Record fresh_plist m (m1 : memory) (new_p : remote_ptr) (np : PList) l (n : nat) : Prop := {
  fp_fresh : m !! new_p = None;
  fp_plist : m1 !! new_p = Some (OPlist np);
  fp_length : length np = width n;
  fp_frame a : m !! a ≠ None → m1 !! a = m !! a;
  fp_lock j c : np !! j = Some c → lock c = E_UNLOCKED;
  fp_list j c : np !! j = Some c → bucket_list ELIST_SIZE m1 c (share n j l);
  fp_new j c : np !! j = Some c → is_null (base c) = false → m !! base c = None ∧ base c ≠ new_p;
  fp_inj j j' c c' : np !! j = Some c → np !! j' = Some c' → is_null (base c) = false →
    base c = base c' → j = j' }.

Lemma share_snoc n j l kv :
  share n j (l ++ [kv]) = share n j l ++ (if decide (bkt kv.1 n = j) then [kv] else []).
Proof.
  unfold share. rewrite filter_app, filter_cons, filter_nil. by destruct decide.
Qed.

Lemma share_length n j l : (length (share n j l) ≤ length l)%nat.
Proof. apply length_filter. Qed.

Lemma fresh_plist_step m m1 m2 new_p np l n kv c c' e' :
  fresh_plist m m1 new_p np l n → np !! bkt kv.1 n = Some c →
  lock c' = E_UNLOCKED → is_null (base c') = false →
  ((is_null (base c) = false ∧ c' = c) ∨ m1 !! base c' = None) →
  elist_repr ELIST_SIZE e' (share n (bkt kv.1 n) l ++ [kv]) →
  m2 !! new_p = Some (OPlist (<[bkt kv.1 n := c']> np)) → m2 !! base c' = Some (OElist e') →
  (∀ a, a ≠ new_p → a ≠ base c' → m2 !! a = m1 !! a) →
  fresh_plist m m2 new_p (<[bkt kv.1 n := c']> np) (l ++ [kv]) n.
Proof.
  intros Hf Hc Hlock Hnn Hbase Hr Hp He Hother.
  assert (m !! base c' = None) as Hnew.
  { destruct Hbase as [[Hn ->]|Hn]; [by eapply (fp_new _ _ _ _ _ _ Hf)|].
    destruct (m !! base c') eqn:E; [|done].
    rewrite (fp_frame _ _ _ _ _ _ Hf (base c')) in Hn by congruence. congruence. }
  assert (∀ j x, j ≠ bkt kv.1 n → np !! j = Some x → is_null (base x) = false →
    base x ≠ base c') as Hsep.
  { intros j x Hj Hx Hn E. destruct Hbase as [[_ ->]|Hn1].
    - by apply Hj, (fp_inj _ _ _ _ _ _ Hf _ _ _ _ Hx Hc).
    - destruct (fp_list _ _ _ _ _ _ Hf _ _ Hx) as [[? _]|(_ & y & Hy & _)]; congruence. }
  split.
  - by eapply fp_fresh.
  - done.
  - rewrite length_insert. by eapply fp_length.
  - intros a Ha. rewrite Hother; [by apply (fp_frame _ _ _ _ _ _ Hf)| |congruence].
    pose proof (fp_fresh _ _ _ _ _ _ Hf). congruence.
  - intros j x Hj. apply list_lookup_insert_Some in Hj as [(_ & <- & _)|[_ Hj]]; [done|].
    by eapply (fp_lock _ _ _ _ _ _ Hf).
  - intros j x Hj. rewrite share_snoc.
    apply list_lookup_insert_Some in Hj as [(<- & <- & _)|[Hne Hj]].
    + rewrite decide_True by done. right. eauto.
    + rewrite decide_False, app_nil_r by congruence.
      apply bucket_list_frame with m1; [|by eapply (fp_list _ _ _ _ _ _ Hf)]. intros Hn.
      apply Hother; [by eapply (fp_new _ _ _ _ _ _ Hf)|by eapply Hsep].
  - intros j x Hj Hn. apply list_lookup_insert_Some in Hj as [(_ & <- & _)|[_ Hj]];
      [|by eapply (fp_new _ _ _ _ _ _ Hf)]. split; [done|].
    destruct Hbase as [[Hn1 ->]|Hn1]; [by eapply (fp_new _ _ _ _ _ _ Hf)|].
    pose proof (fp_plist _ _ _ _ _ _ Hf). congruence.
  - intros j j' x x' Hj Hj' Hn E.
    apply list_lookup_insert_Some in Hj as [(<- & <- & _)|[Hne Hj]];
      apply list_lookup_insert_Some in Hj' as [(<- & <- & _)|[Hne' Hj']]; [done|..].
    + destruct (Hsep j' x'); congruence.
    + by destruct (Hsep j x).
    + by eapply (fp_inj _ _ _ _ _ _ Hf).
Qed.

Lemma raw_repr : elist_repr ELIST_SIZE raw_elist [].
Proof.
  split_and!; [apply raw_length|apply raw_count|cbn; lia|done].
Qed.

(** One turn of the loop. *)
Lemma rehash_loop_step m m1 new_p np l n src kv l0 cnt :
  fresh_plist m m1 new_p np l n → elist_repr ELIST_SIZE src l0 → l0 !! length l = Some kv →
  (length l < ELIST_SIZE)%nat →
  ∃ m2 np', fresh_plist m m2 new_p np' (l ++ [kv]) n ∧
    rehash_loop to_num palloc raw_elist (S cnt) (length l) src new_p (Z.of_nat n + 1)
      (Z.of_nat (width n)) m1 =
    rehash_loop to_num palloc raw_elist cnt (S (length l)) src new_p (Z.of_nat n + 1)
      (Z.of_nat (width n)) m2.
Proof.
  intros Hf Hsrc Hkv Hlt. pose proof (bkt_lt to_num ELIST_SIZE PLIST_SIZE kv.1 n) as Hb.
  pose proof (share_length n (bkt kv.1 n) l) as Hsl.
  destruct (lookup_lt_is_Some_2 np (bkt kv.1 n)) as [c Hc].
  { rewrite (fp_length _ _ _ _ _ _ Hf). lia. }
  cbn [rehash_loop]. rewrite (pair_at_repr _ _ _ _ _ Hsrc Hkv), bind_done. cbv zeta.
  fold (bkt kv.1 n). unfold read_plist. rewrite (fp_plist _ _ _ _ _ _ Hf), bind_done, Hc, defined_Some, bind_done.
  pose proof (fp_list _ _ _ _ _ _ Hf _ _ Hc) as Hlist.
  destruct (is_null (base c)) eqn:Hn.
  - set (e := palloc m1). assert (m1 !! e = None) as Hfresh by apply palloc_fresh.
    assert (e ≠ new_p) as Hne by (pose proof (fp_plist _ _ _ _ _ _ Hf); congruence).
    destruct Hlist as [[_ Hnil]|[? _]]; [|congruence].
    destruct (elist_insert_repr ELIST_SIZE raw_elist [] kv raw_repr) as (e' & He & Hre); [cbn; lia|].
    rewrite bind_done. unfold read_elist. rewrite lookup_insert_ne, lookup_insert_eq by done.
    rewrite bind_done, He, bind_done. eexists _, _. split; [|done].
    eapply (fresh_plist_step m m1 _ new_p np l n kv c (mkBucket e E_UNLOCKED) e'); [done|done|done|exact (palloc_nonnull (palloc := palloc) m1)|..].
    + by right.
    + by rewrite Hnil.
    + by rewrite lookup_insert_ne, lookup_insert_eq by done.
    + apply lookup_insert_eq.
    + intros a H1 H2. cbn in H2. by rewrite !lookup_insert_ne by done.
  - destruct Hlist as [[? _]|(_ & e & He & Hre)]; [congruence|].
    rewrite bind_done. unfold read_elist. rewrite He, bind_done.
    destruct (elist_insert_repr ELIST_SIZE e _ kv Hre) as (e' & He' & Hre'); [lia|].
    rewrite He', bind_done. eexists _, _. split; [|done].
    destruct (fp_new _ _ _ _ _ _ Hf _ _ Hc Hn) as [_ Hne].
    eapply (fresh_plist_step m m1 _ new_p np l n kv c c e'); [done|done| |done|..].
    + by eapply (fp_lock _ _ _ _ _ _ Hf).
    + by left.
    + done.
    + rewrite list_insert_id by done. rewrite lookup_insert_ne by done. by eapply fp_plist.
    + apply lookup_insert_eq.
    + intros a H1 H2. by rewrite lookup_insert_ne by done.
Qed.

Lemma rehash_loop_spec m new_p n src l0 :
  elist_repr ELIST_SIZE src l0 →
  ∀ l l2 m1 np, l0 = l ++ l2 → fresh_plist m m1 new_p np l n →
  ∃ m2 np', fresh_plist m m2 new_p np' l0 n ∧
    rehash_loop to_num palloc raw_elist (length l2) (length l) src new_p (Z.of_nat n + 1)
      (Z.of_nat (width n)) m1 = Done m2.
Proof.
  intros Hsrc. pose proof Hsrc as (_ & _ & Hle & _).
  intros l l2. revert l. induction l2 as [|kv l2 IH]; intros l m1 np Hl Hf.
  { rewrite app_nil_r in Hl. subst. exists m1, np. split; [done|]. done. }
  assert (length l < ELIST_SIZE)%nat as Hlt.
  { rewrite Hl, length_app in Hle. cbn in Hle. lia. }
  destruct (rehash_loop_step m m1 new_p np l n src kv l0 (length l2) Hf Hsrc) as (m2 & np' & Hf2 & E);
    [|done|].
  { rewrite Hl, lookup_app_r, Nat.sub_diag by lia. done. }
  destruct (IH (l ++ [kv]) m2 np') as (m3 & np3 & Hf3 & E3); [by rewrite <- app_assoc|done|].
  exists m3, np3. split; [done|]. cbn [length]. rewrite E.
  rewrite length_app, Nat.add_comm in E3. exact E3.
Qed.

(** [InitPList] on the new block. *)
Lemma fresh_plist_init m n :
  fresh_plist m (<[palloc m := OPlist (InitPList PLIST_SIZE (2 ^ n))]> m) (palloc m)
    (InitPList PLIST_SIZE (2 ^ n)) [] n.
Proof.
  pose proof (palloc_fresh m) as Hfresh.
  assert (∀ j c, InitPList PLIST_SIZE (2 ^ n) !! j = Some c → c = mkBucket remote_nullptr E_UNLOCKED)
    as Hinit by by intros j c [-> _]%lookup_replicate.
  split.
  - done.
  - apply lookup_insert_eq.
  - apply length_replicate.
  - intros a Ha. rewrite lookup_insert_ne; [done|congruence].
  - by intros j c ->%Hinit.
  - intros j c ->%Hinit. by left.
  - by intros j c ->%Hinit.
  - by intros j j' c c' ->%Hinit.
Qed.

(** [rehash] as the operations call it on a full leaf of level [n]. *)
Lemma rehash_fresh m parent n i b src l0 :
  parent !! i = Some b → m !! base b = Some (OElist src) → elist_repr ELIST_SIZE src l0 →
  ∃ new_p np m1, fresh_plist m m1 new_p np l0 (S n) ∧
    rehash to_num PLIST_SIZE self_id palloc raw_elist m parent (Z.of_nat (width n))
      (Z.of_nat n + 1) i =
    Done (new_p, if is_local self_id (base b) then delete (base b) m1 else m1).
Proof.
  intros Hi Hsrc Hr. pose proof plist_two as Hp. unfold rehash.
  assert (Z.to_nat (Z.of_nat (width n) * 2 / Z.of_nat PLIST_SIZE) = 2 ^ S n)%nat as ->.
  { unfold IhtInv.width. replace (_ * 2) with (Z.of_nat (2 ^ S n) * Z.of_nat PLIST_SIZE)
      by (rewrite Nat.pow_succ_r'; lia). rewrite Z.div_mul by lia. lia. }
  pose proof (fresh_plist_init m (S n)) as Hf. rewrite Hi, defined_Some, bind_done.
  unfold read_elist. rewrite (fp_frame _ _ _ _ _ _ Hf), Hsrc, bind_done by congruence.
  pose proof Hr as (_ & -> & _).
  destruct (rehash_loop_spec m (palloc m) (S n) src l0 Hr [] l0 _ _ eq_refl Hf) as (m2 & np' & Hf2 & E).
  exists (palloc m), np', m2. split; [done|].
  replace (Z.of_nat n + 1 + 1) with (Z.of_nat (S n) + 1) by lia.
  replace (Z.of_nat (width n) * 2) with (Z.of_nat (width (S n))) by (rewrite width_S; lia).
  change (length (@nil (K * V))) with 0%nat in E. by rewrite E, bind_done.
Qed.

Lemma concat_filter_perm {A} (f : A → nat) (xs : list A) n :
  (∀ x, x ∈ xs → f x < n)%nat →
  concat (map (λ j, filter (λ x, f x = j) xs) (seq 0 n)) ≡ₚ xs.
Proof.
  induction xs as [|x xs IH]; intros Hlt.
  { replace (concat _) with (@nil A); [done|]. clear. generalize 0%nat as i.
    induction n as [|n IH]; intros i; cbn; [done|]. by rewrite <- IH. }
  assert (f x < n)%nat as Hx by (apply Hlt, list_elem_of_here).
  transitivity (x :: concat (map (λ j, filter (λ y, f y = j) xs) (seq 0 n))).
  2:{ by rewrite IH by (intros y Hy; by apply Hlt, list_elem_of_further). }
  clear IH Hlt.
  replace n with (f x + S (n - S (f x)))%nat by lia. rewrite seq_app. cbn [seq Nat.add].
  rewrite !map_app, !concat_app. cbn [map concat]. rewrite filter_cons_True by done.
  assert (∀ s c : nat, (∀ j, j ∈ seq s c → j ≠ f x) →
    map (λ j, filter (λ y, f y = j) (x :: xs)) (seq s c) =
    map (λ j, filter (λ y, f y = j) xs) (seq s c)) as Hskip.
  { intros s c Hj. apply map_ext_in. intros j Hin. apply list_elem_of_In, Hj in Hin.
    by rewrite filter_cons_False by done. }
  rewrite !Hskip by (intros j Hj%elem_of_seq; lia).
  by rewrite (Permutation_middle _ (_ ++ _) x).
Qed.

(** [rehash] moves a full element list into a fresh pointer list of twice the
    width: every bucket is unlocked, the new buckets together hold exactly the old
    pairs, each pair in the bucket its key hashes to on the next level, and no other
    object changes; the old list is freed when it is local. *)
Theorem rehash_preserves_pairs m parent n i b src l0 :
  parent !! i = Some b → m !! base b = Some (OElist src) → elist_repr ELIST_SIZE src l0 →
  ∃ new_p np m1 ls,
    rehash to_num PLIST_SIZE self_id palloc raw_elist m parent (Z.of_nat (width n))
      (Z.of_nat n + 1) i =
      Done (new_p, if is_local self_id (base b) then delete (base b) m1 else m1) ∧
    m1 !! new_p = Some (OPlist np) ∧ length np = width (S n) ∧
    Forall2 (λ c l, lock c = E_UNLOCKED ∧ bucket_list ELIST_SIZE m1 c l) np ls ∧
    (∀ j l kv, ls !! j = Some l → kv ∈ l → bkt kv.1 (S n) = j) ∧
    concat ls ≡ₚ l0 ∧
    (∀ a, m !! a ≠ None → m1 !! a = m !! a).
Proof.
  intros Hi Hsrc Hr. destruct (rehash_fresh m parent n i b src l0 Hi Hsrc Hr) as (new_p & np & m1 & Hf & E).
  exists new_p, np, m1, (map (λ j, share (S n) j l0) (seq 0 (width (S n)))).
  split_and!; [done|by eapply fp_plist|by eapply (fp_length _ _ _ _ _ _ Hf)| | | |].
  - apply Forall2_same_length_lookup. rewrite length_map, length_seq.
    split; [by eapply (fp_length _ _ _ _ _ _ Hf)|]. intros j c l Hc Hl.
    apply list_lookup_fmap_Some in Hl as (j' & -> & Hj'). apply lookup_seq in Hj' as [-> _].
    split; [by eapply (fp_lock _ _ _ _ _ _ Hf)|by eapply (fp_list _ _ _ _ _ _ Hf)].
  - intros j l kv Hl Hin. apply list_lookup_fmap_Some in Hl as (j' & -> & Hj').
    apply lookup_seq in Hj' as [-> _]. by apply list_elem_of_filter in Hin as [? _].
  - apply concat_filter_perm. intros kv _.
    pose proof (bkt_lt to_num ELIST_SIZE PLIST_SIZE kv.1 (S n)). lia.
  - by eapply (fp_frame _ _ _ _ _ _ Hf).
Qed.

(** ** Splitting a leaf: the effect of a rehash on the tree *)
Section split.
Context m (root : remote_ptr) (π : list nat) (i : nat) (q : remote_ptr) (pl : PList)
  (b : plist_pair_t) l (new_p : remote_ptr) (np : PList) m1 (m' : memory).
Abbreviation iht_inv := (iht_inv to_num ELIST_SIZE PLIST_SIZE).
Abbreviation bucket_list := (bucket_list ELIST_SIZE).
Hypotheses (Hinv : iht_inv m root) (Hleaf : leaf m root π i q pl b)
  (Hnn : is_null (base b) = false) (Hl : bucket_list m b l) (Hdepth : (length π < 7)%nat)
  (Hf : fresh_plist m m1 new_p np l (S (length π)))
  (Hq' : m' !! q = Some (OPlist (<[i := mkBucket new_p P_UNLOCKED]> pl)))
  (Hrest : ∀ a, a ≠ q → a ≠ base b → m' !! a = m1 !! a).

Lemma split_source : ∃ e, m !! base b = Some (OElist e).
Proof. destruct Hl as [[? _]|(_ & e & He & _)]; [congruence|eauto]. Qed.

Lemma split_plist q1 pl1 :
  m !! q1 = Some (OPlist pl1) →
  m' !! q1 = Some (OPlist (if decide (q1 = q) then <[i := mkBucket new_p P_UNLOCKED]> pl else pl1)).
Proof.
  intros Hq1. destruct (decide (q1 = q)) as [->|]; [done|].
  destruct split_source as [e He]. rewrite Hrest by congruence.
  by rewrite (fp_frame _ _ _ _ _ _ Hf) by congruence.
Qed.

Lemma split_new : m' !! new_p = Some (OPlist np).
Proof.
  pose proof (fp_fresh _ _ _ _ _ _ Hf). destruct split_source as [e He].
  destruct Hleaf as (_ & Hq & _). rewrite Hrest by congruence. by eapply fp_plist.
Qed.

Lemma split_child q1 pl1 j :
  m !! q1 = Some (OPlist pl1) →
  child m' q1 j = if decide (q1 = q ∧ j = i) then Some new_p else child m q1 j.
Proof.
  intros Hq1. unfold child. rewrite (split_plist _ _ Hq1), Hq1.
  destruct Hleaf as (_ & Hq & Hi & _).
  destruct (decide (q1 = q)) as [->|]; [|by rewrite decide_False by tauto].
  simplify_eq. destruct (decide (j = i)) as [->|].
  - rewrite list_lookup_insert_eq by by eapply lookup_lt_Some. by rewrite decide_True.
  - rewrite list_lookup_insert_ne by done. by rewrite decide_False by tauto.
Qed.

Lemma split_child_new j : child m' new_p j = None.
Proof.
  unfold child. rewrite split_new. destruct (np !! j) as [c|] eqn:E; [|done].
  by rewrite (fp_lock _ _ _ _ _ _ Hf _ _ E).
Qed.

Lemma split_evolves : evolves m root m'.
Proof.
  intros π1 q1 pl1 Hw Hq1. eexists. split; [by apply split_plist|].
  intros j c Hj Hc. destruct (decide (q1 = q)) as [->|]; [|done].
  destruct Hleaf as (_ & Hq & Hi & Hb). simplify_eq.
  rewrite list_lookup_insert_ne; [done|]. intros ->. simplify_eq. by rewrite Hb in Hc.
Qed.

Lemma split_walk_new : walk m' root (π ++ [i]) = Some new_p.
Proof.
  destruct Hleaf as (Hw & Hq & _).
  rewrite walk_snoc, (evolves_walk _ _ _ _ _ split_evolves Hw), (split_child _ _ _ Hq).
  by rewrite decide_True.
Qed.

Lemma split_walk_inv π1 q1 :
  walk m' root π1 = Some q1 → walk m root π1 = Some q1 ∨ (π1 = π ++ [i] ∧ q1 = new_p).
Proof.
  revert q1. induction π1 as [|j π1 IH] using rev_ind; intros q1; [by left|].
  rewrite !walk_snoc. destruct (walk m' root π1) as [q0|] eqn:Hw'; [|done]. intros Hc.
  destruct (IH _ eq_refl) as [Hw|[-> ->]]; [|by rewrite split_child_new in Hc].
  rewrite Hw. destruct (inv_plist _ _ _ _ _ Hinv _ _ Hw) as (_ & pl0 & Hq0 & _).
  rewrite (split_child _ _ _ Hq0) in Hc. case_decide as E; [|by left].
  destruct E as [-> ->]. injection Hc as <-. right. split; [|done].
  destruct Hleaf as (Hw0 & _). by rewrite (inv_walk _ _ _ _ _ Hinv _ _ _ Hw Hw0).
Qed.

Lemma split_leaf_inv π1 j q1 pl1 c :
  leaf m' root π1 j q1 pl1 c →
  ((π1 ≠ π ∨ j ≠ i) ∧ ∃ pl1', leaf m root π1 j q1 pl1' c) ∨
  (π1 = π ++ [i] ∧ np !! j = Some c).
Proof.
  intros (Hw & Hq1 & Hj & Hc). apply split_walk_inv in Hw as [Hw|[-> ->]].
  - left. destruct Hleaf as (Hw0 & Hq & Hi & Hb).
    destruct (inv_plist _ _ _ _ _ Hinv _ _ Hw) as (_ & pl1' & Hq1' & _).
    rewrite (split_plist _ _ Hq1') in Hq1. injection Hq1 as <-.
    destruct (decide (q1 = q)) as [->|Hne].
    + rewrite (inv_walk _ _ _ _ _ Hinv _ _ _ Hw Hw0) in *. simplify_eq.
      apply list_lookup_insert_Some in Hj as [(_ & <- & _)|[Hne Hj]]; [done|].
      split; [by right|]. eexists. by split_and!.
    + split; [left; congruence|]. eexists. by split_and!.
  - right. rewrite split_new in Hq1. by simplify_eq.
Qed.

Lemma split_leaf_old π1 j q1 pl1 c :
  leaf m root π1 j q1 pl1 c → π1 ≠ π ∨ j ≠ i → ∃ pl1', leaf m' root π1 j q1 pl1' c.
Proof.
  intros (Hw & Hq1 & Hj & Hc) Hne. destruct Hleaf as (Hw0 & Hq & Hi & Hb).
  eexists. split_and!; [by apply (evolves_walk m); [apply split_evolves|]
    |by apply split_plist| |done].
  destruct (decide (q1 = q)) as [->|]; [|done].
  rewrite (inv_walk _ _ _ _ _ Hinv _ _ _ Hw Hw0) in *. simplify_eq.
  rewrite list_lookup_insert_ne; [done|destruct Hne; congruence].
Qed.

Lemma split_leaf_new j c : np !! j = Some c → leaf m' root (π ++ [i]) j new_p np c.
Proof.
  intros Hj. split_and!; [apply split_walk_new|apply split_new|done|].
  by eapply (fp_lock _ _ _ _ _ _ Hf).
Qed.

Lemma split_other_base π1 j q1 pl1 c :
  leaf m root π1 j q1 pl1 c → π1 ≠ π ∨ j ≠ i → is_null (base c) = false →
  base c ≠ base b ∧ m' !! base c = m !! base c ∧ ∃ e, m !! base c = Some (OElist e).
Proof.
  intros Hl1 Hne Hn. destruct (inv_leaf _ _ _ _ _ Hinv _ _ _ _ _ Hl1) as (l1 & Hb1 & _).
  destruct Hb1 as [[? _]|(_ & e1 & He1 & _)]; [congruence|].
  assert (base c ≠ base b) as Hcb.
  { intros E. destruct (inv_share _ _ _ _ _ Hinv _ _ _ _ _ _ _ _ _ _ Hl1 Hleaf Hn E) as [-> ->].
    destruct Hne; congruence. }
  destruct Hleaf as (_ & Hq & _). split_and!; [done| |by eexists].
  rewrite Hrest by congruence. by rewrite (fp_frame _ _ _ _ _ _ Hf) by congruence.
Qed.

Lemma split_list_old π1 j q1 pl1 c l1 :
  leaf m root π1 j q1 pl1 c → π1 ≠ π ∨ j ≠ i → bucket_list m c l1 → bucket_list m' c l1.
Proof.
  intros Hl1 Hne. apply bucket_list_frame. intros Hn. by eapply split_other_base.
Qed.

Lemma split_list_new j c : np !! j = Some c → bucket_list m' c (share (S (length π)) j l).
Proof.
  intros Hj. apply bucket_list_frame with m1; [|by eapply (fp_list _ _ _ _ _ _ Hf)].
  intros Hn. destruct (fp_new _ _ _ _ _ _ Hf _ _ Hj Hn) as [Hnone _].
  destruct split_source as [e He]. destruct Hleaf as (_ & Hq & _). apply Hrest; congruence.
Qed.

Lemma split_old_not_new π1 j q1 pl1 c : leaf m root π1 j q1 pl1 c → π1 ≠ π ++ [i].
Proof.
  intros (Hw & _) ->. by rewrite (leaf_not_walk _ _ _ _ _ _ _ [] Hleaf) in Hw.
Qed.

Lemma split_maps k v : maps ELIST_SIZE m' root k v ↔ maps ELIST_SIZE m root k v.
Proof.
  split; intros (π1 & j & q1 & pl1 & c & l1 & Hl1 & Hb1 & Hin).
  - destruct (split_leaf_inv _ _ _ _ _ Hl1) as [(Hne & pl1' & Hl1')|(-> & Hj)].
    + destruct (inv_leaf _ _ _ _ _ Hinv _ _ _ _ _ Hl1') as (l2 & Hb2 & _).
      pose proof (split_list_old _ _ _ _ _ _ Hl1' Hne Hb2) as Hb2'.
      rewrite (bucket_list_inj _ _ _ _ _ Hb1 Hb2') in Hin. by do 6 eexists.
    + rewrite (bucket_list_inj _ _ _ _ _ Hb1 (split_list_new _ _ Hj)) in Hin.
      apply list_elem_of_filter in Hin as [_ Hin]. by do 6 eexists.
  - destruct (decide (π1 = π ∧ j = i)) as [[-> ->]|Hne].
    + destruct (leaf_fun _ _ _ _ _ _ _ _ _ _ Hleaf Hl1) as (_ & _ & <-).
      rewrite (bucket_list_inj _ _ _ _ _ Hb1 Hl) in Hin.
      destruct (lookup_lt_is_Some_2 np (bkt k (S (length π)))) as [c Hc].
      { rewrite (fp_length _ _ _ _ _ _ Hf).
        pose proof (bkt_lt to_num ELIST_SIZE PLIST_SIZE k (S (length π))). lia. }
      do 6 eexists. split_and!; [by apply split_leaf_new|by apply split_list_new|].
      by apply list_elem_of_filter.
    + assert (π1 ≠ π ∨ j ≠ i) as Hne' by (destruct (decide (π1 = π)), (decide (j = i)); tauto).
      destruct (split_leaf_old _ _ _ _ _ Hl1 Hne') as (pl1' & Hl1').
      do 6 eexists. split_and!; [done|by eapply split_list_old|done].
Qed.

Lemma split_inv_plist π1 q1 : walk m' root π1 = Some q1 → (length π1 ≤ 7)%nat ∧
    ∃ pl, m' !! q1 = Some (OPlist pl) ∧ length pl = width (length π1) ∧
      ∀ i b, pl !! i = Some b → lock b = P_UNLOCKED ∨ lock b = E_UNLOCKED.
Proof.
  intros [Hw|[-> ->]]%split_walk_inv.
  - destruct (inv_plist _ _ _ _ _ Hinv _ _ Hw) as (Hlen & pl1 & Hq1 & Hw1 & Hst). split; [done|].
    eexists. split; [by apply split_plist|]. destruct (decide (q1 = q)) as [->|]; [|done].
    destruct Hleaf as (_ & Hq & Hi & Hb). simplify_eq. split; [by rewrite length_insert|].
    intros j c Hj. apply list_lookup_insert_Some in Hj as [(_ & <- & _)|[_ Hj]]; [by left|eauto].
  - rewrite length_app. cbn. split; [lia|]. exists np. split_and!; [apply split_new| |].
    + rewrite (fp_length _ _ _ _ _ _ Hf). f_equal. lia.
    + intros j c Hj. right. by eapply (fp_lock _ _ _ _ _ _ Hf).
Qed.

Lemma split_inv_leaf π1 j q1 pl1 c : leaf m' root π1 j q1 pl1 c →
  ∃ l1, bucket_list m' c l1 ∧ NoDup l1.*1 ∧
    ∀ kv, kv ∈ l1 → kpath to_num PLIST_SIZE kv.1 (S (length π1)) = π1 ++ [j].
Proof.
  intros [(Hne & pl1' & Hl1')|(-> & Hj)]%split_leaf_inv.
  - destruct (inv_leaf _ _ _ _ _ Hinv _ _ _ _ _ Hl1') as (l2 & Hb2 & Hr2).
    exists l2. split; [|done]. by eapply split_list_old.
  - destruct (inv_leaf _ _ _ _ _ Hinv _ _ _ _ _ Hleaf) as (l2 & Hb2 & Hnd & Hp).
    rewrite (bucket_list_inj _ _ _ _ _ Hb2 Hl) in *.
    eexists. split_and!; [by apply split_list_new| |].
    + eapply sublist_NoDup; [exact Hnd|]. apply fmap_sublist, sublist_filter.
    + intros kv [E Hin]%list_elem_of_filter. rewrite length_app, Nat.add_comm.
      change (length [i] + length π)%nat with (S (length π)). by rewrite kpath_S, (Hp _ Hin), E.
Qed.

Lemma split_inv : iht_inv m' root.
Proof.
  split; [apply split_inv_plist|apply split_inv_leaf|..].
  - intros π1 π2 q1 Hw1 Hw2.
    assert (∀ π', walk m root π' = Some new_p → False) as Hno.
    { intros π' Hw. destruct (inv_plist _ _ _ _ _ Hinv _ _ Hw) as (_ & pl0 & Hq0 & _).
      pose proof (fp_fresh _ _ _ _ _ _ Hf). congruence. }
    apply split_walk_inv in Hw1 as [Hw1|[-> ->]]; apply split_walk_inv in Hw2 as [Hw2|[-> E]];
      subst; [by eapply (inv_walk _ _ _ _ _ Hinv)|by destruct (Hno _ Hw1)|by destruct (Hno _ Hw2)|done].
  - intros π1 j q1 pl1 c π2 j2 q2 pl2 c2 Hl1 Hl2 Hn E.
    apply split_leaf_inv in Hl1 as [(Hne1 & pl1' & Hl1)|(-> & Hj1)];
      apply split_leaf_inv in Hl2 as [(Hne2 & pl2' & Hl2)|(-> & Hj2)].
    + by eapply (inv_share _ _ _ _ _ Hinv).
    + destruct (split_other_base _ _ _ _ _ Hl1 Hne1 Hn) as (_ & _ & e & He).
      rewrite E in Hn, He. destruct (fp_new _ _ _ _ _ _ Hf _ _ Hj2 Hn). congruence.
    + destruct (fp_new _ _ _ _ _ _ Hf _ _ Hj1 Hn). rewrite E in Hn.
      destruct (split_other_base _ _ _ _ _ Hl2 Hne2 Hn) as (_ & _ & e & He). congruence.
    + split; [done|]. by eapply (fp_inj _ _ _ _ _ _ Hf).
Qed.
End split.
End rehash.

Lemma rehash_preserves_pairs_witness :
  ∃ new_p np m1 ls,
    rehash (λ x : Z, u64 x) 4 0 next_block (raw_zz 2)
      {[ mkRaw 128 := OElist (mkEList 2 [Some (1, 10); Some (3, 30)]) ]}
      [mkBucket (mkRaw 128) E_LOCKED] (Z.of_nat (width 4 0)) (Z.of_nat 0 + 1) 0 =
      Done (new_p, if is_local 0 (mkRaw 128) then delete (mkRaw 128) m1 else m1) ∧
    m1 !! new_p = Some (OPlist np) ∧ length np = width 4 1 ∧
    Forall2 (λ c l, lock c = E_UNLOCKED ∧ bucket_list 2 m1 c l) np ls ∧
    (∀ j l kv, ls !! j = Some l → kv ∈ l → bkt (λ x : Z, u64 x) 4 kv.1 1 = j) ∧
    concat ls ≡ₚ [(1, 10); (3, 30)] ∧
    (∀ a, ({[ mkRaw 128 := OElist (mkEList 2 [Some (1, 10); Some (3, 30)]) ]} :
             gmap remote_ptr (@obj Z Z)) !! a ≠ None →
      m1 !! a = ({[ mkRaw 128 := OElist (mkEList 2 [Some (1, 10); Some (3, 30)]) ]} :
             gmap remote_ptr (@obj Z Z)) !! a).
Proof.
  refine (rehash_preserves_pairs (λ x : Z, u64 x) 2 4 0 next_block (raw_zz 2)
    {[ mkRaw 128 := OElist (mkEList 2 [Some (1, 10); Some (3, 30)]) ]}
    [mkBucket (mkRaw 128) E_LOCKED] 0 0 (mkBucket (mkRaw 128) E_LOCKED)
    (mkEList 2 [Some (1, 10); Some (3, 30)]) [(1, 10); (3, 30)] _ _ _).
  - reflexivity.
  - reflexivity.
  - split_and!; cbn; try lia; try done. intros [|[|i]] kv Hi; by injection Hi as <- || done.
Defined.
