(* ===== verification/IhtCache.v ===== *)
(** * The PList caches of [RdmaIHT]: [fetch_cache] and [try_cache]

    With at most two cached layers every cached PList is a calcified PList of the
    tree, at the path its slot stands for, for as long as the tree evolves. The
    third layer does not have this property: its slots are shared by several paths. *)
From S2P Require Import Prelude RemotePtr IhtRdma IhtElist IhtInv.

Section cache.
Context {K V : Type} `{EqDecision K}.
Context (to_num : K → Z) (ELIST_SIZE PLIST_SIZE : nat) `{Geometry ELIST_SIZE PLIST_SIZE}.
Context (cache_depth_ : nat).
Abbreviation memory := (gmap remote_ptr (@obj K V)).
Abbreviation bkt := (bkt to_num PLIST_SIZE).
Abbreviation kpath := (kpath to_num PLIST_SIZE).
Abbreviation width := (width PLIST_SIZE).
Implicit Types (m : memory) (root q : remote_ptr) (π : list nat) (pl : PList) (c : caches) (k : K).

(** [bucket_path] when the PList of level [n] is looked up, and while bucket [n] is
    being searched (the entry [n] may be left over from an earlier attempt). *)
Definition path_at k (n : nat) (path : list Z) : Prop :=
  length path = 8%nat ∧ (∀ j, (j < n)%nat → path !! j = Some (Z.of_nat (bkt k j))) ∧
  ∀ j, (n ≤ j < 8)%nat → path !! j = Some (-1).
Definition path_pre k (n : nat) (path : list Z) : Prop :=
  length path = 8%nat ∧ (∀ j, (j < n)%nat → path !! j = Some (Z.of_nat (bkt k j))) ∧
  ∀ j, (n < j < 8)%nat → path !! j = Some (-1).

Lemma path_at_init k : path_at k 0 bucket_path_init.
Proof. split_and!; [done|lia|]. intros j Hj. apply lookup_replicate_2. lia. Qed.

Lemma path_at_pre k n path : path_at k n path → path_pre k n path.
Proof. intros (? & ? & Hr). split_and!; [done..|]. intros j Hj. apply Hr. lia. Qed.

(** The entry of the bucket being searched may be set already. *)
Lemma path_at_searched k n path : path_at k (S n) path → path_pre k n path.
Proof. intros (Hlen & Hlo & Hhi). split_and!; [done|intros j Hj; apply Hlo; lia|intros j Hj; apply Hhi; lia]. Qed.

Lemma path_pre_set k n path :
  (n < 8)%nat → path_pre k n path → path_at k (S n) (<[n := Z.of_nat (bkt k n)]> path).
Proof.
  intros Hn (Hlen & Hlo & Hhi). split_and!; [by rewrite length_insert|..]; intros j Hj.
  - destruct (decide (n = j)) as [->|]; [apply list_lookup_insert_eq; lia|].
    rewrite list_lookup_insert_ne by done. apply Hlo. lia.
  - rewrite list_lookup_insert_ne by lia. apply Hhi. lia.
Qed.

(** [pl] is the calcified PList of the tree at path [π]. *)
Definition cached_ok m root π pl : Prop :=
  ∃ q pl', walk m root π = Some q ∧ m !! q = Some (OPlist pl') ∧
    ∀ i, (i < width (length π) - 1)%nat →
      ∃ b, pl !! i = Some b ∧ pl' !! i = Some b ∧ lock b = P_UNLOCKED.

Record caches_ok m root c : Prop := {
  co_l1 : ∃ o, layers c !! 0%nat = Some [o] ∧ ∀ pl, o = Some pl → cached_ok m root [] pl;
  co_l2 : ∃ os, layers c !! 1%nat = Some os ∧ length os = PLIST_SIZE ∧
    ∀ i pl, os !! i = Some (Some pl) → cached_ok m root [i] pl }.

Lemma cached_ok_evolves m m' root π pl :
  evolves m root m' → cached_ok m root π pl → cached_ok m' root π pl.
Proof.
  intros Hev (q & pl' & Hw & Hq & Hok). destruct (Hev _ _ _ Hw Hq) as (pl2 & Hq2 & Hkeep).
  exists q, pl2. split_and!; [by eapply evolves_walk|done|].
  intros i Hi. destruct (Hok i Hi) as (b & H1 & H2 & H3). eauto.
Qed.

Lemma caches_ok_evolves m m' root c : evolves m root m' → caches_ok m root c → caches_ok m' root c.
Proof.
  intros Hev [(o & H1 & H2) (os & H3 & H4 & H5)].
  split; eexists; split_and!; eauto using cached_ok_evolves.
Qed.

Lemma caches_ok_new m root : ∀ c, RdmaIHT_new PLIST_SIZE = Done c → caches_ok m root c.
Proof.
  intros c. unfold RdmaIHT_new. case_match; [done|]. intros [= <-]. split.
  - by exists None.
  - exists (replicate PLIST_SIZE None). split_and!; [done|apply length_replicate|].
    by intros i pl [? _]%lookup_replicate.
Qed.

(** A PList obtained for level [n]: the PList itself, or a calcified copy. *)
Definition copy_ok (n : nat) (pl : PList) (cp : CachedPList) : Prop :=
  (cp_plist cp = pl ∧ ∃ size, cp_source cp = Fetched size) ∨
  (∀ i, (i < width n - 1)%nat →
    ∃ b, cp_plist cp !! i = Some b ∧ pl !! i = Some b ∧ lock b = P_UNLOCKED).

Lemma copy_ok_lookup n pl cp i b :
  copy_ok n pl cp → (i < width n - 1)%nat → pl !! i = Some b → cp_plist cp !! i = Some b.
Proof. intros [[-> _]|Hc] Hi Hb; [done|]. destruct (Hc i Hi) as (b' & ? & ? & _). congruence. Qed.

(** At most two layers: a slot stands for one path. *)
Lemma slot_of_spec k n path :
  (cache_depth_ ≤ 2)%nat → path_at k n path →
  slot_of PLIST_SIZE cache_depth_ path = None ∨
  (n = 0%nat ∧ slot_of PLIST_SIZE cache_depth_ path = Some (0%nat, 0, Z.of_nat (width 0))) ∨
  (n = 1%nat ∧ slot_of PLIST_SIZE cache_depth_ path =
                 Some (1%nat, Z.of_nat (bkt k 0), Z.of_nat (width 1))).
Proof.
  intros Hcd (Hlen & Hlo & Hhi). destruct path as [|p0 [|p1 [|p2 path]]]; try done.
  unfold slot_of, IhtInv.width. cbn [cache_slot]. destruct (bool_decide_reflect (0%nat = cache_depth_)); [by left|].
  destruct n as [|n].
  { rewrite (inj Some _ _ (Hhi 0%nat ltac:(lia) : Some p0 = Some (-1))). right; left. split; [done|].
    by rewrite Nat.mul_1_r. }
  rewrite (inj Some _ _ (Hlo 0%nat ltac:(lia) : Some p0 = Some (Z.of_nat (bkt k 0)))).
  destruct (Z.eqb_spec (Z.of_nat (bkt k 0)) (-1)); [lia|].
  destruct (bool_decide_reflect (1%nat = cache_depth_)); [by left|].
  destruct n as [|n].
  { rewrite (inj Some _ _ (Hhi 1%nat ltac:(lia) : Some p1 = Some (-1))). right; right. split; [done|].
    change (-1 =? -1) with true. cbn [sizes]. repeat f_equal; cbn; lia. }
  rewrite (inj Some _ _ (Hlo 1%nat ltac:(lia) : Some p1 = Some (Z.of_nat (bkt k 1)))).
  destruct (Z.eqb_spec (Z.of_nat (bkt k 1)) (-1)); [lia|].
  rewrite (bool_decide_eq_true_2 (2%nat = cache_depth_)) by lia. by left.
Qed.

(** Storing the calcified PList of path [π] in a slot that stands for [π]. *)
Lemma forallb_calcified pl n :
  length pl = width n →
  forallb (λ b, lock b =? P_UNLOCKED) (take (Z.to_nat (Z.of_nat (width n) - 1)) pl) = true →
  ∀ i, (i < width n - 1)%nat →
    ∃ b, take (Z.to_nat (Z.of_nat (width n))) pl !! i = Some b ∧ pl !! i = Some b ∧ lock b = P_UNLOCKED.
Proof.
  intros Hlen Hall i Hi. destruct (lookup_lt_is_Some_2 pl i) as [b Hb]; [lia|].
  exists b. rewrite lookup_take_lt by lia. split_and!; [done..|].
  rewrite forallb_forall in Hall. apply Z.eqb_eq, Hall.
  apply list_elem_of_In, list_elem_of_lookup. exists i. by rewrite lookup_take_lt by lia.
Qed.

Lemma fetch_plist_whole m q pl n :
  m !! q = Some (OPlist pl) → length pl = width n →
  fetch_plist PLIST_SIZE m q (Z.shiftl 1 (Z.of_nat n)) = Done pl.
Proof.
  intros Hq Hlen. unfold fetch_plist, read_plist. rewrite Hq, bind_done.
  assert (Z.to_nat (Z.shiftl 1 (Z.of_nat n)) * PLIST_SIZE = length pl)%nat as ->.
  { rewrite Z.shiftl_1_l, Hlen. unfold IhtInv.width. rewrite Nat.mul_comm. f_equal.
    by rewrite <- (Nat2Z.id (2 ^ n)), Nat2Z.inj_pow. }
  rewrite bool_decide_eq_true_2 by done. by rewrite take_ge.
Qed.

(** A copy of the PList [plm] in memory, or a calcified copy of the PList [pl]. With
    several clients [pl] is the list with the pending stores of the lock words done. *)
Definition obtained (n : nat) (pl plm : PList) (cp : CachedPList) : Prop :=
  (cp_plist cp = plm ∧ ∃ size, cp_source cp = Fetched size) ∨
  (∀ i, (i < width n - 1)%nat →
    ∃ b, cp_plist cp !! i = Some b ∧ pl !! i = Some b ∧ lock b = P_UNLOCKED).

(** [obtain] in a layer: hit, miss and store. *)
Lemma obtain_slot m c path q n pl plm layer idx os o :
  m !! q = Some (OPlist plm) → length plm = width n →
  (∀ i b, plm !! i = Some b → lock b = P_UNLOCKED → pl !! i = Some b) →
  slot_of PLIST_SIZE cache_depth_ path = Some (layer, Z.of_nat idx, Z.of_nat (width n)) →
  layers c !! layer = Some os → os !! idx = Some o →
  (∀ pl', o = Some pl' → ∀ i, (i < width n - 1)%nat →
     ∃ b, pl' !! i = Some b ∧ pl !! i = Some b ∧ lock b = P_UNLOCKED) →
  ∃ cp c', obtain PLIST_SIZE cache_depth_ m c path q (Z.of_nat n) = Done (cp, c') ∧
    obtained n pl plm cp ∧
    (c' = c ∨ ∃ pl', c' = mkCaches (alter (λ l, <[idx := Some pl']> l) layer (layers c)) ∧
       ∀ i, (i < width n - 1)%nat →
         ∃ b, pl' !! i = Some b ∧ pl !! i = Some b ∧ lock b = P_UNLOCKED).
Proof.
  intros Hq Hlen Hpu Hslot Hl Ho Hcalc.
  assert (cache_lookup c layer (Z.of_nat idx) = Done o) as Hlook.
  { unfold cache_lookup. by rewrite Hl, defined_Some, bind_done, Nat2Z.id, Ho. }
  unfold obtain, fetch_cache. rewrite Hslot, Hlook, !bind_done.
  destruct o as [pl'|].
  - eexists _, _. split; [done|]. split; [|by left]. right. intros i Hi. by apply Hcalc.
  - rewrite (fetch_plist_whole _ _ _ _ Hq Hlen), bind_done.
    unfold try_cache. rewrite Hslot, Hlook, bind_done. case_match eqn:Hall.
    + eexists _, _. split; [done|]. split; [left; cbn; eauto|]. right. eexists. split.
      * unfold cache_store. by rewrite Nat2Z.id.
      * intros i Hi. destruct (forallb_calcified _ _ Hlen Hall i Hi) as (b & ? & ? & ?). eauto.
    + eexists _, _. split; [done|]. split; [left; cbn; eauto|by left].
Qed.

Lemma obtain_view g m root c k n path q pl plm :
  (cache_depth_ ≤ 2)%nat → caches_ok g root c → path_at k n path →
  walk g root (kpath k n) = Some q → g !! q = Some (OPlist pl) →
  m !! q = Some (OPlist plm) → length plm = width n →
  (∀ i b, plm !! i = Some b → lock b = P_UNLOCKED → pl !! i = Some b) →
  ∃ cp c', obtain PLIST_SIZE cache_depth_ m c path q (Z.of_nat n) = Done (cp, c') ∧
    obtained n pl plm cp ∧ caches_ok g root c'.
Proof.
  intros Hcd [(o & Hl1 & Ho1) (os & Hl2 & Hos & Ho2)] Hpath Hw Hq Hqm Hlen Hpu.
  destruct (slot_of_spec k n path Hcd Hpath) as [Hs|[[-> Hs]|[-> Hs]]].
  - unfold obtain, fetch_cache. rewrite Hs, bind_done, (fetch_plist_whole _ _ _ _ Hqm Hlen), bind_done.
    unfold try_cache. rewrite Hs, bind_done. eexists _, _. split; [done|].
    split; [left; cbn; eauto|]. split; eauto.
  - destruct (obtain_slot m c path q 0 pl plm 0 0 [o] o Hqm Hlen Hpu Hs Hl1 eq_refl)
      as (cp & c' & E & Hcp & Hc').
    { intros pl' -> i Hi. destruct (Ho1 _ eq_refl) as (q' & pl2 & Hw' & Hq' & Hok).
      cbn in Hw, Hw'. simplify_eq. apply Hok, Hi. }
    exists cp, c'. split_and!; [done..|]. destruct Hc' as [->|(pl' & -> & Hok)]; [split; eauto|]. split.
    + cbn. rewrite list_lookup_alter_eq, Hl1. exists (Some pl'). split; [done|].
      intros pl2 [= <-]. exists q, pl. split_and!; done.
    + cbn. rewrite list_lookup_alter_ne by done. eauto.
  - pose proof (bkt_lt to_num ELIST_SIZE PLIST_SIZE k 0) as Hb. unfold IhtInv.width in Hb at 1. cbn in Hb.
    destruct (lookup_lt_is_Some_2 os (bkt k 0)) as [o' Ho']; [lia|].
    destruct (obtain_slot m c path q 1 pl plm 1 (bkt k 0) os o' Hqm Hlen Hpu Hs Hl2 Ho')
      as (cp & c' & E & Hcp & Hc').
    { intros pl' -> i Hi. destruct (Ho2 _ _ Ho') as (q' & pl2 & Hw' & Hq' & Hok).
      change (kpath k 1) with [bkt k 0] in Hw. simplify_eq. by apply Hok. }
    exists cp, c'. split_and!; [done..|]. destruct Hc' as [->|(pl' & -> & Hok)]; [split; eauto|]. split.
    + cbn. rewrite list_lookup_alter_ne by done. eauto.
    + cbn. rewrite list_lookup_alter_eq, Hl2. eexists. split; [done|].
      split; [by rewrite length_insert|]. intros i pl2 Hi.
      apply list_lookup_insert_Some in Hi as [(<- & [= <-] & _)|[_ Hi]]; [|eauto].
      exists q, pl. split_and!; done.
Qed.

Lemma obtain_spec m root c k n path q pl :
  (cache_depth_ ≤ 2)%nat → caches_ok m root c → path_at k n path →
  walk m root (kpath k n) = Some q → m !! q = Some (OPlist pl) → length pl = width n →
  ∃ cp c', obtain PLIST_SIZE cache_depth_ m c path q (Z.of_nat n) = Done (cp, c') ∧
    copy_ok n pl cp ∧ caches_ok m root c'.
Proof. intros. by eapply obtain_view. Qed.
End cache.

(** ** The third layer *)
(** [bucket_path] of a PList two levels below the root. *)
Definition path2 (n1 n2 : Z) : list Z := [n1; n2] ++ replicate 6 (-1).

(** Level-1 PLists have [2 * PLIST_SIZE] buckets but [sizes[1]] is [PLIST_SIZE]. *)
Lemma slot_of_path2 P n1 n2 :
  0 ≤ n1 → 0 ≤ n2 →
  slot_of P 3 (path2 n1 n2) = Some (2%nat, n1 * Z.of_nat P + n2, Z.of_nat P * 2 * 2).
Proof.
  intros H1 H2. unfold slot_of, path2. cbn [cache_slot replicate app].
  rewrite !bool_decide_eq_false_2 by lia.
  rewrite (proj2 (Z.eqb_neq n1 (-1))), (proj2 (Z.eqb_neq n2 (-1))) by lia.
  change (-1 =? -1) with true. cbv iota. unfold sizes. done.
Qed.

(** With three cached layers the slot of a third-level list is computed with
    [PLIST_SIZE] although its level-two parent has twice as many buckets. The lists at
    paths (n1, n2 + PLIST_SIZE) and (n1 + 1, n2) share a slot: after the first is
    cached, looking up the second returns the first. *)
Theorem third_layer_collision P c c' pl n1 n2 os o :
  0 ≤ n1 → 0 ≤ n2 → layers c !! 2%nat = Some os →
  os !! Z.to_nat ((n1 + 1) * Z.of_nat P + n2) = Some o →
  try_cache P 3 c pl (path2 n1 (n2 + Z.of_nat P)) = Done (c', true) →
  fetch_cache P 3 c' (path2 (n1 + 1) n2) =
  Done (Some (mkCached (take (4 * P) pl) (FromCache 2 (Z.to_nat ((n1 + 1) * Z.of_nat P + n2))))).
Proof.
  intros H1 H2 Hl Ho. unfold try_cache, fetch_cache. rewrite !slot_of_path2 by lia.
  replace (n1 * Z.of_nat P + (n2 + Z.of_nat P)) with ((n1 + 1) * Z.of_nat P + n2) by lia.
  unfold cache_lookup. rewrite Hl, defined_Some, bind_done, Ho, defined_Some, bind_done.
  destruct o as [pl0|]; [done|]. case_match; [|done]. intros [= <-].
  unfold cache_store. cbn [layers]. rewrite list_lookup_alter_eq, Hl. cbn [fmap option_fmap option_map].
  rewrite defined_Some, bind_done, list_lookup_insert_eq by by eapply lookup_lt_Some.
  rewrite defined_Some, bind_done. do 4 f_equal. lia.
Qed.

(** A calcified level-2 PList (15 of its 16 buckets in use) of bucket path [0; 5]
    is what [fetch_cache] returns for bucket path [1; 1]. *)
Lemma third_layer_collision_witness :
  fetch_cache 4 3
    (cache_store (mkCaches [replicate 1 None; replicate 4 None; replicate 32 None]) 2 5
       (replicate 15 (mkBucket (mkRaw 64) P_UNLOCKED) ++ [mkBucket remote_nullptr E_UNLOCKED]))
    (path2 (0 + 1) 1) =
  Done (Some (mkCached
    (take (4 * 4) (replicate 15 (mkBucket (mkRaw 64) P_UNLOCKED) ++ [mkBucket remote_nullptr E_UNLOCKED]))
    (FromCache 2 (Z.to_nat ((0 + 1) * Z.of_nat 4 + 1))))).
Proof.
  refine (third_layer_collision 4
    (mkCaches [replicate 1 None; replicate 4 None; replicate 32 None]) _
    (replicate 15 (mkBucket (mkRaw 64) P_UNLOCKED) ++ [mkBucket remote_nullptr E_UNLOCKED])
    0 1 (replicate 32 None) None _ _ _ _ _); [lia|lia|reflexivity..].
Defined.
