(* ===== verification/IhtSpec.v ===== *)
(** * [RdmaIHT] refines a finite map

    The run of one client ([do_with] on the memory it has to itself) is followed
    step by step: it always finishes, and [contains], [insert] and [remove] behave as
    the operations of a finite map whose contents the tree represents. *)
From S2P Require Import Prelude RemotePtr IhtRdma IhtElist IhtInv IhtRehash IhtCache IhtExample.

(** The abstract operation: the new map and the value the call returns. *)
Definition spec_op {K V} `{Countable K} (o : @op V) (key : K) (M : gmap K V)
    : gmap K V * option V :=
  match o with
  | Contains => (M, M !! key)
  | Insert v => (match M !! key with Some _ => M | None => <[key := v]> M end, M !! key)
  | Remove => (delete key M, M !! key)
  end.

Section spec.
Context {K V : Type} `{Countable K}.
Context (to_num : K → Z) (ELIST_SIZE PLIST_SIZE cache_depth_ : nat) (self_id : Z).
Context (palloc : gmap remote_ptr (@obj K V) → remote_ptr) (raw_elist : @EList K V).
Context `{!Geometry ELIST_SIZE PLIST_SIZE} `{!PoolLaws ELIST_SIZE palloc raw_elist}.
Abbreviation memory := (gmap remote_ptr (@obj K V)).
Abbreviation client := (@client K V).
Abbreviation bkt := (bkt to_num PLIST_SIZE).
Abbreviation kpath := (kpath to_num PLIST_SIZE).
Abbreviation width := (width PLIST_SIZE).
Abbreviation iht_inv := (iht_inv to_num ELIST_SIZE PLIST_SIZE).
Abbreviation bucket_list := (bucket_list ELIST_SIZE).
Abbreviation maps := (maps ELIST_SIZE).
Abbreviation caches_ok := (caches_ok PLIST_SIZE).
Abbreviation client_step :=
  (client_step to_num ELIST_SIZE PLIST_SIZE cache_depth_ self_id palloc raw_elist).
Abbreviation do_with :=
  (do_with to_num ELIST_SIZE PLIST_SIZE cache_depth_ self_id palloc raw_elist).
Abbreviation apply_op := (apply to_num ELIST_SIZE PLIST_SIZE self_id palloc raw_elist).
Implicit Types (m : memory) (root q : remote_ptr) (pl : PList) (b : plist_pair_t) (c : caches)
  (l : list (K * V)) (key : K) (M : gmap K V) (k : client).

(** The tree at [root] represents the map [M]. *)
Definition iht_abs m root M : Prop := ∀ key v, M !! key = Some v ↔ maps m root key v.

(** An insertion has a bucket to go to within the eight levels [bucket_path] has
    room for: fewer than [ELIST_SIZE] other stored keys share all eight hashes. *)
Definition crowd key M : gmap K V := filter (λ kv, kv.1 ≠ key ∧ kpath kv.1 8 = kpath key 8) M.
Definition room (o : @op V) key M : Prop :=
  match o with
  | Insert _ => M !! key = None → (size (crowd key M) < ELIST_SIZE)%nat
  | _ => True
  end.

(** ** Runs *)
Definition runs (j : nat) m k m' k' : Prop := ∀ f, do_with (j + f) m k = do_with f m' k'.

Lemma runs_step m k m' k' : k_pc k ≠ PDone → client_step m k = Done (m', k') → runs 1 m k m' k'.
Proof.
  intros Hpc E f. cbn [Nat.add IhtRdma.do_with]. rewrite E, bind_done.
  destruct (k_pc k); congruence.
Qed.

Lemma runs_trans j1 j2 m1 k1 m2 k2 m3 k3 :
  runs j1 m1 k1 m2 k2 → runs j2 m2 k2 m3 k3 → runs (j1 + j2) m1 k1 m3 k3.
Proof. intros H1 H2 f. by rewrite <- Nat.add_assoc, H1, H2. Qed.

Lemma runs_done j m k m' k' fuel :
  runs j m k m' k' → k_pc k' = PDone → (j ≤ fuel)%nat → do_with fuel m k = Done (m', k').
Proof.
  intros Hr Hd Hle. replace fuel with (j + (fuel - j))%nat by lia. rewrite Hr.
  destruct (fuel - j)%nat; cbn; by rewrite Hd.
Qed.

(** ** The head of the descent loop *)
Record loop_state m root key o n q pl k : Prop := {
  ls_pc : k_pc k = PLoop;
  ls_root : k_root k = root;
  ls_key : k_key k = key;
  ls_op : k_op k = o;
  ls_depth : c_depth (k_ctx k) = Z.of_nat n + 1;
  ls_count : c_count (k_ctx k) = Z.of_nat (width n);
  ls_parent : c_parent_ptr (k_ctx k) = q;
  ls_walk : walk m root (kpath key n) = Some q;
  ls_plist : m !! q = Some (OPlist pl);
  ls_copy : copy_ok PLIST_SIZE n pl (c_curr (k_ctx k));
  ls_path : path_pre to_num PLIST_SIZE key n (k_path k);
  ls_caches : caches_ok m root (k_caches k) }.

Lemma width_max n : (n ≤ 7)%nat → Z.of_nat (width n) ≤ 2 ^ 31.
Proof.
  intros Hn. pose proof plist_max. unfold IhtInv.width. rewrite Nat2Z.inj_mul, Nat2Z.inj_pow.
  assert (2 ^ Z.of_nat n ≤ 2 ^ 7) by (apply Z.pow_le_mono_r; lia). cbn in *. nia.
Qed.

(** The hash of the loop head, as the code computes it. *)
Lemma level_hash_bkt key n :
  level_hash to_num key (Z.of_nat n + 1) (Z.of_nat (width n)) = Z.of_nat (bkt key n).
Proof.
  unfold IhtInv.bkt. pose proof (width_pos ELIST_SIZE PLIST_SIZE n).
  pose proof (level_hash_range to_num key (Z.of_nat n + 1) (Z.of_nat (width n)) ltac:(lia)). lia.
Qed.

Lemma bkt_i32 key n : (n ≤ 7)%nat → to_i32 (Z.of_nat (bkt key n)) = Z.of_nat (bkt key n).
Proof.
  intros Hn. apply to_i32_small. pose proof (width_max n Hn).
  pose proof (bkt_lt to_num ELIST_SIZE PLIST_SIZE key n). unfold INT_MIN, INT_MAX. lia.
Qed.

(** The bucket the loop looks at. *)
Lemma loop_bucket m root key o n q pl k :
  iht_inv m root → loop_state m root key o n q pl k →
  (n ≤ 7)%nat ∧ length pl = width n ∧ ∃ b, pl !! bkt key n = Some b ∧
    cp_plist (c_curr (k_ctx k)) !! bkt key n = Some b ∧
    (lock b = P_UNLOCKED ∨ lock b = E_UNLOCKED).
Proof.
  intros Hinv Hls. destruct (inv_plist _ _ _ _ _ Hinv _ _ (ls_walk _ _ _ _ _ _ _ _ Hls))
    as (Hn & pl' & Hq & Hlen & Hst). rewrite kpath_length in *.
  rewrite (ls_plist _ _ _ _ _ _ _ _ Hls) in Hq. injection Hq as <-.
  pose proof (bkt_lt to_num ELIST_SIZE PLIST_SIZE key n) as Hb.
  destruct (lookup_lt_is_Some_2 pl (bkt key n)) as [b Hpl]; [lia|].
  split_and!; [done..|]. exists b. split_and!; [done| |eauto].
  eapply copy_ok_lookup; [by eapply ls_copy|done|done].
Qed.

(** [PLoop] on a calcified bucket: one level down. *)
Lemma step_descend m root key o n q pl k b :
  (cache_depth_ ≤ 2)%nat → iht_inv m root → loop_state m root key o n q pl k →
  pl !! bkt key n = Some b → lock b = P_UNLOCKED →
  (n < 7)%nat ∧ ∃ pl' k', runs 1 m k m k' ∧ loop_state m root key o (S n) (base b) pl' k'.
Proof.
  intros Hcd Hinv Hls Hb Hlock. destruct (loop_bucket _ _ _ _ _ _ _ _ Hinv Hls)
    as (Hn & Hlen & b' & Hb' & Hcp & _). rewrite Hb in Hb'. injection Hb' as <-.
  assert (walk m root (kpath key (S n)) = Some (base b)) as Hw.
  { rewrite kpath_S, walk_snoc, (ls_walk _ _ _ _ _ _ _ _ Hls). apply child_Some.
    do 2 eexists. split_and!; [by eapply ls_plist|done..]. }
  destruct (inv_plist _ _ _ _ _ Hinv _ _ Hw) as (Hn' & pl' & Hq' & Hlen' & _).
  rewrite kpath_length in Hn', Hlen'. split; [lia|].
  assert (n < 8)%nat as Hn8 by lia.
  pose proof (path_pre_set _ _ _ _ _ Hn8 (ls_path _ _ _ _ _ _ _ _ Hls)) as Hpath.
  destruct (obtain_spec to_num ELIST_SIZE PLIST_SIZE cache_depth_ m root (k_caches k) key (S n) _ (base b) pl' Hcd
    (ls_caches _ _ _ _ _ _ _ _ Hls) Hpath Hw Hq' Hlen') as (cp & c' & E & Hcopy & Hc').
  eexists pl', _. split.
  - apply runs_step; [by rewrite (ls_pc _ _ _ _ _ _ _ _ Hls)|].
    unfold IhtRdma.client_step. rewrite (ls_pc _ _ _ _ _ _ _ _ Hls).
    rewrite (ls_key _ _ _ _ _ _ _ _ Hls), (ls_depth _ _ _ _ _ _ _ _ Hls), (ls_count _ _ _ _ _ _ _ _ Hls).
    cbv zeta. rewrite level_hash_bkt, Nat2Z.id, bkt_i32 by done.
    rewrite (proj2 (Z.leb_le (Z.of_nat n + 1) 8)) by lia. cbn [rome_undef]. rewrite bind_done, Hcp, defined_Some, bind_done.
    rewrite (proj2 (Z.eqb_eq _ _) Hlock).
    replace (Z.to_nat (Z.of_nat n + 1 - 1)) with n by lia.
    replace (Z.of_nat n + 1) with (Z.of_nat (S n)) by lia. rewrite E, bind_done. done.
  - destruct Hls. split; cbn; try done.
    + by rewrite width_S, Nat2Z.inj_mul.
    + by apply path_at_pre.
Qed.
(** ** The critical section: lock, read, apply, unlock *)
Definition lock_mem m q pl (i : nat) b : memory :=
  <[q := OPlist (<[i := mkBucket (base b) E_LOCKED]> pl)]> m.

Lemma write_bucket_at (mm : memory) q pl i x f :
  mm !! q = Some (OPlist (<[i := x]> pl)) → (i < length pl)%nat →
  write_bucket mm q i f = Done (<[q := OPlist (<[i := f x]> pl)]> mm).
Proof.
  intros Hq Hi. unfold write_bucket, read_plist. rewrite Hq, bind_done.
  rewrite list_lookup_insert_eq by done. rewrite defined_Some, bind_done.
  by rewrite list_insert_insert_eq.
Qed.

(** What the client holds as [e] once the lock is taken. *)
Definition elist_of m b (e : option (@EList K V)) : Prop :=
  (is_null (base b) = true ∧ e = None) ∨
  (is_null (base b) = false ∧ ∃ el, e = Some el ∧ m !! base b = Some (OElist el)).

Definition crit_ctx k key n q b (e : option (@EList K V)) : @descent_context K V :=
  mkCtx e (base b) (Z.of_nat n + 1) (Z.of_nat (width n)) (bkt key n) q (c_curr (k_ctx k)).

Lemma step_cas m q pl b root key o e0 bb0 d ct i cur path ca r :
  m !! q = Some (OPlist pl) → pl !! i = Some b → lock b = E_UNLOCKED →
  client_step m (mkClient PLock root key o (mkCtx e0 bb0 d ct i q cur) path ca r) =
  Done (lock_mem m q pl i b, mkClient PCrit root key o (mkCtx e0 bb0 d ct i q cur) path ca r).
Proof.
  intros Hq Hb Hl. unfold IhtRdma.client_step, cas_lock, read_plist. cbn.
  by rewrite Hq, bind_done, Hb, defined_Some, bind_done, Hl.
Qed.

Lemma step_apply m q pl b e root key o e0 bb0 d ct i cur path ca r m2 ctx' res (fin : bool) s :
  elist_of m b e → m !! q = Some (OPlist pl) → cp_plist cur !! i = Some b →
  apply_op (lock_mem m q pl i b) key o (mkCtx e (base b) d ct i q cur) =
    Done (m2, ctx', res, fin) →
  cp_source (c_curr ctx') = Fetched s →
  client_step (lock_mem m q pl i b) (mkClient PCrit root key o (mkCtx e0 bb0 d ct i q cur) path ca r) =
  Done (m2, mkClient (PUnlock (if fin then E_UNLOCKED else P_UNLOCKED)) root key o ctx' path ca res).
Proof.
  intros He Hq Hcp Happ Hs. unfold IhtRdma.client_step.
  cbn [k_pc k_root k_key k_op k_ctx k_path k_caches k_result c_depth c_count c_curr c_e c_bucket c_parent_ptr].
  rewrite Hcp, defined_Some, bind_done. cbv zeta.
  assert ((if is_null (base b) then Done None
     else el ← read_elist (lock_mem m q pl i b) (base b); Done (Some el)) = Done e) as ->.
  { destruct He as [[-> ->]|(-> & el & -> & Hel)]; [done|]. unfold read_elist, lock_mem.
    by rewrite lookup_insert_ne, Hel by congruence. }
  by rewrite bind_done, Happ, bind_done, Hs.
Qed.

Lemma step_enter m root key o n q pl k b :
  iht_inv m root → loop_state m root key o n q pl k → pl !! bkt key n = Some b →
  lock b = E_UNLOCKED →
  client_step m k = Done (m, mkClient PLock root key o
    (mkCtx (c_e (k_ctx k)) (c_bucket_base (k_ctx k)) (Z.of_nat n + 1) (Z.of_nat (width n))
       (bkt key n) q (c_curr (k_ctx k)))
    (<[n := Z.of_nat (bkt key n)]> (k_path k)) (k_caches k) (k_result k)).
Proof.
  intros Hinv Hls Hb Hlock. destruct (loop_bucket _ _ _ _ _ _ _ _ Hinv Hls)
    as (Hn & Hlen & b' & Hb' & Hcp & _). rewrite Hb in Hb'. injection Hb' as <-.
  destruct Hls as [E1 E2 E3 E4 E5 E6 E7 _ _ _ _ _].
  unfold IhtRdma.client_step. rewrite E1, E2, E3, E4, E5, E6, E7.
  cbv zeta. rewrite level_hash_bkt, Nat2Z.id, bkt_i32 by done.
  rewrite (proj2 (Z.leb_le (Z.of_nat n + 1) 8)) by lia. cbn [rome_undef].
  rewrite bind_done, Hcp, defined_Some, bind_done, Hlock.
  change (E_UNLOCKED =? P_UNLOCKED) with false. cbv iota.
  by replace (Z.to_nat (Z.of_nat n + 1 - 1)) with n by lia.
Qed.

(** A leaf bucket is only locked through a private copy of its PList. *)
Lemma leaf_copy m root key o n q pl k b :
  loop_state m root key o n q pl k → pl !! bkt key n = Some b → lock b = E_UNLOCKED →
  cp_plist (c_curr (k_ctx k)) = pl ∧ ∃ s, cp_source (c_curr (k_ctx k)) = Fetched s.
Proof.
  intros Hls Hb Hlock. destruct (ls_copy _ _ _ _ _ _ _ _ Hls) as [?|Hcal]; [done|].
  destruct (Hcal _ (bkt_lt to_num ELIST_SIZE PLIST_SIZE key n)) as (b' & _ & Hb' & Hp).
  rewrite Hb in Hb'. injection Hb' as <-. by rewrite Hlock in Hp.
Qed.

Lemma leaf_run m root key o n q pl k b e m2 ctx' res fin m3 :
  iht_inv m root → loop_state m root key o n q pl k → pl !! bkt key n = Some b →
  lock b = E_UNLOCKED → elist_of m b e →
  apply_op (lock_mem m q pl (bkt key n) b) key o (crit_ctx k key n q b e) =
    Done (m2, ctx', res, fin) →
  cp_source (c_curr ctx') = cp_source (c_curr (k_ctx k)) →
  unlock m2 (c_parent_ptr ctx') (c_bucket ctx') (if fin : bool then E_UNLOCKED else P_UNLOCKED) = Done m3 →
  runs 4 m k m3 (mkClient (if fin : bool then PDone else PLoop) root key o ctx'
                   (<[n := Z.of_nat (bkt key n)]> (k_path k)) (k_caches k) res).
Proof.
  intros Hinv Hls Hb Hlock He Happ Hsrc Hun.
  destruct (leaf_copy _ _ _ _ _ _ _ _ _ Hls Hb Hlock) as [Hcur [s Hs]].
  pose proof (ls_plist _ _ _ _ _ _ _ _ Hls) as Hq.
  apply (runs_trans 1 3 _ _ _ _ _ _
    (runs_step _ _ _ _ ltac:(rewrite (ls_pc _ _ _ _ _ _ _ _ Hls); done)
       (step_enter _ _ _ _ _ _ _ _ _ Hinv Hls Hb Hlock))).
  eapply (runs_trans 1 2); [apply runs_step; [done|by apply step_cas]|].
  eapply (runs_trans 1 1); [apply runs_step; [done|]|].
  { eapply step_apply; [done|done|by rewrite Hcur|done|by rewrite Hsrc]. }
  apply runs_step; [done|]. unfold IhtRdma.client_step. cbn [k_pc k_ctx].
  rewrite Hun, bind_done. unfold set_pc. by destruct fin.
Qed.

Lemma unlock_same m q pl i b :
  m !! q = Some (OPlist pl) → pl !! i = Some b → lock b = E_UNLOCKED →
  unlock (lock_mem m q pl i b) q i E_UNLOCKED = Done m.
Proof.
  intros Hq Hb Hl. unfold unlock, lock_mem.
  erewrite write_bucket_at; [|apply lookup_insert_eq|by eapply lookup_lt_Some]. cbn.
  rewrite insert_insert_eq. destruct b as [bb bl]. cbn in *. subst.
  by rewrite list_insert_id, insert_id by done.
Qed.

Lemma unlock_set m q pl i b e' :
  m !! q = Some (OPlist pl) → pl !! i = Some b → lock b = E_UNLOCKED → base b ≠ q →
  unlock (<[base b := OElist e']> (lock_mem m q pl i b)) q i E_UNLOCKED =
  Done (set_leaf_mem m i q pl b e').
Proof.
  intros Hq Hb Hl Hne. unfold unlock, lock_mem.
  erewrite write_bucket_at; [|by rewrite lookup_insert_ne, lookup_insert_eq by done
    |by eapply lookup_lt_Some]. cbn. unfold set_leaf_mem.
  rewrite (insert_insert_ne _ (base b) q) by done. rewrite insert_insert_eq.
  destruct b as [bb bl]. cbn in *. by subst.
Qed.

Lemma unlock_new m q pl i b p e' m2 :
  m !! q = Some (OPlist pl) → pl !! i = Some b → p ≠ q →
  change_bucket_pointer (<[p := OElist e']> (lock_mem m q pl i b)) q i p = Done m2 →
  unlock m2 q i E_UNLOCKED = Done (set_leaf_mem m i q pl (mkBucket p E_UNLOCKED) e').
Proof.
  intros Hq Hb Hne. unfold change_bucket_pointer, lock_mem.
  erewrite write_bucket_at; [|by rewrite lookup_insert_ne, lookup_insert_eq by done
    |by eapply lookup_lt_Some]. intros [= <-]. unfold unlock.
  erewrite write_bucket_at; [|apply lookup_insert_eq|by eapply lookup_lt_Some].
  cbn. unfold set_leaf_mem. rewrite insert_insert_eq.
  rewrite (insert_insert_ne _ p q) by done. by rewrite insert_insert_eq.
Qed.
(** ** One operation at the leaf of its key *)
Record outcome m root M (o : @op V) key (m' : memory) k' : Prop := {
  out_pc : k_pc k' = PDone;
  out_result : k_result k' = (spec_op o key M).2;
  out_inv : iht_inv m' root;
  out_abs : iht_abs m' root (spec_op o key M).1;
  out_caches : caches_ok m' root (k_caches k');
  out_evolves : evolves m root m' }.

Record leaf_view m root M key n q pl b l (e : option (@EList K V)) : Prop := {
  lv_leaf : leaf m root (kpath key n) (bkt key n) q pl b;
  lv_list : bucket_list m b l;
  lv_elist : elist_of m b e;
  lv_none : e = None → l = [] ∧ is_null (base b) = true;
  lv_some el : e = Some el → is_null (base b) = false ∧ m !! base b = Some (OElist el) ∧
    elist_repr ELIST_SIZE el l;
  lv_nodup : NoDup l.*1;
  lv_path kv : kv ∈ l → kpath kv.1 (S n) = kpath key (S n);
  lv_map v : M !! key = Some v ↔ (key, v) ∈ l;
  lv_sub key' v : (key', v) ∈ l → M !! key' = Some v }.

Lemma leaf_view_of m root M key n q pl b :
  iht_inv m root → iht_abs m root M → leaf m root (kpath key n) (bkt key n) q pl b →
  ∃ l e, leaf_view m root M key n q pl b l e.
Proof.
  intros Hinv Habs Hleaf.
  destruct (inv_leaf _ _ _ _ _ Hinv _ _ _ _ _ Hleaf) as (l & Hl & Hnd & Hp).
  assert (∀ key' v, (key', v) ∈ l → M !! key' = Some v) as Hsub.
  { intros key' v Hin. apply Habs. by do 6 eexists. }
  assert (∀ kv, kv ∈ l → kpath kv.1 (S n) = kpath key (S n)) as Hpath.
  { intros kv Hin. rewrite (kpath_S _ _ key), <- (Hp _ Hin). by rewrite kpath_length. }
  assert (∀ v, M !! key = Some v ↔ (key, v) ∈ l) as Hmap.
  { intros v. rewrite (Habs key v).
    apply (maps_in_leaf to_num _ _ _ _ _ _ _ _ _ _ _ Hinv Hleaf Hl). }
  destruct Hl as [[Hn ->]|(Hn & el & He & Hr)].
  - exists [], None. split; try done; by left.
  - exists l, (Some el). split; try done; [right; eauto|right; eauto|]. by intros ? [= <-].
Qed.

Lemma leaf_view_intro m root M key o n q pl k b :
  iht_inv m root → iht_abs m root M → loop_state m root key o n q pl k →
  pl !! bkt key n = Some b → lock b = E_UNLOCKED → ∃ l e, leaf_view m root M key n q pl b l e.
Proof.
  intros Hinv Habs Hls Hb Hlock. apply leaf_view_of; [done|done|].
  split_and!; [by eapply ls_walk|by eapply ls_plist|done..].
Qed.

Lemma lv_missing m root M key n q pl b l e :
  leaf_view m root M key n q pl b l e → M !! key = None → key ∉ l.*1.
Proof.
  intros Hv Hnone ([key' v] & -> & Hin)%list_elem_of_fmap. apply (lv_map _ _ _ _ _ _ _ _ _ _ Hv) in Hin.
  cbn in *. congruence.
Qed.

(** An operation that leaves the memory as it is. *)
Lemma leaf_unchanged m root M key o n q pl k b l e res :
  iht_inv m root → iht_abs m root M → loop_state m root key o n q pl k →
  leaf_view m root M key n q pl b l e →
  apply_op (lock_mem m q pl (bkt key n) b) key o (crit_ctx k key n q b e) =
    Done (lock_mem m q pl (bkt key n) b, crit_ctx k key n q b e, res, true) →
  spec_op o key M = (M, res) →
  ∃ k', runs 4 m k m k' ∧ outcome m root M o key m k'.
Proof.
  intros Hinv Habs Hls Hv Happ Hspec. destruct (lv_leaf _ _ _ _ _ _ _ _ _ _ Hv) as (_ & Hq & Hb & Hl).
  eexists. split.
  - eapply leaf_run; [done..|by eapply lv_elist|done|done|]. by apply unlock_same.
  - split; cbn; rewrite ?Hspec; cbn; try done; [by eapply ls_caches|apply evolves_refl].
Qed.

Lemma leaf_contains m root M key n q pl k b :
  iht_inv m root → iht_abs m root M → loop_state m root key Contains n q pl k →
  pl !! bkt key n = Some b → lock b = E_UNLOCKED →
  ∃ m' k', runs 4 m k m' k' ∧ outcome m root M Contains key m' k'.
Proof.
  intros Hinv Habs Hls Hb Hlock.
  destruct (leaf_view_intro _ _ _ _ _ _ _ _ _ _ Hinv Habs Hls Hb Hlock) as (l & e & Hv).
  exists m. eapply leaf_unchanged; [done..| |done]. cbn. unfold apply_contains. cbn.
  destruct e as [el|].
  - destruct (lv_some _ _ _ _ _ _ _ _ _ _ Hv _ eq_refl) as (_ & _ & Hr).
    destruct (M !! key) as [v|] eqn:HM.
    + apply (lv_map _ _ _ _ _ _ _ _ _ _ Hv) in HM.
      destruct (search_found ELIST_SIZE key el l v Hr (lv_nodup _ _ _ _ _ _ _ _ _ _ Hv) HM) as [j ->]. done.
    + by rewrite (search_missing ELIST_SIZE key el l Hr (lv_missing _ _ _ _ _ _ _ _ _ _ Hv HM)).
  - destruct (lv_none _ _ _ _ _ _ _ _ _ _ Hv eq_refl) as [-> _].
    destruct (M !! key) as [v|] eqn:HM; [|done].
    apply (lv_map _ _ _ _ _ _ _ _ _ _ Hv), elem_of_nil in HM. done.
Qed.

(** An operation that ends with the leaf holding [l'] in the EList behind [b']. *)
Lemma leaf_changed m root M key o n q pl k b l e b' e' l' res m2 :
  iht_inv m root → loop_state m root key o n q pl k →
  leaf_view m root M key n q pl b l e →
  lock b' = E_UNLOCKED → is_null (base b') = false →
  ((is_null (base b) = false ∧ base b' = base b) ∨ m !! base b' = None) →
  elist_repr ELIST_SIZE e' l' → NoDup l'.*1 →
  (∀ kv, kv ∈ l' → kv ∈ l ∨ kv.1 = key) →
  apply_op (lock_mem m q pl (bkt key n) b) key o (crit_ctx k key n q b e) =
    Done (m2, crit_ctx k key n q b e, res, true) →
  unlock m2 q (bkt key n) E_UNLOCKED = Done (set_leaf_mem m (bkt key n) q pl b' e') →
  res = (spec_op o key M).2 →
  (∀ m', (∀ key' v, maps m' root key' v ↔ (maps m root key' v ∧ (key', v) ∉ l) ∨ (key', v) ∈ l') →
     iht_abs m' root (spec_op o key M).1) →
  ∃ m' k', runs 4 m k m' k' ∧ outcome m root M o key m' k'.
Proof.
  intros Hinv Hls Hv Hlock' Hnn Hbase Hr Hnd Hsub Happ Hun -> Habs'.
  pose proof (lv_leaf _ _ _ _ _ _ _ _ _ _ Hv) as Hleaf. pose proof Hleaf as (_ & Hq & Hb & Hl).
  pose proof (lv_list _ _ _ _ _ _ _ _ _ _ Hv) as Hlist.
  assert (∀ kv, kv ∈ l' → kpath kv.1 (S (length (kpath key n))) = kpath key n ++ [bkt key n]) as Hp.
  { intros kv [Hin| ->]%Hsub; rewrite kpath_length, <- kpath_S; [|done].
    by apply (lv_path _ _ _ _ _ _ _ _ _ _ Hv). }
  assert (evolves m root (set_leaf_mem m (bkt key n) q pl b' e')) as Hev.
  { eapply set_leaf_evolves; done. }
  eexists _, _. split.
  - eapply leaf_run; [done..|by eapply lv_elist|done|done|done].
  - split; cbn; try done.
    + eapply set_leaf_inv; done.
    + apply Habs'. intros key' v. eapply set_leaf_maps; done.
    + eapply caches_ok_evolves; [done|by eapply ls_caches].
Qed.

Lemma abs_insert m m' root M key v0 l :
  iht_abs m root M → M !! key = None → (∀ key' v, (key', v) ∈ l → M !! key' = Some v) →
  (∀ key' v, maps m' root key' v ↔ (maps m root key' v ∧ (key', v) ∉ l) ∨ (key', v) ∈ l ++ [(key, v0)]) →
  iht_abs m' root (<[key := v0]> M).
Proof.
  intros Habs Hnone Hsub Hm key' v. rewrite Hm, lookup_insert_Some, <- (Habs key' v).
  rewrite elem_of_app, list_elem_of_singleton. split.
  - intros [[-> ->]|[Hne HM]]; [by auto|]. destruct (decide (key' ∈ l.*1)) as [Hin|Hni].
    + apply list_elem_of_fmap in Hin as ([k2 v2] & -> & Hin). cbn in *.
      apply Hsub in Hin as HM2. right; left. by simplify_eq.
    + left. split; [done|]. intros Hin. apply Hni. by apply (list_elem_of_fmap_2 fst) in Hin.
  - intros [[HM _]|[Hin|[= -> ->]]]; [right|right|by left].
    + split; [congruence|done].
    + apply Hsub in Hin. split; [congruence|done].
Qed.

Lemma abs_remove m m' root M key v0 l l' :
  iht_abs m root M → (∀ key' v, (key', v) ∈ l → M !! key' = Some v) → NoDup l.*1 →
  l ≡ₚ (key, v0) :: l' →
  (∀ key' v, maps m' root key' v ↔ (maps m root key' v ∧ (key', v) ∉ l) ∨ (key', v) ∈ l') →
  iht_abs m' root (delete key M).
Proof.
  intros Habs Hsub Hnd Hperm Hm key' v. rewrite Hm, lookup_delete_Some, <- (Habs key' v).
  assert (∀ x, x ∈ l ↔ x = (key, v0) ∨ x ∈ l') as Hl.
  { intros x. by rewrite Hperm, elem_of_cons. }
  rewrite Hperm in Hnd. apply NoDup_cons in Hnd as [Hni _].
  assert (∀ v, (key, v) ∉ l') as Hni' by (intros v1 Hin; apply Hni; exact (list_elem_of_fmap_2 fst _ _ Hin)).
  split.
  - intros [Hne HM]. destruct (decide (key' ∈ l.*1)) as [Hin|Hno].
    + apply list_elem_of_fmap in Hin as ([k2 v2] & -> & Hin). cbn in *.
      apply Hsub in Hin as HM2. simplify_eq. apply Hl in Hin as [[= <- <-]|Hin]; [done|by right].
    + left. split; [done|]. intros Hin. apply Hno. by apply (list_elem_of_fmap_2 fst) in Hin.
  - intros [[HM Hout]|Hin].
    + split; [|done]. intros <-. apply Hout. assert ((key, v0) ∈ l) as Hin by (apply Hl; by left).
      apply Hsub in Hin as HM2. by simplify_eq.
    + split; [intros <-; by eapply Hni'|]. apply Hsub, Hl. by right.
Qed.

Lemma leaf_remove m root M key n q pl k b :
  iht_inv m root → iht_abs m root M → loop_state m root key Remove n q pl k →
  pl !! bkt key n = Some b → lock b = E_UNLOCKED →
  ∃ m' k', runs 4 m k m' k' ∧ outcome m root M Remove key m' k'.
Proof.
  intros Hinv Habs Hls Hb Hlock.
  destruct (leaf_view_intro _ _ _ _ _ _ _ _ _ _ Hinv Habs Hls Hb Hlock) as (l & e & Hv).
  destruct (M !! key) as [v|] eqn:HM.
  - pose proof HM as Hin. apply (lv_map _ _ _ _ _ _ _ _ _ _ Hv) in Hin. destruct e as [el|].
    2:{ destruct (lv_none _ _ _ _ _ _ _ _ _ _ Hv eq_refl) as [-> _]. by apply elem_of_nil in Hin. }
    destruct (lv_some _ _ _ _ _ _ _ _ _ _ Hv _ eq_refl) as (Hnn & He & Hr).
    pose proof (lv_nodup _ _ _ _ _ _ _ _ _ _ Hv) as Hnd.
    destruct (remove_loop_present ELIST_SIZE key el l v Hr Hnd Hin) as (e' & l' & E & Hr' & Hperm).
    eapply (leaf_changed _ _ _ _ _ _ _ _ _ b l _ b e' l'); [done..|by left|done| | | | |done|].
    + rewrite Hperm in Hnd. by apply NoDup_cons in Hnd as [_ ?].
    + intros kv Hkv. left. rewrite Hperm. by apply elem_of_cons; right.
    + cbn. rewrite E, bind_done. done.
    + pose proof (ls_plist _ _ _ _ _ _ _ _ Hls) as Hq. apply unlock_set; try done. congruence.
    + intros m' Hm'. eapply abs_remove; [done| |done..]. by eapply lv_sub.
  - exists m. eapply leaf_unchanged; [done..| |].
    2:{ cbn. rewrite HM. by rewrite delete_id. }
    cbn. destruct e as [el|]; [|done].
    destruct (lv_some _ _ _ _ _ _ _ _ _ _ Hv _ eq_refl) as (Hnn & He & Hr).
    by rewrite (remove_loop_absent ELIST_SIZE key el l Hr (lv_missing _ _ _ _ _ _ _ _ _ _ Hv HM)).
Qed.
Lemma leaf_insert_empty m root M key v n q pl k b l :
  iht_inv m root → iht_abs m root M → loop_state m root key (Insert v) n q pl k →
  leaf_view m root M key n q pl b l None → M !! key = None →
  ∃ m' k', runs 4 m k m' k' ∧ outcome m root M (Insert v) key m' k'.
Proof.
  intros Hinv Habs Hls Hv HM. pose proof elist_pos as Hpos.
  destruct (lv_leaf _ _ _ _ _ _ _ _ _ _ Hv) as (_ & Hq & Hb & Hl).
  destruct (lv_none _ _ _ _ _ _ _ _ _ _ Hv eq_refl) as [-> Hnull].
  set (m1 := lock_mem m q pl (bkt key n) b). set (p := palloc m1).
  assert (m1 !! p = None) as Hp by apply palloc_fresh.
  assert (p ≠ q) as Hpq by (intros E; unfold m1, lock_mem in Hp; rewrite E, lookup_insert_eq in Hp; done).
  assert (m !! p = None) as Hp' by (unfold m1, lock_mem in Hp; rewrite lookup_insert_ne in Hp; done).
  assert (mkEList 0 (pairs raw_elist) = raw_elist) as Hraw.
  { pose proof (raw_count (raw_elist := raw_elist)). destruct raw_elist. cbn in *. by subst. }
  destruct (elist_insert_repr ELIST_SIZE raw_elist [] (key, v) (raw_repr ELIST_SIZE palloc raw_elist))
    as (e' & He & Hr); [cbn; lia|].
  assert (∃ m2, change_bucket_pointer (<[p := OElist e']> m1) q (bkt key n) p = Done m2) as [m2 Hm2].
  { eexists. unfold change_bucket_pointer, m1, lock_mem.
    erewrite write_bucket_at; [done|by rewrite lookup_insert_ne, lookup_insert_eq by done
      |by eapply lookup_lt_Some]. }
  eapply (leaf_changed _ _ _ _ _ _ _ _ _ b [] None (mkBucket p E_UNLOCKED) e' [(key, v)]);
    [done|done|done|done|exact (palloc_nonnull (palloc := palloc) m1)|by right|done| | | | | |].
  - apply NoDup_singleton.
  - intros kv Hkv. apply list_elem_of_singleton in Hkv as ->. by right.
  - cbn. rewrite Hraw, He, bind_done. fold m1 p. rewrite Hm2, bind_done. done.
  - by eapply unlock_new.
  - cbn. by rewrite HM.
  - intros m' Hm'. cbn. rewrite HM. eapply abs_insert; [done|done| |exact Hm'].
    intros key' v' Hin. by apply elem_of_nil in Hin.
Qed.

Lemma leaf_insert_append m root M key v n q pl k b l el :
  iht_inv m root → iht_abs m root M → loop_state m root key (Insert v) n q pl k →
  leaf_view m root M key n q pl b l (Some el) → M !! key = None →
  (length l < ELIST_SIZE)%nat →
  ∃ m' k', runs 4 m k m' k' ∧ outcome m root M (Insert v) key m' k'.
Proof.
  intros Hinv Habs Hls Hv HM Hlt.
  destruct (lv_leaf _ _ _ _ _ _ _ _ _ _ Hv) as (_ & Hq & Hb & Hl).
  destruct (lv_some _ _ _ _ _ _ _ _ _ _ Hv _ eq_refl) as (Hnn & He & Hr).
  pose proof (lv_missing _ _ _ _ _ _ _ _ _ _ Hv HM) as Hni.
  destruct (elist_insert_repr ELIST_SIZE el l (key, v) Hr Hlt) as (e' & Hins & Hr').
  pose proof Hr as (_ & Hc & _).
  eapply (leaf_changed _ _ _ _ _ _ _ _ _ b l (Some el) b e' (l ++ [(key, v)]));
    [done|done|done|done|done|by left|done| | | | | |].
  - rewrite fmap_app. apply NoDup_app. split_and!; [by eapply lv_nodup| |apply NoDup_singleton].
    intros x Hx Hx2. apply list_elem_of_singleton in Hx2 as ->. done.
  - intros kv [?|Hkv]%elem_of_app; [by left|]. apply list_elem_of_singleton in Hkv as ->. by right.
  - cbn. rewrite (search_missing ELIST_SIZE key el l Hr Hni), bind_done.
    rewrite bool_decide_eq_true_2 by lia. rewrite Hins, bind_done. done.
  - apply unlock_set; try done. congruence.
  - cbn. by rewrite HM.
  - intros m' Hm'. cbn. rewrite HM. eapply abs_insert; [done|done| |exact Hm'].
    by eapply lv_sub.
Qed.

(** The rehash was run on the locked memory; what it built is fresh for the memory
    before the lock as well. *)
Lemma fresh_plist_restore m m1 new_p np l n q (x y : @obj K V) px py :
  x = OPlist px → y = OPlist py → m !! q = Some y →
  fresh_plist to_num ELIST_SIZE PLIST_SIZE (<[q := x]> m) m1 new_p np l n →
  fresh_plist to_num ELIST_SIZE PLIST_SIZE m (<[q := y]> m1) new_p np l n.
Proof.
  intros -> -> Hq Hf.
  assert (∀ a, (<[q := OPlist px]> m) !! a = None → a ≠ q ∧ m !! a = None) as Hnone.
  { intros a Ha. destruct (decide (q = a)) as [->|]; [by rewrite lookup_insert_eq in Ha|].
    by rewrite lookup_insert_ne in Ha by done. }
  destruct (Hnone _ (fp_fresh _ _ _ _ _ _ _ _ _ Hf)) as [Hnq Hnew].
  split.
  - done.
  - rewrite lookup_insert_ne by done. by eapply fp_plist.
  - by eapply (fp_length _ _ _ _ _ _ _ _ _ Hf).
  - intros a Ha. destruct (decide (q = a)) as [->|]; [by rewrite lookup_insert_eq|].
    rewrite lookup_insert_ne by done. rewrite (fp_frame _ _ _ _ _ _ _ _ _ Hf);
      by rewrite lookup_insert_ne by done.
  - by eapply (fp_lock _ _ _ _ _ _ _ _ _ Hf).
  - intros j c Hj. apply bucket_list_frame with m1; [|by eapply (fp_list _ _ _ _ _ _ _ _ _ Hf)].
    intros Hn. destruct (fp_new _ _ _ _ _ _ _ _ _ Hf _ _ Hj Hn) as [[Hcq _]%Hnone _].
    by rewrite lookup_insert_ne by done.
  - intros j c Hj Hn. destruct (fp_new _ _ _ _ _ _ _ _ _ Hf _ _ Hj Hn) as [[_ ?]%Hnone ?]. done.
  - by eapply (fp_inj _ _ _ _ _ _ _ _ _ Hf).
Qed.

(** The state after a rehash: the leaf of [key] is calcified, the map is the same. *)
Record split_outcome m root M key v n q (m' : memory) k' : Prop := {
  so_loop : ∃ pl' b', loop_state m' root key (Insert v) n q pl' k' ∧
    pl' !! bkt key n = Some b' ∧ lock b' = P_UNLOCKED;
  so_inv : iht_inv m' root;
  so_abs : iht_abs m' root M;
  so_evolves : evolves m root m' }.

Lemma leaf_insert_full_mem m root M key v n q pl k b l el :
  loop_state m root key (Insert v) n q pl k →
  leaf_view m root M key n q pl b l (Some el) → M !! key = None →
  ¬ (length l < ELIST_SIZE)%nat →
  ∃ new_p np m1 m2 m',
    fresh_plist to_num ELIST_SIZE PLIST_SIZE m m1 new_p np l (S n) ∧
    apply_op (lock_mem m q pl (bkt key n) b) key (Insert v) (crit_ctx k key n q b (Some el)) =
      Done (m2, mkCtx (Some el) (base b) (Z.of_nat n + 1) (Z.of_nat (width n)) (bkt key n) q
                  (mkCached (<[bkt key n := mkBucket new_p P_UNLOCKED]> pl)
                            (cp_source (c_curr (k_ctx k)))), None, false) ∧
    unlock m2 q (bkt key n) P_UNLOCKED = Done m' ∧
    m' !! q = Some (OPlist (<[bkt key n := mkBucket new_p P_UNLOCKED]> pl)) ∧
    ∀ a, a ≠ q → a ≠ base b → m' !! a = m1 !! a.
Proof.
  intros Hls Hv HM Hfull.
  destruct (lv_leaf _ _ _ _ _ _ _ _ _ _ Hv) as (_ & Hq & Hb & Hl).
  destruct (leaf_copy _ _ _ _ _ _ _ _ _ Hls Hb Hl) as [Hcur _].
  destruct (lv_some _ _ _ _ _ _ _ _ _ _ Hv _ eq_refl) as (Hnn & He & Hr).
  pose proof Hr as (_ & Hc & _). pose proof (lookup_lt_Some _ _ _ Hb) as Hlen.
  assert (base b ≠ q) as Hbq by congruence.
  assert ((lock_mem m q pl (bkt key n) b) !! base b = Some (OElist el)) as He1
    by (unfold lock_mem; by rewrite lookup_insert_ne).
  destruct (rehash_fresh to_num ELIST_SIZE PLIST_SIZE self_id palloc raw_elist
    (lock_mem m q pl (bkt key n) b) pl n (bkt key n) b el l Hb He1 Hr) as (new_p & np & m1 & Hf & E).
  set (m1' := if is_local self_id (base b) then delete (base b) m1 else m1) in *.
  assert (m1 !! q = Some (OPlist (<[bkt key n := mkBucket (base b) E_LOCKED]> pl))) as Hq1.
  { rewrite (fp_frame _ _ _ _ _ _ _ _ _ Hf); unfold lock_mem; by rewrite lookup_insert_eq. }
  assert (∀ a, a ≠ base b → m1' !! a = m1 !! a) as Hm1'.
  { intros a Ha. unfold m1'. case_match; [|done]. by rewrite lookup_delete_ne. }
  exists new_p, np, (<[q := OPlist pl]> m1). eexists _, _. split_and!.
  - by eapply fresh_plist_restore.
  - cbn. rewrite (search_missing ELIST_SIZE key el l Hr (lv_missing _ _ _ _ _ _ _ _ _ _ Hv HM)), bind_done.
    rewrite bool_decide_eq_false_2 by lia. rewrite Hcur, E, bind_done.
    unfold change_bucket_pointer. erewrite write_bucket_at; [|by rewrite Hm1'|done].
    rewrite bind_done. done.
  - unfold unlock. erewrite write_bucket_at; [done|apply lookup_insert_eq|done].
  - cbn. apply lookup_insert_eq.
  - intros a H1 H2. rewrite !lookup_insert_ne by done. by apply Hm1'.
Qed.

Lemma leaf_insert_full m root M key v n q pl k b l el :
  iht_inv m root → iht_abs m root M → loop_state m root key (Insert v) n q pl k →
  leaf_view m root M key n q pl b l (Some el) → M !! key = None →
  ¬ (length l < ELIST_SIZE)%nat → (n < 7)%nat →
  ∃ m' k', runs 4 m k m' k' ∧ split_outcome m root M key v n q m' k'.
Proof.
  intros Hinv Habs Hls Hv HM Hfull Hn.
  pose proof (lv_leaf _ _ _ _ _ _ _ _ _ _ Hv) as Hleaf. pose proof Hleaf as (_ & Hq & Hb & Hl).
  destruct (lv_some _ _ _ _ _ _ _ _ _ _ Hv _ eq_refl) as (Hnn & He & Hr).
  destruct (leaf_copy _ _ _ _ _ _ _ _ _ Hls Hb Hl) as [Hcur [s Hs]].
  destruct (leaf_insert_full_mem _ _ _ _ _ _ _ _ _ _ _ _ Hls Hv HM Hfull)
    as (new_p & np & m1 & m2 & m' & Hf & Happ & Hun & Hq' & Hrest).
  pose proof (lv_list _ _ _ _ _ _ _ _ _ _ Hv) as Hlist.
  assert (fresh_plist to_num ELIST_SIZE PLIST_SIZE m m1 new_p np l (S (length (kpath key n)))) as Hf'
    by by rewrite kpath_length.
  assert (length (kpath key n) < 7)%nat as Hn' by by rewrite kpath_length.
  pose proof (split_evolves to_num ELIST_SIZE PLIST_SIZE _ _ _ _ _ _ _ _ _ _ _ _ Hleaf Hnn Hlist Hf' Hq' Hrest) as Hev.
  exists m'. eexists. split.
  - eapply leaf_run; [done..|by eapply lv_elist|exact Happ|done|exact Hun].
  - split.
    + eexists _, (mkBucket new_p P_UNLOCKED). split_and!; [|apply list_lookup_insert_eq; by eapply lookup_lt_Some|done].
      pose proof (path_pre_set _ _ _ _ _ (Nat.lt_lt_succ_r _ _ Hn) (ls_path _ _ _ _ _ _ _ _ Hls)) as Hpath.
      split; cbn; try done.
      * eapply evolves_walk; [done|by eapply ls_walk].
      * left. cbn. split; [done|by exists s].
      * destruct Hpath as (? & Hlo & Hhi). split_and!; [done|..]; intros j Hj; [apply Hlo|apply Hhi]; lia.
      * eapply caches_ok_evolves; [done|by eapply ls_caches].
    + by eapply split_inv.
    + intros key' v'. rewrite (Habs key' v'). symmetry. by eapply split_maps.
    + done.
Qed.
(** ** From the head of the loop to the end of the operation *)
Lemma full_crowd m root M key n q pl b l e :
  leaf_view m root M key n q pl b l e → M !! key = None → n = 7%nat →
  (length l ≤ size (crowd key M))%nat.
Proof.
  intros Hv HM ->. rewrite <- (length_fmap fst l).
  rewrite <- (size_dom (D := gset K)), <- (size_list_to_set (C := gset K) l.*1)
    by by eapply lv_nodup.
  apply subseteq_size. intros x ([x' v] & -> & Hin)%elem_of_list_to_set%list_elem_of_fmap.
  pose proof (lv_sub _ _ _ _ _ _ _ _ _ _ Hv _ _ Hin) as Hx. cbn. apply elem_of_dom. exists v.
  apply map_lookup_filter_Some. split; [done|]. cbn. split; [congruence|].
  exact (lv_path _ _ _ _ _ _ _ _ _ _ Hv _ Hin).
Qed.

Lemma leaf_insert m root M key v n q pl k b :
  iht_inv m root → iht_abs m root M → loop_state m root key (Insert v) n q pl k →
  room (Insert v) key M → (n ≤ 7)%nat → pl !! bkt key n = Some b → lock b = E_UNLOCKED →
  ∃ m' k', runs 4 m k m' k' ∧
    (outcome m root M (Insert v) key m' k' ∨ (n < 7)%nat ∧ split_outcome m root M key v n q m' k').
Proof.
  intros Hinv Habs Hls Hroom Hn Hb Hlock.
  destruct (leaf_view_intro _ _ _ _ _ _ _ _ _ _ Hinv Habs Hls Hb Hlock) as (l & e & Hv).
  destruct (M !! key) as [v0|] eqn:HM.
  - exists m. destruct e as [el|].
    2:{ destruct (lv_none _ _ _ _ _ _ _ _ _ _ Hv eq_refl) as [-> _].
        apply (lv_map _ _ _ _ _ _ _ _ _ _ Hv), elem_of_nil in HM. done. }
    destruct (lv_some _ _ _ _ _ _ _ _ _ _ Hv _ eq_refl) as (_ & _ & Hr).
    pose proof HM as Hin. apply (lv_map _ _ _ _ _ _ _ _ _ _ Hv) in Hin.
    destruct (search_found ELIST_SIZE key el l v0 Hr (lv_nodup _ _ _ _ _ _ _ _ _ _ Hv) Hin) as [j Hj].
    destruct (leaf_unchanged m root M key (Insert v) n q pl k b l (Some el) (Some v0))
      as (k' & Hrun & Ho); [done..| | |].
    + cbn. by rewrite Hj, bind_done.
    + cbn. by rewrite HM.
    + exists k'. auto.
  - destruct e as [el|].
    + destruct (decide (length l < ELIST_SIZE)%nat) as [Hlt|Hge].
      * destruct (leaf_insert_append _ _ _ _ _ _ _ _ _ _ _ _ Hinv Habs Hls Hv HM Hlt)
          as (m' & k' & ? & ?). eauto.
      * assert (n < 7)%nat as Hn7.
        { destruct (decide (n = 7%nat)) as [->|]; [|lia].
          pose proof (full_crowd _ _ _ _ _ _ _ _ _ _ Hv HM eq_refl). specialize (Hroom HM). lia. }
        destruct (leaf_insert_full _ _ _ _ _ _ _ _ _ _ _ _ Hinv Habs Hls Hv HM Hge Hn7)
          as (m' & k' & ? & ?). eauto 6.
    + destruct (leaf_insert_empty _ _ _ _ _ _ _ _ _ _ _ Hinv Habs Hls Hv HM) as (m' & k' & ? & ?).
      eauto.
Qed.

Lemma outcome_evolves m1 m2 root M o key m' k' :
  evolves m1 root m2 → outcome m2 root M o key m' k' → outcome m1 root M o key m' k'.
Proof. intros Hev []. split; try done. by eapply evolves_trans. Qed.

Lemma loop_run m root M key o n q pl k :
  (cache_depth_ ≤ 2)%nat → iht_inv m root → iht_abs m root M → room o key M →
  loop_state m root key o n q pl k →
  ∃ j m' k', (j ≤ 5 * (8 - n))%nat ∧ runs j m k m' k' ∧ outcome m root M o key m' k'.
Proof.
  intros Hcd. remember (7 - n)%nat as d eqn:Hd.
  revert m n q pl k Hd. induction d as [d IH] using lt_wf_ind.
  intros m n q pl k Hd Hinv Habs Hroom Hls.
  destruct (loop_bucket _ _ _ _ _ _ _ _ Hinv Hls) as (Hn & _ & b & Hb & _ & Hst).
  assert (∀ m1 q1 pl1 k1 b1 j0, (j0 ≤ 4)%nat → runs j0 m k m1 k1 → evolves m root m1 →
    iht_inv m1 root → iht_abs m1 root M → loop_state m1 root key o n q1 pl1 k1 →
    pl1 !! bkt key n = Some b1 → lock b1 = P_UNLOCKED →
    ∃ j m' k', (j ≤ 5 * (8 - n))%nat ∧ runs j m k m' k' ∧ outcome m root M o key m' k') as Hdown.
  { intros m1 q1 pl1 k1 b1 j0 Hj0 Hrun0 Hev Hinv1 Habs1 Hls1 Hb1 Hp1.
    destruct (step_descend _ _ _ _ _ _ _ _ _ Hcd Hinv1 Hls1 Hb1 Hp1) as (Hn7 & pl' & k2 & Hrun1 & Hls2).
    destruct (IH (7 - S n)%nat ltac:(lia) _ _ _ _ _ eq_refl Hinv1 Habs1 Hroom Hls2)
      as (j & m' & k' & Hj & Hrun & Ho).
    exists (j0 + (1 + j))%nat, m', k'. split_and!; [lia| |by eapply outcome_evolves].
    eapply runs_trans; [done|]. by eapply runs_trans. }
  destruct Hst as [Hp|Hl].
  - eapply (Hdown m _ _ k _ 0%nat); [lia|by intros f|apply evolves_refl|done..].
  - destruct o as [|v|].
    + destruct (leaf_contains _ _ _ _ _ _ _ _ _ Hinv Habs Hls Hb Hl) as (m' & k' & ? & ?).
      exists 4%nat, m', k'. split; [lia|done].
    + destruct (leaf_insert _ _ _ _ _ _ _ _ _ _ Hinv Habs Hls Hroom Hn Hb Hl)
        as (m' & k' & Hrun & [Ho|(Hn7 & [(pl' & b' & Hls' & Hb' & Hp') Hi Ha He])]).
      * exists 4%nat, m', k'. split; [lia|done].
      * by eapply (Hdown m' _ _ k' _ 4%nat).
    + destruct (leaf_remove _ _ _ _ _ _ _ _ _ Hinv Habs Hls Hb Hl) as (m' & k' & ? & ?).
      exists 4%nat, m', k'. split; [lia|done].
Qed.

Lemma call_run m root M key o c :
  (cache_depth_ ≤ 2)%nat → iht_inv m root → iht_abs m root M → room o key M → caches_ok m root c →
  ∃ j m' k', (j ≤ 41)%nat ∧ runs j m (call PLIST_SIZE root c key o) m' k' ∧
    outcome m root M o key m' k'.
Proof.
  intros Hcd Hinv Habs Hroom Hc.
  destruct (inv_plist _ _ _ _ _ Hinv [] root eq_refl) as (_ & pl & Hq & Hlen & _).
  destruct (obtain_spec to_num ELIST_SIZE PLIST_SIZE cache_depth_ m root c key 0 bucket_path_init
    root pl Hcd Hc (path_at_init to_num PLIST_SIZE key) eq_refl Hq Hlen) as (cp & c' & E & Hcopy & Hc').
  set (k1 := mkClient PLoop root key o (mkCtx None remote_nullptr 1 (Z.of_nat PLIST_SIZE) 0 root cp)
    bucket_path_init c' None).
  assert (loop_state m root key o 0 root pl k1) as Hls.
  { split; try done.
    - cbn. unfold IhtInv.width. by rewrite Nat.mul_1_r.
    - apply path_at_pre, path_at_init. }
  destruct (loop_run _ _ _ _ _ _ _ _ _ Hcd Hinv Habs Hroom Hls) as (j & m' & k' & Hj & Hrun & Ho).
  exists (1 + j)%nat, m', k'. split_and!; [lia| |done].
  eapply runs_trans; [|exact Hrun]. apply runs_step; [done|].
  unfold IhtRdma.client_step. cbn [call k_pc k_caches k_path k_root]. change 0 with (Z.of_nat 0) at 1.
  by rewrite E, bind_done.
Qed.

(** One call of [contains], [insert] or [remove] on a tree that represents the map
    [M] finishes within 41 steps, returns what the map operation returns, and leaves a
    tree that satisfies the invariant and represents the updated map, with caches that
    agree with it. *)
Theorem do_with_refines m root M key o c fuel :
  (cache_depth_ ≤ 2)%nat → iht_inv m root → iht_abs m root M → caches_ok m root c →
  room o key M → (41 ≤ fuel)%nat →
  ∃ m' k', do_with fuel m (call PLIST_SIZE root c key o) = Done (m', k') ∧
    k_result k' = (spec_op o key M).2 ∧
    iht_inv m' root ∧ iht_abs m' root (spec_op o key M).1 ∧ caches_ok m' root (k_caches k').
Proof.
  intros Hcd Hinv Habs Hc Hroom Hfuel.
  destruct (call_run _ _ _ _ _ _ Hcd Hinv Habs Hroom Hc) as (j & m' & k' & Hj & Hrun & []).
  exists m', k'. split_and!; try done. eapply runs_done; [done|done|lia].
Qed.

(** ** A fresh table and a history of calls *)
Lemma InitAsFirst_inv m :
  let '(root, m') := InitAsFirst PLIST_SIZE palloc m in iht_inv m' root ∧ iht_abs m' root ∅.
Proof.
  unfold InitAsFirst. set (root := palloc m). set (m' := <[root := _]> m).
  assert (m' !! root = Some (OPlist (InitPList PLIST_SIZE 1))) as Hroot by apply lookup_insert_eq.
  assert (∀ j b, InitPList PLIST_SIZE 1 !! j = Some b → b = mkBucket remote_nullptr E_UNLOCKED)
    as Hb by by intros j b [-> _]%lookup_replicate.
  assert (∀ π q, walk m' root π = Some q → π = [] ∧ q = root) as Hw.
  { intros [|i π] q; cbn; [by intros [= <-]|]. unfold child. rewrite Hroot.
    destruct (InitPList PLIST_SIZE 1 !! i) as [b|] eqn:E; [|done]. by rewrite (Hb _ _ E). }
  assert (∀ π i q pl b, leaf m' root π i q pl b → is_null (base b) = true) as Hleaf.
  { intros π i q pl b (H1 & H2 & H3 & _). destruct (Hw _ _ H1) as [-> ->].
    rewrite Hroot in H2. injection H2 as <-. by rewrite (Hb _ _ H3). }
  split; [split|].
  - intros π q [-> ->]%Hw. split; [cbn; lia|]. eexists. split_and!; [done| |].
    + unfold InitPList, IhtInv.width. by rewrite length_replicate.
    + intros i b ->%Hb. by right.
  - intros π i q pl b Hl. exists []. split_and!; [left; eauto|constructor|by intros ? ?%elem_of_nil].
  - by intros π π' q [-> _]%Hw [-> _]%Hw.
  - intros π i q pl b π' i' q' pl' b' H1 _ Hn. rewrite (Hleaf _ _ _ _ _ H1) in Hn. done.
  - intros key v. rewrite lookup_empty. split; [done|].
    intros (π & i & q & pl & b & l & Hl & [[_ ->]|[Hn _]] & Hin); [by apply elem_of_nil in Hin|].
    by rewrite (Hleaf _ _ _ _ _ Hl) in Hn.
Qed.

(** A client's calls, one after the other. *)
Fixpoint run_ops (fuel : nat) m root c (ops : list (@op V * K)) : result (list (option V)) :=
  match ops with
  | [] => Done []
  | (o, key) :: ops' =>
      '(m', k') ← do_with fuel m (call PLIST_SIZE root c key o);
      rs ← run_ops fuel m' root (k_caches k') ops';
      Done (k_result k' :: rs)
  end.

Fixpoint spec_ops M (ops : list (@op V * K)) : list (option V) :=
  match ops with
  | [] => []
  | (o, key) :: ops' => (spec_op o key M).2 :: spec_ops (spec_op o key M).1 ops'
  end.

Fixpoint rooms M (ops : list (@op V * K)) : Prop :=
  match ops with
  | [] => True
  | (o, key) :: ops' => room o key M ∧ rooms (spec_op o key M).1 ops'
  end.

Lemma run_ops_refines m root c M ops fuel :
  (cache_depth_ ≤ 2)%nat → (41 ≤ fuel)%nat → iht_inv m root → iht_abs m root M →
  caches_ok m root c → rooms M ops → run_ops fuel m root c ops = Done (spec_ops M ops).
Proof.
  intros Hcd Hfuel. revert m c M. induction ops as [|[o key] ops IH]; intros m c M Hinv Habs Hc Hr;
    [done|]. destruct Hr as [Hroom Hrest].
  destruct (call_run _ _ _ _ _ _ Hcd Hinv Habs Hroom Hc) as (j & m' & k' & Hj & Hrun & Ho).
  cbn. rewrite (runs_done _ _ _ _ _ fuel Hrun (out_pc _ _ _ _ _ _ _ Ho)), bind_done by lia.
  erewrite IH; [|by eapply out_inv|by eapply out_abs|by eapply out_caches|done].
  by rewrite bind_done, (out_result _ _ _ _ _ _ _ Ho).
Qed.

(** C2: the one-sided table refines a finite map. From [InitAsFirst] on, any sequence
    of calls by a client with at most two cached layers terminates without a fault and
    returns exactly the values the finite-map operations return, provided every inserted key
    finds a bucket within the eight levels of [bucket_path]: when it is inserted, fewer than
    [ELIST_SIZE] other stored keys agree with it on the hashes of all eight levels. Without
    this the call is undefined ([bucket_path_overflow]). *)
Theorem iht_history m c ops fuel :
  (cache_depth_ ≤ 2)%nat → (41 ≤ fuel)%nat → RdmaIHT_new PLIST_SIZE = Done c → rooms ∅ ops →
  let '(root, m') := InitAsFirst PLIST_SIZE palloc m in
  run_ops fuel m' root c ops = Done (spec_ops ∅ ops).
Proof.
  intros Hcd Hfuel Hc Hr. pose proof (InitAsFirst_inv m) as Hinit.
  destruct (InitAsFirst PLIST_SIZE palloc m) as [root m']. destruct Hinit as [Hinv Habs].
  apply run_ops_refines; try done. by apply caches_ok_new.
Qed.
End spec.

(** Twelve insertions into buckets of two pairs (so that leaves split), then lookups,
    a removal and a repeated insertion. *)
Definition example_ops : list (@op Z * Z) :=
  map (λ x, (Insert (x * 10), x)) [1; 2; 3; 4; 5; 6; 7; 8; 9; 10; 11; 12] ++
  [(Contains, 7); (Remove, 7); (Contains, 7); (Insert 5, 3); (Contains, 12)].

Lemma iht_history_witness :
  run_ops (λ x : Z, u64 x) 2 4 2 0 next_block (raw_zz 2) 41
    (InitAsFirst 4 next_block (∅ : gmap remote_ptr (@obj Z Z))).2
    (InitAsFirst 4 next_block (∅ : gmap remote_ptr (@obj Z Z))).1
    (mkCaches [replicate 1 None; replicate 4 None; replicate 32 None]) example_ops =
  Done (replicate 12 None ++ [Some 70; Some 70; None; Some 30; Some 120]).
Proof.
  refine (iht_history (λ x : Z, u64 x) 2 4 2 0 next_block (raw_zz 2) ∅ _ example_ops 41
    _ _ _ _).
  - lia.
  - lia.
  - reflexivity.
  - vm_compute. repeat split; intros; lia.
Defined.

Lemma do_with_refines_witness :
  let '(root, m) := InitAsFirst 4 next_block (∅ : gmap remote_ptr (@obj Z Z)) in
  ∃ m' k', do_with (λ x : Z, u64 x) 2 4 2 0 next_block (raw_zz 2) 41 m
    (call 4 root (mkCaches [replicate 1 None; replicate 4 None; replicate 32 None]) 7 (Insert 70)) =
    Done (m', k') ∧
    k_result k' = None ∧
    iht_inv (λ x : Z, u64 x) 2 4 m' root ∧ iht_abs 2 m' root {[ 7 := 70 ]} ∧
    caches_ok 4 m' root (k_caches k').
Proof.
  pose proof (InitAsFirst_inv (λ x : Z, u64 x) 2 4 (next_block : gmap remote_ptr (@obj Z Z) → remote_ptr) ∅) as Hinit.
  destruct (InitAsFirst 4 next_block (∅ : gmap remote_ptr (@obj Z Z))) as [root m].
  destruct Hinit as [Hinv Habs].
  refine (do_with_refines (λ x : Z, u64 x) 2 4 2 0 next_block (raw_zz 2) m root ∅ 7 (Insert 70)
    _ 41 _ Hinv Habs _ _ _).
  - lia.
  - by apply caches_ok_new.
  - intros _. vm_compute. lia.
  - lia.
Defined.

(** ** Beyond eight levels *)
Definition flat_hash : Z → Z := λ _, 0.
(** [bucket_path] has eight entries. Keys that agree on every level's hash split
    their bucket until the ninth level, where the write past the array is undefined: two
    such keys are stored, a third is not. *)
Theorem bucket_path_overflow :
  run_ops flat_hash 2 4 2 0 next_block (raw_zz 2) 1000
    (InitAsFirst 4 next_block (∅ : gmap remote_ptr (@obj Z Z))).2
    (InitAsFirst 4 next_block (∅ : gmap remote_ptr (@obj Z Z))).1
    (mkCaches [replicate 1 None; replicate 4 None; replicate 32 None])
    [(Insert 10, 1); (Insert 20, 2)] = Done [None; None] ∧
  run_ops flat_hash 2 4 2 0 next_block (raw_zz 2) 1000
    (InitAsFirst 4 next_block (∅ : gmap remote_ptr (@obj Z Z))).2
    (InitAsFirst 4 next_block (∅ : gmap remote_ptr (@obj Z Z))).1
    (mkCaches [replicate 1 None; replicate 4 None; replicate 32 None])
    [(Insert 10, 1); (Insert 20, 2); (Insert 30, 3)] = Fault FUndef.
Proof. split; vm_compute; reflexivity. Qed.
