(* ===== verification/IhtConc.v ===== *)
(** * Several clients of one hash table

    The interleavings of any number of clients, each step one access to the shared
    memory outside the critical sections, or the accesses of a critical section (reading the
    list, a rehash, writing the list and the base pointer) as one step before the unlock. All
    clients have one node id, and allocate at an address that is a function of the memory.
    What the locks guarantee (mutual exclusion per bucket, calcified buckets never change) is an
    invariant of every reachable state; what they do not guarantee is shown by an interleaving
    that loses an insertion. *)
From S2P Require Import Prelude RemotePtr IhtRdma IhtElist IhtInv IhtExample.

Section conc.
Context {K V : Type} `{EqDecision K}.
Context (to_num : K → Z) (ELIST_SIZE PLIST_SIZE cache_depth_ : nat) (self_id : Z).
Context (palloc : gmap remote_ptr (@obj K V) → remote_ptr) (raw_elist : @EList K V).
Context `{!PoolLaws ELIST_SIZE palloc raw_elist}.
Abbreviation memory := (gmap remote_ptr (@obj K V)).
Abbreviation client := (@client K V).
Abbreviation client_step :=
  (client_step to_num ELIST_SIZE PLIST_SIZE cache_depth_ self_id palloc raw_elist).
Implicit Types (m : memory) (a : remote_ptr) (pl : PList) (k : client).

(** The shared memory and the clients' private states. *)
Abbreviation sys := (memory * list client)%type.

Inductive sys_step : sys → sys → Prop :=
| sys_client m ks i k m' k' :
    ks !! i = Some k → client_step m k = Done (m', k') → sys_step (m, ks) (m', <[i := k']> ks).

(** A bucket of the shared memory. *)
Definition bucket_at m a (i : nat) : option plist_pair_t :=
  match m !! a with Some (OPlist pl) => pl !! i | _ => None end.

(** The client is inside the critical section of bucket [i] of the PList at [a]. *)
Definition holds k a (i : nat) : Prop :=
  (k_pc k = PCrit ∨ ∃ s, k_pc k = PUnlock s) ∧ c_parent_ptr (k_ctx k) = a ∧ c_bucket (k_ctx k) = i.

Definition excl (s : sys) : Prop :=
  (∀ j k a i, s.2 !! j = Some k → holds k a i →
     ∃ b, bucket_at s.1 a i = Some b ∧ lock b = E_LOCKED) ∧
  (∀ j j' k k' a i, s.2 !! j = Some k → s.2 !! j' = Some k' → holds k a i → holds k' a i → j = j').

(** ** What a step can do to a bucket *)
Lemma bucket_insert_elist m a i p e b :
  bucket_at m a i = Some b → (∀ pl, m !! p ≠ Some (OPlist pl)) →
  bucket_at (<[p := OElist e]> m) a i = Some b.
Proof.
  unfold bucket_at. intros Hb Hp. destruct (decide (p = a)) as [->|Hne].
  - destruct (m !! a) as [[|pl]|]; [done| |done]. by destruct (Hp pl).
  - by rewrite lookup_insert_ne.
Qed.

Lemma bucket_insert_other m a i p o b :
  bucket_at m a i = Some b → p ≠ a → bucket_at (<[p := o]> m) a i = Some b.
Proof. unfold bucket_at. intros Hb Hp. by rewrite lookup_insert_ne. Qed.

Lemma bucket_fresh m a i b : bucket_at m a i = Some b → palloc m ≠ a.
Proof.
  unfold bucket_at. intros Hb <-. by rewrite (palloc_fresh (palloc := palloc) m) in Hb.
Qed.

Lemma read_elist_done m p e : read_elist m p = Done e → m !! p = Some (OElist e).
Proof. unfold read_elist. destruct (m !! p) as [[|]|]; by intros [= <-]. Qed.

Lemma read_plist_done m p pl : read_plist m p = Done pl → m !! p = Some (OPlist pl).
Proof. unfold read_plist. destruct (m !! p) as [[|]|]; by intros [= <-]. Qed.

Lemma write_bucket_inv m p i f m' :
  write_bucket m p i f = Done m' →
  ∃ b0, bucket_at m p i = Some b0 ∧ bucket_at m' p i = Some (f b0) ∧
    ∀ a j, (a, j) ≠ (p, i) → bucket_at m' a j = bucket_at m a j.
Proof.
  unfold write_bucket. intros Hw. done_inv. apply read_plist_done in Hw0.
  exists r0. unfold bucket_at. rewrite Hw0, lookup_insert_eq.
  split_and!; [done|apply list_lookup_insert_eq; by eapply lookup_lt_Some|].
  intros a j Hne. destruct (decide (p = a)) as [<-|Hpa].
  - rewrite lookup_insert_eq, Hw0. rewrite list_lookup_insert_ne; [done|congruence].
  - by rewrite lookup_insert_ne.
Qed.

Lemma rehash_loop_frame n j src new_p level pcount m m' a i b :
  rehash_loop to_num palloc raw_elist n j src new_p level pcount m = Done m' →
  a ≠ new_p → bucket_at m a i = Some b → bucket_at m' a i = Some b.
Proof.
  intros Hr Hne. revert j m Hr. induction n as [|n IH]; intros j m; cbn; [by intros [= <-]|].
  intros Hr Hb. done_inv. destruct r2 as [m2 dest]. done_inv.
  assert (bucket_at m2 a i = Some b) as Hb2.
  { revert Hr3. destruct (is_null (base r1)); intros [= <- <-]; [|done].
    apply bucket_insert_other; [|done]. apply bucket_insert_other; [done|]. by eapply bucket_fresh. }
  eapply IH; [done|]. apply bucket_insert_elist; [done|].
  apply read_elist_done in Hr4. intros pl. congruence.
Qed.

Lemma rehash_frame m parent pcount pdepth pidx p m' a i b :
  rehash to_num PLIST_SIZE self_id palloc raw_elist m parent pcount pdepth pidx = Done (p, m') →
  bucket_at m a i = Some b → bucket_at m' a i = Some b.
Proof.
  unfold rehash. cbv zeta. intros Hr Hb. pose proof (bucket_fresh _ _ _ _ Hb) as Hne.
  apply bind_done_inv in Hr as (r & Hr0 & Hr). apply bind_done_inv in Hr as (r0 & Hr1 & Hr).
  apply bind_done_inv in Hr as (r1 & Hr2 & Hr). apply done_pair in Hr as [<- <-].
  assert (bucket_at r1 a i = Some b) as Hb1.
  { eapply rehash_loop_frame; [done|done|]. by apply bucket_insert_other. }
  assert (∃ e, m !! base r = Some (OElist e)) as [e He].
  { apply read_elist_done in Hr1. exists r0. destruct (decide (palloc m = base r)) as [E|E].
    - rewrite E, lookup_insert_eq in Hr1. done.
    - by rewrite lookup_insert_ne in Hr1. }
  case_match; [|done]. unfold bucket_at in *. destruct (decide (base r = a)) as [<-|Hra].
  - by rewrite He in Hb.
  - by rewrite lookup_delete_ne.
Qed.

(** [apply] keeps the place of the bucket it works on, and changes no bucket but the
    base pointer of that one. *)
Lemma apply_frame m key o ctx m' ctx' res fin :
  (∀ e, c_e ctx = Some e → m !! c_bucket_base ctx = Some (OElist e)) →
  apply to_num ELIST_SIZE PLIST_SIZE self_id palloc raw_elist m key o ctx = Done (m', ctx', res, fin) →
  (c_parent_ptr ctx' = c_parent_ptr ctx ∧ c_bucket ctx' = c_bucket ctx) ∧
  ∀ a i b, bucket_at m a i = Some b →
    bucket_at m' a i = Some b ∨
    ((a, i) = (c_parent_ptr ctx, c_bucket ctx) ∧
     ∃ b', bucket_at m' a i = Some b' ∧ lock b' = lock b).
Proof.
  intros He Happ. destruct o as [|v|]; cbn in Happ.
  - done_inv. auto.
  - destruct (c_e ctx) as [e|] eqn:Ee.
    + done_inv. destruct r as [[j kv]|]; [by injection Happ as <- <- <- <-; auto|]. case_bool_decide.
      * done_inv. split; [done|]. intros a i b Hb. left. apply bucket_insert_elist; [done|].
        intros pl. rewrite (He _ eq_refl). done.
      * apply bind_done_inv in Happ as ([p m1] & Hre & Happ).
        apply bind_done_inv in Happ as (r0 & Happ2 & Happ).
        injection Happ as <- <- _ _. split; [done|]. intros a i b Hb.
        eapply rehash_frame in Hb; [|done].
        apply write_bucket_inv in Happ2 as (b0 & Hb0 & Hb1 & Hother).
        destruct (decide ((a, i) = (c_parent_ptr ctx, c_bucket ctx))) as [[= -> ->]|Hne].
        -- right. split; [done|]. eexists. split; [done|]. cbn. congruence.
        -- left. by rewrite Hother.
    + apply bind_done_inv in Happ as (r & _ & Happ). apply bind_done_inv in Happ as (r0 & Happ1 & Happ).
      injection Happ as <- <- _ _. split; [done|]. intros a i b Hb.
      assert (bucket_at (<[palloc m := OElist r]> m) a i = Some b) as Hb'
        by (apply bucket_insert_other; [done|by eapply bucket_fresh]).
      apply write_bucket_inv in Happ1 as (b0 & Hb0 & Hb1 & Hother).
      destruct (decide ((a, i) = (c_parent_ptr ctx, c_bucket ctx))) as [[= -> ->]|Hne].
      * right. split; [done|]. eexists. split; [done|]. cbn. congruence.
      * left. by rewrite Hother.
  - destruct (c_e ctx) as [e|] eqn:Ee; [|done_inv; auto].
    done_inv. destruct r as [e' res']. done_inv. split; [done|]. intros a i b Hb. left.
    destruct res; [|done]. apply bucket_insert_elist; [done|]. intros pl. by rewrite (He _ eq_refl).
Qed.
Lemma holds_pc k a i : holds k a i → k_pc k = PCrit ∨ ∃ s, k_pc k = PUnlock s.
Proof. by intros [? _]. Qed.

(** The three kinds of steps that touch a bucket. *)
Definition touch (m m' : memory) k k' a (i : nat) (b : plist_pair_t) : Prop :=
  (k_pc k = PCrit ∧ holds k a i ∧ ∃ b', bucket_at m' a i = Some b' ∧ lock b' = lock b) ∨
  (holds k a i ∧ ∃ s, k_pc k = PUnlock s) ∨
  (lock b = E_UNLOCKED ∧ holds k' a i).

Definition enters (m m' : memory) k a (i : nat) : Prop :=
  (k_pc k = PCrit ∧ holds k a i) ∨
  (∃ b b', bucket_at m a i = Some b ∧ lock b = E_UNLOCKED ∧
           bucket_at m' a i = Some b' ∧ lock b' = E_LOCKED).

Definition step_ok (m m' : memory) k k' : Prop :=
  (∀ a i b, bucket_at m a i = Some b → bucket_at m' a i = Some b ∨ touch m m' k k' a i b) ∧
  (∀ a i, holds k' a i → enters m m' k a i).

Lemma step_ok_idle m k k' :
  k_pc k' ≠ PCrit → (∀ s, k_pc k' ≠ PUnlock s) → step_ok m m k k'.
Proof. intros H1 H2. split; [by left|]. intros a i [?|[s ?]]%holds_pc; [done|by destruct (H2 s)]. Qed.

Lemma step_ok_cas m k m' v :
  k_pc k = PLock →
  cas_lock m (c_parent_ptr (k_ctx k)) (c_bucket (k_ctx k)) E_UNLOCKED E_LOCKED = Done (v, m') →
  step_ok m m' k (set_pc k (if v =? P_UNLOCKED then PRefetch
                            else if v =? E_UNLOCKED then PCrit else PLock)).
Proof.
  intros Hpc. unfold cas_lock. intros Hc.
  apply bind_done_inv in Hc as (pl & Hpl & Hc). apply bind_done_inv in Hc as (b0 & Hb0 & Hc).
  apply read_plist_done in Hpl. apply defined_done in Hb0.
  destruct (Z.eqb_spec (lock b0) E_UNLOCKED) as [El|Hne].
  - apply done_pair in Hc as [<- <-]. rewrite El.
    set (a0 := c_parent_ptr (k_ctx k)) in *. set (i0 := c_bucket (k_ctx k)) in *.
    change (set_pc k (if E_UNLOCKED =? P_UNLOCKED then PRefetch
      else if E_UNLOCKED =? E_UNLOCKED then PCrit else PLock)) with (set_pc k PCrit).
    assert (holds (set_pc k PCrit) a0 i0) as Hh by (split; [by left|done]).
    split.
    + intros a i b Hb. destruct (decide ((a, i) = (a0, i0))) as [E|E].
      * injection E as -> ->. right. right. right. split; [|done].
        unfold bucket_at in Hb. rewrite Hpl in Hb. congruence.
      * left. unfold bucket_at in *. destruct (decide (a0 = a)) as [<-|Hn].
        -- rewrite lookup_insert_eq. rewrite Hpl in Hb. rewrite list_lookup_insert_ne; [done|congruence].
        -- by rewrite lookup_insert_ne.
    + intros a i [_ [<- <-]]. right. exists b0, (mkBucket (base b0) E_LOCKED).
      unfold bucket_at. cbn [set_pc k_ctx]. fold a0 i0. rewrite Hpl, lookup_insert_eq.
      split_and!; [done..|apply list_lookup_insert_eq; by eapply lookup_lt_Some|done].
  - apply done_pair in Hc as [<- <-]. destruct (Z.eqb_spec (lock b0) E_UNLOCKED); [done|].
    by apply step_ok_idle; [|intros s]; case_match.
Qed.

Lemma client_step_ok m k m' k' : client_step m k = Done (m', k') → step_ok m m' k k'.
Proof.
  unfold IhtRdma.client_step. destruct (k_pc k) eqn:Hpc; cbv zeta; intros Hs.
  - apply bind_done_inv in Hs as ([curr c] & _ & Hs). apply done_pair in Hs as [<- <-].
    by apply step_ok_idle.
  - apply bind_done_inv in Hs as (? & _ & Hs). apply bind_done_inv in Hs as (bk & _ & Hs).
    case_match; [apply bind_done_inv in Hs as ([curr c] & _ & Hs)|];
      apply done_pair in Hs as [<- <-]; by apply step_ok_idle.
  - apply bind_done_inv in Hs as ([v m1] & Hc & Hs). apply done_pair in Hs as [<- <-].
    by apply step_ok_cas.
  - apply bind_done_inv in Hs as (pl & _ & Hs). apply done_pair in Hs as [<- <-].
    by apply step_ok_idle.
  - apply bind_done_inv in Hs as (bk & Hbk & Hs). apply bind_done_inv in Hs as (e & He & Hs).
    apply bind_done_inv in Hs as ([[[m1 ctx1] res] fin] & Happ & Hs). apply done_pair in Hs as [<- <-].
    apply apply_frame in Happ as [[Hp Hb] Hfr].
    2:{ intros e' E. cbn in E. subst e. cbn. destruct (is_null (base bk)); [done|].
        apply bind_done_inv in He as (el & Hel & [= ->]). by apply read_elist_done. }
    cbn in Hp, Hb, Hfr. split.
    + intros a i b Hab. destruct (Hfr _ _ _ Hab) as [?|[E Hb']]; [by left|].
      injection E as -> ->. right. left. split_and!; [done| |done]. split; [by left|done].
    + intros a i (_ & Ha & Hi). cbn in Ha, Hi. left. split; [done|].
      split; [by left|]. by rewrite <- Ha, <- Hi, Hp, Hb.
  - apply bind_done_inv in Hs as (m1 & Hu & Hs). apply done_pair in Hs as [<- <-].
    apply write_bucket_inv in Hu as (b0 & _ & _ & Hother). split.
    + intros a i b Hab. destruct (decide ((a, i) = (c_parent_ptr (k_ctx k), c_bucket (k_ctx k)))) as [E|E].
      * injection E as -> ->. right. right. left. split; [|by eexists]. split; [right; by eexists|done].
      * left. by rewrite Hother.
    + intros a i [Hh|[s Hh]]%holds_pc; cbn in Hh; by case_match.
  - apply done_pair in Hs as [<- <-]. apply step_ok_idle; congruence.
Qed.

(** ** Invariants of every interleaving *)
Lemma excl_step s s' : excl s → sys_step s s' → excl s'.
Proof.
  intros [Hlock Huniq] Hs. destruct Hs as [m ks n k m' k' Hk Hcs]. cbn in *.
  apply client_step_ok in Hcs as [Hfr Hent].
  assert (∀ j k2 a i, j ≠ n → ks !! j = Some k2 → holds k2 a i →
    (∃ b, bucket_at m' a i = Some b ∧ lock b = E_LOCKED) ∧ ¬ holds k' a i) as Hothers.
  { intros j k2 a i Hj Hk2 Hh. destruct (Hlock _ _ _ _ Hk2 Hh) as (b & Hb & Hl).
    assert (¬ holds k a i) as Hno by (intros Hh'; by apply Hj; eapply Huniq).
    assert (¬ holds k' a i) as Hno'.
    { intros [[_ ?]|(b1 & b2 & Hb1 & Hl1 & _)]%Hent; [done|].
      rewrite Hb in Hb1. injection Hb1 as <-. by rewrite Hl in Hl1. }
    split; [|done]. destruct (Hfr _ _ _ Hb) as [Hb'|[(_ & ? & _)|[[? _]|[_ ?]]]]; [by exists b|done..]. }
  split; cbn.
  - intros j k2 a i Hj Hh. apply list_lookup_insert_Some in Hj as [(<- & <- & _)|[Hj Hk2]].
    + destruct (Hent _ _ Hh) as [[Hpc Hh0]|(b & b' & _ & _ & Hb' & Hl')]; [|eauto].
      destruct (Hlock _ _ _ _ Hk Hh0) as (b & Hb & Hl).
      destruct (Hfr _ _ _ Hb) as [Hb'|[(_ & _ & b' & Hb' & Hl')|[[_ [s Hs]]|[Hl' _]]]];
        [eauto|exists b'; split; congruence|congruence|by rewrite Hl in Hl'].
    + eapply Hothers; [|done..]. congruence.
  - intros j j' k1 k2 a i Hj Hj' Hh1 Hh2.
    apply list_lookup_insert_Some in Hj as [(<- & <- & _)|[Hj Hk1]];
      apply list_lookup_insert_Some in Hj' as [(<- & <- & _)|[Hj' Hk2]]; [done|..].
    + by destruct (proj2 (Hothers _ _ _ _ (not_eq_sym Hj') Hk2 Hh2)).
    + by destruct (proj2 (Hothers _ _ _ _ (not_eq_sym Hj) Hk1 Hh1)).
    + by eapply Huniq.
Qed.

Lemma excl_init m ks : Forall (λ k, k_pc k = PStart) ks → excl (m, ks).
Proof.
  intros Hall. assert (∀ j k a i, ks !! j = Some k → holds k a i → False) as Hno.
  { intros j k a i Hk [Hp|[s Hp]]%holds_pc; apply (Forall_lookup_1 _ _ _ _ Hall) in Hk; congruence. }
  split; [intros j k a i Hk Hh; by destruct (Hno _ _ _ _ Hk Hh)
         |intros j j' k k' a i Hk _ Hh _; by destruct (Hno _ _ _ _ Hk Hh)].
Qed.

(** C7: whatever the interleaving of the clients' remote reads, writes and
    compare-and-swaps, at most one client is in the critical section of a bucket, and
    while it is there the bucket's lock word is [E_LOCKED]. *)
Theorem bucket_mutual_exclusion m0 ks0 m ks j j' k k' a i :
  Forall (λ k, k_pc k = PStart) ks0 → star sys_step (m0, ks0) (m, ks) →
  ks !! j = Some k → ks !! j' = Some k' → holds k a i → holds k' a i →
  j = j' ∧ ∃ b, bucket_at m a i = Some b ∧ lock b = E_LOCKED.
Proof.
  intros Hinit Hstar Hk Hk' Hh Hh'.
  assert (excl (m, ks)) as [Hlock Huniq].
  { eapply star_invariant; [apply excl_step|by apply excl_init|exact Hstar]. }
  split; [by eapply Huniq|by eapply Hlock].
Qed.

Lemma calcified_step s s' a i b :
  excl s → sys_step s s' → bucket_at s.1 a i = Some b → lock b = P_UNLOCKED →
  bucket_at s'.1 a i = Some b.
Proof.
  intros [Hlock _] Hs Hb Hp. destruct Hs as [m ks n k m' k' Hk Hcs]. cbn in *.
  apply client_step_ok in Hcs as [Hfr _].
  assert (¬ holds k a i) as Hno.
  { intros Hh. destruct (Hlock _ _ _ _ Hk Hh) as (b' & Hb' & Hl). rewrite Hb in Hb'.
    injection Hb' as <-. by rewrite Hp in Hl. }
  destruct (Hfr _ _ _ Hb) as [?|[(_ & ? & _)|[[? _]|[Hl _]]]]; [done..|]. by rewrite Hp in Hl.
Qed.

(** A bucket that has become [P_UNLOCKED] keeps its lock word and its pointer for
    ever, whatever the clients do: the fact that cached pointer lists rely on. *)
Theorem calcified_buckets_stable m0 ks0 m1 ks1 m2 ks2 a i b :
  Forall (λ k, k_pc k = PStart) ks0 → star sys_step (m0, ks0) (m1, ks1) →
  bucket_at m1 a i = Some b → lock b = P_UNLOCKED →
  star sys_step (m1, ks1) (m2, ks2) → bucket_at m2 a i = Some b.
Proof.
  intros Hinit Hstar1 Hb Hp Hstar2.
  assert (excl (m1, ks1)) as Hex.
  { eapply star_invariant; [apply excl_step|by apply excl_init|exact Hstar1]. }
  apply (star_invariant sys_step (λ s, excl s ∧ bucket_at s.1 a i = Some b) (m1, ks1) (m2, ks2));
    [|done|done].
  intros s s' [He Hbs] Hs. split; [by eapply excl_step|by eapply calcified_step].
Qed.
(** ** Executable interleavings *)
Fixpoint run_sched (sched : list nat) (s : sys) : result sys :=
  match sched with
  | [] => Done s
  | i :: sched' =>
      k ← defined (s.2 !! i);
      '(m', k') ← client_step s.1 k;
      run_sched sched' (m', <[i := k']> s.2)
  end.

Lemma run_sched_star sched s s' : run_sched sched s = Done s' → star sys_step s s'.
Proof.
  revert s. induction sched as [|i sched IH]; intros [m ks]; cbn.
  { intros [= <-]. apply star_refl. }
  intros Hr. apply bind_done_inv in Hr as (k & Hk & Hr). apply defined_done in Hk.
  apply bind_done_inv in Hr as ([m' k'] & Hs & Hr).
  eapply star_step; [by eapply sys_client|by apply IH].
Qed.
End conc.

(** ** The example system: two clients insert two keys of one bucket *)
Definition ex_root : remote_ptr := (InitAsFirst 4 next_block (∅ : gmap remote_ptr (@obj Z Z))).1.
Definition ex_mem : gmap remote_ptr (@obj Z Z) := (InitAsFirst 4 next_block ∅).2.
Definition ex_caches : caches := mkCaches [replicate 1 None; replicate 4 None; replicate 32 None].
Definition ex_call (key : Z) (o : @op Z) : @client Z Z := call 4 ex_root ex_caches key o.
Definition ex_sched := run_sched (λ x : Z, u64 x) 2 4 2 0 next_block (raw_zz 2).
Definition ex_step := sys_step (λ x : Z, u64 x) 2 4 2 0 next_block (raw_zz 2).
Definition ex_get (key : Z) (m : gmap remote_ptr (@obj Z Z)) : result (option Z) :=
  (λ r, k_result r.2) <$>
  do_with (λ x : Z, u64 x) 2 4 2 0 next_block (raw_zz 2) 41 m (ex_call key Contains).

(** Run a schedule from a state; [∅] and no clients when it is not possible. *)
Definition ex_run (sched : list nat) (s : gmap remote_ptr (@obj Z Z) * list (@client Z Z)) :=
  match ex_sched sched s with Done s' => s' | Fault _ => (∅, []) end.

Definition ex_race := (ex_mem, [ex_call 1 (Insert 10); ex_call 3 (Insert 30)]).

(** C40: a lost update. Two clients that insert different keys into an empty bucket
    can both finish and report success although the table holds only the second key: the
    base pointer used after the lock is taken comes from a copy read before. *)
Theorem stale_base_loses_insert :
  ∃ m ks, star ex_step ex_race (m, ks) ∧
    map (λ k, (k_pc k, k_result k)) ks = [(PDone, None); (PDone, None)] ∧
    ex_get 1 m = Done None ∧ ex_get 3 m = Done (Some 30).
Proof.
  exists (ex_run [0; 0; 1; 1; 0; 0; 0; 1; 1; 1]%nat ex_race).1,
         (ex_run [0; 0; 1; 1; 0; 0; 0; 1; 1; 1]%nat ex_race).2.
  split; [|vm_compute; done].
  apply (run_sched_star _ _ _ _ _ _ _ [0; 0; 1; 1; 0; 0; 0; 1; 1; 1]%nat). by vm_compute.
Qed.

(** Client 0 in its critical section, client 1 at the lock. *)
Definition ex_crit := ex_run [0; 0; 1; 1; 0; 1]%nat ex_race.

Lemma bucket_mutual_exclusion_witness :
  0%nat = 0%nat ∧ ∃ b, bucket_at ex_crit.1 ex_root 0 = Some b ∧ lock b = E_LOCKED.
Proof.
  refine (bucket_mutual_exclusion (λ x : Z, u64 x) 2 4 2 0 next_block (raw_zz 2)
    ex_race.1 ex_race.2 ex_crit.1 ex_crit.2 0 0
    (default (ex_call 0 Contains) (ex_crit.2 !! 0%nat))
    (default (ex_call 0 Contains) (ex_crit.2 !! 0%nat)) ex_root 0 _ _ _ _ _ _).
  - repeat constructor.
  - apply (run_sched_star _ _ _ _ _ _ _ [0; 0; 1; 1; 0; 1]%nat). vm_compute. reflexivity.
  - vm_compute. reflexivity.
  - vm_compute. reflexivity.
  - split; [left; vm_compute; reflexivity|vm_compute; split; reflexivity].
  - split; [left; vm_compute; reflexivity|vm_compute; split; reflexivity].
Defined.

(** The third insertion into bucket 0 calcifies it; a later lookup descends through it. *)
Definition ex_three :=
  (ex_mem, [ex_call 1 (Insert 10); ex_call 3 (Insert 30); ex_call 7 (Insert 70); ex_call 1 Contains]).
Definition ex_sched1 : list nat := replicate 5 0%nat ++ replicate 5 1%nat ++ replicate 10 2%nat.
Definition ex_split := ex_run ex_sched1 ex_three.
Definition ex_after := ex_run (replicate 6 3%nat) ex_split.

Lemma calcified_buckets_stable_witness :
  bucket_at ex_after.1 ex_root 0 =
  Some (default (mkBucket remote_nullptr 0) (bucket_at ex_split.1 ex_root 0)).
Proof.
  refine (calcified_buckets_stable (λ x : Z, u64 x) 2 4 2 0 next_block (raw_zz 2)
    ex_three.1 ex_three.2 ex_split.1 ex_split.2 ex_after.1 ex_after.2 ex_root 0 _ _ _ _ _ _).
  - repeat constructor.
  - apply (run_sched_star _ _ _ _ _ _ _ ex_sched1). vm_compute. reflexivity.
  - vm_compute. reflexivity.
  - vm_compute. reflexivity.
  - apply (run_sched_star _ _ _ _ _ _ _ (replicate 6 3%nat)). vm_compute. reflexivity.
Defined.
