(* ===== verification/IhtAtomic.v ===== *)
(** * The atomic map that clients of a hash table should appear to use

    A client's status is idle, called (the operation has not happened yet) or answered
    (it has happened). [atom_step] performs an operation in one step somewhere between the
    call and the return. [peek_step] is the same machine with one more freedom: a lookup or
    removal may note that its key is absent and decide later to answer so. Every history of
    the second machine is a history of the first: the decision is moved back to the time of
    the note. *)
From S2P Require Import Prelude RemotePtr IhtRdma IhtElist IhtInv IhtCache IhtSpec.

(** ** Labelled runs *)
Section traces.
Context {S L : Type} (step : S → list L → S → Prop).

Inductive traces : S → list L → S → Prop :=
| traces_nil s : traces s [] s
| traces_cons s1 l s2 tr s3 : step s1 l s2 → traces s2 tr s3 → traces s1 (l ++ tr) s3.

Lemma traces_one s l s' : step s l s' → traces s l s'.
Proof. intros Hs. rewrite <- (app_nil_r l). by eapply traces_cons, traces_nil. Qed.

Lemma traces_app s1 tr1 s2 tr2 s3 :
  traces s1 tr1 s2 → traces s2 tr2 s3 → traces s1 (tr1 ++ tr2) s3.
Proof.
  induction 1 as [|s1 l s2 tr s3' Hs _ IH]; [done|]. intros H2. rewrite <- app_assoc.
  by eapply traces_cons, IH.
Qed.

Lemma traces_invariant (I : S → Prop) s tr s' :
  (∀ s1 l s2, I s1 → step s1 l s2 → I s2) → I s → traces s tr s' → I s'.
Proof. intros Hpres Hs Htr. induction Htr; eauto. Qed.
End traces.

(** Forward simulation: a related run with the same labels exists. *)
Lemma forward_simulation {S T L} (step : S → list L → S → Prop) (astep : T → list L → T → Prop)
    (R : S → T → Prop) s tr s' t :
  (∀ s1 l s2 t1, R s1 t1 → step s1 l s2 → ∃ t2, traces astep t1 l t2 ∧ R s2 t2) →
  R s t → traces step s tr s' → ∃ t', traces astep t tr t' ∧ R s' t'.
Proof.
  intros Hsim HR Htr. revert t HR. induction Htr as [s|s1 l s2 tr s3 Hs _ IH]; intros t HR.
  - exists t. split; [apply traces_nil|done].
  - destruct (Hsim _ _ _ _ HR Hs) as (t2 & Ht & HR2). destruct (IH _ HR2) as (t' & Ht' & HR').
    exists t'. split; [by eapply traces_app|done].
Qed.

(** Backward simulation: the related run is built from its end. *)
Lemma backward_simulation {S T L} (step : S → list L → S → Prop) (astep : T → list L → T → Prop)
    (R : S → T → Prop) s tr s' t' :
  (∀ s1 l s2 t2, R s2 t2 → step s1 l s2 → ∃ t1, R s1 t1 ∧ traces astep t1 l t2) →
  R s' t' → traces step s tr s' → ∃ t, R s t ∧ traces astep t tr t'.
Proof.
  intros Hsim HR Htr. revert t' HR. induction Htr as [s|s1 l s2 tr s3 Hs _ IH]; intros t' HR.
  - exists t'. split; [done|apply traces_nil].
  - destruct (IH _ HR) as (t2 & HR2 & Ht). destruct (Hsim _ _ _ _ HR2 Hs) as (t1 & HR1 & Ht1).
    exists t1. split; [done|]. by eapply traces_app.
Qed.

Section atomic.
Context {K V : Type} `{Countable K}.

(** What an observer sees. *)
Inductive event :=
| ECall (i : nat) (o : @op V) (key : K)
| ERet (i : nat) (r : option V).

Inductive status :=
| AIdle
| ACalled (o : @op V) (key : K)
| ASeen (o : @op V) (key : K)          (* the key was absent at some time since the call *)
| AAnswered (r : option V).

Abbreviation conf := (gmap K V * list status)%type.
Implicit Types (M : gmap K V) (st : list status) (i j : nat) (o : @op V) (key : K).

Inductive atom_step : conf → list event → conf → Prop :=
| atom_call M st i o key :
    st !! i = Some AIdle → atom_step (M, st) [ECall i o key] (M, <[i := ACalled o key]> st)
| atom_apply M st i o key :
    st !! i = Some (ACalled o key) →
    atom_step (M, st) [] ((spec_op o key M).1, <[i := AAnswered (spec_op o key M).2]> st)
| atom_ret M st i r :
    st !! i = Some (AAnswered r) → atom_step (M, st) [ERet i r] (M, <[i := AIdle]> st).

Definition no_insert o : Prop := match o with Insert _ => False | _ => True end.

Lemma spec_op_absent o key M : no_insert o → M !! key = None → spec_op o key M = (M, None).
Proof. destruct o; [|done|]; intros _ HM; cbn; rewrite HM; [done|]. by rewrite delete_id. Qed.

Inductive peek_step : conf → list event → conf → Prop :=
| peek_atom c l c' : atom_step c l c' → peek_step c l c'
| peek_see M st i o key :
    st !! i = Some (ACalled o key) → no_insert o → M !! key = None →
    peek_step (M, st) [] (M, <[i := ASeen o key]> st)
| peek_apply M st i o key :
    st !! i = Some (ASeen o key) →
    peek_step (M, st) [] ((spec_op o key M).1, <[i := AAnswered (spec_op o key M).2]> st)
| peek_commit M st i o key :
    st !! i = Some (ASeen o key) → peek_step (M, st) [] (M, <[i := AAnswered None]> st).

Lemma peek_traces_length (c1 c2 : conf) tr : traces peek_step c1 tr c2 → length c2.2 = length c1.2.
Proof.
  induction 1 as [|t1 l t2 tr t3 Hs _ IH]; [done|]. rewrite IH.
  destruct Hs as [t1 l t2 Hs| | |]; [destruct Hs|..]; cbn; by rewrite length_insert.
Qed.

(** ** Moving the decision back *)
(** A client that has noted the absence either has not been answered yet or has been
    answered with nothing. *)
Definition decided (a b : status) : Prop :=
  match a with
  | ASeen o key => b = ACalled o key ∨ b = AAnswered None
  | _ => b = a
  end.
Definition decides (c d : conf) : Prop := c.1 = d.1 ∧ Forall2 decided c.2 d.2.

Lemma decides_insert M st st' i a b :
  Forall2 decided st st' → decided a b → decides (M, <[i := a]> st) (M, <[i := b]> st').
Proof. intros. split; [done|]. by apply Forall2_insert. Qed.

(** The statuses before a step that set client [i]'s. *)
Lemma decided_before st a0 a i st' b0 :
  Forall2 decided (<[i := a]> st) st' → st !! i = Some a0 → decided a0 b0 →
  Forall2 decided st (<[i := b0]> st') ∧ ∃ b, st' !! i = Some b ∧ decided a b.
Proof.
  intros Hall Hi Hb0. pose proof (lookup_lt_Some _ _ _ Hi) as Hlt. split.
  - rewrite <- (list_insert_id st i a0 Hi), <- (list_insert_insert_eq st i a0 a).
    by apply Forall2_insert.
  - destruct (Forall2_lookup_l _ _ _ i a Hall) as (b & Hb & Hd); [by apply list_lookup_insert_eq|eauto].
Qed.

Lemma decided_back M st a0 a i d b0 :
  decides (M, <[i := a]> st) d → st !! i = Some a0 → decided a0 b0 →
  ∃ st' b, d = (M, <[i := b]> st') ∧ decided a b ∧ st' !! i = Some b0 ∧ decides (M, st) (M, st').
Proof.
  destruct d as [M' st']. intros [HM Hall] Hi Hb0. cbn in HM, Hall. subst M'.
  destruct (decided_before _ _ _ _ _ _ Hall Hi Hb0) as [Hall' (b & Hb & Hd)].
  exists (<[i := b0]> st'), b. rewrite list_insert_insert_eq, list_insert_id by done.
  split_and!; [done..| |by split]. apply list_lookup_insert_eq. by eapply lookup_lt_Some.
Qed.

Lemma atom_apply_into M st i o key :
  st !! i = Some (AAnswered (spec_op o key M).2) →
  atom_step (M, <[i := ACalled o key]> st) [] ((spec_op o key M).1, st).
Proof.
  intros Hi. rewrite <- (list_insert_id st i _ Hi) at 2.
  rewrite <- (list_insert_insert_eq st i (AAnswered (spec_op o key M).2) (ACalled o key)).
  apply atom_apply.
  apply list_lookup_insert_eq. by eapply lookup_lt_Some.
Qed.

Lemma decides_step c1 l c2 d2 :
  decides c2 d2 → peek_step c1 l c2 → ∃ d1, decides c1 d1 ∧ traces atom_step d1 l d2.
Proof.
  intros Hd Hs. destruct Hs as [c l c' Hs|M st i o key Hi Ho HM|M st i o key Hi|M st i o key Hi].
  - destruct Hs as [M st i o key Hi|M st i o key Hi|M st i r Hi].
    + destruct (decided_back _ _ _ _ _ _ _ Hd Hi eq_refl) as (st' & b & -> & -> & Hi' & Hd').
      eexists. split; [done|]. by apply traces_one, atom_call.
    + destruct Hd as [HM Hall]. cbn in HM, Hall. destruct d2 as [M2 st2]. cbn in HM, Hall. subst M2.
      destruct (decided_before _ _ _ _ _ (ACalled o key) Hall Hi eq_refl) as [Hall' (b & Hb & ->)].
      exists (M, <[i := ACalled o key]> st2). split; [by split|]. by apply traces_one, atom_apply_into.
    + destruct (decided_back _ _ _ _ _ _ _ Hd Hi eq_refl) as (st' & b & -> & -> & Hi' & Hd').
      eexists. split; [done|]. by apply traces_one, atom_ret.
  - destruct (decided_back _ _ _ _ _ _ _ Hd Hi eq_refl) as (st' & b & -> & Hb & Hi' & Hd').
    exists (M, st'). split; [done|]. destruct Hb as [->| ->].
    + rewrite list_insert_id by done. apply traces_nil.
    + apply traces_one. pose proof (atom_apply M st' i o key Hi') as Hs.
      by rewrite spec_op_absent in Hs.
  - destruct Hd as [HM Hall]. cbn in HM, Hall. destruct d2 as [M2 st2]. cbn in HM, Hall. subst M2.
    destruct (decided_before _ _ _ _ _ (ACalled o key) Hall Hi (or_introl eq_refl)) as [Hall' (b & Hb & ->)].
    exists (M, <[i := ACalled o key]> st2). split; [by split|]. by apply traces_one, atom_apply_into.
  - destruct (decided_back _ _ _ _ _ _ (AAnswered None) Hd Hi (or_intror eq_refl))
      as (st' & b & -> & -> & Hi' & Hd').
    exists (M, st'). split; [done|]. rewrite list_insert_id by done. apply traces_nil.
Qed.

(** A final choice exists: nobody who has only noted an absence is answered. *)
Definition settle (a : status) : status :=
  match a with ASeen o key => ACalled o key | _ => a end.

Lemma decides_settle M st : decides (M, st) (M, settle <$> st).
Proof.
  split; [done|]. cbn. induction st as [|a st IH]; constructor; [|done]. destruct a; cbn; auto.
Qed.

Lemma decides_idle c M n : decides (M, replicate n AIdle) c → c = (M, replicate n AIdle).
Proof.
  destruct c as [M' st]. intros [HM Hall]. cbn in HM, Hall. subst M'. f_equal. revert st Hall.
  induction n as [|n IH]; intros st Hall; inversion Hall as [|? b ? st' Hb Hr]; subst; [done|].
  cbn. f_equal; [done|]. by apply IH.
Qed.

Lemma peek_atomic M n tr M' st :
  traces peek_step (M, replicate n AIdle) tr (M', st) →
  traces atom_step (M, replicate n AIdle) tr (M', settle <$> st).
Proof.
  intros Htr. destruct (backward_simulation _ atom_step decides _ _ _ _ decides_step
    (decides_settle M' st) Htr) as (t & Hd & Ht).
  by apply decides_idle in Hd as ->.
Qed.
End atomic.
