(* ===== verification/IhtView.v ===== *)
(** * The table behind the locks

    While several clients work, the memory is not in a state the tree invariant describes:
    buckets are locked, and some of the stores that unlock them are still to come. The
    invariant holds of the table behind the locks: the same objects, every lock word as its
    holder will leave it. This file relates the two ([view]), says how a private copy of a
    pointer list may lag behind the table ([bucket_lag], [ages]), and computes what a client
    inside its critical section does to both ([crit_spec]). *)
From S2P Require Import Prelude RemotePtr IhtRdma IhtElist IhtInv IhtExample IhtRehash IhtCache.
From S2P Require Import IhtSpec.

(** ** Copies that lag behind *)
(** [c] is what a bucket that is now [b] was at some time: calcified buckets never change,
    and others have had no list, the same list, or are calcified by now. *)
Definition bucket_lag (b c : plist_pair_t) : Prop :=
  c = b ∨ (lock c ≠ P_UNLOCKED ∧
    (is_null (base c) = true ∨ base c = base b ∨ lock b = P_UNLOCKED)).

#[export] Instance bucket_lag_refl : Reflexive bucket_lag.
Proof. by left. Qed.

Lemma bucket_lag_trans a b c : bucket_lag a b → bucket_lag b c → bucket_lag a c.
Proof.
  intros [->|[Hb Hab]] [->|[Hc Hbc]]; [by left|by right|by right|].
  right. split; [done|]. destruct Hbc as [?|[E|?]]; [by left| |done]. rewrite E.
  destruct Hab as [?|[?|?]]; auto.
Qed.

Lemma bucket_lag_calcified b c : bucket_lag b c → lock c = P_UNLOCKED → c = b.
Proof. by intros [?|[? _]]. Qed.

(** Two null pointers are the same word. *)
Lemma is_null_eq p p' : is_null p = true → is_null p' = true → p = p'.
Proof.
  unfold is_null. intros E%Z.eqb_eq E'%Z.eqb_eq. destruct p, p'. cbn in *. congruence.
Qed.

Section view.
Context {K V : Type} `{Countable K}.
Context (to_num : K → Z) (ELIST_SIZE PLIST_SIZE : nat) (self_id : Z).
Context (palloc : gmap remote_ptr (@obj K V) → remote_ptr) (raw_elist : @EList K V).
Context `{!Geometry ELIST_SIZE PLIST_SIZE} `{!PoolLaws ELIST_SIZE palloc raw_elist}.
Abbreviation memory := (gmap remote_ptr (@obj K V)).
Abbreviation bkt := (bkt to_num PLIST_SIZE).
Abbreviation kpath := (kpath to_num PLIST_SIZE).
Abbreviation width := (width PLIST_SIZE).
Abbreviation iht_inv := (iht_inv to_num ELIST_SIZE PLIST_SIZE).
Abbreviation iht_abs := (iht_abs ELIST_SIZE).
Abbreviation leaf_view := (leaf_view to_num ELIST_SIZE PLIST_SIZE).
Abbreviation apply_op := (apply to_num ELIST_SIZE PLIST_SIZE self_id palloc raw_elist).
Implicit Types (g m : memory) (root q a : remote_ptr) (pl : PList) (b c : plist_pair_t)
  (l : list (K * V)) (key : K) (M : gmap K V) (i j n : nat).

(** ** The table grows older *)
Definition ages g root g2 : Prop := ∀ π q pl, walk g root π = Some q → g !! q = Some (OPlist pl) →
  ∃ pl2, g2 !! q = Some (OPlist pl2) ∧ Forall2 bucket_lag pl2 pl.

Lemma ages_evolves g root g2 : ages g root g2 → evolves g root g2.
Proof.
  intros Ha π q pl Hw Hq. destruct (Ha _ _ _ Hw Hq) as (pl2 & Hq2 & Hall).
  exists pl2. split; [done|]. intros i b Hb Hp.
  destruct (Forall2_lookup_r _ _ _ _ _ Hall Hb) as (b2 & Hb2 & Hlag).
  by rewrite (bucket_lag_calcified _ _ Hlag Hp).
Qed.

Lemma ages_refl g root : ages g root g.
Proof. intros π q pl _ Hq. exists pl. split; [done|]. by apply Forall_Forall2_diag, Forall_true. Qed.

Lemma lag_insert pl i b b' :
  pl !! i = Some b → bucket_lag b' b → Forall2 bucket_lag (<[i := b']> pl) pl.
Proof.
  intros Hb Hlag. rewrite <- (list_insert_id pl i b Hb) at 2. apply Forall2_insert; [|done].
  by apply Forall_Forall2_diag, Forall_true.
Qed.

Lemma lag_if q q1 pl pl1 i b b' g :
  g !! q = Some (OPlist pl) → g !! q1 = Some (OPlist pl1) → pl !! i = Some b → bucket_lag b' b →
  Forall2 bucket_lag (if decide (q1 = q) then <[i := b']> pl else pl1) pl1.
Proof.
  intros Hq Hq1 Hb Hlag. destruct (decide (q1 = q)) as [->|]; [|by apply Forall_Forall2_diag, Forall_true].
  simplify_eq. by eapply lag_insert.
Qed.

(** ** Memory and table *)
(** [held a i s]: a client has locked bucket [i] of the list at [a] and will unlock it
    with the state [s]. *)
Definition bucket_view (held : remote_ptr → nat → Z → Prop) a i (b c : plist_pair_t) : Prop :=
  c = b ∨ (lock c = E_LOCKED ∧ base c = base b ∧ held a i (lock b)).

Definition plist_view held a pl plm : Prop :=
  length plm = length pl ∧
  ∀ i b c, pl !! i = Some b → plm !! i = Some c → bucket_view held a i b c.

Definition obj_view held a (x y : @obj K V) : Prop :=
  match x, y with
  | OElist e, OElist e' => e' = e
  | OPlist pl, OPlist plm => plist_view held a pl plm
  | _, _ => False
  end.

Definition view held g m : Prop := ∀ a, option_Forall2 (obj_view held a) (g !! a) (m !! a).

Lemma obj_view_refl held a x : obj_view held a x x.
Proof. destruct x; cbn; [done|]. split; [done|]. intros i b c Hb Hc. left. congruence. Qed.

Lemma view_refl held g : view held g g.
Proof. intros a. destruct (g !! a); constructor. apply obj_view_refl. Qed.

Lemma view_elist held g m a e : view held g m → g !! a = Some (OElist e) → m !! a = Some (OElist e).
Proof.
  intros Hv Ha. specialize (Hv a). rewrite Ha in Hv. inversion Hv as [x y Hxy E|]; subst.
  destruct y; [|done]. cbn in Hxy. by subst.
Qed.

Lemma view_plist held g m a pl :
  view held g m → g !! a = Some (OPlist pl) →
  ∃ plm, m !! a = Some (OPlist plm) ∧ plist_view held a pl plm.
Proof.
  intros Hv Ha. specialize (Hv a). rewrite Ha in Hv. inversion Hv as [x y Hxy E|]; subst.
  destruct y; [done|]. eauto.
Qed.

Lemma view_none held g m a : view held g m → m !! a = None ↔ g !! a = None.
Proof.
  intros Hv. specialize (Hv a). inversion Hv as [x y ? E1 E2|E1 E2]; [|done].
  split; by intros [=].
Qed.

Lemma plist_view_lookup held a pl plm i b :
  plist_view held a pl plm → pl !! i = Some b → ∃ c, plm !! i = Some c ∧ bucket_view held a i b c.
Proof.
  intros [Hlen Hall] Hb. destruct (lookup_lt_is_Some_2 plm i) as [c Hc]; [|by eauto].
  rewrite Hlen. by eapply lookup_lt_Some.
Qed.

(** Memory and table change at one address. *)
Lemma view_insert held held' g m a x y :
  view held g m → obj_view held' a x y →
  (∀ a' i s, a' ≠ a → held a' i s → held' a' i s) → view held' (<[a := x]> g) (<[a := y]> m).
Proof.
  intros Hv Hxy Hheld a'. destruct (decide (a = a')) as [<-|Hne].
  - rewrite !lookup_insert_eq. by constructor.
  - rewrite !lookup_insert_ne by done. specialize (Hv a').
    inversion Hv as [u w Huw E1 E2|E1 E2]; constructor. destruct u, w; cbn in *; try done.
    destruct Huw as [Hlen Hall]. split; [done|]. intros i b c Hb Hc.
    destruct (Hall _ _ _ Hb Hc) as [?|(? & ? & ?)]; [by left|]. right. eauto.
Qed.

Lemma view_mono held held' g m :
  view held g m → (∀ a i s, held a i s → held' a i s) → view held' g m.
Proof.
  intros Hv Hh a. specialize (Hv a). inversion Hv as [u w Huw E1 E2|E1 E2]; constructor.
  destruct u, w; cbn in *; try done. destruct Huw as [Hlen Hall]. split; [done|].
  intros i b c Hb Hc. destruct (Hall _ _ _ Hb Hc) as [?|(? & ? & ?)]; [by left|right; eauto].
Qed.

Lemma view_insert_elist held g m a e :
  view held g m → view held (<[a := OElist e]> g) (<[a := OElist e]> m).
Proof. intros Hv. eapply view_insert; [exact Hv|done|auto]. Qed.

Lemma view_delete held g m a : view held g m → view held (delete a g) (delete a m).
Proof.
  intros Hv a'. destruct (decide (a = a')) as [<-|Hne].
  - rewrite !lookup_delete_eq. constructor.
  - by rewrite !lookup_delete_ne by done.
Qed.

(** The holders after a step that concerns bucket [i] of [q] only. *)
Definition moves (held held' : remote_ptr → nat → Z → Prop) q i : Prop :=
  ∀ a j s, (a, j) ≠ (q, i) → held a j s → held' a j s.

Lemma view_set_bucket held held' g m q pl plm i b' c' :
  view held g m → g !! q = Some (OPlist pl) → m !! q = Some (OPlist plm) →
  moves held held' q i → bucket_view held' q i b' c' →
  view held' (<[q := OPlist (<[i := b']> pl)]> g) (<[q := OPlist (<[i := c']> plm)]> m).
Proof.
  intros Hv Hq Hqm Hmv Hbc. eapply view_insert; [done| |].
  2:{ intros a j s Ha. apply Hmv. congruence. }
  destruct (view_plist _ _ _ _ _ Hv Hq) as (plm' & Hqm' & Hlen & Hall).
  rewrite Hqm in Hqm'. injection Hqm' as <-. cbn. split; [by rewrite !length_insert|].
  intros j b c Hb Hc. destruct (decide (i = j)) as [<-|Hne].
  - rewrite list_lookup_insert_eq in Hb by (apply lookup_lt_Some in Hb; by rewrite length_insert in Hb).
    rewrite list_lookup_insert_eq in Hc by (apply lookup_lt_Some in Hc; by rewrite length_insert in Hc).
    by simplify_eq.
  - rewrite list_lookup_insert_ne in Hb, Hc by done.
    destruct (Hall _ _ _ Hb Hc) as [?|(? & ? & ?)]; [by left|right].
    split_and!; [done..|]. apply Hmv; [congruence|done].
Qed.
End view.
