(* ===== verification/IhtCrit.v ===== *)
(** * A client in its critical section

    What the operation a client performs under the lock of a bucket does to the memory and
    to the table behind the locks, whatever other buckets are locked at the time. *)
From S2P Require Import Prelude RemotePtr IhtRdma IhtElist IhtInv IhtExample IhtRehash IhtCache.
From S2P Require Import IhtSpec IhtView.

Section crit.
Context {K V : Type} `{Countable K}.
Context (to_num : K → Z) (ELIST_SIZE PLIST_SIZE : nat) (self_id : Z).
Context (palloc : gmap remote_ptr (@obj K V) → remote_ptr) (raw_elist : @EList K V).
Context `{!Geometry ELIST_SIZE PLIST_SIZE} `{!PoolLaws ELIST_SIZE palloc raw_elist}.
Abbreviation memory := (gmap remote_ptr (@obj K V)).
Abbreviation bkt := (bkt to_num PLIST_SIZE).
Abbreviation kpath := (kpath to_num PLIST_SIZE).
Abbreviation width := (width PLIST_SIZE).
Abbreviation iht_inv := (iht_inv to_num ELIST_SIZE PLIST_SIZE).
Abbreviation iht_abs := (iht_abs ELIST_SIZE).
Abbreviation apply_op := (apply to_num ELIST_SIZE PLIST_SIZE self_id palloc raw_elist).

(** One client holds bucket [bkt key n] of the list at [q]: [b] is the bucket in the table
    [g], [cm] the locked bucket in the memory [m], and the client's copy has the base
    pointer of both. *)
Context (held : remote_ptr → nat → Z → Prop) (g m : memory) (root : remote_ptr) (M : gmap K V)
  (key : K) (n : nat) (q : remote_ptr) (pl plm : PList) (b cm cc : plist_pair_t)
  (l : list (K * V)) (e : option (@EList K V)) (cur : CachedPList).
Abbreviation i := (bkt key n).
Hypotheses (Hinv : iht_inv g root) (Habs : iht_abs g root M) (Hv : view held g m)
  (Hlv : leaf_view to_num ELIST_SIZE PLIST_SIZE g root M key n q pl b l e) (Hn : (n ≤ 7)%nat)
  (Hqm : m !! q = Some (OPlist plm)) (Hcm : plm !! i = Some cm)
  (Hbm : base cm = base b) (Hlm : lock cm = E_LOCKED)
  (Hcc : cp_plist cur !! i = Some cc) (Hbc : base cc = base b).

Abbreviation ctx cur := (mkCtx e (base b) (Z.of_nat n + 1) (Z.of_nat (width n)) i q cur).

Definition left_as (fin : bool) : Z := if fin then E_UNLOCKED else P_UNLOCKED.

(** The outcome: memory [m2], table [g2] and map [M2], the copy [cur'], and what [apply]
    returns. *)
Record crit_outcome (o : @op V) (m2 g2 : memory) M2 cur' res (fin : bool) : Prop := {
  co_apply : apply_op m key o (ctx cur) = Done (m2, ctx cur', res, fin);
  co_inv : iht_inv g2 root;
  co_abs : iht_abs g2 root M2;
  co_ages : ages g root g2;
  co_view held' : moves held held' q i → held' q i (left_as fin) → view held' g2 m2;
  co_fin : fin = true → cur' = cur ∧ spec_op o key M = (M2, res);
  co_split : fin = false → M2 = M ∧ (n < 7)%nat ∧ (∃ v, o = Insert v) ∧
    ∃ p pl2, cur' = mkCached (<[i := mkBucket p P_UNLOCKED]> (cp_plist cur)) (cp_source cur) ∧
      g2 !! q = Some (OPlist pl2) ∧ pl2 = <[i := mkBucket p P_UNLOCKED]> pl }.

Lemma crit_leaf : leaf g root (kpath key n) i q pl b.
Proof. by eapply lv_leaf. Qed.
Lemma crit_q : g !! q = Some (OPlist pl).
Proof. by destruct crit_leaf as (_ & ? & _). Qed.
Lemma crit_b : pl !! i = Some b.
Proof. by destruct crit_leaf as (_ & _ & ? & _). Qed.
Lemma crit_lock : lock b = E_UNLOCKED.
Proof. by destruct crit_leaf as (_ & _ & _ & ?). Qed.

(** Nothing is written: the holder is about to store the lock word back. *)
Lemma view_stay held' (g' m' : memory) :
  view held g' m' → g' !! q = Some (OPlist pl) → m' !! q = Some (OPlist plm) →
  moves held held' q i → held' q i E_UNLOCKED → view held' g' m'.
Proof.
  intros Hv' Hq Hq' Hmv Hh. pose proof crit_b as Hb.
  rewrite <- (insert_id g' q _ Hq), <- (insert_id m' q _ Hq').
  rewrite <- (list_insert_id pl i b Hb), <- (list_insert_id plm i cm Hcm) at 1.
  eapply view_set_bucket; [done..|]. right. rewrite crit_lock. auto.
Qed.

Lemma crit_unchanged o res :
  apply_op m key o (ctx cur) = Done (m, ctx cur, res, true) → spec_op o key M = (M, res) →
  crit_outcome o m g M cur res true.
Proof.
  intros Happ Hspec. split; try done; [apply ages_refl|].
  intros held' Hmv Hh. apply view_stay; [done|apply crit_q|done..].
Qed.

Lemma crit_contains : ∃ res, crit_outcome Contains m g M cur res true.
Proof.
  exists (M !! key). apply crit_unchanged; [|done]. cbn. unfold apply_contains. cbn.
  destruct e as [el|].
  - destruct (lv_some _ _ _ _ _ _ _ _ _ _ _ _ _ Hlv _ eq_refl) as (_ & _ & Hr).
    destruct (M !! key) as [v|] eqn:HM.
    + apply (lv_map _ _ _ _ _ _ _ _ _ _ _ _ _ Hlv) in HM.
      destruct (search_found ELIST_SIZE key el l v Hr (lv_nodup _ _ _ _ _ _ _ _ _ _ _ _ _ Hlv) HM) as [j ->]. done.
    + by rewrite (search_missing ELIST_SIZE key el l Hr (lv_missing _ _ _ _ _ _ _ _ _ _ _ _ _ Hlv HM)).
  - destruct (lv_none _ _ _ _ _ _ _ _ _ _ _ _ _ Hlv eq_refl) as [-> _].
    destruct (M !! key) as [v|] eqn:HM; [|done].
    apply (lv_map _ _ _ _ _ _ _ _ _ _ _ _ _ Hlv), elem_of_nil in HM. done.
Qed.

(** The leaf holds [l'] afterwards, in the list behind [b']. *)
Lemma crit_changed o b' e' l' res m2 M2 :
  lock b' = E_UNLOCKED → is_null (base b') = false →
  ((is_null (base b) = false ∧ base b' = base b) ∨ is_null (base b) = true ∧ g !! base b' = None) →
  elist_repr ELIST_SIZE e' l' → NoDup l'.*1 → (∀ kv, kv ∈ l' → kv ∈ l ∨ kv.1 = key) →
  apply_op m key o (ctx cur) = Done (m2, ctx cur, res, true) →
  (∀ held', moves held held' q i → held' q i E_UNLOCKED → view held' (set_leaf_mem g i q pl b' e') m2) →
  spec_op o key M = (M2, res) →
  (∀ g2 : memory, (∀ key' v, maps ELIST_SIZE g2 root key' v ↔
            (maps ELIST_SIZE g root key' v ∧ (key', v) ∉ l) ∨ (key', v) ∈ l') → iht_abs g2 root M2) →
  ∃ g2, crit_outcome o m2 g2 M2 cur res true.
Proof.
  intros Hl' Hnn Hbase Hr Hnd Hsub Happ Hview Hspec Habs2.
  pose proof crit_leaf as Hleaf. pose proof (lv_list _ _ _ _ _ _ _ _ _ _ _ _ _ Hlv) as Hlist.
  assert ((is_null (base b) = false ∧ base b' = base b) ∨ g !! base b' = None) as Hbase'
    by (destruct Hbase as [?|[_ ?]]; auto).
  assert (∀ kv, kv ∈ l' → kpath kv.1 (S (length (kpath key n))) = kpath key n ++ [i]) as Hp.
  { intros kv [Hin| ->]%Hsub; rewrite kpath_length, <- kpath_S; [|done].
    by apply (lv_path _ _ _ _ _ _ _ _ _ _ _ _ _ Hlv). }
  exists (set_leaf_mem g i q pl b' e'). split; try done.
  - by eapply set_leaf_inv.
  - apply Habs2. intros key' v. by eapply set_leaf_maps.
  - intros π q1 pl1 _ Hq1. eexists. split; [by eapply set_leaf_plist|].
    eapply lag_if; [apply crit_q|done|apply crit_b|]. right. rewrite crit_lock.
    split; [done|]. destruct Hbase as [[_ ?]|[? _]]; auto.
Qed.

(** The element list behind the bucket is overwritten. *)
Lemma view_overwrite el e' held' :
  e = Some el → moves held held' q i → held' q i E_UNLOCKED →
  view held' (set_leaf_mem g i q pl b e') (<[base b := OElist e']> m).
Proof.
  intros He Hmv Hh. destruct (lv_some _ _ _ _ _ _ _ _ _ _ _ _ _ Hlv _ He) as (_ & Heg & _).
  pose proof crit_q as Hq. assert (base b ≠ q) as Hbq by congruence.
  unfold set_leaf_mem. rewrite (list_insert_id pl i b crit_b).
  rewrite insert_id by by rewrite lookup_insert_ne.
  apply view_stay; [by apply view_insert_elist|by rewrite lookup_insert_ne..|done|done].
Qed.

Lemma crit_cases : e = None ∨ ∃ el, e = Some el.
Proof. destruct e; eauto. Qed.

Lemma crit_remove : ∃ m2 g2 M2 res, crit_outcome Remove m2 g2 M2 cur res true.
Proof.
  destruct (M !! key) as [v|] eqn:HM.
  - pose proof HM as Hin. apply (lv_map _ _ _ _ _ _ _ _ _ _ _ _ _ Hlv) in Hin.
    destruct crit_cases as [He|[el He]].
    { destruct (lv_none _ _ _ _ _ _ _ _ _ _ _ _ _ Hlv He) as [E _]. rewrite E in Hin.
      by apply elem_of_nil in Hin. }
    destruct (lv_some _ _ _ _ _ _ _ _ _ _ _ _ _ Hlv _ He) as (Hnn & Heg & Hr).
    pose proof (lv_nodup _ _ _ _ _ _ _ _ _ _ _ _ _ Hlv) as Hnd.
    destruct (remove_loop_present ELIST_SIZE key el l v Hr Hnd Hin) as (e' & l' & E & Hr' & Hperm).
    exists (<[base b := OElist e']> m).
    destruct (crit_changed Remove b e' l' (Some v) (<[base b := OElist e']> m) (delete key M))
      as [g2 Ho]; [apply crit_lock|done|by left|done| | | | | | |by exists g2, (delete key M), (Some v)].
    + rewrite Hperm in Hnd. by apply NoDup_cons in Hnd as [_ ?].
    + intros kv Hkv. left. rewrite Hperm. by apply elem_of_cons; right.
    + rewrite He. cbn. by rewrite E, bind_done.
    + intros held'. by eapply view_overwrite.
    + cbn. by rewrite HM.
    + intros g2 Hg2. eapply abs_remove; [exact Habs| |done..]. by eapply lv_sub.
  - exists m, g, M, None. apply crit_unchanged; [|cbn; by rewrite HM, delete_id].
    cbn. destruct e as [el|]; [|done].
    destruct (lv_some _ _ _ _ _ _ _ _ _ _ _ _ _ Hlv _ eq_refl) as (Hnn & He & Hr).
    by rewrite (remove_loop_absent ELIST_SIZE key el l Hr (lv_missing _ _ _ _ _ _ _ _ _ _ _ _ _ Hlv HM)).
Qed.

Lemma crit_insert_present v v0 :
  M !! key = Some v0 → crit_outcome (Insert v) m g M cur (Some v0) true.
Proof.
  intros HM. apply crit_unchanged; [|cbn; by rewrite HM].
  pose proof HM as Hin. apply (lv_map _ _ _ _ _ _ _ _ _ _ _ _ _ Hlv) in Hin.
  cbn. destruct e as [el|].
  - destruct (lv_some _ _ _ _ _ _ _ _ _ _ _ _ _ Hlv _ eq_refl) as (_ & _ & Hr).
    destruct (search_found ELIST_SIZE key el l v0 Hr (lv_nodup _ _ _ _ _ _ _ _ _ _ _ _ _ Hlv) Hin) as [j Hj].
    by rewrite Hj, bind_done.
  - destruct (lv_none _ _ _ _ _ _ _ _ _ _ _ _ _ Hlv eq_refl) as [E _].
    rewrite E in Hin. by apply elem_of_nil in Hin.
Qed.

(** The list [change_bucket_pointer] leaves in memory. *)
Lemma change_pointer (mm : memory) p :
  mm !! q = Some (OPlist plm) →
  change_bucket_pointer mm q i p = Done (<[q := OPlist (<[i := mkBucket p E_LOCKED]> plm)]> mm).
Proof.
  intros Hq. unfold change_bucket_pointer, write_bucket, read_plist.
  by rewrite Hq, bind_done, Hcm, defined_Some, bind_done, Hlm.
Qed.

Lemma crit_insert_empty v :
  e = None → M !! key = None → ∃ m2 g2, crit_outcome (Insert v) m2 g2 (<[key := v]> M) cur None true.
Proof.
  intros He HM. pose proof (elist_pos (ELIST_SIZE := ELIST_SIZE) (PLIST_SIZE := PLIST_SIZE)) as Hpos.
  destruct (lv_none _ _ _ _ _ _ _ _ _ _ _ _ _ Hlv He) as [El Hnull].
  set (p := palloc m). assert (m !! p = None) as Hp by apply palloc_fresh.
  assert (p ≠ q) as Hpq by congruence.
  assert (g !! p = None) as Hpg by by apply (view_none held g m p Hv).
  assert (mkEList 0 (pairs raw_elist) = raw_elist) as Hraw.
  { pose proof (raw_count (raw_elist := raw_elist)) as Hc. destruct raw_elist. cbn in *. by subst. }
  destruct (elist_insert_repr ELIST_SIZE raw_elist [] (key, v) (raw_repr ELIST_SIZE palloc raw_elist))
    as (e' & Hins & Hr); [cbn; lia|].
  eexists. eapply (crit_changed _ (mkBucket p E_UNLOCKED) e' [(key, v)]);
    [done|exact (palloc_nonnull (palloc := palloc) m)|by right|exact Hr| | | | | |].
  - apply NoDup_singleton.
  - intros kv Hkv. apply list_elem_of_singleton in Hkv as ->. by right.
  - rewrite He. cbn. rewrite Hraw, Hins, bind_done. fold p.
    rewrite change_pointer by by rewrite lookup_insert_ne. rewrite bind_done. done.
  - intros held' Hmv Hh. unfold set_leaf_mem. cbn. eapply view_set_bucket;
      [by apply view_insert_elist| | |exact Hmv|by right].
    + rewrite lookup_insert_ne by done. apply crit_q.
    + by rewrite lookup_insert_ne.
  - cbn. by rewrite HM.
  - intros g2 Hg2. eapply (abs_insert _ _ _ _ _ _ _ l); [exact Habs|done|by eapply lv_sub|].
    rewrite El in *. exact Hg2.
Qed.

Lemma crit_insert_append v el :
  e = Some el → M !! key = None → (length l < ELIST_SIZE)%nat →
  ∃ m2 g2, crit_outcome (Insert v) m2 g2 (<[key := v]> M) cur None true.
Proof.
  intros He HM Hlt. destruct (lv_some _ _ _ _ _ _ _ _ _ _ _ _ _ Hlv _ He) as (Hnn & Heg & Hr).
  pose proof (lv_missing _ _ _ _ _ _ _ _ _ _ _ _ _ Hlv HM) as Hni.
  destruct (elist_insert_repr ELIST_SIZE el l (key, v) Hr Hlt) as (e' & Hins & Hr').
  pose proof Hr as (_ & Hc & _). eexists.
  eapply (crit_changed _ b e' (l ++ [(key, v)])); [apply crit_lock|done|by left|exact Hr'| | | | | |].
  - rewrite fmap_app. apply NoDup_app. split_and!; [by eapply lv_nodup| |apply NoDup_singleton].
    intros x Hx Hx2. apply list_elem_of_singleton in Hx2 as ->. done.
  - intros kv [?|Hkv]%elem_of_app; [by left|]. apply list_elem_of_singleton in Hkv as ->. by right.
  - rewrite He. cbn. rewrite (search_missing ELIST_SIZE key el l Hr Hni), bind_done.
    rewrite bool_decide_eq_true_2 by lia. rewrite Hins, bind_done. done.
  - intros held'. by eapply view_overwrite.
  - cbn. by rewrite HM.
  - intros g2 Hg2. eapply abs_insert; [exact Habs|done|by eapply lv_sub|exact Hg2].
Qed.
(** ** The split: rehash runs on the memory *)
(** What it allocates there is fresh for the table too. *)
Lemma fresh_for_table m1 new_p np l0 d :
  fresh_plist to_num ELIST_SIZE PLIST_SIZE m m1 new_p np l0 d →
  fresh_plist to_num ELIST_SIZE PLIST_SIZE g (g ∪ m1) new_p np l0 d.
Proof.
  intros Hf. assert (∀ a, m !! a = None → (g ∪ m1) !! a = m1 !! a) as Hout.
  { intros a Ha. apply lookup_union_r. by apply (view_none held g m a Hv). }
  split.
  - apply (view_none held g m _ Hv). by eapply fp_fresh.
  - rewrite Hout by by eapply fp_fresh. by eapply fp_plist.
  - by eapply (fp_length _ _ _ _ _ _ _ _ _ Hf).
  - intros a Ha. destruct (g !! a) as [x|] eqn:E; [|done]. by apply lookup_union_Some_l.
  - by eapply (fp_lock _ _ _ _ _ _ _ _ _ Hf).
  - intros j c Hj. apply bucket_list_frame with m1; [|by eapply (fp_list _ _ _ _ _ _ _ _ _ Hf)].
    intros Hnull. destruct (fp_new _ _ _ _ _ _ _ _ _ Hf _ _ Hj Hnull) as [? _]. by apply Hout.
  - intros j c Hj Hnull. destruct (fp_new _ _ _ _ _ _ _ _ _ Hf _ _ Hj Hnull) as [? ?].
    split; [|done]. by apply (view_none held g m _ Hv).
  - by eapply (fp_inj _ _ _ _ _ _ _ _ _ Hf).
Qed.

Lemma view_union m1 : (∀ a, m !! a ≠ None → m1 !! a = m !! a) → view held (g ∪ m1) m1.
Proof.
  intros Hfr a. destruct (g !! a) as [x|] eqn:Ha.
  - rewrite (lookup_union_Some_l _ _ _ _ Ha), Hfr, <- Ha; [apply Hv|].
    intros Hm. apply (view_none held g m a Hv) in Hm. congruence.
  - rewrite lookup_union_r by done. apply view_refl.
Qed.

Lemma split_ages g1 g2 new_p np :
  is_null (base b) = false → fresh_plist to_num ELIST_SIZE PLIST_SIZE g g1 new_p np l (S n) →
  g2 !! q = Some (OPlist (<[i := mkBucket new_p P_UNLOCKED]> pl)) →
  (∀ a, a ≠ q → a ≠ base b → g2 !! a = g1 !! a) → ages g root g2.
Proof.
  intros Hnn Hf Hq2 Hrest π q1 pl1 _ Hq1. eexists. split.
  - eapply (split_plist to_num ELIST_SIZE PLIST_SIZE g (kpath key n)); [exact Hnn|by eapply lv_list| |done..].
    by rewrite kpath_length.
  - eapply lag_if; [apply crit_q|done|apply crit_b|]. right. rewrite crit_lock. auto.
Qed.

Lemma crit_insert_split v el :
  e = Some el → M !! key = None → ¬ (length l < ELIST_SIZE)%nat → (n < 7)%nat →
  ∃ m2 g2 cur', crit_outcome (Insert v) m2 g2 M cur' None false.
Proof.
  intros He HM Hfull Hn7. destruct (lv_some _ _ _ _ _ _ _ _ _ _ _ _ _ Hlv _ He) as (Hnn & Heg & Hr).
  pose proof Hr as (_ & Hc & _). pose proof crit_q as Hq.
  assert (base b ≠ q) as Hbq by congruence.
  pose proof (view_elist _ _ _ _ _ Hv Heg) as Hem. rewrite <- Hbc in Hem.
  destruct (rehash_fresh to_num ELIST_SIZE PLIST_SIZE self_id palloc raw_elist m (cp_plist cur) n i
    cc el l Hcc Hem Hr) as (new_p & np & m1 & Hf & E). rewrite Hbc in E, Hem.
  pose proof (fresh_for_table _ _ _ _ _ Hf) as Hfg.
  set (trim := λ x : memory, if is_local self_id (base b) then delete (base b) x else x).
  assert (∀ x a, a ≠ base b → trim x !! a = x !! a) as Htrim.
  { intros x a Ha. unfold trim. case_match; [|done]. by rewrite lookup_delete_ne. }
  change (if is_local self_id (base b) then delete (base b) m1 else m1) with (trim m1) in E.
  assert (trim m1 !! q = Some (OPlist plm)) as Hq1.
  { rewrite Htrim by done. by rewrite (fp_frame _ _ _ _ _ _ _ _ _ Hf) by congruence. }
  assert (trim (g ∪ m1) !! q = Some (OPlist pl)) as Hg1.
  { rewrite Htrim by done. by apply lookup_union_Some_l. }
  set (g2 := <[q := OPlist (<[i := mkBucket new_p P_UNLOCKED]> pl)]> (trim (g ∪ m1))).
  assert (g2 !! q = Some (OPlist (<[i := mkBucket new_p P_UNLOCKED]> pl))) as Hq2 by apply lookup_insert_eq.
  assert (∀ a, a ≠ q → a ≠ base b → g2 !! a = (g ∪ m1) !! a) as Hrest.
  { intros a Ha1 Ha2. unfold g2. rewrite lookup_insert_ne by done. by apply Htrim. }
  pose proof (lv_list _ _ _ _ _ _ _ _ _ _ _ _ _ Hlv) as Hlist.
  assert (fresh_plist to_num ELIST_SIZE PLIST_SIZE g (g ∪ m1) new_p np l (S (length (kpath key n))))
    as Hfg' by by rewrite kpath_length.
  eexists _, g2, _. split; [| | |by eapply split_ages| |done|].
  - rewrite He. cbn. rewrite (search_missing ELIST_SIZE key el l Hr (lv_missing _ _ _ _ _ _ _ _ _ _ _ _ _ Hlv HM)), bind_done.
    rewrite bool_decide_eq_false_2 by lia. rewrite E, bind_done, change_pointer by done.
    by rewrite bind_done.
  - eapply split_inv; [done|exact crit_leaf|exact Hnn|exact Hlist|by rewrite kpath_length|exact Hfg'|done|done].
  - intros key' v'. rewrite (Habs key' v'). symmetry.
    eapply split_maps; [done|done|exact crit_leaf|exact Hnn|exact Hlist|by rewrite kpath_length|exact Hfg'|done|done].
  - intros held' Hmv Hh. eapply view_set_bucket; [|done|done|exact Hmv|by right].
    assert (view held (g ∪ m1) m1) as Hu by (apply view_union; by eapply fp_frame).
    unfold trim. case_match; [by apply view_delete|done].
  - intros _. split_and!; [done|done|by exists v|]. by exists new_p, (<[i := mkBucket new_p P_UNLOCKED]> pl).
Qed.

(** Whatever the operation, if there is room for it. *)
Lemma crit_spec o :
  room to_num ELIST_SIZE PLIST_SIZE o key M → ∃ m2 g2 M2 cur' res fin, crit_outcome o m2 g2 M2 cur' res fin.
Proof.
  intros Hroom. destruct o as [|v|].
  - destruct crit_contains as [res ?]. by exists m, g, M, cur, res, true.
  - destruct (M !! key) as [v0|] eqn:HM.
    { pose proof (crit_insert_present v v0 HM). by exists m, g, M, cur, (Some v0), true. }
    destruct crit_cases as [He|[el He]].
    { destruct (crit_insert_empty v He HM) as (m2 & g2 & ?). eauto 10. }
    destruct (decide (length l < ELIST_SIZE)%nat) as [Hlt|Hge].
    { destruct (crit_insert_append v el He HM Hlt) as (m2 & g2 & ?). eauto 10. }
    assert (n < 7)%nat as Hn7.
    { destruct (decide (n = 7%nat)) as [E|]; [|lia]. exfalso.
      pose proof (full_crowd _ _ _ _ _ _ _ _ _ _ _ _ _ Hlv HM E). specialize (Hroom HM). lia. }
    destruct (crit_insert_split v el He HM Hge Hn7) as (m2 & g2 & cur' & ?). eauto 10.
  - destruct crit_remove as (m2 & g2 & M2 & res & ?). eauto 10.
Qed.
End crit.
