(* ===== verification/IhtLin.v ===== *)
(** * Linearizability of [RdmaIHT]

    Any number of clients call [contains], [insert] and [remove] over and over. As long as no
    insertion enters a critical section with a null copy of a base pointer that is not null
    any more (the race of [stale_base_loses_insert]), every history of calls and returns is a
    history of one atomic map, and no client runs into a fault. *)
From S2P Require Import Prelude RemotePtr IhtRdma IhtElist IhtInv IhtExample IhtRehash IhtCache.
From S2P Require Import IhtSpec IhtConc IhtAtomic IhtView IhtCrit.

Section lin.
Context {K V : Type} `{Countable K}.
Context (to_num : K → Z) (ELIST_SIZE PLIST_SIZE cache_depth_ : nat) (self_id : Z).
Context (palloc : gmap remote_ptr (@obj K V) → remote_ptr) (raw_elist : @EList K V).
Context `{!Geometry ELIST_SIZE PLIST_SIZE} `{!PoolLaws ELIST_SIZE palloc raw_elist}.
Abbreviation memory := (gmap remote_ptr (@obj K V)).
Abbreviation client := (@client K V).
Abbreviation bkt := (bkt to_num PLIST_SIZE).
Abbreviation kpath := (kpath to_num PLIST_SIZE).
Abbreviation width := (width PLIST_SIZE).
Abbreviation iht_inv := (iht_inv to_num ELIST_SIZE PLIST_SIZE).
Abbreviation iht_abs := (iht_abs ELIST_SIZE).
Abbreviation caches_ok := (caches_ok PLIST_SIZE).
Abbreviation client_step :=
  (client_step to_num ELIST_SIZE PLIST_SIZE cache_depth_ self_id palloc raw_elist).
Abbreviation sys_step := (sys_step to_num ELIST_SIZE PLIST_SIZE cache_depth_ self_id palloc raw_elist).
Abbreviation sys := (memory * list client)%type.
Abbreviation event := (@event K V).
Abbreviation status := (@status K V).
Implicit Types (g m : memory) (root q a : remote_ptr) (pl : PList) (b c : plist_pair_t)
  (key : K) (M : gmap K V) (k : client) (ks : list client) (i j n : nat) (x : status) (U : gset K).

(** ** Clients that call again and again *)
Definition step_event j k' : list event :=
  match k_pc k' with PDone => [ERet j (k_result k')] | _ => [] end.

Inductive hist_step : sys → list event → sys → Prop :=
| hist_call m ks j k o key :
    ks !! j = Some k → k_pc k = PDone →
    hist_step (m, ks) [ECall j o key] (m, <[j := call PLIST_SIZE (k_root k) (k_caches k) key o]> ks)
| hist_move m ks j k m' k' :
    ks !! j = Some k → k_pc k ≠ PDone → client_step m k = Done (m', k') →
    hist_step (m, ks) (step_event j k') (m', <[j := k']> ks).

(** A client before its first call. *)
Definition idle root (c : caches) key : client := set_pc (call PLIST_SIZE root c key Contains) PDone.

(** An insertion is in a critical section with a null copy of a base pointer that is set. *)
Definition stale_insert m k : Prop :=
  k_pc k = PCrit ∧ ¬ no_insert (k_op k) ∧
  ∃ c b, cp_plist (c_curr (k_ctx k)) !! c_bucket (k_ctx k) = Some c ∧ is_null (base c) = true ∧
    bucket_at m (c_parent_ptr (k_ctx k)) (c_bucket (k_ctx k)) = Some b ∧ is_null (base b) = false.

(** Steps from states without such a client, on keys of [U]. *)
Definition calm U (s : sys) (l : list event) (s' : sys) : Prop :=
  hist_step s l s' ∧ (∀ j k, s.2 !! j = Some k → ¬ stale_insert s.1 k) ∧
  ∀ j o key, ECall j o key ∈ l → key ∈ U.

(** No more keys of [U] than fit into one bucket agree on the hashes of all levels. *)
Definition spread U : Prop :=
  ∀ key, key ∈ U → (size (filter (λ key', kpath key' 8 = kpath key 8) U) ≤ ELIST_SIZE)%nat.

Lemma spread_room U M o key : spread U → dom M ⊆ U → key ∈ U → room to_num ELIST_SIZE PLIST_SIZE o key M.
Proof.
  intros HU HM Hkey. destruct o as [|v|]; cbn; [done| |done]. intros Hnone.
  eapply Nat.lt_le_trans; [|by apply (HU key)].
  rewrite <- (size_dom (D := gset K)). apply subset_size. split.
  - intros k' Hk'. apply elem_of_dom in Hk' as [v' Hv']. apply map_lookup_filter_Some in Hv' as [Hv' [_ Hp]].
    apply elem_of_filter. split; [done|]. apply HM, elem_of_dom. eauto.
  - intros Hsub. assert (key ∈ dom (crowd to_num PLIST_SIZE key M)) as Hin.
    { apply Hsub, elem_of_filter. done. }
    apply elem_of_dom in Hin as [v' Hv']. apply map_lookup_filter_Some in Hv' as [_ [Hne _]]. done.
Qed.

Lemma spec_op_dom U M o key : dom M ⊆ U → key ∈ U → dom (spec_op o key M).1 ⊆ U.
Proof.
  intros HM Hkey. destruct o as [|v|]; cbn; [done| |].
  - destruct (M !! key); [done|]. rewrite dom_insert. by apply union_subseteq; split; [apply singleton_subseteq_l|].
  - rewrite dom_delete. by etransitivity; [apply subseteq_difference_l|].
Qed.

(** ** What the clients hold *)
Definition holds_as k a i (s : Z) : Prop :=
  ((k_pc k = PCrit ∧ s = E_UNLOCKED) ∨ k_pc k = PUnlock s) ∧
  c_parent_ptr (k_ctx k) = a ∧ c_bucket (k_ctx k) = i.
Definition held ks a i (s : Z) : Prop := ∃ j k, ks !! j = Some k ∧ holds_as k a i s.

Lemma holds_as_holds k a i s : holds_as k a i s → holds k a i.
Proof. intros [[[? _]|?] ?]; split; eauto. Qed.

Lemma holds_as_fun k a i s s' : holds_as k a i s → holds_as k a i s' → s = s'.
Proof. intros [[[? ->]|?] _] [[[? ->]|?] _]; congruence. Qed.

(** One client moves: the others keep what they hold. *)
Lemma held_others ks j k k' a i s :
  ks !! j = Some k → (∀ s, ¬ holds_as k a i s) → held ks a i s → held (<[j := k']> ks) a i s.
Proof.
  intros Hk Hno (j' & k1 & Hk1 & Hh). exists j', k1. split; [|done].
  rewrite list_lookup_insert_ne; [done|]. intros ->. rewrite Hk in Hk1. injection Hk1 as ->. by destruct (Hno s).
Qed.

Lemma held_moves ks j k k' :
  ks !! j = Some k → moves (held ks) (held (<[j := k']> ks)) (c_parent_ptr (k_ctx k)) (c_bucket (k_ctx k)).
Proof.
  intros Hk a i s Hne. eapply held_others; [done|]. intros s' (_ & <- & <-). done.
Qed.

Lemma held_own ks j k a i s : (j < length ks)%nat → holds_as k a i s → held (<[j := k]> ks) a i s.
Proof. intros Hj Hh. exists j, k. split; [by apply list_lookup_insert_eq|done]. Qed.

(** The holder is unique, so the state it will leave is determined. *)
Lemma held_unique m ks j k a i s s' :
  excl (m, ks) → ks !! j = Some k → holds_as k a i s → held ks a i s' → s' = s.
Proof.
  intros [_ Hu] Hk Hh (j' & k' & Hk' & Hh').
  assert (j' = j) as -> by (eapply Hu; [done..|by eapply holds_as_holds|by eapply holds_as_holds]).
  simplify_eq. by eapply holds_as_fun.
Qed.

(** Nobody holds anything: the memory is the table. *)
Lemma view_quiet ks g m :
  (∀ j k, ks !! j = Some k → k_pc k = PDone) → view (held ks) g m → g = m.
Proof.
  intros Hd Hv. assert (∀ a i s, ¬ held ks a i s) as Hno.
  { intros a i s (j & k & Hk & [[[Hp _]|Hp] _]); apply Hd in Hk; congruence. }
  apply map_eq. intros a. specialize (Hv a). inversion Hv as [u w Huw E1 E2|E1 E2]; [|done].
  f_equal. destruct u as [e|pl], w as [e'|plm]; cbn in Huw; try done; [congruence|].
  destruct Huw as [Hlen Hall]. f_equal. apply list_eq_same_length with (length pl); [done|done|].
  intros i b c _ Hb Hc. destruct (Hall _ _ _ Hb Hc) as [->|(_ & _ & Hh)]; [done|by destruct (Hno _ _ _ Hh)].
Qed.

(** ** The invariant of a client *)
(** A copy of the list [pl] of level [n], possibly an old one. *)
Definition copy_view n pl (cp : CachedPList) : Prop :=
  (∀ j, (j < width n - 1)%nat →
     ∃ b c, pl !! j = Some b ∧ cp_plist cp !! j = Some c ∧ bucket_lag b c) ∧
  ((∃ s, cp_source cp = Fetched s) ∨
   ∀ j c, (j < width n - 1)%nat → cp_plist cp !! j = Some c → lock c = P_UNLOCKED).

Record descent g root k n q pl : Prop := {
  de_depth : c_depth (k_ctx k) = Z.of_nat n + 1;
  de_count : c_count (k_ctx k) = Z.of_nat (width n);
  de_parent : c_parent_ptr (k_ctx k) = q;
  de_walk : walk g root (kpath (k_key k) n) = Some q;
  de_plist : g !! q = Some (OPlist pl);
  de_copy : copy_view n pl (c_curr (k_ctx k));
  de_path : path_pre to_num PLIST_SIZE (k_key k) n (k_path k) }.

Definition pending k x : Prop := x = ACalled (k_op k) (k_key k) ∨ x = ASeen (k_op k) (k_key k).

(** A client whose copy of its bucket is null has noted that its key was absent. *)
Definition noted k n pl x : Prop := ∀ b c, pl !! bkt (k_key k) n = Some b →
  cp_plist (c_curr (k_ctx k)) !! bkt (k_key k) n = Some c → lock b ≠ P_UNLOCKED →
  is_null (base c) = true → no_insert (k_op k) → x = ASeen (k_op k) (k_key k).

(** It has chosen its bucket and takes it for an element list. *)
Definition at_leaf k n : Prop := c_bucket (k_ctx k) = bkt (k_key k) n ∧
  ∃ c, cp_plist (c_curr (k_ctx k)) !! bkt (k_key k) n = Some c ∧ lock c ≠ P_UNLOCKED.

Definition descending g root k x (leaf : bool) : Prop := pending k x ∧
  ∃ n q pl, descent g root k n q pl ∧ noted k n pl x ∧ if leaf then at_leaf k n else True.

Definition client_ok g root U k x : Prop :=
  k_root k = root ∧ caches_ok g root (k_caches k) ∧
  match k_pc k with
  | PDone => x = AIdle
  | PStart => k_key k ∈ U ∧ pending k x ∧ k_path k = bucket_path_init
  | PLoop => k_key k ∈ U ∧ descending g root k x false
  | PLock | PRefetch | PCrit => k_key k ∈ U ∧ descending g root k x true
  | PUnlock s => (∃ π, walk g root π = Some (c_parent_ptr (k_ctx k))) ∧
      if s =? E_UNLOCKED then x = AAnswered (k_result k)
      else s = P_UNLOCKED ∧ k_key k ∈ U ∧ descending g root k x false
  end.
(** The others do not notice that the table grows older. *)
Lemma client_ok_ages g g2 root U k x : ages g root g2 → client_ok g root U k x → client_ok g2 root U k x.
Proof.
  intros Ha (Hroot & Hc & Hpc). split; [done|]. split.
  { eapply caches_ok_evolves; [by apply ages_evolves|done]. }
  assert (∀ lf, descending g root k x lf → descending g2 root k x lf) as Hdesc.
  { intros lf (Hp & n & q & pl & Hd & Hn & Hlf). split; [done|].
    destruct (Ha _ _ _ (de_walk _ _ _ _ _ _ Hd) (de_plist _ _ _ _ _ _ Hd)) as (pl2 & Hq2 & Hall).
    exists n, q, pl2. split_and!; [|  |done].
    - destruct Hd as [? ? ? Hw ? [Hcp Hsrc] ?]. split; try done.
      + eapply evolves_walk; [by apply ages_evolves|done].
      + split; [|done]. intros j Hj. destruct (Hcp j Hj) as (b & c & Hb & Hcc & Hlag).
        destruct (Forall2_lookup_r _ _ _ _ _ Hall Hb) as (b2 & Hb2 & Hlag2).
        exists b2, c. split_and!; [done..|]. by eapply bucket_lag_trans.
    - intros b2 c Hb2 Hcc Hl Hnull Ho.
      destruct (Forall2_lookup_l _ _ _ _ _ Hall Hb2) as (b & Hb & Hlag).
      eapply Hn; [done..| |done|done]. intros Hp1. apply Hl.
      by rewrite <- (bucket_lag_calcified _ _ Hlag Hp1). }
  destruct (k_pc k) as [| | | | |s|]; try done.
  - destruct Hpc. eauto.
  - destruct Hpc. eauto.
  - destruct Hpc. eauto.
  - destruct Hpc. eauto.
  - destruct Hpc as [[π Hw] Hpc]. split.
    { exists π. eapply evolves_walk; [by apply ages_evolves|done]. }
    destruct (s =? E_UNLOCKED); [done|]. destruct Hpc as (? & ? & ?). eauto.
Qed.

(** ** The invariant of the system *)
Record lin_ok root U (s : sys) (t : gmap K V * list status) : Prop := {
  lo_excl : excl s;
  lo_dom : dom t.1 ⊆ U;
  lo_table : ∃ g, iht_inv g root ∧ iht_abs g root t.1 ∧ view (held s.2) g s.1 ∧
    Forall2 (client_ok g root U) s.2 t.2 }.

(** One client's step, put together. *)
Lemma lin_ok_step root U g m ks M st j k x m' k' g2 M2 x2 l st1 :
  excl (m, ks) → iht_inv g root → Forall2 (client_ok g root U) ks st →
  ks !! j = Some k → st !! j = Some x → client_step m k = Done (m', k') →
  iht_inv g2 root → iht_abs g2 root M2 → ages g root g2 → dom M2 ⊆ U →
  view (held (<[j := k']> ks)) g2 m' → client_ok g2 root U k' x2 →
  traces peek_step (M, st) l (M2, st1) → st1 = <[j := x2]> st →
  ∃ t, traces peek_step (M, st) l t ∧ lin_ok root U (m', <[j := k']> ks) t.
Proof.
  intros Hex Hinv Hall Hk Hx Hs Hinv2 Habs2 Ha HM2 Hv2 Hok Htr ->.
  exists (M2, <[j := x2]> st). split; [done|]. split; cbn.
  - eapply (excl_step to_num ELIST_SIZE PLIST_SIZE cache_depth_ self_id palloc raw_elist); [exact Hex|].
    by eapply sys_client.
  - done.
  - exists g2. split_and!; [done..|]. apply Forall2_insert; [|done].
    eapply Forall2_impl; [done|]. intros. by eapply client_ok_ages.
Qed.

(** The buckets of a list of the table, in the memory. *)
Lemma view_bucket root ks g m k n q pl :
  iht_inv g root → view (held ks) g m → descent g root k n q pl →
  (n ≤ 7)%nat ∧ length pl = width n ∧ ∃ plm, m !! q = Some (OPlist plm) ∧
    plist_view (held ks) q pl plm ∧ length plm = width n ∧
    ∃ b c, pl !! bkt (k_key k) n = Some b ∧ (lock b = P_UNLOCKED ∨ lock b = E_UNLOCKED) ∧
      plm !! bkt (k_key k) n = Some c ∧ bucket_view (held ks) q (bkt (k_key k) n) b c.
Proof.
  intros Hinv Hv Hd.
  destruct (inv_plist _ _ _ _ _ Hinv _ _ (de_walk _ _ _ _ _ _ Hd)) as (Hn & pl' & Hq & Hlen & Hst).
  rewrite kpath_length in *. rewrite (de_plist _ _ _ _ _ _ Hd) in Hq. injection Hq as <-.
  destruct (view_plist _ _ _ _ _ Hv (de_plist _ _ _ _ _ _ Hd)) as (plm & Hqm & Hpv).
  pose proof Hpv as [Hlm _].
  destruct (lookup_lt_is_Some_2 pl (bkt (k_key k) n)) as [b Hb].
  { pose proof (bkt_lt to_num ELIST_SIZE PLIST_SIZE (k_key k) n). lia. }
  destruct (plist_view_lookup _ _ _ _ _ _ Hpv Hb) as (c & Hc & Hbc).
  split_and!; [done..|]. exists plm. split_and!; [done|done|congruence|].
  exists b, c. split_and!; eauto.
Qed.

(** What [obtain] or a re-fetch delivers is a view of the list. *)
Lemma obtained_view root ks g m q pl plm n π cp :
  iht_inv g root → view (held ks) g m → walk g root π = Some q → length π = n →
  g !! q = Some (OPlist pl) → plist_view (held ks) q pl plm →
  obtained PLIST_SIZE n pl plm cp → copy_view n pl cp.
Proof.
  intros Hinv Hv Hw Hπ Hq Hpv Hob.
  destruct (inv_plist _ _ _ _ _ Hinv _ _ Hw) as (Hn & pl' & Hq' & Hlen & Hst).
  rewrite Hπ in Hlen. rewrite Hq in Hq'. injection Hq' as <-.
  destruct Hob as [[Hcp Hsrc]|Hcal].
  - split; [|by left]. intros j Hj. destruct (lookup_lt_is_Some_2 pl j) as [b Hb]; [lia|].
    destruct (plist_view_lookup _ _ _ _ _ _ Hpv Hb) as (c & Hc & Hbc).
    exists b, c. rewrite Hcp. split_and!; [done..|].
    destruct Hbc as [->|(Hl & E & _)]; [by left|]. right. rewrite Hl. auto.
  - split.
    + intros j Hj. destruct (Hcal j Hj) as (b & H1 & H2 & _). exists b, b. split_and!; [done..|by left].
    + right. intros j c Hj Hc. destruct (Hcal j Hj) as (b & H1 & _ & H3). congruence.
Qed.

(** A bucket of a copy made just now. *)
Lemma obtained_bucket ks q pl plm n cp j b c :
  plist_view (held ks) q pl plm → obtained PLIST_SIZE n pl plm cp → (j < width n - 1)%nat →
  pl !! j = Some b → cp_plist cp !! j = Some c → base c = base b.
Proof.
  intros Hpv [[Hcp _]|Hcal] Hj Hb Hc.
  - rewrite Hcp in Hc. destruct Hpv as [_ Hall]. destruct (Hall _ _ _ Hb Hc) as [->|(_ & E & _)]; done.
  - destruct (Hcal j Hj) as (b' & H1 & H2 & _). congruence.
Qed.
(** ** One step of one client *)
Section step.
Context (root : remote_ptr) (U : gset K) (m : memory) (ks : list client) (M : gmap K V)
  (st : list status) (g : memory) (j : nat) (k : client) (x : status).
Hypotheses (Hcd : (cache_depth_ ≤ 2)%nat) (Hex : excl (m, ks)) (HM : dom M ⊆ U)
  (Hinv : iht_inv g root) (Habs : iht_abs g root M) (Hv : view (held ks) g m)
  (Hall : Forall2 (client_ok g root U) ks st) (Hk : ks !! j = Some k) (Hx : st !! j = Some x).

(** The client's step succeeds and is matched by steps of the atomic map. *)
Definition advances : Prop := ∃ m' k', client_step m k = Done (m', k') ∧
  ∃ t, traces peek_step (M, st) (step_event j k') t ∧ lin_ok root U (m', <[j := k']> ks) t.

Lemma client_j : client_ok g root U k x.
Proof. destruct (Forall2_lookup_lr _ _ _ _ _ _ Hall Hk Hx). by split. Qed.

(** A step that changes neither memory nor table, by a client that holds nothing. *)
Lemma advance_local k' x2 :
  client_step m k = Done (m, k') → (∀ a i s, ¬ holds_as k a i s) → k_pc k' ≠ PDone →
  client_ok g root U k' x2 → traces peek_step (M, st) [] (M, <[j := x2]> st) → advances.
Proof.
  intros Hs Hno Hpc Hok Htr. exists m, k'. split; [done|].
  assert (step_event j k' = []) as -> by (unfold step_event; by destruct (k_pc k')).
  eapply lin_ok_step; try done; [apply ages_refl|]. eapply view_mono; [done|].
  intros a i s. by eapply held_others.
Qed.

(** A client that has just read a null bucket notes that its key is absent. *)
Lemma note_absent k' n q pl :
  pending k' x → descent g root k' n q pl →
  (∀ b c, pl !! bkt (k_key k') n = Some b → cp_plist (c_curr (k_ctx k')) !! bkt (k_key k') n = Some c →
     base c = base b) →
  ∃ x', traces peek_step (M, st) [] (M, <[j := x']> st) ∧ pending k' x' ∧ noted k' n pl x'.
Proof.
  intros Hp Hd Hbase. assert (traces peek_step (M, st) [] (M, <[j := x]> st)) as Hstay
    by (rewrite list_insert_id by done; apply traces_nil).
  destruct (view_bucket _ _ _ _ _ _ _ _ Hinv Hv Hd) as (_ & _ & plm & _ & _ & _ & b & _ & Hb & Hst & _).
  assert (lock b = E_UNLOCKED ∧ is_null (base b) = true ∧ no_insert (k_op k') ∨
          ¬ (lock b = E_UNLOCKED ∧ is_null (base b) = true ∧ no_insert (k_op k'))) as [(Hl & Hnull & Ho)|Hno].
  { destruct (decide (lock b = E_UNLOCKED)), (is_null (base b)), (k_op k');
      first [left; by split_and!|right; by intros (? & ? & ?)]. }
  - assert (leaf g root (kpath (k_key k') n) (bkt (k_key k') n) q pl b) as Hleaf.
    { split_and!; [by eapply de_walk|by eapply de_plist|done|done]. }
    assert (M !! k_key k' = None) as Habsent.
    { destruct (leaf_view_of _ _ _ _ _ _ _ _ _ _ _ Hinv Habs Hleaf) as (l & e & Hlv).
      assert (e = None) as ->.
      { destruct (lv_elist _ _ _ _ _ _ _ _ _ _ _ _ _ Hlv) as [[_ ?]|[? _]]; [done|congruence]. }
      destruct (lv_none _ _ _ _ _ _ _ _ _ _ _ _ _ Hlv eq_refl) as [El _].
      destruct (M !! k_key k') as [v|] eqn:E; [|done].
      apply (lv_map _ _ _ _ _ _ _ _ _ _ _ _ _ Hlv) in E. rewrite El in E. by apply elem_of_nil in E. }
    exists (ASeen (k_op k') (k_key k')). split_and!; [|by right|done].
    destruct Hp as [-> | ->]; [|done]. apply traces_one. by apply peek_see.
  - exists x. split_and!; [done..|]. intros b' c Hb' Hc Hl Hnull Ho. exfalso. apply Hno.
    rewrite Hb in Hb'. injection Hb' as <-. rewrite (Hbase _ _ Hb Hc) in Hnull.
    destruct Hst as [?|?]; [done|]. done.
Qed.

Lemma not_holding : k_pc k ≠ PCrit → (∀ s, k_pc k ≠ PUnlock s) → ∀ a i s, ¬ holds_as k a i s.
Proof. intros H1 H2 a i s [[[? _]|?] _]; [done|by destruct (H2 s)]. Qed.

(** A list has been obtained: the client is at the head of its loop. *)
Lemma advance_fetched k' n q pl plm :
  client_step m k = Done (m, k') → (∀ a i s, ¬ holds_as k a i s) → k_pc k' = PLoop →
  k_root k' = root → k_key k' ∈ U → pending k' x → caches_ok g root (k_caches k') →
  m !! q = Some (OPlist plm) → plist_view (held ks) q pl plm →
  obtained PLIST_SIZE n pl plm (c_curr (k_ctx k')) →
  (copy_view n pl (c_curr (k_ctx k')) → descent g root k' n q pl) →
  walk g root (kpath (k_key k') n) = Some q → g !! q = Some (OPlist pl) → advances.
Proof.
  intros Hs Hno Hpc Hroot HU Hp Hc Hqm Hpv Hob Hd Hw Hq.
  pose proof (Hd (obtained_view _ _ _ _ _ _ _ _ _ _ Hinv Hv Hw (kpath_length _ _ _ _) Hq Hpv Hob)) as Hd'.
  destruct (note_absent k' n q pl Hp Hd') as (x' & Htr & Hp' & Hn).
  { intros b c Hb Hcc. eapply obtained_bucket; [done|done| |done|done].
    apply (bkt_lt to_num ELIST_SIZE PLIST_SIZE). }
  eapply advance_local; [done|done|congruence| |done].
  split; [done|]. split; [done|]. rewrite Hpc. split; [done|]. split; [done|]. by exists n, q, pl.
Qed.

Lemma calcified_view q pl plm :
  plist_view (held ks) q pl plm → ∀ i b, plm !! i = Some b → lock b = P_UNLOCKED → pl !! i = Some b.
Proof.
  intros [Hlm Hpv] i b Hb Hl. destruct (lookup_lt_is_Some_2 pl i) as [b0 Hb0].
  { rewrite <- Hlm. by eapply lookup_lt_Some. }
  destruct (Hpv _ _ _ Hb0 Hb) as [->|(Hl' & _)]; [done|]. by rewrite Hl in Hl'.
Qed.

Lemma advance_start : k_pc k = PStart → advances.
Proof.
  intros Hpc. destruct client_j as (Hroot & Hc & Hok). rewrite Hpc in Hok. destruct Hok as (HU & Hp & Hpath).
  destruct (inv_plist _ _ _ _ _ Hinv [] root eq_refl) as (_ & pl & Hq & Hlen & _).
  destruct (view_plist _ _ _ _ _ Hv Hq) as (plm & Hqm & Hpv). pose proof Hpv as [Hlm _].
  assert (path_at to_num PLIST_SIZE (k_key k) 0 (k_path k)) as Hat by (rewrite Hpath; apply path_at_init).
  destruct (obtain_view to_num ELIST_SIZE PLIST_SIZE cache_depth_ g m root (k_caches k) (k_key k) 0
    (k_path k) root pl plm Hcd Hc Hat eq_refl Hq Hqm) as (cp & c' & E & Hob & Hc').
  { cbn in *. congruence. }
  { by eapply calcified_view. }
  eapply advance_fetched with (n := 0%nat) (q := root) (pl := pl) (plm := plm).
  - unfold IhtRdma.client_step. rewrite Hpc, Hroot. change 0 with (Z.of_nat 0).
    rewrite E, bind_done. done.
  - apply not_holding; congruence.
  - done.
  - done.
  - done.
  - done.
  - done.
  - done.
  - done.
  - done.
  - intros Hcv. split; cbn; try done; [|by apply path_at_pre].
    unfold IhtInv.width. by rewrite Nat.mul_1_r.
  - done.
  - done.
Qed.
(** A client on its way down. *)
Lemma descending_state lf :
  descending g root k x lf → ∃ n q pl plm b c cm,
    pending k x ∧ descent g root k n q pl ∧ noted k n pl x ∧ (if lf then at_leaf k n else True) ∧
    (n ≤ 7)%nat ∧ length pl = width n ∧ m !! q = Some (OPlist plm) ∧
    plist_view (held ks) q pl plm ∧ length plm = width n ∧
    pl !! bkt (k_key k) n = Some b ∧ (lock b = P_UNLOCKED ∨ lock b = E_UNLOCKED) ∧
    plm !! bkt (k_key k) n = Some cm ∧ bucket_view (held ks) q (bkt (k_key k) n) b cm ∧
    cp_plist (c_curr (k_ctx k)) !! bkt (k_key k) n = Some c ∧ bucket_lag b c.
Proof.
  intros (Hp & n & q & pl & Hd & Hn & Hlf).
  destruct (view_bucket _ _ _ _ _ _ _ _ Hinv Hv Hd)
    as (Hn7 & Hlen & plm & Hqm & Hpv & Hlm & b & cm & Hb & Hst & Hcm & Hbv).
  destruct (de_copy _ _ _ _ _ _ Hd) as [Hcp _].
  destruct (Hcp _ (bkt_lt to_num ELIST_SIZE PLIST_SIZE (k_key k) n)) as (b' & c & Hb' & Hc & Hlag).
  rewrite Hb in Hb'. injection Hb' as <-. by exists n, q, pl, plm, b, c, cm.
Qed.

(** The head of the loop, on the bucket the client sees. *)
Lemma loop_step n q pl c :
  k_pc k = PLoop → (n ≤ 7)%nat → descent g root k n q pl →
  cp_plist (c_curr (k_ctx k)) !! bkt (k_key k) n = Some c →
  client_step m k =
    if lock c =? P_UNLOCKED then
      '(curr, c') ← obtain PLIST_SIZE cache_depth_ m (k_caches k)
         (<[n := Z.of_nat (bkt (k_key k) n)]> (k_path k)) (base c) (Z.of_nat (S n));
      Done (m, mkClient PLoop (k_root k) (k_key k) (k_op k)
                 (mkCtx (c_e (k_ctx k)) (c_bucket_base (k_ctx k)) (Z.of_nat (S n) + 1) (Z.of_nat (width n) * 2)
                        (bkt (k_key k) n) (base c) curr)
                 (<[n := Z.of_nat (bkt (k_key k) n)]> (k_path k)) c' (k_result k))
    else
      Done (m, mkClient PLock (k_root k) (k_key k) (k_op k)
                 (mkCtx (c_e (k_ctx k)) (c_bucket_base (k_ctx k)) (Z.of_nat n + 1) (Z.of_nat (width n))
                        (bkt (k_key k) n) q (c_curr (k_ctx k)))
                 (<[n := Z.of_nat (bkt (k_key k) n)]> (k_path k)) (k_caches k) (k_result k)).
Proof.
  intros Hpc Hn7 Hd Hc. unfold IhtRdma.client_step.
  rewrite Hpc, (de_depth _ _ _ _ _ _ Hd), (de_count _ _ _ _ _ _ Hd), (de_parent _ _ _ _ _ _ Hd).
  cbv zeta. rewrite (level_hash_bkt to_num ELIST_SIZE PLIST_SIZE), Nat2Z.id.
  rewrite (bkt_i32 to_num ELIST_SIZE PLIST_SIZE) by done.
  rewrite (proj2 (Z.leb_le (Z.of_nat n + 1) 8)) by lia. cbn [rome_undef].
  rewrite bind_done, Hc, defined_Some, bind_done.
  replace (Z.to_nat (Z.of_nat n + 1 - 1)) with n by lia.
  by replace (Z.of_nat n + 1) with (Z.of_nat (S n)) by lia.
Qed.

Lemma advance_loop : k_pc k = PLoop → advances.
Proof.
  intros Hpc. destruct client_j as (Hroot & Hca & Hok). rewrite Hpc in Hok. destruct Hok as [HU Hok].
  destruct (descending_state _ Hok) as (n & q & pl & plm & b & c & cm & Hp & Hd & Hn & _ & Hn7 & Hlen
    & Hqm & Hpv & Hlm & Hb & Hst & Hcm & Hbv & Hc & Hlag).
  assert (n < 8)%nat as Hn8 by lia. pose proof (path_pre_set _ _ _ _ _ Hn8 (de_path _ _ _ _ _ _ Hd)) as Hat.
  pose proof (loop_step _ _ _ _ Hpc Hn7 Hd Hc) as Hstep.
  destruct (Z.eqb_spec (lock c) P_UNLOCKED) as [Hl|Hl].
  - pose proof (bucket_lag_calcified _ _ Hlag Hl) as ->.
    assert (walk g root (kpath (k_key k) (S n)) = Some (base b)) as Hw.
    { rewrite kpath_S, walk_snoc, (de_walk _ _ _ _ _ _ Hd). apply child_Some.
      exists pl, b. split_and!; [by eapply de_plist|done..]. }
    destruct (inv_plist _ _ _ _ _ Hinv _ _ Hw) as (_ & pl' & Hq' & Hlen' & _).
    rewrite kpath_length in Hlen'.
    destruct (view_plist _ _ _ _ _ Hv Hq') as (plm' & Hqm' & Hpv').
    destruct (obtain_view to_num ELIST_SIZE PLIST_SIZE cache_depth_ g m root (k_caches k) (k_key k) (S n)
      _ (base b) pl' plm' Hcd Hca Hat Hw Hq' Hqm') as (cp & c' & E & Hob & Hc');
      [destruct Hpv'; congruence|by eapply calcified_view|].
    rewrite E, bind_done in Hstep.
    eapply advance_fetched with (n := S n) (q := base b); [exact Hstep|apply not_holding; congruence
      |done..|exact Hqm'|exact Hpv'|exact Hob| |done|done].
    intros Hcv. split; cbn; try done; [by rewrite width_S, Nat2Z.inj_mul|by apply path_at_pre].
  - eapply advance_local with (x2 := x); [exact Hstep|apply not_holding; congruence|done|
      |rewrite list_insert_id by done; apply traces_nil].
    split; [done|]. split; [done|]. cbn. split; [done|]. split; [done|]. exists n, q, pl.
    split; [|split; [done|]].
    + destruct Hd. split; cbn; try done. by apply path_at_searched.
    + split; [done|]. exists c. by split.
Qed.
(** A client that goes on with the same context. *)
Lemma descent_set_pc p n q pl : descent g root k n q pl → descent g root (set_pc k p) n q pl.
Proof. intros []. by split. Qed.

(** One attempt at the lock. *)
Lemma advance_lock : k_pc k = PLock → advances.
Proof.
  intros Hpc. destruct client_j as (Hroot & Hca & Hok). rewrite Hpc in Hok. destruct Hok as [HU Hok].
  destruct (descending_state _ Hok) as (n & q & pl & plm & b & c & cm & Hp & Hd & Hn & [Hi Hleaf] & Hn7 & Hlen
    & Hqm & Hpv & Hlm & Hb & Hst & Hcm & Hbv & Hc & Hlag).
  assert (client_step m k = Done
    (if lock cm =? E_UNLOCKED then <[q := OPlist (<[bkt (k_key k) n := mkBucket (base cm) E_LOCKED]> plm)]> m else m,
     set_pc k (if lock cm =? P_UNLOCKED then PRefetch else if lock cm =? E_UNLOCKED then PCrit else PLock)))
    as Hs.
  { unfold IhtRdma.client_step, cas_lock, read_plist. rewrite Hpc, (de_parent _ _ _ _ _ _ Hd), Hi, Hqm, bind_done.
    rewrite Hcm, defined_Some, bind_done. destruct (lock cm =? E_UNLOCKED) eqn:E; by rewrite bind_done, E. }
  assert (∀ p, p = PLock ∨ p = PRefetch ∨ p = PCrit → client_ok g root U (set_pc k p) x) as Hok'.
  { intros p Hpp. split; [done|]. split; [done|].
    assert (k_key k ∈ U ∧ descending g root (set_pc k p) x true) as Hgoal.
    { split; [done|]. split; [done|]. exists n, q, pl. split_and!; [by apply descent_set_pc|done|].
      by split. }
    by destruct Hpp as [->|[->| ->]]. }
  assert (∀ a i s, ¬ holds_as k a i s) as Hno by (apply not_holding; congruence).
  assert (traces peek_step (M, st) [] (M, <[j := x]> st)) as Htr
    by (rewrite list_insert_id by done; apply traces_nil).
  destruct (Z.eqb_spec (lock cm) E_UNLOCKED) as [El|Hne].
  - rewrite El in Hs. change (E_UNLOCKED =? P_UNLOCKED) with false in Hs. cbv iota in Hs.
    assert (cm = b) as -> by (destruct Hbv as [?|(Hl & _)]; [done|by rewrite El in Hl]).
    eexists _, _. split; [exact Hs|]. change (step_event j (set_pc k PCrit)) with (@nil event).
    eapply lin_ok_step; [done|done|done|done|done|done|done|done|by apply ages_refl|done|idtac|apply Hok'; auto|exact Htr|done].
    rewrite <- (insert_id g q _ (de_plist _ _ _ _ _ _ Hd)), <- (list_insert_id pl _ b Hb).
    eapply view_set_bucket; [exact Hv|by eapply de_plist|exact Hqm| |].
    + pose proof (held_moves ks j k (set_pc k PCrit) Hk) as Hmv.
      by rewrite (de_parent _ _ _ _ _ _ Hd), Hi in Hmv.
    + right. split_and!; [done..|]. rewrite El. apply held_own; [by eapply lookup_lt_Some|].
      split; [by left|]. split; [exact (de_parent _ _ _ _ _ _ Hd)|done].
  - eapply advance_local with (x2 := x); [exact Hs|done| |apply Hok'|exact Htr].
    + by case_match.
    + case_match; auto.
Qed.

(** The bucket turned out to be a pointer list: its list is read again. *)
Lemma advance_refetch : k_pc k = PRefetch → advances.
Proof.
  intros Hpc. destruct client_j as (Hroot & Hca & Hok). rewrite Hpc in Hok. destruct Hok as [HU Hok].
  destruct (descending_state _ Hok) as (n & q & pl & plm & b & c & cm & Hp & Hd & Hn & _ & Hn7 & Hlen
    & Hqm & Hpv & Hlm & Hb & Hst & Hcm & Hbv & Hc & Hlag).
  eapply advance_fetched with (n := n) (q := q) (pl := pl) (plm := plm).
  - unfold IhtRdma.client_step. rewrite Hpc, (de_parent _ _ _ _ _ _ Hd), (de_depth _ _ _ _ _ _ Hd).
    replace (Z.of_nat n + 1 - 1) with (Z.of_nat n) by lia.
    rewrite (fetch_plist_whole PLIST_SIZE m q plm n Hqm Hlm), bind_done. done.
  - apply not_holding; congruence.
  - done.
  - done.
  - done.
  - done.
  - done.
  - done.
  - done.
  - left. cbn. eauto.
  - intros Hcv. destruct Hd. by split.
  - exact (de_walk _ _ _ _ _ _ Hd).
  - exact (de_plist _ _ _ _ _ _ Hd).
Qed.

(** The bucket a client holds. *)
Lemma held_bucket q i s π :
  holds_as k q i s → walk g root π = Some q → ∃ pl plm b cm,
    g !! q = Some (OPlist pl) ∧ length pl = width (length π) ∧ (length π ≤ 7)%nat ∧
    m !! q = Some (OPlist plm) ∧ pl !! i = Some b ∧ plm !! i = Some cm ∧
    lock cm = E_LOCKED ∧ base cm = base b ∧ lock b = s.
Proof.
  intros Hh Hw. pose proof Hex as [Hlock _].
  destruct (Hlock _ _ _ _ Hk (holds_as_holds _ _ _ _ Hh)) as (cm & Hcm & Hl). cbn in Hcm.
  destruct (inv_plist _ _ _ _ _ Hinv _ _ Hw) as (Hn & pl & Hq & Hlen & Hst).
  destruct (view_plist _ _ _ _ _ Hv Hq) as (plm & Hqm & Hpv).
  unfold bucket_at in Hcm. rewrite Hqm in Hcm.
  assert (∃ b, pl !! i = Some b) as [b Hb].
  { destruct Hpv as [E _]. apply lookup_lt_is_Some_2. rewrite <- E. by eapply lookup_lt_Some. }
  destruct Hpv as [_ Hpv]. destruct (Hpv _ _ _ Hb Hcm) as [->|(_ & E & Hhb)].
  { destruct (Hst _ _ Hb) as [E|E]; by rewrite Hl in E. }
  exists pl, plm, b, cm. split_and!; try done. by eapply held_unique.
Qed.

(** The lock word is stored back. *)
Lemma advance_unlock s : k_pc k = PUnlock s → advances.
Proof.
  intros Hpc. destruct client_j as (Hroot & Hca & Hok). rewrite Hpc in Hok. destruct Hok as [[π Hw] Hok].
  set (q := c_parent_ptr (k_ctx k)) in *. set (i := c_bucket (k_ctx k)).
  assert (holds_as k q i s) as Hh by (split; [by right|done]).
  destruct (held_bucket _ _ _ _ Hh Hw) as (pl & plm & b & cm & Hq & _ & _ & Hqm & Hb & Hcm & Hl & E & Hs).
  set (k' := set_pc k (if s =? E_UNLOCKED then PDone else PLoop)).
  assert (client_step m k = Done (<[q := OPlist (<[i := b]> plm)]> m, k')) as Hstep.
  { unfold IhtRdma.client_step. rewrite Hpc. unfold unlock, write_bucket, read_plist. fold q i.
    rewrite Hqm, bind_done, Hcm, defined_Some, bind_done, bind_done, E, <- Hs. unfold k'. rewrite <- Hs. by destruct b. }
  assert (view (held (<[j := k']> ks)) g (<[q := OPlist (<[i := b]> plm)]> m)) as Hv'.
  { rewrite <- (insert_id g q _ Hq), <- (list_insert_id pl _ b Hb).
    eapply view_set_bucket; [exact Hv|exact Hq|exact Hqm|by apply held_moves|by left]. }
  assert (∃ x2, client_ok g root U k' x2 ∧ traces peek_step (M, st) (step_event j k') (M, <[j := x2]> st))
    as (x2 & Hok' & Htr).
  { unfold k'. destruct (s =? E_UNLOCKED).
    - exists AIdle. split; [by split|]. apply traces_one. apply peek_atom, atom_ret. by rewrite Hx, Hok.
    - destruct Hok as (_ & HU & Hp & n & q' & pl' & Hd & Hn & _). exists x. split.
      + split; [done|]. split; [done|]. split; [done|]. split; [done|]. exists n, q', pl'.
        split; [by apply descent_set_pc|done].
      + rewrite list_insert_id by done. apply traces_nil. }
  eexists _, _. split; [exact Hstep|].
  eapply lin_ok_step; [done|done|done|done|done|done|done|done|apply ages_refl|done|done|exact Hok'|exact Htr|done].
Qed.
(** Memory and table are as they were, and the bucket will be unlocked as it was. *)
Lemma view_kept k' q i :
  holds_as k q i E_UNLOCKED → holds_as k' q i E_UNLOCKED → view (held (<[j := k']> ks)) g m.
Proof.
  intros Hh Hh'. eapply view_mono; [exact Hv|]. intros a i' s Hs.
  destruct (decide ((a, i') = (q, i))) as [[= -> ->]|Hne].
  - rewrite (held_unique _ _ _ _ _ _ _ _ Hex Hk Hh Hs).
    apply held_own; [by eapply lookup_lt_Some|done].
  - pose proof Hh as (_ & Hq & Hi). apply (held_moves ks j k k' Hk a i'); [|done]. by rewrite Hq, Hi.
Qed.

(** In the critical section: the element list the client reads is the one of the table. *)
Lemma crit_read n q pl l b e c :
  leaf_view to_num ELIST_SIZE PLIST_SIZE g root M (k_key k) n q pl b l e → base c = base b →
  (if is_null (base c) then Done None
   else el ← read_elist m (base c); Done (Some el) : result (option (@EList K V))) = Done e.
Proof.
  intros Hlv ->. destruct (lv_elist _ _ _ _ _ _ _ _ _ _ _ _ _ Hlv) as [[-> ->]|(-> & el & -> & Hel)]; [done|].
  unfold read_elist. by rewrite (view_elist _ _ _ _ _ Hv Hel), bind_done.
Qed.

(** The copy after the bucket became a pointer list. *)
Lemma copy_view_split n pl cp i p :
  (i < length pl)%nat → copy_view n pl cp →
  copy_view n (<[i := mkBucket p P_UNLOCKED]> pl) (mkCached (<[i := mkBucket p P_UNLOCKED]> (cp_plist cp)) (cp_source cp)).
Proof.
  intros Hi [Hcp Hsrc]. split.
  - intros i' Hi'. destruct (Hcp i' Hi') as (b & c & Hb & Hc & Hlag). cbn [cp_plist].
    destruct (decide (i = i')) as [<-|Hne].
    + exists (mkBucket p P_UNLOCKED), (mkBucket p P_UNLOCKED).
      rewrite !list_lookup_insert_eq by by eapply lookup_lt_Some. split_and!; [done..|by left].
    + exists b, c. by rewrite !list_lookup_insert_ne.
  - destruct Hsrc as [?|Hsrc]; [by left|right]. cbn [cp_plist]. intros i' c Hi' Hc.
    apply list_lookup_insert_Some in Hc as [(_ & <- & _)|[_ Hc]]; [done|eauto].
Qed.

(** A leaf is only looked at through a copy of its own. *)
Lemma leaf_source n q pl :
  descent g root k n q pl → at_leaf k n → ∃ s, cp_source (c_curr (k_ctx k)) = Fetched s.
Proof.
  intros Hd (_ & c & Hc & Hl). destruct (de_copy _ _ _ _ _ _ Hd) as [_ [?|Hcal]]; [done|].
  destruct Hl. eapply Hcal; [apply (bkt_lt to_num ELIST_SIZE PLIST_SIZE)|exact Hc].
Qed.

(** An operation on a fresh copy of the base pointer. *)
Abbreviation crit_outcome :=
  (crit_outcome to_num ELIST_SIZE PLIST_SIZE self_id palloc raw_elist (held ks) g m root M).

Definition crit_next n q b e cur' res (fin : bool) : client :=
  mkClient (PUnlock (left_as fin)) (k_root k) (k_key k) (k_op k)
    (mkCtx e (base b) (Z.of_nat n + 1) (Z.of_nat (width n)) (bkt (k_key k) n) q cur')
    (k_path k) (k_caches k) res.

Lemma crit_step n q pl b l e c m2 g2 M2 cur' res fin src :
  k_pc k = PCrit → descent g root k n q pl → c_bucket (k_ctx k) = bkt (k_key k) n →
  leaf_view to_num ELIST_SIZE PLIST_SIZE g root M (k_key k) n q pl b l e →
  cp_plist (c_curr (k_ctx k)) !! bkt (k_key k) n = Some c → base c = base b →
  cp_source (c_curr (k_ctx k)) = Fetched src →
  crit_outcome (k_key k) n q pl b e (c_curr (k_ctx k)) (k_op k) m2 g2 M2 cur' res fin →
  client_step m k = Done (m2, crit_next n q b e cur' res fin).
Proof.
  intros Hpc Hd Hi Hlv Hc Hbc Hsrc Ho. unfold IhtRdma.client_step.
  rewrite Hpc, (de_depth _ _ _ _ _ _ Hd), (de_count _ _ _ _ _ _ Hd), (de_parent _ _ _ _ _ _ Hd), Hi.
  rewrite Hc, defined_Some, bind_done, (crit_read _ _ _ _ _ _ _ Hlv Hbc), bind_done, Hbc.
  destruct Ho as [Happ _ _ _ _ Hfin Hsplit]. rewrite Happ, bind_done. cbn [c_curr].
  assert (cp_source cur' = Fetched src) as ->; [|done].
  destruct fin; [by destruct (Hfin eq_refl) as [-> _]|].
  by destruct (Hsplit eq_refl) as (_ & _ & _ & p & pl2 & -> & _).
Qed.

Lemma crit_next_view n q pl b e m2 g2 M2 cur' res fin :
  descent g root k n q pl → c_bucket (k_ctx k) = bkt (k_key k) n →
  crit_outcome (k_key k) n q pl b e (c_curr (k_ctx k)) (k_op k) m2 g2 M2 cur' res fin →
  view (held (<[j := crit_next n q b e cur' res fin]> ks)) g2 m2 ∧
  walk g2 root (kpath (k_key k) n) = Some q ∧ caches_ok g2 root (k_caches k).
Proof.
  intros Hd Hi Ho. assert (evolves g root g2) as Hev by (apply ages_evolves; by destruct Ho).
  split_and!.
  - eapply co_view; [exact Ho|..].
    + pose proof (held_moves ks j k (crit_next n q b e cur' res fin) Hk) as Hmv.
      by rewrite (de_parent _ _ _ _ _ _ Hd), Hi in Hmv.
    + apply held_own; [by eapply lookup_lt_Some|]. split; [by right|done].
  - eapply evolves_walk; [done|exact (de_walk _ _ _ _ _ _ Hd)].
  - destruct client_j as (_ & Hca & _). by eapply caches_ok_evolves.
Qed.

Lemma pending_apply o key M2 res x' :
  x' = ACalled o key ∨ x' = ASeen o key → st !! j = Some x' → spec_op o key M = (M2, res) →
  traces peek_step (M, st) [] (M2, <[j := AAnswered res]> st).
Proof.
  intros Hp Hx' Hspec. apply traces_one. destruct Hp as [-> | ->].
  - apply peek_atom. pose proof (atom_apply M st j o key Hx') as Ht. by rewrite Hspec in Ht.
  - pose proof (peek_apply M st j o key Hx') as Ht. by rewrite Hspec in Ht.
Qed.

Lemma advance_crit_fresh n q pl plm b cm c :
  k_pc k = PCrit → k_key k ∈ U → pending k x → room to_num ELIST_SIZE PLIST_SIZE (k_op k) (k_key k) M →
  descent g root k n q pl → at_leaf k n → (n ≤ 7)%nat →
  leaf g root (kpath (k_key k) n) (bkt (k_key k) n) q pl b →
  m !! q = Some (OPlist plm) → plm !! bkt (k_key k) n = Some cm → base cm = base b → lock cm = E_LOCKED →
  cp_plist (c_curr (k_ctx k)) !! bkt (k_key k) n = Some c → base c = base b → advances.
Proof.
  intros Hpc HU Hp Hroom Hd Hat Hn7 Hleaf Hqm Hcm Hbm Hlm Hc Hbc.
  destruct client_j as (Hroot & Hca & _). pose proof Hat as [Hi _].
  destruct (leaf_source _ _ _ Hd Hat) as [src Hsrc]. pose proof Hleaf as (_ & _ & Hb & _).
  destruct (leaf_view_of _ _ _ _ _ _ _ _ _ _ _ Hinv Habs Hleaf) as (l & e & Hlv).
  destruct (crit_spec to_num ELIST_SIZE PLIST_SIZE self_id palloc raw_elist (held ks) g m root M (k_key k) n
    q pl plm b cm c l e (c_curr (k_ctx k)) Hinv Habs Hv Hlv Hn7 Hqm Hcm Hbm Hlm Hc Hbc (k_op k) Hroom)
    as (m2 & g2 & M2 & cur' & res & fin & Ho).
  pose proof (crit_step _ _ _ _ _ _ _ _ _ _ _ _ _ _ Hpc Hd Hi Hlv Hc Hbc Hsrc Ho) as Hstep.
  destruct (crit_next_view _ _ _ _ _ _ _ _ _ _ _ Hd Hi Ho) as (Hv' & Hw2 & Hca2).
  destruct Ho as [_ Hinv2 Habs2 Ha _ Hfin Hsplit]. set (k' := crit_next n q b e cur' res fin) in *.
  exists m2, k'. split; [exact Hstep|]. change (step_event j k') with (@nil event). destruct fin.
  - destruct (Hfin eq_refl) as [-> Hspec].
    eapply lin_ok_step with (x2 := AAnswered res);
      [exact Hex|exact Hinv|exact Hall|exact Hk|exact Hx|exact Hstep|exact Hinv2|exact Habs2|exact Ha| |exact Hv'
      | |by eapply pending_apply|done].
    + pose proof (spec_op_dom U M (k_op k) (k_key k) HM HU) as HM2. by rewrite Hspec in HM2.
    + split; [done|]. split; [done|]. split; [by eexists|done].
  - destruct (Hsplit eq_refl) as (-> & Hn & _ & p & pl2 & -> & Hq2 & ->).
    eapply lin_ok_step with (x2 := x) (st1 := st);
      [exact Hex|exact Hinv|exact Hall|exact Hk|exact Hx|exact Hstep|exact Hinv2|exact Habs2|exact Ha|exact HM
      |exact Hv'| |apply traces_nil|by rewrite list_insert_id].
    split; [done|]. split; [done|]. split; [by eexists|]. split; [done|]. split; [done|]. split; [done|].
    eexists n, q, _. split; [|split; [|done]].
    + split; [done|done|done|exact Hw2|exact Hq2| |exact (de_path _ _ _ _ _ _ Hd)].
      cbn. apply copy_view_split; [by eapply lookup_lt_Some|exact (de_copy _ _ _ _ _ _ Hd)].
    + intros b' c' Hb' _ Hl'. cbn in Hb'.
      rewrite list_lookup_insert_eq in Hb' by by eapply lookup_lt_Some. by injection Hb' as <-.
Qed.

(** A lookup or removal on a null copy of a base pointer that is set by now. *)
Lemma advance_crit_stale n q pl plm b cm c :
  k_pc k = PCrit → x = ASeen (k_op k) (k_key k) → no_insert (k_op k) →
  descent g root k n q pl → at_leaf k n → lock b = E_UNLOCKED → pl !! bkt (k_key k) n = Some b →
  m !! q = Some (OPlist plm) → plm !! bkt (k_key k) n = Some cm → base cm = base b → lock cm = E_LOCKED →
  cp_plist (c_curr (k_ctx k)) !! bkt (k_key k) n = Some c → is_null (base c) = true → advances.
Proof.
  intros Hpc Hseen Ho Hd Hat Hl Hb Hqm Hcm Hbm Hlm Hc Hnull.
  destruct client_j as (Hroot & Hca & _). pose proof Hat as [Hi _].
  destruct (leaf_source _ _ _ Hd Hat) as [src Hsrc].
  set (k' := mkClient (PUnlock E_UNLOCKED) (k_root k) (k_key k) (k_op k)
    (mkCtx None (base c) (Z.of_nat n + 1) (Z.of_nat (width n)) (bkt (k_key k) n) q (c_curr (k_ctx k)))
    (k_path k) (k_caches k) None).
  assert (client_step m k = Done (m, k')) as Hstep.
  { unfold IhtRdma.client_step. rewrite Hpc, (de_depth _ _ _ _ _ _ Hd), (de_count _ _ _ _ _ _ Hd),
      (de_parent _ _ _ _ _ _ Hd), Hi, Hc, defined_Some, bind_done, Hnull, bind_done. cbn zeta.
    assert (∀ mm ctx, c_e ctx = None → apply to_num ELIST_SIZE PLIST_SIZE self_id palloc raw_elist mm
      (k_key k) (k_op k) ctx = Done (mm, ctx, None, true)) as ->.
    { intros mm ctx Hctx. destruct (k_op k); [|done|]; cbn; unfold apply_contains; by rewrite Hctx. }
    - rewrite bind_done. cbn [c_curr]. by rewrite Hsrc.
    - done. }
  exists m, k'. split; [exact Hstep|]. change (step_event j k') with (@nil event).
  eapply lin_ok_step with (x2 := AAnswered None);
    [exact Hex|exact Hinv|exact Hall|exact Hk|exact Hx|exact Hstep|exact Hinv|exact Habs
    |apply ages_refl|exact HM| | | |done].
  - apply (view_kept k' q (bkt (k_key k) n)); (split; [auto|]);
      [split; [exact (de_parent _ _ _ _ _ _ Hd)|done]|done].
  - split; [done|]. split; [done|]. split; [|done]. eexists. exact (de_walk _ _ _ _ _ _ Hd).
  - apply traces_one. eapply peek_commit. by rewrite Hx, Hseen.
Qed.

Lemma advance_crit : spread U → k_pc k = PCrit → ¬ stale_insert m k → advances.
Proof.
  intros HU Hpc Hfresh. destruct client_j as (Hroot & Hca & Hok). rewrite Hpc in Hok. destruct Hok as [HkU Hok].
  destruct (descending_state _ Hok) as (n & q & pl & plm & b & c & cm & Hp & Hd & Hn & Hat & Hn7 & Hlen
    & Hqm & Hpv & Hlm & Hb & Hst & Hcm & Hbv & Hc & Hlag).
  pose proof Hat as [Hi (c0 & Hc0 & Hc0l)]. rewrite Hc in Hc0. injection Hc0 as <-.
  assert (holds_as k q (bkt (k_key k) n) E_UNLOCKED) as Hh.
  { split; [by left|]. split; [exact (de_parent _ _ _ _ _ _ Hd)|done]. }
  destruct (held_bucket _ _ _ _ Hh (de_walk _ _ _ _ _ _ Hd))
    as (pl0 & plm0 & b0 & cm0 & Hq0 & _ & _ & Hqm0 & Hb0 & Hcm0 & Hl & Hbm & Hbl).
  rewrite (de_plist _ _ _ _ _ _ Hd) in Hq0. injection Hq0 as <-. rewrite Hqm in Hqm0. injection Hqm0 as <-.
  rewrite Hb in Hb0. injection Hb0 as <-. rewrite Hcm in Hcm0. injection Hcm0 as <-.
  assert (leaf g root (kpath (k_key k) n) (bkt (k_key k) n) q pl b) as Hleaf.
  { split_and!; [exact (de_walk _ _ _ _ _ _ Hd)|exact (de_plist _ _ _ _ _ _ Hd)|done|done]. }
  assert (base c = base b ∨ (is_null (base c) = true ∧ is_null (base b) = false)) as [Hbc|[Hnull Hnn]].
  { destruct Hlag as [->|[_ [Hnull|[?|Hp1]]]]; [by left| |by left|by rewrite Hbl in Hp1].
    destruct (is_null (base b)) eqn:Hnb; [left; by apply is_null_eq|by right]. }
  - eapply advance_crit_fresh; try done. by eapply spread_room.
  - assert (no_insert (k_op k)) as Ho.
    { destruct (k_op k) as [|v|] eqn:Eo; [done| |done]. destruct Hfresh. split; [done|].
      split; [rewrite Eo; by intros []|]. exists c, cm. rewrite Hi, (de_parent _ _ _ _ _ _ Hd). split_and!; [done|done| |congruence].
      unfold bucket_at. by rewrite Hqm. }
    eapply advance_crit_stale; try done. eapply Hn; [exact Hb|exact Hc|by rewrite Hbl|done|done].
Qed.

(** Every step of a client that is in a call. *)
Lemma advance : spread U → k_pc k ≠ PDone → ¬ stale_insert m k → advances.
Proof.
  intros HU Hpc Hfresh. destruct (k_pc k) as [| | | | |s|] eqn:E; [| | | | | |done].
  - by apply advance_start.
  - by apply advance_loop.
  - by apply advance_lock.
  - by apply advance_refetch.
  - by apply advance_crit.
  - by eapply advance_unlock.
Qed.
End step.
(** ** Histories *)
Lemma calm_step_ok root U s l s' t :
  (cache_depth_ ≤ 2)%nat → spread U → lin_ok root U s t → calm U s l s' →
  ∃ t', traces peek_step t l t' ∧ lin_ok root U s' t'.
Proof.
  intros Hcd HU [Hex HM (g & Hinv & Habs & Hv & Hall)] (Hs & Hcalm & Hkeys).
  destruct t as [M st]. destruct Hs as [m ks j k o key Hk Hpc|m ks j k m' k' Hk Hpc Hs]; cbn in *.
  - destruct (Forall2_lookup_l _ _ _ _ _ Hall Hk) as (x & Hx & Hok).
    pose proof Hok as (Hroot & Hca & Hx'). rewrite Hpc in Hx'. subst x.
    set (k' := call PLIST_SIZE (k_root k) (k_caches k) key o).
    assert (∀ a i s, ¬ holds_as k a i s) as Hno by (intros a i s [[[? _]|?] _]; congruence).
    exists (M, <[j := ACalled o key]> st). split; [by apply traces_one, peek_atom, atom_call|]. split; cbn.
    + destruct Hex as [H1 H2]. cbn in H1, H2. assert (∀ a i, ¬ holds k' a i) as Hno' by (by intros a i [[?|[? ?]] _]).
      split; cbn.
      * intros j' k2 a i Hj Hh. apply list_lookup_insert_Some in Hj as [(_ & <- & _)|[_ Hj]];
          [by destruct (Hno' a i)|by eapply H1].
      * intros j1 j2 k1 k2 a i Hj1 Hj2 Hh1 Hh2.
        apply list_lookup_insert_Some in Hj1 as [(_ & <- & _)|[_ Hj1]]; [by destruct (Hno' a i)|].
        apply list_lookup_insert_Some in Hj2 as [(_ & <- & _)|[_ Hj2]]; [by destruct (Hno' a i)|].
        by eapply H2.
    + done.
    + exists g. split_and!; [done|done| |].
      * eapply view_mono; [exact Hv|]. intros a i s. by eapply held_others.
      * apply Forall2_insert; [done|]. split; [done|]. split; [done|]. cbn.
        split; [eapply Hkeys; by apply list_elem_of_singleton|]. split; [by left|done].
  - destruct (Forall2_lookup_l _ _ _ _ _ Hall Hk) as (x & Hx & Hok).
    destruct (advance root U m ks M st g j k x Hcd Hex HM Hinv Habs Hv Hall Hk Hx HU Hpc (Hcalm _ _ Hk))
      as (m2 & k2 & Hs2 & t & Ht & Hok'). rewrite Hs in Hs2. apply done_pair in Hs2 as [<- <-]. eauto.
Qed.

Lemma lin_ok_init m n (ca : caches) key0 U :
  RdmaIHT_new PLIST_SIZE = Done ca →
  lin_ok (InitAsFirst PLIST_SIZE palloc m).1 U
    ((InitAsFirst PLIST_SIZE palloc m).2, replicate n (idle (InitAsFirst PLIST_SIZE palloc m).1 ca key0))
    (∅, replicate n AIdle).
Proof.
  intros Hc. pose proof (InitAsFirst_inv to_num ELIST_SIZE PLIST_SIZE palloc m) as Hinit.
  destruct (InitAsFirst PLIST_SIZE palloc m) as [root m']. destruct Hinit as [Hinv Habs]. cbn [fst snd].
  set (k0 := idle root ca key0).
  assert (∀ j k, replicate n k0 !! j = Some k → k = k0) as Hk0 by by intros j k [-> _]%lookup_replicate.
  split; cbn.
  - split; cbn; [intros j k a i ->%Hk0 [[?|[? ?]] _]|intros j j' k k' a i ->%Hk0 _ [[?|[? ?]] _]]; done.
  - by rewrite dom_empty.
  - exists m'. split_and!; [done|done|apply view_refl|]. apply Forall2_replicate.
    split; [done|]. split; [|done]. by eapply caches_ok_new.
Qed.

(** C1: linearizability of the one-sided table. Whatever number of clients call lookups,
    insertions and removals on keys of which no more than fit into one bucket collide on
    every level, and however their remote accesses interleave: as long as no insertion works
    on a stale null base pointer, the history of calls and returns is a history of an atomic
    finite map, in which each call takes effect at one moment between its call and its
    return; when no call is pending the table satisfies its invariant and represents that
    map. *)
Theorem iht_linearizable m n (ca : caches) key0 U tr m' ks :
  (cache_depth_ ≤ 2)%nat → spread U → RdmaIHT_new PLIST_SIZE = Done ca →
  traces (calm U) ((InitAsFirst PLIST_SIZE palloc m).2,
                   replicate n (idle (InitAsFirst PLIST_SIZE palloc m).1 ca key0)) tr (m', ks) →
  ∃ M st, traces atom_step (∅, replicate n AIdle) tr (M, st) ∧
    ((∀ j k, ks !! j = Some k → k_pc k = PDone) →
     st = replicate n AIdle ∧ iht_inv m' (InitAsFirst PLIST_SIZE palloc m).1 ∧
     iht_abs m' (InitAsFirst PLIST_SIZE palloc m).1 M).
Proof.
  intros Hcd HU Hc Htr. pose proof (lin_ok_init m n ca key0 U Hc) as Hinit.
  set (root := (InitAsFirst PLIST_SIZE palloc m).1) in *.
  destruct (forward_simulation (calm U) peek_step (lin_ok root U) _ _ _ _
    (λ s1 l s2 t1 HR Hs, calm_step_ok root U s1 l s2 t1 Hcd HU HR Hs) Hinit Htr) as ([M st] & Ht & Hok).
  exists M, (settle <$> st). split; [by apply peek_atomic|]. intros Hdone.
  destruct Hok as [_ _ (g & Hinv & Habs & Hv & Hall)]. cbn in *.
  rewrite (view_quiet _ _ _ Hdone Hv) in *. split_and!; [|done|done].
  pose proof (peek_traces_length _ _ _ Ht) as Hlen. cbn in Hlen. rewrite length_replicate in Hlen.
  apply list_eq. intros j. rewrite list_lookup_fmap. destruct (st !! j) as [x|] eqn:Ex; cbn.
  - destruct (Forall2_lookup_r _ _ _ _ _ Hall Ex) as (k & Hk & (_ & _ & Hx)). rewrite (Hdone _ _ Hk) in Hx. subst x.
    symmetry. apply lookup_replicate_2. rewrite <- Hlen. by eapply lookup_lt_Some.
  - symmetry. apply lookup_replicate_None. rewrite <- Hlen. by apply lookup_ge_None.
Qed.

(** C3: no client of such a system ever runs into a fault: in every reachable state each
    client that is in a call can make its next step. *)
Theorem iht_no_fault m n (ca : caches) key0 U tr m' ks j k :
  (cache_depth_ ≤ 2)%nat → spread U → RdmaIHT_new PLIST_SIZE = Done ca →
  traces (calm U) ((InitAsFirst PLIST_SIZE palloc m).2,
                   replicate n (idle (InitAsFirst PLIST_SIZE palloc m).1 ca key0)) tr (m', ks) →
  ks !! j = Some k → k_pc k ≠ PDone → ¬ stale_insert m' k →
  ∃ m2 k2, client_step m' k = Done (m2, k2).
Proof.
  intros Hcd HU Hc Htr Hk Hpc Hfresh. pose proof (lin_ok_init m n ca key0 U Hc) as Hinit.
  set (root := (InitAsFirst PLIST_SIZE palloc m).1) in *.
  destruct (forward_simulation (calm U) peek_step (lin_ok root U) _ _ _ _
    (λ s1 l s2 t1 HR Hs, calm_step_ok root U s1 l s2 t1 Hcd HU HR Hs) Hinit Htr) as ([M st] & _ & Hok).
  destruct Hok as [Hex HM (g & Hinv & Habs & Hv & Hall)]. cbn in *.
  destruct (Forall2_lookup_l _ _ _ _ _ Hall Hk) as (x & Hx & _).
  destruct (advance root U m' ks M st g j k x Hcd Hex HM Hinv Habs Hv Hall Hk Hx HU Hpc Hfresh)
    as (m2 & k2 & Hs & _). eauto.
Qed.
End lin.

(** ** Executable histories *)
Inductive action {K V : Type} := Calls (j : nat) (o : @op V) (key : K) | Moves (j : nat).
Arguments action : clear implicits.

Definition is_done {K V} (k : @client K V) : bool := match k_pc k with PDone => true | _ => false end.

Definition stale_insertb {K V} (m : gmap remote_ptr (@obj K V)) (k : @client K V) : bool :=
  match k_pc k, k_op k, cp_plist (c_curr (k_ctx k)) !! c_bucket (k_ctx k),
        bucket_at m (c_parent_ptr (k_ctx k)) (c_bucket (k_ctx k)) with
  | PCrit, Insert _, Some c, Some b => is_null (base c) && negb (is_null (base b))
  | _, _, _, _ => false
  end.

Lemma stale_insertb_false {K V} (m : gmap remote_ptr (@obj K V)) (k : @client K V) :
  stale_insertb m k = false → ¬ stale_insert m k.
Proof.
  unfold stale_insertb. intros E (Hpc & Ho & c & b & Hc & Hnull & Hb & Hnn).
  rewrite Hpc, Hc, Hb, Hnull, Hnn in E. destruct (k_op k); [by destruct Ho|done|by destruct Ho].
Qed.

Section run.
Context {K V : Type} `{Countable K}.
Context (to_num : K → Z) (ELIST_SIZE PLIST_SIZE cache_depth_ : nat) (self_id : Z).
Context (palloc : gmap remote_ptr (@obj K V) → remote_ptr) (raw_elist : @EList K V) (U : gset K).
Abbreviation sys := (gmap remote_ptr (@obj K V) * list (@client K V))%type.

(** One action of a calm history. *)
Definition hist_act (a : action K V) (s : sys) : option (list (@event K V) * sys) :=
  if existsb (stale_insertb s.1) s.2 then None else
  match a with
  | Calls j o key =>
      k ← s.2 !! j;
      if is_done k && bool_decide (key ∈ U)
      then Some ([ECall j o key], (s.1, <[j := call PLIST_SIZE (k_root k) (k_caches k) key o]> s.2))
      else None
  | Moves j =>
      k ← s.2 !! j;
      if is_done k then None else
      match client_step to_num ELIST_SIZE PLIST_SIZE cache_depth_ self_id palloc raw_elist s.1 k with
      | Done (m', k') => Some (step_event j k', (m', <[j := k']> s.2))
      | Fault _ => None
      end
  end.

Fixpoint hist_run (acts : list (action K V)) (s : sys) : option (list (@event K V) * sys) :=
  match acts with
  | [] => Some ([], s)
  | a :: acts' => '(l, s1) ← hist_act a s; '(tr, s2) ← hist_run acts' s1; Some (l ++ tr, s2)
  end.

Lemma hist_act_calm a s l s' :
  hist_act a s = Some (l, s') →
  calm to_num ELIST_SIZE PLIST_SIZE cache_depth_ self_id palloc raw_elist U s l s'.
Proof.
  unfold hist_act. destruct s as [m ks]. cbn [fst snd]. destruct (existsb _ _) eqn:Ex; [done|]. intros Ha.
  assert (∀ j k, ks !! j = Some k → ¬ stale_insert m k) as Hcalm.
  { intros j k Hk. apply stale_insertb_false. destruct (stale_insertb m k) eqn:E; [|done].
    rewrite <- Ex. symmetry. apply existsb_exists. exists k. split; [|done].
    apply list_elem_of_In. by eapply list_elem_of_lookup_2. }
  destruct a as [j o key|j]; destruct (ks !! j) as [k|] eqn:Hk; try done; cbn in Ha; unfold is_done in Ha.
  - destruct (k_pc k) eqn:Hpc; try done. cbn in Ha. case_bool_decide; [|done]. injection Ha as <- <-.
    split; [by apply hist_call|]. split; [done|]. by intros j' o' key' [= -> -> ->]%list_elem_of_singleton.
  - assert (k_pc k ≠ PDone ∧ ∃ m' k', client_step to_num ELIST_SIZE PLIST_SIZE cache_depth_ self_id palloc
      raw_elist m k = Done (m', k') ∧ l = step_event j k' ∧ s' = (m', <[j := k']> ks))
      as (Hpc & m' & k' & Hs & -> & ->).
    { destruct (k_pc k); try done; (split; [done|]);
        destruct (client_step _ _ _ _ _ _ _ m k) as [[m' k']|]; try done; injection Ha as <- <-; eauto. }
    split; [by eapply hist_move|]. split; [done|]. intros j' o' key' Hin.
    unfold step_event in Hin. destruct (k_pc k'); (by apply elem_of_nil in Hin) || by apply list_elem_of_singleton in Hin.
Qed.

Lemma hist_run_traces acts s tr s' :
  hist_run acts s = Some (tr, s') →
  traces (calm to_num ELIST_SIZE PLIST_SIZE cache_depth_ self_id palloc raw_elist U) s tr s'.
Proof.
  revert s tr. induction acts as [|a acts IH]; intros s tr; cbn.
  { intros [= <- <-]. apply traces_nil. }
  destruct (hist_act a s) as [[l s1]|] eqn:Ea; [|done]. cbn.
  destruct (hist_run acts s1) as [[tr1 s2]|] eqn:Er; [|done]. cbn. intros [= <- <-].
  eapply traces_cons; [by eapply hist_act_calm|by apply IH].
Qed.
End run.

(** Two clients. Client 1 reads the empty root for its lookup of key 1, client 0 then inserts
    key 1 and returns before the lookup does, which answers from its stale copy; two more
    insertions split the bucket. *)
Definition ex_keys : gset Z := {[ 1; 3; 7 ]}.
Definition ex_actions : list (action Z Z) :=
  [Calls 0 (Insert 10) 1; Calls 1 Contains 1; Moves 1; Moves 1] ++ replicate 5 (Moves 0) ++
  replicate 3 (Moves 1) ++ [Calls 1 (Insert 30) 3] ++ replicate 5 (Moves 1) ++
  [Calls 0 (Insert 70) 7; Calls 1 Contains 3] ++ replicate 4 (Moves 0) ++ replicate 3 (Moves 1) ++
  replicate 6 (Moves 0) ++ replicate 7 (Moves 1).
Definition ex_hist := hist_run (λ x : Z, u64 x) 2 4 2 0 next_block (raw_zz 2) ex_keys ex_actions
  (ex_mem, replicate 2 (idle 4 ex_root ex_caches 0)).
Definition ex_trace : list (@event Z Z) := match ex_hist with Some (tr, _) => tr | None => [] end.
Definition ex_final := match ex_hist with Some (_, s) => s | None => (∅, []) end.

Lemma ex_hist_calm :
  traces (calm (λ x : Z, u64 x) 2 4 2 0 next_block (raw_zz 2) ex_keys)
    ((InitAsFirst 4 next_block (∅ : gmap remote_ptr (@obj Z Z))).2,
     replicate 2 (idle 4 (InitAsFirst 4 next_block (∅ : gmap remote_ptr (@obj Z Z))).1 ex_caches 0))
    ex_trace (ex_final.1, ex_final.2).
Proof. apply (hist_run_traces _ _ _ _ _ _ _ _ ex_actions). vm_compute. reflexivity. Qed.

Lemma ex_keys_spread : spread (λ x : Z, u64 x) 2 4 ex_keys.
Proof.
  assert (set_Forall (λ key, (size (filter (λ key', IhtInv.kpath (λ x : Z, u64 x) 4 key' 8 =
    IhtInv.kpath (λ x : Z, u64 x) 4 key 8) ex_keys) ≤ 2)%nat) ex_keys) as Hall.
  { apply (bool_decide_unpack _). vm_compute. exact I. }
  exact Hall.
Qed.

Lemma iht_linearizable_witness :
  ex_trace = [ECall 0 (Insert 10) 1; ECall 1 Contains 1; ERet 0 None; ERet 1 None;
              ECall 1 (Insert 30) 3; ERet 1 None; ECall 0 (Insert 70) 7; ECall 1 Contains 3;
              ERet 0 None; ERet 1 (Some 30)] ∧
  ∃ M, traces atom_step (∅, replicate 2 AIdle) ex_trace (M, replicate 2 AIdle) ∧
    iht_abs 2 ex_final.1 (InitAsFirst 4 next_block (∅ : gmap remote_ptr (@obj Z Z))).1 M.
Proof.
  split; [vm_compute; reflexivity|].
  destruct (iht_linearizable (λ x : Z, u64 x) 2 4 2 0 next_block (raw_zz 2) ∅ 2 ex_caches 0 ex_keys
    ex_trace ex_final.1 ex_final.2) as (M & st & Htr & Hend).
  - lia.
  - apply ex_keys_spread.
  - reflexivity.
  - apply ex_hist_calm.
  - assert (Forall (λ k, is_done k = true) ex_final.2) as Hall by (vm_compute; repeat constructor).
    destruct Hend as (-> & _ & Habs).
    + intros j k Hk. apply (Forall_lookup_1 _ _ _ _ Hall) in Hk. unfold is_done in Hk.
      destruct (k_pc k); congruence.
    + exists M. split; [exact Htr|exact Habs].
Defined.

(** A state in which both clients are in a call. *)
Definition ex_half := match hist_run (λ x : Z, u64 x) 2 4 2 0 next_block (raw_zz 2) ex_keys (take 7 ex_actions)
  (ex_mem, replicate 2 (idle 4 ex_root ex_caches 0)) with Some r => r | None => ([], (∅, [])) end.
Definition ex_half_client := default (idle 4 ex_root ex_caches 0) (ex_half.2.2 !! 0%nat).

Lemma iht_no_fault_witness :
  k_pc ex_half_client = PCrit ∧
  ∃ m2 k2, client_step (λ x : Z, u64 x) 2 4 2 0 next_block (raw_zz 2) ex_half.2.1 ex_half_client = Done (m2, k2).
Proof.
  split; [vm_compute; reflexivity|].
  apply (iht_no_fault (λ x : Z, u64 x) 2 4 2 0 next_block (raw_zz 2) ∅ 2 ex_caches 0 ex_keys
    ex_half.1 ex_half.2.1 ex_half.2.2 0 ex_half_client).
  - lia.
  - apply ex_keys_spread.
  - reflexivity.
  - apply (hist_run_traces _ _ _ _ _ _ _ _ (take 7 ex_actions)). vm_compute. reflexivity.
  - vm_compute. reflexivity.
  - vm_compute. discriminate.
  - apply stale_insertb_false. vm_compute. reflexivity.
Defined.
