(* ===== verification/IhtLive.v ===== *)
(** * Calls on [RdmaIHT] can return

    A client spins on a bucket's lock until its owner gives it back, goes down a level for every
    bucket list it meets, and after a split tries again one level lower. Here: from every state of
    the runs of IhtLin.v the owner and the client can go on so that the call returns. *)
From S2P Require Import Prelude RemotePtr IhtRdma IhtElist IhtInv IhtExample IhtRehash IhtCache IhtSpec IhtConc IhtAtomic IhtView IhtCrit IhtLin.

Section live.
Context {K V : Type} `{Countable K}.
Context (to_num : K → Z) (ELIST_SIZE PLIST_SIZE cache_depth_ : nat) (self_id : Z).
Context (palloc : gmap remote_ptr (@obj K V) → remote_ptr) (raw_elist : @EList K V).
Context `{!Geometry ELIST_SIZE PLIST_SIZE} `{!PoolLaws ELIST_SIZE palloc raw_elist}.
Abbreviation memory := (gmap remote_ptr (@obj K V)).
Abbreviation client := (@client K V).
Abbreviation sys := (memory * list client)%type.
Abbreviation client_step := (client_step to_num ELIST_SIZE PLIST_SIZE cache_depth_ self_id palloc raw_elist).
Abbreviation calm := (calm to_num ELIST_SIZE PLIST_SIZE cache_depth_ self_id palloc raw_elist).
Abbreviation lin_ok := (lin_ok to_num ELIST_SIZE PLIST_SIZE).
Implicit Types (m : memory) (k : client) (s : sys) (i j h : nat) (U : gset K) (root : remote_ptr).

(** ** What one step does to the client *)
(** The bucket of the client's key in the list it stands at. *)
Definition target k : nat := Z.to_nat (level_hash to_num (k_key k) (c_depth (k_ctx k)) (c_count (k_ctx k))).
Definition same_place k k' : Prop :=
  c_parent_ptr (k_ctx k') = c_parent_ptr (k_ctx k) ∧ c_depth (k_ctx k') = c_depth (k_ctx k) ∧ target k' = target k.
Definition word m k i : option plist_pair_t := bucket_at m (c_parent_ptr (k_ctx k)) i.

Lemma apply_place m key o ctx m' ctx' res fin :
  apply to_num ELIST_SIZE PLIST_SIZE self_id palloc raw_elist m key o ctx = Done (m', ctx', res, fin) →
  (c_parent_ptr ctx', c_bucket ctx', c_depth ctx', c_count ctx') = (c_parent_ptr ctx, c_bucket ctx, c_depth ctx, c_count ctx).
Proof.
  destruct o as [|v|]; cbn; destruct (c_e ctx) as [e|]; intros Ha.
  - by apply bind_done_inv in Ha as (r & _ & [= <- <- <- <-]).
  - by apply bind_done_inv in Ha as (r & _ & [= <- <- <- <-]).
  - apply bind_done_inv in Ha as ([[i kv]|] & _ & Ha); [by injection Ha as <- <- <- <-|]. case_bool_decide.
    + by apply bind_done_inv in Ha as (r & _ & [= <- <- <- <-]).
    + apply bind_done_inv in Ha as ([p m1] & _ & Ha). by apply bind_done_inv in Ha as (r & _ & [= <- <- <- <-]).
  - apply bind_done_inv in Ha as (r & _ & Ha). by apply bind_done_inv in Ha as (r' & _ & [= <- <- <- <-]).
  - by apply bind_done_inv in Ha as ([e' r] & _ & [= <- <- <- <-]).
  - by injection Ha as <- <- <- <-.
Qed.

Lemma step_start m k m' k' : k_pc k = PStart → client_step m k = Done (m', k') → k_pc k' = PLoop ∧ k_op k' = k_op k.
Proof.
  intros Hpc. unfold IhtRdma.client_step. rewrite Hpc. intros Hs.
  by apply bind_done_inv in Hs as ([c c'] & _ & [= <- <-]).
Qed.

Lemma step_loop m k m' k' : k_pc k = PLoop → client_step m k = Done (m', k') → k_op k' = k_op k ∧
  ∃ c, cp_plist (c_curr (k_ctx k)) !! target k = Some c ∧
    (lock c = P_UNLOCKED → k_pc k' = PLoop ∧ c_depth (k_ctx k') = c_depth (k_ctx k) + 1) ∧
    (lock c ≠ P_UNLOCKED → m' = m ∧ k_pc k' = PLock ∧ c_bucket (k_ctx k') = target k ∧ same_place k k').
Proof.
  intros Hpc. unfold IhtRdma.client_step. rewrite Hpc. cbv zeta. intros Hs.
  apply bind_done_inv in Hs as ([] & _ & Hs). apply bind_done_inv in Hs as (c & Hc%defined_done & Hs).
  destruct (Z.eqb_spec (lock c) P_UNLOCKED) as [E|E].
  - apply bind_done_inv in Hs as ([cp c'] & _ & Hs). apply done_pair in Hs as [<- <-]. split; [done|]. by exists c.
  - apply done_pair in Hs as [<- <-]. split; [done|]. by exists c.
Qed.

Lemma step_lock m k m' k' : k_pc k = PLock → client_step m k = Done (m', k') →
  ∃ b, word m k (c_bucket (k_ctx k)) = Some b ∧ (lock b ≠ E_UNLOCKED → m' = m) ∧
    k' = set_pc k (if lock b =? P_UNLOCKED then PRefetch else if lock b =? E_UNLOCKED then PCrit else PLock).
Proof.
  intros Hpc. unfold IhtRdma.client_step, cas_lock. rewrite Hpc. intros Hs.
  apply bind_done_inv in Hs as ([v m1] & Hc & Hs). apply done_pair in Hs as [<- <-].
  apply bind_done_inv in Hc as (pl & Hpl%read_plist_done & Hc). apply bind_done_inv in Hc as (b & Hb%defined_done & Hc).
  exists b. unfold word, bucket_at. rewrite Hpl. split; [done|].
  assert (v = lock b ∧ (lock b ≠ E_UNLOCKED → m1 = m)) as [-> Hm]; [|by split].
  destruct (Z.eqb_spec (lock b) E_UNLOCKED) as [E|E]; by apply done_pair in Hc as [<- <-].
Qed.

Lemma step_refetch m k m' k' : k_pc k = PRefetch → client_step m k = Done (m', k') →
  m' = m ∧ k_pc k' = PLoop ∧ k_op k' = k_op k ∧ same_place k k' ∧
  ∀ i c, cp_plist (c_curr (k_ctx k')) !! i = Some c → word m k i = Some c.
Proof.
  intros Hpc. unfold IhtRdma.client_step, fetch_plist. rewrite Hpc. intros Hs.
  apply bind_done_inv in Hs as (pl & Hf & Hs). apply done_pair in Hs as [<- <-].
  apply bind_done_inv in Hf as (pl' & Hpl%read_plist_done & Hf). case_bool_decide; [|done]. injection Hf as <-.
  split_and!; try done. intros i c Hi. cbn in Hi. unfold word, bucket_at. rewrite Hpl.
  by apply lookup_take_Some in Hi as [? _].
Qed.

Lemma step_crit m k m' k' : k_pc k = PCrit → client_step m k = Done (m', k') →
  ∃ st, k_pc k' = PUnlock st ∧ k_op k' = k_op k ∧ same_place k k' ∧ c_bucket (k_ctx k') = c_bucket (k_ctx k).
Proof.
  intros Hpc. unfold IhtRdma.client_step. rewrite Hpc. cbv zeta. intros Hs.
  apply bind_done_inv in Hs as (bk & _ & Hs). apply bind_done_inv in Hs as (e & _ & Hs).
  apply bind_done_inv in Hs as ([[[m1 ctx1] res] fin] & Ha & Hs). apply done_pair in Hs as [<- <-].
  apply apply_place in Ha as [= Ha1 Ha2 Ha3 Ha4]. eexists. split; [done|]. unfold same_place, target. cbn. by rewrite Ha1, Ha2, Ha3, Ha4.
Qed.

Lemma step_unlock m k m' k' st : k_pc k = PUnlock st → client_step m k = Done (m', k') →
  k' = set_pc k (if st =? E_UNLOCKED then PDone else PLoop) ∧ ∃ b, word m' k (c_bucket (k_ctx k)) = Some b ∧ lock b = st.
Proof.
  intros Hpc. unfold IhtRdma.client_step, unlock. rewrite Hpc. intros Hs.
  apply bind_done_inv in Hs as (m1 & Hu & Hs). apply done_pair in Hs as [<- <-].
  apply write_bucket_inv in Hu as (b & _ & Hb & _). split; [done|]. by eexists.
Qed.
Lemma stale_insertb_true m k : stale_insertb m k = true → stale_insert m k.
Proof.
  unfold stale_insertb. destruct (k_pc k) eqn:Hpc; try done. destruct (k_op k) eqn:Ho; try done.
  destruct (cp_plist _ !! _) as [c|] eqn:Hc; [|done]. destruct (bucket_at _ _ _) as [b|] eqn:Hb; [|done].
  intros [Hnull Hnn%negb_true_iff]%andb_true_iff. split; [done|]. split; [rewrite Ho; by intros []|]. by exists c, b.
Qed.

(** ** States without a stale insertion *)
Section system.
Context (root : remote_ptr) (U : gset K) (Hcd : (cache_depth_ ≤ 2)%nat) (HU : spread to_num ELIST_SIZE PLIST_SIZE U).

Definition unstale s : Prop := ∀ i k, s.2 !! i = Some k → ¬ stale_insert s.1 k.
Definition sound s : Prop := unstale s ∧ ∃ t, lin_ok root U s t.

Lemma unstale_check s : existsb (stale_insertb s.1) s.2 = false → unstale s.
Proof.
  intros Ex i k Hk. apply stale_insertb_false. destruct (stale_insertb s.1 k) eqn:E; [|done].
  rewrite <- Ex. symmetry. apply existsb_exists. exists k. split; [|done]. apply list_elem_of_In. by eapply list_elem_of_lookup_2.
Qed.

(** The holder of a bucket does not see it change under another client's step. *)
Lemma stale_kept m ks i k m' k' h kh :
  excl (m, ks) → ks !! i = Some k → client_step m k = Done (m', k') → ks !! h = Some kh → h ≠ i →
  ¬ stale_insert m kh → ¬ stale_insert m' kh.
Proof.
  intros [Hlock Huniq] Hk Hs Hh Hne Hno (Hpc & Ho & c & b & Hc & Hnull & Hb & Hnn).
  assert (holds kh (c_parent_ptr (k_ctx kh)) (c_bucket (k_ctx kh))) as Hhold by (split; [by left|done]).
  destruct (Hlock _ _ _ _ Hh Hhold) as (b0 & Hb0 & Hl). cbn in Hb0.
  apply (client_step_ok to_num ELIST_SIZE PLIST_SIZE cache_depth_ self_id palloc raw_elist) in Hs as [Hfr _].
  destruct (Hfr _ _ _ Hb0) as [Hb'|[(_ & Hk' & _)|[[Hk' _]|[Hl' _]]]]; [|by apply Hne; eapply Huniq..|by rewrite Hl in Hl'].
  apply Hno. split; [done|]. split; [done|]. exists c, b. split_and!; [done|done| |done]. rewrite Hb' in Hb. congruence.
Qed.

(** A client in a call makes its next step, and the state stays sound unless it enters a critical
    section as a stale insertion. *)
Lemma step_on s i k : sound s → s.2 !! i = Some k → k_pc k ≠ PDone →
  ∃ m' k', client_step s.1 k = Done (m', k') ∧ calm U s (step_event i k') (m', <[i := k']> s.2) ∧
    (¬ stale_insert m' k' → sound (m', <[i := k']> s.2)).
Proof.
  destruct s as [m ks]. cbn. intros [Hun [[M st] [Hex HM (g & Hinv & Habs & Hv & Hall)]]] Hk Hpc. cbn in *.
  destruct (Forall2_lookup_l _ _ _ _ _ Hall Hk) as (x & Hx & _).
  destruct (advance to_num ELIST_SIZE PLIST_SIZE cache_depth_ self_id palloc raw_elist root U m ks M st g i k x
    Hcd Hex HM Hinv Habs Hv Hall Hk Hx HU Hpc (Hun _ _ Hk)) as (m' & k' & Hs & t & Ht & Hok).
  exists m', k'. split; [done|]. split.
  - split; [by eapply hist_move|]. split; [done|]. intros i' o' key' Hin. unfold step_event in Hin.
    destruct (k_pc k'); (by apply elem_of_nil in Hin) || by apply list_elem_of_singleton in Hin.
  - intros Hno. split; [|by exists t]. intros h kh Hh. cbn in *.
    apply list_lookup_insert_Some in Hh as [(_ & <- & _)|[Hne Hh]]; [done|].
    eapply (stale_kept m ks i k m' k' h); [done..|by apply not_eq_sym|by apply (Hun h)].
Qed.

(** Only the step that takes the lock makes an insertion stale. *)
Lemma stale_from_lock m k m' k' : client_step m k = Done (m', k') → stale_insert m' k' → k_pc k = PLock.
Proof.
  intros Hs (Hpc' & _). destruct (k_pc k) eqn:Hpc; [| |done| | | |].
  - destruct (step_start _ _ _ _ Hpc Hs). congruence.
  - destruct (step_loop _ _ _ _ Hpc Hs) as (_ & c & _ & H1 & H2). destruct (decide (lock c = P_UNLOCKED)) as [E|E].
    + destruct (H1 E). congruence.
    + destruct (H2 E) as (_ & ? & _). congruence.
  - destruct (step_refetch _ _ _ _ Hpc Hs) as (_ & ? & _). congruence.
  - destruct (step_crit _ _ _ _ Hpc Hs) as (? & ? & _). congruence.
  - destruct (step_unlock _ _ _ _ _ Hpc Hs) as [-> _]. cbn in Hpc'. by case_match.
  - unfold IhtRdma.client_step in Hs. rewrite Hpc in Hs. apply done_pair in Hs as [_ <-]. congruence.
Qed.

Lemma step_op m k m' k' : client_step m k = Done (m', k') → k_op k' = k_op k.
Proof.
  intros Hs. destruct (k_pc k) eqn:Hpc.
  - by destruct (step_start _ _ _ _ Hpc Hs).
  - by destruct (step_loop _ _ _ _ Hpc Hs).
  - by destruct (step_lock _ _ _ _ Hpc Hs) as (b & _ & _ & ->).
  - by destruct (step_refetch _ _ _ _ Hpc Hs) as (_ & _ & ? & _).
  - by destruct (step_crit _ _ _ _ Hpc Hs) as (? & _ & ? & _).
  - by destruct (step_unlock _ _ _ _ _ Hpc Hs) as [-> _].
  - unfold IhtRdma.client_step in Hs. rewrite Hpc in Hs. by apply done_pair in Hs as [_ <-].
Qed.

(** ** One client's way to its return *)
Section client.
Context (j : nat) (o : @op V).

(** The call returns, or is a stale insertion. *)
Definition returning s : Prop := ∃ tr s', traces (calm U) s tr s' ∧
  ((∃ r, ERet j r ∈ tr) ∨ ∃ k, s'.2 !! j = Some k ∧ k_op k = o ∧ stale_insert s'.1 k).
Definition live s k : Prop := sound s ∧ s.2 !! j = Some k ∧ k_op k = o.

Lemma returning_cons s l s' : calm U s l s' → returning s' → returning s.
Proof.
  intros Hs (tr & s2 & Htr & Hend). exists (l ++ tr), s2. split; [by eapply traces_cons|].
  destruct Hend as [[r Hr]|Hst]; [left; exists r; set_solver|by right].
Qed.

Lemma own_move s k : live s k → k_pc k ≠ PDone →
  (∀ m' k', client_step s.1 k = Done (m', k') → live (m', <[j := k']> s.2) k' → k_pc k' ≠ PDone →
     returning (m', <[j := k']> s.2)) → returning s.
Proof.
  intros (Hs & Hk & Ho) Hpc Hnext. destruct (step_on s j k Hs Hk Hpc) as (m' & k' & Hst & Hcalm & Hsound).
  assert (<[j := k']> s.2 !! j = Some k') as Hk' by (apply list_lookup_insert_eq; by eapply lookup_lt_Some).
  assert (k_op k' = o) as Ho' by (by rewrite (step_op _ _ _ _ Hst)).
  destruct (stale_insertb m' k') eqn:Eb.
  - exists (step_event j k' ++ []), (m', <[j := k']> s.2). split; [by eapply traces_cons, traces_nil|]. right.
    exists k'. split; [done|]. split; [done|]. by apply stale_insertb_true.
  - apply stale_insertb_false in Eb. specialize (Hsound Eb). destruct (is_done k') eqn:Ed.
    + exists (step_event j k' ++ []), (m', <[j := k']> s.2). split; [by eapply traces_cons, traces_nil|]. left.
      exists (k_result k'). unfold step_event. unfold is_done in Ed. destruct (k_pc k'); try done. by left.
    + eapply returning_cons; [exact Hcalm|]. apply Hnext; [done|by split|]. intros E. unfold is_done in Ed. by rewrite E in Ed.
Qed.

Lemma other_move s k h kh : live s k → s.2 !! h = Some kh → h ≠ j → k_pc kh ≠ PDone → k_pc kh ≠ PLock →
  (∀ m' k', client_step s.1 kh = Done (m', k') → live (m', <[h := k']> s.2) k → returning (m', <[h := k']> s.2)) →
  returning s.
Proof.
  intros (Hs & Hk & Ho) Hkh Hne Hpc Hpl Hnext. destruct (step_on s h kh Hs Hkh Hpc) as (m' & k' & Hst & Hcalm & Hsound).
  eapply returning_cons; [exact Hcalm|]. apply Hnext; [done|]. split; [|split; [cbn; by rewrite list_lookup_insert_ne|done]].
  apply Hsound. intros Hstale. by apply Hpl, (stale_from_lock _ _ _ _ Hst).
Qed.

(** ** Where the client stands *)
Lemma live_depth s k : live s k → k_pc k = PLoop → c_depth (k_ctx k) ≤ 8.
Proof.
  destruct s as [m ks]. intros ((_ & [M st] & [_ _ (g & Hinv & _ & Hv & Hall)]) & Hk & _) Hpc. cbn in *.
  destruct (Forall2_lookup_l _ _ _ _ _ Hall Hk) as (x & _ & _ & _ & Hok). rewrite Hpc in Hok.
  destruct Hok as (_ & _ & n & q & pl & Hd & _). rewrite (de_depth _ _ _ _ _ _ _ _ Hd).
  destruct (view_bucket to_num ELIST_SIZE PLIST_SIZE root ks g m k n q pl Hinv Hv Hd) as (Hn & _). lia.
Qed.

(** The bucket of a client that has taken it for an element list. *)
Lemma live_leaf s k : live s k → k_pc k = PLock ∨ k_pc k = PRefetch ∨ k_pc k = PCrit →
  c_bucket (k_ctx k) = target k ∧ ∃ b, word s.1 k (target k) = Some b ∧
    (lock b = P_UNLOCKED ∨ lock b = E_UNLOCKED ∨
     lock b = E_LOCKED ∧ ∃ h kh st, s.2 !! h = Some kh ∧ holds_as kh (c_parent_ptr (k_ctx k)) (target k) st).
Proof.
  destruct s as [m ks]. intros ((_ & [M st] & [_ _ (g & Hinv & _ & Hv & Hall)]) & Hk & _) Hpc. cbn in *.
  destruct (Forall2_lookup_l _ _ _ _ _ Hall Hk) as (x & _ & _ & _ & Hok).
  assert (descending to_num PLIST_SIZE g root k x true) as (_ & n & q & pl & Hd & _ & Hi & _).
  { by destruct Hpc as [Hpc|[Hpc|Hpc]]; rewrite Hpc in Hok; destruct Hok. }
  destruct (view_bucket to_num ELIST_SIZE PLIST_SIZE root ks g m k n q pl Hinv Hv Hd)
    as (_ & _ & plm & Hqm & _ & _ & b & c & _ & Hst & Hc & Hbv).
  assert (target k = bkt to_num PLIST_SIZE (k_key k) n) as Ht.
  { unfold target. by rewrite (de_depth _ _ _ _ _ _ _ _ Hd), (de_count _ _ _ _ _ _ _ _ Hd). }
  unfold word, bucket_at. rewrite Ht, (de_parent _ _ _ _ _ _ _ _ Hd), Hqm. split; [done|]. exists c. split; [done|].
  destruct Hbv as [->|(Hl & _ & h & kh & Hh & Hheld)]; [tauto|]. right. right. split; [done|]. by exists h, kh, (lock b).
Qed.

Lemma unlock_status s h kh st : sound s → s.2 !! h = Some kh → k_pc kh = PUnlock st → st = E_UNLOCKED ∨ st = P_UNLOCKED.
Proof.
  destruct s as [m ks]. intros (_ & [M x0] & [_ _ (g & _ & _ & _ & Hall)]) Hk Hpc. cbn in *.
  destruct (Forall2_lookup_l _ _ _ _ _ Hall Hk) as (x & _ & _ & _ & Hok). rewrite Hpc in Hok. destruct Hok as [_ Hok].
  destruct (Z.eqb_spec st E_UNLOCKED); [by left|right]. by destruct Hok.
Qed.

(** ** One level *)
Section level.
Context (D : Z) (deeper : ∀ s k, live s k → k_pc k = PLoop → D < c_depth (k_ctx k) → returning s).
Definition calcified s k : Prop := ∃ b, word s.1 k (target k) = Some b ∧ lock b = P_UNLOCKED.

Lemma same_word m k k' i : same_place k k' → word m k' i = word m k i.
Proof. intros (E & _). unfold word. by rewrite E. Qed.

(** A copy that is made now shows a bucket list as such. *)
Lemma ret_refetch_calcified s k : live s k → k_pc k = PRefetch → c_depth (k_ctx k) = D → calcified s k → returning s.
Proof.
  intros Hl Hpc HD (b & Hb & Hp). apply (own_move s k Hl); [congruence|]. intros m1 k1 Hs1 Hl1 _.
  destruct (step_refetch _ _ _ _ Hpc Hs1) as (-> & Hpc1 & _ & Hsame & Hcopy). pose proof Hsame as (_ & Hd1 & Ht1).
  apply (own_move _ k1 Hl1); [congruence|]. intros m2 k2 Hs2 Hl2 _.
  destruct (step_loop _ _ _ _ Hpc1 Hs2) as (_ & c & Hc & Hdown & _). apply Hcopy in Hc. rewrite Ht1 in Hc.
  rewrite Hb in Hc. injection Hc as <-. destruct (Hdown Hp) as [Hpc2 Hd2]. apply (deeper _ k2 Hl2 Hpc2). lia.
Qed.

Lemma ret_lock_calcified s k : live s k → k_pc k = PLock → c_depth (k_ctx k) = D → calcified s k → returning s.
Proof.
  intros Hl Hpc HD Hcal. apply (own_move s k Hl); [congruence|]. intros m1 k1 Hs1 Hl1 _.
  destruct (live_leaf s k Hl (or_introl Hpc)) as (Hi & _). pose proof Hcal as (b & Hb & Hp).
  destruct (step_lock _ _ _ _ Hpc Hs1) as (b1 & Hb1 & Hm & ->). rewrite Hi, Hb in Hb1. injection Hb1 as <-.
  rewrite Hm in * by (by rewrite Hp). rewrite Hp in *. by apply (ret_refetch_calcified _ _ Hl1).
Qed.

Lemma ret_loop_calcified s k : live s k → k_pc k = PLoop → c_depth (k_ctx k) = D → calcified s k → returning s.
Proof.
  intros Hl Hpc HD (b & Hb & Hp). apply (own_move s k Hl); [congruence|]. intros m1 k1 Hs1 Hl1 _.
  destruct (step_loop _ _ _ _ Hpc Hs1) as (_ & c & _ & Hdown & Hstay). destruct (decide (lock c = P_UNLOCKED)) as [E|E].
  - destruct (Hdown E). apply (deeper _ k1 Hl1); [done|lia].
  - destruct (Hstay E) as (-> & Hpc1 & _ & Hsame). pose proof Hsame as (_ & Hd1 & Ht1).
    apply (ret_lock_calcified _ k1 Hl1); [done|congruence|]. exists b. cbn. by rewrite Ht1, (same_word _ _ _ _ Hsame).
Qed.

(** The owner of a bucket gives it back; if it has split the bucket it goes down. *)
Lemma ret_unlock s k st : live s k → k_pc k = PUnlock st → c_depth (k_ctx k) = D → c_bucket (k_ctx k) = target k → returning s.
Proof.
  intros Hl Hpc HD Hi. apply (own_move s k Hl); [congruence|]. intros m1 k1 Hs1 Hl1 Hnd.
  destruct (step_unlock _ _ _ _ _ Hpc Hs1) as [-> (b & Hb & Hlb)].
  destruct (unlock_status s j k st) as [->| ->]; [apply Hl|apply Hl|done|done|].
  apply (ret_loop_calcified _ _ Hl1); [done|done|]. exists b. by rewrite Hi in Hb.
Qed.

Lemma ret_crit s k : live s k → k_pc k = PCrit → c_depth (k_ctx k) = D → returning s.
Proof.
  intros Hl Hpc HD. destruct (live_leaf s k Hl) as (Hi & _); [tauto|].
  apply (own_move s k Hl); [congruence|]. intros m1 k1 Hs1 Hl1 _.
  destruct (step_crit _ _ _ _ Hpc Hs1) as (st & Hpc1 & _ & (_ & Hd & Ht) & Hb).
  apply (ret_unlock _ k1 st Hl1); [done|congruence..].
Qed.

(** At the lock: it is free, it is about to be given back, or its owner is still working. *)
Lemma ret_lock_open s k b : live s k → k_pc k = PLock → c_depth (k_ctx k) = D →
  word s.1 k (target k) = Some b → lock b = P_UNLOCKED ∨ lock b = E_UNLOCKED → returning s.
Proof.
  intros Hl Hpc HD Hb [Hp|He]; [apply (ret_lock_calcified s k Hl); [done..|by exists b]|].
  destruct (live_leaf s k Hl (or_introl Hpc)) as (Hi & _).
  apply (own_move s k Hl); [congruence|]. intros m1 k1 Hs1 Hl1 _.
  destruct (step_lock _ _ _ _ Hpc Hs1) as (b1 & Hb1 & _ & ->). rewrite Hi, Hb in Hb1. injection Hb1 as <-.
  rewrite He in *. by apply (ret_crit _ _ Hl1).
Qed.

Lemma ret_lock_unlocking s k h kh st : live s k → k_pc k = PLock → c_depth (k_ctx k) = D →
  s.2 !! h = Some kh → h ≠ j → k_pc kh = PUnlock st →
  c_parent_ptr (k_ctx kh) = c_parent_ptr (k_ctx k) → c_bucket (k_ctx kh) = target k → returning s.
Proof.
  intros Hl Hpc HD Hh Hne Hpch Ha Hi. apply (other_move s k h kh Hl); [done..|congruence|congruence|].
  intros m1 k1 Hs1 Hl1. destruct (step_unlock _ _ _ _ _ Hpch Hs1) as [_ (b & Hb & Hlb)].
  apply (ret_lock_open _ k b Hl1); [done..| |].
  - unfold word in *. by rewrite <- Ha, <- Hi.
  - subst st. destruct (unlock_status s h kh _ (proj1 Hl) Hh Hpch); tauto.
Qed.

Lemma ret_lock s k : live s k → k_pc k = PLock → c_depth (k_ctx k) = D → returning s.
Proof.
  intros Hl Hpc HD. destruct (live_leaf s k Hl (or_introl Hpc)) as (Hi & b & Hb & [Hp|[He|(_ & h & kh & st & Hh & Hhold)]]);
    [apply (ret_lock_open s k b Hl); tauto..|].
  destruct Hhold as (Hpch & Ha & Hbh). assert (h ≠ j) as Hne.
  { intros ->. destruct Hl as (_ & Hk & _). simplify_eq. by destruct Hpch as [[? _]|?]; congruence. }
  destruct Hpch as [[Hpch _]|Hpch]; [|by eapply ret_lock_unlocking].
  apply (other_move s k h kh Hl); [done..|congruence|congruence|]. intros m1 k1 Hs1 Hl1.
  destruct (step_crit _ _ _ _ Hpch Hs1) as (st1 & Hpc1 & _ & (Ha1 & _) & Hb1).
  apply (ret_lock_unlocking _ k h k1 st1 Hl1); [done..| |done|done|congruence|congruence].
  cbn. apply list_lookup_insert_eq. by eapply lookup_lt_Some.
Qed.

Lemma ret_loop s k : live s k → k_pc k = PLoop → c_depth (k_ctx k) = D → returning s.
Proof.
  intros Hl Hpc HD. apply (own_move s k Hl); [congruence|]. intros m1 k1 Hs1 Hl1 _.
  destruct (step_loop _ _ _ _ Hpc Hs1) as (_ & c & _ & Hdown & Hstay). destruct (decide (lock c = P_UNLOCKED)) as [E|E].
  - destruct (Hdown E). apply (deeper _ k1 Hl1); [done|lia].
  - destruct (Hstay E) as (-> & Hpc1 & _ & (_ & Hd1 & _)). apply (ret_lock _ k1 Hl1); [done|congruence].
Qed.
End level.

(** From the head of the loop at any level, by the number of levels left. *)
Lemma loop_returns s k : live s k → k_pc k = PLoop → returning s.
Proof.
  intros Hl Hpc. remember (Z.to_nat (8 - c_depth (k_ctx k))) as d eqn:Hd. revert s k Hl Hpc Hd.
  induction d as [d IH] using lt_wf_ind. intros s k Hl Hpc Hd. apply (ret_loop (c_depth (k_ctx k))) with (k := k); [|done..].
  intros s' k' Hl' Hpc' Hlt. pose proof (live_depth s' k' Hl' Hpc').
  apply (IH (Z.to_nat (8 - c_depth (k_ctx k')))) with (k := k'); [lia|done..].
Qed.

Lemma call_returns s k : live s k → k_pc k ≠ PDone → returning s.
Proof.
  intros Hl Hnd. destruct (k_pc k) as [| | | | |st|] eqn:Hpc; [| | | | | |done].
  - apply (own_move s k Hl); [congruence|]. intros m1 k1 Hs1 Hl1 _. apply (loop_returns _ k1 Hl1).
    by destruct (step_start _ _ _ _ Hpc Hs1).
  - by apply (loop_returns s k).
  - apply (ret_lock (c_depth (k_ctx k))) with (k := k); [|done..]. intros. by eapply loop_returns.
  - apply (own_move s k Hl); [congruence|]. intros m1 k1 Hs1 Hl1 _. apply (loop_returns _ k1 Hl1).
    by destruct (step_refetch _ _ _ _ Hpc Hs1) as (_ & ? & _).
  - apply (ret_crit (c_depth (k_ctx k))) with (k := k); [|done..]. intros. by eapply loop_returns.
  - apply (own_move s k Hl); [congruence|]. intros m1 k1 Hs1 Hl1 Hnd1. apply (loop_returns _ k1 Hl1).
    destruct (step_unlock _ _ _ _ _ Hpc Hs1) as [-> _]. cbn in *. by case_match.
Qed.
End client.
End system.

(** C4: calls on the one-sided table can return. From every state that clients of a fresh table
    reach, when they use caches of at most two layers and keys of which no more than fit into
    one bucket agree on the hashes of all levels, and as long as no insertion has been
    about to act on a stale null base pointer, any client in a call - reading, spinning on a lock another client holds, or
    meeting buckets that others have split since it read them - and the owners of the locks it
    needs can go on so that the call returns; an insertion can instead come to act on a null
    base pointer another insertion has replaced. A lookup or a removal can always return. *)
Theorem iht_call_returns m n (ca : caches) key0 U tr m' ks j k :
  (cache_depth_ ≤ 2)%nat → spread to_num ELIST_SIZE PLIST_SIZE U → RdmaIHT_new PLIST_SIZE = Done ca →
  traces (calm U) ((InitAsFirst PLIST_SIZE palloc m).2,
                   replicate n (idle PLIST_SIZE (InitAsFirst PLIST_SIZE palloc m).1 ca key0)) tr (m', ks) →
  unstale (m', ks) → ks !! j = Some k → k_pc k ≠ PDone →
  ∃ tr' s', traces (calm U) (m', ks) tr' s' ∧
    ((∃ r, ERet j r ∈ tr') ∨
     ∃ v k', k_op k = Insert v ∧ s'.2 !! j = Some k' ∧ k_op k' = Insert v ∧ stale_insert s'.1 k').
Proof.
  intros Hcd HU Hc Htr Hun Hk Hnd.
  pose proof (lin_ok_init to_num ELIST_SIZE PLIST_SIZE palloc m n ca key0 U Hc) as Hinit.
  set (root := (InitAsFirst PLIST_SIZE palloc m).1) in *.
  destruct (forward_simulation (calm U) peek_step (lin_ok root U) _ _ _ _
    (λ s1 l s2 t1 HR Hs, calm_step_ok to_num ELIST_SIZE PLIST_SIZE cache_depth_ self_id palloc raw_elist root U s1 l s2 t1 Hcd HU HR Hs)
    Hinit Htr) as (t & _ & Hok).
  destruct (call_returns root U Hcd HU j (k_op k) (m', ks) k) as (tr' & s' & Htr' & Hend); [|done|].
  { split; [|by split]. split; [done|by exists t]. }
  exists tr', s'. split; [done|]. destruct Hend as [Hr|(k' & Hk' & Ho & Hst)]; [by left|right].
  destruct (k_op k) as [|v|] eqn:Eo; [|by exists v, k'|]; destruct Hst as (_ & Hno & _); destruct Hno; by rewrite Ho.
Qed.
End live.

(** Client 1 looks up a key whose bucket client 0 has locked for an insertion. *)
Definition ex_waiting := default (idle 4 ex_root ex_caches 0) (ex_half.2.2 !! 1%nat).

Lemma iht_call_returns_witness :
  k_pc ex_waiting = PLock ∧ k_op ex_waiting = Contains ∧ k_pc ex_half_client = PCrit ∧
  ∃ tr' s' r, traces (calm (λ x : Z, u64 x) 2 4 2 0 next_block (raw_zz 2) ex_keys) ex_half.2 tr' s' ∧ ERet 1 r ∈ tr'.
Proof.
  assert (k_op ex_waiting = Contains) as Ho by (vm_compute; reflexivity).
  split; [vm_compute; reflexivity|]. split; [exact Ho|]. split; [vm_compute; reflexivity|].
  destruct (iht_call_returns (λ x : Z, u64 x) 2 4 2 0 next_block (raw_zz 2) ∅ 2 ex_caches 0 ex_keys
    ex_half.1 ex_half.2.1 ex_half.2.2 1 ex_waiting) as (tr' & s' & Htr & [[r Hr]|(v & k' & E & _)]).
  - lia.
  - apply ex_keys_spread.
  - reflexivity.
  - apply (hist_run_traces _ _ _ _ _ _ _ _ (take 7 ex_actions)). vm_compute. reflexivity.
  - apply unstale_check. vm_compute. reflexivity.
  - vm_compute. reflexivity.
  - vm_compute. discriminate.
  - exists tr', s', r. split; [exact Htr|exact Hr].
  - rewrite Ho in E. discriminate E.
Defined.
