(* ===== verification/QueuePair.v ===== *)
(** * Send queues and requests nobody waits for (rdma/connection_manager.h,
    rdma/memory_pool.h, iht/iht_ds.h)

    A connection's queue pair has room for a fixed number of send requests, and the card takes
    the data of a request from local memory when it executes it, some time after the call
    that posted it. [unlock] posts a write that asks for no completion, from the one buffer
    [temp_lock] of its table. Here the threads of a node post requests and poll, and the card
    executes: how full the queues get, and what the unlocking writes write. *)
From S2P Require Import Prelude Status RemotePtr MemoryPool ConnectionManager IhtRdma.

(** ** The attributes of a queue pair *)
Record ibv_qp_init_attr := mkQpInit {
  max_send_wr : Z; max_recv_wr : Z; max_send_sge : Z; max_recv_sge : Z; max_inline_data : Z; sq_sig_all : Z }.
Definition kCmCapacity : Z := Z.shiftl 1 12.
Definition kMaxRecvBytes : Z := 64.
Definition kMaxWr : Z := kCmCapacity / kMaxRecvBytes.
Definition DefaultQpInitAttr : ibv_qp_init_attr := mkQpInit kMaxWr kMaxWr 1 1 0 0.

Definition RDMAWriteNoAck : Z := 1.

(** The request of [unlock] on a remote lock word. *)
Definition unlock_wr (index_as_id temp_lock lkey raddr rkey : Z) : ibv_send_wr :=
  write_wr index_as_id temp_lock 8 lkey raddr rkey RDMAWriteNoAck.

(** ** The system *)
(** A thread runs, or waits for a completion on a connection. *)
Inductive poster := Runs | Waits (conn : Z).

(** [slots]: the requests of a queue that still take room, in order, with the value meant
    at the time of posting; [executed]: how many of them the card has executed; [words]: local
    memory; [acked]: the connections on which a thread has had a completion since its last
    unlock; [written]: for each executed unlock, its target, the value meant and the value
    written. *)
Record qps := mkQps {
  slots : Z → list (ibv_send_wr * Z); executed : Z → nat; words : Z → Z;
  posters : list poster; acked : nat → gset Z; written : list (Z * Z * Z) }.

Definition upd {A} (f : Z → A) (c : Z) (x : A) : Z → A := λ c', if c' =? c then x else f c'.
Definition upd_nat {A} (f : nat → A) (t : nat) (x : A) : nat → A := λ t', if decide (t' = t) then x else f t'.

Definition owned_by (t : nat) (r : ibv_send_wr * Z) : Prop := wr_id r.1 = Z.of_nat t.
#[global] Instance owned_by_dec t r : Decision (owned_by t r).
Proof. unfold owned_by. apply _. Defined.
(** The requests of thread [t] that take room on connection [c]. *)
Definition own (s : qps) (t : nat) (c : Z) : list (ibv_send_wr * Z) := filter (owned_by t) (slots s c).

Section system.
(** The buffer of each thread's table, and the connections its locks are behind. *)
Context (temp_lock : nat → Z) (locks : nat → Z → Prop).

(** [ibv_post_send] finds room. *)
Definition room (s : qps) (c : Z) : Prop := Z.of_nat (length (slots s c)) < max_send_wr DefaultQpInitAttr.

Definition post (c : Z) (r : ibv_send_wr * Z) (s : qps) : qps :=
  mkQps (upd (slots s) c (slots s c ++ [r])) (executed s) (words s) (posters s) (acked s) (written s).

(** [unlock]: the value goes into the buffer and the write is posted; nothing is waited for. *)
Definition post_unlock (t : nat) (c v lkey raddr rkey : Z) (s : qps) : qps :=
  post c (unlock_wr (Z.of_nat t) (temp_lock t) lkey raddr rkey, v)
    (mkQps (slots s) (executed s) (upd (words s) (temp_lock t) v) (posters s) (upd_nat (acked s) t ∅) (written s)).
(** Any other request: the thread waits for its completion. *)
Definition post_request (t : nat) (c : Z) (w : ibv_send_wr) (s : qps) : qps :=
  post c (w, 0) (mkQps (slots s) (executed s) (words s) (<[t := Waits c]> (posters s)) (acked s) (written s)).
(** The card takes the next request of a queue. *)
Definition execute (c : Z) (w : ibv_send_wr) (v : Z) (s : qps) : qps :=
  mkQps (slots s) (upd (executed s) c (S (executed s c))) (words s) (posters s) (acked s)
    (if wr_signaled w then written s else written s ++ [(wr_remote_addr w, v, words s (sge_addr w))]).
(** A completion is polled: its request and those before it give up their room, and the thread
    that posted it goes on. *)
Definition complete (t : nat) (c : Z) (taken : nat) (rest : list (ibv_send_wr * Z)) (s : qps) : qps :=
  mkQps (upd (slots s) c rest) (upd (executed s) c (executed s c - S taken)%nat) (words s)
    (<[t := Runs]> (posters s)) (upd_nat (acked s) t ({[c]} ∪ acked s t)) (written s).

(** [None]: a post found no room and the assertion around it ended the program. *)
Inductive qps_step : qps → option qps → Prop :=
| qs_unlock s t c v lkey raddr rkey :
    posters s !! t = Some Runs → locks t c → c ∈ acked s t → room s c →
    qps_step s (Some (post_unlock t c v lkey raddr rkey s))
| qs_request s t c w :
    posters s !! t = Some Runs → wr_signaled w = true → wr_id w = Z.of_nat t → room s c →
    qps_step s (Some (post_request t c w s))
| qs_full s t c :
    posters s !! t = Some Runs → ¬ room s c → qps_step s None
| qs_execute s c w v :
    slots s c !! executed s c = Some (w, v) → qps_step s (Some (execute c w v s))
| qs_poll s c pre w v rest t u :
    posters s !! u = Some (Waits c) →
    slots s c = pre ++ (w, v) :: rest → (length pre < executed s c)%nat →
    Forall (λ r, wr_signaled r.1 = false) pre → wr_signaled w = true → wr_id w = Z.of_nat t →
    qps_step s (Some (complete t c (length pre) rest s)).

Definition qps_new (n : nat) (words : Z → Z) : qps :=
  mkQps (λ _, []) (λ _, 0%nat) words (replicate n Runs) (λ _, ∅) [].
Definition run_step (s : option qps) (s' : option qps) : Prop := ∃ x, s = Some x ∧ qps_step x s'.

(** ** Room *)
(** What a thread keeps in a queue: an unlock that was posted since its last completion there, and
    the request it waits for. *)
Record qps_ok (n : nat) (s : qps) : Prop := {
  qo_threads : length (posters s) = n;
  qo_ids c r : r ∈ slots s c → ∃ t, (t < n)%nat ∧ owned_by t r;
  qo_own t c : (t < n)%nat → ∃ us ws, own s t c = us ++ ws ∧
    (us = [] ∨ ∃ w v, us = [(w, v)] ∧ wr_signaled w = false ∧ c ∉ acked s t) ∧
    (match posters s !! t with
     | Some (Waits c') => if decide (c' = c) then ∃ w v, ws = [(w, v)] ∧ wr_signaled w = true else ws = []
     | _ => ws = []
     end) }.

Lemma owners_bound n l : (∀ r, r ∈ l → ∃ t, (t < n)%nat ∧ owned_by t r) →
  (∀ t, (t < n)%nat → length (filter (owned_by t) l) ≤ 2)%nat → (length l ≤ 2 * n)%nat.
Proof.
  revert l. induction n as [|n IH]; intros l Hl Hb.
  - destruct l as [|r l]; [done|]. destruct (Hl r) as (t & Ht & _); [set_solver|lia].
  - assert (length (filter (λ r, ¬ owned_by n r) l) ≤ 2 * n)%nat as Hr.
    { apply IH.
      - intros r [Hn Hin]%list_elem_of_filter. destruct (Hl r Hin) as (t & Ht & Ho). exists t. split; [|done].
        destruct (decide (t = n)) as [->|]; [done|lia].
      - intros t Ht. etransitivity; [|apply (Hb t); lia]. apply submseteq_length.
        apply sublist_submseteq. clear. induction l as [|r l IHl]; [done|]. rewrite !filter_cons.
        repeat case_decide; rewrite ?filter_cons; repeat case_decide; try done; by constructor. }
    pose proof (Hb n ltac:(lia)) as Hn. assert (length l = length (filter (owned_by n) l) + length (filter (λ r, ¬ owned_by n r) l))%nat as ->; [|lia].
    clear. induction l as [|r l IHl]; [done|]. rewrite !filter_cons. cbn. repeat case_decide; cbn; (done || lia).
Qed.

Lemma part_length n s c t : qps_ok n s → (t < n)%nat →
  (length (own s t c) ≤ 2 ∧ (posters s !! t = Some Runs → length (own s t c) ≤ 1))%nat.
Proof.
  intros [Hn Hids Hown] Ht. destruct (Hown t c Ht) as (us & ws & E & Hu & Hw). rewrite E, length_app.
  assert (length us ≤ 1)%nat by (destruct Hu as [->|(? & ? & -> & _)]; cbn; lia).
  destruct (posters s !! t) as [[|c']|]; [subst ws; cbn; lia| |subst ws; cbn; lia]. split; [|done].
  destruct (decide (c' = c)); [destruct Hw as (? & ? & -> & _)|subst ws]; cbn; lia.
Qed.

(** While some thread runs there is room for its next request. *)
Lemma qps_room n s c : qps_ok n s →
  (length (slots s c) ≤ 2 * n)%nat ∧ ∀ t, posters s !! t = Some Runs → (length (slots s c) < 2 * n)%nat.
Proof.
  intros Hok. pose proof Hok as [Hn Hids _]. split.
  - apply owners_bound; [by apply Hids|]. intros t Ht. by apply (part_length n s c t Hok Ht).
  - intros t Hr. assert (t < n)%nat as Ht by (rewrite <- Hn; by eapply lookup_lt_Some).
    set (r := (unlock_wr (Z.of_nat t) 0 0 0 0, 0)). change (length (r :: slots s c) ≤ 2 * n)%nat.
    apply owners_bound.
    + intros x [->|Hx]%elem_of_cons; [by exists t|by apply (Hids c)].
    + intros t' Ht'. rewrite filter_cons. destruct (part_length n s c t' Hok Ht') as [H2 H1].
      change (filter (owned_by t') (slots s c)) with (own s t' c). case_decide as Ho; [|exact H2].
      assert (t' = t) as -> by (unfold owned_by in Ho; cbn in Ho; lia). cbn. specialize (H1 Hr). lia.
Qed.

Lemma owned_inj t t' r : owned_by t r → owned_by t' r → t = t'.
Proof. unfold owned_by. lia. Qed.

Lemma own_post c r s t c' : own (post c r s) t c' =
  if decide (c' = c ∧ owned_by t r) then own s t c ++ [r] else own s t c'.
Proof.
  unfold own, post, upd. cbn. destruct (Z.eqb_spec c' c) as [->|Hc].
  - rewrite filter_app, filter_cons, filter_nil. repeat case_decide; try tauto. by rewrite app_nil_r.
  - by rewrite decide_False by tauto.
Qed.

(** What a thread's part of a queue may look like, and that it only depends on these. *)
Definition part_ok (c : Z) (l : list (ibv_send_wr * Z)) (a : gset Z) (p : option poster) : Prop :=
  ∃ us ws, l = us ++ ws ∧
    (us = [] ∨ ∃ w v, us = [(w, v)] ∧ wr_signaled w = false ∧ c ∉ a) ∧
    (match p with
     | Some (Waits c') => if decide (c' = c) then ∃ w v, ws = [(w, v)] ∧ wr_signaled w = true else ws = []
     | _ => ws = []
     end).

(** A polled completion takes a prefix of the part of another thread. *)
Lemma part_suffix c pre rest a p : Forall (λ r : ibv_send_wr * Z, wr_signaled r.1 = false) pre →
  part_ok c (pre ++ rest) a p → part_ok c rest a p.
Proof.
  intros Hpre (us & ws & E & Hu & Hw). destruct pre as [|x pre]; [by exists us, ws|].
  assert (∀ y, y ∈ x :: pre → wr_signaled y.1 = false) as Hun by by apply Forall_forall.
  assert (∀ y, ws = [y] → y ∈ x :: pre → wr_signaled y.1 = true → False) as Hno.
  { intros y _ Hin Hs. rewrite Hun in Hs by done. done. }
  assert (ws = [] ∨ ∃ w v, ws = [(w, v)] ∧ wr_signaled w = true) as Hw'.
  { destruct p as [[|c']|]; auto. destruct (decide (c' = c)); auto. }
  exists [], ws. split; [|split; [by left|done]]. cbn. destruct Hu as [->|(w & v & -> & Hs & _)]; cbn in E.
  - destruct Hw' as [->|(w & v & -> & Hs)]; [done|]. injection E as E1 E'.
    destruct (Hno (w, v)); [done|rewrite E1; apply list_elem_of_here|done].
  - injection E as _ E'. destruct Hw' as [->|(w' & v' & -> & Hs')].
    + apply app_nil in E' as [_ ->]. done.
    + destruct pre as [|y pre]; [done|]. injection E' as E1 _.
      destruct (Hno (w', v')); [done|rewrite E1; apply list_elem_of_further, list_elem_of_here|done].
Qed.

(** Its own completion is the end of a thread's part. *)
Lemma part_own c pre w v rest a p : wr_signaled w = true → part_ok c (pre ++ (w, v) :: rest) a p → rest = [] ∧ p = Some (Waits c).
Proof.
  intros Hsig (us & ws & E & Hu & Hw).
  assert ((w, v) ∉ us) as Hus.
  { destruct Hu as [->|(w' & v' & -> & Hs & _)]; [apply not_elem_of_nil|]. intros Hin%list_elem_of_singleton. congruence. }
  assert ((w, v) ∈ ws) as Hws.
  { assert ((w, v) ∈ us ++ ws) as Hin; [|apply elem_of_app in Hin as [|]; [done|done]].
    rewrite <- E. apply elem_of_app. right. apply list_elem_of_here. }
  destruct p as [[|c']|]; [subst ws; by apply elem_of_nil in Hws| |subst ws; by apply elem_of_nil in Hws].
  destruct (decide (c' = c)) as [->|]; [|subst ws; by apply elem_of_nil in Hws].
  split; [|done]. destruct Hw as (w' & v' & -> & _). destruct rest as [|x rest _] using rev_ind; [done|].
  rewrite app_comm_cons, app_assoc in E. apply app_inj_tail in E as [E _]. destruct Hus. rewrite <- E.
  apply elem_of_app. right. apply list_elem_of_here.
Qed.

Lemma qps_ok_part n s t c : qps_ok n s → (t < n)%nat → part_ok c (own s t c) (acked s t) (posters s !! t).
Proof. intros [_ _ Hown] Ht. exact (Hown t c Ht). Qed.

Lemma part_weaken c l a a' p : (c ∈ a' → c ∈ a) → part_ok c l a p → part_ok c l a' p.
Proof.
  intros Ha (us & ws & E & [->|(w & v & -> & Hs & Hc)] & Hw); [exists [], ws; split; [done|]; split; [by left|done]|].
  exists [(w, v)], ws. split; [done|]. split; [|done]. right. exists w, v. split; [done|]. split; [done|]. intros Hin. by apply Hc, Ha.
Qed.

(** Where a thread does not wait for this connection its part is an unlock at most. *)
Lemma part_runs c l a p : match p with Some (Waits c') => c' ≠ c | _ => True end → part_ok c l a p →
  ∀ p', match p' with Some (Waits c') => c' ≠ c | _ => True end → part_ok c l a p'.
Proof.
  intros Hp (us & ws & E & Hu & Hw) p' Hp'. exists us, ws. split; [done|]. split; [done|].
  assert (ws = []) as -> by (destruct p as [[|c']|]; [done|by rewrite decide_False in Hw|done]).
  destruct p' as [[|c']|]; [done|by rewrite decide_False|done].
Qed.

Lemma elem_post c r s c' x : x ∈ slots (post c r s) c' → x ∈ slots s c' ∨ x = r.
Proof.
  unfold post, upd. cbn. destruct (Z.eqb_spec c' c) as [->|]; [|by left]. intros [|H]%elem_of_app; [by left|].
  apply list_elem_of_singleton in H. by right.
Qed.

Lemma unlock_ok n s t c v r ws0 : qps_ok n s → posters s !! t = Some Runs → c ∈ acked s t →
  wr_id r = Z.of_nat t → wr_signaled r = false →
  qps_ok n (post c (r, v) (mkQps (slots s) (executed s) ws0 (posters s) (upd_nat (acked s) t ∅) (written s))).
Proof.
  intros Hok Ht Ha Hid Hsig. pose proof (qps_ok_part n s) as Hpart. destruct Hok as [Hn Hids Hown]. split; [done| |].
  - intros c' x [Hx| ->]%elem_post; [by apply (Hids c' x)|]. exists t. split; [|done]. rewrite <- Hn. by eapply lookup_lt_Some.
  - intros t' c' Ht'. change (part_ok c' (own (post c (r, v) (mkQps (slots s) (executed s) ws0 (posters s) (upd_nat (acked s) t ∅) (written s))) t' c')
      (upd_nat (acked s) t ∅ t') (posters s !! t')).
    rewrite own_post. specialize (Hpart t' c' (Build_qps_ok _ _ Hn Hids Hown) Ht'). case_decide as Hd.
    + destruct Hd as [-> Ho]. rewrite (owned_inj t' t (r, v) Ho Hid) in *. destruct Hpart as (us & ws & E & Hu & Hw).
      rewrite Ht in Hw |- *. subst ws. destruct Hu as [->|(? & ? & -> & _ & Hno)]; [|done].
      change (own _ t c) with (own s t c). rewrite E. exists [(r, v)], []. split; [done|]. split; [|done]. right. exists r, v.
      split; [done|]. split; [done|]. unfold upd_nat. rewrite decide_True by done. set_solver.
    + eapply part_weaken; [|exact Hpart]. unfold upd_nat. case_decide; [set_solver|done].
Qed.

Lemma request_ok n s t c r : qps_ok n s → posters s !! t = Some Runs → wr_id r = Z.of_nat t → wr_signaled r = true →
  qps_ok n (post c (r, 0) (mkQps (slots s) (executed s) (words s) (<[t := Waits c]> (posters s)) (acked s) (written s))).
Proof.
  intros Hok Ht Hid Hsig. pose proof (qps_ok_part n s) as Hpart. destruct Hok as [Hn Hids Hown].
  assert (t < n)%nat as Htn by (rewrite <- Hn; by eapply lookup_lt_Some). split.
  - cbn. by rewrite length_insert.
  - intros c' x [Hx| ->]%elem_post; [by apply (Hids c' x)|]. by exists t.
  - intros t' c' Ht'. change (part_ok c' (own (post c (r, 0) (mkQps (slots s) (executed s) (words s) (<[t := Waits c]> (posters s)) (acked s) (written s))) t' c')
      (acked s t') (<[t := Waits c]> (posters s) !! t')).
    rewrite own_post. specialize (Hpart t' c' (Build_qps_ok _ _ Hn Hids Hown) Ht'). case_decide as Hd.
    + destruct Hd as [-> Ho]. rewrite (owned_inj t' t (r, 0) Ho Hid) in *. destruct Hpart as (us & ws & E & Hu & Hw).
      rewrite Ht in Hw. subst ws. rewrite app_nil_r in E. change (own _ t c) with (own s t c). rewrite E.
      exists us, [(r, 0)]. split; [done|]. split; [done|]. rewrite list_lookup_insert_eq by (rewrite Hn; done).
      rewrite decide_True by done. by exists r, 0.
    + destruct (decide (t' = t)) as [->|Hne]; [|by rewrite list_lookup_insert_ne].
      rewrite list_lookup_insert_eq by (rewrite Hn; done). rewrite Ht in Hpart. eapply part_runs; [|exact Hpart|]; [done|].
      intros <-. by destruct Hd.
Qed.

Lemma poll_ok n s c pre w v rest t ex : qps_ok n s → slots s c = pre ++ (w, v) :: rest →
  Forall (λ r, wr_signaled r.1 = false) pre → wr_signaled w = true → wr_id w = Z.of_nat t →
  qps_ok n (mkQps (upd (slots s) c rest) ex (words s) (<[t := Runs]> (posters s)) (upd_nat (acked s) t ({[c]} ∪ acked s t)) (written s)).
Proof.
  intros Hok Hsl Hpre Hsig Hid. pose proof (qps_ok_part n s) as Hpart. destruct Hok as [Hn Hids Hown]. split.
  - cbn. by rewrite length_insert.
  - intros c' x. unfold upd. cbn. destruct (Z.eqb_spec c' c) as [->|]; [|by apply Hids].
    intros Hx. apply (Hids c). rewrite Hsl. set_solver.
  - intros t' c' Ht'. specialize (Hpart t' c' (Build_qps_ok _ _ Hn Hids Hown) Ht').
    change (part_ok c' (filter (owned_by t') (upd (slots s) c rest c')) (upd_nat (acked s) t ({[c]} ∪ acked s t) t') (<[t := Runs]> (posters s) !! t')).
    unfold upd, upd_nat. destruct (Z.eqb_spec c' c) as [->|Hc]; [|change (filter _ (slots s c')) with (own s t' c')].
    + unfold own in Hpart. rewrite Hsl, filter_app, filter_cons in Hpart.
      assert (Forall (λ r : ibv_send_wr * Z, wr_signaled r.1 = false) (filter (owned_by t') pre)) as Hpre'.
      { rewrite Forall_forall in Hpre |- *. intros r [_ Hr]%list_elem_of_filter. by apply Hpre. }
      destruct (decide (t' = t)) as [->|Hne].
      * rewrite decide_True in Hpart by done. destruct (part_own _ _ _ _ _ _ _ Hsig Hpart) as [-> _].
        exists [], []. split; [done|]. split; [by left|]. by rewrite list_lookup_insert_eq by (rewrite Hn; done).
      * rewrite decide_False in Hpart by (intros Ho; by apply Hne, (owned_inj t' t (w, v))).
        rewrite list_lookup_insert_ne by done. by eapply part_suffix.
    + destruct (decide (t' = t)) as [->|Hne]; [|by rewrite list_lookup_insert_ne].
      rewrite list_lookup_insert_eq by (rewrite Hn; done). eapply part_weaken; [|eapply part_runs; [|exact Hpart|done]]; [set_solver|].
      assert (t < n)%nat as Htn by done. pose proof (qps_ok_part n s t c (Build_qps_ok _ _ Hn Hids Hown) Htn) as Hown'.
      unfold own in Hown'. rewrite Hsl, filter_app, filter_cons, decide_True in Hown' by done.
      destruct (part_own _ _ _ _ _ _ _ Hsig Hown') as [_ ->]. by intros <-.
Qed.

Lemma qps_ok_step n s s' : qps_ok n s → qps_step s (Some s') → qps_ok n s'.
Proof.
  intros Hok Hs. inversion Hs; subst.
  - by apply unlock_ok.
  - by apply request_ok.
  - destruct Hok. by split.
  - by eapply poll_ok.
Qed.

Lemma qps_ok_new n ws : qps_ok n (qps_new n ws).
Proof.
  split; cbn.
  - by rewrite length_replicate.
  - intros c r Hr. by apply elem_of_nil in Hr.
  - intros t c Ht. exists [], []. split; [done|]. split; [by left|]. by rewrite lookup_replicate_2.
Qed.

(** C20: send queues do not overflow. A node whose threads each follow the table's discipline - an
    unlock is posted only after a completion on the same connection since the thread's
    last unlock, everything else waits for its completion - never finds a send queue full, as long
    as it has no more than thirty-two threads: no assertion around a post fails, and each queue
    holds at most two requests per thread, however posts, executions and polls interleave. *)
Theorem send_queues_have_room n ws s :
  (2 * Z.of_nat n ≤ max_send_wr DefaultQpInitAttr) → star run_step (Some (qps_new n ws)) s →
  ∃ x, s = Some x ∧ ∀ c, (length (slots x c) ≤ 2 * n)%nat ∧ (∀ t, posters x !! t = Some Runs → room x c).
Proof.
  intros Hn Hs. assert (∃ x, s = Some x ∧ qps_ok n x) as (x & -> & Hok).
  - eapply (star_invariant run_step (λ s, ∃ x, s = Some x ∧ qps_ok n x)); [|by eexists; split; [|apply qps_ok_new]|exact Hs].
    intros s1 s2 (x & -> & Hok) (y & [= <-] & Hst). destruct s2 as [s2|]; [exists s2; split; [done|by eapply qps_ok_step]|].
    exfalso. inversion Hst as [| |? t c Ht Hno| |]; subst. apply Hno. destruct (qps_room n x c Hok) as [_ H]. specialize (H t Ht).
    unfold room. lia.
  - exists x. split; [done|]. intros c. destruct (qps_room n x c Hok) as [H1 H2]. split; [done|]. intros t Ht.
    specialize (H2 t Ht). unfold room. lia.
Qed.

(** ** What the unlocking writes write *)
(** A request the card has yet to take the data of: an unlock whose buffer still holds its value. *)
Definition pending_ok (s : qps) : Prop := ∀ c i w v,
  slots s c !! i = Some (w, v) → (executed s c ≤ i)%nat → wr_signaled w = false →
  ∃ t, owned_by t (w, v) ∧ locks t c ∧ sge_addr w = temp_lock t ∧ words s (temp_lock t) = v.
Definition written_ok (s : qps) : Prop := ∀ a v x, (a, v, x) ∈ written s → x = v.

Lemma pending_post c r s : pending_ok s →
  (wr_signaled r.1 = false → ∃ t, owned_by t r ∧ locks t c ∧ sge_addr r.1 = temp_lock t ∧ words s (temp_lock t) = r.2) →
  pending_ok (post c r s).
Proof.
  intros Hp Hr c' i w v. unfold post, upd. cbn. destruct (Z.eqb_spec c' c) as [->|]; [|by apply Hp].
  intros Hi He Hs. apply lookup_app_Some in Hi as [Hi|[_ Hi]]; [by apply (Hp c i)|].
  apply list_lookup_singleton_Some in Hi as [_ ->]. by apply Hr.
Qed.

Lemma pending_step n s s' : (∀ t c c', locks t c → locks t c' → c = c') → (∀ t t', temp_lock t = temp_lock t' → t = t') →
  qps_ok n s → pending_ok s → written_ok s → qps_step s (Some s') → pending_ok s' ∧ written_ok s'.
Proof.
  intros Hone Hinj Hok Hp Hw Hs. inversion Hs as [? t c v lk ra rk Ht Hl Ha Hr|? t c w Ht Hsig Hid Hr| |? c w v Hx
    |? c pre w v rest t u Hu Hsl Hlen Hpre Hsig Hid]; subst; clear Hs; (split; [|try exact Hw]).
  - apply pending_post; [|intros _; exists t; cbn; unfold upd; by rewrite Z.eqb_refl].
    intros c' i w v' Hi He Hs. destruct (Hp c' i w v' Hi He Hs) as (t' & Ho & Hl' & Hsge & Hv).
    exists t'. split; [done|]. split; [done|]. split; [done|]. cbn. unfold upd.
    destruct (Z.eqb_spec (temp_lock t') (temp_lock t)) as [E|]; [|done]. exfalso. apply Hinj in E as ->.
    rewrite (Hone t c' c Hl' Hl) in *. pose proof Hok as [Hn _ Hown].
    destruct (Hown t c) as (us & ws & Eo & Hu & Hws); [rewrite <- Hn; by eapply lookup_lt_Some|].
    rewrite Ht in Hws. subst ws. destruct Hu as [->|(? & ? & -> & _ & Hno)]; [|done].
    assert ((w, v') ∈ own s t c) as Hin by (apply list_elem_of_filter; split; [done|by eapply list_elem_of_lookup_2]).
    rewrite Eo in Hin. by apply elem_of_nil in Hin.
  - apply pending_post; [exact Hp|]. cbn. congruence.
  - intros c' i w' v'. unfold execute, complete, upd. cbn. destruct (Z.eqb_spec c' c) as [->|]; [|by apply Hp]. intros Hi He. apply (Hp c i); [done|lia].
  - unfold written_ok, execute. cbn. destruct (wr_signaled w) eqn:Hsig; [exact Hw|]. destruct (Hp c _ w v Hx ltac:(lia) Hsig) as (t & _ & _ & Ea & Ev).
    intros a v' x Hin. cbn in Hin. apply elem_of_app in Hin as [Hin|Hin]; [by apply (Hw a)|].
    apply list_elem_of_singleton in Hin. injection Hin as -> -> ->. by rewrite Ea.
  - intros c' i w' v'. unfold execute, complete, upd. cbn. destruct (Z.eqb_spec c' c) as [->|]; [|by apply Hp]. intros Hi He.
    apply (Hp c (S (length pre) + i)%nat); [|lia]. rewrite Hsl, lookup_app_r by lia.
    by replace (S (length pre) + i - length pre)%nat with (S i) by lia.
Qed.

(** C21: unlocks write what they mean when a thread's locks are behind one connection. The write of
    an unlock is not waited for and its data is fetched later, from a buffer the next unlock
    overwrites; the completion of the lock request on the same connection, which comes first, is
    what keeps the buffer unchanged until then. *)
Theorem unlocks_write_intended n ws x :
  (∀ t c c', locks t c → locks t c' → c = c') → (∀ t t', temp_lock t = temp_lock t' → t = t') →
  star run_step (Some (qps_new n ws)) (Some x) → written_ok x.
Proof.
  intros Hone Hinj Hs. pose (I := λ s : option qps, ∀ y, s = Some y → qps_ok n y ∧ pending_ok y ∧ written_ok y).
  assert (I (Some x)) as HI; [|by apply (HI x)].
  apply (star_invariant run_step I (Some (qps_new n ws))); [| |exact Hs].
  - intros s1 s2 H1 (y & -> & Hst) z ->. destruct (H1 y eq_refl) as (Hok & Hp & Hw).
    split; [by eapply qps_ok_step|by eapply pending_step].
  - intros y [= <-]. split; [apply qps_ok_new|]. split; [|intros a v z Hin; by apply elem_of_nil in Hin].
    intros c i w v Hi. cbn in Hi. by rewrite lookup_nil in Hi.
Qed.
End system.

(** ** Runs *)
(** A request for a lock, as [acquire] posts it. *)
Definition lock_wr (t lkey raddr rkey : Z) : ibv_send_wr := cas_wr t 512 lkey raddr rkey E_UNLOCKED E_LOCKED.
Definition ex_buffer (t : nat) : Z := 1024 + 8 * Z.of_nat t.

Ltac queue k := eapply star_step; [eexists; split; [reflexivity|k; try (vm_compute; reflexivity)]|].
(** Thread [t] takes the lock at [a] behind [c]. *)
Ltac take t c a := queue ltac:(apply (qs_request _ _ _ t c (lock_wr (Z.of_nat t) 7 a 9)));
  queue ltac:(eapply (qs_execute _ _ _ c)).
Ltac completes t c w := queue ltac:(apply (qs_poll _ _ _ c [] w 0 [] t t); [vm_compute; reflexivity|vm_compute; reflexivity|apply (bool_decide_unpack _); vm_compute; exact I|constructor|reflexivity|reflexivity]).

(** One buffer, two connections: a table that has locked and split a bucket on one node goes on to
    a bucket of another node. The write that marks the split bucket is executed after the buffer
    has been filled for the other bucket's unlock: the split bucket, whose pointer now leads to
    a bucket list, is marked as one that leads to an element list. *)
Theorem temp_lock_overwritten :
  ∃ x, star (run_step ex_buffer (λ _ _, True)) (Some (qps_new 1 (λ _, 0))) (Some x) ∧
    written x = [(4096, P_UNLOCKED, E_UNLOCKED)].
Proof.
  eexists. split.
  - take 0%nat 1 4096. completes 0%nat 1 (lock_wr 0 7 4096 9).
    queue ltac:(apply (qs_unlock _ _ _ 0 1 P_UNLOCKED 7 4096 9); [vm_compute; reflexivity|exact I|apply (bool_decide_unpack _); vm_compute; exact I|vm_compute; reflexivity]).
    take 0%nat 2 8192. completes 0%nat 2 (lock_wr 0 7 8192 9).
    queue ltac:(apply (qs_unlock _ _ _ 0 2 E_UNLOCKED 7 8192 9); [vm_compute; reflexivity|exact I|apply (bool_decide_unpack _); vm_compute; exact I|vm_compute; reflexivity]).
    queue ltac:(eapply (qs_execute _ _ _ 1)). apply star_refl.
  - vm_compute. reflexivity.
Qed.

(** Two threads on one connection. *)
Lemma ex_shared : ∃ x, star (run_step ex_buffer (λ _ c, c = 1)) (Some (qps_new 2 (λ _, 0))) (Some x) ∧
    written x = [(4096, P_UNLOCKED, P_UNLOCKED)] ∧ length (slots x 1) = 2%nat.
Proof.
  eexists. split.
  - take 0%nat 1 4096. completes 0%nat 1 (lock_wr 0 7 4096 9).
    queue ltac:(apply (qs_unlock _ _ _ 0 1 P_UNLOCKED 7 4096 9); [vm_compute; reflexivity|reflexivity|apply (bool_decide_unpack _); vm_compute; exact I|vm_compute; reflexivity]).
    queue ltac:(apply (qs_request _ _ _ 1 1 (lock_wr 1 7 8192 9))). queue ltac:(eapply (qs_execute _ _ _ 1)). apply star_refl.
  - split; vm_compute; reflexivity.
Qed.

Lemma send_queues_have_room_witness : ∃ x, star (run_step ex_buffer (λ _ c, c = 1)) (Some (qps_new 2 (λ _, 0))) (Some x) ∧
  length (slots x 1) = 2%nat ∧ ∀ c, (length (slots x c) ≤ 4)%nat.
Proof.
  destruct ex_shared as (x & Hx & _ & Hl). exists x. split; [exact Hx|]. split; [exact Hl|].
  destruct (send_queues_have_room ex_buffer (λ _ c, c = 1) 2 (λ _, 0) (Some x)) as (y & E & H); [by vm_compute|exact Hx|].
  injection E as <-. intros c. apply (H c).
Defined.

Lemma unlocks_write_intended_witness : ∃ x, star (run_step ex_buffer (λ _ c, c = 1)) (Some (qps_new 2 (λ _, 0))) (Some x) ∧
  written x = [(4096, P_UNLOCKED, P_UNLOCKED)] ∧ written_ok x.
Proof.
  destruct ex_shared as (x & Hx & Hw & _). exists x. split; [exact Hx|]. split; [exact Hw|].
  apply (unlocks_write_intended ex_buffer (λ _ c, c = 1) 2 (λ _, 0) x); [by intros t c c' -> ->|unfold ex_buffer; lia|exact Hx].
Defined.
