(* ===== verification/IhtLocal.v ===== *)
(** * [iht_carumap] (iht/iht_local.h): the node-local hash table behind the RPC server

    Buckets own what they point to, so a bucket is modelled by its target: null or an
    EList (lock [E_UNLOCKED]) or a PList (lock [P_UNLOCKED]). The operations are those
    of one thread; [acquire] then succeeds at once or reports a PList. *)
From S2P Require Import Prelude IhtRdma IhtElist IhtSpec.

(** What a table promises its clients: while there is room, a call behaves as the
    operation of a finite map. *)
Class TableLaws {K V T : Type} `{Countable K} (exec : @op V → K → T → result (T * option V))
    (abs : T → gmap K V → Prop) (room : @op V → K → gmap K V → Prop) : Prop :=
  exec_spec o key t M : abs t M → room o key M →
    ∃ t', exec o key t = Done (t', (spec_op o key M).2) ∧ abs t' (spec_op o key M).1.

#[local] Set Warnings "-register-all".

Section local.
Context {K V : Type} `{Countable K}.
Context (to_num : K → Z) (ELIST_SIZE PLIST_SIZE : nat).

Inductive base_t := BNull | BElist (l : list (K * V)) | BPlist (buckets : list base_t).
Abbreviation buckets_t := (list base_t).

(** [PList::make(size)] *)
Definition plist_make (size : nat) : buckets_t := replicate size BNull.

(** [level_hash]: here modulo the full bucket count. *)
Definition level_hash_local (key : K) (level count : Z) : Z :=
  mix13 (Z.lxor (to_num key) level) mod count.

Definition bucket_index (key : K) (level : Z) (count : nat) : nat :=
  Z.to_nat (level_hash_local key level (Z.of_nat count)).

(** Position and value of the first pair with the key. *)
Fixpoint find_key (key : K) (l : list (K * V)) (i : nat) : option (nat * V) :=
  match l with
  | [] => None
  | kv :: l' => if bool_decide (kv.1 = key) then Some (i, kv.2) else find_key key l' (S i)
  end.

(** [EList::unchecked_insert]: the block has room for [2 * ELIST_SIZE] pairs. *)
Definition unchecked_insert (l : list (K * V)) (kv : K * V) : result (list (K * V)) :=
  if bool_decide (length l < 2 * ELIST_SIZE)%nat then Done (l ++ [kv]) else Fault FUndef.

(** The loop of [rehash]: the bucket is hashed with the parent's level and count. *)
Fixpoint rehash_pairs (pcount : nat) (pdepth : Z) (src : list (K * V)) (p : buckets_t) : result buckets_t :=
  match src with
  | [] => Done p
  | kv :: src' =>
      let b := bucket_index kv.1 (pdepth + 1) pcount in
      t ← defined (p !! b);
      l ← (match t with
           | BNull => unchecked_insert [] kv
           | BElist l => unchecked_insert l kv
           | BPlist _ => Fault FUndef                  (* static_cast to EList *)
           end);
      rehash_pairs pcount pdepth src' (<[b := BElist l]> p)
  end.

(** [rehash(parent, pcount, pdepth, pidx)] on the pairs of bucket [pidx]. *)
Definition rehash_local (pcount : nat) (pdepth : Z) (src : list (K * V)) : result buckets_t :=
  rehash_pairs pcount pdepth src (plist_make (pcount * 2)).

(** [get(key, val)] from a PList at [depth]. *)
Fixpoint get_at (fuel : nat) (key : K) (curr : buckets_t) (depth : Z) (count : nat) : result (option V) :=
  match fuel with
  | O => Fault FFuel
  | S f =>
      t ← defined (curr !! bucket_index key (depth + 1) count);
      match t with
      | BPlist next => get_at f key next (depth + 1) (count * 2)
      | BNull => Done None
      | BElist l => Done (snd <$> find_key key l 0)
      end
  end.

(** [remove(key, val)]: the new table and the removed value. *)
Fixpoint remove_at (fuel : nat) (key : K) (curr : buckets_t) (depth : Z) (count : nat)
    : result (buckets_t * option V) :=
  match fuel with
  | O => Fault FFuel
  | S f =>
      let b := bucket_index key (depth + 1) count in
      t ← defined (curr !! b);
      match t with
      | BPlist next =>
          '(next, r) ← remove_at f key next (depth + 1) (count * 2);
          Done (<[b := BPlist next]> curr, r)
      | BNull => Done (curr, None)
      | BElist l =>
          match find_key key l 0 with
          | Some (i, v) => Done (<[b := BElist (swap_remove i l)]> curr, Some v)
          | None => Done (curr, None)
          end
      end
  end.

(** [insert(key, val)]: [None] when the pair was added, the old value otherwise. *)
Fixpoint insert_at (fuel : nat) (key : K) (val : V) (curr : buckets_t) (depth : Z) (count : nat)
    : result (buckets_t * option V) :=
  match fuel with
  | O => Fault FFuel
  | S f =>
      let b := bucket_index key (depth + 1) count in
      t ← defined (curr !! b);
      match t with
      | BPlist next =>
          '(next, r) ← insert_at f key val next (depth + 1) (count * 2);
          Done (<[b := BPlist next]> curr, r)
      | BNull => l ← unchecked_insert [] (key, val); Done (<[b := BElist l]> curr, None)
      | BElist l =>
          match find_key key l 0 with
          | Some (_, v) => Done (curr, Some v)
          | None =>
              if bool_decide (length l < ELIST_SIZE)%nat then
                l ← unchecked_insert l (key, val); Done (<[b := BElist l]> curr, None)
              else
                p ← rehash_local count depth l;
                insert_at f key val (<[b := BPlist p]> curr) depth count
          end
      end
  end.

Definition iht_carumap_new : buckets_t := plist_make PLIST_SIZE.
Definition get (fuel : nat) (key : K) (t : buckets_t) : result (option V) := get_at fuel key t 1 PLIST_SIZE.
Definition remove (fuel : nat) (key : K) (t : buckets_t) : result (buckets_t * option V) :=
  remove_at fuel key t 1 PLIST_SIZE.
Definition insert (fuel : nat) (key : K) (val : V) (t : buckets_t) : result (buckets_t * option V) :=
  insert_at fuel key val t 1 PLIST_SIZE.

(** One call of the public interface, named as in [spec_op]. *)
Definition local_exec (fuel : nat) (o : @op V) (key : K) (t : buckets_t) : result (buckets_t * option V) :=
  match o with
  | Contains => r ← get fuel key t; Done (t, r)
  | Insert v => insert fuel key v t
  | Remove => remove fuel key t
  end.

(** ** Pairs of one bucket *)
Lemma find_key_spec key l i :
  match find_key key l i with
  | Some (j, v) => (i ≤ j)%nat ∧ l !! (j - i)%nat = Some (key, v)
  | None => key ∉ l.*1
  end.
Proof.
  revert i. induction l as [|[k v] l IH]; intros i; cbn; [by intros ?%elem_of_nil|].
  case_bool_decide as E; cbn in E; subst.
  { rewrite Nat.sub_diag. auto. }
  specialize (IH (S i)). destruct (find_key key l (S i)) as [[j w]|].
  - destruct IH as [Hle Hl]. split; [lia|]. by replace (j - i)%nat with (S (j - S i)) by lia.
  - rewrite elem_of_cons. by intros [->|?].
Qed.

Lemma find_key_Some key l i v :
  find_key key l 0 = Some (i, v) → l !! i = Some (key, v).
Proof.
  intros E. pose proof (find_key_spec key l 0) as Hs. rewrite E in Hs.
  destruct Hs as [_ Hs]. by rewrite Nat.sub_0_r in Hs.
Qed.

Lemma find_key_None key l : find_key key l 0 = None → key ∉ l.*1.
Proof. intros E. pose proof (find_key_spec key l 0) as Hs. by rewrite E in Hs. Qed.

Lemma find_key_elem key l v : NoDup l.*1 → (key, v) ∈ l → snd <$> find_key key l 0 = Some v.
Proof.
  intros Hnd Hin. destruct (find_key key l 0) as [[i w]|] eqn:E.
  - apply find_key_Some in E. cbn. f_equal. apply list_elem_of_lookup in Hin as [j Hj].
    assert (i = j) as <-; [|congruence].
    eapply NoDup_lookup; [exact Hnd|by rewrite list_lookup_fmap, E|by rewrite list_lookup_fmap, Hj].
  - destruct (find_key_None _ _ E). by apply (list_elem_of_fmap_2 fst _ (key, v)).
Qed.

(** ** Rehashing *)
(** A bucket's keys hash to its index at the level and count [rehash] hashes with, so
    all of them go to that index of the new list. *)
Lemma rehash_pairs_same_index pcount pdepth pidx src l p :
  Forall (λ kv, bucket_index kv.1 (pdepth + 1) pcount = pidx) src →
  (pidx < length p)%nat → (length l + length src ≤ 2 * ELIST_SIZE)%nat →
  p !! pidx = Some (BElist l) →
  rehash_pairs pcount pdepth src p = Done (<[pidx := BElist (l ++ src)]> p).
Proof.
  intros Hsrc. revert l p. induction Hsrc as [|kv src Hkv Hsrc IH]; intros l p Hp Hlen Hl; cbn.
  { by rewrite app_nil_r, list_insert_id. }
  rewrite Hkv, Hl, defined_Some, bind_done. unfold unchecked_insert.
  cbn in Hlen. rewrite bool_decide_eq_true_2, bind_done by lia.
  rewrite (IH (l ++ [kv])).
  - by rewrite list_insert_insert_eq, <- app_assoc.
  - by rewrite length_insert.
  - rewrite length_app. cbn. lia.
  - by rewrite list_lookup_insert_eq.
Qed.

Lemma rehash_local_same_index pcount pdepth pidx src :
  Forall (λ kv, bucket_index kv.1 (pdepth + 1) pcount = pidx) src → src ≠ [] →
  (pidx < pcount)%nat → (length src ≤ 2 * ELIST_SIZE)%nat →
  rehash_local pcount pdepth src = Done (<[pidx := BElist src]> (plist_make (pcount * 2))).
Proof.
  intros Hsrc Hne Hlt Hlen. destruct Hsrc as [|kv src Hkv Hsrc]; [done|].
  unfold rehash_local, plist_make. cbn. cbn in Hlen.
  rewrite Hkv, lookup_replicate_2, defined_Some, bind_done by lia.
  unfold unchecked_insert. rewrite bool_decide_eq_true_2, bind_done by (cbn; lia).
  rewrite (rehash_pairs_same_index _ _ pidx _ [kv]);
    rewrite ?length_insert, ?length_replicate; try done; try (cbn; lia).
  - by rewrite list_insert_insert_eq.
  - rewrite list_lookup_insert_eq; [done|]. rewrite length_replicate. lia.
Qed.

(** The local table's [rehash] hashes with the level and bucket count of the
    parent, so all pairs of a bucket land at the same index again; afterwards a key is
    found exactly if its hash on the next level happens to be that index, and is lost
    otherwise. *)
Theorem local_rehash_strands pcount pdepth pidx src key v fuel :
  Forall (λ kv, bucket_index kv.1 (pdepth + 1) pcount = pidx) src → NoDup src.*1 →
  (pidx < pcount)%nat → (length src ≤ 2 * ELIST_SIZE)%nat → (key, v) ∈ src →
  ∃ p, rehash_local pcount pdepth src = Done p ∧
    get_at (S fuel) key p (pdepth + 1) (pcount * 2) =
      Done (if bool_decide (bucket_index key (pdepth + 2) (pcount * 2) = pidx) then Some v else None).
Proof.
  intros Hsrc Hnd Hlt Hlen Hin. eexists. split.
  { apply rehash_local_same_index; try done. by intros ->; apply elem_of_nil in Hin. }
  cbn. replace (pdepth + 1 + 1) with (pdepth + 2) by lia.
  assert (bucket_index key (pdepth + 2) (pcount * 2) < pcount * 2)%nat as Hb.
  { unfold bucket_index, level_hash_local.
    pose proof (Z.mod_pos_bound (mix13 (Z.lxor (to_num key) (pdepth + 2))) (Z.of_nat (pcount * 2)) ltac:(lia)).
    lia. }
  case_bool_decide as E.
  - rewrite E, list_lookup_insert_eq, defined_Some, bind_done by (unfold plist_make; rewrite length_replicate; lia).
    by rewrite (find_key_elem _ _ v).
  - rewrite list_lookup_insert_ne by done. unfold plist_make. by rewrite lookup_replicate_2 by done.
Qed.

(** ** The table while every bucket has room: a finite map *)
Implicit Types (M : gmap K V) (t : list base_t).

Definition leaf_pairs (x : base_t) : option (list (K * V)) :=
  match x with BNull => Some [] | BElist l => Some l | BPlist _ => None end.

(** The root bucket of a key. *)
Definition home (key : K) : nat := bucket_index key 2 PLIST_SIZE.

(** The leaf [x] at root index [b] holds exactly the pairs of [M] that belong there. *)
Definition leaf_ok (M : gmap K V) (b : nat) (x : base_t) : Prop :=
  ∃ l, leaf_pairs x = Some l ∧ NoDup l.*1 ∧
    ∀ key v, (key, v) ∈ l ↔ M !! key = Some v ∧ home key = b.

Definition local_abs t M : Prop :=
  length t = PLIST_SIZE ∧ ∀ b x, t !! b = Some x → leaf_ok M b x.

Definition neighbours (key : K) M : gmap K V := filter (λ kv, home kv.1 = home key) M.

(** The bucket of a key that is to be inserted is not full. *)
Definition local_room (o : @op V) (key : K) M : Prop :=
  match o with
  | Insert _ => M !! key = None → (size (neighbours key M) < ELIST_SIZE)%nat
  | _ => True
  end.

Lemma leaf_size M key x l :
  leaf_ok M (home key) x → leaf_pairs x = Some l → length l = size (neighbours key M).
Proof.
  intros (l' & E & Hnd & Hl) El. assert (l' = l) as -> by congruence. rewrite <- length_map_to_list.
  apply Permutation_length, NoDup_Permutation.
  - by eapply NoDup_fmap_1.
  - apply NoDup_map_to_list.
  - intros [k v]. rewrite elem_of_map_to_list. unfold neighbours.
    rewrite map_lookup_filter_Some. apply Hl.
Qed.

Lemma leaf_ok_other M M' b x :
  (∀ key, home key = b → M' !! key = M !! key) → leaf_ok M b x → leaf_ok M' b x.
Proof.
  intros HM (l & El & Hnd & Hl). exists l. split_and!; [done..|].
  intros key v. rewrite Hl. split; intros [E Hh]; (split; [|done]); [by rewrite HM|by rewrite <- HM].
Qed.

(** Changing the home bucket of [key] along with the map at [key]. *)
Lemma local_abs_update t M M' key x :
  local_abs t M → (∀ key', home key' ≠ home key → M' !! key' = M !! key') →
  leaf_ok M' (home key) x → local_abs (<[home key := x]> t) M'.
Proof.
  intros [Hlen Ht] HM Hx. split; [by rewrite length_insert|]. intros b y Hy.
  apply list_lookup_insert_Some in Hy as [(<- & <- & _)|[Hne Hy]]; [done|].
  apply leaf_ok_other with M; [|by apply Ht]. intros key' <-. apply HM. congruence.
Qed.

Lemma local_abs_new : local_abs iht_carumap_new ∅.
Proof.
  split; [apply length_replicate|]. intros b x Hx. apply lookup_replicate in Hx as [-> _].
  exists []. split_and!; [done|apply NoDup_nil_2|]. intros key v. rewrite elem_of_nil, lookup_empty.
  split; [done|by intros [? _]].
Qed.

Lemma leaf_lookup M key x l :
  leaf_ok M (home key) x → leaf_pairs x = Some l → snd <$> find_key key l 0 = M !! key.
Proof.
  intros (l' & E & Hnd & Hl) El. assert (l' = l) as -> by congruence. destruct (M !! key) as [v|] eqn:Hv.
  - apply find_key_elem; [done|]. by apply Hl.
  - destruct (find_key key l 0) as [[i v]|] eqn:Ef; [|done]. apply find_key_Some in Ef.
    apply list_elem_of_lookup_2, Hl in Ef as [Ef _]. congruence.
Qed.

Lemma leaf_ok_insert M key v x l :
  leaf_ok M (home key) x → leaf_pairs x = Some l → M !! key = None →
  leaf_ok (<[key := v]> M) (home key) (BElist (l ++ [(key, v)])).
Proof.
  intros (l' & E & Hnd & Hl) El Hnone. assert (l' = l) as -> by congruence. exists (l ++ [(key, v)]). split_and!; [done|..].
  - rewrite fmap_app. apply NoDup_app. split_and!; [done| |apply NoDup_singleton].
    intros k' ([k w] & -> & Hin)%list_elem_of_fmap Hk%list_elem_of_singleton.
    cbn in Hk. subst k. apply Hl in Hin as [Hin _]. congruence.
  - intros k w. rewrite elem_of_app, list_elem_of_singleton, Hl.
    rewrite lookup_insert_Some. split.
    + intros [[Hk Hh]|[= -> ->]]; [|auto]. split; [|done]. right. split; [congruence|done].
    + intros [[[-> ->]|[_ Hk]] Hh]; auto.
Qed.

Lemma leaf_ok_delete M key v x l i :
  leaf_ok M (home key) x → leaf_pairs x = Some l → l !! i = Some (key, v) →
  leaf_ok (delete key M) (home key) (BElist (swap_remove i l)).
Proof.
  intros (l' & E & Hnd & Hl) El Hi. assert (l' = l) as -> by congruence. exists (swap_remove i l).
  pose proof (swap_remove_perm _ _ _ Hi) as Hp. pose proof (swap_remove_keys _ _ _ Hi) as Hk.
  rewrite Hk in Hnd. apply NoDup_cons in Hnd as [Hni Hnd]. split_and!; [done..|].
  intros k w. rewrite lookup_delete_Some. specialize (Hl k w). rewrite Hp, elem_of_cons in Hl. split.
  - intros Hin. destruct Hl as [Hl _]. destruct Hl as [Hk' Hh]; [by right|]. split_and!; [|done..].
    intros <-. apply Hni. by apply (list_elem_of_fmap_2 fst _ (key, w)).
  - intros [[Hne Hw] Hh]. destruct Hl as [_ Hl]. by destruct Hl as [[= -> _]|?].
Qed.

Context (Hsize : (0 < PLIST_SIZE)%nat).

Lemma home_lt key : (home key < PLIST_SIZE)%nat.
Proof.
  unfold home, bucket_index, level_hash_local.
  pose proof (Z.mod_pos_bound (mix13 (Z.lxor (to_num key) 2)) (Z.of_nat PLIST_SIZE) ltac:(lia)). lia.
Qed.

Lemma home_bucket t M key :
  local_abs t M → ∃ x l, t !! home key = Some x ∧ leaf_pairs x = Some l ∧ leaf_ok M (home key) x.
Proof.
  intros [Hlen Ht]. destruct (lookup_lt_is_Some_2 t (home key)) as [x Hx].
  { rewrite Hlen. apply home_lt. }
  pose proof (Ht _ _ Hx) as Hok. pose proof Hok as (l & El & _). eauto.
Qed.

Lemma get_spec t M key fuel : local_abs t M → get (S fuel) key t = Done (M !! key).
Proof.
  intros Habs. destruct (home_bucket _ _ key Habs) as (x & l & Hx & Hl & Hok).
  unfold get. cbn. change (bucket_index key (1 + 1) PLIST_SIZE) with (home key).
  rewrite Hx, defined_Some, bind_done, <- (leaf_lookup _ _ _ _ Hok Hl).
  destruct x; cbn in Hl; by simplify_eq.
Qed.

Lemma remove_spec t M key fuel :
  local_abs t M → ∃ t', remove (S fuel) key t = Done (t', M !! key) ∧ local_abs t' (delete key M).
Proof.
  intros Habs. destruct (home_bucket _ _ key Habs) as (x & l & Hx & Hl & Hok).
  unfold remove. cbn. change (bucket_index key (1 + 1) PLIST_SIZE) with (home key).
  rewrite Hx, defined_Some, bind_done, <- (leaf_lookup _ _ _ _ Hok Hl).
  destruct (find_key key l 0) as [[i v]|] eqn:E; cbn.
  - pose proof (leaf_ok_delete _ _ _ _ _ _ Hok Hl (find_key_Some _ _ _ _ E)) as Hok'.
    destruct x; cbn in Hl; simplify_eq.
    eexists. split; [by rewrite E|]. apply local_abs_update with M; [done| |done].
    intros key' Hne. rewrite lookup_delete_ne; congruence.
  - pose proof (leaf_lookup _ _ _ _ Hok Hl) as Hn. rewrite E in Hn. exists t. split.
    + destruct x; cbn in Hl; simplify_eq; [done|by rewrite E].
    + by rewrite delete_id.
Qed.

Lemma insert_spec t M key v fuel :
  local_abs t M → local_room (Insert v) key M →
  ∃ t', insert (S fuel) key v t = Done (t', M !! key) ∧
    local_abs t' (match M !! key with Some _ => M | None => <[key := v]> M end).
Proof.
  intros Habs Hroom. destruct (home_bucket _ _ key Habs) as (x & l & Hx & Hl & Hok).
  unfold insert. cbn -[Nat.mul]. change (bucket_index key (1 + 1) PLIST_SIZE) with (home key).
  rewrite Hx. run. pose proof (leaf_lookup _ _ _ _ Hok Hl) as Hfind.
  destruct (find_key key l 0) as [[i w]|] eqn:E; cbn in Hfind; rewrite <- Hfind.
  - exists t. destruct x; cbn in Hl; simplify_eq; by rewrite E.
  - symmetry in Hfind. specialize (Hroom Hfind). rewrite <- (leaf_size _ _ _ _ Hok Hl) in Hroom.
    pose proof (leaf_ok_insert _ _ v _ _ Hok Hl Hfind) as Hok'.
    exists (<[home key := BElist (l ++ [(key, v)])]> t). split.
    + destruct x as [|l'|]; cbn -[Nat.mul] in Hl; simplify_eq; rewrite ?E; unfold unchecked_insert;
        rewrite ?(bool_decide_eq_true_2 _ Hroom);
        (rewrite bool_decide_eq_true_2, bind_done; [done|cbn -[Nat.mul] in *; lia]).
    + apply local_abs_update with M; [done| |done].
      intros key' Hne. rewrite lookup_insert_ne; congruence.
Qed.

#[export] Instance iht_carumap_laws fuel : TableLaws (local_exec (S fuel)) local_abs local_room.
Proof.
  intros o key t M Habs Hroom. destruct o; cbn [local_exec spec_op].
  - rewrite (get_spec _ _ _ _ Habs), bind_done. eauto.
  - by apply insert_spec.
  - by apply remove_spec.
Qed.
End local.

(** ** Histories of a table *)
Section history.
Context {K V T : Type} `{Countable K} (exec : @op V → K → T → result (T * option V)).
Context (abs : T → gmap K V → Prop) (room : @op V → K → gmap K V → Prop).
Context `{!TableLaws exec abs room}.

Fixpoint table_run (t : T) (ops : list (@op V * K)) : result (list (option V)) :=
  match ops with
  | [] => Done []
  | (o, key) :: ops' => '(t, r) ← exec o key t; rs ← table_run t ops'; Done (r :: rs)
  end.

Fixpoint table_rooms (M : gmap K V) (ops : list (@op V * K)) : Prop :=
  match ops with
  | [] => True
  | (o, key) :: ops' => room o key M ∧ table_rooms (spec_op o key M).1 ops'
  end.

Lemma table_run_spec t M ops :
  abs t M → table_rooms M ops → table_run t ops = Done (spec_ops M ops).
Proof.
  revert t M. induction ops as [|[o key] ops IH]; intros t M Habs Hr; [done|].
  destruct Hr as [Hroom Hr]. destruct (exec_spec _ _ _ _ Habs Hroom) as (t' & E & Habs').
  cbn. by rewrite E, bind_done, (IH _ _ Habs' Hr).
Qed.
End history.

(** As long as no root bucket needs more than [ELIST_SIZE] pairs, any sequence of
    calls on a new local table returns what the finite-map operations return. *)
Theorem iht_carumap_history {K V : Type} `{Countable K} (to_num : K → Z)
    (ELIST_SIZE PLIST_SIZE fuel : nat) (ops : list (@op V * K)) :
  (0 < PLIST_SIZE)%nat → table_rooms (local_room to_num ELIST_SIZE PLIST_SIZE) ∅ ops →
  table_run (local_exec to_num ELIST_SIZE PLIST_SIZE (S fuel)) (iht_carumap_new PLIST_SIZE) ops =
    Done (spec_ops ∅ ops).
Proof.
  intros Hsize Hr. pose proof (iht_carumap_laws (V:=V) to_num ELIST_SIZE PLIST_SIZE Hsize fuel).
  eapply (table_run_spec _ (local_abs to_num PLIST_SIZE)); [done|apply local_abs_new|done].
Qed.

Definition local_ops : list (@op Z * Z) :=
  map (λ x, (Insert (x * 10), x)) [1; 36; 48; 49; 284; 534; 607; 659] ++
  [(Contains, 284); (Remove, 284); (Contains, 284); (Insert 5, 36); (Insert 7270, 727)].

Lemma iht_carumap_history_witness :
  table_run (local_exec (λ x : Z, u64 x) 8 64 1) (iht_carumap_new 64) local_ops =
    Done (replicate 8 None ++ [Some 2840; Some 2840; None; Some 360; None]).
Proof.
  refine (iht_carumap_history (λ x : Z, u64 x) 8 64 0 local_ops _ _).
  - lia.
  - vm_compute. repeat split; intros; lia.
Defined.

(** The eight keys of a full root bucket, as the ninth insertion finds them. *)
Definition full_bucket : list (Z * Z) := map (λ x, (x, x * 10)) [1; 36; 48; 49; 284; 534; 607; 659].

Lemma local_rehash_strands_witness :
  ∃ p, rehash_local (λ x : Z, u64 x) 8 64 1 full_bucket = Done p ∧
    get_at (λ x : Z, u64 x) 1 1 p 2 128 = Done None.
Proof.
  refine (local_rehash_strands (λ x : Z, u64 x) 8 64 1
    (bucket_index (λ x : Z, u64 x) 1 2 64) full_bucket 1 10 0 _ _ _ _ _).
  - apply (bool_decide_unpack _). vm_compute. exact I.
  - apply (bool_decide_unpack _). vm_compute. exact I.
  - apply (bool_decide_unpack _). vm_compute. exact I.
  - apply (bool_decide_unpack _). vm_compute. exact I.
  - apply list_elem_of_here.
Defined.
