(* ===== verification/LocalConc.v ===== *)
(** * [iht_carumap] (iht/iht_local.h) used by several threads

    [IhtLocal.v] has the operations of one thread. Here a thread is a program counter and its
    place in the table; its steps are the load and the compare-and-swap of [acquire], the read
    of the base pointer of a bucket that has become a PList, the work on a bucket whose lock it
    holds, and the store that releases the lock. A bucket belongs to one PList and a PList
    to the one bucket that points to it, so a bucket is named by the indices that lead to it from
    the root. *)
From stdpp Require Import functions.
From S2P Require Import Prelude IhtRdma IhtElist IhtSpec IhtLocal.

Inductive lock_state_t := E_LOCKED | E_UNLOCKED | P_UNLOCKED.

Section conc.
Context {K V : Type} `{Countable K}.
Context (to_num : K → Z) (ELIST_SIZE PLIST_SIZE : nat).

(** ** The shared table *)
Abbreviation path := (list nat).
Abbreviation index_of := (IhtLocal.bucket_index to_num).

(** What the base pointer of a bucket points to: the buckets of a PList are cells of
    their own. *)
Inductive cbase := CNull | CElist (l : list (K * V)) | CPlist.
Record bucket := mkBucket { b_base : cbase; b_lock : lock_state_t }.
Abbreviation memory := (gmap path bucket).

(** The buckets of a fresh PList that the bucket [q] points to; [[]] stands for the root. *)
Definition cell_of (x : @base_t K V) : cbase :=
  match x with BNull => CNull | BElist l => CElist l | BPlist _ => CPlist end.
Definition plist_at (q : path) (p : list base_t) : memory :=
  list_to_map (imap (λ i x, (q ++ [i], mkBucket (cell_of x) E_UNLOCKED)) p).
Definition carumap_new : memory := plist_at [] (iht_carumap_new PLIST_SIZE).

(** ** The work on a locked bucket *)
(** A call is finished with the new content of the bucket, or the bucket was full and has been
    rehashed into a PList. *)
Inductive outcome := Finish (b : cbase) (r : option V) | Expand (p : list (@base_t K V)).

Definition bucket_body (o : @op V) (key : K) (depth : Z) (count : nat) (b : cbase) : result outcome :=
  match b with
  | CNull =>
      match o with
      | Insert v => l ← unchecked_insert ELIST_SIZE [] (key, v); Done (Finish (CElist l) None)
      | _ => Done (Finish b None)
      end
  | CElist l =>
      match find_key key l 0, o with
      | Some (i, v), Remove => Done (Finish (CElist (swap_remove i l)) (Some v))
      | Some (i, v), _ => Done (Finish b (Some v))
      | None, Insert v =>
          if bool_decide (length l < ELIST_SIZE)%nat then
            l ← unchecked_insert ELIST_SIZE l (key, v); Done (Finish (CElist l) None)
          else
            p ← rehash_local to_num ELIST_SIZE count depth l; Done (Expand p)
      | None, _ => Done (Finish b None)
      end
  | CPlist => Fault FUndef                               (* static_cast to EList *)
  end.

(** ** Threads *)
(** [curr], [depth] and [count] of a call. *)
Record visit := mkVisit { curr : path; depth : Z; count : nat }.
Definition visit_start : visit := mkVisit [] 1 PLIST_SIZE.
Definition visit_down (v : visit) (b : nat) : visit := mkVisit (curr v ++ [b]) (depth v + 1) (count v * 2).

(** The bucket a call looks at. *)
Definition bucket_of (key : K) (v : visit) : nat := index_of key (depth v + 1) (count v).
Definition place (key : K) (v : visit) : path := curr v ++ [bucket_of key v].

(** Where a thread is: outside; at the load of [acquire]; at its compare-and-swap; [acquire]
    has returned false; it has the lock; it is to store [P_UNLOCKED]; it is to store
    [E_UNLOCKED] and return [r]. *)
Inductive local_pc :=
| LOut | LLoad (o : @op V) (key : K) (v : visit) | LCas (o : @op V) (key : K) (v : visit)
| LDown (o : @op V) (key : K) (v : visit) | LBody (o : @op V) (key : K) (v : visit)
| LSplit (o : @op V) (key : K) (v : visit) | LUnlock (o : @op V) (key : K) (v : visit) (r : option V).

(** What took effect: a call of a thread with its result, or the bucket [q] was rehashed.
    [events] and [results] (of the calls each thread has returned from) only record the execution. *)
Inductive event := ECall (t : nat) (o : @op V) (key : K) (r : option V) | ESplit (q : path).

Record table := mkTable {
  cells : memory; threads : nat → local_pc;
  events : list event; results : nat → list (@op V * K * option V) }.

Definition table_new : table := mkTable carumap_new (λ _, LOut) [] (λ _, []).
Definition goto (t : nat) (pc : local_pc) (s : table) : table :=
  mkTable (cells s) (<[t := pc]> (threads s)) (events s) (results s).
Definition write (q : path) (b : bucket) (s : table) : table :=
  mkTable (<[q := b]> (cells s)) (threads s) (events s) (results s).
Definition record (e : event) (s : table) : table :=
  mkTable (cells s) (threads s) (events s ++ [e]) (results s).

Implicit Types s : table.

Inductive local_step s (t : nat) : table → Prop :=
| l_call o key : threads s t = LOut → local_step s t (goto t (LLoad o key visit_start) s)
| l_load_free o key v b : threads s t = LLoad o key v → cells s !! place key v = Some b → b_lock b = E_UNLOCKED →
    local_step s t (goto t (LCas o key v) s)
| l_load_busy o key v b : threads s t = LLoad o key v → cells s !! place key v = Some b → b_lock b = E_LOCKED →
    local_step s t s
| l_load_plist o key v b : threads s t = LLoad o key v → cells s !! place key v = Some b → b_lock b = P_UNLOCKED →
    local_step s t (goto t (LDown o key v) s)
| l_cas o key v b : threads s t = LCas o key v → cells s !! place key v = Some b → b_lock b = E_UNLOCKED →
    local_step s t (goto t (LBody o key v) (write (place key v) (mkBucket (b_base b) E_LOCKED) s))
| l_cas_fails o key v b : threads s t = LCas o key v → cells s !! place key v = Some b →   (* also spuriously *)
    local_step s t (goto t (match b_lock b with P_UNLOCKED => LDown o key v | _ => LLoad o key v end) s)
| l_down o key v b : threads s t = LDown o key v → cells s !! place key v = Some b → b_base b = CPlist →
    local_step s t (goto t (LLoad o key (visit_down v (bucket_of key v))) s)
| l_finish o key v b c r : threads s t = LBody o key v → cells s !! place key v = Some b →
    bucket_body o key (depth v) (count v) (b_base b) = Done (Finish c r) →
    local_step s t (record (ECall t o key r) (goto t (LUnlock o key v r) (write (place key v) (mkBucket c (b_lock b)) s)))
| l_expand o key v b p : threads s t = LBody o key v → cells s !! place key v = Some b →
    bucket_body o key (depth v) (count v) (b_base b) = Done (Expand p) →
    local_step s t (record (ESplit (place key v)) (goto t (LSplit o key v)
      (mkTable (<[place key v := mkBucket CPlist (b_lock b)]> (plist_at (place key v) p ∪ cells s))
        (threads s) (events s) (results s))))
| l_unlock_plist o key v b : threads s t = LSplit o key v → cells s !! place key v = Some b →
    local_step s t (goto t (LLoad o key v) (write (place key v) (mkBucket (b_base b) P_UNLOCKED) s))
| l_unlock o key v b r : threads s t = LUnlock o key v r → cells s !! place key v = Some b →
    local_step s t (mkTable (<[place key v := mkBucket (b_base b) E_UNLOCKED]> (cells s)) (<[t := LOut]> (threads s))
      (events s) (<[t := results s t ++ [(o, key, r)]]> (results s))).

Definition any_step s s' : Prop := ∃ t, local_step s t s'.

(** ** Where a key belongs *)
(** The bucket of a key in the PList [q], and its path through [n] levels. *)
Definition slot (key : K) (q : path) : nat :=
  index_of key (Z.of_nat (length q) + 2) (PLIST_SIZE * 2 ^ length q).
Fixpoint key_path (key : K) (n : nat) : path :=
  match n with O => [] | S n => key_path key n ++ [slot key (key_path key n)] end.

Definition leaf_of (c : cbase) : option (list (K * V)) :=
  match c with CNull => Some [] | CElist l => Some l | CPlist => None end.
(** The value [key] has in a bucket. *)
Definition value (l : list (K * V)) (key : K) : option V := snd <$> find_key key l 0.

Definition is_plist (m : memory) (q : path) : Prop := ∃ b, m !! q = Some b ∧ b_base b = CPlist.
(** The key's path ends at level [n], in a bucket with the pairs [l]. *)
Definition at_home (m : memory) (key : K) (n : nat) (l : list (K * V)) : Prop :=
  (∀ i, (i < n)%nat → is_plist m (key_path key (S i))) ∧
  ∃ b, m !! key_path key (S n) = Some b ∧ leaf_of (b_base b) = Some l.

(** The pairs of the bucket [q] that its rehash puts where they are not looked for. *)
Definition stranded (q : path) (key : K) : Prop :=
  key_path key (length q) = q ∧ last q ≠ Some (slot key q).
#[local] Instance stranded_dec q key : Decision (stranded q key).
Proof. unfold stranded. apply _. Defined.

(** ** The specification: a finite map that loses stranded keys *)
Definition apply_event (M : gmap K V) (e : event) : gmap K V :=
  match e with
  | ECall _ o key _ => (spec_op o key M).1
  | ESplit q => filter (λ kv, ¬ stranded q kv.1) M
  end.
Definition map_of (es : list event) : gmap K V := foldl apply_event ∅ es.
Definition legal (es : list event) : Prop :=
  ∀ pre t o key r post, es = pre ++ ECall t o key r :: post → r = (spec_op o key (map_of pre)).2.

Lemma map_of_snoc es e : map_of (es ++ [e]) = apply_event (map_of es) e.
Proof. unfold map_of. by rewrite foldl_app. Qed.

Lemma legal_event_snoc es e :
  legal es → (∀ t o key r, e = ECall t o key r → r = (spec_op o key (map_of es)).2) → legal (es ++ [e]).
Proof.
  intros Hl He pre t o key r post E. destruct post as [|e' post _] using rev_ind.
  - apply app_inj_tail in E as [<- ->]. by eapply He.
  - rewrite app_comm_cons, app_assoc in E. apply app_inj_tail in E as [-> _]. by eapply Hl.
Qed.

(** ** Rehashing a bucket *)
Lemma filter_cons_slot (P : nat) (kv : K * V) d c l :
  filter (λ x : K * V, index_of x.1 d c = P) (kv :: l) =
  (if decide (index_of kv.1 d c = P) then [kv] else []) ++ filter (λ x : K * V, index_of x.1 d c = P) l.
Proof. rewrite filter_cons. by case_decide. Qed.

Lemma rehash_pairs_spec (c : nat) (d : Z) (src : list (K * V)) p n :
  (∀ i x, p !! i = Some x → ∃ l, leaf_pairs x = Some l ∧ (length l ≤ n)%nat) →
  (n + length src ≤ 2 * ELIST_SIZE)%nat → (c ≤ length p)%nat → (0 < c)%nat →
  ∃ p', rehash_pairs to_num ELIST_SIZE c d src p = Done p' ∧ length p' = length p ∧
    ∀ i x l, p !! i = Some x → leaf_pairs x = Some l →
      ∃ x', p' !! i = Some x' ∧ leaf_pairs x' = Some (l ++ filter (λ kv, index_of kv.1 (d + 1) c = i) src).
Proof.
  intros Hp Hn Hc Hc0. revert p n Hp Hn Hc. induction src as [|kv src IH]; intros p n Hp Hn Hc.
  { exists p. split_and!; [done..|]. intros i x l Hi Hl. exists x. by rewrite app_nil_r. }
  cbn [rehash_pairs]. assert (index_of kv.1 (d + 1) c < length p)%nat as Hb.
  { unfold bucket_index, level_hash_local.
    pose proof (Z.mod_pos_bound (mix13 (Z.lxor (to_num kv.1) (d + 1))) (Z.of_nat c) ltac:(lia)). lia. }
  set (b := index_of kv.1 (d + 1) c) in *. destruct (lookup_lt_is_Some_2 p b Hb) as [y Hy].
  destruct (Hp _ _ Hy) as (ly & Hly & Hlen). cbn in Hn. rewrite Hy, defined_Some, bind_done.
  assert ((match y with BNull => unchecked_insert ELIST_SIZE [] kv | BElist l => unchecked_insert ELIST_SIZE l kv
    | BPlist _ => Fault FUndef end) = Done (ly ++ [kv])) as E.
  { destruct y; cbn in Hly; simplify_eq; unfold unchecked_insert; by rewrite bool_decide_eq_true_2 by (cbn in *; lia). }
  rewrite E, bind_done. destruct (IH (<[b := BElist (ly ++ [kv])]> p) (S n)) as (p' & Er & Hl' & Hp'); [|lia|by rewrite length_insert|].
  - intros i x Hi. apply list_lookup_insert_Some in Hi as [(_ & <- & _)|[_ Hi]].
    + eexists. split; [done|]. rewrite length_app. cbn. lia.
    + destruct (Hp _ _ Hi) as (l & ? & ?). exists l. split; [done|lia].
  - exists p'. split_and!; [done|by rewrite Hl', length_insert|]. intros i x l Hi Hl. rewrite filter_cons_slot. fold b.
    case_decide as Hbi.
    + subst i. rewrite Hy in Hi. injection Hi as <-. rewrite Hly in Hl. injection Hl as <-.
      destruct (Hp' b (BElist (ly ++ [kv])) (ly ++ [kv])) as (x' & ? & Hx'); [by apply list_lookup_insert_eq|done|].
      exists x'. split; [done|]. by rewrite Hx', <- app_assoc.
    + destruct (Hp' i x l) as (x' & ? & Hx'); [by rewrite list_lookup_insert_ne|done|]. exists x'. by rewrite Hx'.
Qed.

Lemma rehash_local_spec (c : nat) (d : Z) (src : list (K * V)) :
  (length src ≤ ELIST_SIZE)%nat → (0 < c)%nat →
  ∃ p, rehash_local to_num ELIST_SIZE c d src = Done p ∧ length p = (c * 2)%nat ∧
    ∀ i, (i < c * 2)%nat → ∃ x, p !! i = Some x ∧
      leaf_pairs x = Some (filter (λ kv, index_of kv.1 (d + 1) c = i) src).
Proof.
  intros Hlen Hc. unfold rehash_local, plist_make.
  destruct (rehash_pairs_spec c d src (replicate (c * 2) BNull) 0) as (p & E & Hl & Hp).
  - intros i x Hi. apply lookup_replicate in Hi as [-> _]. by exists [].
  - lia.
  - rewrite length_replicate. lia.
  - done.
  - rewrite length_replicate in Hl. exists p. split_and!; [done..|]. intros i Hi.
    destruct (Hp i BNull []) as (x & ? & ?); [by apply lookup_replicate_2|done|]. by exists x.
Qed.

(** ** The work on one bucket *)
Definition leaf_good (l : list (K * V)) : Prop := NoDup l.*1 ∧ (length l ≤ ELIST_SIZE)%nat.

Lemma value_spec (l : list (K * V)) k v : NoDup l.*1 → value l k = Some v ↔ (k, v) ∈ l.
Proof.
  intros Hnd. split; [|by apply find_key_elem]. unfold value.
  destruct (find_key k l 0) as [[i w]|] eqn:E; [|done]. cbn. intros [= ->].
  by apply find_key_Some, list_elem_of_lookup_2 in E.
Qed.

Lemma value_ext (l l' : list (K * V)) k : NoDup l.*1 → NoDup l'.*1 →
  (∀ v, (k, v) ∈ l ↔ (k, v) ∈ l') → value l k = value l' k.
Proof.
  intros Hl Hl' E. apply option_eq. intros v. by rewrite !value_spec, E.
Qed.

Lemma NoDup_filter_keys (P : K * V → Prop) `{!∀ kv, Decision (P kv)} (l : list (K * V)) :
  NoDup l.*1 → NoDup (filter P l).*1.
Proof.
  induction l as [|kv l IH]; [done|]. rewrite fmap_cons. intros [Hni Hnd]%NoDup_cons. rewrite filter_cons.
  case_decide; [|by apply IH]. rewrite fmap_cons. apply NoDup_cons. split; [|by apply IH].
  intros (x & E & Hx)%list_elem_of_fmap. apply Hni. rewrite E. apply list_elem_of_filter in Hx as [_ Hx].
  by apply list_elem_of_fmap_2.
Qed.

Lemma value_filter (P : K → Prop) `{!∀ k, Decision (P k)} (l : list (K * V)) k : NoDup l.*1 →
  value (filter (λ kv, P kv.1) l) k = if decide (P k) then value l k else None.
Proof.
  intros Hl. pose proof (NoDup_filter_keys (λ kv, P kv.1) l Hl) as Hf.
  case_decide as HP; [apply value_ext; [done..|]; intros v; rewrite list_elem_of_filter; naive_solver|].
  apply eq_None_not_Some. intros [v Hv]. apply value_spec, list_elem_of_filter in Hv as [? _]; done.
Qed.

Lemma leaf_good_add (l : list (K * V)) key v : leaf_good l → value l key = None → (length l < ELIST_SIZE)%nat →
  leaf_good (l ++ [(key, v)]) ∧ value (l ++ [(key, v)]) key = Some v ∧
  ∀ k, k ≠ key → value (l ++ [(key, v)]) k = value l k.
Proof.
  intros [Hnd Hlen] Hnone Hlt. assert (NoDup (l ++ [(key, v)]).*1) as Hnd'.
  { rewrite fmap_app. apply NoDup_app. split_and!; [done| |apply NoDup_singleton].
    intros k ([k' w] & -> & Hin)%list_elem_of_fmap Hk%list_elem_of_singleton. cbn in Hk. subst k'.
    apply value_spec in Hin; [congruence|done]. }
  split_and!.
  - split; [done|]. rewrite length_app. cbn. lia.
  - apply value_spec; [done|]. rewrite elem_of_app, list_elem_of_singleton. by right.
  - intros k Hk. apply value_ext; [done..|]. intros w. rewrite elem_of_app, list_elem_of_singleton.
    naive_solver.
Qed.

Lemma leaf_good_remove (l : list (K * V)) key v i : leaf_good l → l !! i = Some (key, v) →
  leaf_good (swap_remove i l) ∧ value (swap_remove i l) key = None ∧
  ∀ k, k ≠ key → value (swap_remove i l) k = value l k.
Proof.
  intros [Hnd Hlen] Hi. pose proof (swap_remove_perm _ _ _ Hi) as Hp. pose proof (swap_remove_keys _ _ _ Hi) as Hk.
  pose proof Hnd as Hnd0. rewrite Hk in Hnd0. apply NoDup_cons in Hnd0 as [Hni Hnd']. split_and!.
  - split; [done|]. rewrite swap_remove_length. lia.
  - apply eq_None_not_Some. intros [w Hw]. apply value_spec in Hw; [|done]. apply Hni.
    by apply (list_elem_of_fmap_2 fst _ (key, w)).
  - intros k Hne. apply value_ext; [done..|]. intros w.
    assert ((k, w) ∈ l ↔ (k, w) ∈ (key, v) :: swap_remove i l) as -> by (by rewrite <- Hp).
    rewrite elem_of_cons. naive_solver.
Qed.

(** What a call does to the value of its key. *)
Definition after (o : @op V) (x : option V) : option V :=
  match o with Contains => x | Insert v => Some (default v x) | Remove => None end.

Lemma spec_op_at (o : @op V) (key : K) M :
  (spec_op o key M).2 = M !! key ∧ (spec_op o key M).1 !! key = after o (M !! key) ∧
  ∀ k, k ≠ key → (spec_op o key M).1 !! k = M !! k.
Proof.
  destruct o as [|v|]; cbn; (split; [done|]); [done| |split; [by rewrite lookup_delete_eq|intros; by rewrite lookup_delete_ne]].
  destruct (M !! key) as [w|] eqn:E; [done|]. split; [by rewrite lookup_insert_eq|intros; by rewrite lookup_insert_ne].
Qed.

(** A finished call returns the old value of its key and changes nothing else in the bucket. *)
Lemma body_finish o key d c b l b' r :
  leaf_of b = Some l → leaf_good l → (0 < ELIST_SIZE)%nat →
  bucket_body o key d c b = Done (Finish b' r) →
  ∃ l', leaf_of b' = Some l' ∧ leaf_good l' ∧ r = value l key ∧ value l' key = after o r ∧
    ∀ k, k ≠ key → value l' k = value l k.
Proof.
  intros Hb Hl Hpos E. destruct b as [|l0|]; cbn in Hb; simplify_eq; unfold bucket_body in E.
  - destruct o as [|v|]; simplify_eq; try by (exists []).
    done_inv. unfold unchecked_insert in E0. case_bool_decide; [|done]. injection E0 as <-. exists [(key, v)].
    by destruct (leaf_good_add [] key v Hl eq_refl Hpos) as (? & Hv & ?).
  - destruct (find_key key l 0) as [[i w]|] eqn:Ef.
    + assert (value l key = Some w) as Hv by (unfold value; by rewrite Ef).
      destruct o as [|v|]; simplify_eq; try by (exists l).
      destruct (leaf_good_remove l key w i Hl (find_key_Some _ _ _ _ Ef)) as (? & Hn & ?). by exists (swap_remove i l).
    + assert (value l key = None) as Hv by (unfold value; by rewrite Ef).
      destruct o as [|v|]; simplify_eq; try by (exists l).
      case_bool_decide as Hlt; done_inv; [|done]. unfold unchecked_insert in E0. case_bool_decide; [|done]. injection E0 as <-.
      destruct (leaf_good_add l key v Hl Hv Hlt) as (? & Hv' & ?). by exists (l ++ [(key, v)]).
Qed.

Lemma body_expand o key d c b p : bucket_body o key d c b = Done (Expand p) →
  ∃ l, leaf_of b = Some l ∧ rehash_local to_num ELIST_SIZE c d l = Done p ∧ (ELIST_SIZE ≤ length l)%nat.
Proof.
  unfold bucket_body. destruct b as [|l|]; [destruct o; intros; by done_inv| |done].
  destruct (find_key key l 0) as [[i w]|]; destruct o; try by intros; done_inv.
  case_bool_decide as Hlt; intros; done_inv; [done|]. simplify_eq. exists l. split_and!; [done..|lia].
Qed.

(** The work on a sound bucket has no fault. *)
Lemma body_done o key d c b l : leaf_of b = Some l → leaf_good l → (0 < c)%nat → (0 < ELIST_SIZE)%nat →
  ∃ out, bucket_body o key d c b = Done out.
Proof.
  intros Hb [_ Hlen] Hc Hpos. destruct b as [|l0|]; cbn in Hb; simplify_eq; unfold bucket_body, unchecked_insert.
  - destruct o; try (by eexists). rewrite bool_decide_eq_true_2 by (cbn; lia). by eexists.
  - destruct (find_key key l 0) as [[i w]|]; destruct o; try (by eexists).
    case_bool_decide; [rewrite bool_decide_eq_true_2 by lia; by eexists|].
    destruct (rehash_local_spec c d l Hlen Hc) as (p & E & _). rewrite E, bind_done. by eexists.
Qed.

(** ** The cells of a table *)
Implicit Types (m : memory) (q : path).

Lemma plist_at_Some q p a b :
  plist_at q p !! a = Some b ↔ ∃ i x, a = q ++ [i] ∧ p !! i = Some x ∧ b = mkBucket (cell_of x) E_UNLOCKED.
Proof.
  unfold plist_at. split.
  - intros E. apply elem_of_list_to_map_2 in E. apply elem_of_lookup_imap in E as (i & x & [= -> ->] & Hx). eauto.
  - intros (i & x & -> & Hx & ->). apply elem_of_list_to_map_1'.
    + intros y Hy. apply elem_of_lookup_imap in Hy as (i' & x' & [= E ->] & Hx').
      apply app_inj_tail in E as [_ ->]. congruence.
    + apply elem_of_lookup_imap. eauto.
Qed.

Lemma leaf_of_cell (x : base_t) : leaf_of (cell_of x) = leaf_pairs x.
Proof. by destruct x. Qed.

(** What the contents of the cells have to do with each other, whatever the locks are. *)
Record mem_ok m : Prop := {
  mo_home key : ∃ n l, at_home m key n l;
  mo_leaf q b l : m !! q = Some b → leaf_of (b_base b) = Some l → leaf_good l;
  mo_below q i b : m !! (q ++ [i]) = Some b → q = [] ∨ is_plist m q;
  mo_lock q b : m !! q = Some b → (b_lock b = E_UNLOCKED → b_base b ≠ CPlist) ∧ (b_lock b = P_UNLOCKED → b_base b = CPlist) }.

Lemma leaf_plist c : c ≠ CPlist ↔ is_Some (leaf_of c).
Proof. destruct c; cbn; split; intros; try done; by eexists || by destruct H0. Qed.

Lemma key_path_length key n : length (key_path key n) = n.
Proof. induction n as [|n IH]; [done|]. cbn. rewrite length_app, IH. cbn. lia. Qed.

Lemma key_path_not_nil key n : key_path key (S n) ≠ [].
Proof. intros E. apply (f_equal length) in E. by rewrite key_path_length in E. Qed.

Lemma key_path_inj key key' n n' : key_path key n = key_path key' n' → n = n'.
Proof. intros E. apply (f_equal length) in E. by rewrite !key_path_length in E. Qed.

Lemma snoc_neq (q : path) i : q ≠ q ++ [i].
Proof. intros E. apply (f_equal length) in E. rewrite length_app in E. cbn in E. lia. Qed.

(** The prefixes of a path are its paths. *)
Lemma key_path_prefix key key' n k : key_path key n = key_path key' n → (k ≤ n)%nat → key_path key k = key_path key' k.
Proof.
  intros E Hk. induction n as [|n IH]; [by assert (k = 0%nat) as -> by lia|].
  destruct (decide (k = S n)) as [->|]; [done|]. apply IH; [|lia]. cbn in E. by apply app_inj_tail in E as [? _].
Qed.

Lemma at_home_unique m key n l n' l' : at_home m key n l → at_home m key n' l' → n = n' ∧ l = l'.
Proof.
  intros [H1 (b & Hb & Hl)] [H1' (b' & Hb' & Hl')].
  assert (∀ a a' la, (a < a')%nat → (∀ i, (i < a')%nat → is_plist m (key_path key (S i))) →
    (∃ b, m !! key_path key (S a) = Some b ∧ leaf_of (b_base b) = Some la) → False) as Hno.
  { intros a a' la Hlt Hi (c & Hc & Hla). destruct (Hi a Hlt) as (c' & Hc' & E). simplify_eq. by rewrite E in Hla. }
  destruct (lt_eq_lt_dec n n') as [[Hlt| ->]|Hlt]; [by destruct (Hno n n' l Hlt); eauto| |by destruct (Hno n' n l' Hlt); eauto].
  split; [done|]. simplify_eq. done.
Qed.

(** *** Other content or another lock for one cell that is and stays a leaf *)
Section update.
Context m q b c (Hq : m !! q = Some b) (Hb : b_base b ≠ CPlist) (Hc : b_base c ≠ CPlist).

Lemma update_is_plist a : is_plist (<[q := c]> m) a ↔ is_plist m a.
Proof.
  unfold is_plist. destruct (decide (q = a)) as [<-|Hne]; [|by rewrite lookup_insert_ne].
  rewrite lookup_insert_eq. split; intros (x & E & Hx); simplify_eq.
Qed.

Lemma update_at_home key n l' : at_home (<[q := c]> m) key n l' ↔
  if decide (key_path key (S n) = q) then leaf_of (b_base c) = Some l' ∧ ∃ l, at_home m key n l
  else at_home m key n l'.
Proof.
  unfold at_home. setoid_rewrite update_is_plist. case_decide as E.
  - rewrite E, lookup_insert_eq. split.
    + intros [Hi (x & Hx & Hl)]. injection Hx as <-. split; [done|].
      destruct (proj1 (leaf_plist _) Hb) as [l Hl0]. exists l. eauto.
    + intros [Hl (l & Hi & _)]. eauto.
  - by rewrite lookup_insert_ne.
Qed.

Lemma update_mem_ok : mem_ok m → (∀ l, leaf_of (b_base c) = Some l → leaf_good l) → b_lock c ≠ P_UNLOCKED →
  mem_ok (<[q := c]> m).
Proof.
  intros [Hh Hl Hbe Hlk] Hgood Hlock. split.
  - intros key. destruct (Hh key) as (n & l & Hn). exists n. destruct (proj1 (leaf_plist _) Hc) as [l' Hl'].
    destruct (decide (key_path key (S n) = q)) as [E|E]; [exists l'|exists l]; rewrite update_at_home; case_decide; eauto; done.
  - intros a x l Ha Hx. apply lookup_insert_Some in Ha as [[<- <-]|[_ Ha]]; eauto.
  - intros a i x Ha. rewrite update_is_plist. apply lookup_insert_Some in Ha as [[E <-]|[_ Ha]]; [|by eapply Hbe].
    rewrite E in Hq. by eapply Hbe.
  - intros a x Ha. apply lookup_insert_Some in Ha as [[<- <-]|[_ Ha]]; [done|by eapply Hlk].
Qed.
End update.

(** *** Another lock for one cell *)
Section relock.
Context m q b c (Hq : m !! q = Some b) (Hc : b_base c = b_base b).

Lemma relock_is_plist a : is_plist (<[q := c]> m) a ↔ is_plist m a.
Proof.
  unfold is_plist. destruct (decide (q = a)) as [<-|Hne]; [|by rewrite lookup_insert_ne].
  rewrite lookup_insert_eq. split; intros (x & E & Hx); simplify_eq; eexists; (split; [done|congruence]).
Qed.

Lemma relock_at_home key n l : at_home (<[q := c]> m) key n l ↔ at_home m key n l.
Proof.
  unfold at_home. setoid_rewrite relock_is_plist. apply and_iff_compat_l.
  destruct (decide (q = key_path key (S n))) as [E|Hne]; [|by rewrite lookup_insert_ne].
  rewrite <- E, lookup_insert_eq, Hq. split; intros (x & [= <-] & Hx); eexists; (split; [done|congruence]).
Qed.

Lemma relock_mem_ok : mem_ok m → (b_lock c = E_UNLOCKED → b_base c ≠ CPlist) → (b_lock c = P_UNLOCKED → b_base c = CPlist) →
  mem_ok (<[q := c]> m).
Proof.
  intros [Hh Hl Hbe Hlk] Hu Hp. split.
  - intros key. destruct (Hh key) as (n & l & Hn). exists n, l. by apply relock_at_home.
  - intros a x l Ha Hx. apply lookup_insert_Some in Ha as [[<- <-]|[_ Ha]]; [|by eauto]. rewrite Hc in Hx. eauto.
  - intros a i x Ha. rewrite relock_is_plist. apply lookup_insert_Some in Ha as [[E <-]|[_ Ha]]; [|by eapply Hbe].
    rewrite E in Hq. by eapply Hbe.
  - intros a x Ha. apply lookup_insert_Some in Ha as [[<- <-]|[_ Ha]]; [done|by eapply Hlk].
Qed.
End relock.

(** *** A full bucket becomes a PList *)
Section expand.
Context (Hpos : (0 < PLIST_SIZE)%nat).
Context m (key0 : K) (k : nat) (l : list (K * V)) (b : bucket) (p : list (@base_t K V)) (Hm : mem_ok m) (H0 : at_home m key0 k l).
Let q := key_path key0 (S k).
Context (Hq : m !! q = Some b) (Hlock : b_lock b = E_LOCKED).
Context (Hre : rehash_local to_num ELIST_SIZE (PLIST_SIZE * 2 ^ k) (Z.of_nat k + 1) l = Done p).
Let m' := <[q := mkBucket CPlist (b_lock b)]> (plist_at q p ∪ m).

Lemma count_pos n : (0 < PLIST_SIZE * 2 ^ n)%nat.
Proof. pose proof (Nat.pow_nonzero 2 n ltac:(lia)). nia. Qed.

Lemma slot_lt key a : (slot key a < PLIST_SIZE * 2 ^ length a)%nat.
Proof.
  unfold slot, bucket_index, level_hash_local. pose proof (count_pos (length a)).
  pose proof (Z.mod_pos_bound (mix13 (Z.lxor (to_num key) (Z.of_nat (length a) + 2))) (Z.of_nat (PLIST_SIZE * 2 ^ length a)) ltac:(lia)). lia.
Qed.

Lemma home_leaf : leaf_of (b_base b) = Some l ∧ leaf_good l.
Proof. destruct H0 as [_ (b' & Hb' & Hl)]. fold q in Hb'. simplify_eq. split; [done|]. by eapply mo_leaf. Qed.

Lemma q_not_plist : ¬ is_plist m q.
Proof. intros (b' & Hb' & E). simplify_eq. destruct home_leaf as [Hl _]. by rewrite E in Hl. Qed.

Lemma q_fresh i : m !! (q ++ [i]) = None.
Proof.
  destruct (m !! (q ++ [i])) eqn:E; [|done]. apply (mo_below m Hm) in E as [E|E]; [|by destruct q_not_plist].
  by destruct (key_path_not_nil key0 k).
Qed.

Lemma expand_old a x : m !! a = Some x → a ≠ q → m' !! a = Some x.
Proof.
  intros Ha Hne. unfold m'. rewrite lookup_insert_ne by done. apply lookup_union_Some_raw. right. split; [|done].
  destruct (plist_at q p !! a) as [y|] eqn:E; [|done]. apply plist_at_Some in E as (i & z & -> & _). by rewrite q_fresh in Ha.
Qed.

Lemma expand_Some a x : m' !! a = Some x →
  (a = q ∧ x = mkBucket CPlist (b_lock b)) ∨ (∃ i y, a = q ++ [i] ∧ p !! i = Some y ∧ x = mkBucket (cell_of y) E_UNLOCKED) ∨
  (a ≠ q ∧ m !! a = Some x).
Proof.
  intros E. unfold m' in E. apply lookup_insert_Some in E as [[<- <-]|[Hne E]]; [by left|].
  apply lookup_union_Some_raw in E as [E|[_ E]]; right; [left; by apply plist_at_Some|by right].
Qed.

Lemma expand_plist a : is_plist m a → is_plist m' a.
Proof. intros (x & Ha & Hx). exists x. split; [|done]. apply expand_old; [done|]. intros ->. destruct q_not_plist. by exists x. Qed.

Lemma expand_q : is_plist m' q.
Proof. eexists. split; [apply lookup_insert_eq|done]. Qed.

(** The new bucket of a key. *)
Lemma expand_slot key : ∃ x l', m' !! (q ++ [slot key q]) = Some x ∧ leaf_of (b_base x) = Some l' ∧
  l' = filter (λ kv, index_of kv.1 (Z.of_nat k + 2) (PLIST_SIZE * 2 ^ k) = slot key q) l.
Proof.
  destruct home_leaf as [_ [_ Hlen]].
  destruct (rehash_local_spec (PLIST_SIZE * 2 ^ k) (Z.of_nat k + 1) l Hlen (count_pos k)) as (p' & E & _ & Hp).
  rewrite Hre in E. injection E as <-. destruct (Hp (slot key q)) as (y & Hy & Hl).
  { pose proof (slot_lt key q) as Hs. assert (length q = S k) as El by apply key_path_length.
    rewrite El, Nat.pow_succ_r' in Hs. lia. }
  exists (mkBucket (cell_of y) E_UNLOCKED). eexists. split; [|split; [by cbn; rewrite leaf_of_cell|]].
  - unfold m'. rewrite lookup_insert_ne by apply snoc_neq.
    apply lookup_union_Some_raw. left. apply plist_at_Some. eauto.
  - by replace (Z.of_nat k + 1 + 1) with (Z.of_nat k + 2) by lia.
Qed.

(** Every key has a home afterwards, with its old value unless it is stranded. *)
Lemma expand_home key n l1 : at_home m key n l1 →
  ∃ n' l', at_home m' key n' l' ∧ value l' key = if decide (stranded q key) then None else value l1 key.
Proof.
  intros Hn. pose proof Hn as [Hi (x & Hx & Hl1)]. destruct home_leaf as [Hl [Hnd _]].
  assert (length q = S k) as El by apply key_path_length.
  destruct (decide (key_path key (S n) = q)) as [E|Hne].
  - assert (n = k) as -> by (apply key_path_inj in E; lia).
    rewrite E, Hq in Hx. injection Hx as <-. rewrite Hl in Hl1. injection Hl1 as <-.
    destruct (expand_slot key) as (y & l' & Hy & Hl' & El'). exists (S k), l'. split.
    + split; [|exists y; split; [|done]; by rewrite <- E in Hy].
      intros i Hik. destruct (decide (i = k)) as [->|]; [rewrite E; apply expand_q|apply expand_plist, Hi; lia].
    + rewrite El'. pose proof (value_filter (λ k', index_of k' (Z.of_nat k + 2) (PLIST_SIZE * 2 ^ k) = slot key q) l key Hnd) as ->.
      assert (index_of key (Z.of_nat k + 2) (PLIST_SIZE * 2 ^ k) = slot key (key_path key k)) as ->
        by (unfold slot; by rewrite key_path_length).
      assert (last q = Some (slot key (key_path key k))) as Elast by (rewrite <- E; cbn; by rewrite last_snoc).
      assert (stranded q key ↔ slot key (key_path key k) ≠ slot key q) as Hst.
      { unfold stranded. rewrite El, Elast, E. naive_solver congruence. }
      repeat case_decide; tauto.
  - exists n, l1. split.
    + split; [intros i Hin; apply expand_plist; auto|]. exists x. split; [by apply expand_old|done].
    + rewrite decide_False; [done|]. intros [E _]. rewrite El in E. destruct H0 as [Hi0 _].
      destruct (lt_eq_lt_dec n k) as [[Hlt| ->]|Hlt]; [|done|].
      * destruct (Hi0 n Hlt) as (y & Hy & Ey). rewrite <- (key_path_prefix key key0 (S k) (S n) E) in Hy by lia.
        simplify_eq. by rewrite Ey in Hl1.
      * destruct q_not_plist. rewrite <- E. apply Hi, Hlt.
Qed.

Lemma expand_cell i y : p !! i = Some y → ∃ l', leaf_pairs y = Some l' ∧ leaf_good l'.
Proof.
  intros Hy. destruct home_leaf as [_ [Hnd Hlen]].
  destruct (rehash_local_spec (PLIST_SIZE * 2 ^ k) (Z.of_nat k + 1) l Hlen (count_pos k)) as (p' & E & Elen & Hp).
  rewrite Hre in E. injection E as <-. pose proof (lookup_lt_Some _ _ _ Hy) as Hi. rewrite Elen in Hi.
  destruct (Hp i Hi) as (y' & Hy' & Hl'). simplify_eq. eexists. split; [done|]. split; [by apply NoDup_filter_keys|].
  etransitivity; [apply length_filter|done].
Qed.

Lemma expand_mem_ok : mem_ok m'.
Proof.
  destruct home_leaf as [Hl [Hnd Hlen]]. split.
  - intros key. destruct (mo_home m Hm key) as (n & l1 & Hn). destruct (expand_home key n l1 Hn) as (n' & l' & ? & _). eauto.
  - intros a x l1 Ha Hx. apply expand_Some in Ha as [[-> ->]|[(i & y & -> & Hy & ->)|[_ Ha]]]; [done| |by eapply mo_leaf].
    cbn in Hx. rewrite leaf_of_cell in Hx. destruct (expand_cell i y Hy) as (l' & ? & ?). by simplify_eq.
  - intros a i x Ha. apply expand_Some in Ha as [[E ->]|[(i' & y & E & _)|[_ Ha]]].
    + destruct (mo_below m Hm a i b) as [->|?]; [by rewrite E|by left|right; by apply expand_plist].
    + apply app_inj_tail in E as [-> _]. right. apply expand_q.
    + apply (mo_below m Hm) in Ha as [->|?]; [by left|right; by apply expand_plist].
  - intros a x Ha. apply expand_Some in Ha as [[-> ->]|[(i & y & -> & Hy & ->)|[_ Ha]]]; [|split; [|done]|by eapply mo_lock].
    + cbn. rewrite Hlock. done.
    + intros _. apply leaf_plist. cbn. rewrite leaf_of_cell. destruct (expand_cell i y Hy) as (l' & ? & _). by eexists.
Qed.
End expand.

(** ** The invariant of the threads *)
Record visit_ok m (key : K) (v : visit) : Prop := {
  vo_curr : curr v = key_path key (length (curr v));
  vo_depth : depth v = Z.of_nat (length (curr v)) + 1;
  vo_count : count v = (PLIST_SIZE * 2 ^ length (curr v))%nat;
  vo_plists i : (i < length (curr v))%nat → is_plist m (key_path key (S i)) }.

Definition holds (pc : local_pc) : option path :=
  match pc with LBody _ key v | LSplit _ key v | LUnlock _ key v _ => Some (place key v) | _ => None end.

(** What a thread may rely on. *)
Definition pc_ok m (pc : local_pc) : Prop :=
  match pc with
  | LOut => True
  | LLoad _ key v | LCas _ key v => visit_ok m key v
  | LDown _ key v => visit_ok m key v ∧ ∃ b, m !! place key v = Some b ∧ b_base b = CPlist ∧ b_lock b = P_UNLOCKED
  | LBody _ key v | LUnlock _ key v _ => visit_ok m key v ∧ ∃ b, m !! place key v = Some b ∧ b_base b ≠ CPlist ∧ b_lock b = E_LOCKED
  | LSplit _ key v => visit_ok m key v ∧ ∃ b, m !! place key v = Some b ∧ b_base b = CPlist ∧ b_lock b = E_LOCKED
  end.

(** The call a thread has done but not returned from; the calls of a thread in the record. *)
Definition pending (pc : local_pc) : list (@op V * K * option V) :=
  match pc with LUnlock o key _ r => [(o, key, r)] | _ => [] end.
Definition calls_of (t : nat) (es : list event) : list (@op V * K * option V) :=
  omap (λ e, match e with ECall t' o key r => if decide (t' = t) then Some (o, key, r) else None | ESplit _ => None end) es.

Arguments calls_of : simpl never.

Record conc_inv s : Prop := {
  ci_mem : mem_ok (cells s);
  ci_pc t : pc_ok (cells s) (threads s t);
  ci_excl t t' q : holds (threads s t) = Some q → holds (threads s t') = Some q → t = t';
  ci_owned q b : cells s !! q = Some b → b_lock b = E_LOCKED → ∃ t, holds (threads s t) = Some q;
  ci_abs key : ∃ n l, at_home (cells s) key n l ∧ value l key = map_of (events s) !! key;
  ci_legal : legal (events s);
  ci_hist t : calls_of t (events s) = results s t ++ pending (threads s t) }.

(** Only the cell [q] changes, and what is a PList stays one. *)
Definition frame q m m' : Prop :=
  (∀ a, is_plist m a → is_plist m' a) ∧ ∀ a b, a ≠ q → m !! a = Some b → m' !! a = Some b.

Lemma visit_ok_frame q m m' key v : frame q m m' → visit_ok m key v → visit_ok m' key v.
Proof. intros [Hf _] [? ? ? Hi]. split; auto. Qed.

Lemma pc_ok_frame q m m' pc : frame q m m' → pc_ok m pc → holds pc ≠ Some q →
  (∀ b, m !! q = Some b → b_lock b ≠ P_UNLOCKED) → pc_ok m' pc.
Proof.
  intros Hf Hok Hh Hl. assert (∀ key v, visit_ok m key v → visit_ok m' key v) as Hv by (intros *; by apply visit_ok_frame with q).
  assert (∀ key v (P : bucket → Prop), place key v ≠ q → (∃ b, m !! place key v = Some b ∧ P b) → ∃ b, m' !! place key v = Some b ∧ P b) as Hc.
  { intros key v P Hne (b & Hb & HP). exists b. split; [|done]. by apply Hf. }
  destruct pc; cbn in *; auto; destruct Hok as [Hok Hcell]; (split; [by auto|]).
  - apply (Hc _ _ (λ b, b_base b = CPlist ∧ b_lock b = P_UNLOCKED)); [|done].
    destruct Hcell as (b & Hb & _ & Hlk). intros E. rewrite E in Hb. by apply (Hl b).
  - apply (Hc _ _ (λ b, b_base b ≠ CPlist ∧ b_lock b = E_LOCKED)); congruence.
  - apply (Hc _ _ (λ b, b_base b = CPlist ∧ b_lock b = E_LOCKED)); congruence.
  - apply (Hc _ _ (λ b, b_base b ≠ CPlist ∧ b_lock b = E_LOCKED)); congruence.
Qed.

Lemma place_path m key v : visit_ok m key v → place key v = key_path key (S (length (curr v))).
Proof.
  intros [Hc Hd Hn _]. unfold place, bucket_of. rewrite Hd, Hn. cbn. rewrite <- Hc. unfold slot.
  by replace (Z.of_nat (length (curr v)) + 1 + 1) with (Z.of_nat (length (curr v)) + 2) by lia.
Qed.

Lemma holder_locked s t q : conc_inv s → holds (threads s t) = Some q →
  ∃ b, cells s !! q = Some b ∧ b_lock b = E_LOCKED.
Proof.
  intros Hi Hh. pose proof (ci_pc s Hi t) as Hp.
  destruct (threads s t); cbn in *; try done; injection Hh as <-; destruct Hp as [_ (b & ? & ? & ?)]; eauto.
Qed.

(** A thread moves without touching the table. *)
Lemma inv_goto s t pc : conc_inv s → pc_ok (cells s) pc → holds pc = None → holds (threads s t) = None →
  pending pc = pending (threads s t) → conc_inv (goto t pc s).
Proof.
  intros Hi Hp Hh Hh0 Hpe. destruct Hi as [Hm Hpc Hex Hown Habs Hleg Hhi]. split; [done| | | |done|done|]; cbn.
  - intros t'. destruct (decide (t = t')) as [<-|?]; [by rewrite fn_lookup_insert|by rewrite fn_lookup_insert_ne].
  - intros t1 t2 q. destruct (decide (t = t1)) as [<-|?]; [rewrite fn_lookup_insert; congruence|].
    destruct (decide (t = t2)) as [<-|?]; [rewrite (fn_lookup_insert _ t); congruence|]. rewrite !fn_lookup_insert_ne by done. apply Hex.
  - intros q b Hb Hl. destruct (Hown q b Hb Hl) as [t' Ht']. exists t'. rewrite fn_lookup_insert_ne; [done|]. intros ->. congruence.
  - intros t'. destruct (decide (t = t')) as [<-|?]; [by rewrite fn_lookup_insert, Hhi, Hpe|by rewrite fn_lookup_insert_ne].
Qed.

(** A thread changes the cell that it holds, or that nobody holds. *)
Lemma inv_write s t pc m' es res q : conc_inv s → frame q (cells s) m' → mem_ok m' → pc_ok m' pc →
  (∀ t', t' ≠ t → holds (threads s t') ≠ Some q) → (∀ b, cells s !! q = Some b → b_lock b ≠ P_UNLOCKED) →
  (∀ a, holds pc = Some a → a = q) → (∀ a, holds (threads s t) = Some a → a = q) →
  (∀ a b, m' !! a = Some b → b_lock b = E_LOCKED →
    if decide (a = q) then holds pc = Some q else cells s !! a = Some b) →
  (∀ key, ∃ n l, at_home m' key n l ∧ value l key = map_of es !! key) → legal es →
  calls_of t es = res t ++ pending pc →
  (∀ t', t' ≠ t → calls_of t' es = calls_of t' (events s) ∧ res t' = results s t') →
  conc_inv (mkTable m' (<[t := pc]> (threads s)) es res).
Proof.
  intros Hi Hf Hm Hp Hoth Hlk Hh Hh0 Hown Habs Hleg Hhi Hhi'. split; [done| | | |done|done|]; cbn.
  - intros t'. destruct (decide (t = t')) as [<-|?]; [by rewrite fn_lookup_insert|]. rewrite fn_lookup_insert_ne by done.
    eapply pc_ok_frame; [done|apply (ci_pc s Hi)|auto|done].
  - intros t1 t2 a. destruct (decide (t = t1)) as [<-|?]; destruct (decide (t = t2)) as [<-|?];
      rewrite ?fn_lookup_insert, ?fn_lookup_insert_ne by done; [done| | |apply (ci_excl s Hi)].
    + intros Ha Ht2. apply Hh in Ha as ->. by destruct (Hoth t2).
    + intros Ht1 Ha. apply Hh in Ha as ->. by destruct (Hoth t1).
  - intros a b Ha Hl. specialize (Hown a b Ha Hl). case_decide as E; [exists t; by rewrite fn_lookup_insert, E|].
    destruct (ci_owned s Hi a b Hown Hl) as [t' Ht']. exists t'. rewrite fn_lookup_insert_ne; [done|]. intros ->. by apply E, Hh0.
  - intros t'. destruct (decide (t = t')) as [<-|?]; [by rewrite fn_lookup_insert|]. rewrite fn_lookup_insert_ne by done.
    destruct (Hhi' t') as [-> ->]; [done|]. apply (ci_hist s Hi).
Qed.

(** ** The steps preserve the invariant *)
Context (Hpos : (0 < PLIST_SIZE)%nat) (Hepos : (0 < ELIST_SIZE)%nat).

Lemma alone_holder s t q : conc_inv s → holds (threads s t) = Some q → ∀ t', t' ≠ t → holds (threads s t') ≠ Some q.
Proof. intros Hi Hh t' Hne Hh'. by apply Hne, (ci_excl s Hi t' t q). Qed.

Lemma alone_free s q b : conc_inv s → cells s !! q = Some b → b_lock b = E_UNLOCKED → ∀ t', holds (threads s t') ≠ Some q.
Proof. intros Hi Hb Hl t' Hh. destruct (holder_locked s t' q Hi Hh) as (b' & Hb' & Hl'). congruence. Qed.

Lemma inv_relock s t pc q b lk res : conc_inv s → cells s !! q = Some b → b_lock b ≠ P_UNLOCKED →
  (∀ t', t' ≠ t → holds (threads s t') ≠ Some q) →
  (lk = E_UNLOCKED → b_base b ≠ CPlist) → (lk = P_UNLOCKED → b_base b = CPlist) →
  pc_ok (<[q := mkBucket (b_base b) lk]> (cells s)) pc → (∀ a, holds pc = Some a → a = q) →
  (∀ a, holds (threads s t) = Some a → a = q) → (lk = E_LOCKED → holds pc = Some q) →
  results s t ++ pending (threads s t) = res t ++ pending pc → (∀ t', t' ≠ t → res t' = results s t') →
  conc_inv (mkTable (<[q := mkBucket (b_base b) lk]> (cells s)) (<[t := pc]> (threads s)) (events s) res).
Proof.
  intros Hi Hb Hlk Hoth Hu Hp Hpc Hh Hh0 Hown Hr Hr'. apply (inv_write s t pc _ _ _ q); try done.
  - split; [intros a Ha; by eapply relock_is_plist|]. intros a x Hne Ha. by rewrite lookup_insert_ne.
  - apply (relock_mem_ok _ q b); [done|done|apply (ci_mem s Hi)|done|done].
  - intros b' Hb'. congruence.
  - intros a x Ha Hl. apply lookup_insert_Some in Ha as [[<- <-]|[Hne Ha]]; case_decide; try done. by apply Hown.
  - intros key. destruct (ci_abs s Hi key) as (n & l & Hn & Hv). exists n, l. split; [by eapply relock_at_home|done].
  - apply (ci_legal s Hi).
  - rewrite <- Hr. apply (ci_hist s Hi).
  - auto.
Qed.

Lemma pc_ok_relock (key : K) v m b c : m !! place key v = Some b → b_base c = b_base b → visit_ok m key v →
  visit_ok (<[place key v := c]> m) key v.
Proof.
  intros Hb Hc. apply visit_ok_frame with (place key v). split.
  - intros a Ha. by eapply relock_is_plist.
  - intros a x Hne Ha. by rewrite lookup_insert_ne.
Qed.

Lemma lock_taken_inv s t o key v b : conc_inv s → threads s t = LCas o key v → cells s !! place key v = Some b →
  b_lock b = E_UNLOCKED → conc_inv (goto t (LBody o key v) (write (place key v) (mkBucket (b_base b) E_LOCKED) s)).
Proof.
  intros Hi Ht Hb Hl. pose proof (ci_pc s Hi t) as Hp. rewrite Ht in Hp. cbn in Hp.
  apply (inv_relock s t); try done; cbn.
  - by rewrite Hl.
  - intros t' _. by eapply alone_free.
  - split; [by eapply pc_ok_relock|]. exists (mkBucket (b_base b) E_LOCKED). rewrite lookup_insert_eq. split_and!; [done| |done].
    by apply (mo_lock _ (ci_mem s Hi) _ _ Hb).
  - congruence.
  - by rewrite Ht.
  - by rewrite Ht.
Qed.

Lemma step_unlock_plist s t o key v b : conc_inv s → threads s t = LSplit o key v → cells s !! place key v = Some b →
  conc_inv (goto t (LLoad o key v) (write (place key v) (mkBucket (b_base b) P_UNLOCKED) s)).
Proof.
  intros Hi Ht Hb. pose proof (ci_pc s Hi t) as Hp. rewrite Ht in Hp. destruct Hp as [Hv (b' & Hb' & Hbase & Hl)]. simplify_eq.
  apply (inv_relock s t); try done; cbn.
  - by rewrite Hl.
  - apply (alone_holder s t); [done|by rewrite Ht].
  - by eapply pc_ok_relock.
  - rewrite Ht. cbn. congruence.
  - by rewrite Ht.
Qed.

Lemma table_unlock_ok s t o key v b r : conc_inv s → threads s t = LUnlock o key v r → cells s !! place key v = Some b →
  conc_inv (mkTable (<[place key v := mkBucket (b_base b) E_UNLOCKED]> (cells s)) (<[t := LOut]> (threads s))
    (events s) (<[t := results s t ++ [(o, key, r)]]> (results s))).
Proof.
  intros Hi Ht Hb. pose proof (ci_pc s Hi t) as Hp. rewrite Ht in Hp. destruct Hp as [Hv (b' & Hb' & Hbase & Hl)]. simplify_eq.
  apply (inv_relock s t); try done; cbn.
  - by rewrite Hl.
  - apply (alone_holder s t); [done|by rewrite Ht].
  - rewrite Ht. cbn. congruence.
  - by rewrite Ht, fn_lookup_insert, app_nil_r.
  - intros t' Hne. by rewrite fn_lookup_insert_ne.
Qed.

Lemma calls_of_call t t' es o key r : calls_of t' (es ++ [ECall t o key r]) =
  calls_of t' es ++ (if decide (t = t') then [(o, key, r)] else []).
Proof. unfold calls_of. rewrite omap_app. cbn. by case_decide. Qed.

Lemma calls_of_split t es q : calls_of t (es ++ [ESplit q]) = calls_of t es.
Proof. unfold calls_of. rewrite omap_app. apply app_nil_r. Qed.

(** The bucket a call works on is the home of its key. *)
Lemma visit_home m (key : K) v b l : visit_ok m key v → m !! place key v = Some b → leaf_of (b_base b) = Some l →
  at_home m key (length (curr v)) l.
Proof.
  intros Hv Hb Hl. rewrite (place_path m key v Hv) in Hb. split; [apply (vo_plists _ _ _ Hv)|eauto].
Qed.

Lemma finish_abs m q b c l l' (o : @op V) (key : K) n M : m !! q = Some b → leaf_of (b_base b) = Some l →
  leaf_of (b_base c) = Some l' → at_home m key n l → key_path key (S n) = q →
  value l' key = after o (value l key) → (∀ k, k ≠ key → value l' k = value l k) →
  (∀ k, ∃ n l, at_home m k n l ∧ value l k = M !! k) →
  M !! key = value l key ∧ ∀ k, ∃ n l, at_home (<[q := c]> m) k n l ∧ value l k = (spec_op o key M).1 !! k.
Proof.
  intros Hb Hl Hl' Hhome Hq Hkey Hother Habs. destruct (spec_op_at o key M) as (_ & Hat & Hoth).
  assert (M !! key = value l key) as HM.
  { destruct (Habs key) as (n1 & l1 & Hn1 & Hv1). by destruct (at_home_unique _ _ _ _ _ _ Hhome Hn1) as [_ ->]. }
  assert (b_base b ≠ CPlist) as Hb1 by (apply leaf_plist; eauto). assert (b_base c ≠ CPlist) as Hc1 by (apply leaf_plist; eauto).
  split; [done|]. intros k. destruct (Habs k) as (n1 & l1 & Hn1 & Hv1).
  destruct (decide (key_path k (S n1) = q)) as [E|E].
  - exists n1, l'. rewrite (update_at_home m q b c Hb Hb1 Hc1), decide_True by done. split; [eauto|].
    destruct Hn1 as [_ (b' & Hb' & Hl1)]. rewrite E in Hb'. simplify_eq.
    destruct (decide (k = key)) as [->|Hne]; [by rewrite Hkey, Hat, HM|]. by rewrite Hother, Hoth.
  - exists n1, l1. rewrite (update_at_home m q b c Hb Hb1 Hc1), decide_False by done. split; [done|].
    rewrite Hoth; [done|]. intros ->. by destruct (at_home_unique _ _ _ _ _ _ Hhome Hn1) as [-> _].
Qed.

Lemma step_finish s t o key v b c r : conc_inv s → threads s t = LBody o key v → cells s !! place key v = Some b →
  bucket_body o key (depth v) (count v) (b_base b) = Done (Finish c r) →
  conc_inv (record (ECall t o key r) (goto t (LUnlock o key v r) (write (place key v) (mkBucket c (b_lock b)) s))).
Proof.
  intros Hi Ht Hb Hbody. pose proof (ci_pc s Hi t) as Hp. rewrite Ht in Hp. destruct Hp as [Hv (b' & Hb' & Hbase & Hlk)]. simplify_eq.
  destruct (proj1 (leaf_plist _) Hbase) as [l Hl]. pose proof (mo_leaf _ (ci_mem s Hi) _ _ _ Hb Hl) as Hgood.
  destruct (body_finish _ _ _ _ _ _ _ _ Hl Hgood Hepos Hbody) as (l' & Hl' & Hgood' & -> & Hkey & Hother).
  pose proof (visit_home _ _ _ _ _ Hv Hb Hl) as Hhome.
  destruct (finish_abs _ _ b (mkBucket c (b_lock b)) l l' o key _ _ Hb Hl Hl' Hhome (eq_sym (place_path _ _ _ Hv)) Hkey Hother
    (ci_abs s Hi)) as [HM Habs].
  assert (c ≠ CPlist) as Hc by (apply leaf_plist; eauto).
  apply (inv_write s t _ _ _ _ (place key v)); try done; cbn.
  - split; [intros a Ha; by eapply update_is_plist|]. intros a x Hne Ha. by rewrite lookup_insert_ne.
  - apply (update_mem_ok _ _ b); try done; [apply (ci_mem s Hi)|by cbn; intros; simplify_eq|by rewrite Hlk].
  - split; [|exists (mkBucket c (b_lock b)); by rewrite lookup_insert_eq]. eapply visit_ok_frame, Hv. split.
    + intros a Ha. by eapply update_is_plist.
    + intros a x Hne Ha. by rewrite lookup_insert_ne.
  - apply (alone_holder s t); [done|by rewrite Ht].
  - intros b' Hb'. simplify_eq. by rewrite Hlk.
  - congruence.
  - rewrite Ht. cbn. congruence.
  - intros a x Ha Hl0. apply lookup_insert_Some in Ha as [[<- <-]|[Hne Ha]]; by case_decide.
  - by rewrite map_of_snoc.
  - apply legal_event_snoc; [apply (ci_legal s Hi)|]. intros ? ? ? ? [= <- <- <- <-]. by rewrite (proj1 (spec_op_at o key _)), HM.
  - by rewrite calls_of_call, (ci_hist s Hi), Ht, app_nil_r, decide_True.
  - intros t' Hne. by rewrite calls_of_call, decide_False, app_nil_r.
Qed.

Lemma step_expand s t o key v b p : conc_inv s → threads s t = LBody o key v → cells s !! place key v = Some b →
  bucket_body o key (depth v) (count v) (b_base b) = Done (Expand p) →
  conc_inv (record (ESplit (place key v)) (goto t (LSplit o key v)
      (mkTable (<[place key v := mkBucket CPlist (b_lock b)]> (plist_at (place key v) p ∪ cells s))
        (threads s) (events s) (results s)))).
Proof.
  intros Hi Ht Hb Hbody. pose proof (ci_pc s Hi t) as Hp. rewrite Ht in Hp. destruct Hp as [Hv (b' & Hb' & Hbase & Hlk)]. simplify_eq.
  destruct (body_expand _ _ _ _ _ _ Hbody) as (l & Hl & Hre & _). pose proof (visit_home _ _ _ _ _ Hv Hb Hl) as Hhome.
  rewrite (vo_depth _ _ _ Hv), (vo_count _ _ _ Hv) in Hre. pose proof (ci_mem s Hi) as Hm.
  pose proof (place_path _ _ _ Hv) as Hq. rewrite Hq in Hb.
  pose proof (expand_plist _ _ _ _ _ p Hm Hhome Hb) as Hpl. pose proof (expand_old _ _ _ _ _ p Hm Hhome Hb) as Hold.
  apply (inv_write s t _ _ _ _ (place key v)); rewrite ?Hq; try done; cbn -[key_path].
  - split; [done|]. intros a x Hne Ha. by apply Hold.
  - by apply (expand_mem_ok Hpos _ _ _ _ _ p Hm Hhome Hb Hlk).
  - split; [eapply visit_ok_frame, Hv; split; [done|intros; by apply Hold]|].
    rewrite Hq. eexists. rewrite lookup_insert_eq. split; [done|]. done.
  - rewrite <- Hq. apply (alone_holder s t); [done|by rewrite Ht].
  - intros b' Hb'. simplify_eq. by rewrite Hlk.
  - intros a [= <-]. by rewrite Hq.
  - rewrite Ht. cbn -[key_path]. intros a [= <-]. by rewrite Hq.
  - intros a x Ha Hl0. rewrite Hq. case_decide as E; [done|].
    by apply expand_Some in Ha as [[? _]|[(i & y & _ & _ & ->)|[_ Ha]]].
  - intros k. rewrite map_of_snoc. destruct (ci_abs s Hi k) as (n1 & l1 & Hn1 & Hv1).
    destruct (expand_home Hpos _ _ _ _ _ p Hm Hhome Hb Hre k n1 l1 Hn1) as (n2 & l2 & Hn2 & Hv2).
    exists n2, l2. split; [done|]. rewrite Hv2. cbn -[key_path]. case_decide as Hst.
    + symmetry. apply map_lookup_filter_None. right. intros w _ Hno. by apply Hno.
    + rewrite Hv1. symmetry. destruct (map_of (events s) !! k) as [w|] eqn:E.
      * by apply map_lookup_filter_Some.
      * apply map_lookup_filter_None. by left.
  - apply legal_event_snoc; [apply (ci_legal s Hi)|done].
  - by rewrite calls_of_split, (ci_hist s Hi), Ht.
  - intros t' Hne. by rewrite calls_of_split.
Qed.

Lemma visit_down_ok m (key : K) v : visit_ok m key v → is_plist m (place key v) →
  visit_ok m key (visit_down v (bucket_of key v)).
Proof.
  intros Hv Hp. pose proof (place_path m key v Hv) as Hq. pose proof Hv as [Hc Hd Hn Hi].
  assert (length (curr (visit_down v (bucket_of key v))) = S (length (curr v))) as El by (cbn; rewrite length_app; cbn; lia).
  split; rewrite ?El.
  - exact Hq.
  - cbn. rewrite Hd. lia.
  - cbn -[Nat.pow]. rewrite Hn, Nat.pow_succ_r'. lia.
  - intros i Hlt. destruct (decide (i = length (curr v))) as [->|]; [by rewrite <- Hq|apply Hi; lia].
Qed.

Lemma local_step_inv s t s' : conc_inv s → local_step s t s' → conc_inv s'.
Proof.
  intros Hi Hs. pose proof (ci_pc s Hi t) as Hp. pose proof (mo_lock _ (ci_mem s Hi)) as Hml.
  destruct Hs as [o key Ht|o key v b Ht Hb Hl|o key v b Ht Hb Hl|o key v b Ht Hb Hl|o key v b Ht Hb Hl|o key v b Ht Hb
    |o key v b Ht Hb Hl|o key v b c r Ht Hb He|o key v b p Ht Hb He|o key v b Ht Hb|o key v b r Ht Hb]; rewrite Ht in Hp.
  - apply inv_goto; rewrite ?Ht; try done. split; cbn; try (done || lia).
  - apply inv_goto; by rewrite ?Ht.
  - done.
  - apply inv_goto; rewrite ?Ht; try done. split; [done|]. exists b. split_and!; [done| |done]. by apply (Hml _ _ Hb).
  - by apply lock_taken_inv.
  - destruct (b_lock b) eqn:El; apply inv_goto; rewrite ?Ht; try done.
    split; [done|]. exists b. split_and!; [done| |done]. by apply (Hml _ _ Hb).
  - apply inv_goto; rewrite ?Ht; try done. apply visit_down_ok; [apply Hp|by exists b].
  - by apply step_finish.
  - by apply step_expand.
  - by apply step_unlock_plist.
  - by apply table_unlock_ok.
Qed.

Lemma new_cell q b : carumap_new !! q = Some b → ∃ i, q = [i] ∧ (i < PLIST_SIZE)%nat ∧ b = mkBucket CNull E_UNLOCKED.
Proof.
  intros E. apply plist_at_Some in E as (i & x & -> & Hx & ->). apply lookup_replicate in Hx as [-> Hi]. by exists i.
Qed.

Lemma new_home key : at_home carumap_new key 0 [].
Proof.
  split; [lia|]. exists (mkBucket CNull E_UNLOCKED). split; [|done]. apply plist_at_Some.
  exists (slot key []), BNull. split; [done|]. split; [|done]. apply lookup_replicate_2.
  pose proof (slot_lt Hpos key []) as Hs. cbn [length Nat.pow] in Hs. lia.
Qed.

Lemma conc_inv_new : conc_inv table_new.
Proof.
  split; try done; cbn.
  - split.
    + intros key. exists 0%nat, []. apply new_home.
    + intros q b l Hb Hl. apply new_cell in Hb as (i & -> & _ & ->). injection Hl as <-. split; [constructor|cbn; lia].
    + intros q i b Hb. apply new_cell in Hb as (j & E & _). left. by destruct q as [|? [|]].
    + intros q b Hb. by apply new_cell in Hb as (i & -> & _ & ->).
  - intros q b Hb Hl. by apply new_cell in Hb as (i & -> & _ & ->).
  - intros key. exists 0%nat, []. split; [apply new_home|done].
  - intros [|? pre] t o key r post E; discriminate E.
Qed.

Lemma reachable_inv s : star any_step table_new s → conc_inv s.
Proof.
  intros Hs. eapply star_invariant; [|apply conc_inv_new|exact Hs]. intros a b Ha [t Hab]. by eapply local_step_inv.
Qed.

(** The home of a key is where a call is or below. *)
Lemma visit_below m (key : K) v n l : visit_ok m key v → at_home m key n l → (length (curr v) ≤ n)%nat.
Proof.
  intros Hv [_ (b & Hb & Hl)]. destruct (le_lt_dec (length (curr v)) n) as [|Hlt]; [done|].
  destruct (vo_plists _ _ _ Hv n Hlt) as (b' & Hb' & Hp). simplify_eq. by rewrite Hp in Hl.
Qed.

Lemma visit_cell m (key : K) v : mem_ok m → visit_ok m key v → ∃ b, m !! place key v = Some b.
Proof.
  intros Hm Hv. destruct (mo_home m Hm key) as (n & l & Hh). pose proof (visit_below _ _ _ _ _ Hv Hh) as Hle.
  destruct Hh as [Hi (b & Hb & _)]. rewrite (place_path _ _ _ Hv).
  destruct (decide (n = length (curr v))) as [<-|]; [by exists b|].
  destruct (Hi (length (curr v)) ltac:(lia)) as (b' & Hb' & _). by exists b'.
Qed.

Lemma body_moves s t o key v : conc_inv s → threads s t = LBody o key v → ∃ b out,
  cells s !! place key v = Some b ∧ b_lock b = E_LOCKED ∧ bucket_body o key (depth v) (count v) (b_base b) = Done out.
Proof.
  intros Hi Ht. pose proof (ci_pc s Hi t) as Hp. rewrite Ht in Hp. destruct Hp as [Hv (b & Hb & Hbase & Hl)].
  destruct (proj1 (leaf_plist _) Hbase) as [l Hleaf].
  destruct (body_done o key (depth v) (count v) _ l Hleaf) as [out E]; [by eapply (mo_leaf _ (ci_mem s Hi))| |done|eauto].
  rewrite (vo_count _ _ _ Hv). by apply count_pos.
Qed.

Lemma thread_moves s t : conc_inv s → threads s t ≠ LOut → ∃ s', local_step s t s'.
Proof.
  intros Hi Hne. pose proof (ci_pc s Hi t) as Hp. pose proof (ci_mem s Hi) as Hm.
  destruct (threads s t) as [|o key v|o key v|o key v|o key v|o key v|o key v r] eqn:Ht; [done| | | | | |]; cbn in Hp.
  - destruct (visit_cell _ _ _ Hm Hp) as [b Hb]. destruct (b_lock b) eqn:El; eexists;
      [by eapply l_load_busy|by eapply l_load_free|by eapply l_load_plist].
  - destruct (visit_cell _ _ _ Hm Hp) as [b Hb]. eexists. by eapply l_cas_fails.
  - destruct Hp as [_ (b & Hb & Hpl & _)]. eexists. by eapply l_down.
  - destruct (body_moves s t o key v Hi Ht) as (b & [c r|p] & Hb & _ & E); eexists; [by eapply l_finish|by eapply l_expand].
  - destruct Hp as [_ (b & Hb & _)]. eexists. by eapply l_unlock_plist.
  - destruct Hp as [_ (b & Hb & _)]. eexists. by eapply l_unlock.
Qed.

(** ** Waiting calls can return *)
Definition same_for (P : nat → Prop) s s' : Prop := ∀ t, P t → threads s' t = threads s t ∧ results s' t = results s t.

Lemma unlock_run s t o key v r : conc_inv s → threads s t = LUnlock o key v r → ∃ s', local_step s t s' ∧
  threads s' t = LOut ∧ results s' t = results s t ++ [(o, key, r)] ∧ same_for (.≠ t) s s' ∧
  ∃ b, cells s' !! place key v = Some b ∧ b_lock b = E_UNLOCKED.
Proof.
  intros Hi Ht. pose proof (ci_pc s Hi t) as Hp. rewrite Ht in Hp. destruct Hp as [_ (b & Hb & _)].
  eexists. split; [by eapply l_unlock|]. cbn. rewrite !fn_lookup_insert, lookup_insert_eq. split_and!; [done..| |by eexists].
  intros t' Hne. cbn. by rewrite !fn_lookup_insert_ne.
Qed.

Lemma unsplit_run s t o key v : conc_inv s → threads s t = LSplit o key v → ∃ s', local_step s t s' ∧
  same_for (.≠ t) s s' ∧ (∃ b, cells s' !! place key v = Some b ∧ b_lock b = P_UNLOCKED) ∧
  (∀ k n l, at_home (cells s) k n l → at_home (cells s') k n l) ∧
  ∀ a, a ≠ place key v → cells s' !! a = cells s !! a.
Proof.
  intros Hi Ht. pose proof (ci_pc s Hi t) as Hp. rewrite Ht in Hp. destruct Hp as [_ (b & Hb & _)].
  eexists. split; [by eapply l_unlock_plist|]. cbn. rewrite lookup_insert_eq. split_and!; [|by eexists| |].
  - intros t' Hne. cbn. by rewrite !fn_lookup_insert_ne.
  - intros k n l Hn. by eapply relock_at_home.
  - intros a Hne. by rewrite lookup_insert_ne.
Qed.

(** A call that finds its bucket free and is left alone. *)
Lemma call_alone s t o key v b : conc_inv s → threads s t = LLoad o key v → (∀ x, o ≠ Insert x) →
  cells s !! place key v = Some b → b_lock b = E_UNLOCKED →
  ∃ s' r, star any_step s s' ∧ threads s' t = LOut ∧ results s' t = results s t ++ [(o, key, r)].
Proof.
  intros Hi Ht Ho Hb Hl. pose proof (l_load_free s t o key v b Ht Hb Hl) as S1. pose proof (local_step_inv _ _ _ Hi S1) as Hi1.
  match type of S1 with local_step _ _ ?x => set (s1 := x) in * end.
  assert (threads s1 t = LCas o key v) as Ht1 by apply fn_lookup_insert.
  pose proof (l_cas s1 t o key v b Ht1 Hb Hl) as S2. pose proof (local_step_inv _ _ _ Hi1 S2) as Hi2.
  match type of S2 with local_step _ _ ?x => set (s2 := x) in * end.
  assert (threads s2 t = LBody o key v) as Ht2 by apply fn_lookup_insert.
  destruct (body_moves s2 t o key v Hi2 Ht2) as (b2 & out & Hb2 & _ & E). destruct out as [c r|p].
  2: { destruct (body_expand _ _ _ _ _ _ E) as (l & Hl2 & _). destruct (b_base b2) as [|l0|], o; cbn in E, Hl2; try done; try by destruct (Ho v0).
       all: by destruct (find_key key l0 0) as [[? ?]|]. }
  pose proof (l_finish s2 t o key v b2 c r Ht2 Hb2 E) as S3. pose proof (local_step_inv _ _ _ Hi2 S3) as Hi3.
  match type of S3 with local_step _ _ ?x => set (s3 := x) in * end.
  destruct (unlock_run s3 t o key v r Hi3 (fn_lookup_insert _ _ _)) as (s4 & S4 & Ht4 & Hr4 & _).
  exists s4, r. split; [|done].
  eapply star_step; [by exists t|]. eapply star_step; [by exists t|]. eapply star_step; [by exists t|]. apply star_one. by exists t.
Qed.

(** A call that finds a PList goes down. *)
Lemma call_down s t o key v b : conc_inv s → threads s t = LLoad o key v → cells s !! place key v = Some b →
  b_lock b = P_UNLOCKED →
  ∃ s', star any_step s s' ∧ threads s' t = LLoad o key (visit_down v (bucket_of key v)) ∧
    results s' t = results s t ∧ cells s' = cells s.
Proof.
  intros Hi Ht Hb Hl. destruct (mo_lock _ (ci_mem s Hi) _ _ Hb) as [_ Hpl].
  pose proof (l_load_plist s t o key v b Ht Hb Hl) as S1. match type of S1 with local_step _ _ ?x => set (s1 := x) in * end.
  assert (threads s1 t = LDown o key v) as Ht1 by apply fn_lookup_insert.
  eexists. split; [eapply star_step; [by exists t|]; apply star_one; exists t; by eapply l_down, Hpl|].
  cbn. by rewrite fn_lookup_insert.
Qed.

Lemma star_inv s s' : conc_inv s → star any_step s s' → conc_inv s'.
Proof. intros Hi Hs. eapply star_invariant; [|exact Hi|exact Hs]. intros a b Ha [t Hab]. by eapply local_step_inv. Qed.

(** A bucket in use is finished by its owner, *)
Lemma call_waits_finish s t t' o key v o' key' v' b c r : conc_inv s → t' ≠ t → threads s t = LLoad o key v → (∀ x, o ≠ Insert x) →
  threads s t' = LBody o' key' v' → place key' v' = place key v → cells s !! place key' v' = Some b →
  bucket_body o' key' (depth v') (count v') (b_base b) = Done (Finish c r) →
  ∃ s' x, star any_step s s' ∧ threads s' t = LOut ∧ results s' t = results s t ++ [(o, key, x)].
Proof.
  intros Hi Hne Ht Ho Ht' Hpl Hb E.
  pose proof (l_finish s t' o' key' v' b c r Ht' Hb E) as S1. pose proof (local_step_inv _ _ _ Hi S1) as Hi1.
  match type of S1 with local_step _ _ ?x => set (s1 := x) in * end.
  destruct (unlock_run s1 t' o' key' v' r Hi1 (fn_lookup_insert _ _ _)) as (s2 & S2 & _ & _ & Hs2 & b2 & Hb2 & Hl2).
  pose proof (local_step_inv _ _ _ Hi1 S2) as Hi2. rewrite Hpl in Hb2. destruct (Hs2 t) as [Ht2 Hr2]; [done|].
  assert (threads s1 t = LLoad o key v) as Ht1 by (cbn; by rewrite fn_lookup_insert_ne).
  destruct (call_alone s2 t o key v b2 Hi2 ltac:(congruence) Ho Hb2 Hl2) as (s3 & r3 & S3 & ? & Hr3).
  exists s3, r3. split; [|by rewrite Hr3, Hr2]. eapply star_step; [by exists t'|]. by eapply star_step; [exists t'|].
Qed.

(** or split; the call then finds a fresh one. *)
Lemma call_waits_expand s t t' o key v o' key' v' b p : conc_inv s → t' ≠ t → threads s t = LLoad o key v → (∀ x, o ≠ Insert x) →
  threads s t' = LBody o' key' v' → place key' v' = place key v → cells s !! place key' v' = Some b →
  bucket_body o' key' (depth v') (count v') (b_base b) = Done (Expand p) →
  ∃ s' r, star any_step s s' ∧ threads s' t = LOut ∧ results s' t = results s t ++ [(o, key, r)].
Proof.
  intros Hi Hne Ht Ho Ht' Hpl Hb E.
  pose proof (ci_pc s Hi t') as Hp. rewrite Ht' in Hp. destruct Hp as [Hv' (b0 & Hb0 & Hbase & _)]. simplify_eq.
  destruct (proj1 (leaf_plist _) Hbase) as [l Hl]. pose proof (visit_home _ _ _ _ _ Hv' Hb Hl) as Hhome.
  pose proof (place_path _ _ _ Hv') as Hq. rewrite Hq in Hb.
  pose proof (q_fresh _ _ _ _ _ (ci_mem s Hi) Hhome Hb) as Hfresh. rewrite <- Hq in Hb, Hfresh.
  pose proof (l_expand s t' o' key' v' b p Ht' Hb E) as S1. pose proof (local_step_inv _ _ _ Hi S1) as Hi1.
  match type of S1 with local_step _ _ ?x => set (s1 := x) in * end.
  destruct (unsplit_run s1 t' o' key' v' Hi1 (fn_lookup_insert _ _ _)) as (s2 & S2 & Hs2 & (b2 & Hb2 & Hl2) & _ & Hc2).
  pose proof (local_step_inv _ _ _ Hi1 S2) as Hi2. rewrite Hpl in Hb2. destruct (Hs2 t) as [Ht2 Hr2]; [done|].
  assert (threads s1 t = LLoad o key v) as Ht1 by (cbn; by rewrite fn_lookup_insert_ne).
  destruct (call_down s2 t o key v b2 Hi2 ltac:(congruence) Hb2 Hl2) as (s3 & S3 & Ht3 & Hr3 & Hc3).
  pose proof (star_inv _ _ Hi2 S3) as Hi3. pose proof (ci_pc s3 Hi3 t) as Hp3. rewrite Ht3 in Hp3.
  destruct (visit_cell _ _ _ (ci_mem s3 Hi3) Hp3) as [b3 Hb3]. set (v3 := visit_down v (bucket_of key v)) in *.
  assert (b_lock b3 = E_UNLOCKED) as Hl3.
  { rewrite Hc3, Hc2 in Hb3 by (rewrite Hpl; apply not_eq_sym, snoc_neq). cbn in Hb3. rewrite Hq in Hb3.
    change (place key v3) with (place key v ++ [bucket_of key v3]) in Hb3.
    apply expand_Some in Hb3 as [[E3 _]|[(i & y & _ & _ & ->)|[_ Hb3]]]; [|done|].
    - rewrite <- Hq, Hpl in E3. by apply eq_sym, snoc_neq in E3.
    - change (curr v ++ [bucket_of key v]) with (place key v) in Hb3. by rewrite <- Hpl, Hfresh in Hb3. }
  destruct (call_alone s3 t o key v3 b3 Hi3 Ht3 Ho Hb3 Hl3) as (s4 & r4 & S4 & ? & Hr4).
  exists s4, r4. split; [|by rewrite Hr4, Hr3, Hr2].
  eapply star_step; [by exists t'|]. eapply star_step; [by exists t'|]. by eapply star_trans.
Qed.

(** C8: the local table under several threads. However the threads' steps are interleaved,
    the record of the calls is a legal history of one finite map, in which each call returns the
    map's answer at the moment it worked on its bucket and a bucket that is split loses the keys
    its rehash puts elsewhere; each thread has returned from the calls the record has of it, in
    order, but for one whose lock it still holds; and the table stores this map. *)
Theorem local_linearizable s : star any_step table_new s →
  legal (events s) ∧ (∀ t, calls_of t (events s) = results s t ++ pending (threads s t)) ∧
  ∀ key, ∃ n l, at_home (cells s) key n l ∧ value l key = map_of (events s) !! key.
Proof. intros Hi%reachable_inv. destruct Hi. auto. Qed.

(** C29: threads of the local table exclude each other and are never stuck. A thread that
    works on a bucket owns its lock and no other thread works on it, a locked bucket has an owner,
    and every thread can make a step: none of its accesses is undefined. *)
Theorem local_lock_discipline s : star any_step table_new s →
  (∀ t q, holds (threads s t) = Some q → ∃ b, cells s !! q = Some b ∧ b_lock b = E_LOCKED) ∧
  (∀ t t' q, holds (threads s t) = Some q → holds (threads s t') = Some q → t = t') ∧
  (∀ q b, cells s !! q = Some b → b_lock b = E_LOCKED → ∃ t, holds (threads s t) = Some q) ∧
  ∀ t, threads s t ≠ LOut → ∃ s', local_step s t s'.
Proof.
  intros Hi%reachable_inv. split; [intros t q; by apply holder_locked|]. split; [apply (ci_excl s Hi)|].
  split; [apply (ci_owned s Hi)|]. intros t. by apply thread_moves.
Qed.

(** C30: a waiting call on the local table can return. From every reachable state in which
    a thread waits for the lock of a bucket in a call of [get] or [remove], the owner of the lock
    and the thread can go on so that the call returns. *)
Theorem local_call_returns s t o key v :
  star any_step table_new s → threads s t = LLoad o key v → (∀ x, o ≠ Insert x) →
  ∃ s' r, star any_step s s' ∧ threads s' t = LOut ∧ results s' t = results s t ++ [(o, key, r)].
Proof.
  intros Hi%reachable_inv Ht Ho. destruct (mo_home _ (ci_mem s Hi) key) as (n & l & Hh).
  remember (n - length (curr v))%nat as d eqn:Hd. revert s v Hi Ht Hh Hd. induction d as [d IH] using lt_wf_ind.
  intros s v Hi Ht Hh Hd. pose proof (ci_pc s Hi t) as Hv. rewrite Ht in Hv. cbn in Hv.
  assert (∀ s1 b, conc_inv s1 → threads s1 t = LLoad o key v → results s1 t = results s t → at_home (cells s1) key n l →
    cells s1 !! place key v = Some b → b_lock b = P_UNLOCKED →
    ∃ s' r, star any_step s1 s' ∧ threads s' t = LOut ∧ results s' t = results s t ++ [(o, key, r)]) as Hdown.
  { intros s1 b Hi1 Ht1 Hr1 Hh1 Hb Hl. destruct (call_down s1 t o key v b Hi1 Ht1 Hb Hl) as (s2 & S2 & Ht2 & Hr2 & Hc2).
    pose proof (star_inv _ _ Hi1 S2) as Hi2. pose proof (ci_pc s2 Hi2 t) as Hv2. rewrite Ht2 in Hv2. cbn in Hv2.
    rewrite <- Hc2 in Hh1. pose proof (visit_below _ _ _ _ _ Hv2 Hh1) as Hle. cbn in Hle. rewrite length_app in Hle. cbn in Hle.
    destruct (IH (n - length (curr (visit_down v (bucket_of key v))))%nat) with (s := s2) (v := visit_down v (bucket_of key v))
      as (s3 & r & S3 & Ht3 & Hr3); [cbn; rewrite length_app; cbn; lia|done..|].
    exists s3, r. split; [by eapply star_trans|]. split; [done|]. by rewrite Hr3, Hr2, Hr1. }
  destruct (visit_cell _ _ _ (ci_mem s Hi) Hv) as [b Hb]. destruct (b_lock b) eqn:Hl; [|by eapply call_alone|by eapply Hdown].
  destruct (ci_owned s Hi _ _ Hb Hl) as [t' Ho']. assert (t' ≠ t) as Hne by (intros ->; by rewrite Ht in Ho').
  destruct (threads s t') as [| | | |o' key' v'|o' key' v'|o' key' v' r'] eqn:Ht'; cbn in Ho'; try done; injection Ho' as Hpl.
  - destruct (body_moves s t' o' key' v' Hi Ht') as (b' & [c r|p] & Hb' & _ & E);
      [by eapply call_waits_finish|by eapply call_waits_expand].
  - destruct (unsplit_run s t' o' key' v' Hi Ht') as (s1 & S1 & Hs1 & (b1 & Hb1 & Hl1) & Hh1 & _).
    destruct (Hs1 t) as [Ht1 Hr1]; [done|]. rewrite Hpl in Hb1.
    destruct (Hdown s1 b1) as (s2 & r & S2 & ? & ?); [by eapply local_step_inv|congruence|done|by apply Hh1|done|done|].
    exists s2, r. split; [|done]. eapply star_step; [by exists t'|done].
  - destruct (unlock_run s t' o' key' v' r' Hi Ht') as (s1 & S1 & _ & _ & Hs1 & b1 & Hb1 & Hl1).
    destruct (Hs1 t) as [Ht1 Hr1]; [done|]. rewrite Hpl in Hb1.
    destruct (call_alone s1 t o key v b1) as (s2 & r & S2 & ? & Hr2); [by eapply local_step_inv|congruence|done..|].
    exists s2, r. split; [eapply star_step; [by exists t'|done]|]. split; [done|]. by rewrite Hr2, Hr1.
Qed.
End conc.

(** ** Example: thread 0 inserts a key while thread 1 looks it up *)
Abbreviation ex_table := (@table Z Z).
Abbreviation ex_step := (any_step (V:=Z) (λ x : Z, u64 x) 8 64).
Abbreviation ex_new := (table_new (K:=Z) (V:=Z) 64).
Definition ex_visit : visit := visit_start 64.

(** Thread 0 has the lock and has inserted, thread 1 is at its first load. *)
Lemma ex_contended : ∃ s : ex_table, star ex_step ex_new s ∧
  threads s 0%nat = LUnlock (Insert 900) 90 ex_visit None ∧ threads s 1%nat = LLoad Contains 90 ex_visit ∧
  events s = [ECall 0 (Insert 900) 90 None].
Proof.
  eexists. split.
  - eapply star_step; [exists 0%nat; apply (l_call _ _ _ _ _ (Insert 900) 90); reflexivity|].
    eapply star_step; [exists 1%nat; apply (l_call _ _ _ _ _ Contains 90); reflexivity|].
    eapply star_step; [exists 0%nat; apply (l_load_free _ _ _ _ _ (Insert 900) 90 ex_visit (mkBucket CNull E_UNLOCKED)); [reflexivity|vm_compute; reflexivity|reflexivity]|].
    eapply star_step; [exists 0%nat; apply (l_cas _ _ _ _ _ (Insert 900) 90 ex_visit (mkBucket CNull E_UNLOCKED)); [reflexivity|vm_compute; reflexivity|reflexivity]|].
    eapply star_step; [exists 0%nat; apply (l_finish _ _ _ _ _ (Insert 900) 90 ex_visit (mkBucket CNull E_LOCKED) (CElist [(90, 900)]) None);
      [reflexivity|cbn; by rewrite lookup_insert_eq|reflexivity]|].
    apply star_refl.
  - split_and!; reflexivity.
Qed.

Lemma local_linearizable_witness : ∃ s : ex_table, star ex_step ex_new s ∧
  map_of (λ x : Z, u64 x) 64 (events s) !! 90 = Some 900 ∧ ∃ n l,
    at_home (λ x : Z, u64 x) 64 (cells s) 90 n l ∧ value l 90 = Some 900.
Proof.
  destruct ex_contended as (s & Hs & _ & _ & He). exists s.
  destruct (local_linearizable (λ x : Z, u64 x) 8 64 ltac:(lia) ltac:(lia) s Hs) as (_ & _ & Hmap).
  assert (map_of (λ x : Z, u64 x) 64 (events s) !! 90 = Some 900) as E by (rewrite He; reflexivity).
  split; [exact Hs|]. split; [exact E|]. destruct (Hmap 90) as (n & l & Hh & Hv). exists n, l.
  split; [exact Hh|]. rewrite Hv. exact E.
Defined.

Lemma local_lock_discipline_witness : ∃ s : ex_table, star ex_step ex_new s ∧
  (∀ t, holds (λ x : Z, u64 x) (threads s t) = holds (λ x : Z, u64 x) (threads s 0%nat) → t = 0%nat) ∧
  ∃ s', local_step (λ x : Z, u64 x) 8 64 s 1 s'.
Proof.
  destruct ex_contended as (s & Hs & H0 & H1 & _). exists s.
  destruct (local_lock_discipline (λ x : Z, u64 x) 8 64 ltac:(lia) ltac:(lia) s Hs) as (_ & Hex & _ & Hmove).
  split; [exact Hs|]. split.
  - intros t Ht. rewrite H0 in Ht. cbn [holds] in Ht. apply (Hex t 0%nat _ Ht). rewrite H0. reflexivity.
  - apply (Hmove 1%nat). rewrite H1. discriminate.
Defined.

Lemma local_call_returns_witness : ∃ (s s' : ex_table) r,
  threads s 1%nat = LLoad Contains 90 ex_visit ∧ star ex_step s s' ∧ threads s' 1%nat = LOut ∧
  results s' 1%nat = results s 1%nat ++ [(Contains, 90, r)].
Proof.
  destruct ex_contended as (s & Hs & _ & H1 & _). exists s.
  destruct (local_call_returns (λ x : Z, u64 x) 8 64 ltac:(lia) ltac:(lia) s 1 Contains 90 ex_visit Hs H1) as (s' & r & Hr);
    [discriminate|]. exists s', r. split; [exact H1|exact Hr].
Defined.
