(* ===== verification/IhtTable.v ===== *)
(** * [RdmaIHT] as a table

    One client's calls on the one-sided table, with the remote memory and the caches as the
    state, behave as the interface [TableLaws] asks. So whatever is proved against the
    interface holds over [RdmaIHT] as it does over the local table. *)
From S2P Require Import Prelude RemotePtr IhtRdma IhtElist IhtInv IhtCache IhtSpec IhtExample IhtLocal.

Section table.
Context {K V : Type} `{Countable K}.
Context (to_num : K → Z) (ELIST_SIZE PLIST_SIZE cache_depth_ : nat) (self_id : Z).
Context (palloc : gmap remote_ptr (@obj K V) → remote_ptr) (raw_elist : @EList K V).
Context `{!Geometry ELIST_SIZE PLIST_SIZE} `{!PoolLaws ELIST_SIZE palloc raw_elist}.
Context (root : remote_ptr).

(** A call and what it leaves for the next one. *)
Definition RdmaIHT_exec (fuel : nat) (o : @op V) (key : K) (t : gmap remote_ptr (@obj K V) * IhtRdma.caches)
    : result ((gmap remote_ptr (@obj K V) * IhtRdma.caches) * option V) :=
  '(m, k) ← do_with to_num ELIST_SIZE PLIST_SIZE cache_depth_ self_id palloc raw_elist fuel t.1
              (call PLIST_SIZE root t.2 key o);
  Done ((m, k_caches k), k_result k).

Definition RdmaIHT_abs (t : gmap remote_ptr (@obj K V) * IhtRdma.caches) (M : gmap K V) : Prop :=
  iht_inv to_num ELIST_SIZE PLIST_SIZE t.1 root ∧ iht_abs ELIST_SIZE t.1 root M ∧
  caches_ok PLIST_SIZE t.1 root t.2.

(** Room for a key: what one call asks of an insert. *)
#[export] Instance RdmaIHT_laws fuel : (cache_depth_ ≤ 2)%nat → (41 ≤ fuel)%nat →
  TableLaws (RdmaIHT_exec fuel) RdmaIHT_abs (room to_num ELIST_SIZE PLIST_SIZE).
Proof.
  intros Hcd Hfuel o key [m c] M (Hinv & Habs & Hc) Hroom. cbn [fst snd] in Hinv, Habs, Hc.
  destruct (call_run to_num ELIST_SIZE PLIST_SIZE cache_depth_ self_id palloc raw_elist m root M key o c)
    as (j & m' & k' & Hj & Hrun & []); [exact Hcd|exact Hinv|exact Habs|exact Hroom|exact Hc|].
  unfold RdmaIHT_exec. cbn [fst snd]. erewrite runs_done; [|exact Hrun|done|lia]. rewrite bind_done, out_result.
  eexists. split; [reflexivity|]. by split.
Qed.

(** A new table holds nothing. *)
Lemma RdmaIHT_abs_new m c : RdmaIHT_new PLIST_SIZE = Done c → (InitAsFirst PLIST_SIZE palloc m).1 = root →
  RdmaIHT_abs ((InitAsFirst PLIST_SIZE palloc m).2, c) ∅.
Proof.
  intros Hc Hroot. pose proof (InitAsFirst_inv to_num ELIST_SIZE PLIST_SIZE palloc m) as Hinit.
  unfold RdmaIHT_abs. destruct (InitAsFirst PLIST_SIZE palloc m) as [r m']. destruct Hinit as [Hinv Habs].
  cbn in Hroot. subst r. split; [exact Hinv|]. split; [exact Habs|]. by apply caches_ok_new.
Qed.
End table.
