(* ===== verification/Handle.v ===== *)
(** * A handle on the one-sided table: its constructor and [destroy] (iht/iht_ds.h)

    Besides its caches a handle owns three blocks of registered memory, the landing spots of a
    traversal. They are taken and given back through the facade of [Facade.v], so that what
    happens to them is decided by the slab allocator. *)
From S2P Require Import Prelude Status RemotePtr SlabAllocator MemoryPool RdmaOps Facade IhtRdma.

Record RdmaIHT := mkIHT {
  root : remote_ptr; temp_lock : remote_ptr; temp_ptr : remote_ptr; temp_elist : remote_ptr; own_caches : caches }.

Section handle.
Context (PLIST_SIZE : nat).
(** [sizeof(EList)] *)
Context (sizeof_EList : Z).

(** The constructor: [lock_type] and [remote_baseptr] have eight bytes. *)
Definition RdmaIHT_create (c : rdma_capability) (tid : nat) : result (RdmaIHT * rdma_capability) :=
  caches ← RdmaIHT_new PLIST_SIZE;
  '(lock, c) ← rc_Allocate 8 c tid 1;
  '(ptr, c) ← rc_Allocate 8 c tid 1;
  '(elist, c) ← rc_Allocate sizeof_EList c tid 1;
  Done (mkIHT remote_nullptr lock ptr elist caches, c).

(** [InitFromPointer(root_ptr)] *)
Definition InitFromPointer (root_ptr : remote_ptr) (h : RdmaIHT) : RdmaIHT :=
  mkIHT root_ptr (temp_lock h) (temp_ptr h) (temp_elist h) (own_caches h).

(** The cache entries whose [is_cached] flag is set: layer and index. *)
Definition cached_entries (c : caches) : list (nat * nat) :=
  mjoin (imap (λ l row, mjoin (imap (λ i o, match o with Some _ => [(l, i)] | None => [] end) row)) (layers c)).

(** [destroy(pool)]: eight of the small blocks are given back each; the second result lists
    the cache entries that are freed. The flags stay set. *)
Definition destroy (c : rdma_capability) (tid : nat) (h : RdmaIHT) : result (rdma_capability * list (nat * nat)) :=
  c ← rc_Deallocate 8 c tid (temp_lock h) 8;
  c ← rc_Deallocate 8 c tid (temp_ptr h) 8;
  c ← rc_Deallocate sizeof_EList c tid (temp_elist h) 1;
  Done (c, cached_entries (own_caches h)).
End handle.

Lemma no_entry_cached l n :
  mjoin (imap (λ i o, match o with Some _ => [(l, i)] | None => [] end) (replicate n (@None PList))) = @nil (nat * nat).
Proof.
  assert (∀ k, mjoin (imap (λ i o, match o with Some _ => [(l, (k + i)%nat)] | None => [] end) (replicate n (@None PList))) =
    @nil (nat * nat)) as H; [|exact (H 0%nat)].
  induction n as [|n IH]; intros k; [done|]. cbn. etransitivity; [|exact (IH (S k))]. f_equal. apply imap_ext. intros i o _.
  destruct o; cbn; [|done]. by rewrite Nat.add_succ_r.
Qed.

(** ** The class of 64-byte blocks *)
Record class64 (m : memory_resource) (tid : nat) (al : Z) (fl : list (Z * Z)) : Prop := {
  c64_al : alignments_ (thread_state m tid) !! 3%nat = Some al;
  c64_fl : freelists_ (thread_state m tid) !! 3%nat = Some fl }.

Lemma request64 b : 1 ≤ b ≤ 64 → (if b <? 64 then 64 else b) = 64.
Proof. intros Hb. destruct (Z.ltb_spec b 64); lia. Qed.

(** No free block: a new one below the unused part. *)
Lemma allocate_new m tid b fl : class64 m tid 0 fl → 1 ≤ b ≤ 64 →
  2 ^ 20 ≤ rdma_raw m → rdma_raw m mod 64 = 0 → rdma_raw m + 128 ≤ head_ m < 2 ^ 48 →
  do_allocate m tid b 64 = Done (mkAlloc (head_ m - head_ m mod 64 - 64) None,
    mkResource (rdma_raw m) (head_ m - head_ m mod 64 - 64) (slabs m)).
Proof.
  intros [Hal Hfl] Hb Hraw Hmod Hhead. unfold do_allocate. rewrite (request64 b Hb).
  change (slab_class 64) with (Done 6). rewrite bind_done. cbv zeta. change (Z.to_nat (6 - kMinSlabClass)) with 3%nat.
  cbn [rome_assert kMaxAlignment]. rewrite Hal. cbn -[bump_allocate Z.land]. unfold bump_allocate.
  rewrite bump_candidate_spec by lia. pose proof (Z.mod_pos_bound (head_ m) 64 ltac:(lia)).
  by rewrite (proj2 (Z.ltb_ge _ _)) by lia.
Qed.

Lemma class64_set m tid al fl head al' fl' : class64 m tid al fl →
  class64 (mkResource (rdma_raw m) head (<[tid := mkSlabs (<[3%nat := al']> (alignments_ (thread_state m tid)))
    (<[3%nat := fl']> (freelists_ (thread_state m tid)))]> (slabs m))) tid al' fl'.
Proof.
  intros [Hal Hfl]. split; unfold thread_state at 1; cbn; rewrite lookup_insert_eq; cbn;
    apply list_lookup_insert_eq; by eapply lookup_lt_Some.
Qed.

(** A block goes to the end of the list, and the first of the list is used again. *)
Lemma deallocate_block m tid al fl p : class64 m tid al fl →
  ∃ m', do_deallocate m tid p 64 64 = Done m' ∧ class64 m' tid (u8 (Z.lor al 64)) (fl ++ [(64, p)]) ∧
    rdma_raw m' = rdma_raw m ∧ head_ m' = head_ m.
Proof.
  intros Hc. pose proof Hc as [Hal Hfl]. unfold do_deallocate. change (slab_class 64) with (Done 6).
  rewrite bind_done. cbv zeta. change (Z.to_nat (6 - kMinSlabClass)) with 3%nat. rewrite Hal, Hfl. cbn -[u8].
  eexists. split; [done|]. split; [|done]. by apply (class64_set m tid al fl).
Qed.

Lemma allocate_again m tid b p post : class64 m tid 64 ((64, p) :: post) → 1 ≤ b ≤ 64 →
  ∃ m', do_allocate m tid b 64 = Done (mkAlloc p (Some (p, 64)), m') ∧
    class64 m' tid (if bool_decide (post = []) then 0 else 64) post ∧
    rdma_raw m' = rdma_raw m ∧ head_ m' = head_ m.
Proof.
  intros Hc Hb. pose proof Hc as [Hal Hfl]. unfold do_allocate. rewrite (request64 b Hb).
  change (slab_class 64) with (Done 6). rewrite bind_done. cbv zeta. change (Z.to_nat (6 - kMinSlabClass)) with 3%nat.
  cbn [rome_assert kMaxAlignment]. rewrite Hal, Hfl. cbn -[u8].
  eexists. split; [done|]. split; [|done]. case_bool_decide; by apply (class64_set m tid 64 ((64, p) :: post)).
Qed.

(** ** Through the facade *)
Definition memory_of (c : rdma_capability) : memory_resource := rdma_memory_ (pool c).
Definition node_of (c : rdma_capability) : Z := peer_id (self_ (pool c)).
Definition with_memory (c : rdma_capability) (m : memory_resource) : rdma_capability :=
  set_pool c (set_memory (pool c) m).

Lemma rc_Allocate_block sizeof_T c tid m b al : u64 (sizeof_T * 1) = b →
  do_allocate (memory_of c) tid b 64 = Done (al, m) →
  rc_Allocate sizeof_T c tid 1 = Done (of_pointer (node_of c) (al_ptr al), with_memory c m).
Proof. intros <- E. unfold rc_Allocate, Allocate, allocate. unfold memory_of in E. by rewrite E. Qed.

Lemma rc_Deallocate_block sizeof_T c tid m a n : u64 (sizeof_T * n) = 64 → is_u 16 (node_of c) → is_u 48 a →
  do_deallocate (memory_of c) tid a 64 64 = Done m →
  rc_Deallocate sizeof_T c tid (of_pointer (node_of c) a) n = Done (with_memory c m).
Proof.
  intros Hn Hid Ha E. unfold rc_Deallocate, Deallocate, deallocate. unfold memory_of in E.
  assert (is_u 16 (u16 (node_of c))) as Hu by (apply (wrap_is_u 16); lia).
  unfold of_pointer. rewrite id_mk_ptr, address_mk_ptr by done. unfold is_u in Hid, Ha.
  assert (u16 (node_of c) = peer_id (self_ (pool c))) as -> by (apply Z.mod_small, Hid).
  rewrite Z.eqb_refl, (Z.mod_small a), Hn by done. cbn [rome_assert]. by rewrite bind_done, E.
Qed.

Lemma address_of_pointer i a : is_u 48 a → address (of_pointer i a) = a.
Proof. intros Ha. unfold of_pointer. rewrite address_mk_ptr; [by apply wrap_small|]. apply (wrap_is_u 16). lia. Qed.

Lemma RdmaIHT_new_unused PLIST_SIZE : (Z.of_nat PLIST_SIZE * sizeof_plist_pair) mod 64 = 0 →
  ∃ caches, RdmaIHT_new PLIST_SIZE = Done caches ∧ cached_entries caches = [].
Proof.
  intros Hgeo. unfold RdmaIHT_new. rewrite (proj2 (Z.eqb_eq _ _) Hgeo). cbn [negb]. eexists. split; [done|].
  unfold cached_entries. cbn. rewrite !no_entry_cached. done.
Qed.

(** The three blocks of a handle. *)
Definition spots (node a1 a2 a3 : Z) (caches : caches) : RdmaIHT :=
  mkIHT remote_nullptr (of_pointer node a1) (of_pointer node a2) (of_pointer node a3) caches.

Lemma create_spots PLIST_SIZE c tid caches a1 m1 a2 m2 a3 m3 :
  RdmaIHT_new PLIST_SIZE = Done caches →
  do_allocate (memory_of c) tid 8 64 = Done (a1, m1) → do_allocate m1 tid 8 64 = Done (a2, m2) →
  do_allocate m2 tid 64 64 = Done (a3, m3) →
  RdmaIHT_create PLIST_SIZE 64 c tid = Done (spots (node_of c) (al_ptr a1) (al_ptr a2) (al_ptr a3) caches, with_memory c m3).
Proof.
  intros Hc E1 E2 E3. unfold RdmaIHT_create. rewrite Hc, bind_done.
  rewrite (rc_Allocate_block 8 c tid m1 8 a1) by done. rewrite bind_done.
  rewrite (rc_Allocate_block 8 (with_memory c m1) tid m2 8 a2) by done. rewrite bind_done.
  by rewrite (rc_Allocate_block 64 (with_memory (with_memory c m1) m2) tid m3 64 a3).
Qed.

Lemma destroy_spots c tid caches p1 p2 p3 m1 m2 m3 :
  is_u 16 (node_of c) → is_u 48 p1 → is_u 48 p2 → is_u 48 p3 →
  do_deallocate (memory_of c) tid p1 64 64 = Done m1 → do_deallocate m1 tid p2 64 64 = Done m2 →
  do_deallocate m2 tid p3 64 64 = Done m3 →
  destroy 64 c tid (spots (node_of c) p1 p2 p3 caches) = Done (with_memory c m3, cached_entries caches).
Proof.
  intros Hn H1 H2 H3 E1 E2 E3. unfold destroy, spots. cbn [temp_lock temp_ptr temp_elist own_caches].
  rewrite (rc_Deallocate_block 8 c tid m1 p1 8), bind_done by done.
  change (node_of c) with (node_of (with_memory c m1)).
  rewrite (rc_Deallocate_block 8 (with_memory c m1) tid m2 p2 8), bind_done by done.
  change (node_of (with_memory c m1)) with (node_of (with_memory (with_memory c m1) m2)).
  by rewrite (rc_Deallocate_block 64 (with_memory (with_memory c m1) m2) tid m3 p3 1).
Qed.

(** Three new blocks in a row, from aligned unused memory. *)
Lemma three_new m tid : class64 m tid 0 [] →
  2 ^ 20 ≤ rdma_raw m → rdma_raw m mod 64 = 0 → rdma_raw m + 256 ≤ head_ m < 2 ^ 48 →
  ∃ a m1 m2 m3, do_allocate m tid 8 64 = Done (mkAlloc (a + 128) None, m1) ∧
    do_allocate m1 tid 8 64 = Done (mkAlloc (a + 64) None, m2) ∧
    do_allocate m2 tid 64 64 = Done (mkAlloc a None, m3) ∧
    class64 m3 tid 0 [] ∧ rdma_raw m3 = rdma_raw m ∧ head_ m3 = a ∧ rdma_raw m ≤ a ∧ a + 192 ≤ head_ m.
Proof.
  intros Hc Hraw Hmod Hhead. pose proof (Z.mod_pos_bound (head_ m) 64 ltac:(lia)) as Hb.
  pose proof (Z.div_mod (head_ m) 64 ltac:(lia)) as Hdm. pose proof (Z.div_mod (rdma_raw m) 64 ltac:(lia)) as Hdr.
  set (q := head_ m / 64) in *. assert (∀ k, (64 * q - 64 * k) mod 64 = 0) as Hal.
  { intros k. replace (64 * q - 64 * k) with ((q - k) * 64) by lia. apply Z_mod_mult. }
  assert (∀ k, class64 (mkResource (rdma_raw m) (64 * q - 64 * k) (slabs m)) tid 0 []) as Hck by (intros k; by destruct Hc).
  assert (∀ b k, 1 ≤ b ≤ 64 → 1 ≤ k ≤ 2 → do_allocate (mkResource (rdma_raw m) (64 * q - 64 * k) (slabs m)) tid b 64 =
    Done (mkAlloc (64 * q - 64 * (k + 1)) None, mkResource (rdma_raw m) (64 * q - 64 * (k + 1)) (slabs m))) as Hnext.
  { intros b k Hb' Hk. rewrite (allocate_new _ tid b [] (Hck k)) by (cbn; lia). cbn. rewrite Hal.
    by replace (64 * q - 64 * k - 0 - 64) with (64 * q - 64 * (k + 1)) by lia. }
  exists (64 * q - 64 * 3). do 3 eexists. split; [|split; [|split]].
  - rewrite (allocate_new m tid 8 [] Hc) by lia. replace (head_ m - head_ m mod 64 - 64) with (64 * q - 64 * 1) by lia.
    by replace (64 * q - 64 * 3 + 128) with (64 * q - 64 * 1) by lia.
  - rewrite Hnext by lia. by replace (64 * q - 64 * 3 + 64) with (64 * q - 64 * (1 + 1)) by lia.
  - change (1 + 1) with 2. rewrite Hnext by lia. done.
  - cbn. split; [apply (Hck 3)|]. lia.
Qed.

(** Given back in turn, they are handed out again in the same order. *)
Lemma three_again m tid p1 p2 p3 : class64 m tid 0 [] →
  ∃ m1 m2 m3 m4 m5 m6,
    do_deallocate m tid p1 64 64 = Done m1 ∧ do_deallocate m1 tid p2 64 64 = Done m2 ∧
    do_deallocate m2 tid p3 64 64 = Done m3 ∧ head_ m3 = head_ m ∧
    do_allocate m3 tid 8 64 = Done (mkAlloc p1 (Some (p1, 64)), m4) ∧
    do_allocate m4 tid 8 64 = Done (mkAlloc p2 (Some (p2, 64)), m5) ∧
    do_allocate m5 tid 64 64 = Done (mkAlloc p3 (Some (p3, 64)), m6) ∧ head_ m6 = head_ m.
Proof.
  intros Hc.
  destruct (deallocate_block m tid 0 [] p1 Hc) as (m1 & E1 & C1 & _ & H1).
  destruct (deallocate_block m1 tid 64 [(64, p1)] p2 C1) as (m2 & E2 & C2 & _ & H2).
  destruct (deallocate_block m2 tid 64 [(64, p1); (64, p2)] p3 C2) as (m3 & E3 & C3 & _ & H3).
  destruct (allocate_again m3 tid 8 p1 [(64, p2); (64, p3)] C3 ltac:(lia)) as (m4 & E4 & C4 & _ & H4).
  destruct (allocate_again m4 tid 8 p2 [(64, p3)] C4 ltac:(lia)) as (m5 & E5 & C5 & _ & H5).
  destruct (allocate_again m5 tid 64 p3 [] C5 ltac:(lia)) as (m6 & E6 & _ & _ & H6).
  exists m1, m2, m3, m4, m5, m6. split_and!; (done || congruence).
Qed.

(** C34: a handle gives back what it took. On a thread without free 64-byte blocks the
    constructor takes three new blocks, one below the other; [destroy] returns them to the list
    they belong to although it names another size than they were asked for, and frees no cache
    entry of an unused handle; the next handle of the thread then gets the same three blocks
    and takes nothing from the unused memory. *)
Theorem handle_blocks_reused PLIST_SIZE c tid :
  (Z.of_nat PLIST_SIZE * sizeof_plist_pair) mod 64 = 0 →
  class64 (memory_of c) tid 0 [] → is_u 16 (node_of c) →
  2 ^ 20 ≤ rdma_raw (memory_of c) → rdma_raw (memory_of c) mod 64 = 0 →
  rdma_raw (memory_of c) + 256 ≤ head_ (memory_of c) < 2 ^ 48 →
  ∃ h a c1 c2 c3, RdmaIHT_create PLIST_SIZE 64 c tid = Done (h, c1) ∧
    address (temp_lock h) = a + 128 ∧ address (temp_ptr h) = a + 64 ∧ address (temp_elist h) = a ∧
    rdma_raw (memory_of c) ≤ a ∧ head_ (memory_of c1) = a ∧
    destroy 64 c1 tid h = Done (c2, []) ∧ head_ (memory_of c2) = a ∧
    RdmaIHT_create PLIST_SIZE 64 c2 tid = Done (h, c3) ∧ head_ (memory_of c3) = a.
Proof.
  intros Hgeo Hcl Hid Hraw Hmod Hhead.
  destruct (three_new (memory_of c) tid Hcl Hraw Hmod Hhead) as (a & m1 & m2 & m3 & E1 & E2 & E3 & C3 & _ & H3 & Hlo & Hhi).
  destruct (three_again m3 tid (a + 128) (a + 64) a C3) as (d1 & d2 & d3 & d4 & d5 & d6 & D1 & D2 & D3 & Hd3 & A1 & A2 & A3 & Hd6).
  pose proof (RdmaIHT_new_unused PLIST_SIZE Hgeo) as (caches & Hnew & Hunused).
  assert (is_u 48 (a + 128) ∧ is_u 48 (a + 64) ∧ is_u 48 a) as (Ha2 & Ha1 & Ha0) by (unfold is_u; lia).
  exists (spots (node_of c) (a + 128) (a + 64) a caches), a. do 3 eexists.
  split; [exact (create_spots _ c _ _ _ _ _ _ _ _ Hnew E1 E2 E3)|].
  unfold spots; cbn [temp_lock temp_ptr temp_elist]. rewrite !address_of_pointer by done.
  do 3 (split; [done|]). split; [done|]. split; [done|].
  split; [rewrite <- Hunused; exact (destroy_spots (with_memory c m3) tid caches _ _ _ _ _ _ Hid Ha2 Ha1 Ha0 D1 D2 D3)|].
  split; [cbn; by rewrite Hd3|].
  split; [exact (create_spots _ (with_memory (with_memory c m3) d3) _ _ _ _ _ _ _ _ Hnew A1 A2 A3)|].
  cbn. by rewrite Hd6.
Qed.

(** ** Example *)
Definition ex_handle_side : rdma_capability :=
  set_pool (ex_side 1 2 70 8192) (set_memory ex_pool (mkResource (2 ^ 20) (2 ^ 20 + 4096) ∅)).

Lemma handle_blocks_reused_witness :
  ∃ h a c1 c2 c3, RdmaIHT_create 128 64 ex_handle_side 9 = Done (h, c1) ∧ address (temp_elist h) = a ∧
    destroy 64 c1 9 h = Done (c2, []) ∧ RdmaIHT_create 128 64 c2 9 = Done (h, c3) ∧ head_ (memory_of c3) = a.
Proof.
  destruct (handle_blocks_reused 128 ex_handle_side 9) as (h & a & c1 & c2 & c3 & E1 & _ & _ & Ea & _ & _ & E2 & _ & E3 & E4);
    [reflexivity|split; reflexivity|vm_compute; split; congruence|vm_compute; congruence|reflexivity|vm_compute; split; congruence|].
  exists h, a, c1, c2, c3. exact (conj E1 (conj Ea (conj E2 (conj E3 E4)))).
Defined.
