(* ===== verification/Rpc.v ===== *)
(** * [TwoSidedIHT] (iht/rpc.h): a key-partitioned table served by messages

    [count] nodes hold one local table each and [to_id] gives the node of a key. A call
    on a foreign key takes the mutex of the pair of nodes, sends a request and waits
    for the response; the server threads of a node take requests, run them on the
    node's table and answer. The local table is used through [TableLaws]; the channels
    are the queues [Messenger] provides. *)
From stdpp Require Import functions.
From S2P Require Import Prelude IhtRdma IhtSpec IhtLocal.

(** ** Messages *)
Definition GET_REQ := 1.
Definition INS_REQ := 2.
Definition RMV_REQ := 3.
Definition GET_RES := 4.
Definition INS_RES := 5.
Definition RMV_RES := 6.
Definition ERR := 7.

Record IHTOPProto := mkProto { op_type : Z; p_key : Z; p_value : Z }.

(** The request [get], [insert] and [remove] send. *)
Definition make_request (o : @op Z) (key : Z) : IHTOPProto :=
  match o with
  | Contains => mkProto GET_REQ key 0
  | Insert v => mkProto INS_REQ key v
  | Remove => mkProto RMV_REQ key 0
  end.

(** What they make of the response. *)
Definition read_response (o : @op Z) (m : IHTOPProto) : result (option Z) :=
  match o with
  | Contains =>
      if op_type m =? ERR then Done None
      else _ ← rome_assert (op_type m =? GET_RES); Done (Some (p_value m))
  | Insert _ =>
      if op_type m =? ERR then Done (Some (p_value m))
      else _ ← rome_assert (op_type m =? INS_RES); Done None
  | Remove =>
      if op_type m =? ERR then Done None
      else _ ← rome_assert (op_type m =? RMV_RES); Done (Some (p_value m))
  end.

(** ** One node *)
Record conf := mkConf { c_count : Z; keyspace_lb : Z; keyspace_len : Z }.

(** The constructor's arithmetic and assertion. *)
Definition TwoSidedIHT_new (self_id count lb ub : Z) : result conf :=
  len ← int_op (ub - lb);
  _ ← rome_assert ((0 <=? self_id) && (self_id <? count));
  Done (mkConf count lb len).

(** [to_id(key)]: [int] arithmetic; dividing by zero is undefined. *)
Definition to_id (c : conf) (key : Z) : result Z :=
  _ ← rome_assert (keyspace_lb c <=? key);
  d ← int_op (key - keyspace_lb c);
  _ ← rome_assert (d <=? keyspace_len c);
  p ← int_op (c_count c * d);
  _ ← rome_undef (negb (keyspace_len c =? 0));
  let id := Z.quot p (keyspace_len c) in
  Done (if id =? c_count c then id - 1 else id).

Section node.
Context {T : Type} (exec : @op Z → Z → T → result (T * option Z)).

(** A server thread's work on one request. [answer] is not initialised when the key is
    missing: [junk] stands for what is in it. *)
Definition handle_request (junk : Z) (m : IHTOPProto) (t : T) : result (T * IHTOPProto) :=
  if op_type m =? GET_REQ then
    '(t, r) ← exec Contains (p_key m) t;
    Done (t, match r with
             | Some v => mkProto GET_RES (p_key m) v
             | None => mkProto ERR (p_key m) junk
             end)
  else if op_type m =? INS_REQ then
    '(t, r) ← exec (Insert (p_value m)) (p_key m) t;
    Done (t, match r with
             | None => mkProto INS_RES (p_key m) (p_value m)
             | Some old => mkProto ERR (p_key m) old
             end)
  else if op_type m =? RMV_REQ then
    '(t, r) ← exec Remove (p_key m) t;
    Done (t, match r with
             | Some v => mkProto RMV_RES (p_key m) v
             | None => mkProto ERR (p_key m) junk
             end)
  else Done (t, mkProto 0 (p_key m) (p_value m)).      (* logged, and answered all the same *)

Lemma request_roundtrip junk o key t t' r :
  exec o key t = Done (t', r) →
  ∃ m, handle_request junk (make_request o key) t = Done (t', m) ∧ read_response o m = Done r.
Proof.
  intros E. unfold handle_request. destruct o; cbn; rewrite E, bind_done;
    eexists; (split; [done|]); by destruct r.
Qed.
End node.

(** ** The partition of the key space *)
Lemma to_id_done c key id : to_id c key = Done id →
  0 ≤ key - keyspace_lb c ≤ keyspace_len c ∧ keyspace_len c ≠ 0 ∧
  id = (let q := Z.quot (c_count c * (key - keyspace_lb c)) (keyspace_len c) in
        if q =? c_count c then q - 1 else q).
Proof.
  unfold to_id. intros E. apply bind_done_inv in E as (u & E1 & E). apply rome_assert_done in E1.
  apply bind_done_inv in E as (d & E2 & E). apply int_op_done in E2 as [-> _].
  apply bind_done_inv in E as (u2 & E3 & E). apply rome_assert_done in E3.
  apply bind_done_inv in E as (p & E4 & E). apply int_op_done in E4 as [-> _].
  apply bind_done_inv in E as (u3 & E5 & E). injection E as <-.
  destruct (Z.eqb_spec (keyspace_len c) 0) as [|Hne]; [done|].
  apply Z.leb_le in E1, E3. split_and!; [lia|lia|done|done].
Qed.

(** [to_id] splits the inclusive key range into [count] consecutive parts: it
    returns a node number, the scaled position of the key rounded down, with the upper
    bound of the range assigned to the last node. *)
Theorem to_id_partition c key :
  0 < c_count c → 0 < keyspace_len c → c_count c * keyspace_len c ≤ INT_MAX →
  keyspace_lb c ≤ key ≤ keyspace_lb c + keyspace_len c →
  ∃ id, to_id c key = Done id ∧
    id = Z.min (c_count c - 1) ((c_count c * (key - keyspace_lb c)) `div` keyspace_len c) ∧
    0 ≤ id < c_count c.
Proof.
  intros Hc Hl Hov Hk. set (d := key - keyspace_lb c).
  assert (0 ≤ d ≤ keyspace_len c) as Hd by lia.
  assert (0 ≤ c_count c * d ≤ c_count c * keyspace_len c) as Hp by nia.
  assert (keyspace_len c ≤ INT_MAX) as Hli by nia.
  pose proof (Z.div_pos (c_count c * d) (keyspace_len c) ltac:(lia) Hl) as H0.
  assert ((c_count c * d) `div` keyspace_len c ≤ c_count c) as H1.
  { apply Z.div_le_upper_bound; [done|]. nia. }
  eexists. split; [|split; [reflexivity|lia]].
  unfold to_id. fold d. rewrite (proj2 (Z.leb_le _ _)) by lia. cbn.
  rewrite (proj2 (int_op_done d d)) by (unfold INT_MIN in *; split; [done|lia]).
  rewrite bind_done, (proj2 (Z.leb_le _ _)) by lia. cbn.
  rewrite (proj2 (int_op_done _ _)) by (split; [reflexivity|unfold INT_MIN in *; lia]).
  rewrite bind_done, (proj2 (Z.eqb_neq (keyspace_len c) 0)) by lia. cbn.
  rewrite Z.quot_div_nonneg by lia. f_equal. destruct (Z.eqb_spec ((c_count c * d) `div` keyspace_len c) (c_count c)); lia.
Qed.

Lemma to_id_partition_witness :
  ∃ id, to_id (mkConf 3 0 100) 100 = Done id ∧ id = 2 ∧ 0 ≤ id < 3.
Proof. apply (to_id_partition (mkConf 3 0 100) 100); vm_compute; try split; congruence. Defined.

(** ** The cluster *)
(** A client thread: between two calls, or waiting for node [j] to answer. *)
Inductive call_state := Idle | Waiting (o : @op Z) (key j : Z).

(** A table operation as it took effect: the thread it is for, the call, its result. *)
Record entry := mkEntry { e_thread : option nat; e_op : @op Z; e_key : Z; e_result : option Z }.
Definition e_call (e : entry) : @op Z * Z * option Z := (e_op e, e_key e, e_result e).

(** Mutexes are [None] or their owner. [log] and [hist] (the calls each thread has
    completed) only record the execution. *)
Record cluster {T : Type} := mkCluster {
  tables : Z → T;
  calls : nat → call_state;
  requests : Z * Z → list IHTOPProto;
  responses : Z * Z → list IHTOPProto;
  lock_table_client : Z * Z → option nat;
  hist : nat → list (@op Z * Z * option Z);
  log : list entry }.
Arguments cluster : clear implicits.
Arguments mkCluster {T}.

(** The call a request stands for. *)
Definition decode (m : IHTOPProto) : option (@op Z) :=
  if op_type m =? GET_REQ then Some Contains
  else if op_type m =? INS_REQ then Some (Insert (p_value m))
  else if op_type m =? RMV_REQ then Some Remove else None.

Definition served (owner : option nat) (m m' : IHTOPProto) : list entry :=
  match decode m with
  | Some o => match read_response o m' with
              | Done r => [mkEntry owner o (p_key m) r]
              | Fault _ => []
              end
  | None => []
  end.

Section cluster.
Context {T : Type} (exec : @op Z → Z → T → result (T * option Z)).
Context (abs : T → gmap Z Z → Prop) (room : @op Z → Z → gmap Z Z → Prop).
Context `{!TableLaws exec abs room}.
Context (c : conf) (node : nat → Z) (t0 : T).
Implicit Types s : cluster T.

Definition cluster_new : cluster T :=
  mkCluster (λ _, t0) (λ _, Idle) (λ _, []) (λ _, []) (λ _, None) (λ _, []) [].

(** A call on a node's table is one step; a server takes a request that is there (a poll of an
    empty queue is undefined) and its response is sent (if not, it aborts): [Server.v] has
    both. *)
Inductive rpc_step s : cluster T → Prop :=
| step_local t o key t' r :                            (* target_id == self_id *)
    calls s t = Idle → to_id c key = Done (node t) →
    exec o key (tables s (node t)) = Done (t', r) →
    rpc_step s (mkCluster (<[node t := t']> (tables s)) (calls s) (requests s) (responses s)
      (lock_table_client s) (<[t := hist s t ++ [(o, key, r)]]> (hist s))
      (log s ++ [mkEntry (Some t) o key r]))
| step_send t o key j :                                (* lock, Send(request) *)
    calls s t = Idle → to_id c key = Done j → j ≠ node t →
    lock_table_client s (node t, j) = None →
    rpc_step s (mkCluster (tables s) (<[t := Waiting o key j]> (calls s))
      (<[(node t, j) := requests s (node t, j) ++ [make_request o key]]> (requests s)) (responses s)
      (<[(node t, j) := Some t]> (lock_table_client s)) (hist s) (log s))
| step_serve i j m ms junk t' m' :                     (* a server thread of j, on id = i *)
    i ≠ j → requests s (i, j) = m :: ms →
    handle_request exec junk m (tables s j) = Done (t', m') →
    rpc_step s (mkCluster (<[j := t']> (tables s)) (calls s)
      (<[(i, j) := ms]> (requests s)) (<[(i, j) := responses s (i, j) ++ [m']]> (responses s))
      (lock_table_client s) (hist s) (log s ++ served (lock_table_client s (i, j)) m m'))
| step_receive t o key j m ms r :                      (* Deliver, unlock, return *)
    calls s t = Waiting o key j → responses s (node t, j) = m :: ms →
    read_response o m = Done r →
    rpc_step s (mkCluster (tables s) (<[t := Idle]> (calls s)) (requests s)
      (<[(node t, j) := ms]> (responses s)) (<[(node t, j) := None]> (lock_table_client s))
      (<[t := hist s t ++ [(o, key, r)]]> (hist s)) (log s)).

(** *** The map the log describes *)
Definition log_map (l : list entry) : gmap Z Z :=
  foldl (λ M e, (spec_op (e_op e) (e_key e) M).1) ∅ l.
Definition on_node (j : Z) (l : list entry) : list entry :=
  filter (λ e, to_id c (e_key e) = Done j) l.
Definition thread_log (t : nat) (l : list entry) : list (@op Z * Z * option Z) :=
  e_call <$> filter (λ e, e_thread e = Some t) l.

Arguments log_map : simpl never.
Arguments on_node : simpl never.
Arguments thread_log : simpl never.

(** Every operation of the log found room at its node. *)
Definition log_rooms (l : list entry) : Prop :=
  ∀ pre e post j, l = pre ++ e :: post → to_id c (e_key e) = Done j →
    room (e_op e) (e_key e) (log_map (on_node j pre)).

Definition legal (l : list entry) : Prop :=
  map e_result l = spec_ops ∅ (map (λ e, (e_op e, e_key e)) l).

Lemma spec_ops_snoc (M : gmap Z Z) (ops : list (@op Z * Z)) o key :
  spec_ops M (ops ++ [(o, key)]) =
  spec_ops M ops ++ [(spec_op o key (foldl (λ M p, (spec_op p.1 p.2 M).1) M ops)).2].
Proof. revert M. induction ops as [|[o' k'] ops IH]; intros M; cbn; [done|]. by rewrite IH. Qed.

Lemma log_map_ops l :
  log_map l = foldl (λ M p, (spec_op p.1 p.2 M).1) ∅ (map (λ e, (e_op e, e_key e)) l).
Proof.
  unfold log_map. generalize (∅ : gmap Z Z). induction l as [|e l IH]; intros M; cbn; [done|]. apply IH.
Qed.

Lemma legal_snoc l e :
  legal l → e_result e = log_map l !! e_key e → legal (l ++ [e]).
Proof.
  unfold legal. intros Hl He. rewrite !map_app. cbn. rewrite spec_ops_snoc, Hl, <- log_map_ops.
  do 2 f_equal. rewrite He. by destruct (e_op e).
Qed.

(** An operation only concerns its own key. *)
Lemma spec_op_lookup o k (M M' : gmap Z Z) key :
  M !! key = M' !! key → (spec_op o k M).1 !! key = (spec_op o k M').1 !! key.
Proof.
  intros E. destruct (decide (k = key)) as [->|Hne].
  - destruct o; cbn; [done| |by rewrite !lookup_delete_eq].
    rewrite <- E. destruct (M !! key) eqn:E1; [congruence|]. by rewrite !lookup_insert_eq.
  - destruct o; cbn; [done| |by rewrite !lookup_delete_ne].
    destruct (M !! k), (M' !! k); rewrite ?lookup_insert_ne by done; done.
Qed.

Lemma spec_op_other o k (M : gmap Z Z) key : k ≠ key → (spec_op o k M).1 !! key = M !! key.
Proof.
  intros Hne. destruct o; cbn; [done| |by rewrite lookup_delete_ne].
  destruct (M !! k); by rewrite ?lookup_insert_ne by done.
Qed.

Lemma log_map_snoc l e : log_map (l ++ [e]) = (spec_op (e_op e) (e_key e) (log_map l)).1.
Proof. unfold log_map. by rewrite foldl_app. Qed.

Lemma on_node_snoc j l e :
  on_node j (l ++ [e]) = on_node j l ++ (if bool_decide (to_id c (e_key e) = Done j) then [e] else []).
Proof.
  unfold on_node. rewrite filter_app. f_equal.
  case_bool_decide; [by rewrite filter_cons_True|by rewrite filter_cons_False].
Qed.

(** A node's part of the log determines the keys of that node. *)
Lemma log_map_node l key j :
  to_id c key = Done j → log_map (on_node j l) !! key = log_map l !! key.
Proof.
  intros Hj. induction l as [|e l IH] using rev_ind; [done|].
  rewrite on_node_snoc, log_map_snoc. case_bool_decide as He.
  - rewrite log_map_snoc. by apply spec_op_lookup.
  - rewrite app_nil_r, IH, spec_op_other; congruence.
Qed.

(** *** Invariant *)
(** The state of the pair [(i, j)]: free and silent, or owned by a waiting thread of
    [i] whose request, or else whose answer, is the only message. *)
Definition pair_ok s (i j : Z) : Prop :=
  match lock_table_client s (i, j) with
  | None => requests s (i, j) = [] ∧ responses s (i, j) = []
  | Some t => node t = i ∧ ∃ o key, calls s t = Waiting o key j ∧ to_id c key = Done j ∧
      ((requests s (i, j) = [make_request o key] ∧ responses s (i, j) = [] ∧
        thread_log t (log s) = hist s t) ∨
       (requests s (i, j) = [] ∧ ∃ m r, responses s (i, j) = [m] ∧ read_response o m = Done r ∧
        thread_log t (log s) = hist s t ++ [(o, key, r)]))
  end.

Definition thread_ok s (t : nat) : Prop :=
  match calls s t with
  | Idle => thread_log t (log s) = hist s t
  | Waiting _ _ j => lock_table_client s (node t, j) = Some t ∧ j ≠ node t
  end.

Definition tables_ok s : Prop :=
  legal (log s) ∧ ∀ j, abs (tables s j) (log_map (on_node j (log s))).

Record rpc_inv s : Prop := {
  inv_pair i j : pair_ok s i j;
  inv_thread t : thread_ok s t;
  inv_tables : log_rooms (log s) → tables_ok s }.

Lemma log_rooms_app l l' : log_rooms (l ++ l') → log_rooms l.
Proof. intros Hr pre e post j -> Hj. eapply Hr; [|done]. by rewrite <- app_assoc. Qed.

(** One table operation at node [j], appended to the log. *)
Lemma tables_ok_exec s s' e j t' :
  tables_ok s → log_rooms (log s ++ [e]) → to_id c (e_key e) = Done j →
  exec (e_op e) (e_key e) (tables s j) = Done (t', e_result e) →
  tables s' = <[j := t']> (tables s) → log s' = log s ++ [e] → tables_ok s'.
Proof.
  intros [Hleg Habs] Hr Hj He Ht Hl.
  pose proof (Hr (log s) e [] j eq_refl Hj) as Hroom.
  destruct (exec_spec _ _ _ _ (Habs j) Hroom) as (t'' & E & Habs').
  rewrite E in He. apply done_pair in He as [<- Hres]. split.
  - rewrite Hl. apply legal_snoc; [done|]. rewrite <- Hres, <- (log_map_node _ _ _ Hj).
    by destruct (e_op e).
  - intros j'. rewrite Ht, Hl, on_node_snoc. destruct (decide (j' = j)) as [->|Hne].
    + rewrite fn_lookup_insert, bool_decide_eq_true_2 by done. by rewrite log_map_snoc.
    + rewrite fn_lookup_insert_ne, bool_decide_eq_false_2 by congruence. by rewrite app_nil_r.
Qed.

Lemma thread_log_snoc t l e :
  thread_log t (l ++ [e]) =
  thread_log t l ++ (if bool_decide (e_thread e = Some t) then [e_call e] else []).
Proof.
  unfold thread_log. rewrite filter_app, fmap_app. f_equal.
  case_bool_decide; [by rewrite filter_cons_True|by rewrite filter_cons_False].
Qed.

Lemma step_local_inv s t o key t' r :
  rpc_inv s → calls s t = Idle → to_id c key = Done (node t) →
  exec o key (tables s (node t)) = Done (t', r) →
  rpc_inv (mkCluster (<[node t := t']> (tables s)) (calls s) (requests s) (responses s)
      (lock_table_client s) (<[t := hist s t ++ [(o, key, r)]]> (hist s))
      (log s ++ [mkEntry (Some t) o key r])).
Proof.
  intros [Hp Ht Htab] Hidle Hid Hex. split.
  - intros i j. specialize (Hp i j). unfold pair_ok in *. cbn.
    destruct (lock_table_client s (i, j)) as [t2|]; [|done].
    destruct Hp as [Hn (o2 & k2 & Hw & Hp)]. split; [done|]. exists o2, k2. split; [done|].
    assert (t2 ≠ t) by congruence.
    rewrite thread_log_snoc, bool_decide_eq_false_2, app_nil_r by (cbn; congruence).
    by rewrite fn_lookup_insert_ne by done.
  - intros t2. specialize (Ht t2). unfold thread_ok in *. cbn.
    destruct (calls s t2) eqn:E2; [|done]. rewrite thread_log_snoc, Ht.
    destruct (decide (t2 = t)) as [->|Hne].
    + by rewrite fn_lookup_insert, bool_decide_eq_true_2.
    + rewrite fn_lookup_insert_ne, bool_decide_eq_false_2, app_nil_r; cbn; congruence.
  - intros Hr. cbn in Hr. eapply tables_ok_exec; [|exact Hr|cbn; done..].
    apply Htab. by eapply log_rooms_app.
Qed.

Lemma step_send_inv s t o key j :
  rpc_inv s → calls s t = Idle → to_id c key = Done j → j ≠ node t →
  lock_table_client s (node t, j) = None →
  rpc_inv (mkCluster (tables s) (<[t := Waiting o key j]> (calls s))
      (<[(node t, j) := requests s (node t, j) ++ [make_request o key]]> (requests s)) (responses s)
      (<[(node t, j) := Some t]> (lock_table_client s)) (hist s) (log s)).
Proof.
  intros [Hp Ht Htab] Hidle Hid Hne Hfree. split; [| |done].
  - intros i k. unfold pair_ok. cbn. destruct (decide ((i, k) = (node t, j))) as [[= -> ->]|Hik].
    + rewrite !fn_lookup_insert. split; [done|]. exists o, key.
      split_and!; [done..|]. left. specialize (Hp (node t) j). unfold pair_ok in Hp. rewrite Hfree in Hp.
      destruct Hp as [-> ->]. split_and!; [done..|]. specialize (Ht t). unfold thread_ok in Ht.
      by rewrite Hidle in Ht.
    + rewrite !fn_lookup_insert_ne by done. specialize (Hp i k). unfold pair_ok in Hp.
      destruct (lock_table_client s (i, k)) as [t2|]; [|done].
      destruct Hp as [Hn (o2 & k2 & Hw & Hp)]. split; [done|]. exists o2, k2.
      rewrite fn_lookup_insert_ne by congruence. done.
  - intros t2. unfold thread_ok. cbn. destruct (decide (t2 = t)) as [->|Ht2].
    + by rewrite !fn_lookup_insert.
    + rewrite fn_lookup_insert_ne by done. specialize (Ht t2). unfold thread_ok in Ht.
      destruct (calls s t2) as [|o2 k2 j2]; [done|]. destruct Ht as [Hl Hj2]. split; [|done].
      rewrite fn_lookup_insert_ne; [done|]. congruence.
Qed.

Lemma handle_request_inv junk o key t t' m' owner :
  handle_request exec junk (make_request o key) t = Done (t', m') →
  ∃ r, exec o key t = Done (t', r) ∧ read_response o m' = Done r ∧
    served owner (make_request o key) m' = [mkEntry owner o key r].
Proof.
  unfold handle_request. destruct o; cbn; intros E; apply bind_done_inv in E as ([t2 r] & E1 & E);
    apply done_pair in E as [-> <-]; exists r; by destruct r.
Qed.

Lemma step_serve_inv s i j m ms junk t' m' :
  rpc_inv s → i ≠ j → requests s (i, j) = m :: ms →
  handle_request exec junk m (tables s j) = Done (t', m') →
  rpc_inv (mkCluster (<[j := t']> (tables s)) (calls s)
      (<[(i, j) := ms]> (requests s)) (<[(i, j) := responses s (i, j) ++ [m']]> (responses s))
      (lock_table_client s) (hist s) (log s ++ served (lock_table_client s (i, j)) m m')).
Proof.
  intros [Hp Ht Htab] Hij Hreq Hh. pose proof (Hp i j) as Hpij. unfold pair_ok in Hpij.
  destruct (lock_table_client s (i, j)) as [t|] eqn:Hlock; [|by destruct Hpij; congruence].
  destruct Hpij as [Hn (o & key & Hw & Hid & [(Hq & Hresp & Hlog)|[Hq _]])]; [|congruence].
  rewrite Hreq in Hq. injection Hq as -> ->.
  destruct (handle_request_inv _ _ _ _ _ _ (Some t) Hh) as (r & Hex & Hread & ->). split.
  - intros i2 j2. unfold pair_ok. cbn. destruct (decide ((i2, j2) = (i, j))) as [[= -> ->]|Hne].
    + rewrite !fn_lookup_insert, Hlock. split; [done|]. exists o, key. split_and!; [done..|]. right.
      split; [done|]. exists m', r. rewrite Hresp, thread_log_snoc, bool_decide_eq_true_2 by done.
      by rewrite Hlog.
    + rewrite !fn_lookup_insert_ne by done. specialize (Hp i2 j2). unfold pair_ok in Hp.
      destruct (lock_table_client s (i2, j2)) as [t2|]; [|done].
      destruct Hp as [Hn2 (o2 & k2 & Hw2 & Hp)]. split; [done|]. exists o2, k2. split; [done|].
      by rewrite thread_log_snoc, bool_decide_eq_false_2, app_nil_r by (cbn; congruence).
  - intros t2. specialize (Ht t2). unfold thread_ok in *. cbn. destruct (calls s t2) eqn:E2; [|done].
    by rewrite thread_log_snoc, bool_decide_eq_false_2, app_nil_r by (cbn; congruence).
  - intros Hr. cbn in Hr. eapply tables_ok_exec; [|exact Hr|cbn; done..].
    apply Htab. by eapply log_rooms_app.
Qed.

Lemma step_receive_inv s t o key j m ms r :
  rpc_inv s → calls s t = Waiting o key j → responses s (node t, j) = m :: ms →
  read_response o m = Done r →
  rpc_inv (mkCluster (tables s) (<[t := Idle]> (calls s)) (requests s)
      (<[(node t, j) := ms]> (responses s)) (<[(node t, j) := None]> (lock_table_client s))
      (<[t := hist s t ++ [(o, key, r)]]> (hist s)) (log s)).
Proof.
  intros [Hp Ht Htab] Hw Hm Hread. pose proof (Ht t) as Htt. unfold thread_ok in Htt.
  rewrite Hw in Htt. destruct Htt as [Hlock Hj].
  pose proof (Hp (node t) j) as Hpt. unfold pair_ok in Hpt. rewrite Hlock, Hm in Hpt.
  destruct Hpt as [_ (o' & key' & Hw' & Hid & [(_ & ? & _)|(Hq & m2 & r2 & Hm2 & Hread2 & Hlog)])]; [done|].
  rewrite Hw in Hw'. injection Hw' as <- <-. injection Hm2 as -> ->.
  assert (r2 = r) as -> by congruence. split; [| |done].
  - intros i k. unfold pair_ok. cbn. destruct (decide ((i, k) = (node t, j))) as [[= -> ->]|Hne].
    + by rewrite !fn_lookup_insert.
    + rewrite !fn_lookup_insert_ne by done. specialize (Hp i k). unfold pair_ok in Hp.
      destruct (lock_table_client s (i, k)) as [t2|]; [|done].
      destruct Hp as [Hn2 (o2 & k2 & Hw2 & Hp)]. assert (t2 ≠ t) by congruence.
      split; [done|]. exists o2, k2. by rewrite !fn_lookup_insert_ne by done.
  - intros t2. unfold thread_ok. cbn. destruct (decide (t2 = t)) as [->|Ht2].
    + by rewrite !fn_lookup_insert.
    + rewrite !fn_lookup_insert_ne by done. specialize (Ht t2). unfold thread_ok in Ht.
      destruct (calls s t2) as [|o2 k2 j2]; [done|]. destruct Ht as [Hl Hj2]. split; [|done].
      rewrite fn_lookup_insert_ne; [done|]. intros [= Hnn ->]. rewrite Hnn in Hlock. congruence.
Qed.

Lemma rpc_step_inv s s' : rpc_inv s → rpc_step s s' → rpc_inv s'.
Proof.
  intros Hinv []; eauto using step_local_inv, step_send_inv, step_serve_inv, step_receive_inv.
Qed.

Lemma rpc_inv_new : abs t0 ∅ → rpc_inv cluster_new.
Proof.
  intros H0. split; [done|done|]. intros _. split; done.
Qed.

(** C9: the partitioned table is linearizable while its nodes' tables have room. In every
    execution of client and server threads in whose log every operation had room at its node
    - for the local table: no root bucket is ever split, where keys are lost
    ([local_rehash_strands]) - the log of table operations is a legal sequential history of one
    finite map, each node's table holds its part of that map, and each thread's completed calls
    are its entries of the log in program order, with at most one more entry, whose answer is
    on its way and will be accepted. A call on a node's table is one step ([Server.v] has the
    server's threads), sends succeed, and servers take requests that are there. *)
Theorem rpc_linearizable s :
  abs t0 ∅ → star rpc_step cluster_new s → log_rooms (log s) →
  map e_result (log s) = spec_ops ∅ (map (λ e, (e_op e, e_key e)) (log s)) ∧
  (∀ j, abs (tables s j) (log_map (on_node j (log s)))) ∧
  ∀ t, match calls s t with
       | Idle => thread_log t (log s) = hist s t
       | Waiting o key j => thread_log t (log s) = hist s t ∨
           ∃ m r, responses s (node t, j) = [m] ∧ read_response o m = Done r ∧
             thread_log t (log s) = hist s t ++ [(o, key, r)]
       end.
Proof.
  intros H0 Hs Hr. assert (rpc_inv s) as [Hp Ht Htab].
  { eapply star_invariant; [apply rpc_step_inv|by apply rpc_inv_new|done]. }
  destruct (Htab Hr) as [Hleg Habs]. split_and!; [done..|]. intros t.
  specialize (Ht t). unfold thread_ok in Ht. destruct (calls s t) as [|o key j] eqn:E; [done|].
  destruct Ht as [Hl _]. specialize (Hp (node t) j). unfold pair_ok in Hp. rewrite Hl in Hp.
  destruct Hp as [_ (o' & key' & Hw & _ & Hp)]. rewrite E in Hw. injection Hw as <- <-.
  destruct Hp as [(_ & _ & ?)|[_ ?]]; auto.
Qed.

Lemma answer_arrives s t o key j m r :
  calls s t = Waiting o key j → responses s (node t, j) = [m] → read_response o m = Done r →
  ∃ s', rpc_step s s' ∧ calls s' t = Idle ∧ hist s' t = hist s t ++ [(o, key, r)].
Proof.
  intros Hw Hm Hr. eexists. split; [by eapply step_receive|]. cbn. by rewrite !fn_lookup_insert.
Qed.

(** C31: a waiting call can complete, from every reachable state in whose log every operation had
    room at its node and in which the waiting call has room, too: the server's next round and
    the client's receive finish it. *)
Theorem rpc_call_returns s t o key j :
  abs t0 ∅ → star rpc_step cluster_new s → log_rooms (log s) →
  calls s t = Waiting o key j → room o key (log_map (on_node j (log s))) →
  ∃ s' r, star rpc_step s s' ∧ calls s' t = Idle ∧ hist s' t = hist s t ++ [(o, key, r)].
Proof.
  intros H0 Hs Hrs Hw Hroom. assert (rpc_inv s) as [Hp Ht Htab].
  { eapply star_invariant; [apply rpc_step_inv|by apply rpc_inv_new|done]. }
  destruct (Htab Hrs) as [_ Habs].
  specialize (Ht t). unfold thread_ok in Ht. rewrite Hw in Ht. destruct Ht as [Hl Hne].
  specialize (Hp (node t) j). unfold pair_ok in Hp. rewrite Hl in Hp.
  destruct Hp as [_ (o' & key' & Hw' & Hid & Hp)]. rewrite Hw in Hw'. injection Hw' as <- <-.
  destruct Hp as [(Hq & Hm & _)|(_ & m & r & Hm & Hr & _)].
  - destruct (exec_spec _ _ _ _ (Habs j) Hroom) as (t' & Hex & _).
    destruct (request_roundtrip exec 0 _ _ _ _ _ Hex) as (m & Hh & Hr).
    pose proof (step_serve s (node t) j _ _ 0 t' m ltac:(congruence) Hq Hh) as Hstep.
    match type of Hstep with rpc_step _ ?s1 =>
      destruct (answer_arrives s1 t o key j m (spec_op o key (log_map (on_node j (log s)))).2)
        as (s' & Hs' & Hi & Hh') end; [done|by cbn; rewrite fn_lookup_insert, Hm|done|].
    exists s'. eexists. split; [|by split; [|exact Hh']]. eauto with rome.
  - destruct (answer_arrives _ _ _ _ _ _ _ Hw Hm Hr) as (s' & Hs' & Hi & Hh').
    exists s', r. eauto with rome.
Qed.
End cluster.

(** ** Two nodes over the local table *)
Definition two_nodes : conf := mkConf 2 0 100.
Abbreviation small_exec := (local_exec (λ x : Z, u64 x) 8 64 1).
Abbreviation small_room := (local_room (V:=Z) (λ x : Z, u64 x) 8 64).
Abbreviation small_abs := (local_abs (V:=Z) (λ x : Z, u64 x) 64).

#[export] Instance small_laws : TableLaws small_exec small_abs small_room.
Proof. apply iht_carumap_laws. lia. Qed.

(** Thread [t] runs on node [t]; thread 0 inserts a key of node 1, thread 1 reads it. *)
Lemma two_nodes_run :
  ∃ s, star (rpc_step small_exec two_nodes Z.of_nat) (cluster_new (iht_carumap_new 64)) s ∧
    log s = [mkEntry (Some 0%nat) (Insert 900) 90 None; mkEntry (Some 1%nat) Contains 90 (Some 900)] ∧
    calls s 0%nat = Waiting (Insert 900) 90 1.
Proof.
  eexists. split.
  - eapply star_step; [apply (step_send _ _ _ _ 0%nat (Insert 900) 90 1); done|].
    eapply star_step; [eapply (step_serve _ _ _ _ 0 1 (make_request (Insert 900) 90) [] 0); reflexivity || done|].
    eapply star_step; [apply (step_local _ _ _ _ 1%nat Contains 90) with (r := Some 900); reflexivity|].
    apply star_refl.
  - by split.
Qed.

Lemma two_nodes_rooms :
  log_rooms small_room two_nodes
    [mkEntry (Some 0%nat) (Insert 900) 90 None; mkEntry (Some 1%nat) Contains 90 (Some 900)].
Proof.
  intros pre e post j E _. destruct pre as [|e1 [|e2 pre]]; cbn in E.
  - injection E as <- <-. intros _. vm_compute. lia.
  - injection E as <- <- <-. exact I.
  - injection E as _ _ E. by destruct pre.
Qed.

Lemma rpc_linearizable_witness :
  ∃ s, star (rpc_step small_exec two_nodes Z.of_nat) (cluster_new (iht_carumap_new 64)) s ∧
    map e_result (log s) = [None; Some 900] ∧
    thread_log 1%nat (log s) = [(Contains, 90, Some 900)].
Proof.
  destruct two_nodes_run as (s & Hs & Hl & _).
  pose proof (rpc_linearizable small_exec small_abs small_room two_nodes Z.of_nat
    (iht_carumap_new 64) s (local_abs_new _ _) Hs) as H. rewrite Hl in H.
  destruct (H two_nodes_rooms) as (Hres & _ & _). exists s. rewrite Hl.
  split_and!; [done|by rewrite Hres|reflexivity].
Defined.

Lemma rpc_call_returns_witness :
  ∃ s s' r, calls s 0%nat = Waiting (Insert 900) 90 1 ∧
    star (rpc_step small_exec two_nodes Z.of_nat) s s' ∧ calls s' 0%nat = Idle ∧
    hist s' 0%nat = hist s 0%nat ++ [(Insert 900, 90, r)].
Proof.
  destruct two_nodes_run as (s & Hs & Hl & Hw). exists s.
  pose proof (rpc_call_returns small_exec small_abs small_room two_nodes Z.of_nat
    (iht_carumap_new 64) s 0 (Insert 900) 90 1 (local_abs_new _ _) Hs) as H. rewrite Hl in H.
  destruct (H two_nodes_rooms Hw) as (s' & r & Hrest).
  - intros Hn. vm_compute. vm_compute in Hn. done.
  - exists s', r. by split.
Defined.
