(* ===== verification/Server.v ===== *)
(** * The server threads of [TwoSidedIHT] and its destructor (iht/rpc.h)

    [Rpc.v] takes the work on one request as one step. Here the threads of the pool are
    programs: they look at the stop flag, sweep over the other nodes, take the mutex of a node,
    poll its connection, call the table, send and release. The destructor runs beside them.
    A poll of an empty queue is undefined ([TryPollMessage], see [Messenger.v]) and a failed
    [Send] ends the process; the theorems are about executions in which neither has happened.
    The table is any object whose calls take effect at one moment between their invocation
    and their return, as those of [iht_carumap] do ([local_linearizable] in [LocalConc.v]);
    the effect may depend on a choice the caller does not see. *)
From stdpp Require Import functions.
From S2P Require Import Prelude IhtRdma IhtSpec IhtLocal LocalConc Rpc.

Definition MAX_THREAD_POOL : nat := 8.

(** Where a server thread is. [Found]: it has a request, or is in the table's code and the
    call has not taken effect; [Called]: the call has taken effect and has not returned;
    [Reply]: it has the response; [Undefined]: it has polled an empty queue and what it does
    from there on the language does not say; [Aborted]: the assertion on the status of [Send]
    has ended the process. *)
Inductive worker :=
| AtFlag | Sweep (id : nat) | Try (id : nat) | Found (id : nat) (m : IHTOPProto) | Called (id : nat) (m : IHTOPProto)
| Reply (id : nat) (m : IHTOPProto) | Exited | Undefined (id : nat) | Aborted.

(** Where the destructor is; [Running] before it is called. *)
Inductive shutdown := Running | Stopping | Joining (i : nat) | Destroyed.

(** The connections are the queues of requests not yet received and of responses sent, by
    the other node. [internal_data_] is [None] once deleted. *)
Record server {T : Type} := mkServer {
  internal_data_ : option T; stop_listening : bool; lock_table_server : nat → option nat;
  inbox : nat → list IHTOPProto; outbox : nat → list IHTOPProto;
  workers : list worker; destructor : shutdown }.
Arguments server : clear implicits.
Arguments mkServer {T}.

Definition holds (w : worker) : option nat :=
  match w with Try id | Found id _ | Called id _ | Reply id _ | Undefined id => Some id | _ => None end.
Definition broken (w : worker) : bool :=
  match w with Undefined _ | Aborted => true | _ => false end.

Section pool.
Context {C T : Type} (exec : C → @op Z → Z → T → result (T * option Z)) (node_count myid : nat).
Implicit Types s : server T.

(** The constructor starts [min(MAX_THREAD_POOL, count)] threads. *)
Definition server_new (t0 : T) : server T :=
  mkServer (Some t0) false (λ _, None) (λ _, []) (λ _, []) (replicate (MAX_THREAD_POOL `min` node_count) AtFlag) Running.

(** The thread [k] goes on as [w]. *)
Definition goto (k : nat) (w : worker) s : server T :=
  mkServer (internal_data_ s) (stop_listening s) (lock_table_server s) (inbox s) (outbox s) (<[k := w]> (workers s)) (destructor s).
Definition set_owner (id : nat) (o : option nat) s : server T :=
  mkServer (internal_data_ s) (stop_listening s) (<[id := o]> (lock_table_server s)) (inbox s) (outbox s) (workers s) (destructor s).
Definition set_inbox (id : nat) (ms : list IHTOPProto) s : server T :=
  mkServer (internal_data_ s) (stop_listening s) (lock_table_server s) (<[id := ms]> (inbox s)) (outbox s) (workers s) (destructor s).
Definition set_outbox (id : nat) (ms : list IHTOPProto) s : server T :=
  mkServer (internal_data_ s) (stop_listening s) (lock_table_server s) (inbox s) (<[id := ms]> (outbox s)) (workers s) (destructor s).
Definition set_data (d : option T) s : server T :=
  mkServer d (stop_listening s) (lock_table_server s) (inbox s) (outbox s) (workers s) (destructor s).
Definition set_shutdown (b : bool) (d : shutdown) s : server T :=
  mkServer (internal_data_ s) b (lock_table_server s) (inbox s) (outbox s) (workers s) d.

(** The body of a server thread. *)
Inductive worker_step s (k : nat) : server T → Prop :=
| w_stop : workers s !! k = Some AtFlag → stop_listening s = true → worker_step s k (goto k Exited s)
| w_round : workers s !! k = Some AtFlag → stop_listening s = false → worker_step s k (goto k (Sweep 0) s)
| w_end id : workers s !! k = Some (Sweep id) → (node_count ≤ id)%nat → worker_step s k (goto k AtFlag s)
| w_skip : workers s !! k = Some (Sweep myid) → (myid < node_count)%nat → worker_step s k (goto k (Sweep (S myid)) s)
| w_lock id : workers s !! k = Some (Sweep id) → (id < node_count)%nat → id ≠ myid →
    lock_table_server s id = None → worker_step s k (goto k (Try id) (set_owner id (Some k) s))
| w_error id : workers s !! k = Some (Try id) →          (* the poll or the completion has failed *)
    worker_step s k (goto k (Sweep (S id)) (set_owner id None s))
| w_empty id : workers s !! k = Some (Try id) → inbox s id = [] →
    worker_step s k (goto k (Undefined id) s)
| w_receive id m ms : workers s !! k = Some (Try id) → inbox s id = m :: ms →
    worker_step s k (goto k (Found id m) (set_inbox id ms s))
| w_handle id m t ch junk t' m' : workers s !! k = Some (Found id m) → internal_data_ s = Some t →
    handle_request (exec ch) junk m t = Done (t', m') → worker_step s k (goto k (Called id m') (set_data (Some t') s))
| w_return id m' : workers s !! k = Some (Called id m') → worker_step s k (goto k (Reply id m') s)
| w_send id m' : workers s !! k = Some (Reply id m') →
    worker_step s k (goto k (Sweep (S id)) (set_owner id None (set_outbox id (outbox s id ++ [m']) s)))
| w_send_fails id m' : workers s !! k = Some (Reply id m') →
    worker_step s k (goto k Aborted (set_owner id None s)).

(** Nothing undefined has happened and no assertion has failed. *)
Definition defined s : Prop := Forall (λ w, broken w = false) (workers s).

(** [~TwoSidedIHT]: sets the flag, deletes the table, then joins the threads. *)
Inductive destructor_step s : server T → Prop :=
| d_stop : destructor s = Running → destructor_step s (set_shutdown true Stopping s)
| d_delete : destructor s = Stopping → destructor_step s (set_shutdown (stop_listening s) (Joining 0) (set_data None s))
| d_join i : destructor s = Joining i → workers s !! i = Some Exited →
    destructor_step s (set_shutdown (stop_listening s) (Joining (S i)) s)
| d_return : destructor s = Joining (length (workers s)) →
    destructor_step s (set_shutdown (stop_listening s) Destroyed s).

(** The steps of the program, and with them those of the other nodes and the calls that
    this node's own clients make on the table directly. *)
Inductive thread_step s s' : Prop :=
| by_worker k : worker_step s k s' → thread_step s s'
| by_destructor : destructor_step s s' → thread_step s s'.
Inductive pool_step s : server T → Prop :=
| by_thread s' : thread_step s s' → pool_step s s'
| arrives id m : id ≠ myid → pool_step s (set_inbox id (inbox s id ++ [m]) s)
| own_call ch o key t t' r : internal_data_ s = Some t → exec ch o key t = Done (t', r) →
    pool_step s (set_data (Some t') s).

(** ** The mutexes *)
(** A mutex is owned by exactly the thread that works for its node. *)
Record pool_ok s : Prop := {
  po_lock id k : lock_table_server s id = Some k ↔ ∃ w, workers s !! k = Some w ∧ holds w = Some id;
  po_range k w id : workers s !! k = Some w → holds w = Some id → (id < node_count)%nat ∧ id ≠ myid }.

Lemma pool_ok_ext s s' : workers s' = workers s → lock_table_server s' = lock_table_server s → pool_ok s → pool_ok s'.
Proof. intros Hw Hl [H1 H2]. split; intros *; rewrite ?Hw, ?Hl; eauto. Qed.

Lemma holds_goto s k w' k' id : (k < length (workers s))%nat →
  (∃ w, workers (goto k w' s) !! k' = Some w ∧ holds w = Some id) ↔
  (if decide (k = k') then holds w' = Some id else ∃ w, workers s !! k' = Some w ∧ holds w = Some id).
Proof.
  intros Hk. cbn. case_decide as E; [subst k'|by rewrite list_lookup_insert_ne].
  rewrite list_lookup_insert_eq by done. split; [intros (w & [= <-] & Hh); done|eauto].
Qed.

Lemma pool_ok_range s k w' : pool_ok s → (∀ id, holds w' = Some id → (id < node_count)%nat ∧ id ≠ myid) →
  ∀ k' w id, workers (goto k w' s) !! k' = Some w → holds w = Some id → (id < node_count)%nat ∧ id ≠ myid.
Proof.
  intros [_ Hr] Hw k' w id Hk Hh. cbn in Hk. apply list_lookup_insert_Some in Hk as [(_ & <- & _)|[_ Hk]]; eauto.
Qed.

Lemma pool_ok_goto s k w w' : workers s !! k = Some w → holds w' = holds w → pool_ok s → pool_ok (goto k w' s).
Proof.
  intros Hk Hh Hok. pose proof (lookup_lt_Some _ _ _ Hk) as Hlt. split.
  - intros id k'. rewrite holds_goto by done. cbn. rewrite (po_lock s Hok). case_decide as E; [subst k'|done].
    rewrite Hh. split; [intros (? & ? & ?); congruence|eauto].
  - apply (pool_ok_range s); [done|]. intros id Hid. rewrite Hh in Hid. by eapply po_range.
Qed.

Lemma pool_ok_acquire s k w w' id : workers s !! k = Some w → holds w = None → holds w' = Some id →
  lock_table_server s id = None → (id < node_count)%nat → id ≠ myid → pool_ok s →
  pool_ok (goto k w' (set_owner id (Some k) s)).
Proof.
  intros Hk Hh Hh' Hfree Hlt Hme Hok. pose proof (lookup_lt_Some _ _ _ Hk) as Hl. split.
  - intros i k'. rewrite holds_goto by done. cbn. destruct (decide (id = i)) as [<-|Hne].
    + rewrite fn_lookup_insert. case_decide; [by subst|]. split; [congruence|].
      intros Hw. apply (po_lock s Hok) in Hw. congruence.
    + rewrite fn_lookup_insert_ne, (po_lock s Hok) by done. case_decide; [subst k'|done].
      split; [intros (? & ? & ?); congruence|congruence].
  - intros k' w0 i Hw Hi. apply (pool_ok_range s k w' Hok) with (k' := k') (w := w0); [|done|done].
    intros i'. rewrite Hh'. by intros [= <-].
Qed.

Lemma pool_ok_release s k w w' id : workers s !! k = Some w → holds w = Some id → holds w' = None → pool_ok s →
  pool_ok (goto k w' (set_owner id None s)).
Proof.
  intros Hk Hh Hh' Hok. pose proof (lookup_lt_Some _ _ _ Hk) as Hl.
  assert (lock_table_server s id = Some k) as Hown by (apply (po_lock s Hok); eauto). split.
  - intros i k'. rewrite holds_goto by done. cbn. destruct (decide (id = i)) as [<-|Hne].
    + rewrite fn_lookup_insert. case_decide; [split; congruence|]. split; [done|].
      intros Hw. apply (po_lock s Hok) in Hw. congruence.
    + rewrite fn_lookup_insert_ne, (po_lock s Hok) by done. case_decide; [subst k'|done].
      split; [intros (? & ? & ?); congruence|congruence].
  - intros k' w0 i Hw Hi. apply (pool_ok_range s k w' Hok) with (k' := k') (w := w0); [|done|done].
    intros i'. by rewrite Hh'.
Qed.

Lemma pool_ok_worker s k s' : pool_ok s → worker_step s k s' → pool_ok s'.
Proof.
  intros Hok Hs. destruct Hs; try (by eapply pool_ok_goto).
  - by eapply pool_ok_acquire.
  - by eapply pool_ok_release.
  - eapply (pool_ok_goto (set_inbox id ms s)); [done..|by apply (pool_ok_ext s)].
  - eapply (pool_ok_goto (set_data (Some t') s)); [done..|by apply (pool_ok_ext s)].
  - eapply (pool_ok_release (set_outbox id (outbox s id ++ [m']) s)); [done..|by apply (pool_ok_ext s)].
  - by eapply pool_ok_release.
Qed.

Lemma pool_ok_thread s s' : pool_ok s → thread_step s s' → pool_ok s'.
Proof. intros Hok [k Hs|Hs]; [by eapply pool_ok_worker|]. destruct Hs; by apply (pool_ok_ext s). Qed.

Lemma pool_ok_step s s' : pool_ok s → pool_step s s' → pool_ok s'.
Proof. intros Hok [s'' Hs|id m Hid|ch o key t t' r Hd He]; [by eapply pool_ok_thread|by apply (pool_ok_ext s)..]. Qed.

Lemma pool_ok_new t0 : pool_ok (server_new t0).
Proof.
  split.
  - intros id k. cbn. split; [done|]. intros (w & Hw & Hh). apply lookup_replicate in Hw as [-> _]. done.
  - intros k w id Hw Hh. cbn in Hw. apply lookup_replicate in Hw as [-> _]. done.
Qed.

(** A broken thread makes no step: once something is undefined it stays so. *)
Lemma defined_goto s k w w' : workers s !! k = Some w → broken w = false → defined (goto k w' s) → defined s.
Proof.
  unfold defined. cbn. rewrite !Forall_lookup. intros Hk Hw H i x Hi. destruct (decide (k = i)) as [<-|Hne].
  - congruence.
  - apply (H i). by rewrite list_lookup_insert_ne.
Qed.

Lemma defined_back s s' : pool_step s s' → defined s' → defined s.
Proof.
  intros [s'' [k Hs|Hs]|id m Hid|ch o key t t' r Hd He]; [|by destruct Hs|done..].
  destruct Hs; intros Hdef; eapply defined_goto in Hdef; (eassumption || done).
Qed.

Lemma defined_now s k w : (k < length (workers s))%nat → defined (goto k w s) → broken w = false.
Proof. intros Hk H. unfold defined in H. rewrite Forall_lookup in H. apply (H k), list_lookup_insert_eq, Hk. Qed.

(** ** One request at a time *)
(** What a request amounts to for the table and the two queues; a request's arrival; a call
    of the node's own. *)
Inductive serve_step : T * (nat → list IHTOPProto) * (nat → list IHTOPProto) →
    T * (nat → list IHTOPProto) * (nat → list IHTOPProto) → Prop :=
| serve_request t q r id m ms ch junk t' m' : (id < node_count)%nat → id ≠ myid → q id = m :: ms →
    handle_request (exec ch) junk m t = Done (t', m') →
    serve_step (t, q, r) (t', <[id := ms]> q, <[id := r id ++ [m']]> r)
| serve_arrival t q r id m : id ≠ myid → serve_step (t, q, r) (t, <[id := q id ++ [m]]> q, r)
| serve_own t q r ch o key t' x : exec ch o key t = Done (t', x) → serve_step (t, q, r) (t', q, r).

(** The requests from [id] received but not yet handled and the responses not yet sent. *)
Definition in_work s (id : nat) : list IHTOPProto * list IHTOPProto :=
  match lock_table_server s id ≫= (workers s !!.) with
  | Some (Found _ m) => ([m], [])
  | Some (Called _ m) | Some (Reply _ m) => ([], [m])
  | _ => ([], [])
  end.

Lemma in_work_of s k w id : pool_ok s → workers s !! k = Some w → holds w = Some id →
  in_work s id = match w with Found _ m => ([m], []) | Called _ m | Reply _ m => ([], [m]) | _ => ([], []) end.
Proof.
  intros Hok Hk Hh. unfold in_work. assert (lock_table_server s id = Some k) as -> by (apply (po_lock s Hok); eauto).
  cbn. rewrite Hk. by destruct w.
Qed.

Lemma in_work_free s id : lock_table_server s id = None → in_work s id = ([], []).
Proof. unfold in_work. by intros ->. Qed.

Lemma in_work_other s s' k id : lock_table_server s' id = lock_table_server s id → lock_table_server s id ≠ Some k →
  (∀ k', k' ≠ k → workers s' !! k' = workers s !! k') → in_work s' id = in_work s id.
Proof.
  intros Hl Hne Hw. unfold in_work. rewrite Hl. destruct (lock_table_server s id) as [k'|] eqn:E; [|done]. cbn.
  rewrite Hw by congruence. done.
Qed.

Definition simulates s (a : T * (nat → list IHTOPProto) * (nat → list IHTOPProto)) : Prop :=
  (∀ t, internal_data_ s = Some t → t = a.1.1) ∧
  ∀ id, a.1.2 id = (in_work s id).1 ++ inbox s id ∧ a.2 id = outbox s id ++ (in_work s id).2.

(** A step of a thread that works for nobody, before and after. *)
Lemma simulates_idle s k w w' a : pool_ok s → workers s !! k = Some w → holds w = None → holds w' = None →
  simulates s a → simulates (goto k w' s) a.
Proof.
  intros Hok Hk Hh Hh' [Ht Ha]. split; [done|]. intros id.
  rewrite (in_work_other s _ k); [apply Ha|done| |intros; by apply list_lookup_insert_ne].
  intros E. apply (po_lock s Hok) in E as (? & ? & ?). congruence.
Qed.

(** A step of the thread [k] that works for [id] before or after: the rest stands still. *)
Lemma simulates_at s s' k id a a' : pool_ok s → (∃ w, workers s !! k = Some w ∧ (holds w = Some id ∨ holds w = None)) →
  (∀ i, i ≠ id → lock_table_server s' i = lock_table_server s i ∧ inbox s' i = inbox s i ∧ outbox s' i = outbox s i ∧
    a'.1.2 i = a.1.2 i ∧ a'.2 i = a.2 i) →
  (∀ k', k' ≠ k → workers s' !! k' = workers s !! k') →
  (∀ t, internal_data_ s' = Some t → t = a'.1.1) →
  a'.1.2 id = (in_work s' id).1 ++ inbox s' id → a'.2 id = outbox s' id ++ (in_work s' id).2 →
  simulates s a → simulates s' a'.
Proof.
  intros Hok (w & Hk & Hh) Hother Hw Ht Hq Hr [_ Ha]. split; [done|]. intros i.
  destruct (decide (i = id)) as [->|Hne]; [done|]. destruct (Hother i Hne) as (Hl & -> & -> & -> & ->).
  rewrite (in_work_other s _ k); [apply Ha|done| |done].
  intros E. apply (po_lock s Hok) in E as (w0 & Hw0 & Hh0). destruct Hh; congruence.
Qed.

Lemma now_at s k w : (k < length (workers s))%nat → workers (goto k w s) !! k = Some w.
Proof. intros Hk. by apply list_lookup_insert_eq. Qed.

(** The thread [k] receives and calls the table; and lets go of the mutex of [id], [r] being
    the responses sent. *)
Lemma simulates_keep s s' k w w' id a a' : pool_ok s → pool_ok s' → workers s !! k = Some w →
  (holds w = Some id ∨ holds w = None) → workers s' = <[k := w']> (workers s) → holds w' = Some id →
  (∀ i, i ≠ id → lock_table_server s' i = lock_table_server s i ∧ inbox s' i = inbox s i ∧ outbox s' i = outbox s i ∧
    a'.1.2 i = a.1.2 i ∧ a'.2 i = a.2 i) →
  (∀ t, internal_data_ s' = Some t → t = a'.1.1) →
  a'.1.2 id = match w' with Found _ m => [m] | _ => [] end ++ inbox s' id →
  a'.2 id = outbox s' id ++ match w' with Called _ m | Reply _ m => [m] | _ => [] end →
  simulates s a → simulates s' a'.
Proof.
  intros Hok Hok' Hk Hh Hw Hh' Ho Ht Hq Hr Ha. pose proof (lookup_lt_Some _ _ _ Hk) as Hl.
  assert (in_work s' id = match w' with Found _ m => ([m], []) | Called _ m | Reply _ m => ([], [m]) | _ => ([], []) end) as E.
  { apply (in_work_of s' k); [done| |done]. rewrite Hw. by apply list_lookup_insert_eq. }
  apply (simulates_at s s' k id a); rewrite ?E; try done; [by eauto| | |].
  - intros i Hi. rewrite Hw. by apply list_lookup_insert_ne.
  - rewrite Hq. by destruct w'.
  - rewrite Hr. by destruct w'.
Qed.

Lemma simulates_release s s' k w w' id a : pool_ok s → workers s !! k = Some w → holds w = Some id →
  workers s' = <[k := w']> (workers s) → lock_table_server s' = <[id := None]> (lock_table_server s) →
  (∀ i, inbox s' i = inbox s i ∧ (i ≠ id → outbox s' i = outbox s i)) → internal_data_ s' = internal_data_ s →
  (in_work s id).1 = [] → outbox s' id = outbox s id ++ (in_work s id).2 →
  simulates s a → simulates s' a.
Proof.
  intros Hok Hk Hh Hw Hl Ho Hd Hq Hr Ha. pose proof Ha as [Ht Hqr]. destruct (Hqr id) as [Hq0 Hr0].
  assert (in_work s' id = ([], [])) as E by (apply in_work_free; rewrite Hl; apply fn_lookup_insert).
  apply (simulates_at s s' k id a); rewrite ?E, ?Hd; try done; [by eauto| | | |].
  - intros i Hi. rewrite Hl, fn_lookup_insert_ne by done. destruct (Ho i) as [? Ho']. auto.
  - intros i Hi. rewrite Hw. by apply list_lookup_insert_ne.
  - rewrite Hq0, Hq. cbn. symmetry. apply Ho.
  - by rewrite Hr0, Hr, app_nil_r.
Qed.

(** Only the effect of the call is a step of the specification. *)
Lemma worker_simulated s k s' a : pool_ok s → worker_step s k s' → defined s' → simulates s a →
  ∃ a', star serve_step a a' ∧ simulates s' a'.
Proof.
  intros Hok Hs Hdef Ha. pose proof (pool_ok_worker _ _ _ Hok Hs) as Hok'. pose proof Ha as [Ht Hqr].
  destruct Hs as [Hk _|Hk _|id Hk _|Hk _|id Hk Hlt Hne Hfree|id Hk|id Hk _|id m ms Hk Hi|id m t ch junk t' m' Hk Hd Hh
    |id m' Hk|id m' Hk|id m' Hk];
    try by (exists a; split; [apply star_refl|by eapply simulates_idle]).
  all: pose proof (lookup_lt_Some _ _ _ Hk) as Hl; try by apply defined_now in Hdef.
  all: destruct (Hqr id) as [Hq Hr]; try rewrite (in_work_of s k _ id Hok Hk eq_refl) in Hq, Hr.
  - rewrite (in_work_free s id Hfree) in Hq, Hr. exists a. split; [apply star_refl|].
    eapply (simulates_keep s _ k _ (Try id) id); eauto. intros i Hi. cbn. by rewrite fn_lookup_insert_ne.
  - exists a. split; [apply star_refl|]. eapply (simulates_release s _ k); eauto; rewrite (in_work_of s k _ id Hok Hk eq_refl); [done|].
    by rewrite app_nil_r.
  - exists a. split; [apply star_refl|]. eapply (simulates_keep s _ k _ (Found id m) id); eauto; cbn.
    + intros i Hne. by rewrite fn_lookup_insert_ne.
    + by rewrite fn_lookup_insert, Hq, Hi.
  - destruct a as [[t0 q] r]. cbn in *. rewrite app_nil_r in Hr. specialize (Ht _ Hd). subst t0.
    destruct (po_range s Hok k _ id Hk eq_refl) as [Hlt Hne].
    eexists. split; [apply star_one, (serve_request t q r id m _ ch junk t' m' Hlt Hne Hq Hh)|].
    eapply (simulates_keep s _ k _ (Called id m') id (t, q, r)); eauto; cbn; rewrite ?fn_lookup_insert, ?Hr; try done.
    + intros i Hi. by rewrite !fn_lookup_insert_ne.
    + by intros ? [= <-].
  - exists a. split; [apply star_refl|]. eapply (simulates_keep s _ k _ (Reply id m') id); eauto.
  - exists a. split; [apply star_refl|]. eapply (simulates_release s _ k); eauto; cbn.
    + intros i. split; [done|]. intros Hi. by rewrite fn_lookup_insert_ne.
    + by rewrite (in_work_of s k _ id Hok Hk eq_refl).
    + by rewrite fn_lookup_insert, (in_work_of s k _ id Hok Hk eq_refl).
Qed.

Lemma pool_simulated s s' a : pool_ok s → pool_step s s' → defined s' → simulates s a → ∃ a', star serve_step a a' ∧ simulates s' a'.
Proof.
  intros Hok Hs Hdef Ha. destruct Hs as [s' [k Hs|Hs]|id m Hid|ch o key t0 t' x Hd He].
  - by eapply worker_simulated.
  - exists a. split; [apply star_refl|]. destruct Ha as [Ht Ha]. destruct Hs; split; (done || exact Ha).
  - destruct Ha as [Ht Ha], a as [[t q] r]. eexists. split; [apply star_one, (serve_arrival t q r id m Hid)|].
    split; [done|]. intros i. destruct (Ha i) as [Hq Hr]. cbn in *. split; [|done].
    destruct (decide (id = i)) as [<-|Hne]; [|by rewrite !fn_lookup_insert_ne].
    by rewrite !fn_lookup_insert, Hq, app_assoc.
  - destruct Ha as [Ht Ha], a as [[t q] r]. rewrite (Ht _ Hd) in He. cbn in He.
    eexists. split; [apply star_one, (serve_own t q r ch o key t' x He)|]. split; [by intros ? [= <-]|exact Ha].
Qed.

Lemma pool_refines t0 s : star pool_step (server_new t0) s →
  pool_ok s ∧ (defined s → ∃ a, star serve_step (t0, λ _, [], λ _, []) a ∧ simulates s a).
Proof.
  apply (star_invariant pool_step (λ s, pool_ok s ∧ (defined s → ∃ a, star serve_step (t0, λ _, [], λ _, []) a ∧ simulates s a))).
  - intros x y (Hok & Hsim) Hxy. split; [by eapply pool_ok_step|]. intros Hdef.
    destruct (Hsim (defined_back _ _ Hxy Hdef)) as (a & Hst & Ha).
    destruct (pool_simulated _ _ _ Hok Hxy Hdef Ha) as (a' & Hst' & Ha'). exists a'. split; [by eapply star_trans|done].
  - split; [apply pool_ok_new|]. intros _. eexists. split; [apply star_refl|]. split; [by intros ? [= <-]|done].
Qed.

(** C10: the pool of server threads serves the requests of each node one at a time and in
    order. However the threads, the destructor, the arriving requests and the calls of the node's
    own clients are interleaved, as long as no thread has polled an empty queue and no [Send] has
    failed there is a run of the specification - take the first request of a node, make its call,
    send the response, as [step_serve] of [Rpc.v] does - with the same table as long as it
    exists; for each node its waiting requests are those being worked on and those not received,
    in order, its responses are those sent and then those not yet sent, and at most one is in
    work. *)
Theorem pool_serves_atomically t0 s : star pool_step (server_new t0) s → defined s →
  ∃ t q r, star serve_step (t0, λ _, [], λ _, []) (t, q, r) ∧
    (∀ t', internal_data_ s = Some t' → t' = t) ∧
    ∀ id, q id = (in_work s id).1 ++ inbox s id ∧ r id = outbox s id ++ (in_work s id).2 ∧
      (length (in_work s id).1 + length (in_work s id).2 ≤ 1)%nat.
Proof.
  intros Hs Hdef. destruct (pool_refines t0 s Hs) as (Hok & Hsim). destruct (Hsim Hdef) as ([[t q] r] & Hst & Ht & Hqr).
  exists t, q, r. split; [done|]. split; [done|]. intros id. destruct (Hqr id) as [Hq Hr]. split; [done|]. split; [done|].
  unfold in_work. destruct (lock_table_server s id ≫= _) as [[]|]; cbn; lia.
Qed.

(** ** The destructor *)
(** A thread is about to call the table or is in its code, and the table is deleted. *)
Definition at_table (w : worker) : bool := match w with Found _ _ | Called _ _ => true | _ => false end.
Definition use_after_free s : Prop := internal_data_ s = None ∧ ∃ k w, workers s !! k = Some w ∧ at_table w = true.
(** No request waits or is being worked on. *)
Definition quiet s : Prop := (∀ id, inbox s id = []) ∧ ∀ k w, workers s !! k = Some w → at_table w = false.

Lemma quiet_ext s s' : inbox s' = inbox s → workers s' = workers s → quiet s → quiet s'.
Proof. intros Hi Hw [H1 H2]. split; intros *; rewrite ?Hi, ?Hw; eauto. Qed.

Lemma quiet_goto s k w : quiet s → at_table w = false → quiet (goto k w s).
Proof.
  intros [H1 H2] Hw. split; [done|]. intros k' w' Hk. cbn in Hk.
  apply list_lookup_insert_Some in Hk as [(_ & <- & _)|[_ Hk]]; [done|by eapply H2].
Qed.

Lemma quiet_step s s' : quiet s → thread_step s s' → quiet s'.
Proof.
  intros Hq [k Hs|Hs]; [|destruct Hs; by apply (quiet_ext s)].
  destruct Hs as [| | | | | | |id m ms _ Hi|id m t ch junk t' m' Hk| | |];
    try (apply quiet_goto; [first [done|by apply (quiet_ext s)]|done]).
  - by rewrite (proj1 Hq) in Hi.
  - by apply (proj2 Hq) in Hk.
Qed.

(** The threads the destructor has waited for. *)
Definition joined s : nat :=
  match destructor s with Joining i => i | Destroyed => length (workers s) | _ => 0 end.

Record stop_ok s : Prop := {
  so_flag : stop_listening s = false ↔ destructor s = Running;
  so_joined k : (k < joined s)%nat → workers s !! k = Some Exited;
  so_le : (joined s ≤ length (workers s))%nat;
  so_size : (length (workers s) ≤ MAX_THREAD_POOL)%nat }.

Lemma stop_ok_goto s k w w' : workers s !! k = Some w → w ≠ Exited → stop_ok s → stop_ok (goto k w' s).
Proof.
  intros Hk Hw [Hf Hj Hl Hsz]. assert (joined (goto k w' s) = joined s) as E.
  { unfold joined. cbn. by rewrite length_insert. }
  split; rewrite ?E; cbn; rewrite ?length_insert; try done.
  intros k' Hk'. rewrite list_lookup_insert_ne; [by apply Hj|]. intros <-. specialize (Hj _ Hk'). congruence.
Qed.

Lemma stop_ok_ext s s' : stop_listening s' = stop_listening s → destructor s' = destructor s →
  workers s' = workers s → stop_ok s → stop_ok s'.
Proof.
  intros Hf Hd Hw [H1 H2 H3 H4]. assert (joined s' = joined s) as E by (unfold joined; by rewrite Hd, Hw).
  split; intros *; rewrite ?E, ?Hf, ?Hd, ?Hw; eauto.
Qed.

Lemma stop_ok_step s s' : stop_ok s → pool_step s s' → stop_ok s'.
Proof.
  intros Hok [s1 [k Hs|Hs]|id m Hid|ch o key t t' r Hd He]; [| |by apply (stop_ok_ext s)..].
  - destruct Hs; try (by eapply stop_ok_goto).
    all: eapply stop_ok_goto; [cbn; eassumption|done|by apply (stop_ok_ext s)].
  - destruct Hok as [Hf Hj Hl Hsz]. destruct Hs as [Hd|Hd|i Hd Hw|Hd]; unfold joined in *; rewrite Hd in *;
      split; unfold joined; cbn; try done; try lia.
    + split; [|done]. intros E. by apply Hf in E.
    + split; [|done]. intros E. by apply Hf in E.
    + intros k Hk. destruct (decide (k = i)) as [->|]; [done|apply Hj; lia].
    + apply lookup_lt_Some in Hw. lia.
    + split; [|done]. intros E. by apply Hf in E.
Qed.

Lemma stop_ok_new t0 : stop_ok (server_new t0).
Proof.
  split; unfold joined; cbn -[Nat.min]; rewrite ?length_replicate; (done || lia).
Qed.

(** *** The destructor returns *)
(** What a thread can still do once the flag is set, in steps, and the destructor. *)
Definition work (w : worker) : nat :=
  match w with
  | Exited | Undefined _ | Aborted => 0
  | AtFlag => 1
  | Sweep id => 2 * (node_count - id) + 2
  | Try id | Found id _ | Called id _ | Reply id _ => 2 * (node_count - id) + 1
  end.
Definition left_over s : nat :=
  sum_list_with work (workers s) +
  match destructor s with
  | Running => 0 | Stopping => length (workers s) + 2
  | Joining i => (length (workers s) - i) + 1 | Destroyed => 0 end.

Lemma sum_goto (l : list worker) k w w' : l !! k = Some w →
  (sum_list_with work (<[k := w']> l) + work w = sum_list_with work l + work w')%nat.
Proof.
  revert k. induction l as [|x l IH]; intros [|k] Hk; cbn in *; [done..| |].
  - injection Hk as ->. lia.
  - specialize (IH k Hk). cbn. rewrite <- !Nat.add_assoc. f_equal. exact IH.
Qed.

Lemma left_goto s k w w' : workers s !! k = Some w → (work w' < work w)%nat → (left_over (goto k w' s) < left_over s)%nat.
Proof.
  intros Hk Hlt. unfold left_over. cbn. rewrite length_insert. pose proof (sum_goto (workers s) k w w' Hk). lia.
Qed.

Lemma left_step s s' : pool_ok s → stop_ok s → quiet s → stop_listening s = true → thread_step s s' →
  (left_over s' < left_over s)%nat.
Proof.
  intros Hok Hst Hq Hf [k Hs|Hs].
  - destruct Hs as [Hk _|Hk Hf'|id Hk Hge|Hk Hlt|id Hk Hlt Hne Hfree|id Hk|id Hk Hi|id m ms Hk Hi|id m t ch junk t' m' Hk Hd Hh
      |id m' Hk|id m' Hk|id m' Hk].
    + eapply left_goto; [done|cbn; lia].
    + congruence.
    + eapply left_goto; [done|cbn; lia].
    + eapply left_goto; [done|cbn; lia].
    + eapply (left_goto (set_owner id (Some k) s)); [done|cbn; lia].
    + eapply (left_goto (set_owner id None s)); [done|]. destruct (po_range s Hok k _ id Hk eq_refl). cbn. lia.
    + eapply left_goto; [done|cbn; lia].
    + by rewrite (proj1 Hq) in Hi.
    + by apply (proj2 Hq) in Hk.
    + by apply (proj2 Hq) in Hk.
    + eapply (left_goto (set_owner id None (set_outbox id (outbox s id ++ [m']) s))); [done|].
      destruct (po_range s Hok k _ id Hk eq_refl). cbn. lia.
    + eapply (left_goto (set_owner id None s)); [done|cbn; lia].
  - pose proof (so_flag s Hst) as Hflag. destruct Hs as [Hd|Hd|i Hd Hw|Hd]; unfold left_over; rewrite Hd; cbn; try lia.
    + apply Hflag in Hd. congruence.
    + apply lookup_lt_Some in Hw. lia.
Qed.

(** Whoever owns a mutex can go on. *)
Lemma owner_moves s k id : pool_ok s → quiet s → defined s → lock_table_server s id = Some k → ∃ s', thread_step s s'.
Proof.
  intros Hok [Hi Hf] Hdef Hl. apply (po_lock s Hok) in Hl as (w & Hk & Hh).
  pose proof (Hf k w Hk) as Ht. pose proof (Forall_lookup_1 _ _ _ _ Hdef Hk) as Hb.
  destruct w as [| |id'|id' m|id' m|id' m| |id'|]; cbn in Hh; try done; injection Hh as ->.
  - eexists. by eapply by_worker, w_error.
  - eexists. by eapply by_worker, w_send.
Qed.

Lemma worker_moves s k w : pool_ok s → quiet s → defined s → stop_listening s = true → workers s !! k = Some w → w ≠ Exited →
  ∃ s', thread_step s s'.
Proof.
  intros Hok Hq Hdef Hf Hk Hne. pose proof (Forall_lookup_1 _ _ _ _ Hdef Hk) as Hb.
  assert (∀ id, holds w = Some id → ∃ s', thread_step s s') as Hown.
  { intros id Hh. apply (owner_moves s k id Hok Hq Hdef). apply (po_lock s Hok). eauto. }
  destruct w as [|id|id|id m|id m|id m| |id|]; eauto; try done.
  - eexists. by eapply by_worker, w_stop.
  - destruct (le_lt_dec node_count id) as [Hge|Hlt]; [eexists; by eapply by_worker, w_end|].
    destruct (decide (id = myid)) as [->|Hmy]; [eexists; by eapply by_worker, w_skip|].
    destruct (lock_table_server s id) as [k'|] eqn:Hl; [by eapply owner_moves|].
    eexists. by eapply by_worker, w_lock.
Qed.

Lemma destructor_moves s : pool_ok s → stop_ok s → quiet s → defined s → destructor s ≠ Destroyed → ∃ s', thread_step s s'.
Proof.
  intros Hok Hst Hq Hdef Hd. destruct (destructor s) as [| |i|] eqn:E; [eexists; by eapply by_destructor, d_stop
    |eexists; by eapply by_destructor, d_delete| |done].
  assert (stop_listening s = true) as Hf.
  { destruct (stop_listening s) eqn:Ef; [done|]. apply (so_flag s Hst) in Ef. congruence. }
  pose proof (so_le s Hst) as Hle. unfold joined in Hle. rewrite E in Hle.
  destruct (decide (i = length (workers s))) as [->|Hne]; [eexists; by eapply by_destructor, d_return|].
  destruct (lookup_lt_is_Some_2 (workers s) i) as [w Hw]; [lia|].
  destruct w eqn:Ew; try (by eapply worker_moves).
  eexists. by eapply by_destructor, d_join.
Qed.

Lemma sum_work_bound (l : list worker) : (sum_list_with work l ≤ length l * (2 * node_count + 2))%nat.
Proof. induction l as [|w l IH]; cbn; [lia|]. assert (work w ≤ 2 * node_count + 2)%nat by (destruct w; cbn; lia). lia. Qed.

Lemma left_bound s : stop_ok s → (left_over s ≤ 8 * (2 * node_count + 2) + 10)%nat.
Proof.
  intros Hst. pose proof (sum_work_bound (workers s)). pose proof (so_size s Hst) as Hsz. unfold MAX_THREAD_POOL in Hsz.
  unfold left_over. assert (length (workers s) * (2 * node_count + 2) ≤ 8 * (2 * node_count + 2))%nat by (apply Nat.mul_le_mono_r; lia).
  destruct (destructor s); lia.
Qed.

Lemma quiet_run s s' : pool_ok s → stop_ok s → quiet s → star thread_step s s' → pool_ok s' ∧ stop_ok s' ∧ quiet s'.
Proof.
  intros H1 H2 H3. apply (star_invariant thread_step (λ s, pool_ok s ∧ stop_ok s ∧ quiet s)); [|done].
  intros a b (Ha & Hb & Hc) Hab. split_and!; [by eapply pool_ok_thread| |by eapply quiet_step].
  eapply stop_ok_step; [exact Hb|by apply by_thread].
Qed.

Lemma stop_listening_stays s s' : thread_step s s' → stop_listening s = true → stop_listening s' = true.
Proof. intros [k Hs|Hs]; destruct Hs; done. Qed.

Lemma steps_bounded n s s' : pool_ok s → stop_ok s → quiet s → stop_listening s = true →
  nsteps thread_step n s s' → (n + left_over s' ≤ left_over s)%nat.
Proof.
  intros H1 H2 H3 Hf Hn. induction Hn as [s|n s s1 s' Hs _ IH]; [lia|].
  pose proof (left_step s s1 H1 H2 H3 Hf Hs).
  destruct (quiet_run s s1 H1 H2 H3 (star_one _ _ _ Hs)) as (H1' & H2' & H3').
  specialize (IH H1' H2' H3' (stop_listening_stays _ _ Hs Hf)). lia.
Qed.

(** C11: the destructor of a server that has answered every request is safe and returns. If
    at some moment no request waits or is being worked on and none arrives later, then
    whatever the threads do, as long as no poll meets an empty queue - each reports an error, as
    on a closed connection - and no [Send] has failed, no thread uses the deleted table, the
    program has a step to make before the destructor has returned, it makes boundedly many
    steps once the flag is set, and at the end all threads have left and all mutexes are free. *)
Theorem quiet_shutdown t0 s s' :
  star pool_step (server_new t0) s → quiet s → star thread_step s s' → defined s' →
  ¬ use_after_free s' ∧
  (destructor s' ≠ Destroyed → ∃ s'', thread_step s' s'') ∧
  (stop_listening s' = true → ∀ n s'', nsteps thread_step n s' s'' → (n ≤ 8 * (2 * node_count + 2) + 10)%nat) ∧
  (destructor s' = Destroyed → (∀ k, (k < length (workers s'))%nat → workers s' !! k = Some Exited) ∧
    ∀ id, lock_table_server s' id = None).
Proof.
  intros Hs Hq Hrun Hdef. assert (pool_ok s ∧ stop_ok s) as [Hok Hst].
  { apply (star_invariant pool_step (λ s, pool_ok s ∧ stop_ok s) (server_new t0)).
    - intros a b [Ha Hb] Hab. split; [by eapply pool_ok_step|by eapply stop_ok_step].
    - split; [apply pool_ok_new|apply stop_ok_new].
    - done. }
  destruct (quiet_run s s' Hok Hst Hq Hrun) as (Hok' & Hst' & Hq'). split; [|split; [|split]].
  - intros (_ & k & w & Hk & Hw). apply (proj2 Hq') in Hk. congruence.
  - by apply destructor_moves.
  - intros Hf n s'' Hn. pose proof (steps_bounded n s' s'' Hok' Hst' Hq' Hf Hn). pose proof (left_bound s' Hst'). lia.
  - intros Hd. assert (∀ k, (k < length (workers s'))%nat → workers s' !! k = Some Exited) as Hall.
    { intros k Hk. apply (so_joined s' Hst'). unfold joined. by rewrite Hd. }
    split; [done|]. intros id. destruct (lock_table_server s' id) as [k|] eqn:Hl; [|done].
    apply (po_lock s' Hok') in Hl as (w & Hw & Hh). rewrite Hall in Hw by by eapply lookup_lt_Some. by injection Hw as <-.
Qed.
End pool.

(** A request that is being worked on when the destructor runs: the table is deleted before
    the thread that is about to use it is joined. *)
Lemma delete_before_join {C T} (exec : C → @op Z → Z → T → result (T * option Z)) (t0 : T) (m : IHTOPProto) :
  ∃ s, star (pool_step exec 2 0) (server_new 2 t0) s ∧ defined s ∧ use_after_free s.
Proof.
  eexists. split.
  - eapply star_step; [apply (arrives exec 2 0 _ 1 m); lia|].
    eapply star_step; [eapply by_thread, (by_worker _ _ _ _ _ 0), w_round; reflexivity|].
    eapply star_step; [eapply by_thread, (by_worker _ _ _ _ _ 0), w_skip; [reflexivity|lia]|].
    eapply star_step; [eapply by_thread, (by_worker _ _ _ _ _ 0), w_lock; [reflexivity|lia|lia|reflexivity]|].
    eapply star_step; [eapply by_thread, (by_worker _ _ _ _ _ 0), w_receive; reflexivity|].
    eapply star_step; [eapply by_thread, by_destructor, d_stop; reflexivity|].
    eapply star_step; [eapply by_thread, by_destructor, d_delete; reflexivity|].
    apply star_refl.
  - split; [repeat constructor|]. split; [reflexivity|]. by exists 0%nat, (Found 1 m).
Qed.

(** A server without requests comes to an undefined poll by itself. *)
Lemma idle_server_undefined {C T} (exec : C → @op Z → Z → T → result (T * option Z)) (t0 : T) :
  ∃ s, star (thread_step exec 2 0) (server_new 2 t0) s ∧ ¬ defined s.
Proof.
  eexists. split.
  - eapply star_step; [apply (by_worker _ _ _ _ _ 0), w_round; reflexivity|].
    eapply star_step; [apply (by_worker _ _ _ _ _ 0), w_skip; [reflexivity|lia]|].
    eapply star_step; [apply (by_worker _ _ _ _ _ 0), w_lock; [reflexivity|lia|lia|reflexivity]|].
    eapply star_step; [apply (by_worker _ _ _ _ _ 0), w_empty; reflexivity|]. apply star_refl.
  - unfold defined. cbn. by intros [? _]%Forall_cons.
Qed.

(** ** The local table as such an object *)
(** A call forgets keys that rehashes have put elsewhere and then works as on a finite map. *)
Definition lossy_exec (lost : gset Z) (o : @op Z) (key : Z) (M : gmap Z Z) : result (gmap Z Z * option Z) :=
  Done (spec_op o key (filter (λ kv, kv.1 ∉ lost) M)).

Inductive lossy_run : gmap Z Z → list (@op Z * Z * option Z) → gmap Z Z → Prop :=
| lossy_nil M : lossy_run M [] M
| lossy_snoc M l M1 lost o key M2 r : lossy_run M l M1 → lossy_exec lost o key M1 = Done (M2, r) →
    lossy_run M (l ++ [(o, key, r)]) M2.

Definition call_of (e : @event Z Z) : option (@op Z * Z * option Z) :=
  match e with ECall _ o key r => Some (o, key, r) | ESplit _ => None end.

(** The histories of [local_linearizable] are runs of this object. *)
Lemma local_history_run (to_num : Z → Z) plist es : LocalConc.legal to_num plist es → ∃ M (lost : gset Z),
  lossy_run ∅ (omap call_of es) M ∧ map_of to_num plist es = filter (λ kv, kv.1 ∉ lost) M.
Proof.
  induction es as [|e es IH] using rev_ind; intros Hl.
  { exists ∅, ∅. split; [apply lossy_nil|by rewrite map_filter_empty]. }
  destruct IH as (M & lost & Hrun & HM).
  { intros pre t o key r post ->. eapply (Hl pre t o key r (post ++ [e])). by rewrite <- app_assoc. }
  rewrite omap_app, map_of_snoc. destruct e as [t o key r|q]; cbn.
  - exists (spec_op o key (map_of to_num plist es)).1, ∅. split.
    + eapply (lossy_snoc _ _ _ lost); [done|]. unfold lossy_exec. rewrite <- HM, (Hl es t o key r []) by done.
      by destruct (spec_op o key _).
    + symmetry. apply map_filter_id. set_solver.
  - rewrite app_nil_r. exists M, (lost ∪ filter (stranded to_num plist q) (dom M)). split; [done|].
    rewrite HM, map_filter_filter. apply map_filter_ext. intros k v Hk. cbn.
    rewrite elem_of_union, elem_of_filter, elem_of_dom, Hk. naive_solver.
Qed.

Definition one_exec {T} (exec : @op Z → Z → T → result (T * option Z)) (_ : unit) := exec.

(** ** Examples: node 0 of two, over the local table *)
Lemma served_run : ∃ s,
  star (pool_step (one_exec small_exec) 2 0) (server_new 2 (iht_carumap_new 64)) s ∧ defined s ∧
    is_Some (internal_data_ s) ∧ outbox s 1%nat = [] ∧ in_work s 1 = ([], [mkProto INS_RES 3 30]).
Proof.
  eexists. split.
  - eapply star_step; [apply (arrives (one_exec small_exec) 2 0 _ 1 (mkProto INS_REQ 3 30)); lia|].
    eapply star_step; [eapply by_thread, (by_worker _ _ _ _ _ 0), w_round; reflexivity|].
    eapply star_step; [eapply by_thread, (by_worker _ _ _ _ _ 0), w_skip; [reflexivity|lia]|].
    eapply star_step; [eapply by_thread, (by_worker _ _ _ _ _ 0), w_lock; [reflexivity|lia|lia|reflexivity]|].
    eapply star_step; [eapply by_thread, (by_worker _ _ _ _ _ 0), w_receive; reflexivity|].
    eapply star_step; [eapply by_thread, (by_worker _ _ _ _ _ 0), (w_handle _ _ _ _ _ _ _ _ tt 0); reflexivity|].
    apply star_refl.
  - split; [repeat constructor|]. split; [by eexists|]. split; reflexivity.
Qed.

Lemma pool_serves_atomically_witness : ∃ s t q r,
  star (serve_step (one_exec small_exec) 2 0) (iht_carumap_new 64, λ _, [], λ _, []) (t, q, r) ∧
    internal_data_ s = Some t ∧ r 1%nat = [mkProto INS_RES 3 30].
Proof.
  destruct served_run as (s & Hs & Hdef & [t' Hd] & Ho & Hw).
  destruct (pool_serves_atomically (one_exec small_exec) 2 0 _ s Hs Hdef) as (t & q & r & Hst & Ht & Hqr).
  exists s, t, q, r. destruct (Hqr 1%nat) as (_ & Hr & _). rewrite Hw, Ho in Hr.
  split; [exact Hst|]. split; [rewrite Hd; f_equal; by apply Ht|exact Hr].
Defined.

Lemma shutdown_run : ∃ s, star (thread_step (one_exec small_exec) 2 0) (server_new 2 (iht_carumap_new 64)) s ∧
  defined s ∧ destructor s = Destroyed.
Proof.
  eexists. split.
  - eapply star_step; [apply (by_worker _ _ _ _ _ 0), w_round; reflexivity|].
    eapply star_step; [apply (by_worker _ _ _ _ _ 0), w_skip; [reflexivity|lia]|].
    eapply star_step; [apply (by_worker _ _ _ _ _ 0), w_lock; [reflexivity|lia|lia|reflexivity]|].
    eapply star_step; [apply by_destructor, d_stop; reflexivity|].
    eapply star_step; [apply by_destructor, d_delete; reflexivity|].
    eapply star_step; [apply (by_worker _ _ _ _ _ 0), w_error; reflexivity|].
    eapply star_step; [apply (by_worker _ _ _ _ _ 0), (w_end _ _ _ _ _ 2); [reflexivity|lia]|].
    eapply star_step; [apply (by_worker _ _ _ _ _ 0), w_stop; reflexivity|].
    eapply star_step; [apply (by_worker _ _ _ _ _ 1), w_stop; reflexivity|].
    eapply star_step; [apply by_destructor, d_join; reflexivity|].
    eapply star_step; [apply by_destructor, d_join; reflexivity|].
    eapply star_step; [apply by_destructor, d_return; reflexivity|]. apply star_refl.
  - split; [repeat constructor|reflexivity].
Qed.

Lemma quiet_shutdown_witness : ∃ s, star (thread_step (one_exec small_exec) 2 0) (server_new 2 (iht_carumap_new 64)) s ∧
  destructor s = Destroyed ∧ ¬ use_after_free s ∧ ∀ id, lock_table_server s id = None.
Proof.
  destruct shutdown_run as (s & Hs & Hdef & Hd). exists s. split; [exact Hs|]. split; [exact Hd|].
  destruct (quiet_shutdown (one_exec small_exec) 2 0 (iht_carumap_new 64) (server_new 2 (iht_carumap_new 64)) s)
    as (Huse & _ & _ & Hend); [apply star_refl| |exact Hs|exact Hdef|].
  - split; [done|]. intros [|[|[|k]]] w Hk; [by injection Hk as <-|by injection Hk as <-|discriminate Hk..].
  - split; [exact Huse|]. by destruct (Hend Hd).
Defined.
