(* ===== verification/Tcp.v ===== *)
(** * Message exchange over TCP (util/tcp/tcp.h) and the stop barrier (iht/role_server.h,
    [Client::Stop] of iht/role_client.h)

    Messages as bytes; the server's [SocketManager] and the client's [EndpointManager] over
    the socket calls of the operating system, which are the class [Os]; who closes which
    descriptor; and the barrier the experiments end with, as a step relation of one server
    and its clients over byte streams. *)
From S2P Require Import Prelude.

(** ** Messages *)
Definition TCP_MESSAGE_SIZE : nat := 32.

(** [struct message]: the 32 bytes of the union and the padding byte behind them. *)
Record message := mkMessage { data : list Z; padding : Z }.

(** [message(first_, second_, third_, fourth_)] *)
Definition message_new (first_ second_ third_ fourth_ : Z) : message :=
  mkMessage (le_bytes 8 first_ ++ le_bytes 8 second_ ++ le_bytes 8 third_ ++ le_bytes 8 fourth_) 0.
Definition get_first (m : message) : Z := of_le (take 8 (data m)).
Definition get_second (m : message) : Z := of_le (take 8 (drop 8 (data m))).
Definition get_third (m : message) : Z := of_le (take 8 (drop 16 (data m))).
Definition get_fourth (m : message) : Z := of_le (take 8 (drop 24 (data m))).

(** The [TCP_MESSAGE_SIZE + 1] bytes from [content.data] on. *)
Definition message_bytes (m : message) : list Z := data m ++ [padding m].
(** A [read] of that many bytes that delivered [bs]: the rest of the message stays. *)
Definition read_into (m : message) (bs : list Z) : message :=
  let l := bs ++ drop (length bs) (message_bytes m) in
  mkMessage (take TCP_MESSAGE_SIZE l) (default 0 (l !! TCP_MESSAGE_SIZE)).

Lemma length_data a b c d : length (data (message_new a b c d)) = 32%nat.
Proof. cbn [data message_new]. by rewrite !length_app, !length_le_bytes. Qed.

Lemma length_message_bytes a b c d : length (message_bytes (message_new a b c d)) = 33%nat.
Proof. unfold message_bytes. by rewrite length_app, length_data. Qed.

(** A slice of the four words. *)
Lemma words_slice (w1 w2 w3 w4 : list Z) :
  length w1 = 8%nat → length w2 = 8%nat → length w3 = 8%nat → length w4 = 8%nat →
  let l := w1 ++ w2 ++ w3 ++ w4 in
  take 8 l = w1 ∧ take 8 (drop 8 l) = w2 ∧ take 8 (drop 16 l) = w3 ∧ take 8 (drop 24 l) = w4.
Proof.
  intros H1 H2 H3 H4 l. unfold l. split_and!.
  - by rewrite take_app_length'.
  - by rewrite drop_app_length', take_app_length'.
  - rewrite app_assoc, drop_app_length', take_app_length'; by rewrite ?length_app, ?H1, ?H2.
  - rewrite !app_assoc, drop_app_length', take_ge; by rewrite ?length_app, ?H1, ?H2, ?H3, ?H4.
Qed.

(** A message carries its four words. The getters return the constructor's arguments
    as 64-bit words; the 33 bytes that are written are what a reader that receives all of
    them stores, whatever its buffer held, so it reads the same four words. *)
Theorem message_roundtrip a b c d m0 :
  let m := message_new a b c d in
  (get_first m, get_second m, get_third m, get_fourth m) = (u64 a, u64 b, u64 c, u64 d) ∧
  length (message_bytes m) = 33%nat ∧
  (length (message_bytes m0) = 33%nat → read_into m0 (message_bytes m) = m).
Proof.
  cbv zeta. split_and!.
  - destruct (words_slice (le_bytes 8 a) (le_bytes 8 b) (le_bytes 8 c) (le_bytes 8 d))
      as (E1 & E2 & E3 & E4); [apply length_le_bytes..|].
    unfold get_first, get_second, get_third, get_fourth. cbn [data message_new].
    rewrite E1, E2, E3, E4, !of_le_bytes. done.
  - apply length_message_bytes.
  - intros Hlen. unfold read_into. rewrite length_message_bytes, <- Hlen, drop_all, app_nil_r.
    unfold message_bytes at 1 2, TCP_MESSAGE_SIZE.
    rewrite take_app_length' by by rewrite length_data.
    rewrite lookup_app_r by (rewrite length_data; lia). rewrite length_data. done.
Qed.

Lemma message_roundtrip_witness :
  read_into (message_new 1 2 3 4) (message_bytes (message_new 5 6 7 (2 ^ 64 + 8))) =
    message_new 5 6 7 (2 ^ 64 + 8) ∧
  get_fourth (message_new 5 6 7 (2 ^ 64 + 8)) = 8.
Proof.
  destruct (message_roundtrip 5 6 7 (2 ^ 64 + 8) (message_new 1 2 3 4)) as (Hget & _ & Hread).
  split; [apply Hread; vm_compute; reflexivity|]. apply (f_equal snd) in Hget. exact Hget.
Defined.

(** ** The operating system *)
Class Os (S : Type) := {
  sys_socket : S → S * Z;
  sys_setsockopt : Z → Z → S → S * Z;        (* descriptor, option *)
  sys_bind : Z → Z → S → S * Z;              (* descriptor, port *)
  sys_listen : Z → Z → S → S * Z;            (* descriptor, backlog *)
  sys_accept : Z → S → S * Z;
  sys_connect : Z → Z → Z → S → S * Z;       (* descriptor, IP, port *)
  sys_getaddrinfo : string → S → S * option Z;
  sys_inet_pton : Z → S → S * Z;
  sys_read : Z → nat → S → S * option (list Z);   (* [None] is -1 *)
  sys_write : Z → list Z → S → S * option nat;
  sys_close : Z → S → S }.

(** A call of the system. *)
Definition sys {S A} (f : S → S * A) : io S A := λ s, let '(s', a) := f s in (s', Done a).
Definition close {S} `{Os S} (fd : Z) : io S unit := λ s, (sys_close fd s, Done tt).
(** [error(message)] *)
Definition error {S A} : io S A := λ s, (s, Fault FThrow).
(** [ROME_FATAL] *)
Definition fatal {S A} : io S A := λ s, (s, Fault FAbort).

Definition SO_REUSEADDR : Z := 2.
Definition SO_REUSEPORT : Z := 15.

Section managers.
Context {S : Type} `{Os S}.
Implicit Types (s : S).

Record SocketManager := mkSM { sm_sockfd : Z; client_sockets : list Z; sm_owner : bool }.
Record EndpointManager := mkEM { em_sockfd : Z; em_owner : bool }.

(** Default constructors. *)
Definition SocketManager_default : SocketManager := mkSM (-1) [] false.
Definition EndpointManager_default : EndpointManager := mkEM (-1) false.

(** Copy and move construction: the new object starts as an owner, the old one is released. *)
Definition SocketManager_copy (obj : SocketManager) : SocketManager * SocketManager :=
  (mkSM (sm_sockfd obj) (client_sockets obj) true, mkSM (sm_sockfd obj) (client_sockets obj) false).
Definition EndpointManager_copy (obj : EndpointManager) : EndpointManager * EndpointManager :=
  (mkEM (em_sockfd obj) true, mkEM (em_sockfd obj) false).

(** Copy and move assignment: the target keeps its own [owner] flag. *)
Definition SocketManager_assign (this obj : SocketManager) : SocketManager * SocketManager :=
  (mkSM (sm_sockfd obj) (client_sockets obj) (sm_owner this),
   mkSM (sm_sockfd obj) (client_sockets obj) false).
Definition EndpointManager_assign (this obj : EndpointManager) : EndpointManager * EndpointManager :=
  (mkEM (em_sockfd obj) (em_owner this), mkEM (em_sockfd obj) false).

(** [SocketManager(port, expected_conn)] *)
Definition SocketManager_new (port expected_conn : Z) : io S SocketManager :=
  sockfd ← sys sys_socket;
  if sockfd =? -1 then error else
  r ← sys (sys_setsockopt sockfd SO_REUSEADDR);
  if r <? 0 then error else
  r ← sys (sys_setsockopt sockfd SO_REUSEPORT);
  if r <? 0 then error else
  r ← sys (sys_bind sockfd port);
  if r =? -1 then (close sockfd ;; error) else
  r ← sys (sys_listen sockfd expected_conn);
  if r =? -1 then (close sockfd ;; error) else
  mret (mkSM sockfd [] true).

Definition accept_conn (sm : SocketManager) : io S (SocketManager * bool) :=
  fd ← sys (sys_accept (sm_sockfd sm));
  if fd =? -1 then mret (sm, false)
  else mret (mkSM (sm_sockfd sm) (client_sockets sm ++ [fd]) (sm_owner sm), true).

Fixpoint send_loop (fds : list Z) (send_buffer : message) : io S unit :=
  match fds with
  | [] => mret tt
  | fd :: fds' =>
      r ← sys (sys_write fd (message_bytes send_buffer));
      match r with None => fatal | Some _ => send_loop fds' send_buffer end
  end.
Definition send_to_all (sm : SocketManager) (send_buffer : message) : io S unit :=
  send_loop (client_sockets sm) send_buffer.

Definition num_clients (sm : SocketManager) : nat := length (client_sockets sm).

(** [recv_from_all]: the buffer's entry [i] is overwritten by what client [i]'s read delivers. *)
Fixpoint recv_loop (fds : list Z) (recv_buffer : list message) : io S (list message) :=
  match fds with
  | [] => mret recv_buffer
  | fd :: fds' =>
      match recv_buffer with
      | [] => λ s, (s, Fault FUndef)
      | m :: ms =>
          r ← sys (sys_read fd (TCP_MESSAGE_SIZE + 1));
          match r with
          | None => fatal
          | Some bs => ms' ← recv_loop fds' ms; mret (read_into m bs :: ms')
          end
      end
  end.
Definition recv_from_all (sm : SocketManager) (recv_buffer : list message) : io S (list message) :=
  recv_loop (client_sockets sm) recv_buffer.

Fixpoint close_all (fds : list Z) : io S unit :=
  match fds with [] => mret tt | fd :: fds' => close fd ;; close_all fds' end.
Definition SocketManager_destroy (sm : SocketManager) : io S unit :=
  if negb (sm_owner sm) then mret tt else
  close_all (client_sockets sm) ;;
  if negb (sm_sockfd sm =? -1) then close (sm_sockfd sm) else mret tt.

Definition send_server (em : EndpointManager) (send_buffer : message) : io S unit :=
  r ← sys (sys_write (em_sockfd em) (message_bytes send_buffer));
  match r with None => error | Some _ => mret tt end.
Definition recv_server (em : EndpointManager) (recv_buffer : message) : io S message :=
  r ← sys (sys_read (em_sockfd em) (TCP_MESSAGE_SIZE + 1));
  match r with None => error | Some bs => mret (read_into recv_buffer bs) end.

(** The connect loop of [EndpointManager(port, hostname)]. *)
Fixpoint connect_loop (fuel : nat) (fd ip port : Z) : io S unit :=
  match fuel with
  | O => λ s, (s, Fault FFuel)
  | Datatypes.S f =>
      r ← sys (sys_connect fd ip port);
      if r =? 0 then mret tt else connect_loop f fd ip port
  end.

Definition EndpointManager_new (fuel : nat) (port : Z) (hostname : string) : io S EndpointManager :=
  sockfd ← sys sys_socket;
  if sockfd =? -1 then error else
  res ← sys (sys_getaddrinfo hostname);
  match res with
  | None => close sockfd ;; error
  | Some host_ip =>
      r ← sys (sys_inet_pton host_ip);
      if r <=? 0 then (close sockfd ;; error) else
      connect_loop fuel sockfd host_ip port ;;
      mret (mkEM sockfd true)
  end.

Definition EndpointManager_destroy (em : EndpointManager) : io S unit :=
  if negb (em_sockfd em =? -1) && em_owner em then close (em_sockfd em) else mret tt.

(** [Client::Stop] and [ExperimentManager::ClientStopBarrier] (the sleep only delays). *)
Definition Client_Stop (em : EndpointManager) : io S message :=
  send_server em (message_new 0 0 0 0) ;;
  recv_server em (message_new 0 0 0 0).
Definition ClientStopBarrier (sm : SocketManager) : io S (list message) :=
  ms ← recv_from_all sm (replicate (num_clients sm) (message_new 0 0 0 0));
  send_to_all sm (message_new 0 0 0 0) ;;
  mret ms.
End managers.

(** ** Descriptors *)
(** What the code relies on: a descriptor that is handed out is not open, and only the
    three calls below change which descriptors are open. *)
Class OsLaws (S : Type) `{Os S} (opened : S → gset Z) : Prop := {
  law_socket s s' fd : sys_socket s = (s', fd) →
    (fd = -1 ∧ opened s' = opened s) ∨ (0 ≤ fd ∧ fd ∉ opened s ∧ opened s' = ({[fd]} ∪ opened s));
  law_accept l s s' fd : sys_accept l s = (s', fd) →
    (fd = -1 ∧ opened s' = opened s) ∨ (0 ≤ fd ∧ fd ∉ opened s ∧ opened s' = ({[fd]} ∪ opened s));
  law_close fd s : opened (sys_close fd s) = opened s ∖ {[fd]};
  law_setsockopt fd o s : opened (sys_setsockopt fd o s).1 = opened s;
  law_bind fd p s : opened (sys_bind fd p s).1 = opened s;
  law_listen fd n s : opened (sys_listen fd n s).1 = opened s }.

Section fd_sets.
Implicit Types (X Y : gset Z) (fd : Z) (fds : list Z).

Lemma fd_close_new fd X : fd ∉ X → ({[fd]} ∪ X) ∖ {[fd]} = X.
Proof. set_solver. Qed.
Lemma fd_first fd X : {[fd]} ∪ X = list_to_set [fd] ∪ X.
Proof. set_solver. Qed.
Lemma fd_append fd fds X : {[fd]} ∪ (list_to_set fds ∪ X) = list_to_set (fds ++ [fd]) ∪ X.
Proof. rewrite list_to_set_app_L. set_solver. Qed.
Lemma fd_close_cons fd fds X : (X ∖ {[fd]}) ∖ list_to_set fds = X ∖ list_to_set (fd :: fds).
Proof. set_solver. Qed.
Lemma fd_close_nil X : X = X ∖ list_to_set [].
Proof. set_solver. Qed.
End fd_sets.

Section descriptors.
Context {S : Type} `{OsLaws S opened}.
Implicit Types (s : S) (sm : SocketManager).

(** [sm] owns its descriptors, which were opened since [base]. *)
Record owns (base : gset Z) sm s : Prop := {
  own_flag : sm_owner sm = true;
  own_valid : Forall (λ fd, 0 ≤ fd) (sm_sockfd sm :: client_sockets sm);
  own_nodup : NoDup (sm_sockfd sm :: client_sockets sm);
  own_new fd : fd ∈ sm_sockfd sm :: client_sockets sm → fd ∉ base;
  own_open : opened s = list_to_set (sm_sockfd sm :: client_sockets sm) ∪ base }.

Lemma sys_bind_eq {A B} (f : S → S * A) (k : A → io S B) s :
  (sys f ≫= k) s = k (f s).2 (f s).1.
Proof. unfold mbind, io_bind, sys. by destruct (f s). Qed.

Lemma io_error_eq {A B} (k : A → io S B) s : (error ≫= k) s = (s, Fault FThrow).
Proof. done. Qed.

Lemma close_bind_eq {B} fd (k : io S B) s : (close fd ;; k) s = k (sys_close fd s).
Proof. done. Qed.

(** The constructor: on success the object owns one new descriptor; when [bind] or [listen]
    fails it is closed again; when [setsockopt] fails it stays open. *)
Lemma SocketManager_new_spec port n s :
  match SocketManager_new port n s with
  | (s', Done sm) => client_sockets sm = [] ∧ owns (opened s) sm s'
  | (s', Fault f) => f = FThrow ∧ (opened s' = opened s ∨ ∃ fd, fd ∉ opened s ∧ opened s' = ({[fd]} ∪ opened s))
  end.
Proof.
  unfold SocketManager_new. rewrite sys_bind_eq.
  destruct (sys_socket s) as [s1 fd] eqn:Es. cbn [fst snd].
  destruct (law_socket _ _ _ Es) as [[-> E]|(Hfd & Hni & E)].
  { change (-1 =? -1) with true. cbv iota. unfold error. auto. }
  destruct (Z.eqb_spec fd (-1)); [lia|]. rewrite sys_bind_eq.
  set (r1 := sys_setsockopt fd SO_REUSEADDR s1).
  assert (opened r1.1 = ({[fd]} ∪ opened s)) as E1 by (unfold r1; by rewrite law_setsockopt).
  destruct (r1.2 <? 0); [unfold error; eauto|]. rewrite sys_bind_eq.
  set (r2 := sys_setsockopt fd SO_REUSEPORT r1.1).
  assert (opened r2.1 = ({[fd]} ∪ opened s)) as E2 by (unfold r2; by rewrite law_setsockopt).
  destruct (r2.2 <? 0); [unfold error; eauto|]. rewrite sys_bind_eq.
  set (r3 := sys_bind fd port r2.1).
  assert (opened r3.1 = ({[fd]} ∪ opened s)) as E3 by (unfold r3; by rewrite law_bind).
  assert (∀ t, opened t = ({[fd]} ∪ opened s) → opened (sys_close fd t) = opened s) as Hclose.
  { intros t Et. rewrite law_close, Et. by apply fd_close_new. }
  destruct (r3.2 =? -1).
  { rewrite close_bind_eq. unfold error. auto. }
  rewrite sys_bind_eq. set (r4 := sys_listen fd n r3.1).
  assert (opened r4.1 = ({[fd]} ∪ opened s)) as E4 by (unfold r4; by rewrite law_listen).
  destruct (r4.2 =? -1).
  { rewrite close_bind_eq. unfold error. auto. }
  cbn. split; [done|]. split; cbn; [done|by repeat constructor|apply NoDup_singleton| |].
  - intros fd' ->%list_elem_of_singleton. done.
  - rewrite E4. apply fd_first.
Qed.

Lemma accept_owns base sm s s' sm' b :
  owns base sm s → accept_conn sm s = (s', Done (sm', b)) → owns base sm' s'.
Proof.
  intros [Hf Hv Hn Hnew Ho]. unfold accept_conn. rewrite sys_bind_eq.
  destruct (sys_accept (sm_sockfd sm) s) as [s1 fd] eqn:Es. cbn [fst snd].
  destruct (law_accept _ _ _ _ Es) as [[-> E]|(Hfd & Hni & E)].
  { change (-1 =? -1) with true. cbv iota. intros [= <- <- _]. split; try done. by rewrite E. }
  destruct (Z.eqb_spec fd (-1)); [lia|]. intros [= <- <- _].
  rewrite Ho in Hni. apply not_elem_of_union in Hni as [Hni Hnb].
  rewrite elem_of_list_to_set in Hni.
  split; cbn [sm_sockfd client_sockets sm_owner]; try done; rewrite app_comm_cons.
  - apply Forall_app. split; [done|by repeat constructor].
  - apply NoDup_app. split_and!; [done| |apply NoDup_singleton].
    intros x Hx ->%list_elem_of_singleton. done.
  - intros x [Hx| ->%list_elem_of_singleton]%elem_of_app; [by apply Hnew|done].
  - rewrite E, Ho. apply fd_append.
Qed.

Fixpoint accepts (k : nat) sm : io S SocketManager :=
  match k with
  | O => mret sm
  | Datatypes.S k' => '(sm', _) ← accept_conn sm; accepts k' sm'
  end.

Lemma accept_done sm s : ∃ s' sm' b, accept_conn sm s = (s', Done (sm', b)).
Proof. unfold accept_conn. rewrite sys_bind_eq. case_match; eauto. Qed.

Lemma accepts_owns k base sm s s' sm' :
  owns base sm s → accepts k sm s = (s', Done sm') → owns base sm' s'.
Proof.
  revert sm s. induction k as [|k IH]; intros sm s Ho; cbn [accepts].
  { by intros [= <- <-]. }
  unfold mbind, io_bind. destruct (accept_done sm s) as (s1 & sm1 & b & E). rewrite E.
  apply IH. by eapply accept_owns.
Qed.

Lemma close_all_spec fds s :
  ∃ s', close_all fds s = (s', Done tt) ∧ opened s' = opened s ∖ list_to_set fds.
Proof.
  revert s. induction fds as [|fd fds IH]; intros s; cbn [close_all].
  { exists s. split; [done|]. apply fd_close_nil. }
  rewrite close_bind_eq. destruct (IH (sys_close fd s)) as (s' & -> & E).
  exists s'. split; [done|]. rewrite E, law_close. apply fd_close_cons.
Qed.

Lemma destroy_owns base sm s :
  owns base sm s → ∃ s', SocketManager_destroy sm s = (s', Done tt) ∧ opened s' = base.
Proof.
  intros [Hf Hv Hn Hnew Ho]. unfold SocketManager_destroy. rewrite Hf. cbn [negb].
  unfold mbind, io_bind. destruct (close_all_spec (client_sockets sm) s) as (s1 & -> & E1).
  apply Forall_cons in Hv as [Hv _]. rewrite (proj2 (Z.eqb_neq (sm_sockfd sm) (-1))) by lia.
  eexists. split; [done|]. rewrite law_close, E1, Ho. cbn.
  assert (∀ fd, fd = sm_sockfd sm ∨ fd ∈ client_sockets sm → fd ∉ base) as Hout.
  { intros fd Hfd. apply Hnew. by apply elem_of_cons. }
  apply set_eq. intros fd. rewrite !elem_of_difference, !elem_of_union, !elem_of_singleton, elem_of_list_to_set.
  specialize (Hout fd). destruct (decide (fd = sm_sockfd sm)), (decide (fd ∈ client_sockets sm)); tauto.
Qed.

(** No descriptor is lost or closed by mistake over the life of a server object: after
    construction, any number of attempts to accept clients, and destruction, exactly the
    descriptors that were open before are open. *)
Theorem manager_lifetime port n k s s1 sm1 s2 sm2 :
  SocketManager_new port n s = (s1, Done sm1) → accepts k sm1 s1 = (s2, Done sm2) →
  ∃ s3, SocketManager_destroy sm2 s2 = (s3, Done tt) ∧ opened s3 = opened s.
Proof.
  intros Hnew Hacc. pose proof (SocketManager_new_spec port n s) as Hspec. rewrite Hnew in Hspec.
  destruct Hspec as [_ Ho]. eapply destroy_owns, accepts_owns; [exact Ho|exact Hacc].
Qed.

(** Who closes. A copy takes the closing over: destroying it and the original closes
    what destroying the original would have. A default-constructed object that is assigned
    to stays a non-owner although it releases the source, so nothing is closed any more; and
    a second copy of the same object becomes a second owner, so everything is closed twice. *)
Theorem ownership_transfer sm :
  sm_owner sm = true →
  (let '(c, sm') := SocketManager_copy sm in
   ∀ s, (SocketManager_destroy c ;; SocketManager_destroy sm') s = SocketManager_destroy sm s) ∧
  (let '(t, sm') := SocketManager_assign SocketManager_default sm in
   ∀ s, (SocketManager_destroy t ;; SocketManager_destroy sm') s = (s, Done tt)) ∧
  (let '(c1, sm') := SocketManager_copy sm in let '(c2, sm'') := SocketManager_copy sm' in
   ∀ s, (SocketManager_destroy c1 ;; SocketManager_destroy c2) s =
        (SocketManager_destroy sm ;; SocketManager_destroy sm) s).
Proof.
  intros Hown. assert (∀ s, ∃ s', SocketManager_destroy sm s = (s', Done tt)) as Hd.
  { intros s. unfold SocketManager_destroy. rewrite Hown. cbn [negb]. unfold mbind, io_bind.
    destruct (close_all_spec (client_sockets sm) s) as (s1 & -> & _). case_match; eexists; done. }
  destruct sm as [fd fds o]. cbn in Hown. subst o.
  cbn [SocketManager_copy SocketManager_assign SocketManager_default sm_sockfd client_sockets sm_owner].
  split_and!; intros s; [|done|done].
  destruct (Hd s) as [s' E]. unfold mbind, io_bind. by rewrite E.
Qed.
End descriptors.

(** A system that hands out descriptors in order and never fails. *)
Record toy_os := mkToy { toy_open : gset Z; toy_next : Z }.
Definition toy_fd (s : toy_os) : toy_os * Z :=
  let fd := Z.max (toy_next s) (1 + foldr Z.max 0 (elements (toy_open s))) in
  (mkToy ({[fd]} ∪ toy_open s) (fd + 1), fd).
#[export] Instance toy_Os : Os toy_os := {
  sys_socket := toy_fd; sys_setsockopt _ _ s := (s, 0); sys_bind _ _ s := (s, 0);
  sys_listen _ _ s := (s, 0); sys_accept _ s := toy_fd s; sys_connect _ _ _ s := (s, 0);
  sys_getaddrinfo _ s := (s, Some 1); sys_inet_pton _ s := (s, 1);
  sys_read _ n s := (s, Some (replicate n 0)); sys_write _ l s := (s, Some (length l));
  sys_close fd s := mkToy (toy_open s ∖ {[fd]}) (toy_next s) }.

Lemma toy_fd_spec s s' fd : toy_fd s = (s', fd) →
  0 ≤ fd ∧ fd ∉ toy_open s ∧ toy_open s' = ({[fd]} ∪ toy_open s).
Proof.
  assert (∀ (zs : list Z) z, z ∈ zs → z ≤ foldr Z.max 0 zs) as Hmax.
  { induction zs as [|y zs IH]; intros z; [by intros ?%elem_of_nil|].
    intros [->|Hin]%elem_of_cons; cbn; [|specialize (IH _ Hin)]; lia. }
  assert (∀ zs : list Z, 0 ≤ foldr Z.max 0 zs) as Hpos by (induction zs; cbn; lia).
  unfold toy_fd. intros [= <- <-]. specialize (Hpos (elements (toy_open s))). split_and!; [lia| |done].
  intros Hin%elem_of_elements%Hmax. lia.
Qed.

#[export] Instance toy_laws : OsLaws toy_os toy_open.
Proof. split; try done; intros; right; by apply toy_fd_spec. Qed.

Lemma manager_lifetime_witness :
  ∃ s3, SocketManager_destroy (mkSM 4 [5; 6] true) (mkToy {[3; 4; 5; 6]} 7) = (s3, Done tt) ∧
    toy_open s3 = {[3]}.
Proof.
  destruct (manager_lifetime (opened := toy_open) 18000 10 2 (mkToy {[3]} 0) (mkToy {[3; 4]} 5) (mkSM 4 [] true)
    (mkToy {[3; 4; 5; 6]} 7) (mkSM 4 [5; 6] true)) as (s3 & E1 & E2).
  - vm_compute. reflexivity.
  - vm_compute. reflexivity.
  - exists s3. split; [exact E1|exact E2].
Defined.

Lemma ownership_transfer_witness :
  (SocketManager_destroy (mkSM 4 [5] true) ;; SocketManager_destroy (mkSM 4 [5] false)) (mkToy {[3; 4; 5]} 6) =
    SocketManager_destroy (mkSM 4 [5] true) (mkToy {[3; 4; 5]} 6) ∧
  (SocketManager_destroy (mkSM 4 [5] false) ;; SocketManager_destroy (mkSM 4 [5] false)) (mkToy {[3; 4; 5]} 6) =
    (mkToy {[3; 4; 5]} 6, Done tt).
Proof.
  destruct (ownership_transfer (S := toy_os) (mkSM 4 [5] true)) as (H1 & H2 & _); [reflexivity|].
  split; [apply H1|apply H2].
Defined.

(** ** The stop barrier *)
(** One client's connection: how often the client has left [Stop], whether it waits in it,
    and the bytes under way in either direction. The server is at client [i] of
    [recv_from_all] or of [send_to_all]; [laps] counts its finished calls. *)
Record conn := mkConn { left_stop : nat; waiting : bool; up : list Z; down : list Z }.
Inductive server_pc := Receiving (i : nat) | Sending (i : nat).
Record net := mkNet { conns : list conn; server : server_pc; laps : nat }.

Definition ack : list Z := message_bytes (message_new 0 0 0 0).
Arguments ack : simpl never.
#[local] Arguments Nat.mul : simpl never.

(** How many of the available bytes a [read] of 33 delivers: all it asked for, or, as a
    stream socket may, fewer. *)
Definition full_read (avail k : nat) : Prop := k = Nat.min avail (TCP_MESSAGE_SIZE + 1).
Definition any_read (avail k : nat) : Prop := (1 ≤ k ≤ Nat.min avail (TCP_MESSAGE_SIZE + 1))%nat.

Section barrier.
Context (reads : nat → nat → Prop).
Implicit Types (s : net) (c : conn).

Inductive barrier_step : net → net → Prop :=
| client_sends cs sv lp i c :                       (* send_server *)
    cs !! i = Some c → waiting c = false →
    barrier_step (mkNet cs sv lp)
      (mkNet (<[i := mkConn (left_stop c) true (up c ++ ack) (down c)]> cs) sv lp)
| client_receives cs sv lp i c k :                  (* recv_server *)
    cs !! i = Some c → waiting c = true → down c ≠ [] → reads (length (down c)) k →
    barrier_step (mkNet cs sv lp)
      (mkNet (<[i := mkConn (S (left_stop c)) false (up c) (drop k (down c))]> cs) sv lp)
| server_receives cs lp i c k :
    cs !! i = Some c → up c ≠ [] → reads (length (up c)) k →
    barrier_step (mkNet cs (Receiving i) lp)
      (mkNet (<[i := mkConn (left_stop c) (waiting c) (drop k (up c)) (down c)]> cs) (Receiving (S i)) lp)
| server_turns cs lp :
    barrier_step (mkNet cs (Receiving (length cs)) lp) (mkNet cs (Sending 0) lp)
| server_sends cs lp i c :
    cs !! i = Some c →
    barrier_step (mkNet cs (Sending i) lp)
      (mkNet (<[i := mkConn (left_stop c) (waiting c) (up c) (down c ++ ack)]> cs) (Sending (S i)) lp)
| server_finishes cs lp :
    barrier_step (mkNet cs (Sending (length cs)) lp) (mkNet cs (Receiving 0) (S lp)).
End barrier.

(** [n] clients that are still running. *)
Definition net_start (n : nat) : net := mkNet (replicate n (mkConn 0 false [] [])) (Receiving 0) 0.

(** How often a client has arrived. *)
Definition arrived (c : conn) : nat := left_stop c + (if waiting c then 1 else 0).
(** Messages the server has taken from client [i], and sent to it. *)
Definition taken (sv : server_pc) (lp i : nat) : nat :=
  lp + match sv with Receiving j => if decide (i < j)%nat then 1 else 0 | Sending _ => 1 end.
Definition replied (sv : server_pc) (lp i : nat) : nat :=
  lp + match sv with Receiving _ => 0 | Sending j => if decide (i < j)%nat then 1 else 0 end.

Arguments taken : simpl never.
Arguments replied : simpl never.

(** With full reads the streams hold whole messages. *)
Definition net_ok (s : net) : Prop :=
  (match server s with Receiving j | Sending j => (j ≤ length (conns s))%nat end) ∧
  ∀ i c, conns s !! i = Some c →
    (length (up c) + 33 * taken (server s) (laps s) i = 33 * arrived c)%nat ∧
    (length (down c) + 33 * left_stop c = 33 * replied (server s) (laps s) i)%nat.

Lemma ack_length : length ack = 33%nat.
Proof. apply length_message_bytes. Qed.

Lemma full_read_whole {A} (l : list A) k x y :
  (length l + 33 * x = 33 * y)%nat → l ≠ [] → full_read (length l) k → length (drop k l) = (length l - 33)%nat ∧ (33 ≤ length l)%nat.
Proof.
  intros E Hl ->. assert (length l ≠ 0)%nat by by destruct l. unfold TCP_MESSAGE_SIZE.
  rewrite length_drop. lia.
Qed.

(** Case analysis for the clients other than, and including, the one that moved. *)
Lemma net_ok_update cs sv lp sv' lp' i c c' :
  net_ok (mkNet cs sv lp) → cs !! i = Some c →
  (match sv' with Receiving j | Sending j => (j ≤ length cs)%nat end) →
  (∀ j, j ≠ i → taken sv' lp' j = taken sv lp j ∧ replied sv' lp' j = replied sv lp j) →
  (length (up c') + 33 * taken sv' lp' i = 33 * arrived c')%nat →
  (length (down c') + 33 * left_stop c' = 33 * replied sv' lp' i)%nat →
  net_ok (mkNet (<[i := c']> cs) sv' lp').
Proof.
  intros [_ Hok] Hi Hj Hother Hup Hdown.
  split; cbn [conns server laps]; [by rewrite length_insert|].
  intros j d Hd. apply list_lookup_insert_Some in Hd as [(-> & <- & _)|[Hne Hd]]; [done|].
  destruct (Hother j (not_eq_sym Hne)) as [-> ->]. by apply Hok.
Qed.

Lemma net_ok_step s s' : net_ok s → barrier_step full_read s s' → net_ok s'.
Proof.
  intros Hok Hs. pose proof Hok as [Hj Hc].
  destruct Hs as [cs sv lp i c Hi Hw|cs sv lp i c k Hi Hw Hne Hr|cs lp i c k Hi Hne Hr|cs lp|cs lp i c Hi|cs lp];
    cbn in Hj, Hc; try (destruct (Hc _ _ Hi) as [Hup Hdown]).
  - eapply net_ok_update; [done|done|done|done| |done].
    cbn. rewrite length_app, ack_length. unfold arrived in *. cbn. rewrite Hw in Hup. lia.
  - destruct (full_read_whole _ _ _ _ Hdown Hne Hr) as [E H33].
    eapply net_ok_update; [done|done|done|done| |cbn; rewrite E; lia].
    cbn. unfold arrived in *. cbn. rewrite Hw in Hup. lia.
  - destruct (full_read_whole _ _ _ _ Hup Hne Hr) as [E H33]. apply lookup_lt_Some in Hi as Hlt.
    eapply net_ok_update; [done|done|lia| | |]; cbn.
    + intros j Hji. unfold taken. split; [|done]. repeat case_decide; lia.
    + rewrite E. unfold taken in *. repeat case_decide; try lia. unfold arrived in *. cbn in *. lia.
    + done.
  - split; cbn; [lia|]. intros i c Hi. destruct (Hc _ _ Hi) as [Hup Hdown].
    apply lookup_lt_Some in Hi. unfold taken, replied in *. repeat case_decide; lia.
  - apply lookup_lt_Some in Hi as Hlt.
    eapply net_ok_update; [done|done|lia| | |]; cbn.
    + intros j Hji. unfold replied. split; [done|]. repeat case_decide; lia.
    + done.
    + rewrite length_app, ack_length. unfold replied in *. repeat case_decide; lia.
  - split; cbn; [lia|]. intros i c Hi. destruct (Hc _ _ Hi) as [Hup Hdown].
    apply lookup_lt_Some in Hi. unfold taken, replied in *. repeat case_decide; lia.
Qed.

Lemma net_ok_start n : net_ok (net_start n).
Proof.
  split; cbn; [lia|]. intros i c [-> _]%lookup_replicate. cbn. unfold taken, replied. cbn.
  repeat case_decide; lia.
Qed.

(** C14: the stop barrier. When reads deliver whole messages, no client leaves [Stop] for
    the [r]-th time before every client has called it [r] times, however often the barrier
    is used. *)
Theorem stop_barrier_safe n s i j c d :
  star (barrier_step full_read) (net_start n) s →
  conns s !! i = Some c → conns s !! j = Some d → (left_stop c ≤ arrived d)%nat.
Proof.
  intros Hs Hi Hj. assert (net_ok s) as [Hpos Hok].
  { eapply star_invariant; [apply net_ok_step|apply net_ok_start|done]. }
  destruct (Hok _ _ Hi) as [_ Hdown], (Hok _ _ Hj) as [Hup _].
  apply lookup_lt_Some in Hi, Hj. unfold taken, replied in *.
  destruct (server s); repeat case_decide; lia.
Qed.

(** How far the server is from sending its next reply. *)
Definition to_reply (s : net) : nat :=
  match server s with
  | Receiving j => length (conns s) - j + 2
  | Sending j => if decide (j < length (conns s))%nat then 1 else length (conns s) + 3
  end.

Definition all_wait (s : net) : Prop := ∀ i c, conns s !! i = Some c → waiting c = true.

(** One step of the server when every client waits and no reply is under way. *)
Lemma server_moves s :
  (0 < length (conns s))%nat → net_ok s → all_wait s → (∀ i c, conns s !! i = Some c → down c = []) →
  ∃ s', barrier_step full_read s s' ∧ all_wait s' ∧ length (conns s') = length (conns s) ∧
    ((∃ i c, conns s' !! i = Some c ∧ down c ≠ []) ∨ (to_reply s' < to_reply s)%nat).
Proof.
  intros Hn [Hpos Hok] Hwait Hdown. destruct s as [cs sv lp]. cbn in Hn, Hpos, Hok, Hwait, Hdown.
  assert (∀ i c c', cs !! i = Some c → waiting c' = true → ∀ sv' lp', all_wait (mkNet (<[i := c']> cs) sv' lp'))
    as Hkeep.
  { intros i c c' Hi Hc' sv' lp' j d Hd. cbn in Hd.
    apply list_lookup_insert_Some in Hd as [(_ & <- & _)|[_ Hd]]; [done|by eapply Hwait]. }
  destruct sv as [j|j].
  - destruct (decide (j < length cs)%nat) as [Hlt|Hge].
    + destruct (lookup_lt_is_Some_2 cs j Hlt) as [c Hj]. destruct (Hok _ _ Hj) as [Hup Hd].
      rewrite (Hdown _ _ Hj) in Hd. cbn in Hup, Hd. unfold arrived in Hup. rewrite (Hwait _ _ Hj) in Hup.
      unfold taken, replied in *. case_decide; [lia|].
      assert (up c ≠ []) as Hne by (intros E; rewrite E in Hup; cbn in Hup; lia).
      eexists. split; [by eapply server_receives|]. split; [eapply Hkeep; [exact Hj|exact (Hwait _ _ Hj)]|].
      unfold to_reply. cbn. rewrite !length_insert. split; [done|right; lia].
    + assert (j = length cs) as -> by lia. eexists. split; [apply server_turns|]. split; [done|].
      split; [done|]. right. unfold to_reply. cbn. case_decide; lia.
  - destruct (decide (j < length cs)%nat) as [Hlt|Hge].
    + destruct (lookup_lt_is_Some_2 cs j Hlt) as [c Hj]. eexists. split; [by eapply server_sends|].
      split; [eapply Hkeep; [exact Hj|exact (Hwait _ _ Hj)]|]. cbn. rewrite length_insert. split; [done|left].
      eexists j, _. split; [by apply list_lookup_insert_eq|]. cbn. intros E.
      apply (f_equal length) in E. rewrite length_app, ack_length in E. cbn in E. lia.
    + assert (j = length cs) as -> by lia. eexists. split; [apply server_finishes|]. split; [done|].
      split; [done|]. right. unfold to_reply. cbn. case_decide; lia.
Qed.

(** C15: the stop barrier does not block. With at least one client and reads that return whole
    messages, from every reachable state in which all clients wait in [Stop], the server and the clients can go on so that one of them gets out. *)
Theorem stop_barrier_progress n s :
  (0 < n)%nat → star (barrier_step full_read) (net_start n) s → all_wait s →
  ∃ s' i c, star (barrier_step full_read) s s' ∧ conns s' !! i = Some c ∧ waiting c = false.
Proof.
  intros Hn Hs Hwait.
  assert (net_ok s ∧ length (conns s) = n) as [Hok Hlen].
  { apply (star_invariant (barrier_step full_read) (λ s, net_ok s ∧ length (conns s) = n) (net_start n)).
    - intros a b [Ha Hl] Hab. split; [by eapply net_ok_step|]. destruct Hab; cbn in *; by rewrite ?length_insert.
    - split; [apply net_ok_start|apply length_replicate].
    - done. }
  clear Hs. rewrite <- Hlen in Hn. clear Hlen. remember (to_reply s) as d eqn:Hd. revert s Hd Hok Hwait Hn.
  induction d as [d IH] using lt_wf_ind. intros s Hd Hok Hwait Hn.
  assert (∀ t, net_ok t → all_wait t → ∀ i c, conns t !! i = Some c → down c ≠ [] →
    ∃ s' i' c', star (barrier_step full_read) t s' ∧ conns s' !! i' = Some c' ∧ waiting c' = false) as Hout.
  { intros [cs sv lp] _ Hw i c Hi Hne. cbn in Hi. eexists _, i, _. split; [|split].
    - apply star_one. eapply client_receives; [exact Hi|by eapply Hw|exact Hne|done].
    - cbn. apply list_lookup_insert_eq. by eapply lookup_lt_Some.
    - done. }
  destruct (decide (Exists (λ c, down c ≠ []) (conns s))) as [Hex|Hno].
  { apply Exists_exists in Hex as (c & Hin & Hne). apply list_elem_of_lookup in Hin as [i Hi]. by eapply Hout. }
  destruct (server_moves s Hn Hok Hwait) as (s1 & Hs1 & Hw1 & Hl1 & Hcase).
  { intros i c Hi. destruct (down c) eqn:E; [done|]. destruct Hno. apply Exists_exists.
    exists c. split; [by eapply list_elem_of_lookup_2|]. by rewrite E. }
  pose proof (net_ok_step _ _ Hok Hs1) as Hok1. destruct Hcase as [(i & c & Hi & Hne)|Hlt].
  - destruct (Hout s1 Hok1 Hw1 i c Hi Hne) as (s' & i' & c' & Hst & Hr). exists s', i', c'.
    split; [by eapply star_step|done].
  - destruct (IH (to_reply s1) ltac:(lia) s1 eq_refl Hok1 Hw1 ltac:(lia)) as (s' & i' & c' & Hst & Hr).
    exists s', i', c'. split; [by eapply star_step|done].
Qed.

(** One step of an explicit run. *)
Tactic Notation "bar" uconstr(r) :=
  eapply star_step; [eapply r; try reflexivity; vm_compute; first [reflexivity|discriminate|lia]|].

(** Short reads break the barrier. A stream socket may deliver fewer bytes than were
    asked for, and the code does not look at the count: the rest of the first message then
    counts as the next one, and of two clients one leaves [Stop] a second time although the
    other has called it only once. *)
Theorem short_read_breaks_barrier :
  ∃ s c d, star (barrier_step any_read) (net_start 2) s ∧
    conns s !! 0%nat = Some c ∧ conns s !! 1%nat = Some d ∧
    left_stop c = 2%nat ∧ arrived d = 1%nat.
Proof.
  eexists. do 2 eexists. split.
  - bar (client_sends _ _ _ _ 0).
    bar (client_sends _ _ _ _ 1).
    bar (server_receives _ _ _ 0 _ 33).
    bar (server_receives _ _ _ 1 _ 1).
    bar server_turns.
    bar server_sends.
    bar server_sends.
    bar server_finishes.
    bar (client_receives _ _ _ _ 0 _ 33).
    bar (client_sends _ _ _ _ 0).
    bar (server_receives _ _ _ 0 _ 33).
    bar (server_receives _ _ _ 1 _ 32).
    bar server_turns.
    bar server_sends.
    bar server_sends.
    bar (client_receives _ _ _ _ 0 _ 33).
    apply star_refl.
  - vm_compute. split_and!; reflexivity.
Qed.

(** Two clients in the barrier, the server about to reply. *)
Definition two_waiting : net :=
  mkNet [mkConn 0 true [] []; mkConn 0 true [] []] (Sending 0) 0.

Lemma two_waiting_reachable : star (barrier_step full_read) (net_start 2) two_waiting.
Proof.
  bar (client_sends _ _ _ _ 0).
  bar (client_sends _ _ _ _ 1).
  eapply star_step; [by apply (server_receives _ _ _ 0 (mkConn 0 true ack []) 33)|].
  eapply star_step; [by apply (server_receives _ _ _ 1 (mkConn 0 true ack []) 33)|].
  bar server_turns. apply star_refl.
Qed.

Lemma stop_barrier_progress_witness :
  ∃ s' i c, star (barrier_step full_read) two_waiting s' ∧ conns s' !! i = Some c ∧ waiting c = false.
Proof.
  apply (stop_barrier_progress 2).
  - lia.
  - apply two_waiting_reachable.
  - intros [|[|i]] c Hi; [by injection Hi as <-|by injection Hi as <-|discriminate Hi].
Defined.

Lemma stop_barrier_safe_witness : (0 ≤ 1)%nat.
Proof.
  apply (stop_barrier_safe 2 two_waiting 0 1 (mkConn 0 true [] []) (mkConn 0 true [] [])).
  - apply two_waiting_reachable.
  - reflexivity.
  - reflexivity.
Defined.
