(* ===== verification/Cli.v ===== *)
(** * [sss::ArgMap] (vendor/sss/cli.h): command-line arguments

    [std::map] is a [gmap] whose iteration order is the order of the flags. Doubles and
    [std::stod] are parameters. A method returns its [std::optional<std::string>] error
    and the object, which keeps what was stored before an error. *)
From stdpp Require Import pretty sorting.
From Stdlib Require Import Ascii String.
From S2P Require Import Prelude.
#[local] Open Scope string_scope.

(** ** [std::stoi] *)
Definition is_space (c : ascii) : bool :=
  let n := N_of_ascii c in (9 <=? n)%N && (n <=? 13)%N || (n =? 32)%N.
Definition digit (c : ascii) : option Z :=
  let n := N_of_ascii c in
  if (48 <=? n)%N && (n <=? 57)%N then Some (Z.of_N n - 48) else None.

(** The longest prefix of digits, after [acc]. *)
Fixpoint digits (acc : Z) (s : string) : Z :=
  match s with
  | String c s' => match digit c with Some d => digits (acc * 10 + d) s' | None => acc end
  | EmptyString => acc
  end.
Fixpoint skip_spaces (s : string) : string :=
  match s with String c s' => if is_space c then skip_spaces s' else s | EmptyString => s end.

(** Throws [invalid_argument] without a digit and [out_of_range] beyond [int]. *)
Definition stoi (s : string) : result Z :=
  let '(sign, s) := match skip_spaces s with
                    | String "-" s' => (-1, s')
                    | String "+" s' => (1, s')
                    | s' => (1, s')
                    end in
  match s with
  | String c _ =>
      match digit c with
      | Some _ =>
          let n := sign * digits 0 s in
          if ((INT_MIN <=? n) && (n <=? INT_MAX))%Z then Done n else Fault FThrow
      | None => Fault FThrow
      end
  | EmptyString => Fault FThrow
  end.

Lemma stoi_defined s : stoi s ≠ Fault FUndef.
Proof.
  unfold stoi. destruct (match skip_spaces s with | String "-" s' => _ | _ => _ end) as [sign s'].
  destruct s' as [|c s']; [done|]. destruct (digit c); [|done]. cbv zeta. by destruct (_ && _).
Qed.

Lemma digit_cases n : (n < 10)%N →
  (n = 0 ∨ n = 1 ∨ n = 2 ∨ n = 3 ∨ n = 4 ∨ n = 5 ∨ n = 6 ∨ n = 7 ∨ n = 8 ∨ n = 9)%N.
Proof. lia. Qed.

Lemma digit_pretty n : (n < 10)%N → digit (pretty_N_char n) = Some (Z.of_N n).
Proof.
  intros Hn. by destruct (digit_cases n Hn) as [->|[->|[->|[->|[->|[->|[->|[->|[->| ->]]]]]]]]].
Qed.

Lemma digits_pretty x s : digits 0 (pretty_N_go x s) = digits (Z.of_N x) s.
Proof.
  revert s. induction (N.lt_wf_0 x) as [x _ IH]; intros s.
  destruct (decide (0 < x)%N) as [Hx|Hx]; [|by replace x with 0%N by lia].
  rewrite pretty_N_go_step, IH by (done || apply N.div_lt; lia). cbn [digits].
  rewrite digit_pretty by (apply N.mod_lt; lia). f_equal.
  pose proof (N.div_mod x 10 ltac:(lia)). lia.
Qed.

Lemma pretty_head x s : (0 < x)%N → ∃ d s', (d < 10)%N ∧ pretty_N_go x s = String (pretty_N_char d) s'.
Proof.
  revert s. induction (N.lt_wf_0 x) as [x _ IH]; intros s Hx.
  rewrite pretty_N_go_step by done. destruct (decide (0 < x / 10)%N) as [Hd|Hd].
  - apply IH; [apply N.div_lt; lia|done].
  - rewrite (proj1 (N.le_0_r _) (proj1 (N.nlt_ge _ _) Hd)). exists (x mod 10)%N, s. split; [apply N.mod_lt; lia|done].
Qed.

Lemma pretty_shape z : (0 ≤ z)%Z → ∃ d s', (d < 10)%N ∧ pretty z = String (pretty_N_char d) s' ∧ digits 0 (pretty z) = z.
Proof.
  intros Hz. destruct z as [|p|p]; [by exists 0%N, ""|change (pretty (Z.pos p)) with (pretty (N.pos p))|lia].
  unfold pretty, pretty_N. rewrite decide_False by lia.
  destruct (pretty_head (N.pos p) "" ltac:(lia)) as (d & s' & Hd & E). exists d, s'.
  rewrite digits_pretty. done.
Qed.

Lemma pretty_not_dash z : (0 ≤ z)%Z → pretty z ≠ "" ∧ ∀ s, pretty z ≠ String "-" s.
Proof.
  intros Hz. destruct (pretty_shape z Hz) as (d & s' & Hd & -> & _). split; [done|].
  intros s. by destruct (digit_cases d Hd) as [->|[->|[->|[->|[->|[->|[->|[->|[->| ->]]]]]]]]].
Qed.

Lemma stoi_pretty z : (0 ≤ z ≤ INT_MAX)%Z → stoi (pretty z) = Done z.
Proof.
  intros [Hz Hmax]. destruct (pretty_shape z Hz) as (d & s' & Hd & E & Hdig).
  assert (stoi (String (pretty_N_char d) s') =
    let n := 1 * digits 0 (String (pretty_N_char d) s') in
    if ((INT_MIN <=? n) && (n <=? INT_MAX))%Z then Done n else Fault FThrow) as Hst.
  { by destruct (digit_cases d Hd) as [->|[->|[->|[->|[->|[->|[->|[->|[->| ->]]]]]]]]]. }
  rewrite E in *. rewrite Hst, Hdig. cbv zeta. rewrite Z.mul_1_l.
  by rewrite !(proj2 (Z.leb_le _ _)) by (unfold INT_MIN; lia).
Qed.

Inductive ArgValType := I64 | F64 | STR | BOOL.
#[export] Instance ArgValType_eq_dec : EqDecision ArgValType.
Proof. solve_decision. Defined.

Section cli.
Context {F : Type} (stod : string → result F).

Inductive value_t := VI64 (z : Z) | VF64 (f : F) | VSTR (s : string) | VBOOL (b : bool).

Record Arg := mkArg { flag : string; description : string; type : ArgValType; value : option value_t }.

Definition STR_ARG_OPT f desc (d : string) : Arg := mkArg f desc STR (Some (VSTR d)).
Definition STR_ARG f desc : Arg := mkArg f desc STR None.
Definition BOOL_ARG_OPT f desc : Arg := mkArg f desc BOOL (Some (VBOOL false)).
Definition I64_ARG_OPT f desc (d : Z) : Arg := mkArg f desc I64 (Some (VI64 d)).
Definition I64_ARG f desc : Arg := mkArg f desc I64 None.
Definition F64_ARG_OPT f desc (d : F) : Arg := mkArg f desc F64 (Some (VF64 d)).
Definition F64_ARG f desc : Arg := mkArg f desc F64 None.

Record ArgMap := mkArgs { args : gmap string Arg; program_name : string }.
Definition ArgMap_new : ArgMap := mkArgs ∅ "".

Definition starts_dash (s : string) : bool :=
  match s with String "-" _ => true | _ => false end.

(** The loop of [import_args]. *)
Fixpoint import_loop (l : list Arg) (m : gmap string Arg) : option string * gmap string Arg :=
  match l with
  | [] => (None, m)
  | c :: l' =>
      if bool_decide (String.length (flag c) < 2)%nat || negb (starts_dash (flag c)) then
        (Some ("Error: invalid flag `" +:+ flag c +:+ "`"), m)
      else match m !! flag c with
      | Some _ => (Some ("Error: duplicate flag `" +:+ flag c +:+ "`"), m)
      | None => import_loop l' (<[flag c := c]> m)
      end
  end.

Definition import_args (l : list Arg) (a : ArgMap) : option string * ArgMap :=
  if bool_decide (program_name a = "") then
    let '(e, m) := import_loop l (args a) in (e, mkArgs m (program_name a))
  else (Some "Error: cannot call import_args() after parse_args()", a).

Definition set_value (a : Arg) (v : value_t) : Arg := mkArg (flag a) (description a) (type a) (Some v).

(** The value of the text [s] for an argument of type [t] that takes one. *)
Definition parse_value (t : ArgValType) (s : string) : result value_t :=
  match t with
  | I64 => z ← stoi s; Done (VI64 z)
  | F64 => f ← stod s; Done (VF64 f)
  | STR => Done (VSTR s)
  | BOOL => Done (VBOOL true)
  end.

(** The loop over [argv[1]], ...; [*next.begin()] is undefined on an empty string. *)
Fixpoint parse_loop (argv : list string) (m : gmap string Arg) : result (option string * gmap string Arg) :=
  match argv with
  | [] => Done (None, m)
  | ca :: rest =>
      match m !! ca with
      | None => Done (Some ("Error: unrecognized argument `" +:+ ca +:+ "`"), m)
      | Some a =>
          if bool_decide (type a = BOOL) then parse_loop rest (<[ca := set_value a (VBOOL true)]> m)
          else match rest with
          | [] => Done (Some ("Error: argument `" +:+ ca +:+ "` requires a value"), m)
          | next :: rest' =>
              _ ← rome_undef (bool_decide (next ≠ ""));
              if starts_dash next then
                Done (Some ("Error: argument `" +:+ ca +:+ "` requires a value"), m)
              else
                v ← parse_value (type a) next;
                parse_loop rest' (<[ca := set_value a v]> m)
          end
      end
  end.

(** The flags in the order of the map. *)
Definition string_le (s t : string) : Prop := String.leb s t = true.
#[local] Instance string_le_dec : RelDecision string_le.
Proof. intros s t. unfold string_le. apply _. Defined.
Definition flags (m : gmap string Arg) : list string := merge_sort string_le (map_to_list m).*1.

(** The first argument without a value. *)
Definition missing (m : gmap string Arg) : option Arg :=
  list_find (λ a : Arg, ¬ is_Some (value a)) (omap (m !!.) (flags m)) ≫= λ p, Some p.2.

(** [parse_args(argc, argv)]: [prog] is [basename(argv[0])]. *)
Definition parse_args (prog : string) (argv : list string) (a : ArgMap) : result (option string * ArgMap) :=
  if bool_decide (program_name a = "") then
    '(e, m) ← parse_loop argv (args a);
    Done (match e with
          | Some _ => e
          | None => match missing m with
                    | Some x => Some ("Error: `" +:+ flag x +:+ "` is required")
                    | None => None
                    end
          end, mkArgs m prog)
  else Done (Some "Error: parse_args() should only be called once!", a).

(** Getters: a missing flag dereferences [end()], a missing value and a wrong
    alternative throw. *)
Definition value_of (a : ArgMap) (f : string) : result value_t :=
  x ← defined (args a !! f); or_throw (value x).
Definition bget (a : ArgMap) (f : string) : result bool :=
  v ← value_of a f; match v with VBOOL b => Done b | _ => Fault FThrow end.
Definition iget (a : ArgMap) (f : string) : result Z :=
  v ← value_of a f; match v with VI64 z => Done z | _ => Fault FThrow end.
Definition fget (a : ArgMap) (f : string) : result F :=
  v ← value_of a f; match v with VF64 x => Done x | _ => Fault FThrow end.
Definition sget (a : ArgMap) (f : string) : result string :=
  v ← value_of a f; match v with VSTR s => Done s | _ => Fault FThrow end.

(** ** Types of the stored values *)
Implicit Types (m : gmap string Arg) (a : Arg).

Definition value_type (v : value_t) : ArgValType :=
  match v with VI64 _ => I64 | VF64 _ => F64 | VSTR _ => STR | VBOOL _ => BOOL end.
Definition arg_ok a : Prop := ∀ v, value a = Some v → value_type v = type a.
Definition args_ok m : Prop := map_Forall (λ _ a, arg_ok a) m.

Lemma parse_value_type t s v : parse_value t s = Done v → value_type v = t.
Proof. destruct t; cbn; intros E; done_inv; done. Qed.

Lemma set_value_ok m f a v :
  args_ok m → value_type v = type a → args_ok (<[f := set_value a v]> m).
Proof. intros Hm Hv. apply map_Forall_insert_2; [|done]. intros w [= <-]. done. Qed.

Lemma import_loop_spec l m m' :
  Forall arg_ok l → args_ok m → import_loop l m = (None, m') →
  args_ok m' ∧ (∀ f a, m !! f = Some a → m' !! f = Some a) ∧ ∀ a, a ∈ l → m' !! flag a = Some a.
Proof.
  intros Hl. revert m. induction Hl as [|c l Hc Hl IH]; intros m Hm; cbn.
  { intros [= <-]. split_and!; [done..|]. by intros a ?%elem_of_nil. }
  destruct (_ || _); [done|]. destruct (m !! flag c) eqn:E; [done|].
  intros E'. destruct (IH _ (map_Forall_insert_2 _ _ _ _ Hc Hm) E') as (H1 & H2 & H3).
  split_and!; [done| |].
  - intros f a Hf. apply H2. rewrite lookup_insert_ne; [done|]. congruence.
  - intros a [->|Ha]%elem_of_cons; [|by apply H3]. apply H2, lookup_insert_eq.
Qed.

(** Parsing keeps the flags and their types. *)
Lemma parse_loop_spec argv m e m' :
  args_ok m → parse_loop argv m = Done (e, m') →
  args_ok m' ∧ ∀ f, type <$> m' !! f = type <$> m !! f.
Proof.
  remember (length argv) as n eqn:Hn. revert argv Hn m.
  induction n as [n IH] using lt_wf_ind. intros [|ca rest] -> m Hm; cbn.
  { intros E. by apply done_pair in E as [_ <-]. }
  destruct (m !! ca) as [a|] eqn:Ha; [|by intros E; apply done_pair in E as [_ <-]].
  assert (Hstep : ∀ v l, value_type v = type a → (length l < S (length rest))%nat →
    parse_loop l (<[ca := set_value a v]> m) = Done (e, m') →
    args_ok m' ∧ ∀ f, type <$> m' !! f = type <$> m !! f).
  { intros v l Hv Hlen E. destruct (IH (length l) Hlen l eq_refl _ (set_value_ok _ _ _ _ Hm Hv) E) as [? Ht].
    split; [done|]. intros f. rewrite Ht. destruct (decide (ca = f)) as [<-|].
    - by rewrite lookup_insert_eq, Ha.
    - by rewrite lookup_insert_ne. }
  case_bool_decide as Hb; [apply Hstep; [done|lia]|].
  destruct rest as [|next rest]; [by intros E; apply done_pair in E as [_ <-]|].
  destruct (rome_undef _); cbn; [|done].
  destruct (starts_dash next); [by intros E; apply done_pair in E as [_ <-]|].
  intros E. apply bind_done_inv in E as (v & Hv & E). eapply Hstep; [by eapply parse_value_type| |done].
  cbn. lia.
Qed.

Lemma missing_None m f a : missing m = None → m !! f = Some a → is_Some (value a).
Proof.
  intros Hmiss Hf. apply bind_None in Hmiss as [Hn|(p & _ & [=])].
  rewrite list_find_None, Forall_forall in Hn. destruct (decide (is_Some (value a))) as [|Hno]; [done|].
  destruct (Hn a); [|done]. apply list_elem_of_omap. exists f. split; [|done].
  unfold flags. rewrite merge_sort_Permutation. apply (list_elem_of_fmap_2 fst _ (f, a)).
  by apply elem_of_map_to_list.
Qed.

(** When importing and parsing report no error, every imported argument has a value
    of its declared type, so its getter neither throws nor runs off the map. *)
Theorem parsed_args_usable l prog argv (am am' : ArgMap) :
  Forall arg_ok l → import_args l ArgMap_new = (None, am) →
  parse_args prog argv am = Done (None, am') →
  ∀ a, a ∈ l → ∃ v, value_of am' (flag a) = Done v ∧ value_type v = type a.
Proof.
  intros Hl Himp Hparse a Ha. unfold import_args in Himp. cbn in Himp.
  destruct (import_loop l ∅) as [e m] eqn:El. injection Himp as -> <-.
  destruct (import_loop_spec _ _ _ Hl (map_Forall_empty _) El) as (Hok & _ & Hin).
  unfold parse_args in Hparse. cbn in Hparse.
  apply bind_done_inv in Hparse as ([e' m'] & Hp & Hparse).
  apply done_pair in Hparse as [He <-]. destruct e'; [done|].
  destruct (missing m') eqn:Hm; [done|]. clear He.
  destruct (parse_loop_spec _ _ _ _ Hok Hp) as [Hok' Ht]. specialize (Ht (flag a)).
  rewrite (Hin _ Ha) in Ht. destruct (m' !! flag a) as [a'|] eqn:Ea; [|done]. injection Ht as Ht.
  destruct (missing_None _ _ _ Hm Ea) as [v Hv]. exists v.
  unfold value_of. cbn. rewrite Ea, defined_Some, bind_done, Hv. split; [done|].
  rewrite <- Ht. by apply (Hok' _ _ Ea).
Qed.

(** On words that are not empty parsing has no undefined behaviour: it throws at worst. *)
Lemma parse_loop_defined argv m :
  (∀ s, stod s ≠ Fault FUndef) → Forall (λ w, w ≠ "") argv → parse_loop argv m ≠ Fault FUndef.
Proof.
  intros Hstod. remember (length argv) as n eqn:Hn. revert argv Hn m.
  induction n as [n IH] using lt_wf_ind. intros [|ca rest] -> m Hne; cbn; [done|].
  apply Forall_cons in Hne as [_ Hne]. destruct (m !! ca) as [a|]; [|done].
  case_bool_decide; [by apply (IH (length rest)); [cbn; lia|..]|].
  destruct rest as [|next rest]; [done|]. apply Forall_cons in Hne as [Hw Hne].
  rewrite bool_decide_eq_true_2 by done. cbn. destruct (starts_dash next); [done|].
  assert (parse_value (type a) next ≠ Fault FUndef) as Hp.
  { pose proof (stoi_defined next). specialize (Hstod next).
    destruct (type a); cbn; [by destruct (stoi next) as [|[]]|by destruct (stod next) as [|[]]|done..]. }
  destruct (parse_value (type a) next) as [v|f]; cbn; [|congruence].
  apply (IH (length rest)); [cbn; lia|done..].
Qed.

Lemma parse_args_defined prog argv (am : ArgMap) :
  (∀ s, stod s ≠ Fault FUndef) → Forall (λ w, w ≠ "") argv → parse_args prog argv am ≠ Fault FUndef.
Proof.
  intros Hs Hw. unfold parse_args. case_bool_decide; [|done].
  pose proof (parse_loop_defined argv (args am) Hs Hw) as Hp. by destruct (parse_loop argv (args am)) as [[??]|[]].
Qed.

(** ** Printing a configuration and parsing it back *)
Inductive setting :=
| SetBool (f : string)
| SetInt (f : string) (z : Z)
| SetStr (f s : string)
| SetReal (f text : string) (x : F).

Definition setting_flag (s : setting) : string :=
  match s with SetBool f => f | SetInt f _ => f | SetStr f _ => f | SetReal f _ _ => f end.
Definition setting_value (s : setting) : value_t :=
  match s with
  | SetBool _ => VBOOL true | SetInt _ z => VI64 z | SetStr _ x => VSTR x | SetReal _ _ x => VF64 x
  end.

(** The words of the command line. *)
Definition words (s : setting) : list string :=
  match s with
  | SetBool f => [f] | SetInt f z => [f; pretty z] | SetStr f x => [f; x] | SetReal f t _ => [f; t]
  end.

(** What the format can express: no value that is empty or starts with a dash, and
    only [int] values. *)
Definition setting_ok (m : gmap string Arg) (s : setting) : Prop :=
  type <$> m !! setting_flag s = Some (value_type (setting_value s)) ∧
  match s with
  | SetBool _ => True
  | SetInt _ z => (0 ≤ z ≤ INT_MAX)%Z
  | SetStr _ x => x ≠ "" ∧ starts_dash x = false
  | SetReal _ t x => t ≠ "" ∧ starts_dash t = false ∧ stod t = Done x
  end.

Definition store (m : gmap string Arg) (s : setting) : gmap string Arg :=
  alter (λ a, set_value a (setting_value s)) (setting_flag s) m.

Lemma starts_dash_spec s : starts_dash s = true → ∃ s', s = String "-" s'.
Proof.
  destruct s as [|c s]; [done|]. intros E. exists s. f_equal.
  destruct c as [[] [] [] [] [] [] [] []]; done.
Qed.

(** The value words of a setting are accepted. *)
Lemma setting_word m s f t :
  setting_ok m s → words s = [f; t] →
  t ≠ "" ∧ starts_dash t = false ∧ parse_value (value_type (setting_value s)) t = Done (setting_value s).
Proof.
  destruct s; cbn; intros [_ Hok] [= <- <-].
  - destruct (pretty_not_dash z (proj1 Hok)) as [Hne Hd]. split; [done|]. split.
    + destruct (starts_dash (pretty z)) eqn:E; [|done]. by apply starts_dash_spec in E as [? ?%Hd].
    + by rewrite stoi_pretty.
  - by destruct Hok.
  - destruct Hok as (? & ? & ->). done.
Qed.

Lemma store_types m s f : type <$> store m s !! f = type <$> m !! f.
Proof.
  unfold store. destruct (decide (setting_flag s = f)) as [->|].
  - rewrite lookup_alter_eq. by destruct (m !! f).
  - by rewrite lookup_alter_ne.
Qed.

Lemma parse_setting m s rest :
  setting_ok m s → parse_loop (words s ++ rest)%list m = parse_loop rest (store m s).
Proof.
  intros Hok. pose proof Hok as [Ht _]. destruct (m !! setting_flag s) as [a|] eqn:Ea; [|done].
  injection Ht as Ht.
  assert (store m s = <[setting_flag s := set_value a (setting_value s)]> m) as ->.
  { unfold store. apply map_eq. intros f. destruct (decide (setting_flag s = f)) as [<-|].
    - by rewrite lookup_alter_eq, lookup_insert_eq, Ea.
    - by rewrite lookup_alter_ne, lookup_insert_ne. }
  destruct (words s) as [|f [|t [|? ?]]] eqn:Ew; try by destruct s.
  - destruct s; cbn in *; simplify_eq. cbn. by rewrite Ea, bool_decide_eq_true_2.
  - destruct (setting_word _ _ _ _ Hok Ew) as (Hne & Hd & Hp).
    assert (setting_flag s = f ∧ value_type (setting_value s) ≠ BOOL) as [<- Hnb]
      by (by destruct s; cbn in *; simplify_eq).
    cbn. rewrite Ea, bool_decide_eq_false_2, bool_decide_eq_true_2 by congruence. cbn.
    by rewrite Hd, Ht, Hp, bind_done.
Qed.

Lemma parse_settings m ss :
  Forall (setting_ok m) ss → parse_loop (ss ≫= words) m = Done (None, foldl store m ss).
Proof.
  revert m. induction ss as [|s ss IH]; intros m Hok; [done|]. apply Forall_cons in Hok as [Hs Hok].
  cbn -[parse_loop]. rewrite parse_setting by done. apply IH.
  eapply Forall_impl; [exact Hok|]. intros s' [Ht ?]. split; [|done]. by rewrite store_types.
Qed.

Lemma foldl_store_other m ss f :
  f ∉ setting_flag <$> ss → foldl store m ss !! f = m !! f.
Proof.
  revert m. induction ss as [|s ss IH]; intros m Hf; [done|].
  cbn in *. apply not_elem_of_cons in Hf as [Hne Hf]. rewrite IH by done.
  unfold store. by rewrite lookup_alter_ne.
Qed.

(** C38: printing a configuration as command-line words and parsing it gives it back, for
    settings the format can express: integers from 0 to [INT_MAX] (others throw,
    [wide_integer_throws]), strings that are not empty and do not start with a dash, reals that
    [std::stod] reads back. Then every flag has the last value set for it, the others keep their defaults, and the
    only possible error names the first required flag that is missing. *)
Theorem parse_args_roundtrip prog ss (am : ArgMap) :
  program_name am = "" → Forall (setting_ok (args am)) ss →
  ∃ e am', parse_args prog (ss ≫= words) am = Done (e, am') ∧
    e = (λ x, "Error: `" +:+ flag x +:+ "` is required") <$> missing (args am') ∧
    (∀ f, f ∉ setting_flag <$> ss → args am' !! f = args am !! f) ∧
    ∀ pre s post, ss = (pre ++ s :: post)%list → setting_flag s ∉ setting_flag <$> post →
      value_of am' (setting_flag s) = Done (setting_value s).
Proof.
  intros Hp Hok. unfold parse_args. rewrite Hp, bool_decide_eq_true_2 by done.
  rewrite (parse_settings _ _ Hok), bind_done. do 2 eexists. split; [reflexivity|]. split_and!.
  - cbn. by destruct (missing _).
  - intros f. apply foldl_store_other.
  - intros pre s post -> Hlast. unfold value_of. cbn. rewrite foldl_app. cbn.
    rewrite foldl_store_other by done. unfold store at 1. rewrite lookup_alter_eq.
    apply Forall_app in Hok as [_ [[Ht _] _]%Forall_cons].
    assert (type <$> foldl store (args am) pre !! setting_flag s = type <$> args am !! setting_flag s) as Hty.
    { clear. generalize (args am) as m. induction pre as [|s' pre IH]; intros m; [done|].
      cbn. by rewrite IH, store_types. }
    rewrite Ht in Hty. by destruct (foldl store (args am) pre !! setting_flag s).
Qed.
End cli.

(** ** Example: integer options are read as [int] *)
Definition example_args : list (@Arg Z) :=
  [I64_ARG "--key_ub" "upper bound"; BOOL_ARG_OPT "--help" "help"; STR_ARG_OPT "--exp" "file" "a.csv"].
Definition no_stod (s : string) : result Z := Fault FThrow.
Definition example_map : @ArgMap Z := (import_args example_args ArgMap_new).2.


Lemma parsed_args_usable_witness :
  ∃ am', parse_args no_stod "prog" ["--key_ub"; "100"; "--help"] example_map = Done (None, am') ∧
    ∃ v, value_of am' "--key_ub" = Done v ∧ value_type v = I64.
Proof.
  eexists. split; [reflexivity|].
  refine (parsed_args_usable no_stod example_args "prog" ["--key_ub"; "100"; "--help"] example_map _
    _ eq_refl eq_refl (I64_ARG "--key_ub" "upper bound") (list_elem_of_here _ _)).
  repeat constructor; intros ? [=]; by subst.
Defined.

Lemma parse_args_roundtrip_witness :
  ∃ e am', parse_args no_stod "prog" ["--key_ub"; "100"; "--help"] example_map = Done (e, am') ∧
    value_of am' "--key_ub" = Done (VI64 100).
Proof.
  destruct (parse_args_roundtrip no_stod "prog" [SetInt "--key_ub" 100; SetBool "--help"] example_map)
    as (e & am' & Hp & _ & _ & Hlast).
  - reflexivity.
  - constructor; [split; [reflexivity|unfold INT_MAX; lia]|]. constructor; [by split|constructor].
  - exists e, am'. split; [exact Hp|].
    apply (Hlast [] (SetInt "--key_ub" 100) [SetBool "--help"]); [done|].
    cbn. intros [=]%list_elem_of_singleton.
Defined.

(** A value of an [int64_t] option that does not fit [int] ends the program with an
    exception, although the option's type could hold it; a negative one is refused. *)
Lemma wide_integer_throws :
  parse_args no_stod "prog" ["--key_ub"; "4294967296"] example_map = Fault FThrow ∧
  (fst <$> parse_args no_stod "prog" ["--key_ub"; "-1"] example_map) =
    Done (Some "Error: argument `--key_ub` requires a value").
Proof. by split; vm_compute. Qed.
