(* ===== verification/Compete.v ===== *)
(** * The main program (iht/compete.cc)

    Every node reads its options, makes two lists of peers that differ in their ports,
    brings up two connection managers and exchanges an acknowledgement with every peer over
    each; then the node started with [--server] polls the other nodes until it has received
    a message, and the others send one message to node 0. The managers and their channels
    are given by an interface; a poll of an empty queue is undefined ([TryPollMessage]). *)
From stdpp Require Import pretty functions.
From S2P Require Import Prelude Status RemotePtr MemoryPool Cli Rpc.
#[local] Open Scope string_scope.
#[local] Open Scope Z_scope.

Definition PORT_NUM : Z := 18000.

(** What the program uses of a manager beyond connecting: messages on the channel of a
    connection. *)
Class Wire (C : Type) `{!CmOps C} := {
  send_ack : C → Z → Status * C;
  deliver_ack : C → Z → StatusVal unit * C;
  send_op : C → Z → IHTOPProto → Status * C;
  try_receive : C → Z → result (option IHTOPProto * C) }.

(** ** Peers *)
Record peer_lists := mkPeers { sends : list Peer; recvs : list Peer; self_sender : Peer; self_receiver : Peer }.
Definition no_peers : peer_lists := mkPeers [] [] Peer_default Peer_default.

(** The two entries of node [n]; ports are narrowed to 16 bits. *)
Definition send_next (n : Z) : Peer := mkPeer n ("node" +:+ pretty n) (u16 (PORT_NUM + n + 1)).
Definition recv_next (n : Z) : Peer := mkPeer n ("node" +:+ pretty n) (u16 (PORT_NUM + n + 1001)).

(** [for (uint16_t n = 0; n < node_count; n++)] *)
Fixpoint peer_loop (fuel : nat) (n node_id node_count : Z) (l : peer_lists) : result peer_lists :=
  if negb (n <? node_count) then Done l else
  match fuel with
  | O => Fault FFuel
  | S f =>
      let l := if n =? node_id then mkPeers (sends l) (recvs l) (send_next n) (recv_next n) else l in
      peer_loop f (u16 (n + 1)) node_id node_count
        (mkPeers (sends l ++ [send_next n]) (recvs l ++ [recv_next n]) (self_sender l) (self_receiver l))
  end.

Section compete.
Context {C : Type} `{!CmOps C} `{!Wire C}.

(** ** [init_cm] *)
Fixpoint send_acks (peers : list Peer) (c : C) : result (Status * C) :=
  match peers with
  | [] => Done (StatusOk, c)
  | p :: ps =>
      let '(conn, c) := cm_GetConnection c (peer_id p) in
      _ ← STATUSVAL_OR_DIE conn;
      h ← or_throw (sv_val conn);
      let '(s, c) := send_ack c h in
      RETURN_STATUS_ON_ERROR s (λ s, Done (s, c)) (send_acks ps c)
  end.

Fixpoint deliver_acks (peers : list Peer) (connections : gmap Z Z) (c : C) : result (Status * gmap Z Z * C) :=
  match peers with
  | [] => Done (StatusOk, connections, c)
  | p :: ps =>
      let '(conn, c) := cm_GetConnection c (peer_id p) in
      _ ← STATUSVAL_OR_DIE conn;
      h ← or_throw (sv_val conn);
      let '(got, c) := deliver_ack c h in
      RETURN_STATUS_ON_ERROR (sv_status got) (λ s, Done (s, connections, c))
        (deliver_acks ps (<[peer_id p := h]> connections) c)
  end.

Definition init_cm (fuel : nat) (c : C) (self : Peer) (peers : list Peer) : result (StatusVal (gmap Z Z) * C) :=
  let '(status, c) := cm_Start c (peer_address self) (peer_port self) in
  RETURN_STATUS_ON_ERROR status (λ s, Done (mkStatusVal s None, c))
  ('(s, c) ← connect_peers fuel peers c;
   if negb (is_ok s) then Done (mkStatusVal s None, c) else
   '(s, c) ← send_acks peers c;
   if negb (is_ok s) then Done (mkStatusVal s None, c) else
   '(s, connections, c) ← deliver_acks peers ∅ c;
   if negb (is_ok s) then Done (mkStatusVal s None, c) else
   Done (mkStatusVal StatusOk (Some connections), c)).

(** ** The server and the client *)
(** One pass over the other nodes; [connections[id]] is null where nothing is stored.
    The result is whether a message has been received. *)
Fixpoint poll_nodes (ids : list Z) (node_id : Z) (connections : gmap Z Z) (c : C) : result (bool * C) :=
  match ids with
  | [] => Done (false, c)
  | id :: ids =>
      if id =? node_id then poll_nodes ids node_id connections c else
      h ← defined (connections !! id);
      '(maybe_req, c) ← try_receive c h;
      '(got, c) ← poll_nodes ids node_id connections c;
      Done (bool_decide (is_Some maybe_req) || got, c)
  end.

Fixpoint serve (fuel : nat) (node_count node_id : Z) (connections : gmap Z Z) (c : C) : result C :=
  match fuel with
  | O => Fault FFuel
  | S f =>
      '(got, c) ← poll_nodes (seqZ 0 node_count) node_id connections c;
      if got : bool then Done c else serve f node_count node_id connections c
  end.

Definition client (connections : gmap Z Z) (c : C) : result C :=
  h ← defined (connections !! 0);
  let '(stat, c) := send_op c h (mkProto GET_RES 33 0) in
  _ ← rome_assert (is_ok stat);
  Done c.

(** ** [main] *)
Context {F : Type} (stod : string → result F).

Definition ARGS : list (@Arg F) :=
  [I64_ARG "--node_id" "The node's id. (nodeX in cloudlab should have X in this option)";
   I64_ARG "--thread_count" "How many threads to spawn with the operations";
   I64_ARG "--node_count" "How many nodes are in the experiment";
   I64_ARG_OPT "--cache_depth" "The depth of the cache for the IHT" 0;
   BOOL_ARG_OPT "--server" "If this node should send or receive data..."].

(** How the process ends, other than by an abort; its managers at the end of [main]. *)
Inductive ending := Exit (code : Z) | Returned (sender receiver : C).

(** From the parsed options on; [new_cm] is the constructor of the manager of the sending
    or the receiving side. *)
Definition run_node (fuel : nat) (new_sender new_receiver : Z → C) (node_id node_count : Z) (server : bool)
    : result ending :=
  l ← peer_loop fuel 0 node_id node_count no_peers;
  _ ← or_throw (sends l !! 0%nat);                          (* sends.at(0) *)
  '(s1, sender) ← init_cm fuel (new_sender (peer_id (self_sender l))) (self_sender l) (sends l);
  _ ← rome_assert (is_ok (sv_status s1));
  sender_map ← or_throw (sv_val s1);
  '(s2, receiver) ← init_cm fuel (new_receiver (peer_id (self_receiver l))) (self_receiver l) (recvs l);
  _ ← rome_assert (is_ok (sv_status s2));
  _ ← or_throw (sv_val s2);
  sender ← (if server : bool then serve fuel node_count node_id sender_map sender else client sender_map sender);
  Done (Returned sender receiver).

Definition main (fuel : nat) (new_sender new_receiver : Z → C) (prog : string) (argv : list string)
    : result ending :=
  let '(res, args) := import_args ARGS ArgMap_new in
  if bool_decide (is_Some res) then Done (Exit 1) else
  '(res, args) ← parse_args stod prog argv args;
  if bool_decide (is_Some (res : option string)) then Done (Exit 1) else
  node_count ← iget args "--node_count";
  if node_count <=? 0 then Done (Exit 1) else
  thread_count ← iget args "--thread_count";
  if thread_count <=? 0 then Done (Exit 1) else
  node_id ← iget args "--node_id";
  if node_count <=? node_id then Done (Exit 0) else
  server ← bget args "--server";
  run_node fuel new_sender new_receiver node_id node_count server.
End compete.

(** ** The lists of peers *)
Lemma peer_loop_spec fuel n node_id node_count l :
  0 ≤ n ≤ node_count → node_count < 2 ^ 16 → (Z.to_nat (node_count - n) ≤ fuel)%nat →
  peer_loop fuel n node_id node_count l = Done (mkPeers
    (sends l ++ (send_next <$> seqZ n (node_count - n))) (recvs l ++ (recv_next <$> seqZ n (node_count - n)))
    (if bool_decide (n ≤ node_id < node_count) then send_next node_id else self_sender l)
    (if bool_decide (n ≤ node_id < node_count) then recv_next node_id else self_receiver l)).
Proof.
  revert n l. induction fuel as [|f IH]; intros n l Hn Hmax Hf.
  { assert (node_count = n) as -> by lia. cbn. rewrite Z.ltb_irrefl, Z.sub_diag. cbn.
    rewrite bool_decide_eq_false_2, !app_nil_r by lia. by destruct l. }
  cbn [peer_loop]. destruct (Z.ltb_spec n node_count) as [Hlt|]; cbn [negb].
  2:{ assert (node_count = n) as -> by lia. rewrite Z.sub_diag. cbn.
      rewrite bool_decide_eq_false_2, !app_nil_r by lia. by destruct l. }
  assert (u16 (n + 1) = n + 1) as -> by (unfold u16; rewrite Z.mod_small; lia).
  rewrite IH by lia. cbn [sends recvs self_sender self_receiver].
  rewrite (seqZ_cons n (node_count - n)) by lia. replace (Z.pred (node_count - n)) with (node_count - (n + 1)) by lia.
  change (Z.succ n) with (n + 1). rewrite !fmap_cons.
  destruct (Z.eqb_spec n node_id) as [->|Hne]; cbn; rewrite <- !app_assoc; cbn.
  - by rewrite bool_decide_eq_false_2, bool_decide_eq_true_2 by lia.
  - by rewrite (bool_decide_ext (n + 1 ≤ node_id < node_count) (n ≤ node_id < node_count)) by lia.
Qed.

Lemma peer_loop_endless fuel n node_id node_count l :
  2 ^ 16 ≤ node_count → is_u 16 n → peer_loop fuel n node_id node_count l = Fault FFuel.
Proof.
  intros Hc. revert n l. induction fuel as [|f IH]; intros n l Hn; cbn [peer_loop]; unfold is_u in Hn;
    rewrite (proj2 (Z.ltb_lt _ _)) by lia; [done|]. apply IH. apply (wrap_is_u 16). lia.
Qed.

(** The lists of peers: up to 65535 nodes the loop ends after one round per node, with the
    nodes in order in both lists, the own entry of either list, and a port for the receiving
    side that differs from that of the sending side; from 65536 nodes on the 16-bit counter
    wraps and the loop never ends. *)
Theorem peer_lists_spec node_id node_count :
  (0 ≤ node_id < node_count → node_count < 2 ^ 16 → ∀ fuel, (Z.to_nat node_count ≤ fuel)%nat →
     ∃ l, peer_loop fuel 0 node_id node_count no_peers = Done l ∧
       (peer_id <$> sends l) = seqZ 0 node_count ∧ (peer_id <$> recvs l) = seqZ 0 node_count ∧
       sends l !! Z.to_nat node_id = Some (self_sender l) ∧ recvs l !! Z.to_nat node_id = Some (self_receiver l) ∧
       Forall2 (λ s r, peer_address s = peer_address r ∧ peer_port s ≠ peer_port r) (sends l) (recvs l)) ∧
  (2 ^ 16 ≤ node_count → ∀ fuel, peer_loop fuel 0 node_id node_count no_peers = Fault FFuel).
Proof.
  split; [|intros Hc fuel; apply peer_loop_endless; [done|unfold is_u; lia]].
  intros Hid Hc fuel Hf. rewrite peer_loop_spec by lia. rewrite Z.sub_0_r, bool_decide_eq_true_2 by lia.
  eexists. split; [done|]. cbn. rewrite <- !list_fmap_compose.
  assert (∀ g : Z → Peer, (∀ n, peer_id (g n) = n) → (peer_id ∘ g) <$> seqZ 0 node_count = seqZ 0 node_count) as Hids.
  { intros g Hg. rewrite <- (list_fmap_id (seqZ 0 node_count)) at 2. apply list_fmap_ext. intros i x _. apply Hg. }
  rewrite !Hids by done. do 2 (split; [done|]).
  rewrite !list_lookup_fmap, lookup_seqZ_lt by lia. cbn. rewrite Z2Nat.id by lia. do 2 (split; [done|]).
  apply Forall2_fmap, Forall_Forall2_diag, Forall_forall. intros n _. split; [done|]. cbn. unfold u16, PORT_NUM.
  intros E. Z.to_euclidean_division_equations. lia.
Qed.

Lemma peer_lists_spec_witness :
  ∃ l, peer_loop 3 0 1 3 no_peers = Done l ∧ (peer_id <$> sends l) = [0; 1; 2] ∧
    sends l !! 1%nat = Some (self_sender l).
Proof.
  destruct (proj1 (peer_lists_spec 1 3) ltac:(lia) ltac:(lia) 3%nat ltac:(lia)) as (l & Hl & Hs & _ & Hself & _).
  exists l. split; [exact Hl|]. split; [exact Hs|exact Hself].
Defined.

Section proofs.
Context {C : Type} `{!CmOps C} `{!Wire C}.

(** ** Bringing up a manager *)
Lemma deliver_acks_spec peers m (c : C) s m' c' :
  deliver_acks peers m c = Done (s, m', c') → st_t s = Ok →
  ∀ i, is_Some (m' !! i) ↔ is_Some (m !! i) ∨ ∃ p, p ∈ peers ∧ peer_id p = i.
Proof.
  revert m c. induction peers as [|p ps IH]; intros m c; cbn.
  { intros [= <- <- <-] _ i. split; [by left|]. intros [?|(p & Hp & _)]; [done|by apply elem_of_nil in Hp]. }
  destruct (cm_GetConnection c (peer_id p)) as [conn c1]. intros Hr Hok i.
  apply bind_done_inv in Hr as (u & _ & Hr). apply bind_done_inv in Hr as (h & _ & Hr).
  destruct (deliver_ack c1 h) as [got c2]. unfold RETURN_STATUS_ON_ERROR in Hr.
  destruct (is_ok (sv_status got)) eqn:Eg.
  - rewrite (IH _ _ Hr Hok i). split.
    + intros [Hi|(q & Hq & Hi)]; [|right; exists q; by rewrite elem_of_cons; auto].
      apply lookup_insert_is_Some in Hi as [Hi|[_ Hi]]; [|by left]. right. exists p. split; [apply list_elem_of_here|done].
    + intros [Hi|(q & Hq & Hi)]; [left; by apply lookup_insert_is_Some'; right|].
      apply elem_of_cons in Hq as [->|Hq]; [left; apply lookup_insert_is_Some'; by left|right; by exists q].
  - apply bind_done_inv in Hr as (msg & _ & Hr). injection Hr as <- <- <-.
    by rewrite (proj2 (is_ok_true _) Hok) in Eg.
Qed.

(** An early return with a status. *)
Lemma leave_inv {A} s (leave : Status → result A) k r :
  RETURN_STATUS_ON_ERROR s leave k = Done r → (st_t s = Ok ∧ k = Done r) ∨ (st_t s ≠ Ok ∧ leave s = Done r).
Proof.
  unfold RETURN_STATUS_ON_ERROR. destruct (is_ok s) eqn:E.
  - left. by apply is_ok_true in E.
  - intros Hr. apply bind_done_inv in Hr as (m & _ & Hr). right. split; [|done].
    intros Hok. by rewrite (proj2 (is_ok_true _) Hok) in E.
Qed.

Lemma not_ok_inv {A} s (a b : result A) r :
  (if negb (is_ok s) then a else b) = Done r → (st_t s = Ok ∧ b = Done r) ∨ (st_t s ≠ Ok ∧ a = Done r).
Proof.
  destruct (is_ok s) eqn:E; cbn; [left; by apply is_ok_true in E|]. right. split; [|done].
  intros Hok. by rewrite (proj2 (is_ok_true _) Hok) in E.
Qed.

Definition maps_peers (peers : list Peer) (sv : StatusVal (gmap Z Z)) : Prop :=
  (st_t (sv_status sv) = Ok ↔ is_Some (sv_val sv)) ∧
  ∀ m, sv_val sv = Some m → ∀ i, is_Some (m !! i) ↔ ∃ p, p ∈ peers ∧ peer_id p = i.

Lemma maps_error peers s : st_t s ≠ Ok → maps_peers peers (mkStatusVal s None).
Proof. intros Hs. split; [split; [done|by intros [? ?]]|done]. Qed.

(** [init_cm] reports [Ok] exactly when it returns connections, and then there is one for
    every peer of the list and none for anybody else. *)
Lemma init_cm_post fuel (c : C) self peers sv c' :
  init_cm fuel c self peers = Done (sv, c') → maps_peers peers sv.
Proof.
  unfold init_cm. destruct (cm_Start c _ _) as [st c0]. intros Hr.
  apply leave_inv in Hr as [[_ Hr]|[Hs [= <- <-]]]; [|by apply maps_error].
  apply bind_done_inv in Hr as ([s1 c1] & _ & Hr). apply not_ok_inv in Hr as [[_ Hr]|[Hs [= <- <-]]]; [|by apply maps_error].
  apply bind_done_inv in Hr as ([s2 c2] & _ & Hr). apply not_ok_inv in Hr as [[_ Hr]|[Hs [= <- <-]]]; [|by apply maps_error].
  apply bind_done_inv in Hr as ([[s3 m] c3] & Hd & Hr).
  apply not_ok_inv in Hr as [[Hok [= <- <-]]|[Hs [= <- <-]]]; [|by apply maps_error].
  split; cbn; [split; [by eexists|done]|]. intros m' [= <-] i. rewrite (deliver_acks_spec _ _ _ _ _ _ Hd Hok i).
  split; [intros [Hi|?]; [by destruct Hi|done]|by right].
Qed.

(** ** No undefined behaviour *)
Lemma leave_defined {A} s (leave : Status → result A) k :
  (∀ s, leave s ≠ Fault FUndef) → k ≠ Fault FUndef → RETURN_STATUS_ON_ERROR s leave k ≠ Fault FUndef.
Proof.
  intros Hl Hk. unfold RETURN_STATUS_ON_ERROR. destruct (is_ok s); [done|]. destruct (st_message s); cbn; [done|done].
Qed.

Lemma bind_defined {A B} (m : result A) (k : A → result B) :
  m ≠ Fault FUndef → (∀ a, m = Done a → k a ≠ Fault FUndef) → (m ≫= k) ≠ Fault FUndef.
Proof. destruct m as [a|f]; cbn; [by auto|congruence]. Qed.

Lemma or_throw_defined {A} (o : option A) : or_throw o ≠ Fault FUndef.
Proof. by destruct o. Qed.
Lemma rome_assert_defined b : rome_assert b ≠ Fault FUndef.
Proof. by destruct b. Qed.
Lemma or_die_defined {A} (sv : StatusVal A) : STATUSVAL_OR_DIE sv ≠ Fault FUndef.
Proof. unfold STATUSVAL_OR_DIE, OK_OR_FAIL. destruct (is_ok _); [done|]. by destruct (st_message _). Qed.

Ltac harmless := repeat first
  [ done | apply or_throw_defined | apply rome_assert_defined | apply or_die_defined
  | apply bind_defined; [|intros ? _] | apply leave_defined; [intros ?|]
  | match goal with
    | |- context [match ?x with (_, _) => _ end] => destruct x
    | |- context [if ?b then _ else _] => destruct b
    end ].

Lemma connect_peers_defined fuel peers (c : C) : connect_peers fuel peers c ≠ Fault FUndef.
Proof.
  assert (∀ p c, connect_retry fuel p c ≠ Fault FUndef) as Hr.
  { induction fuel as [|f IH]; intros p c'; cbn; [done|]. destruct (cm_Connect _ _ _ _). by case_bool_decide. }
  revert c. induction peers as [|p ps IH]; intros c; cbn; [done|]. apply bind_defined; [done|]. intros [sv c1] _.
  harmless; apply IH.
Qed.

Lemma send_acks_defined peers (c : C) : send_acks peers c ≠ Fault FUndef.
Proof. revert c. induction peers as [|p ps IH]; intros c; cbn; [done|]. harmless; apply IH. Qed.

Lemma deliver_acks_defined peers m (c : C) : deliver_acks peers m c ≠ Fault FUndef.
Proof. revert m c. induction peers as [|p ps IH]; intros m c; cbn; [done|]. harmless; apply IH. Qed.

Lemma init_cm_defined fuel (c : C) self peers : init_cm fuel c self peers ≠ Fault FUndef.
Proof.
  unfold init_cm. harmless; [apply connect_peers_defined|apply send_acks_defined|apply deliver_acks_defined].
Qed.

Lemma poll_nodes_defined ids node_id m (c : C) :
  (∀ (c : C) h, try_receive c h ≠ Fault FUndef) →
  Forall (λ i, is_Some (m !! i)) ids → poll_nodes ids node_id m c ≠ Fault FUndef.
Proof.
  intros Hr Hids. revert c. induction Hids as [|i ids [h Hh] _ IH]; intros c; cbn; [done|].
  destruct (i =? node_id); [apply IH|]. rewrite Hh. cbn. apply bind_defined; [apply Hr|]. intros [req c1] _. harmless; apply IH.
Qed.

Lemma serve_defined fuel count node_id m (c : C) :
  (∀ (c : C) h, try_receive c h ≠ Fault FUndef) →
  Forall (λ i, is_Some (m !! i)) (seqZ 0 count) → serve fuel count node_id m c ≠ Fault FUndef.
Proof.
  intros Hr Hm. revert c. induction fuel as [|f IH]; intros c; cbn; [done|].
  apply bind_defined; [by apply poll_nodes_defined|]. intros [[] c'] _; [done|apply IH].
Qed.

(** The lists that a finished loop has made. *)
Lemma peer_loop_ids fuel node_id count l :
  0 < count → peer_loop fuel 0 node_id count no_peers = Done l →
  (peer_id <$> sends l) = seqZ 0 count.
Proof.
  intros Hc Hl. destruct (Z.lt_ge_cases count (2 ^ 16)) as [Hmax|Hmax].
  2:{ rewrite peer_loop_endless in Hl; [done|done|unfold is_u; lia]. }
  assert (∀ n l0 l, 0 ≤ n ≤ count → peer_loop fuel n node_id count l0 = Done l →
    (peer_id <$> sends l) = ((peer_id <$> sends l0) ++ seqZ n (count - n))%list) as Hgen.
  { clear l Hl. induction fuel as [|f IH]; intros n l0 l Hn; cbn; destruct (Z.ltb_spec n count); cbn; try done;
      try (intros [= <-]; replace (count - n) with 0 by lia; by rewrite app_nil_r).
    assert (u16 (n + 1) = n + 1) as -> by (unfold u16; rewrite Z.mod_small; lia).
    intros Hl. apply IH in Hl; [|lia]. rewrite Hl. rewrite (seqZ_cons n (count - n)) by lia.
    replace (Z.pred (count - n)) with (count - (n + 1)) by lia.
    destruct (n =? node_id); cbn; rewrite fmap_app, <- app_assoc; done. }
  rewrite (Hgen 0 no_peers l) by (done || lia). by rewrite Z.sub_0_r.
Qed.

Lemma run_node_defined fuel (ns nr : Z → C) node_id count server :
  (∀ (c : C) h, try_receive c h ≠ Fault FUndef) →
  0 < count → run_node fuel ns nr node_id count server ≠ Fault FUndef.
Proof.
  intros Hrec Hc. unfold run_node. apply bind_defined.
  { generalize 0 at 1. generalize no_peers. induction fuel as [|f IH]; intros l n; cbn; destruct (negb _); (done || apply IH). }
  intros l Hl. pose proof (peer_loop_ids _ _ _ _ Hc Hl) as Hids.
  apply bind_defined; [apply or_throw_defined|intros p _].
  apply bind_defined; [apply init_cm_defined|]. intros [s1 c1] Hs1. apply init_cm_post in Hs1 as [_ Hmap].
  apply bind_defined; [apply rome_assert_defined|intros _ _].
  apply bind_defined; [apply or_throw_defined|]. intros m Hm.
  assert (∀ i, 0 ≤ i < count → is_Some (m !! i)) as Hin.
  { intros i Hi. apply (Hmap m); [by destruct (sv_val s1); simplify_eq/=|].
    assert (i ∈ peer_id <$> sends l) as (q & -> & Hq)%list_elem_of_fmap by (rewrite Hids; apply elem_of_seqZ; lia).
    by exists q. }
  harmless; try apply init_cm_defined; try (apply serve_defined; [done|]).
  - apply Forall_forall. intros i Hi%elem_of_seqZ. apply Hin. lia.
  - destruct (Hin 0) as [h ->]; [lia|done].
Qed.

(** ** [main] *)
Context {F : Type} (stod : string → result F).

Lemma ARGS_ok : Forall arg_ok (ARGS (F:=F)).
Proof. repeat constructor; intros v [= <-]; done. Qed.

(** Options that have been parsed can be read. *)
Lemma options_readable prog argv (am : @ArgMap F) a :
  import_args ARGS ArgMap_new = (None, am) → parse_args stod prog argv am = Done (None, a) →
  Forall (λ f, iget a f ≠ Fault FUndef ∧ bget a f ≠ Fault FUndef) (flag <$> ARGS (F:=F)).
Proof.
  intros Hi Hp. apply Forall_fmap, Forall_forall. intros x Hx.
  destruct (parsed_args_usable stod ARGS prog argv am a ARGS_ok Hi Hp x Hx) as (v & Hv & _).
  unfold compose, iget, bget. rewrite Hv. by destruct v.
Qed.

(** The program has no undefined behaviour but that of a poll, whatever its managers and channels
    answer: on any words that are not empty it ends with one of its exit codes, aborts, throws
    or waits; in particular the connections it indexes without a check are there, for the
    server and for the client. *)
Theorem main_no_undef fuel (ns nr : Z → C) prog argv :
  (∀ s, stod s ≠ Fault FUndef) → (∀ (c : C) h, try_receive c h ≠ Fault FUndef) → Forall (λ w, w ≠ "") argv →
  main stod fuel ns nr prog argv ≠ Fault FUndef.
Proof.
  intros Hs Hrec Hw. unfold main. destruct (import_args ARGS ArgMap_new) as [e am] eqn:Hi.
  case_bool_decide as He; [done|]. assert (e = None) as -> by (destruct e; [by destruct He|done]).
  apply bind_defined; [by apply parse_args_defined|]. intros [e a] Hp.
  case_bool_decide as He'; [done|]. assert (e = None) as -> by (destruct e; [by destruct He'|done]).
  pose proof (options_readable prog argv am a Hi Hp) as Hopt. cbn in Hopt. rewrite !Forall_cons in Hopt.
  destruct Hopt as ([Hid _] & [Hthreads _] & [Hcount _] & _ & [_ Hserver] & _).
  apply bind_defined; [done|]. intros count _. destruct (Z.leb_spec count 0) as [|Hc]; [done|].
  apply bind_defined; [done|]. intros threads _. destruct (threads <=? 0); [done|].
  apply bind_defined; [done|]. intros id _. destruct (count <=? id); [done|].
  apply bind_defined; [done|]. intros server _. by apply run_node_defined.
Qed.

(** A server can only stop when somebody else exists: alone it polls for ever, once its
    own connection is up. *)
Lemma lonely_server fuel m (c : C) : serve fuel 1 0 m c = Fault FFuel.
Proof. induction fuel as [|f IH]; [done|]. cbn. exact IH. Qed.
End proofs.

(** ** A network that works *)
(** What is to be seen of a manager: whether it listens, the peers it is connected with, those
    it has sent an acknowledgement and those it has had one from, the messages sent, and for
    each peer those that have arrived and wait. *)
Record view := mkView {
  v_up : bool; v_links : gset Z; v_acked : gset Z; v_heard : gset Z;
  v_sent : list (Z * IHTOPProto); v_inbox : Z → list IHTOPProto }.

(** What the managers and channels promise. [Start] needs an address of the node's own,
    [Connect] a manager that has been started and a peer that listens at the address;
    [GetConnection] finds what [Connect] has made and nothing else (as [lookup_connection] and
    [Connect_spec] have it of the detailed manager); messages go over connections that exist. Nothing is promised of a poll of an empty queue. *)
Class WireOk (C : Type) `{Wire C} (view_of : C → view) (conn_of : Z → Z)
    (own : string → Z → Prop) (listens : Z → string → Z → Prop) : Prop := {
  start_law (c : C) addr port : own addr port → ∃ c', cm_Start c addr port = (StatusOk, c') ∧
    view_of c' = let v := view_of c in mkView true (v_links v) (v_acked v) (v_heard v) (v_sent v) (v_inbox v);
  connect_law (c : C) i addr port : v_up (view_of c) = true → listens i addr port → i ∉ v_links (view_of c) →
    ∃ c', cm_Connect c i addr port = (mkStatusVal StatusOk (Some (conn_of i)), c') ∧
    view_of c' = let v := view_of c in mkView (v_up v) ({[i]} ∪ v_links v) (v_acked v) (v_heard v) (v_sent v) (v_inbox v);
  connection_law (c : C) i : ∃ c', view_of c' = view_of c ∧
    if decide (i ∈ v_links (view_of c)) then cm_GetConnection c i = (mkStatusVal StatusOk (Some (conn_of i)), c')
    else ∃ s, cm_GetConnection c i = (mkStatusVal s None, c') ∧ st_t s = NotFound;
  send_ack_law (c : C) i : i ∈ v_links (view_of c) → ∃ c', send_ack c (conn_of i) = (StatusOk, c') ∧
    view_of c' = let v := view_of c in mkView (v_up v) (v_links v) ({[i]} ∪ v_acked v) (v_heard v) (v_sent v) (v_inbox v);
  deliver_ack_law (c : C) i : i ∈ v_links (view_of c) → ∃ c', deliver_ack c (conn_of i) = (mkStatusVal StatusOk (Some tt), c') ∧
    view_of c' = let v := view_of c in mkView (v_up v) (v_links v) (v_acked v) ({[i]} ∪ v_heard v) (v_sent v) (v_inbox v);
  send_op_law (c : C) i m : i ∈ v_links (view_of c) → ∃ c', send_op c (conn_of i) m = (StatusOk, c') ∧
    view_of c' = let v := view_of c in mkView (v_up v) (v_links v) (v_acked v) (v_heard v) (v_sent v ++ [(i, m)]) (v_inbox v);
  receive_law (c : C) i m ms : i ∈ v_links (view_of c) → v_inbox (view_of c) i = m :: ms →
    ∃ c', try_receive c (conn_of i) = Done (Some m, c') ∧
    view_of c' = let v := view_of c in mkView (v_up v) (v_links v) (v_acked v) (v_heard v) (v_sent v) (<[i := ms]> (v_inbox v)) }.

Section works.
Context {C : Type} `{Wire C} (view_of : C → view) (conn_of : Z → Z)
  (own : string → Z → Prop) (listens : Z → string → Z → Prop) `{!WireOk C view_of conn_of own listens}.
Context {F : Type} (stod : string → result F).

Definition ids (peers : list Peer) : gset Z := list_to_set (peer_id <$> peers).
Arguments ids : simpl never.

Lemma ids_nil (X : gset Z) : ids [] ∪ X = X.
Proof. apply (left_id_L ∅ (∪)). Qed.
Lemma ids_cons p ps : ids (p :: ps) = {[peer_id p]} ∪ ids ps.
Proof. done. Qed.

Lemma connect_peers_ok peers (c : C) : v_up (view_of c) = true → NoDup (peer_id <$> peers) →
  (∀ p, p ∈ peers → listens (peer_id p) (peer_address p) (peer_port p) ∧ peer_id p ∉ v_links (view_of c)) →
  ∃ c', (∀ f, connect_peers (S f) peers c = Done (StatusOk, c')) ∧
    view_of c' = let v := view_of c in mkView (v_up v) (ids peers ∪ v_links v) (v_acked v) (v_heard v) (v_sent v) (v_inbox v).
Proof.
  revert c. induction peers as [|p ps IH]; intros c Hup Hnd Hp.
  { exists c. split; [done|]. cbn. rewrite ids_nil. by destruct (view_of c). }
  cbn in Hnd. apply NoDup_cons in Hnd as [Hni Hnd]. destruct (Hp p) as [Hl Hn]; [apply list_elem_of_here|].
  destruct (connect_law c (peer_id p) (peer_address p) (peer_port p) Hup Hl Hn) as (c1 & E & V).
  destruct (IH c1) as (c' & Hc' & V'); [by rewrite V|done| |].
  - intros q Hq. rewrite V. cbn. destruct (Hp q) as [? ?]; [by apply list_elem_of_further|]. split; [done|].
    rewrite not_elem_of_union, not_elem_of_singleton. split; [|done]. intros Eq. apply Hni. rewrite <- Eq. by apply list_elem_of_fmap_2.
  - exists c'. split; [intros f; cbn [connect_peers connect_retry]; rewrite E; apply Hc'|].
    rewrite V', V, ids_cons. cbn. f_equal. set_solver.
Qed.

Lemma get_linked (c : C) i : i ∈ v_links (view_of c) →
  ∃ c', cm_GetConnection c i = (mkStatusVal StatusOk (Some (conn_of i)), c') ∧ view_of c' = view_of c.
Proof. intros Hi. destruct (connection_law c i) as (c' & V & E). rewrite decide_True in E by done. by exists c'. Qed.

Lemma send_acks_ok peers (c : C) : ids peers ⊆ v_links (view_of c) → ∃ c', send_acks peers c = Done (StatusOk, c') ∧
  view_of c' = let v := view_of c in mkView (v_up v) (v_links v) (ids peers ∪ v_acked v) (v_heard v) (v_sent v) (v_inbox v).
Proof.
  revert c. induction peers as [|p ps IH]; intros c Hl.
  { exists c. split; [done|]. cbn. rewrite ids_nil. by destruct (view_of c). }
  rewrite ids_cons in Hl. cbn [send_acks]. destruct (get_linked c (peer_id p)) as (c1 & -> & V1); [set_solver|]. cbn.
  destruct (send_ack_law c1 (peer_id p)) as (c2 & -> & V2); [rewrite V1; set_solver|]. rewrite V1 in V2.
  destruct (IH c2) as (c3 & E3 & V3); [rewrite V2; cbn; set_solver|]. exists c3. split; [exact E3|].
  rewrite V3, V2, ids_cons. cbn. f_equal. set_solver.
Qed.

Lemma deliver_acks_ok peers m (c : C) : ids peers ⊆ v_links (view_of c) → ∃ m' c', deliver_acks peers m c = Done (StatusOk, m', c') ∧
  (∀ i, m' !! i = if decide (i ∈ ids peers) then Some (conn_of i) else m !! i) ∧
  view_of c' = let v := view_of c in mkView (v_up v) (v_links v) (v_acked v) (ids peers ∪ v_heard v) (v_sent v) (v_inbox v).
Proof.
  revert m c. induction peers as [|p ps IH]; intros m c Hl.
  { exists m, c. split; [done|]. split; [intros i; by rewrite decide_False by set_solver|].
    cbn. rewrite ids_nil. by destruct (view_of c). }
  rewrite ids_cons in Hl. cbn [deliver_acks]. destruct (get_linked c (peer_id p)) as (c1 & -> & V1); [set_solver|]. cbn.
  destruct (deliver_ack_law c1 (peer_id p)) as (c2 & -> & V2); [rewrite V1; set_solver|]. rewrite V1 in V2.
  destruct (IH (<[peer_id p := conn_of (peer_id p)]> m) c2) as (m' & c3 & E3 & Hm & V3); [rewrite V2; cbn; set_solver|].
  exists m', c3. split; [exact E3|]. split.
  - intros i. rewrite Hm, ids_cons. destruct (decide (i ∈ ids ps)) as [Hi|Hi]; [by rewrite decide_True by set_solver|].
    destruct (decide (peer_id p = i)) as [<-|Hne]; [by rewrite lookup_insert_eq, decide_True by set_solver|].
    by rewrite lookup_insert_ne, decide_False by set_solver.
  - rewrite V3, V2, ids_cons. cbn. f_equal. set_solver.
Qed.

(** A manager brought up among peers that listen. *)
Lemma init_cm_ok (c : C) self peers : own (peer_address self) (peer_port self) → NoDup (peer_id <$> peers) →
  (∀ p, p ∈ peers → listens (peer_id p) (peer_address p) (peer_port p)) → v_links (view_of c) = ∅ →
  v_acked (view_of c) = ∅ → v_heard (view_of c) = ∅ →
  ∃ m c', (∀ f, init_cm (S f) c self peers = Done (mkStatusVal StatusOk (Some m), c')) ∧
    (∀ i, m !! i = if decide (i ∈ ids peers) then Some (conn_of i) else None) ∧
    view_of c' = mkView true (ids peers) (ids peers) (ids peers) (v_sent (view_of c)) (v_inbox (view_of c)).
Proof.
  intros Ho Hnd Hl El Ea Eh. destruct (start_law c _ _ Ho) as (c0 & E0 & V0). cbn in V0. rewrite El, Ea, Eh in V0.
  destruct (connect_peers_ok peers c0) as (c1 & E1 & V1); [by rewrite V0|done| |].
  { intros p Hp. split; [by apply Hl|]. rewrite V0. cbn. set_solver. }
  rewrite V0 in V1. cbn in V1. rewrite (right_id_L ∅ (∪)) in V1.
  destruct (send_acks_ok peers c1) as (c2 & E2 & V2); [by rewrite V1|]. rewrite V1 in V2. cbn in V2. rewrite (right_id_L ∅ (∪)) in V2.
  destruct (deliver_acks_ok peers ∅ c2) as (m & c3 & E3 & Hm & V3); [by rewrite V2|]. rewrite V2 in V3. cbn in V3. rewrite (right_id_L ∅ (∪)) in V3.
  exists m, c3. split; [|split; [intros i; rewrite Hm; by rewrite lookup_empty|exact V3]]. intros f.
  unfold init_cm. rewrite E0. cbn -[connect_peers]. rewrite E1. cbn. rewrite E2. cbn. rewrite E3. done.
Qed.

(** A pass takes the first message of every other node, where each has one. *)
Definition taken (l : list Z) (node_id : Z) (q : Z → list IHTOPProto) (i : Z) : list IHTOPProto :=
  if decide (i ∈ l ∧ i ≠ node_id) then tail (q i) else q i.

Lemma poll_nodes_ok l node_id m (c : C) : NoDup l →
  (∀ i, i ∈ l → i ∈ v_links (view_of c) ∧ m !! i = Some (conn_of i) ∧ (i ≠ node_id → v_inbox (view_of c) i ≠ [])) →
  ∃ got c', poll_nodes l node_id m c = Done (got, c') ∧ (Exists (λ i, i ≠ node_id) l → got = true) ∧
    (∀ i, v_inbox (view_of c') i = taken l node_id (v_inbox (view_of c)) i) ∧
    (v_up (view_of c'), v_links (view_of c'), v_acked (view_of c'), v_heard (view_of c'), v_sent (view_of c')) =
    (v_up (view_of c), v_links (view_of c), v_acked (view_of c), v_heard (view_of c), v_sent (view_of c)).
Proof.
  revert c. induction l as [|i l IH]; intros c Hnd Hl.
  { exists false, c. split; [done|]. split; [by intros ?%Exists_nil|]. split; [|done].
    intros i. unfold taken. rewrite decide_False; [done|]. by intros [?%elem_of_nil _]. }
  apply NoDup_cons in Hnd as [Hni Hnd]. destruct (Hl i) as (Hi & Hm & Hin); [apply list_elem_of_here|]. cbn [poll_nodes].
  destruct (Z.eqb_spec i node_id) as [->|Hne].
  - destruct (IH c Hnd) as (got & c' & E & Hg & Hq & V); [intros j Hj; by apply Hl, list_elem_of_further|].
    exists got, c'. split; [exact E|]. split; [intros [?|?]%Exists_cons; [done|auto]|]. split; [|exact V].
    intros j. rewrite Hq. unfold taken. apply decide_ext. rewrite elem_of_cons. naive_solver.
  - rewrite Hm. cbn. destruct (v_inbox (view_of c) i) as [|msg ms] eqn:Eq; [by destruct (Hin Hne)|].
    destruct (receive_law c i msg ms Hi Eq) as (c1 & -> & V1). cbn.
    destruct (IH c1 Hnd) as (got & c' & E & Hg & Hq & V).
    { intros j Hj. rewrite V1. cbn. destruct (Hl j) as (? & ? & Hj'); [by apply list_elem_of_further|]. do 2 (split; [done|]).
      rewrite fn_lookup_insert_ne; [done|]. by intros <-. }
    rewrite E. cbn. do 2 eexists. split; [done|]. split; [done|]. rewrite V1 in V, Hq. split; [|exact V].
    intros j. rewrite Hq. unfold taken. cbn. destruct (decide (i = j)) as [<-|Hij].
    + rewrite fn_lookup_insert, (decide_False (P := i ∈ l ∧ _)), decide_True, Eq by (rewrite ?elem_of_cons; naive_solver). done.
    + rewrite fn_lookup_insert_ne by done. apply decide_ext. rewrite elem_of_cons. naive_solver.
Qed.

(** The options of a node as words of the command line. *)
Definition node_options (node_id threads node_count : Z) (server : bool) : list (@setting F) :=
  [SetInt "--node_id" node_id; SetInt "--thread_count" threads; SetInt "--node_count" node_count] ++
  (if server then [SetBool "--server"] else []).

Lemma read_options node_id threads node_count server prog :
  0 ≤ node_id ≤ INT_MAX → 0 ≤ threads ≤ INT_MAX → 0 ≤ node_count ≤ INT_MAX →
  ∃ a, parse_args stod prog (node_options node_id threads node_count server ≫= words) (import_args ARGS ArgMap_new).2
      = Done (None, a) ∧
    iget a "--node_id" = Done node_id ∧ iget a "--thread_count" = Done threads ∧
    iget a "--node_count" = Done node_count ∧ bget a "--server" = Done server.
Proof.
  intros Hi Ht Hc. unfold parse_args. rewrite bool_decide_eq_true_2 by done. rewrite parse_settings.
  - rewrite bind_done. destruct server; eexists; (split; [reflexivity|]); done.
  - unfold node_options. destruct server; repeat (apply Forall_cons; split; [by split|]); by apply Forall_nil.
Qed.

(** The ids of the nodes of an experiment. *)
Definition all_nodes (node_count : Z) : gset Z := list_to_set (seqZ 0 node_count).
(** The node's own two addresses, and those of all nodes for the two managers. *)
Definition network_up (node_id node_count : Z) : Prop :=
  (own (peer_address (send_next node_id)) (peer_port (send_next node_id)) ∧
   own (peer_address (recv_next node_id)) (peer_port (recv_next node_id))) ∧
  ∀ n, 0 ≤ n < node_count → listens n (peer_address (send_next n)) (peer_port (send_next n)) ∧
    listens n (peer_address (recv_next n)) (peer_port (recv_next n)).
Definition fresh_view (v : view) : Prop :=
  v_links v = ∅ ∧ v_acked v = ∅ ∧ v_heard v = ∅ ∧ v_sent v = [].
(** The manager of a node that has met everybody. *)
Definition met (node_count : Z) (v : view) : Prop :=
  v_up v = true ∧ v_links v = all_nodes node_count ∧ v_acked v = all_nodes node_count ∧ v_heard v = all_nodes node_count.

(** Bringing up the manager of either side from its list. *)
Lemma init_side (c : C) (next : Z → Peer) node_id node_count :
  own (peer_address (next node_id)) (peer_port (next node_id)) → (∀ n, peer_id (next n) = n) →
  (∀ n, 0 ≤ n < node_count → listens n (peer_address (next n)) (peer_port (next n))) → fresh_view (view_of c) →
  ∃ m c', (∀ f, init_cm (S f) c (next node_id) (next <$> seqZ 0 node_count) = Done (mkStatusVal StatusOk (Some m), c')) ∧
    (∀ i, 0 ≤ i < node_count → m !! i = Some (conn_of i)) ∧
    met node_count (view_of c') ∧ v_sent (view_of c') = [] ∧ v_inbox (view_of c') = v_inbox (view_of c).
Proof.
  intros Ho Hid Hl (El & Ea & Eh & Es). assert (peer_id <$> (next <$> seqZ 0 node_count) = seqZ 0 node_count) as E.
  { rewrite <- list_fmap_compose. rewrite <- (list_fmap_id (seqZ 0 node_count)) at 2. apply list_fmap_ext. intros i x _. apply Hid. }
  destruct (init_cm_ok c (next node_id) (next <$> seqZ 0 node_count) Ho) as (m & c' & E' & Hm & V); try done.
  - rewrite E. apply NoDup_seqZ.
  - intros p (n & -> & Hn%elem_of_seqZ)%list_elem_of_fmap. rewrite Hid. apply Hl. lia.
  - exists m, c'. split; [exact E'|]. unfold ids in *. rewrite E in *. split.
    + intros i Hi. rewrite Hm, decide_True; [done|]. apply elem_of_list_to_set, elem_of_seqZ. lia.
    + rewrite V. done.
Qed.

Lemma serve_ok node_id node_count m (c : C) : 0 ≤ node_id < node_count → 2 ≤ node_count → met node_count (view_of c) →
  (∀ i, 0 ≤ i < node_count → m !! i = Some (conn_of i) ∧ (i ≠ node_id → v_inbox (view_of c) i ≠ [])) →
  ∃ c', (∀ f, serve (S f) node_count node_id m c = Done c') ∧ met node_count (view_of c') ∧
    v_sent (view_of c') = v_sent (view_of c) ∧
    ∀ i, v_inbox (view_of c') i = taken (seqZ 0 node_count) node_id (v_inbox (view_of c)) i.
Proof.
  intros Hid Hc (Hup & Hl & Ha & Hh) Hm.
  destruct (poll_nodes_ok (seqZ 0 node_count) node_id m c) as (got & c' & E & Hg & Hq & V); [apply NoDup_seqZ| |].
  { intros i Hi%elem_of_seqZ. destruct (Hm i ltac:(lia)) as [? ?]. split; [|done]. rewrite Hl. apply elem_of_list_to_set, elem_of_seqZ. lia. }
  injection V as E1 E2 E3 E4 E5. exists c'. split; [|split; [|done]].
  - intros f. cbn [serve]. rewrite E, bind_done, Hg; [done|]. apply Exists_exists.
    exists (if decide (node_id = 0) then 1 else 0). split; [apply elem_of_seqZ|]; case_decide; lia.
  - unfold met. by rewrite E1, E2, E3, E4.
Qed.

(** What a node has done when it returns. *)
Definition node_done (node_id node_count : Z) (server : bool) (s0 r0 sender receiver : view) : Prop :=
  met node_count sender ∧ met node_count receiver ∧ v_sent receiver = [] ∧ v_inbox receiver = v_inbox r0 ∧
  if server then v_sent sender = [] ∧ ∀ i, v_inbox sender i = taken (seqZ 0 node_count) node_id (v_inbox s0) i
  else v_sent sender = [(0, mkProto GET_RES 33 0)] ∧ v_inbox sender = v_inbox s0.

Lemma run_node_returns (ns nr : Z → C) node_id node_count (server : bool) :
  0 ≤ node_id < node_count → node_count < 2 ^ 16 → network_up node_id node_count →
  fresh_view (view_of (ns node_id)) → fresh_view (view_of (nr node_id)) →
  (server = true → 2 ≤ node_count ∧ ∀ i, 0 ≤ i < node_count → i ≠ node_id → v_inbox (view_of (ns node_id)) i ≠ []) →
  ∃ sender receiver, (∀ fuel, (Z.to_nat node_count < fuel)%nat →
      run_node fuel ns nr node_id node_count server = Done (Returned sender receiver)) ∧
    node_done node_id node_count server (view_of (ns node_id)) (view_of (nr node_id)) (view_of sender) (view_of receiver).
Proof.
  intros Hid Hmax [[Hos Hor] Hlis] Hs Hr Hserver.
  destruct (init_side (ns node_id) send_next node_id node_count Hos (λ _, eq_refl) (λ n Hn, proj1 (Hlis n Hn)) Hs)
    as (m & c1 & E1 & Hm & Hmet1 & Hs1 & Hq1).
  destruct (init_side (nr node_id) recv_next node_id node_count Hor (λ _, eq_refl) (λ n Hn, proj2 (Hlis n Hn)) Hr)
    as (m2 & c2 & E2 & _ & Hmet2 & Hs2 & Hq2).
  assert (∃ c', (∀ f, (if server then serve (S f) node_count node_id m c1 else client m c1) = Done c') ∧
    met node_count (view_of c') ∧
    if server then v_sent (view_of c') = [] ∧ ∀ i, v_inbox (view_of c') i = taken (seqZ 0 node_count) node_id (v_inbox (view_of (ns node_id))) i
    else v_sent (view_of c') = [(0, mkProto GET_RES 33 0)] ∧ v_inbox (view_of c') = v_inbox (view_of (ns node_id))) as (c' & E' & Hmet & Hend).
  { destruct server.
    - destruct (Hserver eq_refl) as [H2 Hin]. destruct (serve_ok node_id node_count m c1 Hid H2 Hmet1) as (c' & E & Hmet & Hsent & Hq).
      { intros i Hi. split; [by apply Hm|]. rewrite Hq1. by apply Hin. }
      exists c'. split; [exact E|]. split; [exact Hmet|]. rewrite Hsent. split; [done|]. intros i. by rewrite Hq, Hq1.
    - destruct Hmet1 as (? & Hl & ? & ?). destruct (send_op_law c1 0 (mkProto GET_RES 33 0)) as (c' & E & V).
      { rewrite Hl. apply elem_of_list_to_set, elem_of_seqZ. lia. }
      exists c'. unfold client, met. rewrite Hm by lia. cbn. rewrite E, V. cbn. by rewrite Hs1. }
  exists c', c2. split; [|done]. intros [|f] Hf; [lia|]. unfold run_node.
  rewrite peer_loop_spec by lia. rewrite Z.sub_0_r, bool_decide_eq_true_2, bind_done by lia.
  cbn [sends recvs self_sender self_receiver no_peers app].
  rewrite list_lookup_fmap, lookup_seqZ_lt by lia. cbn [fmap option_fmap option_map or_throw]. rewrite bind_done.
  change (peer_id (send_next node_id)) with node_id. change (peer_id (recv_next node_id)) with node_id.
  rewrite E1, bind_done. cbn [sv_status sv_val or_throw]. change (is_ok StatusOk) with true. cbn [rome_assert].
  rewrite !bind_done, E2, bind_done. cbn [sv_status sv_val or_throw]. change (is_ok StatusOk) with true. cbn [rome_assert].
  rewrite !bind_done, E', bind_done. done.
Qed.

End works.

(** ** Example: a network of nodes that listen where the program looks for them *)
Definition ex_listens (i : Z) (addr : string) (port : Z) : bool :=
  (bool_decide (addr = "node" +:+ pretty i)) && ((port =? u16 (PORT_NUM + i + 1)) || (port =? u16 (PORT_NUM + i + 1001))).

#[export] Instance CmOps_view : CmOps view := {|
  cm_Start v _ _ := (StatusOk, mkView true (v_links v) (v_acked v) (v_heard v) (v_sent v) (v_inbox v));
  cm_Connect v i addr port :=
    if v_up v && ex_listens i addr port && negb (bool_decide (i ∈ v_links v)) then
      (mkStatusVal StatusOk (Some i), mkView (v_up v) ({[i]} ∪ v_links v) (v_acked v) (v_heard v) (v_sent v) (v_inbox v))
    else (mkStatusVal (mkStatus Unavailable None) None, v);
  cm_GetConnection v i :=
    if decide (i ∈ v_links v) then (mkStatusVal StatusOk (Some i), v) else (mkStatusVal (mkStatus NotFound None) None, v);
  cm_Send v _ _ := (StatusOk, v);
  cm_Deliver v h := (mkStatusVal StatusOk (Some (h, 0)), v) |}.
#[export] Instance Wire_view : Wire view := {|
  send_ack v i := (StatusOk, mkView (v_up v) (v_links v) ({[i]} ∪ v_acked v) (v_heard v) (v_sent v) (v_inbox v));
  deliver_ack v i := (mkStatusVal StatusOk (Some tt), mkView (v_up v) (v_links v) (v_acked v) ({[i]} ∪ v_heard v) (v_sent v) (v_inbox v));
  send_op v i m := (StatusOk, mkView (v_up v) (v_links v) (v_acked v) (v_heard v) (v_sent v ++ [(i, m)]) (v_inbox v));
  try_receive v i :=
    match v_inbox v i with
    | [] => Fault FUndef
    | m :: ms => Done (Some m, mkView (v_up v) (v_links v) (v_acked v) (v_heard v) (v_sent v) (<[i := ms]> (v_inbox v)))
    end |}.
#[export] Instance WireOk_view : WireOk view (λ v, v) (λ i, i) (λ _ _, True) (λ i addr port, ex_listens i addr port = true).
Proof.
  split; cbn; eauto.
  - intros v i addr port -> -> Hi. rewrite bool_decide_eq_false_2 by done. eauto.
  - intros v i. exists v. split; [done|]. by case_decide; [|exists (mkStatus NotFound None)].
  - intros v i m ms _ ->. eauto.
Qed.

Definition ex_view : view := mkView false ∅ ∅ ∅ [] (λ i, [mkProto GET_RES 33 i]).

Lemma ex_network node_id : network_up (λ _ _, True) (λ i addr port, ex_listens i addr port = true) node_id 3.
Proof.
  split; [done|]. intros n _. unfold ex_listens. cbn. rewrite bool_decide_eq_true_2, !Z.eqb_refl, orb_true_r by done. done.
Qed.

