(* ===== verification/ATree.v ===== *)
(** * [ATree] (metrics/atree/atree.h): an augmented binary search tree of linked nodes

    Nodes live in a heap and are linked by pointers; [nullptr] is [None]. The dummy
    root holds the tree in its left child. A visitor is a set of heap operations that
    run on the nodes of the search path, bottom up. Keys are of any type with the
    comparisons of the C++ type; they need not be an order (doubles have NaN), so the
    theorems are about the keys on which the comparisons are those of a position on a line. *)
From S2P Require Import Prelude.

Abbreviation loc := positive.

(** [==] and [<] of the key type. *)
Class Key (K : Type) := { key_eqb : K → K → bool; key_ltb : K → K → bool }.
#[global] Hint Mode Key ! : typeclass_instances.

(** On the keys that are [ok] the comparisons are those of the positions. *)
Class KeyLaws (K : Type) `{Key K} (ok : K → Prop) (pos : K → Z) : Prop := {
  key_eqb_pos x y : ok x → ok y → key_eqb x y = (pos x =? pos y);
  key_ltb_pos x y : ok x → ok y → key_ltb x y = (pos x <? pos y) }.

(** Integer keys. *)
#[export] Instance Key_Z : Key Z := {| key_eqb := Z.eqb; key_ltb := Z.ltb |}.
#[export] Instance KeyLaws_Z : KeyLaws Z (λ _, True) (λ x, x).
Proof. by split. Qed.

Section atree.
Context {K : Type} `{Key K}.
Implicit Types key : K.

Record node := mkNode { n_key : K; n_value : Z; n_meta : Z; n_left : option loc; n_right : option loc }.
Abbreviation heap := (gmap loc node).

Definition set_left (n : node) (p : option loc) : node := mkNode (n_key n) (n_value n) (n_meta n) p (n_right n).
Definition set_right (n : node) (p : option loc) : node := mkNode (n_key n) (n_value n) (n_meta n) (n_left n) p.

(** A pointer to a node that has children: [&root_] or a node of the heap. *)
Inductive nptr := PRoot | PNode (l : loc).

Record ATree := mkATree { a_heap : heap; a_root : option loc; size_ : Z; cleared_ : list (option loc) }.
Definition ATree_new : ATree := mkATree ∅ None 0 [].

(** [VisitorInterface]. *)
Record visitor := mkVisitor {
  OnInsert : loc → heap → result heap;
  OnRemove : loc → heap → result heap;
  OnUpdate : loc → heap → result heap;
  Update : loc → Z → Z → heap → result heap }.

(** [FindInternal]: the parent of the place of [key], the node if there is one, and
    the nodes passed, the last one at the end. *)
Fixpoint find_loop (fuel : nat) (h : heap) key (parent : nptr) (curr : option loc) (stack : list loc)
    : result (nptr * option loc * list loc) :=
  match curr with
  | None => Done (parent, None, stack)
  | Some l =>
      n ← defined (h !! l);
      if key_eqb (n_key n) key then Done (parent, Some l, stack)
      else match fuel with
           | O => Fault FFuel
           | S f => find_loop f h key (PNode l) (if key_ltb (n_key n) key then n_right n else n_left n) (stack ++ [l])
           end
  end.

Definition FindInternal (fuel : nat) key (t : ATree) : result (nptr * option loc * list loc) :=
  find_loop fuel (a_heap t) key PRoot (a_root t) [].

Definition Find (fuel : nat) key (t : ATree) : result (option loc) :=
  '(_, found, _) ← FindInternal fuel key t; Done found.

Definition set_tree (t : ATree) (h : heap) (r : option loc) (s : Z) : ATree := mkATree h r s (cleared_ t).

(** [InsertInternal]: a new node below [parent]; [l] is its address. *)
Definition InsertInternal key (value metadata : Z) (parent : nptr) (l : loc) (t : ATree) : result ATree :=
  let h := <[l := mkNode key value metadata None None]> (a_heap t) in
  s ← int_op (size_ t + 1);
  match parent with
  | PRoot => Done (set_tree t h (Some l) s)
  | PNode p =>
      n ← defined (h !! p);
      Done (set_tree t (<[p := if key_ltb key (n_key n) then set_left n (Some l) else set_right n (Some l)]> h)
              (a_root t) s)
  end.

(** Run a visitor operation on the stack, from its back. *)
Fixpoint unwind (visit : loc → heap → result heap) (path : list loc) (h : heap) : result heap :=
  match path with
  | [] => Done h
  | l :: path' => h ← unwind visit path' h; visit l h
  end.

Definition with_heap (t : ATree) (h : result heap) : result ATree :=
  h ← h; Done (set_tree t h (a_root t) (size_ t)).

(** The address [new] returns. *)
Definition new_loc (t : ATree) : loc := fresh (dom (a_heap t)).

Definition insert_at_leaf (v : visitor) key (value metadata : Z) (parent : nptr) (stack : list loc) (t : ATree)
    : result ATree :=
  let l := new_loc t in
  t ← InsertInternal key value metadata parent l t;
  with_heap t (h ← OnInsert v l (a_heap t); unwind (OnInsert v) stack h).

(** [Insert]: [false] when the key is there. *)
Definition Insert (fuel : nat) (v : visitor) key (value metadata : Z) (t : ATree) : result (bool * ATree) :=
  '(parent, found, stack) ← FindInternal fuel key t;
  match found with
  | Some _ => Done (false, t)
  | None => t ← insert_at_leaf v key value metadata parent stack t; Done (true, t)
  end.

Definition InsertOrUpdate (fuel : nat) (v : visitor) key (value metadata : Z) (t : ATree) : result ATree :=
  '(parent, found, stack) ← FindInternal fuel key t;
  match found with
  | Some l => with_heap t (h ← Update v l value metadata (a_heap t); unwind (OnUpdate v) stack h)
  | None => insert_at_leaf v key value metadata parent stack t
  end.

(** [ReplaceChild(parent, child, new_node)] *)
Definition ReplaceChild (parent : nptr) (child : loc) (new_node : option loc) (t : ATree) : result ATree :=
  match parent with
  | PRoot => _ ← rome_assert (bool_decide (a_root t = Some child)); Done (set_tree t (a_heap t) new_node (size_ t))
  | PNode p =>
      n ← defined (a_heap t !! p);
      if bool_decide (n_left n = Some child) then
        Done (set_tree t (<[p := set_left n new_node]> (a_heap t)) (a_root t) (size_ t))
      else
        _ ← rome_assert (bool_decide (n_right n = Some child));
        Done (set_tree t (<[p := set_right n new_node]> (a_heap t)) (a_root t) (size_ t))
  end.

(** The leftmost node below [l]. *)
Fixpoint leftmost (fuel : nat) (h : heap) (l : loc) : result loc :=
  n ← defined (h !! l);
  match n_left n with
  | None => Done l
  | Some l' => match fuel with O => Fault FFuel | S f => leftmost f h l' end
  end.

(** [FindSuccessors(curr)]: [parent] stays the starting node. *)
Definition FindSuccessors (fuel : nat) (h : heap) (l : loc) : result (loc * option loc) :=
  n ← defined (h !! l);
  match n_right n with
  | None => Done (l, None)
  | Some r => s ← leftmost fuel h r; Done (l, Some s)
  end.

Definition Remove (fuel : nat) (v : visitor) key (t : ATree) : result (bool * ATree) :=
  '(parent, found, stack) ← FindInternal fuel key t;
  match found with
  | None => Done (false, t)
  | Some l =>
      n ← defined (a_heap t !! l);
      '(first, second) ← FindSuccessors fuel (a_heap t) l;
      t ← (match second with
           | None => ReplaceChild parent l None t
           | Some s =>
               if bool_decide (first = l) then
                 sn ← defined (a_heap t !! s);
                 let h := <[s := set_right (set_left sn (n_left n)) (n_right n)]> (a_heap t) in
                 ReplaceChild parent l (Some s) (set_tree t h (a_root t) (size_ t))
               else
                 fn ← defined (a_heap t !! first); sn ← defined (a_heap t !! s);
                 let h := <[s := set_right (set_left sn (n_left n)) (n_right n)]>
                            (<[first := set_left fn (n_right sn)]> (a_heap t)) in
                 ReplaceChild parent l (Some s) (set_tree t h (a_root t) (size_ t))
           end);
      h ← unwind (OnRemove v) stack (a_heap t);
      s ← int_op (size_ t - 1);
      Done (true, set_tree t (delete l h) (a_root t) s)
  end.

Definition Clear (t : ATree) : ATree := mkATree (a_heap t) None 0 (cleared_ t ++ [a_root t]).

(** The destructor's loop over one tree: [to_delete] is used as a stack, its back first. *)
Fixpoint delete_all (fuel : nat) (to_delete : list (option loc)) (h : heap) : result heap :=
  match fuel, to_delete with
  | _, [] => Done h
  | O, _ => Fault FFuel
  | S f, None :: rest => delete_all f rest h
  | S f, Some l :: rest =>
      n ← defined (h !! l);
      delete_all f (n_right n :: n_left n :: rest) (delete l h)
  end.

Fixpoint delete_trees (fuel : nat) (roots : list (option loc)) (h : heap) : result heap :=
  match roots with
  | [] => Done h
  | c :: roots' => h ← delete_all fuel [c] h; delete_trees fuel roots' h
  end.

(** [~ATree] *)
Definition ATree_destroy (fuel : nat) (t : ATree) : result heap :=
  delete_trees fuel (cleared_ t ++ [a_root t]) (a_heap t).

(** ** Trees in the heap *)
Inductive tree := E | N (l : loc) (k : K) (v m : Z) (a b : tree).

Fixpoint locs (t : tree) : list loc :=
  match t with E => [] | N l _ _ _ a b => l :: locs a ++ locs b end.

(** [p] points to the tree [t]. *)
Fixpoint repr (h : heap) (p : option loc) (t : tree) : Prop :=
  match t with
  | E => p = None
  | N l k v m a b => p = Some l ∧ ∃ pa pb, h !! l = Some (mkNode k v m pa pb) ∧ repr h pa a ∧ repr h pb b
  end.

Lemma repr_frame h h' p t :
  repr h p t → (∀ x, x ∈ locs t → h' !! x = h !! x) → repr h' p t.
Proof.
  revert p. induction t as [|l k v m a IHa b IHb]; intros p; cbn; [done|].
  intros (-> & pa & pb & Hl & Ha & Hb) Heq. split; [done|]. exists pa, pb. split_and!.
  - rewrite Heq; [done|]. apply list_elem_of_here.
  - apply IHa; [done|]. intros x Hx. apply Heq. right. apply elem_of_app. by left.
  - apply IHb; [done|]. intros x Hx. apply Heq. right. apply elem_of_app. by right.
Qed.

Lemma repr_insert h p t l n : repr h p t → l ∉ locs t → repr (<[l := n]> h) p t.
Proof.
  intros Hr Hl. eapply repr_frame; [exact Hr|]. intros x Hx. rewrite lookup_insert_ne; congruence.
Qed.

Lemma repr_dom h p t x : repr h p t → x ∈ locs t → is_Some (h !! x).
Proof.
  revert p. induction t as [|l k v m a IHa b IHb]; intros p; cbn; [by intros _ ?%elem_of_nil|].
  intros (-> & pa & pb & Hl & Ha & Hb) [->|[Hx|Hx]%elem_of_app]%elem_of_cons; eauto.
Qed.

(** The key of the root decides where a search goes. *)
Section ordered.
Context (ok : K → Prop) (pos : K → Z) `{!KeyLaws K ok pos}.

(** The positions of the keys. *)
Fixpoint keys (t : tree) : list Z :=
  match t with E => [] | N _ k _ _ a b => keys a ++ pos k :: keys b end.

Fixpoint bst (t : tree) : Prop :=
  match t with
  | E => True
  | N _ k _ _ a b => ok k ∧ Forall (λ x, x < pos k) (keys a) ∧ Forall (λ x, pos k < x) (keys b) ∧ bst a ∧ bst b
  end.

Fixpoint height (t : tree) : nat :=
  match t with E => 0 | N _ _ _ _ a b => S (height a `max` height b) end.

Lemma find_loop_spec h p t key fuel par st :
  ok key → repr h p t → bst t → (height t ≤ fuel)%nat →
  ∃ par' curr path, find_loop fuel h key par p st = Done (par', curr, st ++ path) ∧
    (is_Some curr ↔ pos key ∈ keys t).
Proof.
  intros Hok. revert p fuel par st. induction t as [|l k v m a IHa b IHb]; intros p fuel par st; cbn.
  { intros -> _ _. exists par, None, []. rewrite app_nil_r. destruct fuel; (split; [done|]);
      (split; [by intros [? ?]|by intros ?%elem_of_nil]). }
  intros (-> & pa & pb & Hl & Ha & Hb) (Hk0 & Hlo & Hhi & Hba & Hbb) Hf.
  destruct fuel as [|f]; [lia|]. cbn. rewrite Hl. run. cbn. rewrite key_eqb_pos, key_ltb_pos by done.
  rewrite Forall_forall in Hlo, Hhi.
  assert (pos key ∈ keys a ++ pos k :: keys b ↔ pos key ∈ keys a ∨ pos key = pos k ∨ pos key ∈ keys b) as Hk
    by by rewrite elem_of_app, elem_of_cons.
  destruct (Z.eqb_spec (pos k) (pos key)) as [Heq|Hne].
  { exists par, (Some l), []. rewrite app_nil_r. split; [done|]. rewrite Hk. split; eauto. }
  destruct (Z.ltb_spec (pos k) (pos key)) as [Hlt|Hge].
  - destruct (IHb pb f (PNode l) (st ++ [l]) Hb Hbb ltac:(lia)) as (par' & curr & path & -> & Hiff).
    exists par', curr, (l :: path). rewrite <- app_assoc. split; [done|]. rewrite Hiff, Hk.
    split; [tauto|]. intros [Hx|[?|?]]; [specialize (Hlo _ Hx); lia|congruence|done].
  - destruct (IHa pa f (PNode l) (st ++ [l]) Ha Hba ltac:(lia)) as (par' & curr & path & -> & Hiff).
    exists par', curr, (l :: path). rewrite <- app_assoc. split; [done|]. rewrite Hiff, Hk.
    split; [tauto|]. intros [?|[?|Hx]]; [done|congruence|specialize (Hhi _ Hx); lia].
Qed.
End ordered.

(** ** The destructor *)
Abbreviation all_locs ts := (mjoin (locs <$> ts)).
#[local] Arguments Nat.mul : simpl never.

Lemma repr_forest_frame h h' ps ts :
  Forall2 (repr h) ps ts → (∀ x, x ∈ all_locs ts → h' !! x = h !! x) → Forall2 (repr h') ps ts.
Proof.
  induction 1 as [|p t ps ts Hp _ IH]; intros Hx; constructor.
  - eapply repr_frame; [exact Hp|]. intros x Hin. apply Hx. cbn. apply elem_of_app. by left.
  - apply IH. intros x Hin. apply Hx. cbn. apply elem_of_app. by right.
Qed.

(** The nodes of the trees on the stack, and only these, are deleted, each once. *)
Lemma delete_all_spec fuel ps ts h :
  Forall2 (repr h) ps ts → NoDup (all_locs ts) → (2 * length (all_locs ts) + length ps ≤ fuel)%nat →
  ∃ h', delete_all fuel ps h = Done h' ∧ ∀ x, h' !! x = if decide (x ∈ all_locs ts) then None else h !! x.
Proof.
  revert ps ts h. induction fuel as [|f IH]; intros ps ts h Hr Hnd Hf.
  { destruct Hr; [|cbn in Hf; lia]. exists h. split; [done|]. intros x.
    by rewrite decide_False by apply not_elem_of_nil. }
  destruct Hr as [|p t ps ts Hp Hr].
  { exists h. split; [done|]. intros x. by rewrite decide_False by apply not_elem_of_nil. }
  destruct t as [|l k v m a b].
  { cbn in Hp. subst p. apply (IH ps ts h Hr Hnd). change (all_locs (E :: ts)) with (all_locs ts) in Hf.
    cbn [length] in Hf. lia. }
  destruct Hp as (-> & pa & pb & Hl & Ha & Hb).
  change (all_locs (N l k v m a b :: ts)) with (l :: (locs a ++ locs b) ++ all_locs ts) in Hnd, Hf.
  apply NoDup_cons in Hnd as [Hl' Hnd]. cbn [length] in Hf.
  assert (all_locs (b :: a :: ts) ≡ₚ (locs a ++ locs b) ++ all_locs ts) as Hperm.
  { cbn. rewrite (app_assoc (locs b)). apply Permutation_app_tail, Permutation_app_comm. }
  destruct (IH (pb :: pa :: ps) (b :: a :: ts) (delete l h)) as (h' & Hd & Hx).
  - eapply repr_forest_frame with h; [by repeat constructor|]. intros x Hin. rewrite lookup_delete_ne; [done|].
    intros ->. rewrite Hperm in Hin. done.
  - by rewrite Hperm.
  - rewrite (Permutation_length Hperm). cbn [length]. lia.
  - exists h'. cbn [delete_all]. rewrite Hl. run. split; [exact Hd|]. intros x. rewrite Hx.
    assert (x ∈ all_locs (N l k v m a b :: ts) ↔ x = l ∨ x ∈ all_locs (b :: a :: ts)) as Hiff.
    { rewrite Hperm. apply elem_of_cons. }
    destruct (decide (x ∈ all_locs (b :: a :: ts))) as [Hin|Hni].
    + rewrite decide_True; [done|]. apply Hiff. by right.
    + destruct (decide (x = l)) as [->|Hne].
      * rewrite decide_True, lookup_delete_eq; [done|]. apply Hiff. by left.
      * rewrite decide_False, lookup_delete_ne by (done || rewrite Hiff; tauto). done.
Qed.

Lemma delete_trees_spec fuel ps ts h :
  Forall2 (repr h) ps ts → NoDup (all_locs ts) → (2 * length (all_locs ts) + 1 ≤ fuel)%nat →
  ∃ h', delete_trees fuel ps h = Done h' ∧ ∀ x, h' !! x = if decide (x ∈ all_locs ts) then None else h !! x.
Proof.
  revert ts h. induction ps as [|p ps IH]; intros ts h Hr Hnd Hf; inversion Hr as [|? t ? ts' Hp Hr']; subst.
  { exists h. split; [done|]. intros x. by rewrite decide_False by apply not_elem_of_nil. }
  change (all_locs (t :: ts')) with (locs t ++ all_locs ts') in Hnd, Hf.
  rewrite length_app in Hf. apply NoDup_app in Hnd as (Hnd1 & Hdis & Hnd2).
  destruct (delete_all_spec fuel [p] [t] h) as (h1 & Hd & Hx1); 
    [by repeat constructor|cbn; by rewrite app_nil_r|cbn; rewrite app_nil_r; lia|].
  cbn in Hx1. rewrite app_nil_r in Hx1.
  destruct (IH ts' h1) as (h2 & Hd2 & Hx2); [|done|lia|].
  { eapply repr_forest_frame; [exact Hr'|]. intros x Hx. rewrite Hx1, decide_False; [done|].
    intros Hin. by eapply Hdis. }
  exists h2. cbn. rewrite Hd. run. split; [exact Hd2|]. intros x. rewrite Hx2, Hx1.
  assert (x ∈ all_locs (t :: ts') ↔ x ∈ locs t ∨ x ∈ all_locs ts') as Hiff by (cbn; apply elem_of_app).
  destruct (decide (x ∈ all_locs ts')), (decide (x ∈ locs t));
    first [rewrite decide_True by (rewrite Hiff; tauto)|rewrite decide_False by (rewrite Hiff; tauto)]; done.
Qed.

(** A tree object owns its nodes: those of the tree and of the trees it has set aside. *)
Record owns_nodes (T : ATree) (ts : list tree) (t : tree) : Prop := {
  on_cleared : Forall2 (repr (a_heap T)) (cleared_ T) ts;
  on_root : repr (a_heap T) (a_root T) t;
  on_nodup : NoDup (all_locs (ts ++ [t]));
  on_all : ∀ x, is_Some (a_heap T !! x) → x ∈ all_locs (ts ++ [t]) }.

Lemma all_locs_snoc ts t : all_locs (ts ++ [t]) = all_locs ts ++ locs t.
Proof. rewrite fmap_app, join_app. cbn. by rewrite app_nil_r. Qed.

Lemma owns_new : owns_nodes ATree_new [] E.
Proof. split; cbn; [constructor|done|apply NoDup_nil_2|]. by intros x [? ?]. Qed.

Lemma owns_clear T ts t : owns_nodes T ts t → owns_nodes (Clear T) (ts ++ [t]) E.
Proof.
  intros [Hc Hr Hn Ha]. split; cbn.
  - apply Forall2_app; [done|]. by repeat constructor.
  - done.
  - rewrite all_locs_snoc. cbn. by rewrite app_nil_r.
  - intros x Hx. rewrite all_locs_snoc. cbn. rewrite app_nil_r. by apply Ha.
Qed.

(** A change confined to the tree and fresh addresses. *)
Lemma owns_update T T' ts t t' :
  owns_nodes T ts t → repr (a_heap T') (a_root T') t' → cleared_ T' = cleared_ T → NoDup (locs t') →
  (∀ x, x ∈ locs t → x ∈ locs t') → (∀ x, x ∈ locs t' → x ∈ locs t ∨ a_heap T !! x = None) →
  (∀ x, x ∉ locs t' → a_heap T' !! x = a_heap T !! x) → owns_nodes T' ts t'.
Proof.
  intros [Hc Hr Hn Ha] Hr' Hcl Hnd Hsub Hnew Hframe.
  rewrite all_locs_snoc, NoDup_app in Hn. destruct Hn as (Hn1 & Hdis & _).
  assert (∀ x, x ∈ all_locs ts → x ∉ locs t') as Hdis'.
  { intros x Hx [Hx'|Hnone]%Hnew; [by eapply Hdis|].
    assert (is_Some (a_heap T !! x)) as [n Hn]; [|congruence]. clear -Hc Hx.
    induction Hc as [|p u ps us Hp _ IH]; cbn in Hx; [by apply elem_of_nil in Hx|].
    apply elem_of_app in Hx as [Hx|Hx]; [by eapply repr_dom|auto]. }
  split.
  - rewrite Hcl. eapply repr_forest_frame; [exact Hc|]. intros x Hx. by apply Hframe, Hdis'.
  - done.
  - rewrite all_locs_snoc, NoDup_app. done.
  - intros x Hx. rewrite all_locs_snoc, elem_of_app. destruct (decide (x ∈ locs t')) as [?|Hni]; [by right|].
    rewrite Hframe in Hx by done. apply Ha in Hx. rewrite all_locs_snoc, elem_of_app in Hx.
    destruct Hx as [?|?%Hsub]; [by left|done].
Qed.

(** The destructor deletes every node once and leaves nothing. *)
Lemma destroy_owned fuel T ts t :
  owns_nodes T ts t → (2 * length (all_locs (ts ++ [t])) + 1 ≤ fuel)%nat → ATree_destroy fuel T = Done ∅.
Proof.
  intros [Hc Hr Hn Ha] Hf. unfold ATree_destroy.
  destruct (delete_trees_spec fuel (cleared_ T ++ [a_root T]) (ts ++ [t]) (a_heap T)) as (h' & -> & Hx); [|done..|].
  { apply Forall2_app; [done|]. by repeat constructor. }
  f_equal. apply map_empty. intros x. rewrite Hx. case_decide as Hin; [done|].
  destruct (a_heap T !! x) eqn:E; [|done]. destruct Hin. apply Ha. by eexists.
Qed.

Lemma all_locs_size h ps ts :
  Forall2 (repr h) ps ts → NoDup (all_locs ts) → (length (all_locs ts) ≤ size h)%nat.
Proof.
  intros Hr Hnd. rewrite <- size_dom, <- (size_list_to_set (C:=gset loc)) by done. apply subseteq_size.
  intros x Hx%elem_of_list_to_set. apply elem_of_dom. clear Hnd.
  induction Hr as [|p t ps ts Hp _ IH]; cbn in Hx; [by apply elem_of_nil in Hx|].
  apply elem_of_app in Hx as [Hx|Hx]; [by eapply repr_dom|auto].
Qed.

Lemma destroy_owned_heap fuel T ts t :
  owns_nodes T ts t → (2 * size (a_heap T) + 1 ≤ fuel)%nat → ATree_destroy fuel T = Done ∅.
Proof.
  intros Ho Hf. eapply destroy_owned; [exact Ho|]. destruct Ho as [Hc Hr Hn _].
  assert (length (all_locs (ts ++ [t])) ≤ size (a_heap T))%nat; [|lia].
  eapply all_locs_size; [|exact Hn]. apply Forall2_app; [exact Hc|by repeat constructor].
Qed.
End atree.
Arguments node : clear implicits.
Arguments ATree : clear implicits.
Arguments visitor : clear implicits.
Arguments tree : clear implicits.
