(* ===== verification/Double.v ===== *)
(** * [double]: IEEE-754 binary64 arithmetic

    The measuring code computes in [double]. Its operations are those of the Standard
    Library's specification of floating-point numbers at 53 bits of precision, rounding to
    nearest even; a literal is a correctly rounded quotient of integers. On the numbers
    that are not NaN the comparisons are those of a position on a line, which makes
    doubles keys of a search tree. *)
From Stdlib Require Import Floats.SpecFloat.
From S2P Require Import Prelude ATree.

Abbreviation double := spec_float.
Declare Scope double_scope.
Delimit Scope double_scope with D.
Bind Scope double_scope with spec_float.

#[export] Instance double_eq_dec : EqDecision double.
Proof. solve_decision. Defined.

Definition dadd : double → double → double := SFadd 53 1024.
Definition dsub : double → double → double := SFsub 53 1024.
Definition dmul : double → double → double := SFmul 53 1024.
Definition ddiv : double → double → double := SFdiv 53 1024.
Definition dsqrt : double → double := SFsqrt 53 1024.
Infix "+" := dadd : double_scope.
Infix "-" := dsub : double_scope.
Infix "*" := dmul : double_scope.
Infix "/" := ddiv : double_scope.

(** Comparisons: false when an operand is NaN. *)
Definition deqb (x y : double) : bool := SFeqb x y.
Definition dltb (x y : double) : bool := SFltb x y.

(** [std::min(a, b)] and [std::max(a, b)] *)
Definition dmin (a b : double) : double := if dltb b a then b else a.
Definition dmax (a b : double) : double := if dltb a b then b else a.

(** Conversion from an integer. *)
Definition of_int (n : Z) : double := binary_normalize 53 1024 n 0 false.
(** The literal [n / 10^k]. *)
Definition lit (n k : Z) : double := (of_int n / of_int (10 ^ k))%D.

(** The integer part, if there is one. *)
Definition truncate (x : double) : option Z :=
  match x with
  | S754_zero _ => Some 0
  | S754_finite s m e =>
      let a := if 0 <=? e then Z.shiftl (Zpos m) e else Z.shiftr (Zpos m) (- e) in
      Some (if s then - a else a)
  | _ => None
  end.

(** Conversion to [int] and to [uint64_t]: undefined when the value does not fit. *)
Definition to_int (x : double) : result Z := n ← defined (truncate x); int_op n.
Definition to_uint64 (x : double) : result Z :=
  n ← defined (truncate x); if (0 <=? n) && (n <? 2 ^ 64) then Done n else Fault FUndef.

Definition is_nan (x : double) : bool := match x with S754_nan => true | _ => false end.
Definition is_finite (x : double) : bool := match x with S754_zero _ | S754_finite _ _ _ => true | _ => false end.

(** ** Numbers on a line *)
(** A number: not NaN, its mantissa as the format stores it. *)
Definition num (x : double) : Prop := is_nan x = false ∧ valid_binary 53 1024 x = true.

Definition signed (s : bool) (n : Z) : Z := if s then - n else n.
(** The value in units of the smallest positive double; infinity lies beyond all of them. *)
Definition dpos (x : double) : Z :=
  match x with
  | S754_zero _ | S754_nan => 0
  | S754_infinity s => signed s (2 ^ 2200)
  | S754_finite s m e => signed s (Zpos m * 2 ^ (e + 1074))
  end.

Lemma digits2_bounds m : 2 ^ (Zpos (digits2_pos m) - 1) ≤ Zpos m < 2 ^ Zpos (digits2_pos m).
Proof.
  induction m as [m IH|m IH|]; cbn [digits2_pos]; rewrite ?Pos2Z.inj_succ; [| |lia].
  - replace (Z.succ (Zpos (digits2_pos m)) - 1) with (Z.succ (Zpos (digits2_pos m) - 1)) by lia.
    rewrite !Z.pow_succ_r by lia. lia.
  - replace (Z.succ (Zpos (digits2_pos m)) - 1) with (Z.succ (Zpos (digits2_pos m) - 1)) by lia.
    rewrite !Z.pow_succ_r by lia. lia.
Qed.

(** What validity says about a finite number. *)
Lemma bounded_facts m e : bounded 53 1024 m e = true →
  -1074 ≤ e ≤ 971 ∧ Zpos m < 2 ^ 53 ∧ (-1074 < e → 2 ^ 52 ≤ Zpos m).
Proof.
  unfold bounded, canonical_mantissa, fexp, emin. rewrite andb_true_iff, Z.eqb_eq, Z.leb_le.
  intros [Hc He]. pose proof (digits2_bounds m) as [Hlo Hhi].
  split_and!; [lia|lia| |].
  - eapply Z.lt_le_trans; [exact Hhi|]. apply Z.pow_le_mono_r; lia.
  - intros Hlt. etrans; [|exact Hlo]. apply Z.pow_le_mono_r; lia.
Qed.

Lemma scaled_compare m1 e1 m2 e2 : bounded 53 1024 m1 e1 = true → bounded 53 1024 m2 e2 = true →
  (Zpos m1 * 2 ^ (e1 + 1074) ?= Zpos m2 * 2 ^ (e2 + 1074)) =
  match e1 ?= e2 with Eq => Pos.compare_cont Eq m1 m2 | c => c end.
Proof.
  intros (He1 & Hm1 & Hn1)%bounded_facts (He2 & Hm2 & Hn2)%bounded_facts.
  assert (∀ m e m' e', -1074 ≤ e → e < e' → Zpos m < 2 ^ 53 → 2 ^ 52 ≤ Zpos m' →
    Zpos m * 2 ^ (e + 1074) < Zpos m' * 2 ^ (e' + 1074)) as Hlt.
  { intros m e m' e' He Hee Hm Hm'.
    replace (2 ^ (e' + 1074)) with (2 ^ (e + 1074) * (2 * 2 ^ (e' - e - 1))).
    2:{ rewrite <- Z.pow_succ_r, <- Z.pow_add_r by lia. f_equal. lia. }
    assert (0 < 2 ^ (e + 1074)) as HP by (apply Z.pow_pos_nonneg; lia).
    assert (0 < 2 ^ (e' - e - 1)) as HQ by (apply Z.pow_pos_nonneg; lia).
    apply Z.lt_le_trans with (2 * Zpos m' * 2 ^ (e + 1074)); [apply Z.mul_lt_mono_pos_r; lia|].
    revert HP HQ. generalize (2 ^ (e + 1074)) (2 ^ (e' - e - 1)). nia. }
  destruct (Z.compare_spec e1 e2) as [->|Hlt12|Hlt21].
  - assert (0 < 2 ^ (e2 + 1074)) by (apply Z.pow_pos_nonneg; lia).
    by rewrite <- Zmult_compare_compat_r by lia.
  - apply Z.compare_lt_iff. apply Hlt; (done || lia).
  - apply Z.compare_gt_iff. apply Hlt; (done || lia).
Qed.

Lemma scaled_bound m e : bounded 53 1024 m e = true → 0 < Zpos m * 2 ^ (e + 1074) < 2 ^ 2200.
Proof.
  intros (He & Hm & _)%bounded_facts. split; [apply Z.mul_pos_pos; [lia|apply Z.pow_pos_nonneg; lia]|].
  assert (2 ^ (e + 1074) ≤ 2 ^ 2045) by (apply Z.pow_le_mono_r; lia).
  assert (0 < 2 ^ (e + 1074)) by (apply Z.pow_pos_nonneg; lia).
  replace (2 ^ 2200) with (2 ^ 53 * (2 ^ 2045 * 2 ^ 102)) by reflexivity.
  assert (0 < 2 ^ 102) by (apply Z.pow_pos_nonneg; lia). nia.
Qed.

(** The comparison of numbers is the comparison of their positions. *)
Lemma compare_dpos x y : num x → num y → SFcompare x y = Some (dpos x ?= dpos y).
Proof.
  intros [Hnx Hx] [Hny Hy].
  assert (∀ a, 0 < a < 2 ^ 2200 → - 2 ^ 2200 < - a < 0) as Hneg by lia.
  destruct x as [sx|sx| |sx mx ex], y as [sy|sy| |sy my ey]; try done;
    cbn -[Z.pow] in Hx, Hy; cbn [SFcompare dpos];
    try (apply scaled_bound in Hx as Bx); try (apply scaled_bound in Hy as By);
    f_equal; symmetry;
    repeat match goal with s : bool |- _ => destruct s end; cbn [signed];
    rewrite ?Z.compare_opp, ?Z.compare_refl;
    try (apply Z.compare_lt_iff; lia); try (apply Z.compare_gt_iff; lia); try done.
  - rewrite scaled_compare by done. destruct (Z.compare_spec ex ey) as [->|?|?].
    + rewrite Z.compare_refl. cbn. change (Pos.compare_cont Eq my mx) with (my ?= mx)%positive.
      by rewrite Pos.compare_antisym.
    + by rewrite (proj2 (Z.compare_gt_iff _ _)).
    + by rewrite (proj2 (Z.compare_lt_iff _ _)).
  - by apply scaled_compare.
Qed.

(** Doubles as keys. *)
#[export] Instance Key_double : Key double := {| key_eqb := deqb; key_ltb := dltb |}.

#[export] Instance KeyLaws_double : KeyLaws double num dpos.
Proof.
  split; intros x y Hx Hy; cbn [key_eqb key_ltb Key_double]; unfold deqb, SFeqb, dltb, SFltb;
    rewrite compare_dpos by done; destruct (Z.compare_spec (dpos x) (dpos y)); symmetry.
  all: rewrite ?Z.eqb_eq, ?Z.eqb_neq, ?Z.ltb_lt, ?Z.ltb_ge; lia.
Qed.

Lemma dltb_dpos x y : num x → num y → dltb x y = (dpos x <? dpos y).
Proof. exact (key_ltb_pos (K:=double) (ok:=num) (pos:=dpos) x y). Qed.

Lemma num_dmin x y : num x → num y → num (dmin x y) ∧ dpos (dmin x y) = Z.min (dpos x) (dpos y).
Proof.
  intros Hx Hy. unfold dmin. rewrite dltb_dpos by done.
  destruct (Z.ltb_spec (dpos y) (dpos x)); (split; [done|lia]).
Qed.

Lemma num_dmax x y : num x → num y → num (dmax x y) ∧ dpos (dmax x y) = Z.max (dpos x) (dpos y).
Proof.
  intros Hx Hy. unfold dmax. rewrite dltb_dpos by done.
  destruct (Z.ltb_spec (dpos x) (dpos y)); (split; [done|lia]).
Qed.

(** The position determines the number, up to the sign of zero. *)
Lemma dpos_inj x y : num x → num y → dpos x = dpos y → x = y ∨ (dpos x = 0 ∧ dpos y = 0).
Proof.
  intros Hx Hy Heq. pose proof (compare_dpos x y Hx Hy) as Hc. rewrite Heq, Z.compare_refl in Hc.
  destruct x as [sx|sx| |sx mx ex], y as [sy|sy| |sy my ey]; try done; try (by right);
    repeat match goal with s : bool |- _ => destruct s end; try done; left; cbn in Hc; try reflexivity.
  all: destruct (Z.compare_spec ex ey) as [->| |]; try done.
  - injection Hc as Hc. change (CompOpp (mx ?= my)%positive = Eq) in Hc. f_equal.
    destruct (Pos.compare_spec mx my); done.
  - injection Hc as Hc. change ((mx ?= my)%positive = Eq) in Hc. f_equal. by apply Pos.compare_eq.
Qed.
