(* ===== verification/DoubleRound.v ===== *)
(** * Rounding and the integers

    What the operations of [Double.v] do with values between integers: a correctly rounded
    result never leaves an interval whose ends are integers of at most 52 bits. Values are
    compared by their position [dpos], in units of the smallest positive double. *)
From Stdlib Require Import Floats.SpecFloat.
From S2P Require Import Prelude ATree Double.

(** ** Shifting a mantissa *)
Definition exact (r : shr_record) : Prop := shr_r r = false ∧ shr_s r = false.

Lemma iter_pos_nat {A} (f : A → A) p x : SpecFloat.iter_pos f p x = Nat.iter (Pos.to_nat p) f x.
Proof.
  revert x. induction p as [p IH|p IH|]; intros x; cbn [SpecFloat.iter_pos]; [| |done].
  - rewrite !IH, Pos2Nat.inj_xI, Nat.iter_succ_r.
    replace (2 * Pos.to_nat p)%nat with (Pos.to_nat p + Pos.to_nat p)%nat by lia. by rewrite Nat.iter_add.
  - rewrite !IH, Pos2Nat.inj_xO.
    replace (2 * Pos.to_nat p)%nat with (Pos.to_nat p + Pos.to_nat p)%nat by lia. by rewrite Nat.iter_add.
Qed.

Lemma shr_1_spec r : 0 ≤ shr_m r →
  shr_m (shr_1 r) = shr_m r / 2 ∧ (exact (shr_1 r) ↔ exact r ∧ shr_m r mod 2 = 0).
Proof.
  destruct r as [m r s]. unfold exact. cbn [shr_m shr_r shr_s]. intros Hm.
  destruct m as [|[p|p|]|]; cbn [shr_1 shr_m shr_r shr_s]; [|split..|lia].
  - split; [done|]. destruct r, s; cbn; naive_solver.
  - rewrite Pos2Z.inj_xI. Z.to_euclidean_division_equations. lia.
  - assert (Zpos p~1 mod 2 = 1) as -> by (rewrite Pos2Z.inj_xI; Z.to_euclidean_division_equations; lia). naive_solver.
  - rewrite Pos2Z.inj_xO. Z.to_euclidean_division_equations. lia.
  - assert (Zpos p~0 mod 2 = 0) as -> by (rewrite Pos2Z.inj_xO; Z.to_euclidean_division_equations; lia).
    destruct r, s; cbn; naive_solver.
  - done.
  - change (1 mod 2) with 1. naive_solver.
Qed.

Lemma shift_spec r0 n : 0 ≤ shr_m r0 →
  let r := Nat.iter n shr_1 r0 in
  shr_m r = shr_m r0 / 2 ^ Z.of_nat n ∧ (exact r ↔ exact r0 ∧ shr_m r0 mod 2 ^ Z.of_nat n = 0).
Proof.
  intros Hm. set (m := shr_m r0) in *. induction n as [|n [IHm IHe]]; cbn zeta.
  { change (2 ^ Z.of_nat 0) with 1. rewrite Z.div_1_r, Z.mod_1_r. naive_solver. }
  set (r := Nat.iter n shr_1 r0) in *. cbn zeta in *.
  change (Nat.iter (S n) shr_1 r0) with (shr_1 r).
  assert (0 < 2 ^ Z.of_nat n) as Hp by (apply Z.pow_pos_nonneg; lia).
  destruct (shr_1_spec r) as [-> ->]; [rewrite IHm; by apply Z.div_pos|].
  rewrite IHe, IHm, Nat2Z.inj_succ, Z.pow_succ_r, (Z.mul_comm 2), Z.div_div by lia. split; [done|].
  rewrite (Z.mod_eq m (2 ^ Z.of_nat n * 2)), <- Z.div_div by lia.
  pose proof (Z.div_mod m (2 ^ Z.of_nat n) ltac:(lia)) as E1. pose proof (Z.mod_pos_bound m (2 ^ Z.of_nat n) Hp) as B1.
  pose proof (Z.div_mod (m / 2 ^ Z.of_nat n) 2 ltac:(lia)) as E2. pose proof (Z.mod_pos_bound (m / 2 ^ Z.of_nat n) 2 ltac:(lia)) as B2.
  revert E1 B1 E2 B2 Hp. generalize (2 ^ Z.of_nat n).
  intros P E1 B1 E2 B2 Hp. assert (m `mod` P = 0 ∧ m `div` P `mod` 2 = 0 ↔ m - P * 2 * (m `div` P `div` 2) = 0) by nia. tauto.
Qed.

(** What a location leaves between a value and its mantissa. *)
Definition rest (l : location) : Z := match l with loc_Exact => 0 | loc_Inexact _ => 1 end.

Lemma record_of_loc m l : shr_m (shr_record_of_loc m l) = m ∧ (exact (shr_record_of_loc m l) ↔ rest l = 0).
Proof. destruct l as [|[]]; unfold exact; cbn; naive_solver. Qed.

(** Rounding to nearest keeps to the integers on both sides. *)
Lemma round_between r m d n L U : 0 ≤ m → 0 ≤ n → 0 ≤ d → shr_m r = m / 2 ^ n → (exact r ↔ d = 0 ∧ m mod 2 ^ n = 0) →
  let R := round_nearest_even (shr_m r) (loc_of_shr_record r) in
  (L * 2 ^ n ≤ m → L ≤ R) ∧ (m + d ≤ U * 2 ^ n → R ≤ U).
Proof.
  intros Hm Hn Hd Hr He R. assert (0 < 2 ^ n) as Hp by (apply Z.pow_pos_nonneg; lia).
  pose proof (Z.div_mod m (2 ^ n) ltac:(lia)) as Hdm. pose proof (Z.mod_pos_bound m (2 ^ n) Hp) as Hmod.
  assert (m / 2 ^ n ≤ R ≤ m / 2 ^ n + 1 ∧ (d = 0 ∧ m mod 2 ^ n = 0 → R = m / 2 ^ n)) as [HR Hex].
  { subst R. rewrite <- Hr, <- He. destruct r as [q [|] [|]]; unfold exact; cbn; try case_match; (split; [lia|]); intros [? ?]; done || lia. }
  split; intros Hb.
  - assert (L ≤ m / 2 ^ n) by (apply Z.div_le_lower_bound; lia). lia.
  - destruct (decide (d = 0 ∧ m mod 2 ^ n = 0)) as [E|E].
    + rewrite Hex by done. apply Z.div_le_upper_bound; lia.
    + assert (m / 2 ^ n < U) by (apply Z.nle_gt; intros Hq; nia). lia.
Qed.

(** ** Rounding to 53 bits *)
Definition good (z : double) : Prop :=
  match z with S754_zero _ => True | S754_finite _ _ e => -1074 ≤ e | _ => False end.

Lemma digits_bounds m : 0 < m → 2 ^ (Zdigits2 m - 1) ≤ m < 2 ^ Zdigits2 m ∧ 0 < Zdigits2 m.
Proof. destruct m as [|p|p]; try lia. intros _. split; [apply digits2_bounds|done]. Qed.

Lemma shr_nonneg r e n : 0 ≤ n → shr r e n = (Nat.iter (Z.to_nat n) shr_1 r, e + n).
Proof.
  intros Hn. destruct n as [|p|p]; [by rewrite Z.add_0_r| |lia].
  unfold shr. by rewrite iter_pos_nat, Z2Nat.inj_pos.
Qed.

Lemma shr_neg r e n : n ≤ 0 → shr r e n = (r, e).
Proof. by destruct n. Qed.

(** The second rounding step of the specification only renormalises. *)
Lemma renormalise s R g : 0 ≤ R ≤ 2 ^ 53 → -1074 ≤ g ≤ 900 →
  let '(r, e) := shr_fexp 53 1024 R g loc_Exact in
  ∃ z, match shr_m r with
       | Z0 => S754_zero s
       | Zpos m => if e <=? 1024 - 53 then S754_finite s m e else S754_infinity s
       | Zneg _ => S754_nan
       end = z ∧ good z ∧ dpos z = signed s (R * 2 ^ (g + 1074)).
Proof.
  intros HR Hg. unfold shr_fexp, fexp, emin. cbn [shr_record_of_loc].
  destruct (decide (R = 2 ^ 53)) as [->|Hne].
  - change (Zdigits2 (2 ^ 53)) with 54. replace (Z.max (54 + g - 53) (3 - 1024 - 53) - g) with 1 by lia.
    change (shr (Build_shr_record (2 ^ 53) false false) g 1) with (Build_shr_record 4503599627370496 false false, g + 1).
    cbn beta iota zeta delta [shr_m]. rewrite (proj2 (Z.leb_le (g + 1) (1024 - 53))) by lia. eexists. split; [done|].
    split; [unfold good; lia|]. unfold dpos. f_equal. replace (g + 1 + 1074) with (Z.succ (g + 1074)) by lia.
    rewrite Z.pow_succ_r by lia. replace (2 ^ 53) with (4503599627370496 * 2) by reflexivity. lia.
  - rewrite shr_neg.
    2: { destruct (decide (R = 0)) as [->|]; [cbn; lia|]. destruct (digits_bounds R ltac:(lia)) as [[Hlo _] Hpos].
         assert (Zdigits2 R - 1 < 53); [|lia]. apply (Z.pow_lt_mono_r_iff 2); lia. }
    cbn [shr_m]. destruct R as [|p|p]; [| |lia].
    + eexists. split; [done|]. split; [done|]. cbn. by destruct s.
    + rewrite (proj2 (Z.leb_le _ _)) by lia. eexists. split; [done|]. split; [unfold good; lia|]. done.
Qed.

(** A rounded mantissa and exponent, between two multiples of [2 ^ h]. The value lies between
    [m] and [m + rest l] times [2 ^ e]; everything is given in units of [2 ^ -2200]. *)
Lemma round_aux_between s m e l h : 0 < m → -2200 ≤ e → -1074 ≤ h ≤ 800 → rest l = 0 ∨ e ≤ h →
  (m + rest l) * 2 ^ (e + 2200) ≤ 2 ^ 52 * 2 ^ (h + 2200) →
  ∃ R, good (binary_round_aux 53 1024 s m e l) ∧ dpos (binary_round_aux 53 1024 s m e l) = signed s R ∧
    ∀ L U, (L * 2 ^ (h + 2200) ≤ m * 2 ^ (e + 2200) → L * 2 ^ (h + 1074) ≤ R) ∧
      ((m + rest l) * 2 ^ (e + 2200) ≤ U * 2 ^ (h + 2200) → R ≤ U * 2 ^ (h + 1074)).
Proof.
  intros Hm He Hh Hl Hv. destruct (digits_bounds m Hm) as [[Hlo Hhi] HD]. set (D := Zdigits2 m) in *.
  assert (0 ≤ rest l ≤ 1) as Hrest by (destruct l; cbn; lia).
  assert (D - 1 + e ≤ 52 + h) as Hde.
  { assert (2 ^ (D - 1 + (e + 2200)) ≤ 2 ^ (52 + (h + 2200))) as Hp.
    { rewrite (Z.pow_add_r 2 (D - 1) (e + 2200)), (Z.pow_add_r 2 52 (h + 2200)) by lia. etransitivity; [|exact Hv].
      apply Z.mul_le_mono_nonneg_r; [apply Z.pow_nonneg; lia|lia]. }
    apply Z.pow_le_mono_r_iff in Hp; lia. }
  set (k0 := Z.max (D + e - 53) (3 - 1024 - 53) - e). set (k := Z.max k0 0). unfold binary_round_aux.
  change (shr_fexp 53 1024 m e l) with (shr (shr_record_of_loc m l) e k0).
  replace (shr (shr_record_of_loc m l) e k0) with (Nat.iter (Z.to_nat k) shr_1 (shr_record_of_loc m l), e + k).
  2: { rewrite <- shr_nonneg by lia. unfold k. destruct (Z.max_spec k0 0) as [[Hk ->]|[_ ->]]; [|done]. by rewrite !shr_neg by lia. }
  destruct (record_of_loc m l) as [Em Eex].
  destruct (shift_spec (shr_record_of_loc m l) (Z.to_nat k) ltac:(lia)) as [Hq Hex]. rewrite Em, Z2Nat.id in Hq, Hex by lia. rewrite Eex in Hex.
  set (r := Nat.iter (Z.to_nat k) shr_1 (shr_record_of_loc m l)) in *.
  pose proof (λ L U, round_between r m (rest l) k L U ltac:(lia) ltac:(lia) ltac:(lia) Hq Hex) as Hb. cbn zeta in Hb.
  set (R := round_nearest_even (shr_m r) (loc_of_shr_record r)) in *. set (g := e + k).
  assert (0 ≤ R ≤ 2 ^ 53) as HR.
  { split; [apply (Hb 0 0); lia|]. apply (Hb 0 (2 ^ 53)). rewrite <- Z.pow_add_r by lia.
    assert (2 ^ D ≤ 2 ^ (53 + k)) by (apply Z.pow_le_mono_r; lia). lia. }
  pose proof (renormalise s R g HR ltac:(lia)) as Hr. destruct (shr_fexp 53 1024 R g loc_Exact) as [r' e'].
  destruct Hr as (z & -> & Hz & Hd). exists (R * 2 ^ (g + 1074)). split; [exact Hz|]. split; [exact Hd|]. intros L U.
  assert (0 < 2 ^ (e + 2200)) by (apply Z.pow_pos_nonneg; lia).
  destruct (Z.le_gt_cases g h) as [Hg|Hg].
  - assert (∀ X, X * 2 ^ (h + 2200) = X * 2 ^ (h - g) * 2 ^ k * 2 ^ (e + 2200)) as Hx.
    { intros X. rewrite <- !Z.mul_assoc, <- !Z.pow_add_r by lia. do 2 f_equal. lia. }
    assert (∀ X, X * 2 ^ (h + 1074) = X * 2 ^ (h - g) * 2 ^ (g + 1074)) as Hy.
    { intros X. rewrite <- Z.mul_assoc, <- Z.pow_add_r by lia. do 2 f_equal. lia. }
    rewrite !Hx, !Hy. destruct (Hb (L * 2 ^ (h - g)) (U * 2 ^ (h - g))) as [HbL HbU].
    split; intros Hc; apply Z.mul_le_mono_pos_r in Hc; try done; apply Z.mul_le_mono_nonneg_r;
      try (apply Z.pow_nonneg; lia); auto.
  - assert (k = 0) as Hk by lia. assert (rest l = 0) as Hl0 by lia.
    assert (R = m) as ->. { destruct (Hb m m) as [H1 H2]. rewrite Hk, Hl0, Z.pow_0_r in *. lia. }
    unfold g. rewrite Hk, Hl0, !Z.add_0_r.
    assert (∀ X, X * 2 ^ (h + 2200) = X * 2 ^ (h + 1074) * 2 ^ 1126) as Hx.
    { intros X. rewrite <- Z.mul_assoc, <- Z.pow_add_r by lia. do 2 f_equal. lia. }
    assert (m * 2 ^ (e + 2200) = m * 2 ^ (e + 1074) * 2 ^ 1126) as ->.
    { rewrite <- Z.mul_assoc, <- Z.pow_add_r by lia. do 2 f_equal. lia. }
    rewrite !Hx. assert (0 < 2 ^ 1126) by (apply Z.pow_pos_nonneg; lia).
    split; intros Hc; by apply Z.mul_le_mono_pos_r in Hc.
Qed.

(** The same between integers, for a mantissa that is exact. *)
Lemma round_exact_between s m e : 0 < m → -2200 ≤ e → m * 2 ^ (e + 2200) ≤ 2 ^ 52 * 2 ^ 2200 →
  ∃ R, good (binary_round_aux 53 1024 s m e loc_Exact) ∧ dpos (binary_round_aux 53 1024 s m e loc_Exact) = signed s R ∧
    ∀ L U, (L * 2 ^ 2200 ≤ m * 2 ^ (e + 2200) → L * 2 ^ 1074 ≤ R) ∧ (m * 2 ^ (e + 2200) ≤ U * 2 ^ 2200 → R ≤ U * 2 ^ 1074).
Proof.
  intros Hm He Hv. destruct (round_aux_between s m e loc_Exact 0 Hm He) as (R & H); [lia|by left|cbn [rest]; by rewrite Z.add_0_r|].
  cbn [rest] in H. rewrite !Z.add_0_r in H. by exists R.
Qed.

Lemma shl_align_value m e e' : Zpos (fst (shl_align m e e')) = Zpos m * 2 ^ Z.max 0 (e - e') ∧
  snd (shl_align m e e') = Z.min e e' ∨ (e ≤ e' ∧ shl_align m e e' = (m, e)).
Proof.
  unfold shl_align. destruct (e' - e) as [|d|d] eqn:E; [right; split; [lia|done]..|]. left. cbn [fst snd].
  replace (Z.max 0 (e - e')) with (Zpos d) by lia. split; [|lia].
  clear. induction d as [|d IH] using Pos.peano_ind; [cbn; lia|].
  rewrite Pos.iter_succ, Pos2Z.inj_succ, Z.pow_succ_r by lia. rewrite (Pos2Z.inj_xO (Pos.iter xO m d)), IH. lia.
Qed.

Lemma binary_round_between s m e : -2200 ≤ e → Zpos m * 2 ^ (e + 2200) ≤ 2 ^ 52 * 2 ^ 2200 →
  ∃ R, good (binary_round 53 1024 s m e) ∧ dpos (binary_round 53 1024 s m e) = signed s R ∧
    ∀ L U, (L * 2 ^ 2200 ≤ Zpos m * 2 ^ (e + 2200) → L * 2 ^ 1074 ≤ R) ∧
      (Zpos m * 2 ^ (e + 2200) ≤ U * 2 ^ 2200 → R ≤ U * 2 ^ 1074).
Proof.
  intros He Hv. unfold binary_round. set (e1 := fexp 53 1024 (Zpos (digits2_pos m) + e)).
  assert (-1074 ≤ e1) as He1 by (unfold e1, fexp, emin; lia).
  destruct (shl_align_value m e e1) as [[Hm' Hs]|[Hle E]].
  - destruct (shl_align m e e1) as [m' e']. cbn [fst snd] in *. subst e'.
    assert (Zpos m' * 2 ^ (Z.min e e1 + 2200) = Zpos m * 2 ^ (e + 2200)) as Eq.
    { rewrite Hm', <- Z.mul_assoc, <- Z.pow_add_r by lia. do 2 f_equal. lia. }
    rewrite <- Eq in *. apply round_exact_between; lia.
  - rewrite E. apply round_exact_between; lia.
Qed.

(** Rounding a signed number. *)
Lemma normalize_between m e : -2200 ≤ e → Z.abs m * 2 ^ (e + 2200) ≤ 2 ^ 52 * 2 ^ 2200 →
  let z := binary_normalize 53 1024 m e false in
  good z ∧ ∀ L U, L * 2 ^ 2200 ≤ m * 2 ^ (e + 2200) ≤ U * 2 ^ 2200 → L * 2 ^ 1074 ≤ dpos z ≤ U * 2 ^ 1074.
Proof.
  intros He Hv z. assert (0 < 2 ^ 2200) by (apply Z.pow_pos_nonneg; lia). assert (0 < 2 ^ 1074) by (apply Z.pow_pos_nonneg; lia).
  subst z. unfold binary_normalize. destruct m as [|p|p].
  - split; [done|]. intros L U [HL HU]. cbn [dpos]. rewrite Z.mul_0_l in HL, HU. split; nia.
  - destruct (binary_round_between false p e He Hv) as (R & Hg & Hd & Hb). split; [done|].
    intros L U [HL HU]. rewrite Hd. cbn [signed]. destruct (Hb L U) as [H1 H2]. auto.
  - destruct (binary_round_between true p e He Hv) as (R & Hg & Hd & Hb). split; [done|].
    intros L U [HL HU]. rewrite Hd. cbn [signed]. destruct (Hb (- U) (- L)) as [H1 H2].
    rewrite <- Pos2Z.opp_pos in HL, HU. lia.
Qed.

(** ** Conversions and operations *)
Lemma of_int_good n : Z.abs n ≤ 2 ^ 52 → good (of_int n) ∧ dpos (of_int n) = n * 2 ^ 1074.
Proof.
  intros Hn. destruct (normalize_between n 0 ltac:(lia)) as [Hg Hb].
  { apply Z.mul_le_mono_nonneg_r; [apply Z.pow_nonneg; lia|done]. }
  split; [exact Hg|]. destruct (Hb n n) as [H1 H2]; [rewrite Z.add_0_l; lia|]. unfold of_int. lia.
Qed.

(** A good double as an integer and an exponent. *)
Lemma good_parts z : good z → z = S754_zero false ∨ z = S754_zero true ∨
  ∃ s m e, z = S754_finite s m e ∧ -1074 ≤ e ∧ dpos z = signed s (Zpos m * 2 ^ (e + 1074)).
Proof. destruct z as [[]|s| |s m e]; cbn; try done; auto. intros He. right. right. by exists s, m, e. Qed.

Lemma nonneg_sign s m e : -1074 ≤ e → 0 ≤ signed s (Zpos m * 2 ^ (e + 1074)) → s = false.
Proof.
  intros He Hs. destruct s; [|done]. assert (0 < 2 ^ (e + 1074)) by (apply Z.pow_pos_nonneg; lia). cbn in Hs. nia.
Qed.

(** A part of an integer lies between zero and it. *)
Lemma dmul_fraction x y r : good x → good y → 0 ≤ dpos x ≤ 2 ^ 1074 → dpos y = r * 2 ^ 1074 → 0 ≤ r ≤ 2 ^ 52 →
  good (x * y)%D ∧ 0 ≤ dpos (x * y)%D ≤ r * 2 ^ 1074.
Proof.
  intros Hx Hy Hx1 Hyr Hr. assert (0 < 2 ^ 1074) as Hp by (apply Z.pow_pos_nonneg; lia).
  destruct (good_parts x Hx) as [->|[->|(sx & mx & ex & -> & Hex & Edx)]],
    (good_parts y Hy) as [->|[->|(sy & my & ey & -> & Hey & Edy)]]; try (split; [done|cbn [dmul SFmul dpos xorb]; nia]).
  rewrite Edx in Hx1. rewrite Edy in Hyr. assert (sx = false) as -> by (apply (nonneg_sign sx mx ex Hex), Hx1).
  assert (sy = false) as -> by (apply (nonneg_sign sy my ey Hey); rewrite Hyr; apply Z.mul_nonneg_nonneg; lia). cbn [signed] in *.
  unfold dmul, SFmul. cbn [xorb]. set (P := 2 ^ 1074) in *.
  assert (Zpos (mx * my) * 2 ^ (ex + ey + 2200) = (Zpos mx * 2 ^ (ex + 1074)) * (Zpos my * 2 ^ (ey + 1074)) * 2 ^ 52) as Ev.
  { rewrite Pos2Z.inj_mul. replace (ex + ey + 2200) with ((ex + 1074) + (ey + 1074) + 52) by lia.
    rewrite (Z.pow_add_r 2 (ex + 1074 + (ey + 1074))), (Z.pow_add_r 2 (ex + 1074)) by lia. ring. }
  assert (2 ^ 2200 = P * P * 2 ^ 52) as EP by reflexivity.
  assert (Zpos (mx * my) * 2 ^ (ex + ey + 2200) ≤ r * 2 ^ 2200) as Hle.
  { rewrite Ev, Hyr, EP. revert Hx1 Hr Hp. generalize (Zpos mx * 2 ^ (ex + 1074)) P (2 ^ 52). intros a b c Ha Hr' Hb.
    assert (a * (r * b * c) ≤ b * (r * b * c)); [|lia].
    apply Z.mul_le_mono_nonneg_r; [|lia]. repeat apply Z.mul_nonneg_nonneg; lia. }
  destruct (round_exact_between false (Zpos (mx * my)) (ex + ey)) as (R & Hg & Hd & Hb); [lia|lia| |].
  { etransitivity; [exact Hle|]. apply Z.mul_le_mono_nonneg_r; [apply Z.pow_nonneg; lia|lia]. }
  split; [exact Hg|]. rewrite Hd. cbn [signed]. destruct (Hb 0 r) as [H1 H2]. split; [|by apply H2].
  rewrite Z.mul_0_l in H1. apply H1. apply Z.mul_nonneg_nonneg; [lia|apply Z.pow_nonneg; lia].
Qed.

Lemma shl_align_min m e e' : e' ≤ e → Zpos (fst (shl_align m e e')) = Zpos m * 2 ^ (e - e').
Proof.
  intros He. destruct (shl_align_value m e e') as [[-> _]|[Hle ->]]; [by rewrite Z.max_r by lia|].
  cbn. replace (e - e') with 0 by lia. lia.
Qed.

(** A sum lies between the integers around it. *)
Lemma dadd_between x y L U : good x → good y → - 2 ^ 52 ≤ L → U ≤ 2 ^ 52 →
  L * 2 ^ 1074 ≤ dpos x + dpos y ≤ U * 2 ^ 1074 → good (x + y)%D ∧ L * 2 ^ 1074 ≤ dpos (x + y)%D ≤ U * 2 ^ 1074.
Proof.
  intros Hx Hy HL HU Hb.
  destruct (good_parts x Hx) as [->|[->|(sx & mx & ex & -> & Hex & Edx)]],
    (good_parts y Hy) as [->|[->|(sy & my & ey & -> & Hey & Edy)]];
    try (cbn [dpos] in Hb; rewrite ?Z.add_0_r, ?Z.add_0_l in Hb; split; [done|]; unfold dadd, SFadd; cbn [dpos]; exact Hb).
  rewrite Edx, Edy in Hb. unfold dadd, SFadd. set (ez := Z.min ex ey). rewrite !shl_align_min by lia.
  set (m := cond_Zopp sx (Zpos mx * 2 ^ (ex - ez)) + cond_Zopp sy (Zpos my * 2 ^ (ey - ez))).
  assert (∀ s p e, ez ≤ e → cond_Zopp s (Zpos p * 2 ^ (e - ez)) * 2 ^ (ez + 2200) = signed s (Zpos p * 2 ^ (e + 1074)) * 2 ^ 1126) as Es.
  { intros s p e He. replace (ez + 2200) with (ez + 1074 + 1126) by lia. replace (e + 1074) with ((e - ez) + (ez + 1074)) by lia.
    rewrite (Z.pow_add_r 2 (ez + 1074) 1126), (Z.pow_add_r 2 (e - ez) (ez + 1074)) by lia.
    destruct s; unfold SpecFloat.cond_Zopp, signed; ring. }
  assert (m * 2 ^ (ez + 2200) = (signed sx (Zpos mx * 2 ^ (ex + 1074)) + signed sy (Zpos my * 2 ^ (ey + 1074))) * 2 ^ 1126) as Em.
  { unfold m. rewrite Z.mul_add_distr_r, !Es by lia. ring. }
  assert (0 < 2 ^ 1126) as Hp by (apply Z.pow_pos_nonneg; lia). assert (2 ^ 2200 = 2 ^ 1074 * 2 ^ 1126) as EP by reflexivity.
  assert (L * 2 ^ 2200 ≤ m * 2 ^ (ez + 2200) ≤ U * 2 ^ 2200) as Hm.
  { rewrite Em, EP, !Z.mul_assoc. split; apply Z.mul_le_mono_nonneg_r; lia. }
  destruct (normalize_between m ez ltac:(lia)) as [Hg Hn]; [|split; [exact Hg|by apply Hn]].
  assert (0 < 2 ^ 2200) by (apply Z.pow_pos_nonneg; lia). assert (0 < 2 ^ (ez + 2200)) as Hq by (apply Z.pow_pos_nonneg; lia).
  rewrite <- (Z.abs_eq (2 ^ (ez + 2200))), <- Z.abs_mul by lia. apply Z.abs_le. nia.
Qed.

(** The integer part stays in an interval of integers. *)
Lemma truncate_between z L U : good z → L * 2 ^ 1074 ≤ dpos z ≤ U * 2 ^ 1074 → ∃ n, truncate z = Some n ∧ L ≤ n ≤ U.
Proof.
  intros Hz Hb. assert (0 < 2 ^ 1074) as Hp by (apply Z.pow_pos_nonneg; lia).
  destruct (good_parts z Hz) as [->|[->|(s & m & e & -> & He & Ed)]]; try (exists 0; cbn [dpos] in Hb; split; [done|nia]).
  rewrite Ed in Hb. clear Ed. unfold truncate. eexists. split; [done|]. destruct (Z.leb_spec 0 e) as [Hle|Hlt].
  - rewrite Z.shiftl_mul_pow2 by done. rewrite Z.pow_add_r, Z.mul_assoc in Hb by lia.
    destruct s; cbn [signed] in Hb; nia.
  - rewrite Z.shiftr_div_pow2 by lia. set (q := Zpos m / 2 ^ (- e)).
    assert (0 < 2 ^ (- e)) as Hpe by (apply Z.pow_pos_nonneg; lia). assert (0 < 2 ^ (e + 1074)) as Hpq by (apply Z.pow_pos_nonneg; lia).
    assert (2 ^ 1074 = 2 ^ (- e) * 2 ^ (e + 1074)) as EP by (rewrite <- Z.pow_add_r by lia; f_equal; lia).
    pose proof (Z.div_mod (Zpos m) (2 ^ (- e)) ltac:(lia)) as Hdm. pose proof (Z.mod_pos_bound (Zpos m) (2 ^ (- e)) Hpe) as Hmod. fold q in Hdm.
    rewrite EP in Hb. assert (∀ X Y, X * (2 ^ (- e) * 2 ^ (e + 1074)) ≤ Y * 2 ^ (e + 1074) → X * 2 ^ (- e) ≤ Y) as Hc.
    { intros X Y HXY. rewrite Z.mul_assoc in HXY. by apply Z.mul_le_mono_pos_r in HXY. }
    assert (∀ X Y, Y * 2 ^ (e + 1074) ≤ X * (2 ^ (- e) * 2 ^ (e + 1074)) → Y ≤ X * 2 ^ (- e)) as Hc'.
    { intros X Y HXY. rewrite Z.mul_assoc in HXY. by apply Z.mul_le_mono_pos_r in HXY. }
    destruct s; cbn [signed] in Hb; destruct Hb as [Hb1 Hb2].
    + rewrite <- Z.mul_opp_l in Hb1, Hb2. apply Hc in Hb1. apply Hc' in Hb2. assert (0 ≤ q) by (apply Z.div_pos; lia). nia.
    + apply Hc in Hb1. apply Hc' in Hb2. assert (0 ≤ q) by (apply Z.div_pos; lia). nia.
Qed.

(** ** Division *)
Lemma shift_le a b s p q : 0 ≤ a → 0 ≤ b → 0 ≤ s → b - a ≤ s → 0 < p → p * 2 ^ a ≤ q * 2 ^ b → p ≤ q * 2 ^ s.
Proof.
  intros Ha Hb Hs Hab Hp Hle. destruct (Z.le_gt_cases b a) as [Hc|Hc].
  - replace a with (a - b + b) in Hle by lia. rewrite Z.pow_add_r, Z.mul_assoc in Hle by lia.
    apply Z.mul_le_mono_pos_r in Hle; [|apply Z.pow_pos_nonneg; lia].
    assert (0 < 2 ^ (a - b)) by (apply Z.pow_pos_nonneg; lia). assert (0 < 2 ^ s) by (apply Z.pow_pos_nonneg; lia). nia.
  - replace b with (b - a + a) in Hle by lia. rewrite Z.pow_add_r, Z.mul_assoc in Hle by lia.
    apply Z.mul_le_mono_pos_r in Hle; [|apply Z.pow_pos_nonneg; lia].
    assert (2 ^ (b - a) ≤ 2 ^ s) by (apply Z.pow_le_mono_r; lia). assert (0 < 2 ^ (b - a)) by (apply Z.pow_pos_nonneg; lia). nia.
Qed.

(** The mantissa, exponent and location the division computes before it rounds. *)
Lemma div_core_spec mx ex my ey :
  let '(q, e, l) := SFdiv_core_binary 53 1024 (Zpos mx) ex (Zpos my) ey in
  let D := Zdigits2 (Zpos mx) + ex - (Zdigits2 (Zpos my) + ey) in
  e ≤ Z.max (D - 53) (-1074) ∧ e ≤ ex - ey ∧ (e = Z.max (D - 53) (-1074) ∨ e = ex - ey) ∧
  q * Zpos my ≤ Zpos mx * 2 ^ (ex - ey - e) ≤ (q + rest l) * Zpos my ∧
  (∀ X, X * Zpos my ≤ Zpos mx * 2 ^ (ex - ey - e) → X ≤ q) ∧
  (∀ X, Zpos mx * 2 ^ (ex - ey - e) ≤ X * Zpos my → q + rest l ≤ X).
Proof.
  unfold SFdiv_core_binary, fexp, emin. set (D := Zdigits2 (Zpos mx) + ex - (Zdigits2 (Zpos my) + ey)).
  set (e := Z.min (Z.max (D - 53) (3 - 1024 - 53)) (ex - ey)).
  replace (match ex - ey - e with 0 => Zpos mx | Zpos _ => Z.shiftl (Zpos mx) (ex - ey - e) | Zneg _ => 0 end)
    with (Zpos mx * 2 ^ (ex - ey - e)).
  2: { destruct (ex - ey - e) as [|d|d] eqn:E; [lia|by rewrite Z.shiftl_mul_pow2|lia]. }
  set (M := Zpos mx * 2 ^ (ex - ey - e)).
  pose proof (Z_div_mod M (Zpos my) ltac:(lia)) as Hdm. destruct (Z.div_eucl M (Zpos my)) as [q r]. destruct Hdm as [EM Hr].
  assert (rest (new_location (Zpos my) r) = 0 ∧ r = 0 ∨ rest (new_location (Zpos my) r) = 1 ∧ 0 < r) as Hrest.
  { unfold new_location, new_location_even, new_location_odd.
    destruct (Z.even _); (destruct (Z.eqb_spec r 0) as [->|]; [by left|right; split; [done|lia]]). }
  split; [lia|]. split; [lia|]. split; [lia|]. split; [nia|]. split; intros X HX; nia.
Qed.

(** The digits of two numbers bound those of their quotient. *)
Lemma quotient_digits d1 d2 ex ey h U a b :
  0 < d1 → 0 < d2 → 0 ≤ ex + 1074 → 0 ≤ ey + 1074 → 0 ≤ h + 1074 → U ≤ 2 ^ 52 → 2 ^ (d1 - 1) ≤ a → 0 < b < 2 ^ d2 →
  a * 2 ^ (ex + 1074) * 2 ^ 1074 ≤ U * 2 ^ (h + 1074) * (b * 2 ^ (ey + 1074)) →
  d1 - 1 + (ex + 1074) + 1074 < 52 + (h + 1074) + d2 + (ey + 1074).
Proof.
  intros Hd1 Hd2 Hex Hey Hh HU Ha Hb H. apply (Z.pow_lt_mono_r_iff 2); [lia|lia|].
  replace (2 ^ (d1 - 1 + (ex + 1074) + 1074)) with (2 ^ (d1 - 1) * 2 ^ (ex + 1074) * 2 ^ 1074) by (rewrite <- !Z.pow_add_r by lia; done).
  replace (2 ^ (52 + (h + 1074) + d2 + (ey + 1074))) with (2 ^ 52 * 2 ^ (h + 1074) * (2 ^ d2 * 2 ^ (ey + 1074)))
    by (rewrite <- !Z.pow_add_r by lia; f_equal; lia).
  assert (0 < 2 ^ (ex + 1074)) as Hpx by (apply Z.pow_pos_nonneg; lia). assert (0 < 2 ^ (ey + 1074)) as Hpy by (apply Z.pow_pos_nonneg; lia).
  assert (0 < 2 ^ 1074) as HP by (apply Z.pow_pos_nonneg; lia). assert (0 < 2 ^ 52) as H52 by done.
  assert (0 < 2 ^ (h + 1074)) as HH by (apply Z.pow_pos_nonneg; lia). assert (0 < 2 ^ (d1 - 1)) as H1 by (apply Z.pow_pos_nonneg; lia).
  revert H Ha Hb HU Hpx Hpy HP H52 HH H1. clear.
  generalize (2 ^ (d1 - 1)) (2 ^ (ex + 1074)) (2 ^ 1074) (2 ^ 52) (2 ^ (h + 1074)) (2 ^ d2) (2 ^ (ey + 1074)).
  intros c x P B H d y Hle Ha Hb HB Hx Hy HP H52 HH Hc.
  apply Z.le_lt_trans with (a * x * P); [do 2 (apply Z.mul_le_mono_nonneg_r; [lia|]); done|].
  eapply Z.le_lt_trans; [exact Hle|]. apply Z.le_lt_trans with (B * H * (b * y)).
  - apply Z.mul_le_mono_nonneg_r; [apply Z.mul_nonneg_nonneg; lia|]. apply Z.mul_le_mono_nonneg_r; lia.
  - assert (0 < B * H) by (by apply Z.mul_pos_pos). apply Z.mul_lt_mono_pos_l; [done|]. apply Z.mul_lt_mono_pos_r; lia.
Qed.

(** A quotient lies between the multiples of [2 ^ h] around it, at any scale that gives
    the quotient at most 52 bits. *)
Lemma ddiv_between x y h U : good x → good y → 0 ≤ dpos x → 0 < dpos y ≤ 2 ^ 2100 → -1074 ≤ h ≤ 800 → U ≤ 2 ^ 52 →
  2 ^ (h + 1074) * dpos y ≤ dpos x * 2 ^ 1074 ≤ U * 2 ^ (h + 1074) * dpos y →
  good (x / y)%D ∧ dpos (x / y)%D ≤ U * 2 ^ (h + 1074) ∧
  ∀ L, L * 2 ^ (h + 1074) * dpos y ≤ dpos x * 2 ^ 1074 → L * 2 ^ (h + 1074) ≤ dpos (x / y)%D.
Proof.
  intros Hx Hy Hx0 Hy0 Hh HU Hb. assert (0 < 2 ^ (h + 1074)) as Hph by (apply Z.pow_pos_nonneg; lia).
  destruct (good_parts x Hx) as [->|[->|(sx & mx & ex & -> & Hex & Edx)]]; [cbn [dpos] in Hb; nia..|].
  destruct (good_parts y Hy) as [->|[->|(sy & my & ey & -> & Hey & Edy)]]; [cbn [dpos] in Hy0; destruct Hy0; lia..|].
  rewrite Edx in Hx0, Hb |- *. rewrite Edy in Hy0, Hb |- *.
  assert (sx = false) as -> by (by apply (nonneg_sign sx mx ex Hex)).
  assert (sy = false) as -> by (apply (nonneg_sign sy my ey Hey); destruct Hy0; lia). cbn [signed] in *. clear Edx Edy Hx Hy Hx0.
  unfold ddiv, SFdiv. cbn [xorb]. pose proof (div_core_spec mx ex my ey) as Hc.
  destruct (SFdiv_core_binary 53 1024 (Zpos mx) ex (Zpos my) ey) as [[q e] l]. cbn zeta in Hc.
  destruct Hc as (He1 & He2 & He3 & Hq & HqL & HqU). set (s := ex - ey - e) in *.
  pose proof (digits2_bounds mx) as [Hmx _]. pose proof (digits2_bounds my) as [Hmy1 Hmy2]. cbn [Zdigits2] in *.
  set (d1 := Zpos (digits2_pos mx)) in *. set (d2 := Zpos (digits2_pos my)) in *.
  assert (0 < d1 ∧ 0 < d2) as [Hd1 Hd2] by done.
  assert (e ≤ h) as Heh.
  { assert (d1 - 1 + (ex + 1074) + 1074 < 52 + (h + 1074) + d2 + (ey + 1074)) by (by eapply (quotient_digits d1 d2 ex ey h U (Zpos mx) (Zpos my)); try lia). lia. }
  assert (ey ≤ 1026) as Hey1.
  { destruct Hy0 as [_ Hy0]. assert (2 ^ (ey + 1074) ≤ 2 ^ 2100) as Hp by nia. apply Z.pow_le_mono_r_iff in Hp; lia. }
  set (K := 2 ^ (e + ey + 2148)). assert (0 < K) as HK by (apply Z.pow_pos_nonneg; lia).
  assert (∀ X, X * 2 ^ (h + 1074) * (Zpos my * 2 ^ (ey + 1074)) = X * 2 ^ (h - e) * Zpos my * K) as El.
  { intros X. transitivity (X * Zpos my * 2 ^ ((h + 1074) + (ey + 1074))); [rewrite (Z.pow_add_r 2 (h + 1074) (ey + 1074)) by lia; ring|].
    replace ((h + 1074) + (ey + 1074)) with ((h - e) + (e + ey + 2148)) by lia. rewrite (Z.pow_add_r 2 (h - e)) by lia. unfold K. ring. }
  assert (Zpos mx * 2 ^ (ex + 1074) * 2 ^ 1074 = Zpos mx * 2 ^ s * K) as Er.
  { rewrite <- !Z.mul_assoc. f_equal. unfold K. rewrite <- !Z.pow_add_r by lia. f_equal. lia. }
  assert (∀ X, X * 2 ^ (h + 2200) = X * 2 ^ (h - e) * 2 ^ (e + 2200)) as Ee.
  { intros X. rewrite <- Z.mul_assoc, <- Z.pow_add_r by lia. do 2 f_equal. lia. }
  assert (0 < 2 ^ (e + 2200)) as Hpe by (apply Z.pow_pos_nonneg; lia).
  assert (∀ X, X * 2 ^ (h + 1074) * (Zpos my * 2 ^ (ey + 1074)) ≤ Zpos mx * 2 ^ (ex + 1074) * 2 ^ 1074 → X * 2 ^ (h - e) ≤ q) as HL.
  { intros X HX. rewrite El, Er in HX. apply HqL. by apply Z.mul_le_mono_pos_r in HX. }
  destruct Hb as [Hb1 Hb2]. assert (q + rest l ≤ U * 2 ^ (h - e)) as HR.
  { rewrite El, Er in Hb2. apply HqU. by apply Z.mul_le_mono_pos_r in Hb2. }
  assert (0 < q) as Hq0.
  { specialize (HL 1). rewrite Z.mul_1_l in HL. specialize (HL Hb1). assert (0 < 2 ^ (h - e)) by (apply Z.pow_pos_nonneg; lia). lia. }
  destruct (round_aux_between false q e l h) as (R & Hg & Hd & HbR); [lia|lia|lia|by right| |].
  { rewrite Ee. apply Z.mul_le_mono_nonneg_r; [lia|]. etransitivity; [exact HR|].
    apply Z.mul_le_mono_nonneg_r; [apply Z.pow_nonneg; lia|lia]. }
  split; [exact Hg|]. rewrite Hd. cbn [signed]. split.
  - apply (HbR 0 U). rewrite Ee. apply Z.mul_le_mono_nonneg_r; lia.
  - intros L HX. apply (HbR L 0). rewrite Ee. apply Z.mul_le_mono_nonneg_r; [lia|]. by apply HL.
Qed.
