(* ===== verification/MetricJson.v ===== *)
(** * The metric records and their JSON form (protos/metric.h, protos/workloaddriver.h,
    protos/remote_object.h)

    The JSON library is a class: building and reading objects, printing and parsing. A
    [deserialize] assigns the members one by one, so an exception leaves the record half
    assigned: it is a computation on the record that outlives the exception. *)
From Stdlib Require Import Floats.SpecFloat.
From S2P Require Import Prelude Double.
#[local] Open Scope string_scope.
#[local] Open Scope Z_scope.

(** [nlohmann::json]: [J] is a JSON value, [Txt] its text. *)
Class Json (J Txt : Type) := {
  j_null : J;
  j_string : string → J;
  j_uint : Z → J;                              (* an unsigned number *)
  j_double : double → J;
  j_set : J → string → J → result J;           (* [j[key] = v] *)
  j_get : J → string → result J;               (* [j[key]], null when there is none *)
  to_string : J → result string;
  to_unsigned : Z → J → result Z;              (* to an unsigned type of the given width *)
  to_double : J → result double;
  dump : Z → J → result Txt;                   (* with the indentation *)
  parse : Txt → result J }.

(** The keys the records use. *)
Definition all_keys : list string :=
  ["counter"; "runtime_ns"; "units"; "mean"; "stddev"; "min"; "p50"; "p90"; "p95"; "p99"; "p999";
   "max"; "count"; "name"; "type"; "data"; "ops"; "runtime"; "qps"; "latency"; "id"; "raddr";
   "size"; "lkey"; "rkey"].

(** What the code relies on. [clean] is what parsing the text of a value gives back. *)
Class JsonLaws (J Txt : Type) `{Json J Txt}
    (utf8 : string → Prop) (object printable : J → Prop) (clean : J → J) : Prop := {
  null_object : object j_null;
  null_printable : printable j_null;
  string_printable s : utf8 s → printable (j_string s);
  uint_printable n : printable (j_uint n);
  double_printable x : printable (j_double x);
  set_object j k v : object j → ∃ j', j_set j k v = Done j' ∧ object j' ∧
    (utf8 k → printable j → printable v → printable j') ∧
    ∀ k', j_get j' k' = if bool_decide (k' = k) then Done v else j_get j k';
  clean_printable j : printable j → printable (clean j);
  clean_idemp j : clean (clean j) = clean j;
  clean_object j : object j → object (clean j);
  clean_get j k : object j → j_get (clean j) k = clean <$> j_get j k;
  clean_string s : clean (j_string s) = j_string s;
  clean_uint n : clean (j_uint n) = j_uint n;
  clean_double x : clean (j_double x) = if is_finite x then j_double x else j_null;
  read_string s : to_string (j_string s) = Done s;
  read_unsigned w n : is_u w n → to_unsigned w (j_uint n) = Done n;
  read_double x : to_double (j_double x) = Done x;
  read_double_null : to_double j_null = Fault FThrow;
  dump_parse i j : printable j → ∃ t, dump i j = Done t ∧ parse t = Done (clean j);
  keys_utf8 k : k ∈ all_keys → utf8 k }.

(** [enum MetricType]: no fixed type, any number can be cast to it. *)
Module MetricType.
Definition Counter : Z := 0.
Definition Stopwatch : Z := 1.
Definition Summary : Z := 2.

Definition stringify (t : Z) : string :=
  if t =? Counter then "Counter" else if t =? Stopwatch then "Stopwatch"
  else if t =? Summary then "Summary" else "Unknown".
End MetricType.

Section records.
Context {J Txt : Type} `{Json J Txt}.

(** [member = j[key]] in a [deserialize]. *)
Definition read_member {S A} (j : J) (key : string) (conv : J → result A) (set : A → S → S) : io S unit :=
  a ← io_lift (v ← j_get j key; conv v); io_modify (set a).

(** [json j; j[k1] = v1; j[k2] = v2; ...] *)
Fixpoint j_sets (j : J) (fs : list (string * J)) : result J :=
  match fs with [] => Done j | (k, v) :: fs' => j ← j_set j k v; j_sets j fs' end.

(** ** [CounterMetric], [StopwatchMetric] *)
Record CounterMetric := mkCounterMetric { counter : Z }.

Definition CounterMetric_as_json (m : CounterMetric) : result J :=
  j_sets j_null [("counter", j_uint (counter m))].
Definition CounterMetric_serialize (m : CounterMetric) : result Txt :=
  j ← CounterMetric_as_json m; dump 2 j.
Definition CounterMetric_deserialize (data : Txt) : io CounterMetric unit :=
  j ← io_lift (parse data);
  read_member j "counter" (to_unsigned 64) (λ n _, mkCounterMetric n).

Record StopwatchMetric := mkStopwatchMetric { runtime_ns : Z }.

Definition StopwatchMetric_as_json (m : StopwatchMetric) : result J :=
  j_sets j_null [("runtime_ns", j_uint (runtime_ns m))].
Definition StopwatchMetric_serialize (m : StopwatchMetric) : result Txt :=
  j ← StopwatchMetric_as_json m; dump 2 j.
Definition StopwatchMetric_deserialize (data : Txt) : io StopwatchMetric unit :=
  j ← io_lift (parse data);
  read_member j "runtime_ns" (to_unsigned 64) (λ n _, mkStopwatchMetric n).

(** ** [SummaryMetric] *)
Record SummaryMetric := mkSummaryMetric {
  units : string; mean : double; stddev : double; min : double; p50 : double; p90 : double;
  p95 : double; p99 : double; p999 : double; max : double; count : Z }.

Definition SummaryMetric_as_json (m : SummaryMetric) : result J :=
  j_sets j_null [
    ("units", j_string (units m));
    ("mean", j_double (mean m));
    ("stddev", j_double (stddev m));
    ("min", j_double (min m));
    ("p50", j_double (p50 m));
    ("p90", j_double (p90 m));
    ("p95", j_double (p95 m));
    ("p99", j_double (p99 m));
    ("p999", j_double (p999 m));
    ("max", j_double (max m));
    ("count", j_uint (count m))].
Definition SummaryMetric_serialize (m : SummaryMetric) : result Txt :=
  j ← SummaryMetric_as_json m; dump 2 j.

Definition set_units x m := mkSummaryMetric x (mean m) (stddev m) (min m) (p50 m) (p90 m) (p95 m) (p99 m) (p999 m) (max m) (count m).
Definition set_mean x m := mkSummaryMetric (units m) x (stddev m) (min m) (p50 m) (p90 m) (p95 m) (p99 m) (p999 m) (max m) (count m).
Definition set_stddev x m := mkSummaryMetric (units m) (mean m) x (min m) (p50 m) (p90 m) (p95 m) (p99 m) (p999 m) (max m) (count m).
Definition set_min x m := mkSummaryMetric (units m) (mean m) (stddev m) x (p50 m) (p90 m) (p95 m) (p99 m) (p999 m) (max m) (count m).
Definition set_p50 x m := mkSummaryMetric (units m) (mean m) (stddev m) (min m) x (p90 m) (p95 m) (p99 m) (p999 m) (max m) (count m).
Definition set_p90 x m := mkSummaryMetric (units m) (mean m) (stddev m) (min m) (p50 m) x (p95 m) (p99 m) (p999 m) (max m) (count m).
Definition set_p95 x m := mkSummaryMetric (units m) (mean m) (stddev m) (min m) (p50 m) (p90 m) x (p99 m) (p999 m) (max m) (count m).
Definition set_p99 x m := mkSummaryMetric (units m) (mean m) (stddev m) (min m) (p50 m) (p90 m) (p95 m) x (p999 m) (max m) (count m).
Definition set_p999 x m := mkSummaryMetric (units m) (mean m) (stddev m) (min m) (p50 m) (p90 m) (p95 m) (p99 m) x (max m) (count m).
Definition set_max x m := mkSummaryMetric (units m) (mean m) (stddev m) (min m) (p50 m) (p90 m) (p95 m) (p99 m) (p999 m) x (count m).
Definition set_count x m := mkSummaryMetric (units m) (mean m) (stddev m) (min m) (p50 m) (p90 m) (p95 m) (p99 m) (p999 m) (max m) x.

Definition SummaryMetric_deserialize (data : Txt) : io SummaryMetric unit :=
  j ← io_lift (parse data);
  read_member j "units" to_string set_units ;;
  read_member j "mean" to_double set_mean ;;
  read_member j "stddev" to_double set_stddev ;;
  read_member j "min" to_double set_min ;;
  read_member j "p50" to_double set_p50 ;;
  read_member j "p90" to_double set_p90 ;;
  read_member j "p95" to_double set_p95 ;;
  read_member j "p99" to_double set_p99 ;;
  read_member j "p999" to_double set_p999 ;;
  read_member j "max" to_double set_max ;;
  read_member j "count" (to_unsigned 64) set_count.

(** ** [Metrics]: one of the three *)

(** What the [shared_ptr<void>] points to. *)
Inductive metric_data :=
| NoData
| CounterData (m : CounterMetric)
| StopwatchData (m : StopwatchMetric)
| SummaryData (m : SummaryMetric).

Record Metrics := mkMetrics { type : Z; data : metric_data; name : string }.

(** [make_shared] zeroes the members. *)
Definition zero : double := S754_zero false.
Definition SummaryMetric_zero : SummaryMetric :=
  mkSummaryMetric "" zero zero zero zero zero zero zero zero zero 0.

Definition Metrics_new (t : Z) : Metrics :=
  mkMetrics t (if t =? MetricType.Summary then SummaryData SummaryMetric_zero
               else if t =? MetricType.Counter then CounterData (mkCounterMetric 0)
               else if t =? MetricType.Stopwatch then StopwatchData (mkStopwatchMetric 0) else NoData) "".

Definition has_summary (m : Metrics) : bool := type m =? MetricType.Summary.
Definition has_stopwatch (m : Metrics) : bool := type m =? MetricType.Stopwatch.
Definition has_counter (m : Metrics) : bool := type m =? MetricType.Counter.

(** [try_get_*]: null for another type; the cast does not look at the object, and using
    a pointer to an object of another type is undefined. *)
Definition try_get_summary (m : Metrics) : result (option SummaryMetric) :=
  if negb (type m =? MetricType.Summary) then Done None
  else match data m with SummaryData d => Done (Some d) | _ => Fault FUndef end.
Definition try_get_stopwatch (m : Metrics) : result (option StopwatchMetric) :=
  if negb (type m =? MetricType.Stopwatch) then Done None
  else match data m with StopwatchData d => Done (Some d) | _ => Fault FUndef end.
Definition try_get_counter (m : Metrics) : result (option CounterMetric) :=
  if negb (type m =? MetricType.Counter) then Done None
  else match data m with CounterData d => Done (Some d) | _ => Fault FUndef end.

Definition Metrics_as_json (m : Metrics) : result J :=
  j ← j_sets j_null [("name", j_string (name m)); ("type", j_uint (type m))];
  if type m =? MetricType.Summary then
    p ← try_get_summary m; d ← defined p; v ← SummaryMetric_as_json d; j_set j "data" v
  else if type m =? MetricType.Counter then
    p ← try_get_counter m; d ← defined p; v ← CounterMetric_as_json d; j_set j "data" v
  else if type m =? MetricType.Stopwatch then
    p ← try_get_stopwatch m; d ← defined p; v ← StopwatchMetric_as_json d; j_set j "data" v
  else Done j.
Definition Metrics_serialize (m : Metrics) : result Txt := j ← Metrics_as_json m; dump 2 j.

Definition set_name x (m : Metrics) := mkMetrics (type m) (data m) x.
Definition set_type x (m : Metrics) := mkMetrics x (data m) (name m).
Definition set_data x (m : Metrics) := mkMetrics (type m) x (name m).

(** A new object filled from [j["data"].dump()]. *)
Definition read_data {A} (j : J) (deser : Txt → io A unit) (fresh : A) : result A :=
  v ← j_get j "data"; t ← dump (-1) v;
  match deser t fresh with (a, Done _) => Done a | (_, Fault e) => Fault e end.

(** The object for the type. *)
Definition fill_data (j : J) (t : Z) : io Metrics unit :=
  if t =? MetricType.Summary then
    d ← io_lift (read_data j SummaryMetric_deserialize SummaryMetric_zero); io_modify (set_data (SummaryData d))
  else if t =? MetricType.Counter then
    d ← io_lift (read_data j CounterMetric_deserialize (mkCounterMetric 0)); io_modify (set_data (CounterData d))
  else if t =? MetricType.Stopwatch then
    d ← io_lift (read_data j StopwatchMetric_deserialize (mkStopwatchMetric 0)); io_modify (set_data (StopwatchData d))
  else mret tt.

(** [deserialize]: the type is taken from the text (with a warning when it changes); the
    object is replaced last. *)
Definition Metrics_deserialize (txt : Txt) : io Metrics unit :=
  j ← io_lift (parse txt);
  read_member j "name" to_string set_name ;;
  t ← io_lift (v ← j_get j "type"; to_unsigned 32 v);
  io_modify (set_type t) ;;
  fill_data j t.

(** ** [WorkloadDriverResult] *)
Record WorkloadDriverResult := mkResult { ops : Metrics; runtime : Metrics; qps : Metrics; latency : Metrics }.
Definition WorkloadDriverResult_new : WorkloadDriverResult :=
  mkResult (Metrics_new MetricType.Counter) (Metrics_new MetricType.Stopwatch) (Metrics_new MetricType.Summary) (Metrics_new MetricType.Summary).

Definition WorkloadDriverResult_as_json (r : WorkloadDriverResult) : result J :=
  v ← Metrics_as_json (ops r); j ← j_set j_null "ops" v;
  v ← Metrics_as_json (runtime r); j ← j_set j "runtime" v;
  v ← Metrics_as_json (qps r); j ← j_set j "qps" v;
  v ← Metrics_as_json (latency r); j_set j "latency" v.
Definition WorkloadDriverResult_serialize (r : WorkloadDriverResult) : result Txt :=
  j ← WorkloadDriverResult_as_json r; dump 2 j.

(** [part.deserialize(j[key].dump())] on a member of the result. *)
Definition read_part (j : J) (key : string) (get : WorkloadDriverResult → Metrics)
    (set : Metrics → WorkloadDriverResult → WorkloadDriverResult) : io WorkloadDriverResult unit :=
  t ← io_lift (v ← j_get j key; dump (-1) v);
  io_part get set (Metrics_deserialize t).

Definition WorkloadDriverResult_deserialize (txt : Txt) : io WorkloadDriverResult unit :=
  j ← io_lift (parse txt);
  read_part j "ops" ops (λ m r, mkResult m (runtime r) (qps r) (latency r)) ;;
  read_part j "runtime" runtime (λ m r, mkResult (ops r) m (qps r) (latency r)) ;;
  read_part j "qps" qps (λ m r, mkResult (ops r) (runtime r) m (latency r)) ;;
  read_part j "latency" latency (λ m r, mkResult (ops r) (runtime r) (qps r) m).

(** ** [RemoteObject] *)
Record RemoteObject := mkRemoteObject { ro_id : string; raddr : Z; ro_size : Z; lkey : Z; rkey : Z }.

Definition RemoteObject_as_json (o : RemoteObject) : result J :=
  j_sets j_null [
    ("id", j_string (ro_id o));
    ("raddr", j_uint (raddr o));
    ("size", j_uint (ro_size o));
    ("lkey", j_uint (lkey o));
    ("rkey", j_uint (rkey o))].
Definition RemoteObject_serialize (o : RemoteObject) : result Txt := j ← RemoteObject_as_json o; dump (-1) j.
Definition RemoteObject_deserialize (txt : Txt) : io RemoteObject unit :=
  j ← io_lift (parse txt);
  read_member j "id" to_string (λ x o, mkRemoteObject x (raddr o) (ro_size o) (lkey o) (rkey o)) ;;
  read_member j "raddr" (to_unsigned 64) (λ x o, mkRemoteObject (ro_id o) x (ro_size o) (lkey o) (rkey o)) ;;
  read_member j "size" (to_unsigned 32) (λ x o, mkRemoteObject (ro_id o) (raddr o) x (lkey o) (rkey o)) ;;
  read_member j "lkey" (to_unsigned 32) (λ x o, mkRemoteObject (ro_id o) (raddr o) (ro_size o) x (rkey o)) ;;
  read_member j "rkey" (to_unsigned 32) (λ x o, mkRemoteObject (ro_id o) (raddr o) (ro_size o) (lkey o) x).
End records.

(** ** Round trips *)
Section laws.
Context {J Txt : Type} `{Json J Txt}.
Context (utf8 : string → Prop) (object printable : J → Prop) (clean : J → J).
Context `{!JsonLaws J Txt utf8 object printable clean}.

(** A sequence of assignments to distinct keys. *)
Lemma j_sets_spec fs j :
  object j → printable j → NoDup (fs.*1) → Forall utf8 (fs.*1) → Forall printable (fs.*2) →
  ∃ j', j_sets j fs = Done j' ∧ object j' ∧ printable j' ∧
    (∀ k v, (k, v) ∈ fs → j_get j' k = Done v) ∧ (∀ k, k ∉ fs.*1 → j_get j' k = j_get j k).
Proof.
  revert j. induction fs as [|[k v] fs IH]; intros j Hj Hp; cbn.
  { intros _ _ _. exists j. split_and!; [done..| |done]. by intros k v ?%elem_of_nil. }
  intros [Hk Hnd]%NoDup_cons [Hu Hus]%Forall_cons [Hv Hvs]%Forall_cons.
  destruct (set_object (Txt:=Txt) j k v Hj) as (j1 & -> & Hj1 & Hp1 & Hget1). rewrite bind_done.
  destruct (IH j1 Hj1 (Hp1 Hu Hp Hv) Hnd Hus Hvs) as (j2 & -> & Hj2 & Hp2 & Hin & Hout).
  exists j2. split_and!; [done..| |].
  - intros k' v' [[= -> ->]|Hin']%elem_of_cons; [|by apply Hin].
    rewrite Hout, Hget1 by done. by rewrite bool_decide_eq_true_2.
  - intros k' [Hne Hni]%not_elem_of_cons. rewrite Hout, Hget1 by done. by rewrite bool_decide_eq_false_2.
Qed.

Lemma read_member_spec {S A} j k v a (conv : J → result A) (set : A → S → S) s :
  object j → j_get j k = Done v → conv (clean v) = Done a →
  read_member (clean j) k conv set s = (set a s, Done tt).
Proof.
  intros Hj Hk Hv. unfold read_member. rewrite (io_lift_done _ a); [done|].
  rewrite (clean_get (Txt:=Txt)), Hk by done. done.
Qed.

(** A record whose JSON form gives the record back. *)
Definition reads_back {A} (deser : Txt → io A unit) (j : J) (a : A) : Prop :=
  object j ∧ printable j ∧ ∀ t a0, parse t = Done (clean j) → deser t a0 = (a, Done tt).

(** Its text, or that of its copy in a parsed object, does too. *)
Lemma reads_back_text {A} (deser : Txt → io A unit) j a i :
  reads_back deser j a →
  (∃ t, dump i j = Done t ∧ ∀ a0, deser t a0 = (a, Done tt)) ∧
  (∃ t, dump i (clean j) = Done t ∧ ∀ a0, deser t a0 = (a, Done tt)).
Proof.
  intros (_ & Hp & Hd). split.
  - destruct (dump_parse i j Hp) as (t & Ht & Hparse). eauto.
  - destruct (dump_parse i (clean j) (clean_printable (Txt:=Txt) _ Hp)) as (t & Ht & Hparse).
    rewrite (clean_idemp (Txt:=Txt)) in Hparse. eauto.
Qed.

Lemma known_keys ks : forallb (λ k, bool_decide (k ∈ all_keys)) ks = true → Forall utf8 ks.
Proof.
  rewrite forallb_forall. intros Hks. apply Forall_forall. intros k Hk. apply (keys_utf8 (J:=J) (Txt:=Txt)).
  eapply bool_decide_eq_true_1, Hks. by apply list_elem_of_In.
Qed.

(** The records the code builds: integers of their width, strings the library can print. *)
Definition summary_ok (m : SummaryMetric) : Prop := utf8 (units m) ∧ is_u 64 (count m).
Definition summary_finite (m : SummaryMetric) : bool :=
  forallb is_finite [mean m; stddev m; min m; p50 m; p90 m; p95 m; p99 m; p999 m; max m].
Definition remote_ok (o : RemoteObject) : Prop :=
  utf8 (ro_id o) ∧ is_u 64 (raddr o) ∧ is_u 32 (ro_size o) ∧ is_u 32 (lkey o) ∧ is_u 32 (rkey o).

Lemma pr_string x : utf8 x → printable (j_string x).
Proof. apply (string_printable (Txt:=Txt)). Qed.
Lemma pr_uint n : printable (j_uint n).
Proof. apply (uint_printable (Txt:=Txt)). Qed.
Lemma pr_double x : printable (j_double x).
Proof. apply (double_printable (Txt:=Txt)). Qed.
Lemma ob_null : object j_null.
Proof. apply (null_object (Txt:=Txt)). Qed.
Lemma pr_null : printable j_null.
Proof. apply (null_printable (Txt:=Txt)). Qed.
Hint Resolve pr_string pr_uint pr_double ob_null pr_null : core.

(** The object a list of assignments builds. *)
Ltac json_object j Hobj Hpr Hget :=
  match goal with |- context [j_sets ?j0 ?fs] =>
    destruct (j_sets_spec fs j0) as (j & -> & Hobj & Hpr & Hget & _);
    [eauto|eauto|apply (bool_decide_unpack _); vm_compute; exact I
    |apply known_keys; vm_compute; reflexivity
    |cbn; repeat (apply Forall_cons; split; [by auto|]); apply Forall_nil; exact I|]
  end.

Lemma read_clean_double x : is_finite x = true → to_double (clean (j_double x)) = Done x.
Proof. intros Hx. rewrite (clean_double (Txt:=Txt)), Hx. apply (read_double (Txt:=Txt)). Qed.

(** The value of a known key of the object. *)
Ltac known Hget := apply Hget; repeat first [apply list_elem_of_here|apply list_elem_of_further].

Ltac member Hget :=
  erewrite read_member_spec; [|done|known Hget
    |rewrite ?(clean_string (Txt:=Txt)), ?(clean_uint (Txt:=Txt)); first
      [apply (read_string (Txt:=Txt))|by apply (read_unsigned (Txt:=Txt))|by apply read_clean_double]].

Lemma CounterMetric_reads m : is_u 64 (counter m) →
  ∃ j, CounterMetric_as_json m = Done j ∧ reads_back CounterMetric_deserialize j m.
Proof.
  intros Hm. unfold CounterMetric_as_json. json_object j Hobj Hpr Hget.
  exists j. do 3 (split; [done|]). intros t m0 Ht. unfold CounterMetric_deserialize.
  rewrite (io_lift_done _ _ _ _ Ht). member Hget. by destruct m.
Qed.

Lemma StopwatchMetric_reads m : is_u 64 (runtime_ns m) →
  ∃ j, StopwatchMetric_as_json m = Done j ∧ reads_back StopwatchMetric_deserialize j m.
Proof.
  intros Hm. unfold StopwatchMetric_as_json. json_object j Hobj Hpr Hget.
  exists j. do 3 (split; [done|]). intros t m0 Ht. unfold StopwatchMetric_deserialize.
  rewrite (io_lift_done _ _ _ _ Ht). member Hget. by destruct m.
Qed.
Lemma io_then {S A B} (m : io S A) (k : io S B) s s' a : m s = (s', Done a) → (m ;; k) s = k s'.
Proof. unfold mbind, io_bind. by intros ->. Qed.

Lemma SummaryMetric_reads m : summary_ok m → summary_finite m = true →
  ∃ j, SummaryMetric_as_json m = Done j ∧ reads_back SummaryMetric_deserialize j m.
Proof.
  intros [Hu Hc] Hf. unfold SummaryMetric_as_json. json_object j Hobj Hpr Hget.
  exists j. do 3 (split; [done|]). intros t m0 Ht. unfold SummaryMetric_deserialize.
  rewrite (io_lift_done _ _ _ _ Ht). cbn in Hf. rewrite !andb_true_iff in Hf. destruct_and! Hf.
  do 10 (erewrite io_then; [|member Hget; reflexivity]). member Hget. by destruct m.
Qed.
Lemma io_stops {S A B} (m : io S A) (k : io S B) s s' e : m s = (s', Fault e) → (m ;; k) s = (s', Fault e).
Proof. unfold mbind, io_bind. by intros ->. Qed.

(** A double that is not finite was printed as null and cannot be read. *)
Lemma read_nonfinite {S} j k x (set : double → S → S) s :
  object j → j_get j k = Done (j_double x) → is_finite x = false →
  read_member (clean j) k to_double set s = (s, Fault FThrow).
Proof.
  intros Hj Hk Hx. unfold read_member. rewrite (io_lift_fault _ FThrow); [done|].
  rewrite (clean_get (Txt:=Txt)), Hk by done. cbn. rewrite (clean_double (Txt:=Txt)), Hx.
  apply (read_double_null (Txt:=Txt)).
Qed.

Lemma SummaryMetric_unreadable m : summary_ok m → summary_finite m = false →
  ∃ j, SummaryMetric_as_json m = Done j ∧ object j ∧ printable j ∧
    ∀ t m0, parse t = Done (clean j) → ∃ m1, SummaryMetric_deserialize t m0 = (m1, Fault FThrow).
Proof.
  intros [Hu Hc] Hf. unfold SummaryMetric_as_json. json_object j Hobj Hpr Hget.
  exists j. do 3 (split; [done|]). intros t m0 Ht. unfold SummaryMetric_deserialize.
  rewrite (io_lift_done _ _ _ _ Ht). cbn in Hf.
  erewrite io_then; [|member Hget; reflexivity].
  repeat match type of Hf with is_finite ?x && _ = false =>
    destruct (is_finite x) eqn:?; cbn in Hf;
    [erewrite io_then; [|member Hget; reflexivity]
    |eexists; apply io_stops; eapply read_nonfinite; [done|known Hget|done]] end.
  done.
Qed.

(** ** The records that hold one of the three *)
Definition data_ok (t : Z) (d : metric_data) : Prop :=
  match d with
  | CounterData c => t = MetricType.Counter ∧ is_u 64 (counter c)
  | StopwatchData w => t = MetricType.Stopwatch ∧ is_u 64 (runtime_ns w)
  | SummaryData m => t = MetricType.Summary ∧ summary_ok m
  | NoData => False
  end.
Definition data_finite (d : metric_data) : bool := match d with SummaryData m => summary_finite m | _ => true end.
Definition metrics_ok (m : Metrics) : Prop := utf8 (name m) ∧ data_ok (type m) (data m).

(** [j["data"] = v] after the name and the type. *)
Lemma set_data_spec m v :
  utf8 (name m) → printable v →
  ∃ j0 j, j_sets j_null [("name", j_string (name m)); ("type", j_uint (type m))] = Done j0 ∧
    j_set j0 "data" v = Done j ∧ object j ∧ printable j ∧
    j_get j "name" = Done (j_string (name m)) ∧ j_get j "type" = Done (j_uint (type m)) ∧
    j_get j "data" = Done v.
Proof.
  intros Hn Hv. json_object j0 Hobj Hpr Hget.
  destruct (set_object (Txt:=Txt) j0 "data" v Hobj) as (j & Hj & Hobj' & Hpr' & Hget').
  exists j0, j. split_and!; [done..| | | |].
  - apply Hpr'; [|done..]. apply (keys_utf8 (J:=J) (Txt:=Txt)). set_solver.
  - rewrite Hget', bool_decide_eq_false_2 by done. known Hget.
  - rewrite Hget', bool_decide_eq_false_2 by done. known Hget.
  - rewrite Hget'. by rewrite bool_decide_eq_true_2.
Qed.

Lemma read_data_back {A} (deser : Txt → io A unit) j d a a0 :
  object j → j_get j "data" = Done d → reads_back deser d a → read_data (clean j) deser a0 = Done a.
Proof.
  intros Hj Hd Hr. destruct (reads_back_text deser d a (-1) Hr) as [_ (t & Ht & Hback)].
  unfold read_data. rewrite (clean_get (Txt:=Txt)), Hd by done. cbn. rewrite Ht. cbn. by rewrite Hback.
Qed.

#[local] Arguments CounterMetric_as_json : simpl never.
#[local] Arguments StopwatchMetric_as_json : simpl never.
#[local] Arguments SummaryMetric_as_json : simpl never.
#[local] Arguments fill_data : simpl never.

(** The JSON form of the object. *)
Definition data_as_json (d : metric_data) : result J :=
  match d with
  | NoData => Fault FUndef
  | CounterData c => CounterMetric_as_json c
  | StopwatchData w => StopwatchMetric_as_json w
  | SummaryData m => SummaryMetric_as_json m
  end.

(** Up to the object, reading a record back is the same for all types. *)
Lemma Metrics_head m v : metrics_ok m → data_as_json (data m) = Done v → printable v →
  ∃ j, Metrics_as_json m = Done j ∧ object j ∧ printable j ∧ j_get j "data" = Done v ∧
    ∀ t m0, parse t = Done (clean j) →
      Metrics_deserialize t m0 = fill_data (clean j) (type m) (mkMetrics (type m) (data m0) (name m)).
Proof.
  intros [Hn Hd] Hv Hpv.
  destruct (set_data_spec m v Hn Hpv) as (j0 & j & E0 & E1 & Hobj & Hpr & Gn & Gt & Gd).
  assert (is_u 32 (type m)) as Hty.
  { destruct (data m); [done| | |]; destruct Hd as [-> _]; vm_compute; split; congruence. }
  exists j. split; [|split_and!; [done..|]].
  - unfold Metrics_as_json. rewrite E0, bind_done.
    unfold try_get_summary, try_get_counter, try_get_stopwatch.
    destruct (data m) as [|c|w|sm]; [done| | |]; destruct Hd as [-> _]; cbn in Hv |- *; rewrite Hv; exact E1.
  - intros t m0 Ht. unfold Metrics_deserialize. rewrite (io_lift_done _ _ _ _ Ht).
    erewrite io_then.
    2:{ eapply (read_member_spec j "name" _ (name m)); [done|exact Gn|].
        rewrite (clean_string (Txt:=Txt)). apply (read_string (Txt:=Txt)). }
    rewrite (io_lift_done _ (type m)); [done|].
    rewrite (clean_get (Txt:=Txt)), Gt by done. cbn. rewrite (clean_uint (Txt:=Txt)).
    by apply (read_unsigned (Txt:=Txt)).
Qed.

Lemma fill_data_back {A} j d (deser : Txt → io A unit) (a a0 : A) (con : A → metric_data) s :
  object j → j_get j "data" = Done d → reads_back deser d a →
  (x ← io_lift (read_data (clean j) deser a0); io_modify (set_data (con x))) s = (set_data (con a) s, Done tt).
Proof. intros Hj Hd Hr. rewrite (io_lift_done _ a); [done|]. by eapply read_data_back. Qed.

Lemma Metrics_reads m : metrics_ok m → data_finite (data m) = true →
  ∃ j, Metrics_as_json m = Done j ∧ reads_back Metrics_deserialize j m.
Proof.
  intros Hm Hf. pose proof Hm as [_ Hd]. destruct m as [ty d nm]. cbn [name type data] in Hd, Hf.
  assert (∀ A (deser : Txt → io A unit) (a a0 : A) (con : A → metric_data) v,
    data_as_json d = Done v → reads_back deser v a → con a = d →
    (∀ j s, fill_data j ty s = (x ← io_lift (read_data j deser a0); io_modify (set_data (con x))) s) →
    ∃ j, Metrics_as_json (mkMetrics ty d nm) = Done j ∧ reads_back Metrics_deserialize j (mkMetrics ty d nm)) as Hcase.
  { intros A deser a a0 con v Hv Hr Hcon Hfill.
    destruct (Metrics_head (mkMetrics ty d nm) v Hm Hv) as (j & Hj & Hobj & Hpr & Gd & Hback); [apply Hr|].
    exists j. do 3 (split; [done|]). intros t m0 Ht. rewrite Hback by done. cbn [type name]. rewrite Hfill.
    rewrite (fill_data_back j v deser a) by done. unfold set_data. by rewrite Hcon. }
  destruct d as [|c|w|sm]; [done| | |]; destruct Hd as [-> Hd].
  - destruct (CounterMetric_reads c Hd) as (v & Hv & Hr). by eapply Hcase.
  - destruct (StopwatchMetric_reads w Hd) as (v & Hv & Hr). by eapply Hcase.
  - destruct (SummaryMetric_reads sm Hd Hf) as (v & Hv & Hr). by eapply Hcase.
Qed.

(** A record whose JSON form cannot be read. *)
Lemma Metrics_unreadable m : metrics_ok m → data_finite (data m) = false →
  ∃ j, Metrics_as_json m = Done j ∧ object j ∧ printable j ∧
    ∀ t m0, parse t = Done (clean j) →
      Metrics_deserialize t m0 = (mkMetrics (type m) (data m0) (name m), Fault FThrow).
Proof.
  intros Hm Hf. pose proof Hm as [_ Hd]. destruct m as [ty d nm]. cbn [name type data] in Hd, Hf.
  destruct d as [|c|w|sm]; [done..|]. destruct Hd as [-> Hd].
  destruct (SummaryMetric_unreadable sm Hd Hf) as (v & Hv & Hov & Hpv & Hback).
  destruct (Metrics_head _ v Hm Hv Hpv) as (j & Hj & Hobj & Hpr & Gd & Hhead).
  exists j. do 3 (split; [done|]). intros t m0 Ht. rewrite Hhead by done. cbn [type name].
  unfold fill_data. cbn. erewrite io_lift_fault; [done|].
  destruct (dump_parse (-1) _ (clean_printable (Txt:=Txt) _ Hpv)) as (t1 & Ht1 & Hp1).
  rewrite (clean_idemp (Txt:=Txt)) in Hp1. unfold read_data. rewrite (clean_get (Txt:=Txt)), Gd by done. cbn.
  rewrite Ht1. cbn. destruct (Hback t1 SummaryMetric_zero Hp1) as [m1 Hm1]. by rewrite Hm1.
Qed.

(** A summary with a double that is not finite is written without complaint, and no
    record can be read from the text: [deserialize] throws after it has changed the type,
    so a record that held a counter or a stopwatch is left with the type of a summary and
    the old object, which [try_get_summary] then uses as a summary. *)
Theorem nonfinite_summary_unreadable m m0 :
  metrics_ok m → data_finite (data m) = false → metrics_ok m0 → type m0 ≠ MetricType.Summary →
  ∃ t m1, Metrics_serialize m = Done t ∧ Metrics_deserialize t m0 = (m1, Fault FThrow) ∧
    has_summary m1 = true ∧ data m1 = data m0 ∧ try_get_summary m1 = Fault FUndef.
Proof.
  intros Hm Hf Hm0 Hty. destruct (Metrics_unreadable m Hm Hf) as (j & Hj & _ & Hpr & Hback).
  destruct (dump_parse 2 j Hpr) as (t & Ht & Hparse). exists t, (mkMetrics (type m) (data m0) (name m)).
  assert (type m = MetricType.Summary) as Htm.
  { destruct Hm as [_ Hd]. destruct (data m); try done. by destruct Hd. }
  split; [unfold Metrics_serialize; by rewrite Hj|]. split; [by apply Hback|].
  split; [unfold has_summary; cbn; by rewrite Htm|]. split; [done|].
  unfold try_get_summary. cbn. rewrite Htm. cbn. destruct Hm0 as [_ Hd0].
  destruct (data m0); try done. by destruct Hd0.
Qed.

Definition result_ok (r : WorkloadDriverResult) : Prop :=
  metrics_ok (ops r) ∧ metrics_ok (runtime r) ∧ metrics_ok (qps r) ∧ metrics_ok (latency r).
Definition result_finite (r : WorkloadDriverResult) : bool :=
  forallb (λ m, data_finite (data m)) [ops r; runtime r; qps r; latency r].

Lemma read_part_back j key get set m v r :
  object j → j_get j key = Done v → reads_back Metrics_deserialize v m →
  read_part (clean j) key get set r = (set m r, Done tt).
Proof.
  intros Hj Hk Hr. destruct (reads_back_text Metrics_deserialize v m (-1) Hr) as [_ (t & Ht & Hback)].
  unfold read_part. erewrite io_lift_done; [|rewrite (clean_get (Txt:=Txt)), Hk by done; exact Ht].
  unfold io_part. by rewrite Hback.
Qed.

Lemma result_as_json r v1 v2 v3 v4 :
  Metrics_as_json (ops r) = Done v1 → Metrics_as_json (runtime r) = Done v2 →
  Metrics_as_json (qps r) = Done v3 → Metrics_as_json (latency r) = Done v4 →
  WorkloadDriverResult_as_json r = j_sets j_null [("ops", v1); ("runtime", v2); ("qps", v3); ("latency", v4)].
Proof.
  intros E1 E2 E3 E4. unfold WorkloadDriverResult_as_json. rewrite E1, E2, E3, E4. cbn [j_sets]. run.
  destruct (j_set _ _ _); [run|done]. destruct (j_set _ _ _); [run|done].
  destruct (j_set _ _ _); [run|done]. by destruct (j_set _ _ _).
Qed.

Lemma WorkloadDriverResult_reads r : result_ok r → result_finite r = true →
  ∃ j, WorkloadDriverResult_as_json r = Done j ∧ reads_back WorkloadDriverResult_deserialize j r.
Proof.
  intros (H1 & H2 & H3 & H4) Hf. cbn in Hf. rewrite !andb_true_iff in Hf. destruct Hf as (F1 & F2 & F3 & F4 & _).
  destruct (Metrics_reads _ H1 F1) as (v1 & E1 & R1). destruct (Metrics_reads _ H2 F2) as (v2 & E2 & R2).
  destruct (Metrics_reads _ H3 F3) as (v3 & E3 & R3). destruct (Metrics_reads _ H4 F4) as (v4 & E4 & R4).
  pose proof (proj1 (proj2 R1)). pose proof (proj1 (proj2 R2)). pose proof (proj1 (proj2 R3)).
  pose proof (proj1 (proj2 R4)).
  rewrite (result_as_json r v1 v2 v3 v4) by done.
  json_object j Hobj Hpr Hget. exists j. do 3 (split; [done|]). intros t r0 Hparse.
  unfold WorkloadDriverResult_deserialize. rewrite (io_lift_done _ _ _ _ Hparse).
  do 3 (erewrite io_then; [|eapply read_part_back; [done|known Hget|done]]).
  erewrite read_part_back; [|done|known Hget|done]. by destruct r.
Qed.

Lemma result_text r : result_ok r → result_finite r = true →
  ∃ t, WorkloadDriverResult_serialize r = Done t ∧ ∀ r0, WorkloadDriverResult_deserialize t r0 = (r, Done tt).
Proof.
  intros Hr Hf. destruct (WorkloadDriverResult_reads r Hr Hf) as (j & Hj & Hb).
  destruct (reads_back_text _ _ _ 2 Hb) as [(t & Ht & Hback) _]. exists t.
  unfold WorkloadDriverResult_serialize. rewrite Hj. by split.
Qed.

(** C36: the result of a run survives its JSON form: what the client prints is read back
    unchanged, whatever the receiving object held before, as long as its doubles are finite. *)
Theorem result_roundtrip r :
  result_ok r → result_finite r = true →
  ∃ t, WorkloadDriverResult_serialize r = Done t ∧
    ∀ r0, WorkloadDriverResult_deserialize t r0 = (r, Done tt).
Proof. apply result_text. Qed.

(** The description of a memory region survives its JSON form. *)
Theorem remote_object_roundtrip o :
  remote_ok o → ∃ t, RemoteObject_serialize o = Done t ∧ ∀ o0, RemoteObject_deserialize t o0 = (o, Done tt).
Proof.
  intros (Hi & Hr & Hs & Hl & Hk). unfold RemoteObject_serialize, RemoteObject_as_json.
  json_object j Hobj Hpr Hget. rewrite bind_done. destruct (dump_parse (-1) j Hpr) as (t & Ht & Hparse).
  exists t. split; [done|]. intros o0. unfold RemoteObject_deserialize.
  rewrite (io_lift_done _ _ _ _ Hparse). do 4 (erewrite io_then; [|member Hget; reflexivity]).
  member Hget. by destruct o.
Qed.
End laws.

(** ** A JSON library *)
(** Values as chains of fields; the text of a value is the value it is parsed to. *)
Inductive jval :=
| JNull | JString (s : string) | JUint (n : Z) | JDouble (x : double)
| JEmpty | JField (key : string) (v rest : jval).

Fixpoint is_object (j : jval) : Prop :=
  match j with JNull | JEmpty => True | JField _ _ rest => is_object rest | _ => False end.

Fixpoint jval_get (j : jval) (key : string) : result jval :=
  match j with
  | JNull | JEmpty => Done JNull
  | JField k v rest => if bool_decide (key = k) then Done v else jval_get rest key
  | _ => Fault FThrow
  end.

Definition jval_set (j : jval) (key : string) (v : jval) : result jval :=
  match j with
  | JNull => Done (JField key v JEmpty)
  | JEmpty | JField _ _ _ => Done (JField key v j)
  | _ => Fault FThrow
  end.

Fixpoint jval_clean (j : jval) : jval :=
  match j with
  | JDouble x => if is_finite x then j else JNull
  | JField k v rest => JField k (jval_clean v) (jval_clean rest)
  | _ => j
  end.

#[export] Instance Json_jval : Json jval jval := {|
  j_null := JNull; j_string := JString; j_uint := JUint; j_double := JDouble;
  j_set := jval_set; j_get := jval_get;
  to_string j := match j with JString s => Done s | _ => Fault FThrow end;
  to_unsigned w j := match j with JUint n => Done (n mod 2 ^ w) | _ => Fault FThrow end;
  to_double j := match j with JDouble x => Done x | _ => Fault FThrow end;
  dump _ j := Done (jval_clean j);
  parse j := Done j |}.

#[export] Instance JsonLaws_jval : JsonLaws jval jval (λ _, True) is_object (λ _, True) jval_clean.
Proof.
  split; try done; cbn.
  - intros j k v Hj. exists (JField k v (match j with JNull => JEmpty | _ => j end)).
    destruct j; try done; (split; [done|]); (split; [done|]); (split; [done|]); intros k'; cbn;
      by case_bool_decide.
  - intros j. induction j as [| | |x| |k v IHv r IHr]; cbn; [done..| |done|by rewrite IHv, IHr].
    destruct (is_finite x) eqn:E; cbn; [by rewrite E|done].
  - intros j. induction j; cbn; tauto.
  - intros j k. induction j as [| | | | |k0 v _ r IH]; cbn; try done. intros Hr. case_bool_decide; [done|auto].
  - intros w n Hn. f_equal. by apply wrap_small.
  - eauto.
Qed.

(** ** Examples *)
Definition ex_summary (x : double) : SummaryMetric :=
  mkSummaryMetric "ns" (lit 15 1) x (of_int 1) (of_int 1) (of_int 2) (of_int 2) (of_int 2) (of_int 2) (of_int 2) 2.
Definition ex_qps (x : double) : Metrics :=
  mkMetrics MetricType.Summary (SummaryData (ex_summary x)) "sampled_qps".
Definition ex_count : Metrics := mkMetrics MetricType.Counter (CounterData (mkCounterMetric 7)) "total_ops".
Definition ex_result : WorkloadDriverResult :=
  mkResult ex_count (mkMetrics MetricType.Stopwatch (StopwatchData (mkStopwatchMetric 99)) "driver_stopwatch")
    (ex_qps (lit 5 1)) (ex_qps (lit 5 1)).

Lemma ex_qps_ok x : metrics_ok (λ _, True) (ex_qps x).
Proof. split; [done|]. split; [done|]. split; [done|]. vm_compute. split; congruence. Qed.

Lemma result_roundtrip_witness :
  result_finite ex_result = true ∧ ∃ t : jval, WorkloadDriverResult_serialize ex_result = Done t ∧
    ∀ r0, WorkloadDriverResult_deserialize t r0 = (ex_result, Done tt).
Proof.
  split; [vm_compute; reflexivity|].
  apply (result_roundtrip (λ _, True) is_object (λ _, True) jval_clean).
  - split_and!; [|split; [exact I|split; [reflexivity|vm_compute; split; congruence]]
      |apply ex_qps_ok|apply ex_qps_ok].
    split; [exact I|split; [reflexivity|vm_compute; split; congruence]].
  - vm_compute. reflexivity.
Defined.

Lemma nonfinite_summary_unreadable_witness :
  ∃ (t : jval) m1, Metrics_serialize (ex_qps S754_nan) = Done t ∧
    Metrics_deserialize t ex_count = (m1, Fault FThrow) ∧
    has_summary m1 = true ∧ data m1 = data ex_count ∧ try_get_summary m1 = Fault FUndef.
Proof.
  apply (nonfinite_summary_unreadable (λ _, True) is_object (λ _, True) jval_clean).
  - apply ex_qps_ok.
  - reflexivity.
  - split; [exact I|split; [reflexivity|vm_compute; split; congruence]].
  - vm_compute. congruence.
Defined.

Lemma remote_object_roundtrip_witness :
  ∃ t : jval, RemoteObject_serialize (mkRemoteObject "pool" 4096 64 1 2) = Done t ∧
    ∀ o0, RemoteObject_deserialize t o0 = (mkRemoteObject "pool" 4096 64 1 2, Done tt).
Proof.
  apply (remote_object_roundtrip (λ _, True) is_object (λ _, True) jval_clean).
  split_and!; first [exact I|vm_compute; split; congruence].
Defined.
