(* ===== verification/Summary.v ===== *)
(** * The sample window of [Summary] (metrics/summary.h): an order-statistics tree

    [SubtreeCountVisitor] keeps in each node's metadata the number of samples below it;
    [FindNthPercentile] descends by these counts. Counts are [int]; the conversion of
    a percentile into a rank is in SummaryStats; the rank is the argument here. *)
From stdpp Require Import sorting.
From S2P Require Import Prelude ATree.

Section summary.
Context {K : Type} `{Key K}.
Abbreviation heap := (gmap loc (node K)).
Abbreviation tree := (tree K).
Abbreviation ATree := (ATree K).
Implicit Types key : K.

Definition set_meta (n : node K) (m : Z) : node K := mkNode (n_key n) (n_value n) m (n_left n) (n_right n).
Definition set_val (n : node K) (v : Z) : node K := mkNode (n_key n) v (n_meta n) (n_left n) (n_right n).

(** [p != nullptr ? p->metadata() : 0] *)
Definition meta_of (h : heap) (p : option loc) : result Z :=
  match p with Some l => n ← defined (h !! l); Done (n_meta n) | None => Done 0 end.

(** [SubtreeCountVisitor::Visit] *)
Definition Visit (l : loc) (h : heap) : result heap :=
  n ← defined (h !! l);
  left_total ← meta_of h (n_left n);
  right_total ← meta_of h (n_right n);
  s ← int_op (left_total + right_total);
  s ← int_op (s + n_value n);
  Done (<[l := set_meta n s]> h).

Definition CountUpdate (l : loc) (value metadata : Z) (h : heap) : result heap :=
  n ← defined (h !! l);
  v ← int_op (n_value n + 1);
  Visit l (<[l := set_val n v]> h).

Definition SubtreeCountVisitor : visitor K := mkVisitor Visit Visit Visit CountUpdate.

(** [PercentileAccessor::GetSize] *)
Definition GetSize (t : ATree) : result Z := meta_of (a_heap t) (a_root t).

(** The loop of [FindNthPercentile] *)
Fixpoint rank_loop (fuel : nat) (h : heap) (curr : loc) (rank : Z) : result loc :=
  n ← defined (h !! curr);
  match n_left n, n_right n with
  | None, None => _ ← rome_assert (rank <=? n_meta n); Done curr
  | pl, pr =>
      ml ← meta_of h pl;
      mr ← meta_of h pr;
      if (rank <=? n_meta n - mr) && (ml <? rank) then Done curr
      else match fuel with
      | O => Fault FFuel
      | S f =>
          match pl with
          | Some l =>
              if rank <=? ml then rank_loop f h l rank
              else match pr with
                   | Some r => rank_loop f h r (rank - (n_meta n - mr))
                   | None => Fault FAbort                  (* assert(right != nullptr) *)
                   end
          | None => match pr with
                    | Some r => rank_loop f h r (rank - (n_meta n - mr))
                    | None => Fault FAbort
                    end
          end
      end
  end.

(** [FindNthPercentile] from its rank on: the key of the node found. *)
Definition FindNth (fuel : nat) (t : ATree) (rank : Z) : result K :=
  curr ← defined (a_root t);
  l ← rank_loop fuel (a_heap t) curr rank;
  n ← defined (a_heap t !! l); Done (n_key n).

(** The sample part of [operator<<]: a full window is emptied first. *)
Definition add_sample (fuel : nat) (window_size_ : Z) (value : K) (t : ATree) : result ATree :=
  size ← GetSize t;
  let t := if size =? window_size_ then (if size =? 0 then t else Clear t) else t in
  InsertOrUpdate fuel SubtreeCountVisitor value 1 1 t.

#[local] Instance tree_empty_dec (t : tree) : Decision (t = E).
Proof. destruct t; [by left|by right]. Defined.

Section ordered.
Context (ok : K → Prop) (pos : K → Z) `{!KeyLaws K ok pos}.
Abbreviation keys := (keys pos).
Abbreviation bst := (bst ok pos).

(** ** The tree after a sample *)
Definition cnt (t : tree) : Z := match t with E => 0 | N _ _ _ m _ _ => m end.

Fixpoint counted (t : tree) : Prop :=
  match t with
  | E => True
  | N _ _ v m a b => 1 ≤ v ∧ m = cnt a + cnt b + v ∧ counted a ∧ counted b
  end.

(** The positions of the samples, in order. *)
Fixpoint samples (t : tree) : list Z :=
  match t with E => [] | N _ k v _ a b => samples a ++ replicate (Z.to_nat v) (pos k) ++ samples b end.

Fixpoint ins (l : loc) key (t : tree) : tree :=
  match t with
  | E => N l key 1 1 E E
  | N l' k v m a b =>
      if pos k =? pos key then N l' k (v + 1) (cnt a + cnt b + (v + 1)) a b
      else if pos k <? pos key then N l' k v (cnt a + cnt (ins l key b) + v) a (ins l key b)
      else N l' k v (cnt (ins l key a) + cnt b + v) (ins l key a) b
  end.

Lemma cnt_length t : counted t → cnt t = Z.of_nat (length (samples t)).
Proof.
  induction t as [|l k v m a IHa b IHb]; [done|]. intros (Hv & -> & Ha & Hb). cbn.
  rewrite !length_app, length_replicate, IHa, IHb by done. lia.
Qed.

Lemma cnt_ins l key t : counted t → cnt (ins l key t) = cnt t + 1 ∧ counted (ins l key t).
Proof.
  induction t as [|l' k v m a IHa b IHb]; [cbn; lia|]. intros (Hv & Hm & Ha & Hb).
  specialize (IHa Ha). specialize (IHb Hb). cbn.
  destruct (pos k =? pos key); [cbn; split_and!; (lia || done)|].
  destruct (pos k <? pos key); cbn; split_and!; (lia || tauto).
Qed.

Lemma keys_ins l key t x : x ∈ keys (ins l key t) → x = pos key ∨ x ∈ keys t.
Proof.
  induction t as [|l' k v m a IHa b IHb]; cbn; [by intros ->%list_elem_of_singleton; left|].
  destruct (pos k =? pos key); [by right|].
  destruct (pos k <? pos key); cbn; rewrite !elem_of_app, !elem_of_cons; tauto.
Qed.

Lemma bst_ins l key t : ok key → bst t → bst (ins l key t).
Proof.
  intros Hkey. induction t as [|l' k v m a IHa b IHb]; [by repeat constructor|]. intros (Hok & Hlo & Hhi & Ha & Hb). cbn.
  rewrite Forall_forall in Hlo, Hhi.
  destruct (Z.eqb_spec (pos k) (pos key)) as [|Hne]; [cbn; rewrite !Forall_forall; done|].
  destruct (Z.ltb_spec (pos k) (pos key)); cbn; rewrite !Forall_forall; split_and!; auto;
    intros x [->|Hx]%keys_ins; auto; lia.
Qed.

Lemma replicate_S_Z v (k : Z) : 1 ≤ v → replicate (Z.to_nat (v + 1)) k = k :: replicate (Z.to_nat v) k.
Proof. intros. by replace (Z.to_nat (v + 1)) with (S (Z.to_nat v)) by lia. Qed.

Lemma samples_ins l key t : counted t → samples (ins l key t) ≡ₚ pos key :: samples t.
Proof.
  induction t as [|l' k v m a IHa b IHb]; [done|]. intros (Hv & _ & Ha & Hb). cbn.
  destruct (Z.eqb_spec (pos k) (pos key)) as [Heq|]; cbn.
  { rewrite Heq, replicate_S_Z by done. symmetry. apply Permutation_middle. }
  destruct (pos k <? pos key); cbn.
  - rewrite IHb by done. by rewrite <- !Permutation_middle.
  - by rewrite IHa by done.
Qed.

Lemma samples_keys t x : x ∈ samples t → x ∈ keys t.
Proof.
  induction t as [|l k v m a IHa b IHb]; cbn; [done|].
  rewrite !elem_of_app, elem_of_cons, elem_of_replicate. tauto.
Qed.

Lemma replicate_sorted n (k : Z) : StronglySorted (≤) (replicate n k).
Proof.
  induction n as [|n IHn]; cbn; constructor; [done|].
  apply Forall_forall. intros x [-> _]%elem_of_replicate. lia.
Qed.

Lemma samples_sorted t : bst t → StronglySorted (≤) (samples t).
Proof.
  induction t as [|l k v m a IHa b IHb]; [constructor|]. intros (Hok & Hlo & Hhi & Ha & Hb). cbn.
  rewrite Forall_forall in Hlo, Hhi. apply StronglySorted_app_2; [|by apply IHa|apply StronglySorted_app_2].
  - intros x y Hx%samples_keys Hy. specialize (Hlo _ Hx).
    apply elem_of_app in Hy as [[-> _]%elem_of_replicate|Hy%samples_keys]; [lia|].
    specialize (Hhi _ Hy). lia.
  - intros x y [-> _]%elem_of_replicate Hy%samples_keys. specialize (Hhi _ Hy). lia.
  - apply replicate_sorted.
  - by apply IHb.
Qed.

(** ** The heap follows the tree *)
Lemma meta_of_repr h p t : repr h p t → meta_of h p = Done (cnt t).
Proof.
  destruct t; cbn; [by intros ->|]. intros (-> & pa & pb & Hl & _). cbn. by rewrite Hl.
Qed.

Lemma cnt_nonneg t : counted t → 0 ≤ cnt t.
Proof. intros Ht. rewrite cnt_length by done. lia. Qed.

Lemma int_op_id x : 0 ≤ x ≤ INT_MAX → int_op x = Done x.
Proof. intros Hx. apply int_op_done. unfold INT_MIN. split; [done|lia]. Qed.

(** Visiting a node whose children are right sets its count. *)
Lemma Visit_spec h l k v m pa pb a b :
  h !! l = Some (mkNode k v m pa pb) → repr h pa a → repr h pb b →
  0 ≤ cnt a → 0 ≤ cnt b → 0 ≤ v → cnt a + cnt b + v ≤ INT_MAX →
  Visit l h = Done (<[l := mkNode k v (cnt a + cnt b + v) pa pb]> h).
Proof.
  intros Hl Ha Hb Hca Hcb Hv Hmax. unfold Visit. rewrite Hl. run. cbn.
  rewrite (meta_of_repr _ _ _ Ha), bind_done, (meta_of_repr _ _ _ Hb), bind_done.
  rewrite (int_op_id (cnt a + cnt b)) by lia. rewrite bind_done, int_op_id by lia. done.
Qed.

(** The work at the end of the search, on the heap alone. *)
Definition finish key (parent : nptr) (curr : option loc) (l : loc) (h : heap) : result heap :=
  match curr, parent with
  | Some c, _ => CountUpdate c 1 1 h
  | None, PRoot => Fault FUndef
  | None, PNode p =>
      let h := <[l := mkNode key 1 1 None None]> h in
      n ← defined (h !! p);
      Visit l (<[p := if key_ltb key (n_key n) then set_left n (Some l) else set_right n (Some l)]> h)
  end.

(** What one call of [InsertOrUpdate] does to a non-empty tree. *)
Definition ins_ok key (l : loc) (h : heap) (p : option loc) (t : tree) (fuel : nat) : Prop :=
  ∃ curr path, ∀ par st, ∃ par',
    find_loop fuel h key par p st = Done (par', curr, st ++ path) ∧
    ∃ h', (h1 ← finish key par' curr l h; unwind Visit path h1) = Done h' ∧
      repr h' p (ins l key t) ∧ ∀ x, x ∉ locs (ins l key t) → h' !! x = h !! x.

Lemma finish_found h l k v m pa pb a b key lnew par :
  h !! l = Some (mkNode k v m pa pb) → repr h pa a → repr h pb b → l ∉ locs a → l ∉ locs b →
  0 ≤ cnt a → 0 ≤ cnt b → 0 ≤ v → cnt a + cnt b + (v + 1) ≤ INT_MAX →
  ∃ h', finish key par (Some l) lnew h = Done h' ∧
    repr h' (Some l) (N l k (v + 1) (cnt a + cnt b + (v + 1)) a b) ∧
    ∀ x, x ≠ l → h' !! x = h !! x.
Proof.
  intros Hl Ha Hb Hla Hlb ? ? ? ?. cbn. unfold CountUpdate. rewrite Hl. run. cbn.
  rewrite int_op_id, bind_done by lia.
  erewrite (Visit_spec _ l k (v + 1) m pa pb a b); try lia; [|apply lookup_insert_eq|by apply repr_insert..].
  eexists. split; [done|]. split.
  - split; [done|]. exists pa, pb. rewrite lookup_insert_eq. split; [done|].
    by split; repeat apply repr_insert.
  - intros x Hx. by rewrite !lookup_insert_ne.
Qed.

(** A new node below [l], on the side [key] belongs to. *)
Lemma finish_new h l k v m pa pb key lnew :
  h !! l = Some (mkNode k v m pa pb) → l ≠ lnew →
  (if pos k <? pos key then pb else pa) = None → pos k ≠ pos key → ok k → ok key →
  ∃ h', finish key (PNode l) None lnew h = Done h' ∧
    h' !! l = Some (if pos k <? pos key then mkNode k v m pa (Some lnew) else mkNode k v m (Some lnew) pb) ∧
    h' !! lnew = Some (mkNode key 1 1 None None) ∧
    ∀ x, x ≠ l → x ≠ lnew → h' !! x = h !! x.
Proof.
  intros Hl Hne Hnone Hk Hok Hokk. cbn. rewrite lookup_insert_ne, Hl, defined_Some, bind_done by done. cbn.
  rewrite key_ltb_pos by done.
  erewrite (Visit_spec _ lnew key 1 1 None None E E); try done;
    [|by rewrite lookup_insert_ne, lookup_insert_eq by done].
  eexists. split; [done|]. cbn. split_and!.
  - rewrite lookup_insert_ne, lookup_insert_eq by done. f_equal.
    destruct (Z.ltb_spec (pos k) (pos key)), (Z.ltb_spec (pos key) (pos k)); (done || lia).
  - by rewrite lookup_insert_eq.
  - intros x Hx Hx'. by rewrite !lookup_insert_ne by done.
Qed.

Lemma locs_ins l key t x : x ∈ locs (ins l key t) → x = l ∨ x ∈ locs t.
Proof.
  induction t as [|l' k v m a IHa b IHb]; cbn; [by intros ->%list_elem_of_singleton; left|].
  destruct (pos k =? pos key); [by right|].
  destruct (pos k <? pos key); cbn; rewrite !elem_of_cons, !elem_of_app; tauto.
Qed.

(** The last visit of a subtree: its root, once both children are right. *)
Lemma visit_root h l k v m pa pb a b :
  h !! l = Some (mkNode k v m pa pb) → repr h pa a → repr h pb b → l ∉ locs a → l ∉ locs b →
  counted a → counted b → 1 ≤ v → cnt a + cnt b + v ≤ INT_MAX →
  ∃ h', Visit l h = Done h' ∧ repr h' (Some l) (N l k v (cnt a + cnt b + v) a b) ∧
    ∀ x, x ≠ l → h' !! x = h !! x.
Proof.
  intros Hl Ha Hb Hla Hlb Hca Hcb Hv Hmax. pose proof (cnt_nonneg _ Hca). pose proof (cnt_nonneg _ Hcb).
  rewrite (Visit_spec _ _ _ _ _ _ _ _ _ Hl Ha Hb) by lia. eexists. split; [done|]. split.
  - split; [done|]. exists pa, pb. rewrite lookup_insert_eq. split; [done|]. by split; apply repr_insert.
  - intros x Hx. by rewrite lookup_insert_ne.
Qed.

Lemma repr_leaf h l key : h !! l = Some (mkNode key 1 1 None None) → repr h (Some l) (N l key 1 1 E E).
Proof. intros Hl. split; [done|]. by exists None, None. Qed.

(** The side the search takes is empty: the new node becomes that child. *)
Lemma ins_ok_leaf key lnew h l k v m pa pb a b f :
  repr h (Some l) (N l k v m a b) → h !! l = Some (mkNode k v m pa pb) → repr h pa a → repr h pb b →
  NoDup (locs (N l k v m a b)) → h !! lnew = None → counted (N l k v m a b) → m + 1 ≤ INT_MAX →
  pos k ≠ pos key → ok k → ok key → (if pos k <? pos key then b else a) = E →
  ins_ok key lnew h (Some l) (N l k v m a b) (S f).
Proof.
  intros Hr Hl Ha Hb Hnd Hnew (Hv & Hm & Hca & Hcb) Hmax Hk Hok Hokk HE.
  assert (∀ x, x ∈ locs (N l k v m a b) → x ≠ lnew) as Hfresh.
  { intros x Hx ->. destruct (repr_dom _ _ _ _ Hr Hx). congruence. }
  assert (l ≠ lnew) as Hlnew by (apply Hfresh, list_elem_of_here).
  assert ((if pos k <? pos key then pb else pa) = None) as Hnone by (destruct (pos k <? pos key); subst; done).
  destruct (finish_new h l k v m pa pb key lnew Hl Hlnew Hnone Hk Hok Hokk) as (h1 & Hf & Hl1 & Hn1 & Ho1).
  cbn in Hnd. apply NoDup_cons in Hnd as [Hni Hnd]. apply not_elem_of_app in Hni as [Hla Hlb].
  assert (∀ t p, repr h p t → (∀ x, x ∈ locs t → x ∈ locs (N l k v m a b) ∧ x ≠ l) → repr h1 p t) as Hframe.
  { intros t p Ht Hx. eapply repr_frame; [exact Ht|]. intros x Hin. destruct (Hx x Hin).
    apply Ho1; auto. }
  assert (repr h1 pa a ∧ repr h1 pb b) as [Ha1 Hb1].
  { split; (apply Hframe; [done|]); intros x Hx; (split; [cbn; rewrite elem_of_cons, elem_of_app; auto|congruence]). }
  exists None, [l]. intros par st. exists (PNode l). split.
  { cbn. rewrite Hl. run. cbn. rewrite key_eqb_pos, key_ltb_pos, (proj2 (Z.eqb_neq _ _) Hk) by done.
    destruct (pos k <? pos key); rewrite Hnone; by destruct f. }
  rewrite Hf, bind_done. cbn. rewrite (proj2 (Z.eqb_neq _ _) Hk). pose proof (repr_leaf _ _ _ Hn1) as Hleaf.
  destruct (pos k <? pos key); subst; cbn in *.
  - destruct (visit_root _ _ _ _ _ _ _ a (N lnew key 1 1 E E) Hl1 Ha1 Hleaf) as (h2 & -> & Hr2 & Ho2);
      [done|by intros ->%list_elem_of_singleton|done|cbn; lia|done|cbn; lia|].
    exists h2. do 2 (split; [done|]). intros x [Hx [_ Hxn]%not_elem_of_app]%not_elem_of_cons.
    apply not_elem_of_cons in Hxn as [Hxn _]. rewrite Ho2, Ho1; done.
  - destruct (visit_root _ _ _ _ _ _ _ (N lnew key 1 1 E E) b Hl1 Hleaf Hb1) as (h2 & -> & Hr2 & Ho2);
      [by intros ->%list_elem_of_singleton|done|cbn; lia|done|done|cbn; lia|].
    exists h2. do 2 (split; [done|]). intros x [Hx [Hxn _]%not_elem_of_cons]%not_elem_of_cons.
    rewrite Ho2, Ho1; done.
Qed.

(** The search goes on in a non-empty side. *)
Lemma ins_ok_step key lnew h l k v m pa pb a b f :
  h !! l = Some (mkNode k v m pa pb) → repr h pa a → repr h pb b →
  NoDup (locs (N l k v m a b)) → h !! lnew = None → counted (N l k v m a b) → m + 1 ≤ INT_MAX →
  pos k ≠ pos key → ok k → ok key →
  ins_ok key lnew h (if pos k <? pos key then pb else pa) (if pos k <? pos key then b else a) f →
  ins_ok key lnew h (Some l) (N l k v m a b) (S f).
Proof.
  intros Hl Ha Hb Hnd Hnew (Hv & Hm & Hca & Hcb) Hmax Hk Hok Hokk (curr & path & IH).
  assert (l ≠ lnew) as Hlnew by congruence.
  cbn in Hnd. apply NoDup_cons in Hnd as [Hni Hnd]. apply not_elem_of_app in Hni as [Hla Hlb].
  apply NoDup_app in Hnd as (_ & Hdis & _).
  exists curr, (l :: path). intros par st.
  destruct (IH (PNode l) (st ++ [l])) as (par' & Hfind & h1 & Hun & Hr1 & Ho). exists par'. split.
  { cbn. rewrite Hl. run. cbn. rewrite key_eqb_pos, key_ltb_pos, (proj2 (Z.eqb_neq _ _) Hk) by done.
    rewrite Hfind. by rewrite <- app_assoc. }
  assert ((h0 ← finish key par' curr lnew h; unwind Visit (l :: path) h0) = Visit l h1) as ->.
  { destruct (finish key par' curr lnew h) as [h0|]; cbn in *; [by rewrite Hun|done]. }
  assert (∀ x, x ∉ locs (if pos k <? pos key then b else a) → x ≠ lnew → h1 !! x = h !! x) as Ho1.
  { intros x Hx Hxn. apply Ho. by intros [?|?]%locs_ins. }
  cbn. rewrite (proj2 (Z.eqb_neq _ _) Hk).
  assert (h1 !! l = Some (mkNode k v m pa pb)) as Hl1.
  { rewrite Ho1; [done|by destruct (pos k <? pos key)|done]. }
  assert (∀ x, x ∈ locs a ++ locs b → x ≠ lnew) as Hfresh.
  { intros x [Hx|Hx]%elem_of_app ->; [destruct (repr_dom _ _ _ _ Ha Hx)|destruct (repr_dom _ _ _ _ Hb Hx)];
      congruence. }
  setoid_rewrite elem_of_app in Hfresh.
  destruct (cnt_ins lnew key a Hca) as [Hna Hca']. destruct (cnt_ins lnew key b Hcb) as [Hnb Hcb'].
  destruct (pos k <? pos key).
  - assert (repr h1 pa a) as Ha1.
    { eapply repr_frame; [exact Ha|]. intros x Hx. apply Ho1; [by apply Hdis|by apply Hfresh; left]. }
    destruct (visit_root _ _ _ _ _ _ _ a (ins lnew key b) Hl1 Ha1 Hr1) as (h2 & -> & Hr2 & Ho2);
      [done|by intros [?|?]%locs_ins|done|done|done|lia|].
    exists h2. do 2 (split; [done|]). intros x [Hx [_ Hxb]%not_elem_of_app]%not_elem_of_cons.
    rewrite Ho2, Ho; done.
  - assert (repr h1 pb b) as Hb1.
    { eapply repr_frame; [exact Hb|]. intros x Hx.
      apply Ho1; [by intros Hxa; eapply Hdis|by apply Hfresh; right]. }
    destruct (visit_root _ _ _ _ _ _ _ (ins lnew key a) b Hl1 Hr1 Hb1) as (h2 & -> & Hr2 & Ho2);
      [by intros [?|?]%locs_ins|done|done|done|done|lia|].
    exists h2. do 2 (split; [done|]). intros x [Hx [Hxa _]%not_elem_of_app]%not_elem_of_cons.
    rewrite Ho2, Ho; done.
Qed.

Lemma ins_spec key lnew h p t fuel :
  ok key → t ≠ E → repr h p t → bst t → NoDup (locs t) → h !! lnew = None → counted t →
  cnt t + 1 ≤ INT_MAX → (height t ≤ fuel)%nat → ins_ok key lnew h p t fuel.
Proof.
  intros Hkey. revert p fuel.
  induction t as [|l k v m a IHa b IHb]; intros p fuel Hne Hr Hbst Hnd Hnew Hc Hmax Hf; [done|].
  destruct Hbst as (Hok & _ & _ & Hba & Hbb).
  pose proof Hr as (-> & pa & pb & Hl & Ha & Hb). pose proof Hc as (Hv & Hm & Hca & Hcb).
  pose proof Hnd as Hnd'. cbn in Hnd'. apply NoDup_cons in Hnd' as [Hni Hnd'].
  apply not_elem_of_app in Hni as [Hla Hlb]. apply NoDup_app in Hnd' as (Hnda & _ & Hndb).
  cbn in Hf, Hmax. destruct fuel as [|f]; [lia|].
  pose proof (cnt_nonneg _ Hca). pose proof (cnt_nonneg _ Hcb).
  destruct (Z.eqb_spec (pos k) (pos key)) as [Heq|Hk].
  { exists (Some l), []. intros par st. exists par. split.
    { cbn. rewrite Hl. run. cbn. rewrite key_eqb_pos, Heq, Z.eqb_refl, app_nil_r by done. done. }
    destruct (finish_found h l k v m pa pb a b key lnew par Hl Ha Hb Hla Hlb) as (h' & -> & Hr' & Ho'); [lia..|].
    exists h'. split; [done|]. cbn [ins]. rewrite Heq, Z.eqb_refl. split; [done|].
    intros x [Hx _]%not_elem_of_cons. by apply Ho'. }
  destruct (decide ((if pos k <? pos key then b else a) = E)) as [HE|HnE].
  { by apply ins_ok_leaf with pa pb. }
  eapply ins_ok_step; try done. destruct (pos k <? pos key).
  - apply IHb; try done; lia.
  - apply IHa; try done; lia.
Qed.

Lemma NoDup_locs_ins l key t : NoDup (locs t) → l ∉ locs t → NoDup (locs (ins l key t)).
Proof.
  induction t as [|l' k v m a IHa b IHb]; cbn; [intros; apply NoDup_singleton|].
  rewrite NoDup_cons, NoDup_app, not_elem_of_cons, !not_elem_of_app.
  intros ((Hna & Hnb) & Ha & Hab & Hb) (Hl & Hla & Hlb).
  destruct (pos k =? pos key); [|destruct (pos k <? pos key)]; cbn; rewrite NoDup_cons, NoDup_app, not_elem_of_app.
  - done.
  - split_and!; [done|by intros [?|?]%locs_ins|done| |by apply IHb].
    intros x Hx [->|Hx']%locs_ins; [done|]. by eapply Hab.
  - split_and!; [by intros [?|?]%locs_ins|done|by apply IHa| |done].
    intros x [->|Hx]%locs_ins Hx'; [done|]. by eapply Hab.
Qed.

Lemma keys_length t : counted t → Z.of_nat (length (keys t)) ≤ cnt t.
Proof.
  induction t as [|l k v m a IHa b IHb]; [done|]. intros (Hv & -> & Ha & Hb). cbn.
  rewrite length_app. cbn. specialize (IHa Ha). specialize (IHb Hb). lia.
Qed.

Lemma keys_ins_length l key t : bst t →
  length (keys (ins l key t)) = (length (keys t) + if bool_decide (pos key ∈ keys t) then 0 else 1)%nat.
Proof.
  induction t as [|l' k v m a IHa b IHb]; [done|]. intros (Hok & Hlo & Hhi & Ha & Hb).
  rewrite Forall_forall in Hlo, Hhi. specialize (IHa Ha). specialize (IHb Hb).
  assert (pos key ∈ keys (N l' k v m a b) ↔ pos key ∈ keys a ∨ pos key = pos k ∨ pos key ∈ keys b) as Hk
    by (cbn; by rewrite elem_of_app, elem_of_cons).
  rewrite (bool_decide_ext _ _ Hk). cbn. destruct (Z.eqb_spec (pos k) (pos key)) as [Heq|Hne]; cbn.
  { rewrite bool_decide_eq_true_2 by auto. rewrite !length_app. cbn. lia. }
  destruct (Z.ltb_spec (pos k) (pos key)); cbn; rewrite !length_app; cbn; rewrite ?IHa, ?IHb; clear IHa IHb.
  - assert (pos key ∈ keys a ∨ pos key = pos k ∨ pos key ∈ keys b ↔ pos key ∈ keys b) as Hiff;
      [|rewrite (bool_decide_ext _ _ Hiff); lia].
    split; [|auto]. intros [Hx|[?|?]]; [specialize (Hlo _ Hx); lia|congruence|done].
  - assert (pos key ∈ keys a ∨ pos key = pos k ∨ pos key ∈ keys b ↔ pos key ∈ keys a) as Hiff;
      [|rewrite (bool_decide_ext _ _ Hiff); lia].
    split; [|auto]. intros [?|[?|Hx]]; [done|congruence|specialize (Hhi _ Hx); lia].
Qed.

(** ** The window *)
Record window_ok (T : ATree) (t : tree) : Prop := {
  w_repr : repr (a_heap T) (a_root T) t;
  w_locs : NoDup (locs t);
  w_bst : bst t;
  w_counted : counted t;
  w_size : size_ T = Z.of_nat (length (keys t));
  w_owned : ∃ ts, owns_nodes T ts t }.

Lemma window_new : window_ok ATree_new E.
Proof. split; [done|apply NoDup_nil_2|done..|exists []; apply owns_new]. Qed.

Lemma window_clear T t : window_ok T t → window_ok (Clear T) E.
Proof.
  intros [_ _ _ _ _ (ts & Hts)]. split; [done|apply NoDup_nil_2|done..|].
  exists (ts ++ [t]). by apply owns_clear.
Qed.

Lemma new_loc_fresh (T : ATree) : a_heap T !! new_loc T = None.
Proof. unfold new_loc. apply not_elem_of_dom. apply is_fresh. Qed.

Lemma window_fresh T t : window_ok T t → new_loc T ∉ locs t.
Proof.
  intros Hw Hx. destruct (repr_dom _ _ _ _ (w_repr _ _ Hw) Hx) as [n Hn].
  by rewrite new_loc_fresh in Hn.
Qed.

(** [InsertOrUpdate] in terms of [finish], on a tree with a root. *)
Lemma InsertOrUpdate_finish fuel key T par curr path h' :
  FindInternal fuel key T = Done (par, curr, path) → 0 ≤ size_ T → size_ T + 1 ≤ INT_MAX →
  (h1 ← finish key par curr (new_loc T) (a_heap T); unwind Visit path h1) = Done h' →
  InsertOrUpdate fuel SubtreeCountVisitor key 1 1 T =
    Done (set_tree T h' (a_root T) (size_ T + match curr with Some _ => 0 | None => 1 end)).
Proof.
  intros Hf Hs0 Hs Hfin. unfold InsertOrUpdate. rewrite Hf, bind_done. cbv beta iota. destruct curr as [c|].
  - cbn in Hfin |- *. rewrite Hfin. cbn. by rewrite Z.add_0_r.
  - destruct par as [|p]; [done|]. unfold insert_at_leaf, InsertInternal.
    rewrite int_op_id, bind_done by lia. cbv beta iota zeta delta [finish] in Hfin |- *.
    destruct (defined _) as [n|] eqn:Hn; [|done].
    cbn -[Visit unwind] in Hfin |- *. unfold with_heap. cbn -[Visit unwind]. by rewrite Hfin.
Qed.

Lemma InsertOrUpdate_empty fuel key T :
  a_root T = None → size_ T = 0 →
  ∃ h', InsertOrUpdate fuel SubtreeCountVisitor key 1 1 T = Done (set_tree T h' (Some (new_loc T)) 1) ∧
    h' !! new_loc T = Some (mkNode key 1 1 None None) ∧ ∀ x, x ≠ new_loc T → h' !! x = a_heap T !! x.
Proof.
  intros Hr Hs. unfold InsertOrUpdate, FindInternal. rewrite Hr. exists (<[new_loc T := mkNode key 1 1 None None]>
    (<[new_loc T := mkNode key 1 1 None None]> (a_heap T))). split.
  - destruct fuel; cbn; unfold insert_at_leaf, InsertInternal; rewrite Hs, int_op_id, bind_done by (unfold INT_MAX; lia);
      cbn; by rewrite (Visit_spec _ (new_loc T) key 1 1 None None E E) by (done || apply lookup_insert_eq).
  - split; [apply lookup_insert_eq|]. intros x Hx. by rewrite !lookup_insert_ne.
Qed.

Lemma locs_ins_mono l key t x : x ∈ locs t → x ∈ locs (ins l key t).
Proof.
  induction t as [|l' k v m a IHa b IHb]; cbn; [by intros ?%elem_of_nil|].
  destruct (pos k =? pos key); [done|].
  destruct (pos k <? pos key); cbn; rewrite !elem_of_cons, !elem_of_app; tauto.
Qed.

Lemma InsertOrUpdate_spec fuel key T t :
  ok key → window_ok T t → (height t ≤ fuel)%nat → cnt t + 1 ≤ INT_MAX →
  ∃ T', InsertOrUpdate fuel SubtreeCountVisitor key 1 1 T = Done T' ∧
    window_ok T' (ins (new_loc T) key t) ∧ cleared_ T' = cleared_ T ∧
    ∀ x, x ∉ locs (ins (new_loc T) key t) → a_heap T' !! x = a_heap T !! x.
Proof.
  intros Hkey Hok Hf Hmax. pose proof (window_fresh _ _ Hok) as Hfresh. destruct Hok as [Hr Hnd Hb Hc Hs (ts & Hown)].
  pose proof (keys_length _ Hc) as Hkl. pose proof (new_loc_fresh T) as Hnew.
  assert (∀ T', repr (a_heap T') (a_root T') (ins (new_loc T) key t) → cleared_ T' = cleared_ T →
    (∀ x, x ∉ locs (ins (new_loc T) key t) → a_heap T' !! x = a_heap T !! x) →
    ∃ ts', owns_nodes T' ts' (ins (new_loc T) key t)) as Hown'.
  { intros T' Hr' Hcl Hfr. exists ts. eapply owns_update; [exact Hown|exact Hr'|done|by apply NoDup_locs_ins| | |done].
    - intros x. apply locs_ins_mono.
    - intros x [->|Hx]%locs_ins; [by right|by left]. }
  destruct (cnt_ins (new_loc T) key t Hc) as [_ Hc'].
  destruct (decide (t = E)) as [->|Hne].
  - destruct (InsertOrUpdate_empty fuel key T Hr) as (h' & -> & Hl & Ho); [by rewrite Hs|].
    eexists. split; [done|]. assert (repr h' (Some (new_loc T)) (ins (new_loc T) key E)) as Hr' by by apply repr_leaf.
    assert (∀ x, x ∉ locs (ins (new_loc T) key E) → h' !! x = a_heap T !! x) as Hfr.
    { intros x [Hx _]%not_elem_of_cons. by apply Ho. }
    split; [|done]. split; [done|apply NoDup_singleton|cbn; split_and!; auto using Forall_nil_2|cbn; lia|done|by apply Hown'].
  - destruct (ins_spec key (new_loc T) _ _ t fuel Hkey Hne Hr Hb Hnd Hnew Hc Hmax Hf) as (curr & path & Hins).
    destruct (Hins PRoot []) as (par & Hfind & h' & Hfin & Hr' & Ho').
    destruct (find_loop_spec ok pos _ _ t key fuel PRoot [] Hkey Hr Hb Hf) as (par2 & curr2 & path2 & Hfind2 & Hin).
    rewrite Hfind in Hfind2. injection Hfind2 as -> -> ->. cbn in Hfind.
    eexists. split; [eapply InsertOrUpdate_finish; [exact Hfind|lia|lia|exact Hfin]|].
    split; [|done]. split; [done|by apply NoDup_locs_ins|by apply bst_ins|done| |by apply Hown'].
    cbn. rewrite keys_ins_length, Hs by done. destruct curr2 as [c|].
    + rewrite bool_decide_eq_true_2 by (apply Hin; eauto). lia.
    + rewrite bool_decide_eq_false_2 by (intros [? ?]%Hin; done). lia.
Qed.

(** ** Selection by rank *)
Lemma samples_at l k v m a b i :
  counted (N l k v m a b) → (length (samples a) ≤ i < length (samples a) + Z.to_nat v)%nat →
  samples (N l k v m a b) !! i = Some (pos k).
Proof.
  intros (Hv & _) Hi. cbn. rewrite lookup_app_r by lia. rewrite lookup_app_l by (rewrite length_replicate; lia).
  apply lookup_replicate_2. lia.
Qed.

(** One round of the loop at a node with a child. *)
Lemma rank_loop_step f h l k v m pa pb a b rank :
  h !! l = Some (mkNode k v m pa pb) → repr h pa a → repr h pb b → counted (N l k v m a b) →
  ¬ (pa = None ∧ pb = None) → 1 ≤ rank ≤ m →
  (cnt a < rank ≤ m - cnt b ∧ rank_loop (S f) h l rank = Done l) ∨
  (rank ≤ cnt a ∧ ∃ la, pa = Some la ∧ rank_loop (S f) h l rank = rank_loop f h la rank) ∨
  (m - cnt b < rank ∧ ∃ lb, pb = Some lb ∧
     rank_loop (S f) h l rank = rank_loop f h lb (rank - (m - cnt b))).
Proof.
  intros Hl Ha Hb (Hv & Hm & Hca & Hcb) Hchild Hrank. cbn [rank_loop].
  rewrite Hl. run. cbn [n_left n_right n_meta].
  assert (pa = None → cnt a = 0) as Hna by (intros ->; destruct a; [done|by destruct Ha]).
  assert (pb = None → cnt b = 0) as Hnb by (intros ->; destruct b; [done|by destruct Hb]).
  destruct pa as [la|], pb as [lb|]; try (by destruct Hchild);
    rewrite (meta_of_repr _ _ _ Ha), bind_done, (meta_of_repr _ _ _ Hb), bind_done;
    (destruct (Z.leb_spec rank (m - cnt b)); [destruct (Z.ltb_spec (cnt a) rank)|]);
    cbn [andb]; try (by left); right.
  - left. split; [lia|]. exists la. by rewrite (proj2 (Z.leb_le _ _)) by lia.
  - right. split; [lia|]. exists lb. by rewrite (proj2 (Z.leb_gt _ _)) by lia.
  - left. split; [lia|]. exists la. by rewrite (proj2 (Z.leb_le _ _)) by lia.
  - rewrite Hnb in * by done. lia.
  - rewrite Hna in * by done. lia.
  - right. split; [lia|]. by exists lb.
Qed.

Lemma rank_loop_spec fuel h l t rank :
  repr h (Some l) t → bst t → counted t → (height t ≤ S fuel)%nat → 1 ≤ rank ≤ cnt t →
  ∃ l' n, rank_loop fuel h l rank = Done l' ∧ h !! l' = Some n ∧ ok (n_key n) ∧
    samples t !! Z.to_nat (rank - 1) = Some (pos (n_key n)).
Proof.
  revert fuel l rank. induction t as [|l0 k v m a IHa b IHb]; intros fuel l rank; [done|].
  intros ([= <-] & pa & pb & Hl & Ha & Hb) (Hok & _ & _ & Hba & Hbb) Hc Hf Hrank. pose proof Hc as (Hv & Hm & Hca & Hcb).
  pose proof (cnt_length _ Hca) as Hla. pose proof (cnt_length _ Hcb) as Hlb. cbn in Hf, Hrank.
  destruct (decide (pa = None ∧ pb = None)) as [[-> ->]|Hchild].
  { destruct a; [|by destruct Ha]. destruct b; [|by destruct Hb]. exists l. eexists.
    split_and!; [|done|done|apply samples_at; [done|cbn in *; lia]].
    destruct fuel; cbn; rewrite Hl; cbn; by rewrite (proj2 (Z.leb_le _ _)) by lia. }
  destruct fuel as [|f].
  { destruct a; [|cbn in Hf; lia]. destruct b; [|cbn in Hf; lia]. by destruct Hchild. }
  destruct (rank_loop_step f h l k v m pa pb a b rank Hl Ha Hb Hc Hchild Hrank)
    as [[Hr ->]|[(Hr & la & -> & ->)|(Hr & lb & -> & ->)]].
  - exists l. eexists. split_and!; [done..|]. apply samples_at; [done|]. cbn. lia.
  - destruct (IHa f la rank Ha Hba Hca) as (l' & n & E1 & E2 & E4 & E3); [lia|lia|].
    exists l', n. split_and!; [done..|]. cbn. by rewrite lookup_app_l by lia.
  - destruct (IHb f lb (rank - (m - cnt b)) Hb Hbb Hcb) as (l' & n & E1 & E2 & E4 & E3); [lia|lia|].
    exists l', n. split_and!; [done..|]. cbn.
    rewrite lookup_app_r, lookup_app_r by (rewrite ?length_replicate; lia).
    rewrite <- E3. f_equal. rewrite length_replicate. lia.
Qed.

(** ** A stream of samples *)
Fixpoint add_samples (fuel : nat) (w : Z) (xs : list K) (T : ATree) : result ATree :=
  match xs with
  | [] => Done T
  | x :: xs' => T ← add_sample fuel w x T; add_samples fuel w xs' T
  end.

(** The samples the window holds after [xs]: a full window starts again. *)
Fixpoint window_of (w : nat) (cur xs : list K) : list K :=
  match xs with
  | [] => cur
  | x :: xs' => window_of w (if bool_decide (length cur = w) then [x] else x :: cur) xs'
  end.

Lemma height_cnt t : counted t → Z.of_nat (height t) ≤ cnt t.
Proof.
  induction t as [|l k v m a IHa b IHb]; [done|]. intros (Hv & -> & Ha & Hb). cbn.
  specialize (IHa Ha). specialize (IHb Hb). pose proof (cnt_nonneg _ Ha). pose proof (cnt_nonneg _ Hb). lia.
Qed.

Definition holds_samples (T : ATree) (cur : list K) : Prop :=
  ∃ t, window_ok T t ∧ samples t ≡ₚ (pos <$> cur).

Lemma insert_sample_spec fuel x T cur :
  ok x → holds_samples T cur → (length cur ≤ fuel)%nat → Z.of_nat (length cur) + 1 ≤ INT_MAX →
  ∃ T', InsertOrUpdate fuel SubtreeCountVisitor x 1 1 T = Done T' ∧ holds_samples T' (x :: cur).
Proof.
  intros Hx (t & Hw & Hp) Hf Hmax. pose proof (w_counted _ _ Hw) as Hc.
  pose proof (cnt_length _ Hc) as Hcl. rewrite Hp, length_fmap in Hcl. pose proof (height_cnt _ Hc).
  destruct (InsertOrUpdate_spec fuel x T t Hx Hw) as (T' & -> & Hw' & _); [lia|lia|].
  exists T'. split; [done|]. exists (ins (new_loc T) x t). split; [done|]. by rewrite samples_ins, Hp.
Qed.

Lemma holds_nothing : holds_samples ATree_new [].
Proof. exists E. split; [apply window_new|done]. Qed.

Lemma holds_clear T cur : holds_samples T cur → holds_samples (Clear T) [].
Proof. intros (t & Hw & _). exists E. split; [by eapply window_clear|done]. Qed.

(** Whatever has been sampled, the destructor frees every node once. *)
Lemma destroy_holds fuel T cur :
  holds_samples T cur → (2 * size (a_heap T) + 1 ≤ fuel)%nat → ATree_destroy fuel T = Done ∅.
Proof. intros (t & [_ _ _ _ _ (ts & Ho)] & _). by eapply destroy_owned_heap. Qed.

Lemma GetSize_spec T cur : holds_samples T cur → GetSize T = Done (Z.of_nat (length cur)).
Proof.
  intros (t & Hok & Hp). unfold GetSize. rewrite (meta_of_repr _ _ _ (w_repr _ _ Hok)).
  by rewrite (cnt_length _ (w_counted _ _ Hok)), Hp, length_fmap.
Qed.

Lemma add_sample_spec fuel w x T cur :
  ok x → holds_samples T cur → (length cur ≤ w)%nat → (1 ≤ w ≤ fuel)%nat → Z.of_nat w ≤ INT_MAX →
  ∃ T', add_sample fuel (Z.of_nat w) x T = Done T' ∧
    holds_samples T' (if bool_decide (length cur = w) then [x] else x :: cur).
Proof.
  intros Hx Hh Hlen Hf Hmax. unfold add_sample. rewrite (GetSize_spec T cur), bind_done by done.
  case_bool_decide as Hfull.
  - rewrite (proj2 (Z.eqb_eq _ _)), (proj2 (Z.eqb_neq _ _)) by lia.
    apply insert_sample_spec; [done|by eapply holds_clear|cbn; lia|unfold INT_MAX; cbn; lia].
  - rewrite (proj2 (Z.eqb_neq _ _)) by lia. apply insert_sample_spec; (done || lia).
Qed.

Lemma add_samples_spec fuel w xs T cur :
  Forall ok xs → holds_samples T cur → (length cur ≤ w)%nat → (1 ≤ w ≤ fuel)%nat → Z.of_nat w ≤ INT_MAX →
  ∃ T', add_samples fuel (Z.of_nat w) xs T = Done T' ∧ holds_samples T' (window_of w cur xs) ∧
    (length (window_of w cur xs) ≤ w)%nat.
Proof.
  intros Hxs. revert T cur. induction Hxs as [|x xs Hx _ IH]; intros T cur Hh Hlen Hw Hmax; cbn; [by eauto|].
  destruct (add_sample_spec fuel w x T cur Hx Hh Hlen Hw Hmax) as (T' & -> & Hh').
  rewrite bind_done. apply IH; [done| |done..]. case_bool_decide; cbn; lia.
Qed.

Lemma FindNth_spec fuel T cur rank :
  holds_samples T cur → (length cur ≤ fuel)%nat → 1 ≤ rank ≤ Z.of_nat (length cur) →
  ∃ x, FindNth fuel T rank = Done x ∧ ok x ∧
    merge_sort (≤) (pos <$> cur) !! Z.to_nat (rank - 1) = Some (pos x).
Proof.
  intros (t & [Hr _ Hb Hc _ _] & Hp) Hf Hrank. pose proof (cnt_length _ Hc) as Hcl.
  rewrite Hp, length_fmap in Hcl.
  assert (samples t = merge_sort (≤) (pos <$> cur)) as <-.
  { apply (StronglySorted_unique (≤)); [by apply samples_sorted|apply StronglySorted_merge_sort; apply _|].
    by rewrite merge_sort_Permutation. }
  destruct t as [|l k v m a b]; [cbn in Hcl; lia|].
  pose proof (height_cnt _ Hc). pose proof Hr as (Hroot & _). rewrite Hroot in Hr.
  destruct (rank_loop_spec fuel (a_heap T) l _ rank Hr Hb Hc) as (l' & n & E1 & E2 & E4 & E3); [lia|lia|].
  exists (n_key n). split; [|done]. unfold FindNth. rewrite Hroot, defined_Some, bind_done, E1, bind_done.
  by rewrite E2.
Qed.

Lemma counted_cases t : counted t → t = E ∨ 1 ≤ cnt t.
Proof.
  destruct t as [|l k v m a b]; [by left|]. intros (Hv & -> & Ha & Hb). right. cbn.
  pose proof (cnt_nonneg _ Ha). pose proof (cnt_nonneg _ Hb). lia.
Qed.

(** With one sample every rank that is not too large finds it. *)
Lemma FindNth_single fuel T x rank :
  holds_samples T [x] → (1 ≤ fuel)%nat → rank ≤ 1 → ∃ y, FindNth fuel T rank = Done y ∧ ok y ∧ pos y = pos x.
Proof.
  intros (t & [Hr _ Hb Hc _ _] & Hp) Hf Hrank. pose proof (cnt_length _ Hc) as Hcl.
  pose proof Hp as Hp'. apply Permutation_length in Hp'. rewrite Hp' in Hcl. cbn in Hcl.
  destruct t as [|l k v m a b]; [done|]. pose proof Hc as (Hv & Hm & Ha & Hb').
  pose proof (cnt_nonneg _ Ha). pose proof (cnt_nonneg _ Hb'). cbn in Hcl.
  destruct Hr as (Hroot & pa & pb & Hl & Hra & Hrb). destruct Hb as (Hok & _).
  destruct (counted_cases _ Ha) as [->|?]; [|lia]. destruct (counted_cases _ Hb') as [->|?]; [|lia].
  cbn in Hra, Hrb. subst pa pb.
  exists k. split; [|split; [done|]].
  - unfold FindNth. rewrite Hroot, defined_Some, bind_done. destruct fuel; [lia|]. cbn. rewrite Hl. cbn.
    rewrite (proj2 (Z.leb_le _ _)) by lia. cbn. by rewrite Hl.
  - cbn in Hp. replace v with 1 in Hp by lia. cbn in Hp. by apply Permutation_singleton_inj in Hp.
Qed.

(** The sample window is an order-statistics tree: after any samples its size is
    the number of samples in the current window, and the node found for a rank carries
    the sample of that rank in sorted order, duplicates counted. *)
Theorem percentile_is_order_statistic fuel w xs :
  Forall ok xs → (1 ≤ w ≤ fuel)%nat → Z.of_nat w ≤ INT_MAX →
  ∃ T, add_samples fuel (Z.of_nat w) xs ATree_new = Done T ∧
    GetSize T = Done (Z.of_nat (length (window_of w [] xs))) ∧
    ∀ rank, 1 ≤ rank ≤ Z.of_nat (length (window_of w [] xs)) →
      ∃ x, FindNth fuel T rank = Done x ∧
        merge_sort (≤) (pos <$> window_of w [] xs) !! Z.to_nat (rank - 1) = Some (pos x).
Proof.
  intros Hxs Hw Hmax.
  destruct (add_samples_spec fuel w xs ATree_new [] Hxs holds_nothing) as (T & HT & Hh & Hlen); [cbn; lia|done..|].
  exists T. split; [done|]. split; [by apply GetSize_spec|]. intros rank Hrank.
  destruct (FindNth_spec fuel T _ rank Hh) as (x & Hx & _ & Hs); [lia|done|by exists x].
Qed.
End ordered.
End summary.

Lemma percentile_is_order_statistic_witness :
  ∃ T, add_samples (K:=Z) 4 4 [9; 9; 9; 9; 5; 7; 5; 1] ATree_new = Done T ∧
    ∃ x, FindNth 4 T 3 = Done x ∧ merge_sort (≤) [1; 5; 7; 5] !! 2%nat = Some x.
Proof.
  destruct (percentile_is_order_statistic (λ _ : Z, True) (λ x, x) 4 4 [9; 9; 9; 9; 5; 7; 5; 1])
    as (T & HT & _ & Hr).
  - by repeat constructor.
  - lia.
  - unfold INT_MAX. lia.
  - exists T. split; [exact HT|]. apply (Hr 3). vm_compute. split; congruence.
Defined.

(** ** [Remove] *)
Definition count_tree (xs : list Z) : result (ATree Z) := add_samples 10 100 xs ATree_new.

(** [Remove] on a node with a right child links the successor to itself, after
    which a search never ends; on a node without one it drops the left subtree. *)
Theorem remove_breaks_tree :
  (∃ T, (T ← count_tree [1; 2]; Remove 10 SubtreeCountVisitor 1 T) = Done (true, T) ∧
     ∀ fuel, Find fuel 3 T = Fault FFuel) ∧
  (T ← count_tree [2; 1]; '(b, T) ← Remove 10 SubtreeCountVisitor 2 T; Find 10 1 T) = Done None.
Proof.
  split; [|by vm_compute].
  eexists. split; [vm_compute; reflexivity|].
  intros fuel. unfold Find, FindInternal. cbn [a_heap a_root].
  match goal with |- context [find_loop fuel ?h 3 _ (Some ?l) _] =>
    assert (∀ f p st, find_loop f h 3 p (Some l) st = Fault FFuel) as Hloop end.
  { induction f as [|f IH]; intros p st; [done|]. cbn. apply IH. }
  by rewrite Hloop.
Qed.
