(* ===== verification/SummaryStats.v ===== *)
(** * [Summary<T>] (metrics/summary.h): the statistics of a stream of samples

    The window of samples is the tree of [Summary.v]; around it the class keeps running
    statistics in [double]. Whenever the window is full, and whenever a percentile is asked
    for, the percentiles of the window are folded into those of the stream and the window is
    emptied. *)
From Stdlib Require Import Floats.SpecFloat.
From stdpp Require Import sorting.
From S2P Require Import Prelude Status ATree Double Summary MetricJson.
#[local] Open Scope double_scope.
#[local] Open Scope Z_scope.

(** The arithmetic type [T]: its comparisons, [double(x)] and [x * x]. *)
Class Arith (T : Type) := { arith_key :: Key T; as_double : T → double; square : T → result T }.

#[export] Instance Arith_double : Arith double :=
  {| as_double x := x; square x := Done (dmul x x) |}.
(** [size_t] *)
#[export] Instance Arith_size : Arith Z := {| as_double := of_int; square x := Done (u64 (x * x)) |}.

(** [int64_t] arithmetic. *)
Definition int64_op (x : Z) : result Z :=
  if (- 2 ^ 63 <=? x) && (x <? 2 ^ 63) then Done x else Fault FUndef.

(** The percentiles the class knows. *)
Definition P0 : double := lit 0 0.
Definition P50 : double := lit 50 0.
Definition P90 : double := lit 90 0.
Definition P95 : double := lit 95 0.
Definition P99 : double := lit 99 0.
Definition P999 : double := lit 999 1.
Definition P100 : double := lit 100 0.

Section stats.
Context {T : Type} `{Arith T}.

Record Summary := mkSummary {
  name_ : string; units_ : string; window_size_ : Z;
  samples_ : ATree T;
  initialized_ : bool;
  min_ : double; p50_ : double; p90_ : double; p95_ : double; p99_ : double; p999_ : double; max_ : double;
  total_samples_ : Z; mean_ : double; squared_total_ : double; variance_ : double }.

Definition Summary_new (id units : string) (window_size : Z) : Summary :=
  mkSummary id units window_size ATree_new false zero zero zero zero zero zero zero 0 zero zero zero.

(** The members that change together. *)
Definition set_samples (t : ATree T) (s : Summary) : Summary :=
  mkSummary (name_ s) (units_ s) (window_size_ s) t (initialized_ s)
    (min_ s) (p50_ s) (p90_ s) (p95_ s) (p99_ s) (p999_ s) (max_ s)
    (total_samples_ s) (mean_ s) (squared_total_ s) (variance_ s).
Definition set_percentiles (a b c d e f g : double) (s : Summary) : Summary :=
  mkSummary (name_ s) (units_ s) (window_size_ s) (samples_ s) true a b c d e f g
    (total_samples_ s) (mean_ s) (squared_total_ s) (variance_ s).
Definition set_moments (n : Z) (mean sq var : double) (s : Summary) : Summary :=
  mkSummary (name_ s) (units_ s) (window_size_ s) (samples_ s) (initialized_ s)
    (min_ s) (p50_ s) (p90_ s) (p95_ s) (p99_ s) (p999_ s) (max_ s) n mean sq var.

(** The rank [FindNthPercentile] looks for in a tree of the given size. *)
Definition percentile_rank (percentile : double) (size : Z) : result Z :=
  if dltb P100 percentile || dltb percentile P0 then Fault FAbort       (* exit(1) *)
  else if deqb percentile P0 then Done 1
  else to_int (percentile / P100 * of_int size)%D.

Definition FindNthPercentile (fuel : nat) (tree : ATree T) (percentile : double) : result (StatusVal T) :=
  size ← GetSize tree;
  rank ← percentile_rank percentile size;
  key ← FindNth fuel tree rank;
  Done (mkStatusVal StatusOk (Some key)).

(** [FindNthPercentile(samples_, p).val.value()->key()] *)
Definition sample_at (fuel : nat) (s : Summary) (p : double) : result double :=
  node_or ← FindNthPercentile fuel (samples_ s) p;
  key ← or_throw (sv_val node_or);
  Done (as_double key).

(** [p += (value - p) / double(total_samples_)] *)
Definition moved (s : Summary) (p value : double) : double :=
  (p + (value - p) / of_int (total_samples_ s))%D.

(** The branches of [UpdatePercentile(p)]. *)
Definition store (p value : double) (s : Summary) : result Summary :=
  let '(a, b, c, d, e, f, g) := (min_ s, p50_ s, p90_ s, p95_ s, p99_ s, p999_ s, max_ s) in
  if deqb p P0 then Done (set_percentiles (dmin a value) b c d e f g s)
  else if deqb p P50 then Done (set_percentiles a (moved s b value) c d e f g s)
  else if deqb p P90 then Done (set_percentiles a b (moved s c value) d e f g s)
  else if deqb p P95 then Done (set_percentiles a b c (moved s d value) e f g s)
  else if deqb p P99 then Done (set_percentiles a b c d (moved s e value) f g s)
  else if deqb p P999 then Done (set_percentiles a b c d e (moved s f value) g s)
  else if deqb p P100 then Done (set_percentiles a b c d e f (dmax g value) s)
  else Fault FAbort.

Definition UpdatePercentile (fuel : nat) (p : double) (s : Summary) : result Summary :=
  node_or ← FindNthPercentile fuel (samples_ s) p;
  if negb (is_ok (sv_status node_or)) then Fault FAbort else
  key ← or_throw (sv_val node_or);
  store p (as_double key) s.

(** All percentiles: taken from the first window, and moved by the later ones. *)
Definition take_all (fuel : nat) (s : Summary) : result Summary :=
  a ← sample_at fuel s P0; b ← sample_at fuel s P50; c ← sample_at fuel s P90;
  d ← sample_at fuel s P95; e ← sample_at fuel s P99; f ← sample_at fuel s P999;
  g ← sample_at fuel s P100;
  Done (set_percentiles a b c d e f g s).
Definition update_all (fuel : nat) (s : Summary) : result Summary :=
  s ← UpdatePercentile fuel P0 s; s ← UpdatePercentile fuel P50 s; s ← UpdatePercentile fuel P90 s;
  s ← UpdatePercentile fuel P95 s; s ← UpdatePercentile fuel P99 s;
  s ← UpdatePercentile fuel P999 s; UpdatePercentile fuel P100 s.

Definition UpdatePercentilesAndClearSamples (fuel : nat) (s : Summary) : result Summary :=
  size ← GetSize (samples_ s);
  if size =? 0 then Done s else
  s ← (if negb (initialized_ s) then take_all fuel s else update_all fuel s);
  Done (set_samples (Clear (samples_ s)) s).

(** [operator<<]: a full window is folded in first; then the sample is added, with the
    running mean and variance. *)
Definition add_value (fuel : nat) (value : T) (s : Summary) : result Summary :=
  t ← InsertOrUpdate fuel SubtreeCountVisitor value 1 1 (samples_ s);
  n ← int64_op (total_samples_ s + 1);
  sq ← square value;
  let delta := (as_double value - mean_ s)%D in
  let mean := (mean_ s + delta / of_int n)%D in
  let squared := (squared_total_ s + as_double sq)%D in
  let var := (squared / of_int n - mean * mean)%D in
  Done (set_moments n mean squared var (set_samples t s)).

Definition push (fuel : nat) (value : T) (s : Summary) : result Summary :=
  size ← GetSize (samples_ s);
  s ← (if size =? window_size_ s then UpdatePercentilesAndClearSamples fuel s else Done s);
  add_value fuel value s.

(** The branches of [GetPercentileInternal(p)]. *)
Definition percentile_of (p : double) (s : Summary) : result double :=
  if deqb p P0 then Done (min_ s)
  else if deqb p P50 then Done (p50_ s)
  else if deqb p P90 then Done (p90_ s)
  else if deqb p P95 then Done (p95_ s)
  else if deqb p P99 then Done (p99_ s)
  else if deqb p P999 then Done (p999_ s)
  else if deqb p P100 then Done (max_ s)
  else Fault FAbort.

Definition GetPercentileInternal (fuel : nat) (p : double) (s : Summary) : result (double * Summary) :=
  s ← UpdatePercentilesAndClearSamples fuel s;
  v ← percentile_of p s; Done (v, s).

Definition GetMin (fuel : nat) (s : Summary) := GetPercentileInternal fuel P0 s.
Definition Get50thPercentile (fuel : nat) (s : Summary) := GetPercentileInternal fuel P50 s.
Definition Get90thPercentile (fuel : nat) (s : Summary) := GetPercentileInternal fuel P90 s.
Definition Get95thPercentile (fuel : nat) (s : Summary) := GetPercentileInternal fuel P95 s.
Definition Get99thPercentile (fuel : nat) (s : Summary) := GetPercentileInternal fuel P99 s.
Definition Get999thPercentile (fuel : nat) (s : Summary) := GetPercentileInternal fuel P999 s.
Definition GetMax (fuel : nat) (s : Summary) := GetPercentileInternal fuel P100 s.
Definition GetMean (s : Summary) : double := mean_ s.
Definition GetStddev (s : Summary) : double := dsqrt (variance_ s).
Definition GetNumSamples (s : Summary) : Z := total_samples_ s.

(** [ToMetrics()] *)
Definition ToMetrics (fuel : nat) (s : Summary) : result (Metrics * Summary) :=
  s ← UpdatePercentilesAndClearSamples fuel s;
  Done (mkMetrics MetricType.Summary
          (SummaryData (mkSummaryMetric (units_ s) (mean_ s) (dsqrt (variance_ s)) (min_ s) (p50_ s)
             (p90_ s) (p95_ s) (p99_ s) (p999_ s) (max_ s) (u64 (total_samples_ s)))) (name_ s), s).

(** [x += (d.x * d.total_samples_ - x * total_samples_) / double(total_samples_ + d.total_samples_)] *)
Definition weighted (x y : double) (m n sum : Z) : double :=
  (x + (y * of_int n - x * of_int m) / of_int sum)%D.

(** [Accumulate(other)]. The local copy [d] shares the nodes of [other]'s tree, and its
    destructor deletes them: [other] is returned with the heap it is left with. *)
Definition Accumulate (fuel : nat) (s : Summary) (other : StatusVal Summary)
    : result (Status * Summary * StatusVal Summary) :=
  if negb (is_ok (sv_status other)) then Done (sv_status other, s, other) else
  d ← or_throw (sv_val other);
  h ← ATree_destroy fuel (samples_ d);
  let t := samples_ d in
  let other' := mkStatusVal (sv_status other)
                  (Some (set_samples (mkATree h (a_root t) (size_ t) (cleared_ t)) d)) in
  if negb (bool_decide (name_ d = name_ s)) then
    Done (mkStatus FailedPrecondition (Some "Unexpected metric ID"%string), s, other')
  else
    s ← UpdatePercentilesAndClearSamples fuel s;
    let '(m, n) := (total_samples_ s, total_samples_ d) in
    sum ← int64_op (m + n);
    let w x y := weighted x y m n sum in
    Done (StatusOk,
      mkSummary (name_ s) (units_ s) (window_size_ s) (samples_ s) (initialized_ s)
        (w (min_ s) (min_ d)) (w (p50_ s) (p50_ d)) (w (p90_ s) (p90_ d)) (w (p95_ s) (p95_ d))
        (w (p99_ s) (p99_ d)) (w (p999_ s) (p999_ d)) (w (max_ s) (max_ d))
        m (w (mean_ s) (mean_ d)) (squared_total_ s) (w (variance_ s) (variance_ d)), other').

(** A stream of samples. *)
Fixpoint pushes (fuel : nat) (xs : list T) (s : Summary) : result Summary :=
  match xs with [] => Done s | x :: xs' => s ← push fuel x s; pushes fuel xs' s end.
End stats.
Arguments Summary : clear implicits.

(** ** Ranks *)
(** The percentiles and the rank each has among [n] samples. *)
Definition percentiles : list (double * (Z → Z)) :=
  [(P0, λ _, 1); (P50, λ n, 50 * n / 100); (P90, λ n, 90 * n / 100); (P95, λ n, 95 * n / 100);
   (P99, λ n, 99 * n / 100); (P999, λ n, 999 * n / 1000); (P100, λ n, n)].

Lemma ranks_checked :
  forallb (λ pf : double * (Z → Z), forallb (λ n, bool_decide (percentile_rank pf.1 n = Done (pf.2 n))) (seqZ 1 1000))
    percentiles = true.
Proof. vm_compute. reflexivity. Qed.

(** For windows of up to a thousand samples the product of doubles, cut off, is the rank:
    no rounding error shows. *)
Lemma percentile_rank_spec p f n :
  (p, f) ∈ percentiles → 1 ≤ n ≤ 1000 → percentile_rank p n = Done (f n).
Proof.
  intros Hp Hn. pose proof ranks_checked as Hr. rewrite forallb_forall in Hr.
  specialize (Hr (p, f) (proj1 (list_elem_of_In _ _) Hp)). rewrite forallb_forall in Hr.
  assert (n ∈ seqZ 1 1000) as Hin by (apply elem_of_seqZ; lia).
  specialize (Hr n (proj1 (list_elem_of_In _ _) Hin)). by apply bool_decide_eq_true_1 in Hr.
Qed.

Lemma percentiles_cases p f (Q : double → (Z → Z) → Prop) :
  (p, f) ∈ percentiles → Forall (λ pf, Q pf.1 pf.2) percentiles → Q p f.
Proof. intros Hp HQ. rewrite Forall_forall in HQ. apply (HQ (p, f) Hp). Qed.

Lemma rank_bounds p f n : (p, f) ∈ percentiles → 2 ≤ n → 1 ≤ f n ≤ n.
Proof.
  intros Hp Hn. apply (percentiles_cases p f (λ _ f, 1 ≤ f n ≤ n) Hp).
  repeat constructor; cbn; try lia; Z.to_euclidean_division_equations; lia.
Qed.

Lemma rank_one p f : (p, f) ∈ percentiles → f 1 ≤ 1.
Proof.
  intros Hp. apply (percentiles_cases p f (λ _ f, f 1 ≤ 1) Hp). repeat constructor; vm_compute; congruence.
Qed.

(** ** What the statistics are *)
(** What the code relies on of [T]: on the samples it is given, [double(x)] keeps the order
    and [x * x] does not overflow. *)
Class ArithLaws (T : Type) `{Arith T} (ok : T → Prop) (pos : T → Z) : Prop := {
  arith_keys :: KeyLaws T ok pos;
  square_done x : ok x → ∃ y, square x = Done y;
  as_double_num x : ok x → num (as_double x);
  as_double_mono x y : ok x → ok y → pos x ≤ pos y → dpos (as_double x) ≤ dpos (as_double y) }.

#[export] Instance ArithLaws_double : ArithLaws double num dpos.
Proof. split; [apply _|by eexists|done|done]. Qed.

(** Ends of a sorted list. *)
Lemma sorted_first (l : list Z) i x y :
  StronglySorted (≤) l → l !! i = Some x → y ∈ drop i l → x ≤ y.
Proof.
  intros Hs Hi. rewrite (drop_S _ _ _ Hi). intros [->|Hy]%elem_of_cons; [done|].
  rewrite <- (take_drop (S i) l) in Hs. eapply StronglySorted_app_1_elem_of; [exact Hs| |exact Hy].
  rewrite (take_S_r _ _ _ Hi). apply elem_of_app. right. apply list_elem_of_here.
Qed.

Lemma sorted_last (l : list Z) i x y :
  StronglySorted (≤) l → l !! i = Some x → y ∈ take (S i) l → y ≤ x.
Proof.
  intros Hs Hi. rewrite (take_S_r _ _ _ Hi). intros [Hy| ->%list_elem_of_singleton]%elem_of_app; [|done].
  rewrite <- (take_drop i l) in Hs. eapply StronglySorted_app_1_elem_of; [exact Hs|exact Hy|].
  rewrite (drop_S _ _ _ Hi). apply list_elem_of_here.
Qed.

Section laws.
Context {T : Type} `{Arith T} (ok : T → Prop) (pos : T → Z) `{!ArithLaws T ok pos}.
Abbreviation holds := (holds_samples ok pos).
Implicit Types s : Summary T.

(** [x] is the sample of rank [f (length cur)], or the only one. *)
Definition of_rank (f : Z → Z) (cur : list T) (x : T) : Prop :=
  ok x ∧ merge_sort (≤) (pos <$> cur) !! Z.to_nat (Z.max 1 (f (Z.of_nat (length cur))) - 1) = Some (pos x).

Lemma FindNthPercentile_spec fuel t cur p f :
  holds t cur → (1 ≤ length cur ≤ 1000)%nat → (length cur ≤ fuel)%nat → (p, f) ∈ percentiles →
  ∃ x, FindNthPercentile fuel t p = Done (mkStatusVal StatusOk (Some x)) ∧ of_rank f cur x.
Proof.
  intros Ht Hlen Hf Hp. unfold FindNthPercentile, of_rank. rewrite (GetSize_spec ok pos t cur Ht), bind_done.
  rewrite (percentile_rank_spec p f) by (done || lia). rewrite bind_done.
  destruct (decide (length cur = 1%nat)) as [Hone|Hmany].
  - destruct cur as [|y [|? ?]]; try done. pose proof (rank_one p f Hp).
    destruct (FindNth_single ok pos fuel t y (f (Z.of_nat (length [y]))) Ht) as (x & -> & Hx & Hpos); [cbn in *; lia|done|].
    exists x. split; [done|]. split; [done|]. rewrite Z.max_l by done. cbn. by rewrite Hpos.
  - pose proof (rank_bounds p f (Z.of_nat (length cur)) Hp).
    destruct (FindNth_spec ok pos fuel t cur (f (Z.of_nat (length cur))) Ht Hf) as (x & -> & Hx & Hs); [lia|].
    exists x. split; [done|]. split; [done|]. by rewrite Z.max_r by lia.
Qed.

(** The smallest and the largest of the values of some samples. *)
Definition val (x : T) : Z := dpos (as_double x).
Definition lowest (m : Z) (l : list T) : Prop := m ∈ (val <$> l) ∧ Forall (λ x, m ≤ val x) l.
Definition highest (m : Z) (l : list T) : Prop := m ∈ (val <$> l) ∧ Forall (λ x, val x ≤ m) l.

Lemma val_mono x y : ok x → ok y → pos x ≤ pos y → val x ≤ val y.
Proof. apply as_double_mono. Qed.

Lemma of_rank_member f cur x : Forall ok cur → of_rank f cur x → val x ∈ (val <$> cur).
Proof.
  intros Hok [Hx Hs%list_elem_of_lookup_2]. rewrite merge_sort_Permutation in Hs.
  apply list_elem_of_fmap in Hs as (y & Hxy & Hy). rewrite Forall_forall in Hok. specialize (Hok y Hy).
  apply list_elem_of_fmap. exists y. split; [|done]. apply Z.le_antisymm; apply val_mono; (done || lia).
Qed.

Lemma first_lowest cur x : Forall ok cur → of_rank (λ _, 1) cur x → lowest (val x) cur.
Proof.
  intros Hok Hr. split; [by eapply of_rank_member|]. destruct Hr as [Hx Hs].
  rewrite Forall_forall in Hok |- *. intros y Hy. apply val_mono; [done|by apply Hok|].
  eapply sorted_first; [apply (StronglySorted_merge_sort (≤))|exact Hs|]. cbn.
  rewrite drop_0, merge_sort_Permutation. by apply list_elem_of_fmap_2.
Qed.

Lemma last_highest cur x : cur ≠ [] → Forall ok cur → of_rank (λ n, n) cur x → highest (val x) cur.
Proof.
  intros Hne Hok Hr. split; [by eapply of_rank_member|]. destruct Hr as [Hx Hs].
  rewrite Forall_forall in Hok |- *. intros y Hy. apply val_mono; [by apply Hok|done|].
  eapply sorted_last; [apply (StronglySorted_merge_sort (≤))|exact Hs|].
  rewrite take_ge.
  - rewrite merge_sort_Permutation. by apply list_elem_of_fmap_2.
  - rewrite (Permutation_length (merge_sort_Permutation _ _)), length_fmap. destruct cur; [done|]. cbn. lia.
Qed.

Lemma lowest_app a b l1 l2 : lowest a l1 → lowest b l2 → lowest (Z.min a b) (l1 ++ l2).
Proof.
  intros [Ha Hla] [Hb Hlb]. split.
  - rewrite fmap_app, elem_of_app. destruct (Z.min_spec a b) as [[_ ->]|[_ ->]]; tauto.
  - apply Forall_app. split; eapply Forall_impl; eauto; cbn; lia.
Qed.

Lemma highest_app a b l1 l2 : highest a l1 → highest b l2 → highest (Z.max a b) (l1 ++ l2).
Proof.
  intros [Ha Hla] [Hb Hlb]. split.
  - rewrite fmap_app, elem_of_app. destruct (Z.max_spec a b) as [[_ ->]|[_ ->]]; tauto.
  - apply Forall_app. split; eapply Forall_impl; eauto; cbn; lia.
Qed.

(** ** Emptying the window *)
Lemma sample_at_spec fuel s cur p f :
  holds (samples_ s) cur → (1 ≤ length cur ≤ 1000)%nat → (length cur ≤ fuel)%nat → (p, f) ∈ percentiles →
  ∃ x, sample_at fuel s p = Done (as_double x) ∧ of_rank f cur x.
Proof.
  intros Hs Hlen Hf Hp. destruct (FindNthPercentile_spec fuel _ cur p f Hs Hlen Hf Hp) as (x & Hx & Hr).
  exists x. unfold sample_at. by rewrite Hx.
Qed.

Lemma UpdatePercentile_spec fuel s cur p f :
  holds (samples_ s) cur → (1 ≤ length cur ≤ 1000)%nat → (length cur ≤ fuel)%nat → (p, f) ∈ percentiles →
  ∃ x, UpdatePercentile fuel p s = store p (as_double x) s ∧ of_rank f cur x.
Proof.
  intros Hs Hlen Hf Hp. destruct (FindNthPercentile_spec fuel _ cur p f Hs Hlen Hf Hp) as (x & Hx & Hr).
  exists x. unfold UpdatePercentile. by rewrite Hx.
Qed.

(** What an update of one percentile leaves of the rest; only the extremes matter here. *)
Definition kept (lo hi : double) s s' : Prop :=
  min_ s' = lo ∧ max_ s' = hi ∧ samples_ s' = samples_ s ∧ initialized_ s' = true ∧
  total_samples_ s' = total_samples_ s ∧ window_size_ s' = window_size_ s ∧
  name_ s' = name_ s ∧ units_ s' = units_ s.

Lemma kept_trans lo hi lo' hi' s s1 s2 : kept lo hi s s1 → kept lo' hi' s1 s2 → kept lo' hi' s s2.
Proof. unfold kept. intros. destruct_and!. split_and!; congruence. Qed.

Lemma store_P0 v s : ∃ s', store P0 v s = Done s' ∧ kept (dmin (min_ s) v) (max_ s) s s'.
Proof. by eexists. Qed.
Lemma store_P100 v s : ∃ s', store P100 v s = Done s' ∧ kept (min_ s) (dmax (max_ s) v) s s'.
Proof. by eexists. Qed.

Lemma store_inner p v s : p ∈ [P50; P90; P95; P99; P999] →
  ∃ s', store p v s = Done s' ∧ kept (min_ s) (max_ s) s s'.
Proof.
  intros Hp. repeat (apply elem_of_cons in Hp as [->|Hp]; [by eexists|]). by apply elem_of_nil in Hp.
Qed.

Lemma UpdatePercentile_inner fuel s cur p :
  p ∈ [P50; P90; P95; P99; P999] →
  holds (samples_ s) cur → (1 ≤ length cur ≤ 1000)%nat → (length cur ≤ fuel)%nat →
  ∃ s', UpdatePercentile fuel p s = Done s' ∧ kept (min_ s) (max_ s) s s'.
Proof.
  intros Hin Hs Hlen Hf.
  assert (∃ f, (p, f) ∈ percentiles) as [f Hp].
  { repeat (apply elem_of_cons in Hin as [->|Hin]; [eexists; unfold percentiles;
      repeat first [apply list_elem_of_here|apply list_elem_of_further]|]). by apply elem_of_nil in Hin. }
  destruct (UpdatePercentile_spec fuel s cur p f Hs Hlen Hf Hp) as (x & -> & _). by apply store_inner.
Qed.

Lemma update_all_spec fuel s cur :
  holds (samples_ s) cur → (1 ≤ length cur ≤ 1000)%nat → (length cur ≤ fuel)%nat →
  ∃ s' x y, update_all fuel s = Done s' ∧ of_rank (λ _, 1) cur x ∧ of_rank (λ n, n) cur y ∧
    kept (dmin (min_ s) (as_double x)) (dmax (max_ s) (as_double y)) s s'.
Proof.
  intros Hs Hlen Hf. unfold update_all.
  destruct (UpdatePercentile_spec fuel s cur P0 (λ _, 1) Hs Hlen Hf) as (x & -> & Hx).
  { apply list_elem_of_here. }
  destruct (store_P0 (as_double x) s) as (s1 & -> & K). rewrite bind_done.
  do 5 match goal with K : kept _ _ s ?s1 |- context [UpdatePercentile fuel ?p ?s1] =>
    let s2 := fresh "s" in let K2 := fresh "K" in
    destruct (UpdatePercentile_inner fuel s1 cur p) as (s2 & -> & K2);
    [repeat first [apply list_elem_of_here|apply list_elem_of_further]
    |destruct K as (_ & _ & -> & _); exact Hs|exact Hlen|exact Hf|];
    rewrite bind_done; apply (kept_trans _ _ _ _ _ _ _ K) in K2; destruct K as (Kmin & Kmax & _);
    rewrite ?Kmin, ?Kmax in K2; clear Kmin Kmax
  end.
  destruct (UpdatePercentile_spec fuel s5 cur P100 (λ n, n)) as (y & -> & Hy);
    [by destruct K0 as (_ & _ & -> & _)|done|done
    |repeat first [apply list_elem_of_here|apply list_elem_of_further]|].
  destruct (store_P100 (as_double y) s5) as (s6 & -> & K6). pose proof (kept_trans _ _ _ _ _ _ _ K0 K6) as K.
  destruct K0 as (Kmin & Kmax & _). rewrite Kmin, Kmax in K. eauto 10.
Qed.

Lemma percentile_P0 s : percentile_of P0 s = Done (min_ s).
Proof. exact eq_refl. Qed.
Lemma percentile_P100 s : percentile_of P100 s = Done (max_ s).
Proof. exact eq_refl. Qed.

(** The first window. *)
Lemma take_all_spec fuel s cur :
  holds (samples_ s) cur → (1 ≤ length cur ≤ 1000)%nat → (length cur ≤ fuel)%nat →
  ∃ s', take_all fuel s = Done s' ∧ samples_ s' = samples_ s ∧ initialized_ s' = true ∧
    total_samples_ s' = total_samples_ s ∧ window_size_ s' = window_size_ s ∧
    name_ s' = name_ s ∧ units_ s' = units_ s ∧
    (∀ p f, (p, f) ∈ percentiles → ∃ x, of_rank f cur x ∧ percentile_of p s' = Done (as_double x)).
Proof.
  intros Hs Hlen Hf.
  assert (Forall (λ pf, ∃ x, sample_at fuel s pf.1 = Done (as_double x) ∧ of_rank pf.2 cur x) percentiles) as Hat.
  { apply Forall_forall. intros [p f]. by apply sample_at_spec. }
  unfold percentiles in Hat. rewrite !Forall_cons in Hat. cbn [fst snd] in Hat.
  destruct Hat as ((x0 & E0 & R0) & (x1 & E1 & R1) & (x2 & E2 & R2) & (x3 & E3 & R3) & (x4 & E4 & R4) &
    (x5 & E5 & R5) & (x6 & E6 & R6) & _).
  unfold take_all. rewrite E0, E1, E2, E3, E4, E5, E6. run. eexists. do 7 (split; [done|]).
  intros p f Hp. eapply (percentiles_cases p f (λ p f, ∃ x, of_rank f cur x ∧ percentile_of p _ = Done (as_double x)) Hp).
  unfold percentiles. rewrite !Forall_cons. cbn [fst snd].
  split; [exists x0; exact (conj R0 eq_refl)|]. split; [exists x1; exact (conj R1 eq_refl)|].
  split; [exists x2; exact (conj R2 eq_refl)|]. split; [exists x3; exact (conj R3 eq_refl)|].
  split; [exists x4; exact (conj R4 eq_refl)|]. split; [exists x5; exact (conj R5 eq_refl)|].
  split; [exists x6; exact (conj R6 eq_refl)|]. by apply Forall_nil_2.
Qed.

(** ** The state after a stream *)
(** [old] are the samples whose window is over, [cur] those in the tree. *)
Record stats_ok (w : nat) s (old cur : list T) : Prop := {
  so_holds : holds (samples_ s) cur;
  so_ok : Forall ok (old ++ cur);
  so_len : (length cur ≤ w)%nat;
  so_window : window_size_ s = Z.of_nat w;
  so_total : total_samples_ s = Z.of_nat (length (old ++ cur));
  so_ext : if initialized_ s
           then num (min_ s) ∧ num (max_ s) ∧ lowest (dpos (min_ s)) old ∧ highest (dpos (max_ s)) old
           else old = [] }.

Lemma flush_spec w fuel s old cur :
  stats_ok w s old cur → (w ≤ 1000)%nat → (w ≤ fuel)%nat →
  ∃ s', UpdatePercentilesAndClearSamples fuel s = Done s' ∧ stats_ok w s' (old ++ cur) [] ∧
    name_ s' = name_ s ∧ units_ s' = units_ s ∧
    (cur ≠ [] → initialized_ s = false →
     ∀ p f, (p, f) ∈ percentiles → ∃ x, of_rank f cur x ∧ percentile_of p s' = Done (as_double x)).
Proof.
  intros [Hh Hok Hlen Hw Ht He] Hw1 Hf. unfold UpdatePercentilesAndClearSamples.
  rewrite (GetSize_spec ok pos _ _ Hh), bind_done.
  destruct cur as [|c0 cur']; [|set (cur := c0 :: cur') in *].
  { cbn. eexists. rewrite app_nil_r. split; [done|]. by split. }
  assert (1 ≤ length cur ≤ 1000)%nat as Hl by (cbn; cbn in Hlen; lia).
  rewrite (proj2 (Z.eqb_neq _ _)) by lia. apply Forall_app in Hok as [Hok1 Hok2].
  destruct (initialized_ s) eqn:Ei; cbn [negb].
  - destruct (update_all_spec fuel s cur Hh Hl) as (s' & x & y & -> & Hx & Hy & Hmin & Hmax & Hs & Hi & Htot & Hwin & Hn & Hu);
      [lia|]. rewrite bind_done. eexists. split; [done|]. split; [|done]. destruct He as (N1 & N2 & Lo & Hi').
    pose proof (as_double_num _ (proj1 Hx)) as Nx. pose proof (as_double_num _ (proj1 Hy)) as Ny.
    destruct (num_dmin _ _ N1 Nx) as [M1 M2], (num_dmax _ _ N2 Ny) as [M3 M4].
    split; cbn; rewrite ?app_nil_r, ?Hs, ?Hi, ?Hmin, ?Hmax, ?Htot, ?Hwin, ?M2, ?M4; try done.
    + by eapply holds_clear.
    + by apply Forall_app.
    + lia.
    + split_and!; [done..| |]; [apply lowest_app|apply highest_app]; try done;
        [by apply first_lowest|by apply last_highest].
  - destruct (take_all_spec fuel s cur Hh Hl) as (s' & -> & Hs & Hi & Htot & Hwin & Hn & Hu & Hp); [lia|].
    rewrite bind_done. eexists. split; [done|]. subst old. split; [|by split_and!].
    destruct (Hp P0 (λ _, 1)) as (x & Hx & Ex); [apply list_elem_of_here|].
    destruct (Hp P100 (λ n, n)) as (y & Hy & Ey);
      [repeat first [apply list_elem_of_here|apply list_elem_of_further]|].
    rewrite percentile_P0 in Ex. rewrite percentile_P100 in Ey. injection Ex as Ex. injection Ey as Ey.
    split; cbn; rewrite ?app_nil_r, ?Hs, ?Hi, ?Htot, ?Hwin; try done.
    + by eapply holds_clear.
    + lia.
    + rewrite Ex, Ey. split_and!; [apply as_double_num, Hx|apply as_double_num, Hy| |];
        [by apply first_lowest|by apply last_highest].
Qed.

Lemma add_value_spec w fuel s old cur x :
  stats_ok w s old cur → (length cur < w)%nat → ok x → (w ≤ 1000)%nat → (w ≤ fuel)%nat →
  total_samples_ s + 1 < 2 ^ 63 →
  ∃ s', add_value fuel x s = Done s' ∧ stats_ok w s' old (x :: cur) ∧ initialized_ s' = initialized_ s ∧
    name_ s' = name_ s ∧ units_ s' = units_ s.
Proof.
  intros [Hh Hok Hlen Hwin Ht He] Hlt Hx Hw Hf Htot. unfold add_value.
  destruct (insert_sample_spec ok pos fuel x _ _ Hx Hh) as (t & -> & Hh'); [lia|unfold INT_MAX; lia|].
  assert (int64_op (total_samples_ s + 1) = Done (total_samples_ s + 1)) as ->.
  { unfold int64_op. rewrite (proj2 (Z.leb_le _ _)), (proj2 (Z.ltb_lt _ _)) by lia. done. }
  destruct (square_done x Hx) as [sq Hsq]. run. rewrite Hsq. run. eexists. split; [done|].
  apply Forall_app in Hok as [Ho1 Ho2]. split; [|done]. split; cbn; try done.
  - apply Forall_app. split; [done|]. by constructor.
  - rewrite Ht, !length_app. cbn. lia.
Qed.

(** [operator<<]: the sample joins the window, or starts the next one. *)
Lemma push_spec w fuel s old cur x :
  stats_ok w s old cur → ok x → (1 ≤ w ≤ 1000)%nat → (w ≤ fuel)%nat → total_samples_ s + 1 < 2 ^ 63 →
  ∃ s', push fuel x s = Done s' ∧ name_ s' = name_ s ∧ units_ s' = units_ s ∧
    if bool_decide (length cur = w) then stats_ok w s' (old ++ cur) [x]
    else stats_ok w s' old (x :: cur) ∧ initialized_ s' = initialized_ s.
Proof.
  intros Hs Hx Hw Hf Htot. pose proof Hs as [Hh _ Hlen Hwin Ht _].
  unfold push. rewrite (GetSize_spec ok pos _ _ Hh), bind_done, Hwin. case_bool_decide as Hfull.
  - rewrite (proj2 (Z.eqb_eq _ _)) by lia.
    destruct (flush_spec w fuel s old cur Hs) as (s1 & -> & Hs1 & Hn & Hu & _); [lia|done|]. rewrite bind_done.
    pose proof (so_total _ _ _ _ Hs1) as Ht1. rewrite app_nil_r, <- Ht in Ht1.
    destruct (add_value_spec w fuel s1 (old ++ cur) [] x Hs1) as (s' & Hs' & Hok' & _ & Hn' & Hu');
      [cbn; lia|done|lia|done|lia|]. exists s'. split_and!; congruence || done.
  - rewrite (proj2 (Z.eqb_neq _ _)) by lia. rewrite bind_done.
    destruct (add_value_spec w fuel s old cur x Hs) as (s' & Hs' & Hok' & Hi & Hn & Hu); [lia|done|lia|done|lia|].
    by exists s'.
Qed.

Lemma stats_new w id un : stats_ok w (Summary_new id un (Z.of_nat w)) [] [].
Proof. split; cbn; try done; [apply holds_nothing|lia]. Qed.

(** A stream that stays in one window. *)
Lemma pushes_window w fuel xs s cur :
  stats_ok w s [] cur → initialized_ s = false → Forall ok xs → (length cur + length xs ≤ w)%nat →
  (1 ≤ w ≤ 1000)%nat → (w ≤ fuel)%nat →
  ∃ s', pushes fuel xs s = Done s' ∧ stats_ok w s' [] (reverse xs ++ cur) ∧ initialized_ s' = false ∧
    name_ s' = name_ s ∧ units_ s' = units_ s.
Proof.
  intros Hs Hi Hxs. revert s cur Hs Hi. induction Hxs as [|x xs Hx _ IH]; intros s cur Hs Hi Hlen Hw Hf.
  { by exists s. }
  cbn in Hlen. cbn [pushes]. pose proof (so_total _ _ _ _ Hs) as Ht. cbn in Ht.
  destruct (push_spec w fuel s [] cur x Hs Hx Hw Hf) as (s1 & -> & Hn & Hu & Hcase); [lia|].
  rewrite bind_done. rewrite bool_decide_eq_false_2 in Hcase by lia. destruct Hcase as [Hs1 Hi1].
  destruct (IH s1 (x :: cur) Hs1) as (s' & -> & Hs' & Hi' & Hn' & Hu'); [congruence|cbn; lia|done|done|].
  exists s'. rewrite reverse_cons, <- app_assoc. split_and!; congruence || done.
Qed.

(** Any stream. *)
Lemma pushes_spec w fuel xs s old cur :
  stats_ok w s old cur → Forall ok xs → (1 ≤ w ≤ 1000)%nat → (w ≤ fuel)%nat →
  total_samples_ s + Z.of_nat (length xs) < 2 ^ 63 →
  ∃ s' old' cur', pushes fuel xs s = Done s' ∧ stats_ok w s' old' cur' ∧
    old' ++ cur' ≡ₚ xs ++ old ++ cur ∧ name_ s' = name_ s ∧ units_ s' = units_ s.
Proof.
  intros Hs Hxs. revert s old cur Hs. induction Hxs as [|x xs Hx _ IH]; intros s old cur Hs Hw Hf Hmax.
  { by exists s, old, cur. }
  cbn [length] in Hmax. cbn [pushes].
  destruct (push_spec w fuel s old cur x Hs Hx Hw Hf) as (s1 & -> & Hn & Hu & Hcase); [lia|]. rewrite bind_done.
  pose proof (so_total _ _ _ _ Hs) as Ht.
  assert (∃ old1 cur1, stats_ok w s1 old1 cur1 ∧ old1 ++ cur1 ≡ₚ x :: old ++ cur) as (old1 & cur1 & Hs1 & Hp).
  { case_bool_decide; [|destruct Hcase as [Hcase _]]; do 2 eexists; (split; [exact Hcase|]).
    - by rewrite <- Permutation_cons_append.
    - by rewrite <- Permutation_middle. }
  pose proof (so_total _ _ _ _ Hs1) as Ht1. rewrite Hp in Ht1. cbn [length] in Ht1.
  destruct (IH s1 old1 cur1 Hs1 Hw Hf) as (s' & old' & cur' & -> & Hs' & Hp' & Hn' & Hu'); [lia|].
  exists s', old', cur'. do 2 (split; [done|]). split; [|split; congruence].
  rewrite Hp', Hp. by rewrite <- Permutation_middle.
Qed.

Lemma of_rank_perm f cur cur' x : cur ≡ₚ cur' → of_rank f cur x → of_rank f cur' x.
Proof.
  intros Hp [Hx Hr]. split; [done|]. rewrite <- (Permutation_length Hp).
  rewrite (StronglySorted_unique (≤) (merge_sort (≤) (pos <$> cur')) (merge_sort (≤) (pos <$> cur))); [done| | |];
    [apply StronglySorted_merge_sort; apply _..|]. by rewrite !merge_sort_Permutation, Hp.
Qed.

(** A report can always be made, its members have the types of the record, and its extremes
    are exact however many windows the stream spans. *)
Lemma report_done w fuel id un xs :
  Forall ok xs → (1 ≤ w ≤ 1000)%nat → (w ≤ fuel)%nat → Z.of_nat (length xs) < 2 ^ 63 →
  ∃ s m s', pushes fuel xs (Summary_new id un (Z.of_nat w)) = Done s ∧
    ToMetrics fuel s = Done (mkMetrics MetricType.Summary (SummaryData m) id, s') ∧
    units m = un ∧ count m = Z.of_nat (length xs) ∧ total_samples_ s' = count m ∧
    (xs ≠ [] → lowest (dpos (min m)) xs ∧ highest (dpos (max m)) xs).
Proof.
  intros Hok Hw Hf Hmax.
  destruct (pushes_spec w fuel xs _ [] [] (stats_new w id un) Hok Hw Hf) as (s & old & cur & Hs & Hst & Hp & Hn & Hu);
    [cbn; lia|]. rewrite app_nil_r in Hp.
  destruct (flush_spec w fuel s old cur Hst) as (s' & Hs' & Hok' & Hn' & Hu' & _); [lia|done|].
  exists s. eexists _, s'. unfold ToMetrics. rewrite Hs'. run. split; [done|]. split; [by rewrite Hn', Hn|].
  cbn [units count min max]. split; [by rewrite Hu', Hu|].
  pose proof (so_ext _ _ _ _ Hok') as He.
  rewrite (so_total _ _ _ _ Hok'), app_nil_r, Hp. unfold u64. rewrite Z.mod_small by lia. split; [done|]. split; [done|].
  intros Hne. destruct (initialized_ s'); [|rewrite He in Hp; by apply Permutation_nil_l in Hp].
  destruct He as (_ & _ & [Hlo1 Hlo2] & [Hhi1 Hhi2]). rewrite Hp in Hlo1, Hlo2, Hhi1, Hhi2. by split; split.
Qed.

(** The report of a stream that fits in one window. *)
Lemma window_report w fuel id un xs :
  Forall ok xs → (1 ≤ length xs ≤ w)%nat → (w ≤ 1000)%nat → (w ≤ fuel)%nat →
  ∃ s m s', pushes fuel xs (Summary_new id un (Z.of_nat w)) = Done s ∧
    ToMetrics fuel s = Done (mkMetrics MetricType.Summary (SummaryData m) id, s') ∧
    units m = un ∧ count m = Z.of_nat (length xs) ∧
    Forall2 (λ pf v, ∃ x, of_rank pf.2 xs x ∧ v = as_double x) percentiles
      [min m; p50 m; p90 m; p95 m; p99 m; p999 m; max m].
Proof.
  intros Hok Hlen Hw Hf.
  destruct (pushes_window w fuel xs _ [] (stats_new w id un)) as (s & Hs & Hok1 & Hi & Hn & Hu);
    [done|done|cbn; lia|lia|done|]. rewrite app_nil_r in Hok1.
  destruct (flush_spec w fuel s _ _ Hok1) as (s' & Hs' & Hok' & Hn' & Hu' & Hp); [done|done|].
  assert (reverse xs ≠ []) as Hne.
  { intros E. apply (f_equal length) in E. rewrite length_reverse in E. cbn in E. lia. }
  specialize (Hp Hne Hi). exists s. eexists _, s'. unfold ToMetrics. rewrite Hs'. run.
  split; [done|]. split; [by rewrite Hn', Hn|]. cbn [units count min p50 p90 p95 p99 p999 max].
  split; [by rewrite Hu', Hu|]. split.
  { rewrite (so_total _ _ _ _ Hok'), !length_app, length_reverse. cbn. unfold u64. rewrite Z.mod_small by lia. lia. }
  assert (∀ p f v, (p, f) ∈ percentiles → percentile_of p s' = Done v → ∃ x, of_rank f xs x ∧ v = as_double x) as Hv.
  { intros p f v Hin Hv. destruct (Hp p f Hin) as (x & Hx & Hv'). exists x. split; [|congruence].
    eapply of_rank_perm; [|exact Hx]. apply reverse_Permutation. }
  unfold percentiles in Hv |- *.
  repeat (apply Forall2_cons; split; [eapply Hv; [repeat first [apply list_elem_of_here|apply list_elem_of_further]
    |reflexivity]|]). by apply Forall2_nil.
Qed.

(** C17: the report of a stream that fits in one window of at most a thousand samples:
    each percentile in it is the sample of that rank in sorted order, duplicates counted,
    the rank being the percentage of the number of samples, rounded down, and at least one;
    the number of samples, the units and the name are right. *)
Theorem report_is_order_statistics w fuel id un xs :
  Forall ok xs → (1 ≤ length xs ≤ w)%nat → (w ≤ 1000)%nat → (w ≤ fuel)%nat →
  ∃ s m s', pushes fuel xs (Summary_new id un (Z.of_nat w)) = Done s ∧
    ToMetrics fuel s = Done (mkMetrics MetricType.Summary (SummaryData m) id, s') ∧
    units m = un ∧ count m = Z.of_nat (length xs) ∧
    Forall2 (λ pf v, ∃ x, of_rank pf.2 xs x ∧ v = as_double x) percentiles
      [min m; p50 m; p90 m; p95 m; p99 m; p999 m; max m].
Proof. apply window_report. Qed.

(** What a report says of any stream, and of one that fits in a window. *)
Definition reports (w : nat) (un : string) (xs : list T) (m : SummaryMetric) : Prop :=
  units m = un ∧ count m = Z.of_nat (length xs) ∧
  (xs ≠ [] → lowest (dpos (min m)) xs ∧ highest (dpos (max m)) xs) ∧
  ((1 ≤ length xs ≤ w)%nat → Forall2 (λ pf v, ∃ x, of_rank pf.2 xs x ∧ v = as_double x) percentiles
    [min m; p50 m; p90 m; p95 m; p99 m; p999 m; max m]).

Lemma full_report w fuel id un xs :
  Forall ok xs → (1 ≤ w ≤ 1000)%nat → (w ≤ fuel)%nat → Z.of_nat (length xs) < 2 ^ 63 →
  ∃ s m s', pushes fuel xs (Summary_new id un (Z.of_nat w)) = Done s ∧
    ToMetrics fuel s = Done (mkMetrics MetricType.Summary (SummaryData m) id, s') ∧
    total_samples_ s' = count m ∧ reports w un xs m.
Proof.
  intros Hok Hw Hf Hmax. destruct (report_done w fuel id un xs Hok Hw Hf Hmax) as (s & m & s' & Hs & Hm & Hu & Hc & Ht & He).
  exists s, m, s'. do 4 (split; [done|]). split; [done|]. split; [done|]. intros Hl.
  destruct (window_report w fuel id un xs Hok Hl) as (s0 & m0 & s0' & Hs0 & Hm0 & _ & _ & Hp); [lia|done|].
  rewrite Hs in Hs0. injection Hs0 as <-. rewrite Hm in Hm0. injection Hm0 as <- _. exact Hp.
Qed.

(** The extremes of any stream are exact: however many windows it spans, [GetMin] is the
    smallest and [GetMax] the largest sample. *)
Theorem extremes_are_exact w fuel id un xs :
  Forall ok xs → xs ≠ [] → (1 ≤ w ≤ 1000)%nat → (w ≤ fuel)%nat → Z.of_nat (length xs) < 2 ^ 63 →
  ∃ s lo hi s1 s2, pushes fuel xs (Summary_new id un (Z.of_nat w)) = Done s ∧
    GetMin fuel s = Done (lo, s1) ∧ GetMax fuel s = Done (hi, s2) ∧
    lowest (dpos lo) xs ∧ highest (dpos hi) xs.
Proof.
  intros Hok Hne Hw Hf Hmax.
  destruct (pushes_spec w fuel xs _ [] [] (stats_new w id un) Hok Hw Hf) as (s & old & cur & Hs & Hst & Hp & _);
    [cbn; lia|]. rewrite app_nil_r in Hp.
  destruct (flush_spec w fuel s old cur Hst) as (s' & Hs' & Hok' & _); [lia|done|].
  pose proof (so_ext _ _ _ _ Hok') as He. destruct (initialized_ s').
  2:{ rewrite He in Hp. by apply Permutation_nil_l in Hp. }
  destruct He as (_ & _ & Hlo & Hhi). exists s, (min_ s'), (max_ s'), s', s'.
  unfold GetMin, GetMax, GetPercentileInternal. rewrite Hs'. run. do 3 (split; [done|]).
  destruct Hlo as [Hlo1 Hlo2], Hhi as [Hhi1 Hhi2]. rewrite Hp in Hlo1, Hlo2, Hhi1, Hhi2. done.
Qed.

End laws.

(** ** Examples *)
Definition ex_stream : list double := of_int <$> [5; 3; 8; 3; 1].

Lemma ex_stream_ok : Forall num ex_stream.
Proof. repeat constructor. Qed.

Lemma report_is_order_statistics_witness :
  ∃ s m s', pushes 5 ex_stream (Summary_new "sampled_lat" "ns" 5) = Done s ∧
    ToMetrics 5 s = Done (mkMetrics MetricType.Summary (SummaryData m) "sampled_lat", s') ∧
    units m = "ns"%string ∧ count m = 5 ∧
    Forall2 (λ pf v, ∃ x, of_rank num dpos pf.2 ex_stream x ∧ v = as_double x) percentiles
      [min m; p50 m; p90 m; p95 m; p99 m; p999 m; max m].
Proof.
  apply (report_is_order_statistics num dpos 5 5 "sampled_lat" "ns" ex_stream);
    [apply ex_stream_ok|cbn; lia|lia|lia].
Defined.

Lemma extremes_are_exact_witness :
  ∃ s lo hi s1 s2, pushes 2 ex_stream (Summary_new "sampled_lat" "ns" 2) = Done s ∧
    GetMin 2 s = Done (lo, s1) ∧ GetMax 2 s = Done (hi, s2) ∧
    lowest (dpos lo) ex_stream ∧ highest (dpos hi) ex_stream.
Proof.
  apply (extremes_are_exact num dpos 2 2 "sampled_lat" "ns" ex_stream);
    [apply ex_stream_ok|done|lia|lia|cbn; lia].
Defined.


(** Six equal samples of 0.3 make the running variance negative, so the standard
    deviation is NaN and the report holds a double that is not finite. *)
Theorem equal_samples_break_report :
  ∃ s m s', pushes 10 (replicate 6 (lit 3 1)) (Summary_new "sampled_qps" "ops/s" 1000) = Done s ∧
    GetStddev s = S754_nan ∧ ToMetrics 10 s = Done (m, s') ∧ data_finite (data m) = false.
Proof. do 3 eexists. do 3 (split; [vm_compute; reflexivity|]). vm_compute. reflexivity. Qed.

(** Merging the statistics of 8, 8 into those of 4, 4 succeeds and reports the smallest
    and the largest value to be 2, since the window of [other] is not folded in first and
    extremes are averaged; the number of samples stays 2; and the nodes of [other] have
    been deleted with the local copy, so that destroying [other] deletes them again. *)
Theorem accumulate_is_wrong :
  ∃ s d s' d', pushes 10 [of_int 4; of_int 4] (Summary_new "x" "ns" 1000) = Done s ∧
    pushes 10 [of_int 8; of_int 8] (Summary_new "x" "ns" 1000) = Done d ∧
    Accumulate 10 s (mkStatusVal StatusOk (Some d)) = Done (StatusOk, s', mkStatusVal StatusOk (Some d')) ∧
    GetMin 10 s' = Done (of_int 2, s') ∧ GetMax 10 s' = Done (of_int 2, s') ∧ GetNumSamples s' = 2 ∧
    ATree_destroy 10 (samples_ d') = Fault FUndef.
Proof. do 4 eexists. do 6 (split; [vm_compute; reflexivity|]). vm_compute. reflexivity. Qed.

(** A NaN is sent to the left by the search and linked on the right: the node that was
    there is lost with its subtree. *)
Lemma nan_sample_drops_samples :
  ∃ s, pushes 10 [of_int 5; of_int 3; of_int 4; S754_nan] (Summary_new "x" "ns" 1000) = Done s ∧
    GetNumSamples s = 4 ∧ GetSize (samples_ s) = Done 3.
Proof. eexists. do 2 (split; [vm_compute; reflexivity|]). vm_compute. reflexivity. Qed.

(** The percentiles of later windows are moved by their share of all samples, not of the
    windows: after a window of zeros and one of tens the median is 2.5. *)
Lemma second_window_counts_half :
  ∃ s s', pushes 10 [of_int 0; of_int 0; of_int 10; of_int 10] (Summary_new "x" "ns" 2) = Done s ∧
    Get50thPercentile 10 s = Done (lit 25 1, s').
Proof. do 2 eexists. split; [vm_compute; reflexivity|]. vm_compute. reflexivity. Qed.
