(* ===== verification/WorkloadDriver.v ===== *)
(** * The workload driver (colosseum/workload_driver.h), its streams, the counter and the
    stopwatch it measures with (metrics/counter.h, metrics/stopwatch.h)

    Clock readings are a sequence [tsc]; the conversion of cycles to nanoseconds
    divides doubles and is a parameter. A throughput sample keeps its numerator and
    the lap it is divided by. *)
From S2P Require Import Prelude Status.

Definition StreamTerminatedStatus : Status := mkStatus StreamTerminated (Some "Stream terminated").
Definition IsStreamTerminated (s : Status) : bool := bool_decide (st_t s = StreamTerminated).

(** ** [Counter<uint64_t>] *)
Record Counter := mkCounter { co_name : string; counter_ : Z }.
Definition Counter_new (name : string) : Counter := mkCounter name 0.
Definition counter_add (c : Counter) (rhs : Z) : Counter := mkCounter (co_name c) (u64 (counter_ c + rhs)).
Definition counter_sub (c : Counter) (rhs : Z) : Counter := mkCounter (co_name c) (u64 (counter_ c - rhs)).
Definition counter_incr (c : Counter) : Counter := counter_add c 1.
Definition counter_decr (c : Counter) : Counter := counter_sub c 1.
Definition counter_eqb (c d : Counter) : bool :=
  bool_decide (co_name c = co_name d) && (counter_ c =? counter_ d).

(** [Accumulate(other)] *)
Definition Accumulate (c : Counter) (other : StatusVal Counter) : result (Status * Counter) :=
  if is_ok (sv_status other) then
    d ← or_throw (sv_val other);
    if bool_decide (co_name c = co_name d) then Done (StatusOk, counter_add c (counter_ d))
    else Done (mkStatus FailedPrecondition (Some ("Counter name does not match: " +:+ co_name d)), c)
  else Done (sv_status other, c).

(** ** Streams *)
Section streams.
Context {T G : Type} (generator : G → T * G).

Inductive stream_kind :=
| TestStream (rest : list T)                        (* from [iter_] to the end *)
| TimedStream (stop_time_ : Z)
| FixedLengthStream (length_ count_ : Z).

Record stream := mkStream { s_kind : stream_kind; s_gen : G; terminated_ : bool }.

Definition yield_next (k : stream_kind) (g : G) : StatusVal T * stream :=
  let '(x, g) := generator g in (mkStatusVal StatusOk (Some x), mkStream k g false).
Definition exhausted (k : stream_kind) (g : G) : StatusVal T * stream :=
  (mkStatusVal StreamTerminatedStatus None, mkStream k g false).

(** [NextInternal]; [now] is the time of the call, in seconds. *)
Definition NextInternal (now : Z) (k : stream_kind) (g : G) : result (StatusVal T * stream) :=
  match k with
  | TestStream [] => Done (exhausted k g)
  | TestStream (x :: rest) => Done (mkStatusVal StatusOk (Some x), mkStream (TestStream rest) g false)
  | TimedStream stop => Done (if stop <? now then exhausted k g else yield_next k g)
  | FixedLengthStream len count =>
      count ← int_op (count + 1);
      let k := FixedLengthStream len count in
      Done (if len <? count then exhausted k g else yield_next k g)
  end.

Definition Next (now : Z) (s : stream) : result (StatusVal T * stream) :=
  if terminated_ s then Done (mkStatusVal StreamTerminatedStatus None, s)
  else NextInternal now (s_kind s) (s_gen s).

Definition Terminate (s : stream) : stream := mkStream (s_kind s) (s_gen s) true.
End streams.
Arguments stream_kind : clear implicits.
Arguments stream : clear implicits.

(** ** [Stopwatch] *)
Section driver.
Context (tsc : nat → Z) (seconds : nat → Z) (ns : Z → Z).
Context {C T G : Type} (generator : G → T * G).
(** The client adapter; an assertion that fails in it ends the program. *)
Context (Start : C → result (Status * C)) (Apply : T → C → result (Status * C)) (Stop : C → result (Status * C)).

Record Stopwatch := mkWatch { sw_start : Z; sw_end : Z; sw_lap : Z }.

(** [GetRuntimeNanoseconds] of a split from [a] to [b]. *)
Definition split_ns (a b : Z) : Z := ns (u64 (b - a)).

Record WorkloadDriver := mkDriver {
  client_ : C;
  stream_ : stream T G;
  ops_ : Counter;
  prev_ops_ : Z;
  stopwatch_ : Stopwatch;
  tick : nat;                                       (* clock readings so far *)
  lat_summary_ : list Z;
  qps_summary_ : list (Z * Z) }.

Definition WorkloadDriver_new (c : C) (s : stream T G) : WorkloadDriver :=
  mkDriver c s (Counter_new "total_ops") 0 (mkWatch 0 0 0) 0 [] [].

(** One iteration: [Some status] leaves the loop with that status. *)
Definition driver_step (lat_ms qps_ms : Z) (status : Status) (d : WorkloadDriver)
    : result (option Status * WorkloadDriver) :=
  '(next_op, s) ← Next generator (seconds (tick d)) (stream_ d);
  if is_ok (sv_status next_op) then
    let w := stopwatch_ d in
    let curr_lap := split_ns (sw_lap w) (tsc (tick d)) in
    let curr_lap_ms := curr_lap / 1000000 in
    op ← or_throw (sv_val next_op);
    '(client_status, c) ← Apply op (client_ d);
    let sampled := lat_ms <? curr_lap_ms in
    let t1 := if sampled then S (S (tick d)) else S (tick d) in
    let lat := if sampled
               then lat_summary_ d ++ [split_ns (sw_lap w) (tsc (S (tick d))) - curr_lap]
               else lat_summary_ d in
    if is_ok client_status then
      let ops := counter_incr (ops_ d) in
      if qps_ms <? curr_lap_ms then
        Done (None, mkDriver c s ops (counter_ ops) (mkWatch (sw_start w) (sw_end w) (tsc (S t1))) (S (S t1)) lat
                (qps_summary_ d ++ [(u64 (counter_ ops - prev_ops_ d), split_ns (sw_lap w) (tsc t1))]))
      else Done (None, mkDriver c s ops (prev_ops_ d) w t1 lat (qps_summary_ d))
    else Done (Some client_status, mkDriver c s (ops_ d) (prev_ops_ d) w t1 lat (qps_summary_ d))
  else
    let d := mkDriver (client_ d) s (ops_ d) (prev_ops_ d) (stopwatch_ d) (tick d)
               (lat_summary_ d) (qps_summary_ d) in
    Done (Some (if IsStreamTerminated (sv_status next_op) then status else sv_status next_op), d).

Fixpoint driver_loop (fuel : nat) (lat_ms qps_ms : Z) (status : Status) (d : WorkloadDriver)
    : result (Status * WorkloadDriver) :=
  match fuel with
  | O => Fault FFuel
  | S f =>
      '(leave, d) ← driver_step lat_ms qps_ms status d;
      match leave with Some st => Done (st, d) | None => driver_loop f lat_ms qps_ms status d end
  end.

Definition set_client (d : WorkloadDriver) (c : C) (w : Stopwatch) (t : nat) : WorkloadDriver :=
  mkDriver c (stream_ d) (ops_ d) (prev_ops_ d) w t (lat_summary_ d) (qps_summary_ d).

(** [Run()]: the status of the loop is replaced by that of [Stop]. *)
Definition Run (fuel : nat) (qps_ms : Z) (d : WorkloadDriver) : result (Status * WorkloadDriver) :=
  '(status, c) ← Start (client_ d);
  if is_ok status then
    let now := tsc (tick d) in
    let d := set_client d c (mkWatch now 0 now) (S (tick d)) in
    '(_, d) ← driver_loop fuel 10 qps_ms status d;
    '(status, c) ← Stop (client_ d);
    let w := stopwatch_ d in
    Done (status, set_client d c (mkWatch (sw_start w) (tsc (tick d)) (sw_lap w)) (S (tick d)))
  else Done (status, set_client d c (stopwatch_ d) (tick d)).

(** ** What a run does *)
(** The stream gives the operations [xs], whatever the time, and then ends. *)
Inductive yields : stream T G → list T → Prop :=
| yields_nil s : (∀ now, ∃ s', Next generator now s = Done (mkStatusVal StreamTerminatedStatus None, s')) →
    yields s []
| yields_cons s s' x xs : (∀ now, Next generator now s = Done (mkStatusVal StatusOk (Some x), s')) →
    yields s' xs → yields s (x :: xs).

Lemma yields_test g xs : yields (mkStream (TestStream xs) g false) xs.
Proof. induction xs as [|x xs IH]; [constructor; by eexists|by econstructor]. Qed.

(** The first [n] values of the generator. *)
Fixpoint generated (n : nat) (g : G) : list T :=
  match n with O => [] | S n => (generator g).1 :: generated n (generator g).2 end.

Lemma yields_fixed n len count g :
  len = count + Z.of_nat n → 0 ≤ count → len < INT_MAX →
  yields (mkStream (FixedLengthStream len count) g false) (generated n g).
Proof.
  revert count g. induction n as [|n IH]; intros count g Hlen Hc Hmax.
  - constructor. intros now. cbn. unfold Next. cbn.
    rewrite (proj2 (int_op_done (count + 1) _)) by (split; [done|unfold INT_MIN; lia]).
    rewrite bind_done, (proj2 (Z.ltb_lt _ _)) by lia. by eexists.
  - cbn. destruct (generator g) as [x g'] eqn:Hg.
    apply yields_cons with (mkStream (FixedLengthStream len (count + 1)) g' false).
    + intros now. unfold Next. cbn.
      rewrite (proj2 (int_op_done (count + 1) _)) by (split; [done|unfold INT_MIN; lia]).
      rewrite bind_done, (proj2 (Z.ltb_ge _ _)) by lia. unfold yield_next. by rewrite Hg.
    + apply IH; lia.
Qed.

(** The client after the operations up to the first that fails, and how many succeeded. *)
Fixpoint apply_all (xs : list T) (c : C) : result (C * nat) :=
  match xs with
  | [] => Done (c, O)
  | x :: xs' =>
      '(st, c) ← Apply x c;
      if is_ok st then '(c, n) ← apply_all xs' c; Done (c, S n) else Done (c, O)
  end.

Lemma u64_add_l a b : u64 (u64 a + b) = u64 (a + b).
Proof. unfold u64. apply Zplus_mod_idemp_l. Qed.

Lemma driver_loop_spec fuel lat_ms qps_ms status d xs :
  yields (stream_ d) xs → (length xs < fuel)%nat →
  match apply_all xs (client_ d) with
  | Done (c, n) => ∃ st d', driver_loop fuel lat_ms qps_ms status d = Done (st, d') ∧ client_ d' = c ∧
      u64 (counter_ (ops_ d')) = u64 (counter_ (ops_ d) + Z.of_nat n)
  | Fault f => driver_loop fuel lat_ms qps_ms status d = Fault f
  end.
Proof.
  intros Hy. remember (stream_ d) as s eqn:Hs. revert fuel d Hs.
  induction Hy as [s Hend|s s' x xs Hnext Hy IH]; intros [|f] d ->; cbn [length]; try lia; intros Hf;
    cbn [driver_loop apply_all]; unfold driver_step.
  - destruct (Hend (seconds (tick d))) as [s' ->]. cbn. do 2 eexists. split; [done|]. by rewrite Z.add_0_r.
  - rewrite Hnext, bind_done. cbn [sv_status sv_val or_throw].
    change (is_ok StatusOk) with true. cbv iota zeta. rewrite bind_done.
    destruct (Apply x (client_ d)) as [[st c]|e] eqn:Ha; [|done]. cbn -[driver_loop].
    destruct (is_ok st) eqn:Hok; cbn -[driver_loop].
    + destruct (qps_ms <? _); cbn -[driver_loop];
        (match goal with |- context [driver_loop f lat_ms qps_ms status ?d1] =>
           specialize (IH f d1 eq_refl ltac:(lia)); cbn -[driver_loop] in IH end);
        (destruct (apply_all xs c) as [[c' n]|e]; cbn -[driver_loop]; [|done]);
        destruct IH as (st' & d' & -> & Hc & Ho); exists st', d'; (split; [done|]); (split; [done|]);
        rewrite Ho, u64_add_l; f_equal; lia.
    + do 2 eexists. split; [done|]. by rewrite Z.add_0_r.
Qed.

(** The counter stays a 64-bit number with its name. *)
Definition counter_fits (c : Counter) (name : string) : Prop := co_name c = name ∧ is_u 64 (counter_ c).

Lemma driver_step_counter lat_ms qps_ms status d leave d' name :
  driver_step lat_ms qps_ms status d = Done (leave, d') → counter_fits (ops_ d) name → counter_fits (ops_ d') name.
Proof.
  assert (∀ c, counter_fits c name → counter_fits (counter_incr c) name) as Hincr.
  { intros c [Hn _]. split; [done|]. apply (wrap_is_u 64). lia. }
  unfold driver_step. intros E Hc. apply bind_done_inv in E as ([next s] & _ & E).
  destruct (is_ok (sv_status next)); [|by apply done_pair in E as [_ <-]].
  apply bind_done_inv in E as (op & _ & E). apply bind_done_inv in E as ([cs c] & _ & E).
  destruct (is_ok cs); [destruct (qps_ms <? _)|]; apply done_pair in E as [_ <-]; cbn; auto.
Qed.

Lemma Run_counter fuel qps_ms d st d' name :
  Run fuel qps_ms d = Done (st, d') → counter_fits (ops_ d) name → counter_fits (ops_ d') name.
Proof.
  unfold Run. intros E Hc. apply bind_done_inv in E as ([s c] & _ & E).
  destruct (is_ok s); [|by apply done_pair in E as [_ <-]].
  apply bind_done_inv in E as ([s1 d1] & Hl & E). apply bind_done_inv in E as ([s2 c2] & _ & E).
  apply done_pair in E as [_ <-]. cbn. clear -Hl Hc. revert Hl.
  set (d0 := set_client _ _ _ _). assert (counter_fits (ops_ d0) name) as Hd0 by done. clearbody d0. clear Hc.
  revert d0 Hd0. induction fuel as [|f IH]; intros d0 Hd0 Hl; [done|]. cbn in Hl.
  apply bind_done_inv in Hl as ([leave d2] & Hs & Hl). pose proof (driver_step_counter _ _ _ _ _ _ _ Hs Hd0).
  destruct leave; [by apply done_pair in Hl as [_ <-]|eauto].
Qed.

(** A run applies the stream's operations in order up to the first that fails, counts
    the successes and stops the client; the status it reports is always that of [Stop],
    so a failed operation is not reported. *)
Lemma driver_run_spec fuel qps_ms d c0 st0 xs :
  yields (stream_ d) xs → Start (client_ d) = Done (st0, c0) → st_t st0 = Ok → (length xs < fuel)%nat →
  match '(c1, n) ← apply_all xs c0; '(st, c2) ← Stop c1; Done (n, st, c2) with
  | Done (n, st, c2) => ∃ d', Run fuel qps_ms d = Done (st, d') ∧ client_ d' = c2 ∧
      u64 (counter_ (ops_ d')) = u64 (counter_ (ops_ d) + Z.of_nat n)
  | Fault f => Run fuel qps_ms d = Fault f
  end.
Proof.
  intros Hy Hst Hok Hf. unfold Run. rewrite Hst, bind_done, (proj2 (is_ok_true _) Hok).
  pose proof (driver_loop_spec fuel 10 qps_ms st0
    (set_client d c0 (mkWatch (tsc (tick d)) 0 (tsc (tick d))) (S (tick d))) xs Hy Hf) as Hl.
  cbn -[driver_loop] in Hl. destruct (apply_all xs c0) as [[c1 n]|e]; cbn -[driver_loop]; [|by rewrite Hl].
  destruct Hl as (st & d' & -> & Hc & Ho). rewrite bind_done, Hc.
  destruct (Stop c1) as [[st' c2]|e]; [|done]. cbn. eexists. by split_and!.
Qed.
End driver.

(** A client that refuses the operation 3: the run still reports success. *)
Definition picky_start (l : list Z) : result (Status * list Z) := Done (StatusOk, l).
Definition picky_apply (x : Z) (l : list Z) : result (Status * list Z) :=
  Done (if x =? 3 then (mkStatus InternalError (Some "refused"), l) else (StatusOk, l ++ [x])).
Definition picky_driver (s : stream Z Z) : WorkloadDriver := WorkloadDriver_new ([] : list Z) s.
Definition count_up (g : Z) : Z * Z := (g, g + 1).

Lemma picky_run :
  ∃ d', Run Z.of_nat Z.of_nat (λ x, x) count_up picky_start picky_apply picky_start 10 100
      (picky_driver (mkStream (FixedLengthStream 5 0) 1 false)) = Done (StatusOk, d') ∧
    client_ d' = [1; 2] ∧ u64 (counter_ (ops_ d')) = 2.
Proof.
  refine (driver_run_spec Z.of_nat Z.of_nat (λ x, x) count_up picky_start picky_apply picky_start 10 100
    (picky_driver (mkStream (FixedLengthStream 5 0) 1 false)) [] StatusOk [1; 2; 3; 4; 5] _ eq_refl eq_refl _).
  - apply (yields_fixed count_up 5 5 0 1); unfold INT_MAX; lia.
  - cbn. lia.
Defined.
