(* ===== verification/Experiment.v ===== *)
(** * The benchmark client (iht/role_client.h, iht/experiment.h, iht/common.h)

    The client applies generated operations to a table given by [TableLaws] and
    asserts that every value it sees is its key. Random draws are the generator's state;
    the barrier only delays; the acknowledgement exchanged in [Stop] is an input. *)
From S2P Require Import Prelude Status IhtRdma IhtSpec IhtLocal Cli WorkloadDriver.
#[local] Open Scope Z_scope.

(** ** Common definitions *)
Definition CONTAINS : Z := 0.
Definition INSERT : Z := 1.
Definition REMOVE : Z := 2.
Definition CNF_ELIST_SIZE : nat := 7.
Definition CNF_PLIST_SIZE : nat := 8.
Record IHT_Op := mkOp { op_kind : Z; op_key : Z; op_value : Z }.

(** ** Experiment parameters *)
Record BenchmarkParams := mkParams {
  node_id : Z; runtime : Z; unlimited_stream : bool; op_count : Z; region_size : Z; thread_count : Z;
  node_count : Z; qp_max : Z; bp_contains : Z; bp_insert : Z; bp_remove : Z; key_lb : Z; key_ub : Z;
  cache_depth : Z }.

(** The [switch] on the cache depth: an unknown depth means no caching. *)
Definition cache_depth_of (depth : Z) : Z := if (0 <=? depth) && (depth <=? 3) then depth else 0.

(** [BenchmarkParams(args)]: the 64-bit options are narrowed to [int]. *)
Definition BenchmarkParams_new {F : Type} (a : @ArgMap F) : result BenchmarkParams :=
  node_id ← iget a "--node_id";
  runtime ← iget a "--runtime";
  unlimited ← bget a "--unlimited_stream";
  op_count ← iget a "--op_count";
  region_size ← iget a "--region_size";
  thread_count ← iget a "--thread_count";
  node_count ← iget a "--node_count";
  qp_max ← iget a "--qp_max";
  contains ← iget a "--contains";
  insert ← iget a "--insert";
  remove ← iget a "--remove";
  key_lb ← iget a "--key_lb";
  key_ub ← iget a "--key_ub";
  depth ← iget a "--cache_depth";
  Done (mkParams (to_i32 node_id) (to_i32 runtime) unlimited (to_i32 op_count) (to_i32 region_size)
          (to_i32 thread_count) (to_i32 node_count) (to_i32 qp_max) (to_i32 contains) (to_i32 insert)
          (to_i32 remove) (to_i32 key_lb) (to_i32 key_ub) (cache_depth_of (to_i32 depth))).

Lemma cache_depth_range d : 0 ≤ cache_depth_of d ≤ 3.
Proof. unfold cache_depth_of. destruct (Z.leb_spec 0 d), (Z.leb_spec d 3); cbn; lia. Qed.

(** ** The generator: [rng] from 1 to 100 and a key *)
Definition make_op (contains insert : Z) (rng k : Z) : IHT_Op :=
  if rng <=? contains then mkOp CONTAINS k 0
  else if rng <=? contains + insert then mkOp INSERT k k
  else mkOp REMOVE k 0.

(** The draws are a sequence read from a position. *)
Definition op_generator (draws : nat → Z * Z) (p : BenchmarkParams) (i : nat) : IHT_Op * nat :=
  (make_op (bp_contains p) (bp_insert p) (draws i).1 (draws i).2, S i).

Definition workload_stream (p : BenchmarkParams) (now : Z) : stream IHT_Op nat :=
  mkStream (if unlimited_stream p then TimedStream (now + runtime p) else FixedLengthStream (op_count p) 0)
    O false.

(** [test_output] of the self test: whether the outcome passes. *)
Definition test_output (actual expected : option Z) : bool :=
  negb (negb (bool_decide (is_Some actual ↔ is_Some expected)) &&
        negb (default 0 actual =? default 0 expected)).

(** ** The client *)
Section client.
Context {T : Type} (exec : @op Z → Z → T → result (T * option Z)).
Context (send_ok recv_ok : bool).

Record Client := mkClient { cl_count : Z; cl_map : T }.

Definition map_op (o : IHT_Op) : option (@op Z) :=
  if op_kind o =? CONTAINS then Some Contains
  else if op_kind o =? INSERT then Some (Insert (op_value o))
  else if op_kind o =? REMOVE then Some Remove else None.

Definition Start (c : Client) : result (Status * Client) := Done (StatusOk, c).

Definition Apply (o : IHT_Op) (c : Client) : result (Status * Client) :=
  count ← int_op (cl_count c + 1);
  match map_op o with
  | Some mo =>
      '(t, res) ← exec mo (op_key o) (cl_map c);
      _ ← rome_assert (match res with Some v => v =? op_key o | None => true end);
      Done (StatusOk, mkClient count t)
  | None => Fault FAbort
  end.

(** [Stop]: an error on the socket throws. *)
Definition Stop (c : Client) : result (Status * Client) :=
  _ ← or_throw (if send_ok then Some tt else None);
  _ ← or_throw (if recv_ok then Some tt else None);
  Done (StatusOk, c).

(** ** Running the generated operations *)
Context (abs : T → gmap Z Z → Prop) (room : @op Z → Z → gmap Z Z → Prop).
Context `{!TableLaws exec abs room}.

(** Every value is its key. *)
Definition self_valued (M : gmap Z Z) : Prop := map_Forall (λ k v, v = k) M.

Definition op_ok (o : IHT_Op) : Prop :=
  ∃ mo, map_op o = Some mo ∧ ∀ v, mo = Insert v → v = op_key o.

Lemma make_op_ok contains insert rng k : op_ok (make_op contains insert rng k).
Proof.
  unfold make_op. destruct (rng <=? contains); [by exists Contains|].
  destruct (rng <=? contains + insert); [|by exists Remove].
  exists (Insert k). split; [done|]. by intros v [= <-].
Qed.

Lemma self_valued_step M o key :
  self_valued M → (∀ v, o = Insert v → v = key) → self_valued (spec_op o key M).1.
Proof.
  intros HM Ho. destruct o as [|v|]; cbn; [done| |by apply map_Forall_delete].
  destruct (M !! key); [done|]. rewrite (Ho v eq_refl). by apply map_Forall_insert_2.
Qed.

(** The calls a list of operations makes. *)
Definition calls_of (os : list IHT_Op) : list (@op Z * Z) :=
  omap (λ o, (., op_key o) <$> map_op o) os.

Lemma Apply_spec o mo c M :
  map_op o = Some mo → (∀ v, mo = Insert v → v = op_key o) → abs (cl_map c) M → self_valued M →
  room mo (op_key o) M → 0 ≤ cl_count c < INT_MAX →
  ∃ t, Apply o c = Done (StatusOk, mkClient (cl_count c + 1) t) ∧ abs t (spec_op mo (op_key o) M).1.
Proof.
  intros Hmo Hins Habs HM Hroom Hc.
  destruct (exec_spec _ _ _ _ Habs Hroom) as (t & Hex & Habs'). exists t. split; [|done].
  unfold Apply. rewrite (proj2 (int_op_done (cl_count c + 1) _)) by (split; [done|unfold INT_MIN; lia]).
  rewrite bind_done, Hmo, Hex, bind_done.
  assert ((spec_op mo (op_key o) M).2 = M !! op_key o) as -> by by destruct mo.
  destruct (M !! op_key o) as [v|] eqn:Hv; [|done].
  rewrite (HM _ _ Hv), Z.eqb_refl. done.
Qed.

Lemma apply_all_spec os c M :
  Forall op_ok os → abs (cl_map c) M → self_valued M → table_rooms room M (calls_of os) →
  0 ≤ cl_count c → cl_count c + Z.of_nat (length os) ≤ INT_MAX →
  ∃ t, apply_all Apply os c = Done (mkClient (cl_count c + Z.of_nat (length os)) t, length os) ∧
    abs t (foldl (λ M p, (spec_op p.1 p.2 M).1) M (calls_of os)).
Proof.
  intros Hos. revert c M. induction Hos as [|o os (mo & Hmo & Hins) Hos IH]; intros c M Habs HM Hr H0 Hmax.
  { exists (cl_map c). cbn. rewrite Z.add_0_r. by destruct c. }
  unfold calls_of in Hr |- *. cbn in Hr |- *. rewrite Hmo in Hr |- *. cbn in Hr |- *.
  destruct Hr as [Hroom Hr]. cbn in Hmax.
  destruct (Apply_spec o mo c M Hmo Hins Habs HM Hroom ltac:(lia)) as (t & -> & Habs').
  rewrite bind_done. cbn.
  destruct (IH (mkClient (cl_count c + 1) t) _ Habs' (self_valued_step _ _ _ HM Hins) Hr) as (t' & E & Ht');
    [cbn; lia|cbn; lia|].
  rewrite E, bind_done. exists t'. split; [|done]. do 3 f_equal. cbn. lia.
Qed.

Lemma generated_ok p draws n i : Forall op_ok (generated (op_generator draws p) n i).
Proof. revert i. induction n as [|n IH]; intros i; cbn; constructor; [apply make_op_ok|apply IH]. Qed.

Lemma generated_length {A G} (gen : G → A * G) n g : length (generated gen n g) = n.
Proof. revert g. induction n as [|n IH]; intros g; cbn; [done|]. by rewrite IH. Qed.

(** A fixed-length experiment runs to its end. Over any table that behaves as a
    finite map while it has room, started on a table whose values are their keys, the
    driver applies exactly [op_count] generated operations, none of the client's
    assertions fails, the run reports [Ok] with that count, and the table ends up as the
    generated calls leave the map. *)
Theorem experiment_runs tsc seconds ns fuel qps_ms p draws now t0 M0 :
  send_ok = true → recv_ok = true →
  unlimited_stream p = false → 0 ≤ op_count p < INT_MAX → (Z.to_nat (op_count p) < fuel)%nat →
  abs t0 M0 → self_valued M0 →
  let os := generated (op_generator draws p) (Z.to_nat (op_count p)) O in
  table_rooms room M0 (calls_of os) →
  ∃ d', Run tsc seconds ns (op_generator draws p) Start Apply Stop fuel qps_ms
      (WorkloadDriver_new (mkClient 0 t0) (workload_stream p now)) = Done (StatusOk, d') ∧
    u64 (counter_ (ops_ d')) = op_count p ∧ cl_count (client_ d') = op_count p ∧
    abs (cl_map (client_ d')) (foldl (λ M c, (spec_op c.1 c.2 M).1) M0 (calls_of os)).
Proof.
  intros Hsend Hrecv Hun Hn Hf Habs HM os Hr.
  destruct (apply_all_spec os (mkClient 0 t0) M0 (generated_ok _ _ _ _) Habs HM Hr) as (t & Hall & Ht);
    [done|cbn; unfold os; rewrite generated_length; lia|].
  assert (length os = Z.to_nat (op_count p)) as Hlen by apply generated_length.
  pose proof (driver_run_spec tsc seconds ns (op_generator draws p) Start Apply Stop fuel qps_ms
    (WorkloadDriver_new (mkClient 0 t0) (workload_stream p now)) (mkClient 0 t0) StatusOk os) as Hrun.
  rewrite Hall in Hrun. cbn -[Run] in Hrun. unfold Stop in Hrun at 1. rewrite Hsend, Hrecv in Hrun.
  cbn -[Run] in Hrun. rewrite Hlen in Hrun.
  destruct Hrun as (d' & HR & Hc & Hops); try done.
  { unfold workload_stream. rewrite Hun. apply yields_fixed; lia. }
  exists d'. split; [exact HR|]. rewrite Hc. cbn. split_and!; [|lia|done].
  rewrite Hops. unfold u64. rewrite Z.mod_small; unfold INT_MAX in Hn; lia.
Qed.
End client.
Arguments mkClient {T}.
Arguments Client : clear implicits.

(** ** An experiment over the local table *)
Definition small_params : BenchmarkParams := mkParams 0 10 false 12 22 1 1 30 30 40 30 0 50 2.
Definition small_draws (i : nat) : Z * Z := ((Z.of_nat i * 37) mod 100 + 1, Z.of_nat i mod 5).

Lemma experiment_runs_witness :
  ∃ d', Run Z.of_nat Z.of_nat (λ x, x) (op_generator small_draws small_params) Start
      (Apply (local_exec (λ x : Z, u64 x) 8 64 1)) (Stop true true) 13 100
      (WorkloadDriver_new (mkClient 0 (iht_carumap_new 64)) (workload_stream small_params 0)) =
      Done (StatusOk, d') ∧
    u64 (counter_ (ops_ d')) = 12 ∧ cl_count (client_ d') = 12.
Proof.
  pose proof (iht_carumap_laws (V:=Z) (λ x : Z, u64 x) 8 64 ltac:(lia) 0) as Hlaws.
  destruct (experiment_runs (local_exec (λ x : Z, u64 x) 8 64 1) true true
    (local_abs (V:=Z) (λ x : Z, u64 x) 64) (local_room (V:=Z) (λ x : Z, u64 x) 8 64)
    Z.of_nat Z.of_nat (λ x, x) 13 100 small_params small_draws 0 (iht_carumap_new 64) ∅)
    as (d' & HR & Hops & Hc & _).
  - reflexivity.
  - reflexivity.
  - reflexivity.
  - unfold INT_MAX. cbn. lia.
  - cbn. lia.
  - apply local_abs_new.
  - apply map_Forall_empty.
  - vm_compute. repeat split; intros; lia.
  - exists d'. split; [exact HR|]. split; [exact Hops|exact Hc].
Defined.

(** The self test accepts a wrong value: it compares values only when exactly one of
    the two outcomes has one. *)
Lemma test_output_accepts_wrong_value : test_output (Some 5) (Some 7) = true ∧ test_output (Some 0) None = true.
Proof. by split; vm_compute. Qed.
