(* ===== verification/Report.v ===== *)
(** * What a run reports (metrics/counter.h, metrics/stopwatch.h, colosseum/workload_driver.h,
    iht/experiment.h)

    The driver model records the samples in the order it takes them; here they become the
    two [Summary<double>] of the driver, the metric records of [ToMetrics], and the text
    forms of a result. Printing of a double ([std::to_string]) is a parameter. *)
From Stdlib Require Import Floats.SpecFloat Ascii.
From stdpp Require Import pretty.
From S2P Require Import Prelude Status Double MetricJson SummaryStats WorkloadDriver Cli Experiment.
#[local] Open Scope string_scope.
#[local] Open Scope Z_scope.

(** ** [Counter] and [Stopwatch] *)
Definition Counter_ToMetrics (c : Counter) : Metrics :=
  mkMetrics MetricType.Counter (CounterData (mkCounterMetric (counter_ c))) (co_name c).

(** [Create]: the frequency from the first file that can be opened; a file that does not
    hold a number leaves 0. *)
Definition kDefaultCpuFreqKhz : Z := 2300000.
Definition Stopwatch_frequency (tsc_file max_file : option (option Z)) : Z :=
  match tsc_file with
  | Some f => default 0 f
  | None => match max_file with Some f => default 0 f | None => kDefaultCpuFreqKhz end
  end.

Definition KhzToGhz (khz : Z) : double := (of_int khz / of_int 1000000)%D.

(** [Split(khz, start, end).GetRuntimeNanoseconds()] *)
Definition GetRuntimeNanoseconds (khz start end_ : Z) : result Z :=
  to_uint64 (of_int (u64 (end_ - start)) / KhzToGhz (to_i32 (u32 khz)))%D.

(** Without a frequency every conversion is undefined. *)
Lemma no_frequency start end_ : GetRuntimeNanoseconds 0 start end_ = Fault FUndef.
Proof.
  unfold GetRuntimeNanoseconds. change (KhzToGhz (to_i32 (u32 0))) with (S754_zero false).
  by destruct (of_int (u64 (end_ - start))).
Qed.

Definition Stopwatch_ToMetrics (name : string) (runtime : Z) : Metrics :=
  mkMetrics MetricType.Stopwatch (StopwatchData (mkStopwatchMetric (u64 runtime))) name.

(** ** The driver's result *)
Section driver.
Context {C T G : Type} (ns : Z → Z).

(** A latency sample, and a throughput sample [n / (lap * 1e-9)]. *)
Definition lat_samples (d : @WorkloadDriver C T G) : list double := of_int <$> lat_summary_ d.
Definition qps_samples (d : @WorkloadDriver C T G) : list double :=
  (λ p : Z * Z, of_int p.1 / (of_int p.2 * lit 1 9))%D <$> qps_summary_ d.

(** [WorkloadDriver::ToMetrics] *)
Definition driver_ToMetrics (fuel : nat) (d : @WorkloadDriver C T G) : result WorkloadDriverResult :=
  qps ← pushes fuel (qps_samples d) (Summary_new "sampled_qps" "ops/s" 1000);
  lat ← pushes fuel (lat_samples d) (Summary_new "sampled_lat" "ns" 1000);
  '(q, _) ← ToMetrics fuel qps;
  '(l, _) ← ToMetrics fuel lat;
  Done (mkResult (Counter_ToMetrics (ops_ d))
          (Stopwatch_ToMetrics "driver_stopwatch" (split_ns ns (sw_start (stopwatch_ d)) (sw_end (stopwatch_ d)))) q l).

(** ** From the driver to a reader *)
Context {J Txt : Type} `{Json J Txt}.
Context (utf8 : string → Prop) (object printable : J → Prop) (clean : J → J).
Context `{!JsonLaws J Txt utf8 object printable clean}.

(** The names and units of the driver's metrics. *)
Definition names (d : @WorkloadDriver C T G) : list string :=
  [co_name (ops_ d); "driver_stopwatch"; "sampled_qps"; "ops/s"; "sampled_lat"; "ns"].

(** Each part of the report is about its own samples. *)
Definition report_of d (r : WorkloadDriverResult) : Prop :=
  ops r = mkMetrics MetricType.Counter (CounterData (mkCounterMetric (counter_ (ops_ d)))) (co_name (ops_ d)) ∧
  MetricJson.runtime r = mkMetrics MetricType.Stopwatch
    (StopwatchData (mkStopwatchMetric (u64 (split_ns ns (sw_start (stopwatch_ d)) (sw_end (stopwatch_ d)))))) "driver_stopwatch" ∧
  (∃ q, qps r = mkMetrics MetricType.Summary (SummaryData q) "sampled_qps" ∧ reports num dpos 1000 "ops/s" (qps_samples d) q) ∧
  ∃ l, latency r = mkMetrics MetricType.Summary (SummaryData l) "sampled_lat" ∧ reports num dpos 1000 "ns" (lat_samples d) l.

Lemma report_ok d r : report_of d r → is_u 64 (counter_ (ops_ d)) →
  Z.of_nat (length (qps_samples d)) < 2 ^ 63 → Z.of_nat (length (lat_samples d)) < 2 ^ 63 → Forall utf8 (names d) →
  result_ok utf8 r.
Proof.
  intros (E1 & E2 & (q & E3 & Hqu & Hqc & _) & (l & E4 & Hlu & Hlc & _)) Hc Hq Hl Hn.
  unfold names in Hn. rewrite !Forall_cons in Hn. destruct Hn as (N1 & N2 & N3 & N4 & N5 & N6 & _).
  unfold result_ok. rewrite E1, E2, E3, E4. split_and!; [by split|split; [done|]| |].
  - split; [done|]. apply (wrap_is_u 64). lia.
  - split; [done|]. split; [done|]. split; [by rewrite Hqu|]. rewrite Hqc. split; lia.
  - split; [done|]. split; [done|]. split; [by rewrite Hlu|]. rewrite Hlc. split; lia.
Qed.

(** The driver's result exists. *)
Lemma driver_result fuel d :
  Forall num (qps_samples d) → Forall num (lat_samples d) → (1000 ≤ fuel)%nat →
  Z.of_nat (length (qps_samples d)) < 2 ^ 63 → Z.of_nat (length (lat_samples d)) < 2 ^ 63 →
  is_u 64 (counter_ (ops_ d)) → Forall utf8 (names d) →
  ∃ r, driver_ToMetrics fuel d = Done r ∧ report_of d r ∧ result_ok utf8 r.
Proof.
  intros Hq Hl Hf Hql Hll Hc Hn.
  destruct (full_report num dpos 1000 fuel "sampled_qps" "ops/s" _ Hq) as (sq & mq & sq' & E1 & E2 & _ & Hrq); [lia|done|done|].
  destruct (full_report num dpos 1000 fuel "sampled_lat" "ns" _ Hl) as (sl & ml & sl' & E3 & E4 & _ & Hrl); [lia|done|done|].
  unfold driver_ToMetrics. change 1000 with (Z.of_nat 1000%nat). rewrite E1, bind_done, E3, bind_done, E2, bind_done, E4, bind_done.
  eexists. split; [done|]. match goal with |- report_of _ ?x ∧ _ => assert (report_of d x) as Hr by (split_and!; eauto) end.
  split; [exact Hr|by apply (report_ok d)].
Qed.

(** C37: the report of a run is about what the run has measured. Whenever the samples are
    numbers, the driver's result exists: its count is that of the operations, its runtime that of
    the stopwatch, and of its two summaries the one named sampled_qps, in ops/s, is about the
    throughput samples and the one named sampled_lat, in ns, about the latencies: each has the
    number of its samples, their smallest and largest, and, when they fit in the window of a
    thousand, as each percentile the sample of that rank; and its records have the types
    their tags say. *)
Theorem driver_report fuel d :
  Forall num (qps_samples d) → Forall num (lat_samples d) → (1000 ≤ fuel)%nat →
  Z.of_nat (length (qps_samples d)) < 2 ^ 63 → Z.of_nat (length (lat_samples d)) < 2 ^ 63 →
  is_u 64 (counter_ (ops_ d)) → Forall utf8 (names d) →
  ∃ r, driver_ToMetrics fuel d = Done r ∧ report_of d r ∧ result_ok utf8 r.
Proof. apply driver_result. Qed.
End driver.

(** ** The text forms of a result (iht/experiment.h) *)
Section text.
Context (show : double → string).

Definition newline : string := String "010" "".
Definition to_text (n : Z) : string := pretty n.

Definition result_as_string_header : string :=
  "node_id,runtime,unlimited_stream,op_count,region_size,thread_count,node_count,qp_max,contains,insert,remove,lb,ub,cache_depth,count,runtime_ns,units,mean,stdev,min,p50,p90,p95,p99,p999,max"
  +:+ newline.

(** [x->...] through the pointer a getter returns. *)
Definition deref {A} (r : result (option A)) : result A := p ← r; defined p.

(** The cells of a row. *)
Definition result_cells (p : BenchmarkParams) (r : WorkloadDriverResult) : result (list string) :=
  c ← deref (try_get_counter (ops r));
  w ← deref (try_get_stopwatch (MetricJson.runtime r));
  q ← deref (try_get_summary (qps r));
  Done ([to_text (node_id p); to_text (runtime p); if unlimited_stream p then "1" else "0";
         to_text (op_count p); to_text (region_size p); to_text (thread_count p); to_text (node_count p);
         to_text (qp_max p); to_text (bp_contains p); to_text (bp_insert p); to_text (bp_remove p);
         to_text (key_lb p); to_text (key_ub p); to_text (cache_depth p);
         to_text (counter c); to_text (runtime_ns w); units q; show (mean q); show (stddev q); show (min q);
         show (p50 q); show (p90 q); show (p95 q); show (p99 q); show (p999 q); show (max q)]).

(** Each cell is followed by a comma, the last one too. *)
Definition result_as_string (p : BenchmarkParams) (r : WorkloadDriverResult) : result string :=
  cells ← result_cells p r;
  Done (foldr (λ c row, c +:+ "," +:+ row) newline cells).

(** What a reader of comma-separated values sees. *)
Fixpoint columns (s : string) : list string :=
  match s with
  | "" => [""]
  | String c s' =>
      if bool_decide (c = ","%char) then "" :: columns s'
      else match columns s' with x :: xs => String c x :: xs | [] => [String c ""] end
  end.

Fixpoint no_comma (s : string) : bool :=
  match s with "" => true | String c s' => negb (bool_decide (c = ","%char)) && no_comma s' end.

Lemma columns_cell c s : no_comma c = true → columns (c +:+ "," +:+ s) = c :: columns s.
Proof.
  induction c as [|x c IH]; intros Hc; [done|]. cbn in Hc. rewrite andb_true_iff, negb_true_iff in Hc.
  destruct Hc as [Hx Hc]. change ((String x c) +:+ "," +:+ s) with (String x (c +:+ "," +:+ s)). cbn.
  rewrite Hx, (IH Hc). done.
Qed.

Lemma columns_row cells :
  Forall (λ c, no_comma c = true) cells →
  columns (foldr (λ c row, c +:+ "," +:+ row) newline cells) = (cells ++ [newline])%list.
Proof.
  induction 1 as [|c cells Hc _ IH]; [done|]. cbn [foldr app]. by rewrite columns_cell, IH.
Qed.

Lemma pretty_no_comma n : no_comma (to_text n) = true.
Proof.
  assert (∀ x s, no_comma s = true → no_comma (pretty_N_go x s) = true) as Hgo.
  { intros x. induction (N.lt_wf_0 x) as [x _ IH]. intros s Hs. destruct (decide (0 < x)%N) as [Hx|Hx].
    - rewrite pretty_N_go_step by done. apply IH; [apply N.div_lt; lia|]. cbn. rewrite Hs, andb_true_r.
      destruct (digit_cases (x mod 10) ltac:(apply N.mod_lt; lia)) as
        [->|[->|[->|[->|[->|[->|[->|[->|[->| ->]]]]]]]]]; reflexivity.
    - by replace x with 0%N by lia. }
  unfold to_text. destruct n as [|p|p]; [done| |].
  - change (pretty (Z.pos p)) with (pretty (N.pos p)). unfold pretty, pretty_N. rewrite decide_False by lia.
    by apply Hgo.
  - change (pretty (Z.neg p)) with ("-" +:+ pretty (N.pos p)). unfold pretty, pretty_N.
    rewrite decide_False by lia. assert (∀ x, no_comma ("-" +:+ x) = no_comma x) as -> by done. by apply Hgo.
Qed.

(** The text form of a well-formed result: a row can always be printed and is read back
    cell by cell, but it has one column more than the header, since the last cell, too, is
    followed by a comma. *)
Theorem row_has_extra_column utf8 p r :
  result_ok utf8 r → has_counter (ops r) = true → has_stopwatch (MetricJson.runtime r) = true →
  has_summary (qps r) = true → (∀ x, no_comma (show x) = true) →
  (∀ q, try_get_summary (qps r) = Done (Some q) → no_comma (units q) = true) →
  ∃ cells row, result_cells p r = Done cells ∧ result_as_string p r = Done row ∧
    columns row = (cells ++ [newline])%list ∧ length (columns row) = S (length (columns result_as_string_header)).
Proof.
  intros (H1 & H2 & H3 & _) Hc Hw Hs Hshow Hunits.
  unfold has_counter, has_stopwatch, has_summary in *. rewrite Z.eqb_eq in Hc, Hw, Hs.
  unfold result_as_string, result_cells, deref. unfold try_get_summary in *.
  unfold try_get_counter, try_get_stopwatch. rewrite Hc, Hw, Hs in *. cbn in Hunits |- *.
  destruct H1 as [_ D1], H2 as [_ D2], H3 as [_ D3]. rewrite Hc in D1. rewrite Hw in D2. rewrite Hs in D3.
  destruct (data (ops r)); try done; try (by destruct D1).
  destruct (data (MetricJson.runtime r)); try done; try (by destruct D2).
  destruct (data (qps r)); try done; try (by destruct D3). run.
  do 2 eexists. do 2 (split; [done|]). rewrite columns_row; [split; [done|reflexivity]|].
  repeat (apply Forall_cons; split; [first [apply pretty_no_comma|apply Hshow|by apply Hunits|by destruct (unlimited_stream p)]|]).
  by apply Forall_nil.
Qed.
End text.

(** ** Examples *)
Definition ex_driver : @WorkloadDriver (list Z) Z Z :=
  mkDriver [] (mkStream (FixedLengthStream 5 5) 1 false) (mkCounter "total_ops" 5) 4 (mkWatch 10 99 50) 9
    [7; 9; 8] [(3, 1000); (2, 800)].

Lemma driver_report_witness :
  ∃ r, driver_ToMetrics (λ x, x) 1000 ex_driver = Done r ∧ report_of (λ x, x) ex_driver r ∧ result_ok (λ _, True) r.
Proof.
  apply (driver_report (λ x, x) (λ _, True) 1000 ex_driver).
  - repeat constructor.
  - repeat constructor.
  - lia.
  - cbn. lia.
  - cbn. lia.
  - vm_compute. split; congruence.
  - repeat constructor.
Defined.

Lemma row_has_extra_column_witness :
  ∃ cells row, result_cells (λ _, "1.0") small_params ex_result = Done cells ∧
    result_as_string (λ _, "1.0") small_params ex_result = Done row ∧
    columns row = (cells ++ [newline])%list ∧ length (columns row) = S (length (columns result_as_string_header)).
Proof.
  apply (row_has_extra_column (λ _, "1.0") (λ _, True)).
  - split_and!; [|split; [exact I|split; [reflexivity|vm_compute; split; congruence]]
      |apply ex_qps_ok|apply ex_qps_ok].
    split; [exact I|split; [reflexivity|vm_compute; split; congruence]].
  - reflexivity.
  - reflexivity.
  - reflexivity.
  - intros x. reflexivity.
  - intros q. vm_compute. intros [= <-]. reflexivity.
Defined.
