(* ===== verification/Clock.v ===== *)
(** * The stopwatch (metrics/stopwatch.h)

    The object around the readings of the processor's counter: splits, laps, [Stop], and the
    conversion of cycles to nanoseconds in the code's own floating-point arithmetic. A
    reading of the counter is an argument of the operation that makes it. *)
From Stdlib Require Import Floats.SpecFloat.
From S2P Require Import Prelude ATree Double DoubleRound WorkloadDriver Report.

(** [RdtscpAcquire()], [RdtscpRelease()]: the two halves of the counter. *)
Definition Rdtscp (hi lo : Z) : Z := u64 (Z.shiftl hi 32 + lo).

(** [Split]: the frequency is kept in 32 bits. *)
Record Split := mkSplit { split_khz : Z; split_start : Z; split_end : Z }.
Definition Split_new (khz start end_ : Z) : Split := mkSplit (u32 khz) start end_.
Definition Split_ns (s : Split) : result Z := GetRuntimeNanoseconds (split_khz s) (split_start s) (split_end s).

(** [Stopwatch] *)
Record clock := mkClock { clock_name : string; tsc_freq_khz_ : Z; watch : Stopwatch }.
(** The constructor, and [Create] with what the two frequency files hold. *)
Definition Stopwatch_new (name : string) (khz now : Z) : clock := mkClock name khz (mkWatch now 0 now).
Definition Stopwatch_Create (name : string) (tsc_file max_file : option (option Z)) (now : Z) : clock :=
  Stopwatch_new name (Stopwatch_frequency tsc_file max_file) now.
Definition GetSplit (now : Z) (c : clock) : Split := Split_new (tsc_freq_khz_ c) (sw_start (watch c)) now.
(** [GetLap()]: one reading ends the lap, a second one starts the next. *)
Definition GetLap (now next : Z) (c : clock) : Split * clock :=
  (Split_new (tsc_freq_khz_ c) (sw_lap (watch c)) now,
   mkClock (clock_name c) (tsc_freq_khz_ c) (mkWatch (sw_start (watch c)) (sw_end (watch c)) next)).
Definition GetLapSplit (now : Z) (c : clock) : Split := Split_new (tsc_freq_khz_ c) (sw_lap (watch c)) now.
Definition Stop (now : Z) (c : clock) : clock :=
  mkClock (clock_name c) (tsc_freq_khz_ c) (mkWatch (sw_start (watch c)) now (sw_lap (watch c))).
(** [Stopwatch::GetRuntimeNanoseconds()] *)
Definition Stopwatch_ns (c : clock) : result Z :=
  Split_ns (Split_new (tsc_freq_khz_ c) (sw_start (watch c)) (sw_end (watch c))).

(** ** The conversion *)
#[local] Abbreviation P := (2 ^ 1074).
#[local] Abbreviation M := 1000000.

(** The frequency in gigahertz is right to one part in [2 ^ 50]. *)
Lemma ghz_close khz : 0 < khz < 2 ^ 31 →
  good (KhzToGhz khz) ∧ 0 < dpos (KhzToGhz khz) ∧
  Z.abs (dpos (KhzToGhz khz) * M - khz * P) ≤ M * khz * 2 ^ 1004.
Proof.
  intros Hk. destruct (of_int_good khz ltac:(lia)) as [Hx Ex]. destruct (of_int_good M ltac:(lia)) as [Hy Ey].
  set (d := Z.log2 khz). destruct (Z.log2_spec khz ltac:(lia)) as [Hlo Hhi]. fold d in Hlo, Hhi.
  assert (0 ≤ d < 31) as Hd by (split; [apply Z.log2_nonneg|apply Z.log2_lt_pow2; lia]).
  set (L := khz * 2 ^ (70 - d) / M).
  assert (0 < 2 ^ 1074) as HP by (apply Z.pow_pos_nonneg; lia). assert (0 < 2 ^ (70 - d)) as Hp70 by (apply Z.pow_pos_nonneg; lia).
  assert (khz * 2 ^ (70 - d) < 2 ^ 71) as Hhi'.
  { replace 71 with (Z.succ d + (70 - d)) by lia. rewrite Z.pow_add_r by lia. apply Z.mul_lt_mono_pos_r; lia. }
  assert (2 ^ 70 ≤ khz * 2 ^ (70 - d)) as Hlo'.
  { replace 70 with (d + (70 - d)) at 1 by lia. rewrite Z.pow_add_r by lia. apply Z.mul_le_mono_nonneg_r; lia. }
  pose proof (Z.div_mod (khz * 2 ^ (70 - d)) M ltac:(lia)) as HL. pose proof (Z.mod_pos_bound (khz * 2 ^ (70 - d)) M ltac:(lia)) as Hm. fold L in HL.
  assert (2 ^ (d - 70 + 1074) * 2 ^ (70 - d) = P) as EP by (rewrite <- Z.pow_add_r by lia; f_equal; lia).
  assert (0 < 2 ^ (d - 70 + 1074)) as Hph by (apply Z.pow_pos_nonneg; lia). set (H := 2 ^ (d - 70 + 1074)) in *.
  assert (0 < L) as HL0 by (apply Z.div_str_pos; lia). set (W := khz * 2 ^ (70 - d)) in *.
  assert (khz * P = W * H) as EW by (unfold W; rewrite <- EP; ring).
  assert (2 ^ d * 2 ^ 1004 = H) as EH by (rewrite <- Z.pow_add_r by lia; unfold H; f_equal; lia).
  destruct (ddiv_between (of_int khz) (of_int M) (d - 70) (L + 1) Hx Hy) as (Hg & HU & HLo).
  - rewrite Ex. lia.
  - rewrite Ey. by vm_compute.
  - lia.
  - lia.
  - rewrite Ex, Ey, EW. fold H. revert HP Hph HL Hm Hlo'. clear. generalize P. intros Q HQ HH HL Hm Hlo.
    split; [apply Z.le_trans with (H * Q * M); [lia|]; replace (W * H * Q) with (H * Q * W) by ring; apply Z.mul_le_mono_nonneg_l; lia|].
    replace (W * H * Q) with (H * Q * W) by ring. replace ((L + 1) * H * (M * Q)) with (H * Q * (M * (L + 1))) by ring.
    apply Z.mul_le_mono_nonneg_l; lia.
  - fold (KhzToGhz khz) in Hg, HU, HLo. fold H in HU, HLo. specialize (HLo L). rewrite Ex, Ey, EW in HLo.
    set (Y := dpos (KhzToGhz khz)) in *. assert (L * H ≤ Y) as HLY.
    { apply HLo. replace (W * H * P) with (H * P * W) by ring. replace (L * H * (M * P)) with (H * P * (M * L)) by ring.
      apply Z.mul_le_mono_nonneg_l; [apply Z.mul_nonneg_nonneg; lia|lia]. }
    assert (H ≤ khz * 2 ^ 1004) as HH by (rewrite <- EH; apply Z.mul_le_mono_nonneg_r; [apply Z.pow_nonneg|]; lia).
    split; [exact Hg|]. rewrite EW. revert HLY HU HH HL Hm HL0 Hph. clear. generalize (2 ^ 1004). intros Q. nia.
Qed.

(** A truncated quotient of an integer is within one of the exact value. *)
Lemma quotient_close c y : 0 ≤ c ≤ 2 ^ 52 → good y → 0 < dpos y ≤ 2 ^ 1200 → c * P ≤ 2 ^ 51 * dpos y → dpos y ≤ 2 ^ 52 * P →
  ∃ n, truncate (of_int c / y)%D = Some n ∧ 0 ≤ n ∧ n * dpos y ≤ c * P + dpos y ∧ c * P ≤ (n + 1) * dpos y.
Proof.
  intros Hc Hy [Hy0 Hy1] Hcy Hyp. destruct (of_int_good c ltac:(lia)) as [Hx Ex]. assert (0 < P) as HP by (apply Z.pow_pos_nonneg; lia).
  assert (dpos y ≤ 2 ^ 2100) as Hy2 by (etransitivity; [exact Hy1|]; apply Z.pow_le_mono_r; lia).
  destruct (decide (c = 0)) as [->|Hc0].
  { exists 0. split; [|lia]. destruct y as [[]|s| |s m e]; try done. }
  set (L := c * P / dpos y). pose proof (Z.div_mod (c * P) (dpos y) ltac:(lia)) as HL. pose proof (Z.mod_pos_bound (c * P) (dpos y) Hy0) as Hm.
  fold L in HL. destruct (Z.le_gt_cases (dpos y) (c * P)) as [Hbig|Hsmall].
  - destruct (ddiv_between (of_int c) y 0 (L + 1) Hx Hy) as (Hg & HU & HLo); rewrite ?Ex, ?Z.add_0_l in *; [lia|lia|lia| | |].
    + assert (L < 2 ^ 52); [|lia]. apply Z.div_lt_upper_bound; lia.
    + revert Hbig HP HL Hm Hy0. clear. generalize P. intros Q. intros. split; nia.
    + specialize (HLo L). destruct (truncate_between (of_int c / y)%D L (L + 1) Hg) as (n & Hn & HnL); [split; [apply HLo|exact HU]|].
      * revert HP HL Hm. clear. generalize P. intros Q. intros. nia.
      * assert (0 ≤ L) by (apply Z.div_pos; lia). exists n. split; [exact Hn|]. split; [lia|]. revert HnL HL Hm Hy0. clear. generalize P. intros Q. nia.
  - destruct (ddiv_between (of_int c) y (-52) (2 ^ 52) Hx Hy) as (Hg & HU & HLo); rewrite ?Ex in *; [lia|lia|lia|lia| |].
    + assert (2 ^ (-52 + 1074) * 2 ^ 52 = P) as EP by (rewrite <- Z.pow_add_r by lia; f_equal; lia).
      assert (0 < 2 ^ (-52 + 1074)) as Hq by (apply Z.pow_pos_nonneg; lia).
      revert EP Hq HP Hsmall Hyp Hc Hc0 Hy0. clear. generalize (2 ^ (-52 + 1074)) P (2 ^ 52). intros q Q B EP Hq HQ Hs Hyp Hc Hc0 Hy0. split; nia.
    + specialize (HLo 0). destruct (truncate_between (of_int c / y)%D 0 1 Hg) as (n & Hn & HnL); [split; [lia|]|].
      * replace (1 * P) with (2 ^ 52 * 2 ^ (-52 + 1074)) by (rewrite <- Z.pow_add_r by lia; f_equal; lia). exact HU.
      * exists n. split; [exact Hn|]. split; [lia|]. revert HnL Hsmall HP Hc Hy0. clear. generalize P. intros Q. nia.
Qed.

(** What two roundings and a truncation leave of a quotient: [y] is [khz / M] in units of [2 ^ 70 * Q]. *)
Lemma runtime_arith khz c n y Q :
  0 < Q → 0 < khz → 0 ≤ c → 0 ≤ n → c * M ≤ 2 ^ 48 * khz → Z.abs (y * M - khz * (2 ^ 70 * Q)) ≤ M * khz * Q →
  n * y ≤ c * (2 ^ 70 * Q) + y → c * (2 ^ 70 * Q) ≤ (n + 1) * y →
  n ≤ 2 ^ 49 ∧ Z.abs (n * khz - c * M) < 2 * khz.
Proof.
  intros HQ Hk Hc Hn Hb Hy HU HL.
  assert ((n - 1) * (y * M) ≤ c * M * (2 ^ 70 * Q)) as HU' by nia.
  assert (c * M * (2 ^ 70 * Q) ≤ (n + 1) * (y * M)) as HL' by nia. clear HU HL.
  set (w := y * M) in *. assert (khz * (2 ^ 70 - M) * Q ≤ w ≤ khz * (2 ^ 70 + M) * Q) as [Hw1 Hw2] by lia. clear Hy.
  assert (n ≤ 2 ^ 49) as Hn49.
  { destruct (Z.le_gt_cases n (2 ^ 49)) as [|Hbig]; [done|]. exfalso.
    assert (2 ^ 49 * (khz * (2 ^ 70 - M) * Q) ≤ (n - 1) * w) by (apply Z.mul_le_mono_nonneg; lia).
    assert (c * M * (2 ^ 70 * Q) ≤ 2 ^ 48 * khz * (2 ^ 70 * Q)) by (apply Z.mul_le_mono_nonneg_r; lia).
    assert (0 < khz * Q) by (apply Z.mul_pos_pos; lia). lia. }
  split; [exact Hn49|].
  assert ((n + 1) * w ≤ (n + 1) * (khz * (2 ^ 70 + M) * Q)) as H1 by (apply Z.mul_le_mono_nonneg_l; lia).
  assert (n * (khz * (2 ^ 70 - M) * Q) ≤ n * w) as H2 by (apply Z.mul_le_mono_nonneg_l; lia).
  assert (n * (M * (khz * Q)) ≤ 2 ^ 49 * (M * (khz * Q))) as H3 by (apply Z.mul_le_mono_nonneg_r; [apply Z.mul_nonneg_nonneg; [|apply Z.mul_nonneg_nonneg]|]; lia).
  assert (0 < khz * Q) as H4 by (apply Z.mul_pos_pos; lia).
  assert (∀ a b, a * (2 ^ 70 * Q) < b * (2 ^ 70 * Q) → a < b) as Hcancel by (intros a b; apply Z.mul_lt_mono_pos_r; lia).
  assert (n * khz < c * M + 2 * khz) by (apply Hcancel; lia).
  assert (c * M < n * khz + 2 * khz) by (apply Hcancel; lia). lia.
Qed.

Lemma runtime_close khz start end_ :
  0 < khz < 2 ^ 31 → u64 (end_ - start) ≤ 2 ^ 52 → u64 (end_ - start) * M ≤ 2 ^ 48 * khz →
  ∃ ns, GetRuntimeNanoseconds khz start end_ = Done ns ∧ 0 ≤ ns ∧ Z.abs (ns * khz - u64 (end_ - start) * M) < 2 * khz.
Proof.
  intros Hk Hc Hb. unfold GetRuntimeNanoseconds. set (c := u64 (end_ - start)) in *.
  assert (0 ≤ c) as Hc0 by (apply Z.mod_pos_bound; lia).
  replace (to_i32 (u32 khz)) with khz.
  2: { unfold u32. rewrite (wrap_small 32) by (unfold is_u; lia). symmetry. apply to_i32_small. unfold INT_MIN, INT_MAX. lia. }
  destruct (ghz_close khz Hk) as (Hg & Hy0 & Hy). set (y := KhzToGhz khz) in *.
  assert (0 < P) as HP by (apply Z.pow_pos_nonneg; lia). assert (0 < 2 ^ 1004) as HQ by (apply Z.pow_pos_nonneg; lia).
  assert (P = 2 ^ 70 * 2 ^ 1004) as EP by (rewrite <- Z.pow_add_r by lia; done).
  assert (2 ^ 52 * P = 2 ^ 1126) as E1126 by (rewrite <- Z.pow_add_r by lia; done).
  assert (2 ^ 1126 ≤ 2 ^ 1200) as Hle by (apply Z.pow_le_mono_r; lia).
  destruct (quotient_close c y) as (n & Hn & Hn0 & HnU & HnL); [lia|exact Hg| | | |].
  - split; [exact Hy0|]. revert Hy EP E1126 Hle Hk HP. clear. generalize (2 ^ 1126) (2 ^ 1200) P (2 ^ 1004). intros. nia.
  - revert Hy EP Hb Hk HP HQ Hc0. clear. generalize P (2 ^ 1004). intros. nia.
  - revert Hy EP Hk HP HQ. clear. generalize P (2 ^ 1004). intros. nia.
  - destruct (runtime_arith khz c n (dpos y) (2 ^ 1004)) as [Hn49 Hclose]; rewrite <- ?EP; try done; try lia.
    exists n. unfold to_uint64. rewrite Hn. cbn [defined]. rewrite bind_done.
    rewrite (proj2 (Z.leb_le 0 n) Hn0), (proj2 (Z.ltb_lt n (2 ^ 64)) ltac:(lia)). split; [done|]. by split.
Qed.

(** ** Laps *)
(** A sequence of laps, each with its two readings. *)
Fixpoint run_laps (reads : list (Z * Z)) (c : clock) : list Split * clock :=
  match reads with
  | [] => ([], c)
  | (now, next) :: reads => let '(s, c) := GetLap now next c in let '(l, c) := run_laps reads c in (s :: l, c)
  end.
(** Readings of a counter that does not go back. *)
Fixpoint ascending (last : Z) (reads : list (Z * Z)) (end_ : Z) : Prop :=
  match reads with [] => last ≤ end_ | (now, next) :: reads => last ≤ now ∧ now ≤ next ∧ ascending next reads end_ end.
Definition total (l : list Z) : Z := foldr Z.add 0 l.
(** The cycles of each lap: from the second reading of the one before to its own first reading. *)
Fixpoint lap_cycles (last : Z) (reads : list (Z * Z)) : list Z :=
  match reads with [] => [] | (now, next) :: reads => now - last :: lap_cycles next reads end.

Lemma ascending_le reads : ∀ a b, ascending a reads b → a ≤ b.
Proof. induction reads as [|[x y] l IH]; cbn; intros a b; [done|]. intros (H1 & H2 & H3). apply IH in H3. lia. Qed.

Lemma lap_cycles_le reads : ∀ a b, ascending a reads b → total (lap_cycles a reads) ≤ b - a.
Proof.
  induction reads as [|[x y] l IH]; cbn; intros a b; [lia|]. intros (H1 & H2 & H3). specialize (IH _ _ H3). unfold total in *. lia.
Qed.

(** Laps that are each within two nanoseconds are together within two each. *)
Lemma total_close khz nss ds : Forall2 (λ ns d, Z.abs (ns * khz - d * M) < 2 * khz) nss ds → 0 < khz →
  Z.abs (total nss * khz - total ds * M) ≤ 2 * khz * Z.of_nat (length ds).
Proof. intros H Hk. induction H as [|ns d nss ds H _ IH]; cbn [total foldr length] in *; unfold total in *; lia. Qed.

Lemma split_close khz a b : 0 < khz < 2 ^ 31 → 0 ≤ a ≤ b → b < 2 ^ 64 → b - a ≤ 2 ^ 52 → (b - a) * M ≤ 2 ^ 48 * khz →
  ∃ ns, Split_ns (Split_new khz a b) = Done ns ∧ 0 ≤ ns ∧ Z.abs (ns * khz - (b - a) * M) < 2 * khz.
Proof.
  intros Hk Ha Hb Hc Hm. assert (u64 (b - a) = b - a) as E by (apply wrap_small; unfold is_u; lia).
  unfold Split_ns, Split_new. cbn [split_khz split_start split_end].
  replace (u32 khz) with khz by (unfold u32; rewrite (wrap_small 32); [done|unfold is_u; lia]).
  rewrite <- E. apply runtime_close; rewrite ?E; (done || lia).
Qed.

Lemma laps_close khz end_ reads : ∀ c, tsc_freq_khz_ c = khz → 0 < khz < 2 ^ 31 → 0 ≤ sw_lap (watch c) →
  ascending (sw_lap (watch c)) reads end_ → end_ < 2 ^ 64 → end_ - sw_lap (watch c) ≤ 2 ^ 52 →
  (end_ - sw_lap (watch c)) * M ≤ 2 ^ 48 * khz →
  let '(splits, c') := run_laps reads c in
  tsc_freq_khz_ c' = khz ∧ sw_start (watch c') = sw_start (watch c) ∧
  ∃ nss, Forall2 (λ s ns, Split_ns s = Done ns) splits nss ∧
    Forall2 (λ ns d, Z.abs (ns * khz - d * M) < 2 * khz) nss (lap_cycles (sw_lap (watch c)) reads).
Proof.
  induction reads as [|[now next] reads IH]; intros c Hc Hk H0 Ha He Hd Hm.
  { cbn in *. split; [done|]. split; [done|]. exists []. split; constructor. }
  cbn [ascending] in Ha. destruct Ha as (H1 & H2 & H3). pose proof (ascending_le _ _ _ H3) as H4.
  cbn [run_laps]. unfold GetLap at 1. rewrite Hc.
  set (c1 := mkClock (clock_name c) khz (mkWatch (sw_start (watch c)) (sw_end (watch c)) next)).
  specialize (IH c1 eq_refl Hk). cbn [c1 watch sw_lap sw_start] in IH.
  specialize (IH ltac:(lia) H3 He ltac:(lia) ltac:(lia)). destruct (run_laps reads c1) as [splits c'].
  destruct IH as (Hf & Hs & nss & Hall & Hsum). split; [done|]. split; [done|].
  destruct (split_close khz (sw_lap (watch c)) now) as (ns & Hns & Hns0 & Hclose); [done|lia..|].
  exists (ns :: nss). split; by constructor.
Qed.

Lemma lap_cycles_length reads a : length (lap_cycles a reads) = length reads.
Proof. revert a. induction reads as [|[x y] l IH]; intros a; cbn; [done|]. by rewrite IH. Qed.

(** C18: what a stopwatch reports. For a counter that does not go back and a measured time
    within about three days, the runtime after [Stop] and every lap are defined; the runtime is
    within two nanoseconds of the cycles from start to stop divided by the frequency, and each lap
    within two nanoseconds of the cycles between its own two readings, in spite of two rounded
    divisions and a truncation; the laps add up to the cycles they measure to within two
    nanoseconds each, and together exceed the runtime by no more than that and two. *)
Theorem stopwatch_accurate name khz start end_ reads :
  0 < khz < 2 ^ 31 → 0 ≤ start → ascending start reads end_ → end_ < 2 ^ 64 →
  end_ - start ≤ 2 ^ 52 → (end_ - start) * 1000000 ≤ 2 ^ 48 * khz →
  let '(splits, c) := run_laps reads (Stopwatch_new name khz start) in
  ∃ runtime nss, Stopwatch_ns (Stop end_ c) = Done runtime ∧
    Z.abs (runtime * khz - (end_ - start) * 1000000) < 2 * khz ∧
    Forall2 (λ s ns, Split_ns s = Done ns) splits nss ∧
    Forall2 (λ ns d, Z.abs (ns * khz - d * 1000000) < 2 * khz) nss (lap_cycles start reads) ∧
    Z.abs (total nss * khz - total (lap_cycles start reads) * 1000000) ≤ 2 * khz * Z.of_nat (length reads) ∧
    total nss ≤ runtime + 2 * Z.of_nat (length reads) + 2.
Proof.
  intros Hk H0 Ha He Hd Hm. pose proof (laps_close khz end_ reads (Stopwatch_new name khz start) eq_refl Hk H0 Ha He Hd Hm) as Hl.
  destruct (run_laps reads (Stopwatch_new name khz start)) as [splits c]. destruct Hl as (Hf & Hs & nss & Hall & Hlaps).
  cbn [Stopwatch_new watch sw_start sw_lap] in Hs, Hlaps. pose proof (ascending_le _ _ _ Ha) as Hle.
  destruct (split_close khz start end_) as (r & Hr & Hr0 & Hclose); [done|lia..|].
  pose proof (total_close khz _ _ Hlaps ltac:(lia)) as Hsum. rewrite lap_cycles_length in Hsum.
  pose proof (lap_cycles_le _ _ _ Ha) as Hmax.
  exists r, nss. unfold Stopwatch_ns, Stop. cbn [tsc_freq_khz_ watch sw_start sw_end]. rewrite Hf, Hs.
  do 5 (split; [done|]). apply (Z.mul_le_mono_pos_r _ _ khz); lia.
Qed.

(** Two laps of a microsecond and more at 2.3 GHz. *)
Lemma stopwatch_accurate_witness :
  let '(splits, c) := run_laps [(3300, 3400); (8000, 8010)] (Stopwatch_Create "w" None None 1000) in
  ∃ runtime nss, Stopwatch_ns (Stop 9000 c) = Done runtime ∧ Z.abs (runtime * 2300000 - (9000 - 1000) * 1000000) < 2 * 2300000 ∧
    Forall2 (λ s ns, Split_ns s = Done ns) splits nss ∧
    Forall2 (λ ns d, Z.abs (ns * 2300000 - d * 1000000) < 2 * 2300000) nss [2300; 4600].
Proof.
  destruct (stopwatch_accurate "w" 2300000 1000 9000 [(3300, 3400); (8000, 8010)]) as (r & nss & Hr & Hc & Hall & Hlaps & _);
    [by split|done| |done|by vm_compute|by vm_compute|].
  - cbn. repeat split; by vm_compute.
  - exists r, nss. split; [exact Hr|]. split; [exact Hc|]. split; [exact Hall|exact Hlaps].
Defined.

(** Before [Stop] the runtime is the distance to a counter of zero. *)
Lemma runtime_before_stop name khz start :
  0 < start < 2 ^ 64 → Stopwatch_ns (Stopwatch_new name khz start) = GetRuntimeNanoseconds (u32 khz) 0 (2 ^ 64 - start).
Proof.
  intros Hs. unfold Stopwatch_ns, Split_ns. cbn [Stopwatch_new tsc_freq_khz_ watch Split_new split_khz split_start split_end sw_start sw_end].
  unfold GetRuntimeNanoseconds. assert (u64 (0 - start) = u64 (2 ^ 64 - start - 0)) as ->.
  { unfold u64. rewrite <- (Z_mod_plus_full (0 - start) 1). f_equal. lia. }
  unfold u32. by rewrite Z.mod_mod by lia.
Qed.
