(* ===== verification/Text.v ===== *)
(** * What is printed and what is exported (metrics/*.h, colosseum/workload_driver.h,
    iht/experiment.h, vendor/sss/cli.h)

    The text forms of the metrics, of the driver, of a result and of the command line, and the
    protobuf records of protos/metrics.proto and protos/workloaddriver.proto. Two parameters
    print a double: [std::to_string] and [operator<<]. *)
From Stdlib Require Import Floats.SpecFloat Ascii.
From stdpp Require Import pretty.
From S2P Require Import Prelude Status ATree Double MetricJson Summary SummaryStats WorkloadDriver Cli Experiment Report Clock.
#[local] Open Scope string_scope.
#[local] Open Scope Z_scope.

Definition quote : string := String "034"%char "".

(** The 64-bit count of [std::chrono::nanoseconds]. *)
Definition count_i64 (n : Z) : Z := if n <? 2 ^ 63 then n else n - 2 ^ 64.

(** ** Metrics *)
(** [operator<<(os, metric)] *)
Definition stream_metric (name text : string) : string := "name: " +:+ quote +:+ name +:+ quote +:+ ", " +:+ text.

Definition Counter_ToString (c : Counter) : string := "count: " +:+ to_text (counter_ c).
Definition Stopwatch_ToString (runtime : Z) : string := "runtime: " +:+ to_text (count_i64 runtime) +:+ " ns".

Section summary.
Context {T : Type} `{Arith T} (stream : double → string).

Definition summary_text (s : SummaryStats.Summary T) : string :=
  "units: " +:+ quote +:+ units_ s +:+ quote +:+ ", " +:+
  "summary: " +:+
  "{mean: " +:+ stream (mean_ s) +:+ ", " +:+
  "stddev: " +:+ stream (dsqrt (variance_ s)) +:+ ", " +:+
  "samples: " +:+ to_text (total_samples_ s) +:+ "}, " +:+
  "percentiles: " +:+
  "{min: " +:+ stream (min_ s) +:+ ", " +:+
  "p50: " +:+ stream (p50_ s) +:+ ", " +:+
  "p90: " +:+ stream (p90_ s) +:+ ", " +:+
  "p95: " +:+ stream (p95_ s) +:+ ", " +:+
  "p99: " +:+ stream (p99_ s) +:+ ", " +:+
  "p999: " +:+ stream (p999_ s) +:+ ", " +:+
  "max: " +:+ stream (max_ s) +:+ "}".

(** [Summary<T>::ToString()]: the window is folded in first. *)
Definition Summary_ToString (fuel : nat) (s : SummaryStats.Summary T) : result (string * SummaryStats.Summary T) :=
  s ← UpdatePercentilesAndClearSamples fuel s;
  Done (summary_text s, s).

(** ** Protobuf records *)
Record SummaryProto := mkSummaryProto {
  sp_units : option string; sp_mean : option double; sp_stddev : option double; sp_min : option double;
  sp_p50 : option double; sp_p90 : option double; sp_p95 : option double; sp_p99 : option double;
  sp_p999 : option double; sp_max : option double; sp_count : option Z }.
Inductive metric_oneof :=
| OneCounter (count : option Z) | OneStopwatch (runtime_ns : option Z) | OneSummary (p : SummaryProto).
Record MetricProto := mkMetricProto { mp_name : option string; mp_metric : option metric_oneof }.

Definition Counter_ToProto (c : Counter) : MetricProto :=
  mkMetricProto (Some (co_name c)) (Some (OneCounter (Some (u64 (counter_ c))))).
Definition Stopwatch_ToProto (name : string) (runtime : Z) : MetricProto :=
  mkMetricProto (Some name) (Some (OneStopwatch (Some (u64 runtime)))).
Definition Summary_ToProto (fuel : nat) (s : SummaryStats.Summary T) : result (MetricProto * SummaryStats.Summary T) :=
  s ← UpdatePercentilesAndClearSamples fuel s;
  Done (mkMetricProto (Some (name_ s))
          (Some (OneSummary (mkSummaryProto (Some (units_ s)) (Some (mean_ s)) (Some (dsqrt (variance_ s))) (Some (min_ s))
             (Some (p50_ s)) (Some (p90_ s)) (Some (p95_ s)) (Some (p99_ s)) (Some (p999_ s)) (Some (max_ s))
             (Some (u64 (total_samples_ s)))))), s).

(** The metric record with the contents of a protobuf record, if every field is set. *)
Definition summary_of_proto (p : SummaryProto) : option SummaryMetric :=
  u ← sp_units p; m ← sp_mean p; sd ← sp_stddev p; lo ← sp_min p; a ← sp_p50 p; b ← sp_p90 p; c ← sp_p95 p;
  d ← sp_p99 p; e ← sp_p999 p; hi ← sp_max p; n ← sp_count p;
  Some (mkSummaryMetric u m sd lo a b c d e hi n).
Definition metrics_of_proto (p : MetricProto) : option Metrics :=
  name ← mp_name p; one ← mp_metric p;
  match one with
  | OneCounter n => n ← n; Some (mkMetrics MetricType.Counter (CounterData (mkCounterMetric n)) name)
  | OneStopwatch n => n ← n; Some (mkMetrics MetricType.Stopwatch (StopwatchData (mkStopwatchMetric n)) name)
  | OneSummary s => m ← summary_of_proto s; Some (mkMetrics MetricType.Summary (SummaryData m) name)
  end.
End summary.

(** ** Reports do not change what they report *)
(** The text of a report as it follows from the metric record: each statistic under its name. *)
Fixpoint comma_separated (l : list (string * string)) : string :=
  match l with
  | [] => ""
  | (name, v) :: l => name +:+ ": " +:+ v +:+ (match l with [] => "" | _ => ", " +:+ comma_separated l end)
  end.
Definition in_braces (l : list (string * string)) : string := "{" +:+ comma_separated l +:+ "}".
Definition report_line (stream : double → string) (m : SummaryMetric) : string :=
  comma_separated
    [("units", quote +:+ units m +:+ quote);
     ("summary", in_braces [("mean", stream (mean m)); ("stddev", stream (stddev m)); ("samples", to_text (count m))]);
     ("percentiles", in_braces
       [("min", stream (min m)); ("p50", stream (p50 m)); ("p90", stream (p90 m)); ("p95", stream (p95 m));
        ("p99", stream (p99 m)); ("p999", stream (p999 m)); ("max", stream (max m))])].

Lemma append_assoc (a b c : string) : (a +:+ b) +:+ c = a +:+ b +:+ c.
Proof. induction a as [|x a IH]; [done|]. exact (f_equal (String x) IH). Qed.
Lemma append_empty (a : string) : a +:+ "" = a.
Proof. induction a as [|x a IH]; [done|]. exact (f_equal (String x) IH). Qed.

Section stable.
Context {T : Type} `{Arith T} (ok : T → Prop) (pos : T → Z) `{!ArithLaws T ok pos}.
Context (stream : double → string) (fuel : nat).
Implicit Types s : SummaryStats.Summary T.

(** The calls that only report. *)
Inductive query := AskText | AskProto | AskMetrics | AskPercentile (p : double).
Definition ask (q : query) s : result (SummaryStats.Summary T) :=
  match q with
  | AskText => '(_, s) ← Summary_ToString stream fuel s; Done s
  | AskProto => '(_, s) ← Summary_ToProto fuel s; Done s
  | AskMetrics => '(_, s) ← ToMetrics fuel s; Done s
  | AskPercentile p => '(_, s) ← GetPercentileInternal fuel p s; Done s
  end.
Fixpoint asks (qs : list query) s : result (SummaryStats.Summary T) :=
  match qs with [] => Done s | q :: qs => s ← ask q s; asks qs s end.
(** Only the seven percentiles can be asked for, others abort. *)
Definition answered (q : query) : Prop := match q with AskPercentile p => p ∈ percentiles.*1 | _ => True end.

Lemma flush_twice s s' : UpdatePercentilesAndClearSamples fuel s = Done s' → UpdatePercentilesAndClearSamples fuel s' = Done s'.
Proof.
  unfold UpdatePercentilesAndClearSamples. intros Hu. destruct (GetSize (samples_ s)) as [n|] eqn:E; [|done]. cbn in Hu.
  destruct (n =? 0) eqn:En.
  - injection Hu as <-. rewrite E. cbn. by rewrite En.
  - destruct (if negb (initialized_ s) then _ else _) as [s1|]; [|done]. cbn in Hu. injection Hu as <-. done.
Qed.

Lemma percentile_answered p s : p ∈ percentiles.*1 → ∃ v, percentile_of p s = Done v.
Proof.
  unfold percentiles. cbn [fmap list_fmap fst]. rewrite !elem_of_cons.
  intros [->|[->|[->|[->|[->|[->|[->|[]%elem_of_nil]]]]]]]; by eexists.
Qed.

(** A report leaves the summary with its window folded in. *)
Lemma ask_flushes q s s' : answered q → UpdatePercentilesAndClearSamples fuel s = Done s' → ask q s = Done s'.
Proof.
  intros Hq Hu. destruct q as [| | |p]; cbn; unfold Summary_ToString, Summary_ToProto, ToMetrics, GetPercentileInternal; rewrite Hu; try done.
  destruct (percentile_answered p s' Hq) as [v E]. cbn. by rewrite E.
Qed.

Lemma asks_flush qs s s1 : Forall answered qs → UpdatePercentilesAndClearSamples fuel s = Done s1 →
  ∃ s', asks qs s = Done s' ∧ UpdatePercentilesAndClearSamples fuel s' = Done s1.
Proof.
  intros Hqs. revert s. induction Hqs as [|q qs Hq _ IH]; intros s Hu; [by exists s|]. cbn.
  rewrite (ask_flushes q s s1 Hq Hu). cbn. apply IH. by eapply flush_twice.
Qed.

(** C33: reporting is repeatable, and its three forms agree. After any stream of samples, any
    number of texts, protobuf records, metric records and percentiles may be asked for, and each
    is answered; before and after them the metric record is the same to the bit, it is about
    the stream, the protobuf record has its contents field by field, and the text has each
    of its fields under its name. *)
Theorem reporting_is_stable w id un xs qs :
  Forall ok xs → (1 ≤ w ≤ 1000)%nat → (w ≤ fuel)%nat → Z.of_nat (length xs) < 2 ^ 63 → Forall answered qs →
  ∃ s s' s1 m, pushes fuel xs (Summary_new id un (Z.of_nat w)) = Done s ∧ asks qs s = Done s' ∧ reports ok pos w un xs m ∧
    ∀ s0, s0 = s ∨ s0 = s' →
      ToMetrics fuel s0 = Done (mkMetrics MetricType.Summary (SummaryData m) id, s1) ∧
      Summary_ToString stream fuel s0 = Done (report_line stream m, s1) ∧
      Summary_ToProto fuel s0 = Done (mkMetricProto (Some id) (Some (OneSummary (mkSummaryProto (Some (units m)) (Some (mean m))
        (Some (stddev m)) (Some (min m)) (Some (p50 m)) (Some (p90 m)) (Some (p95 m)) (Some (p99 m)) (Some (p999 m)) (Some (max m))
        (Some (count m))))), s1).
Proof.
  intros Hok Hw Hf Hmax Hqs. destruct (full_report ok pos w fuel id un xs Hok Hw Hf Hmax) as (s & m & s1 & Hs & Hm & Ht & Hrep).
  assert (UpdatePercentilesAndClearSamples fuel s = Done s1) as Hu.
  { unfold ToMetrics in Hm. apply bind_done_inv in Hm as (s2 & E & Hm). injection Hm as _ _ <-. exact E. }
  destruct (asks_flush qs s s1 Hqs Hu) as (s' & Ha & Hu'). exists s, s', s1, m. do 3 (split; [done|]).
  intros s0 Hs0. assert (UpdatePercentilesAndClearSamples fuel s0 = Done s1) as Hu0 by (destruct Hs0 as [-> | ->]; done).
  unfold ToMetrics, Summary_ToString, Summary_ToProto in *. rewrite Hu in Hm. rewrite Hu0. cbn [mbind result_bind] in *.
  injection Hm as Em Eid. rewrite <- Em, <- Eid in *. cbn [count] in Ht. split; [done|]. split; [|done].
  f_equal. f_equal. unfold summary_text, report_line, in_braces. cbn [comma_separated units mean stddev count min p50 p90 p95 p99 p999 max].
  rewrite <- Ht, !append_empty, !append_assoc. reflexivity.
Qed.
End stable.

(** Twelve samples in windows of five, with reports of every kind. *)
Definition ex_samples : list double := of_int <$> [7; 3; 9; 1; 12; 5; 8; 2; 11; 4; 10; 6].
Definition ex_queries : list query := [AskPercentile P90; AskText; AskProto; AskMetrics; AskPercentile P50].

Lemma reporting_is_stable_witness :
  ∃ s s' s1 m, pushes 12 ex_samples (Summary_new "sampled_lat" "ns" 5) = Done s ∧ asks (λ _, "x"%string) 12 ex_queries s = Done s' ∧
    ToMetrics 12 s' = Done (mkMetrics MetricType.Summary (SummaryData m) "sampled_lat", s1) ∧
    Summary_ToString (λ _, "x"%string) 12 s = Done (report_line (λ _, "x"%string) m, s1).
Proof.
  destruct (reporting_is_stable num dpos (λ _, "x"%string) 12 5 "sampled_lat" "ns" ex_samples ex_queries)
    as (s & s' & s1 & m & Hs & Ha & _ & Hr); [repeat constructor|lia|lia|cbn; lia| |].
  { repeat (apply Forall_cons; split; [first [exact I|apply (bool_decide_unpack _); vm_compute; exact I]|]). by apply Forall_nil. }
  exists s, s', s1, m. split; [exact Hs|]. split; [exact Ha|]. split; [apply (Hr s'); by right|apply (Hr s); by left].
Defined.

(** ** The driver *)
Record WorkloadDriverProto := mkDriverProto {
  wp_ops : option MetricProto; wp_runtime : option MetricProto; wp_qps : option MetricProto; wp_latency : option MetricProto }.

Section driver.
Context {C T G : Type} (ns : Z → Z) (stream : double → string).
Implicit Types d : @WorkloadDriver C T G.

Definition driver_runtime d : Z := split_ns ns (sw_start (stopwatch_ d)) (sw_end (stopwatch_ d)).

(** [WorkloadDriver::ToString()]: the latencies before the throughput. *)
Definition driver_ToString (fuel : nat) d : result string :=
  qps ← pushes fuel (qps_samples d) (Summary_new "sampled_qps" "ops/s" 1000);
  lat ← pushes fuel (lat_samples d) (Summary_new "sampled_lat" "ns" 1000);
  '(l, lat) ← Summary_ToString stream fuel lat;
  '(q, qps) ← Summary_ToString stream fuel qps;
  Done (stream_metric (co_name (ops_ d)) (Counter_ToString (ops_ d)) +:+ newline +:+
        stream_metric (name_ lat) l +:+ newline +:+
        stream_metric (name_ qps) q +:+ newline +:+
        stream_metric "driver_stopwatch" (Stopwatch_ToString (driver_runtime d))).

(** [WorkloadDriver::ToProto()] *)
Definition driver_ToProto (fuel : nat) d : result WorkloadDriverProto :=
  qps ← pushes fuel (qps_samples d) (Summary_new "sampled_qps" "ops/s" 1000);
  lat ← pushes fuel (lat_samples d) (Summary_new "sampled_lat" "ns" 1000);
  '(q, _) ← Summary_ToProto fuel qps;
  '(l, _) ← Summary_ToProto fuel lat;
  Done (mkDriverProto (Some (Counter_ToProto (ops_ d))) (Some (Stopwatch_ToProto "driver_stopwatch" (driver_runtime d)))
          (Some q) (Some l)).

Definition result_of_proto (p : WorkloadDriverProto) : option WorkloadDriverResult :=
  o ← wp_ops p ≫= metrics_of_proto; r ← wp_runtime p ≫= metrics_of_proto;
  q ← wp_qps p ≫= metrics_of_proto; l ← wp_latency p ≫= metrics_of_proto;
  Some (mkResult o r q l).

(** The deprecated export has the contents of the current one. *)
Theorem driver_exports_agree fuel d r :
  is_u 64 (counter_ (ops_ d)) → driver_ToMetrics ns fuel d = Done r →
  ∃ p t, driver_ToProto fuel d = Done p ∧ result_of_proto p = Some r ∧ driver_ToString fuel d = Done t.
Proof.
  intros Hc. unfold driver_ToMetrics, driver_ToProto, driver_ToString, ToMetrics, Summary_ToProto, Summary_ToString.
  destruct (pushes fuel (qps_samples d) _) as [q|]; [|done]. destruct (pushes fuel (lat_samples d) _) as [l|]; [|done]. cbn.
  destruct (UpdatePercentilesAndClearSamples fuel q) as [q'|]; [|done]. cbn.
  destruct (UpdatePercentilesAndClearSamples fuel l) as [l'|]; [|done]. cbn.
  intros [= <-]. do 2 eexists. split; [done|]. split; [|done]. unfold result_of_proto. cbn.
  unfold u64 at 1. rewrite (wrap_small 64 (counter_ (ops_ d)) Hc). done.
Qed.
End driver.

(** ** A result *)
Section result.
Context {J Txt : Type} `{Json J Txt} (text_of : Txt → string).

Definition tab : string := String "009"%char "".
Definition debug_line (name : string) (n : Z) : string := tab +:+ tab +:+ name +:+ ": " +:+ to_text n +:+ newline.

(** [Result::result_as_debug_string()] *)
Definition result_as_debug_string (p : BenchmarkParams) (r : WorkloadDriverResult) : result string :=
  t ← WorkloadDriverResult_serialize r;
  Done ("Experimental Result {" +:+ newline +:+
        tab +:+ "Params {" +:+ newline +:+
        debug_line "node_id" (node_id p) +:+
        debug_line "runtime" (Experiment.runtime p) +:+
        debug_line "unlimited_stream" (if unlimited_stream p then 1 else 0) +:+
        debug_line "op_count" (op_count p) +:+
        debug_line "region_size" (region_size p) +:+
        debug_line "thread_count" (thread_count p) +:+
        debug_line "node_count" (node_count p) +:+
        debug_line "qp_max" (qp_max p) +:+
        debug_line "contains" (bp_contains p) +:+
        debug_line "insert" (bp_insert p) +:+
        debug_line "remove" (bp_remove p) +:+
        debug_line "key_lb" (key_lb p) +:+
        debug_line "key_ub" (key_ub p) +:+
        debug_line "cache_depth" (cache_depth p) +:+
        tab +:+ "}" +:+ newline +:+
        text_of t +:+ "}").
End result.

(** ** The command line *)
Section config.
Context {F : Type} (stod : string → result F) (stream : F → string).

(** The entries of the map in its order. *)
Definition entries (m : gmap string (@Arg F)) : list (string * @Arg F) := omap (λ f, pair f <$> m !! f) (flags m).

(** [ArgMap::usage()] *)
Definition usage (a : ArgMap) : string :=
  program_name a +:+ newline +:+
  foldr (λ c t, "  " +:+ c.1 +:+ ": " +:+ description c.2 +:+ newline +:+ t) "" (entries (args a)).

(** One value: [std::get] throws on another alternative, [value()] without a value. *)
Definition report_value (c : @Arg F) : result string :=
  v ← or_throw (value c);
  match type c, v with
  | BOOL, VBOOL b => Done (if b then "true" else "false")
  | I64, VI64 z => Done (to_text z)
  | F64, VF64 x => Done (stream x)
  | STR, VSTR s => Done s
  | _, _ => Fault FThrow
  end.
Fixpoint report_values (l : list (string * @Arg F)) : result string :=
  match l with [] => Done "" | c :: l => v ← report_value c.2; t ← report_values l; Done (", " +:+ v +:+ t) end.

(** [ArgMap::report_config()] *)
Definition report_config (a : ArgMap) : result string :=
  t ← report_values (entries (args a));
  Done (program_name a +:+ " (" +:+ foldr (λ c t, flag c.2 +:+ " " +:+ t) "" (entries (args a)) +:+ ")" +:+ t).

Lemma entries_lookup m f c : (f, c) ∈ entries m → m !! f = Some c.
Proof.
  intros (g & _ & Hg)%list_elem_of_omap. apply fmap_Some in Hg as (c' & Hc & [= -> ->]). done.
Qed.

Lemma report_value_ok c : arg_ok c → is_Some (value c) → ∃ t, report_value c = Done t.
Proof.
  intros Hok [v Hv]. specialize (Hok v Hv). unfold report_value. rewrite Hv, <- Hok. destruct v; cbn; eauto.
Qed.

Lemma report_values_ok l : Forall (λ c : string * @Arg F, arg_ok c.2 ∧ is_Some (value c.2)) l → ∃ t, report_values l = Done t.
Proof.
  induction 1 as [|c l [Ho Hv] _ [t Ht]]; cbn; [eauto|]. destruct (report_value_ok _ Ho Hv) as [v Ev]. rewrite Ev, Ht. eauto.
Qed.

(** After a parse without error the configuration can be printed; without a value for
    some argument printing throws. *)
Theorem report_config_spec l prog argv (am am' : ArgMap) :
  Forall arg_ok l → import_args l ArgMap_new = (None, am) → parse_args stod prog argv am = Done (None, am') →
  ∃ t, report_config am' = Done t.
Proof.
  intros Hl Himp Hparse. unfold import_args in Himp. cbn in Himp.
  destruct (import_loop l ∅) as [e m] eqn:El. injection Himp as -> <-.
  destruct (import_loop_spec _ _ _ Hl (map_Forall_empty _) El) as (Hok & _ & _).
  unfold parse_args in Hparse. cbn in Hparse. apply bind_done_inv in Hparse as ([e' m'] & Hp & Hparse).
  apply done_pair in Hparse as [He <-]. destruct e'; [done|]. destruct (missing m') eqn:Hm; [done|].
  destruct (parse_loop_spec _ _ _ _ _ Hok Hp) as [Hok' _].
  destruct (report_values_ok (entries m')) as [t Ht].
  { apply Forall_forall. intros [f c] Hin. apply entries_lookup in Hin. split; [by apply (Hok' f)|by eapply missing_None]. }
  unfold report_config. cbn [args]. rewrite Ht. eauto.
Qed.
End config.
