(* ===== verification/ClientRun.v ===== *)
(** * A client from start to report (iht/role_client.h, [populate] of iht/iht_ds.h and iht/rpc.h)

    [Client::Run] has the table populated with random keys, drives the generated operations
    over it and returns the driver's report. The draws of the random number generators are
    sequences; the barriers, the sleeps and printing only delay. *)
From Stdlib Require Import Floats.SpecFloat.
From S2P Require Import Prelude Status Double MetricJson SummaryStats RemotePtr IhtRdma IhtSpec IhtExample IhtLocal IhtTable WorkloadDriver Experiment Report.
#[local] Open Scope Z_scope.

(** ** Population *)
Section populate.
Context {T : Type} (exec : @op Z → Z → T → result (T * option Z)) (value : Z → Z).

(** [int k = (dist(gen) * key_range) + key_lb], in [double]. *)
Definition random_key (d : double) (key_range key_lb : Z) : result Z :=
  to_int (d * of_int key_range + of_int key_lb)%D.

Fixpoint populate_loop (n : nat) (draws : nat → double) (i : nat) (key_range key_lb : Z) (t : T) : result T :=
  match n with
  | O => Done t
  | S n =>
      k ← random_key (draws i) key_range key_lb;
      '(t, _) ← exec (Insert (value k)) k t;
      populate_loop n draws (S i) key_range key_lb t
  end.

(** [populate(op_count, key_lb, key_ub, value)] of the one-sided table *)
Definition populate (draws : nat → double) (op_count key_lb key_ub : Z) (t : T) : result T :=
  key_range ← int_op (key_ub - key_lb);
  populate_loop (Z.to_nat op_count) draws 0 key_range key_lb t.

(** and of the partitioned one, whose inserts are remote calls. *)
Definition TwoSidedIHT_populate : (nat → double) → Z → Z → Z → T → result T := populate.
End populate.

(** ** [Client::Run] *)
Section run.
Context {T : Type} (exec : @op Z → Z → T → result (T * option Z)) (send_ok recv_ok : bool).
(** [MapAPI::prepare(op_count, key_lb, key_ub)] *)
Context (prepare : Z → Z → Z → T → result T).

(** How many keys one client inserts: the fraction of the key range, cut off. *)
Definition population (p : BenchmarkParams) (frac : double) : result Z :=
  key_range ← int_op (key_ub p - key_lb p);
  to_int (of_int key_range * frac)%D.

(** Up to the end of the driver's run, whose status is dropped. *)
Definition drive (tsc seconds : nat → Z) (ns : Z → Z) (fuel : nat) (p : BenchmarkParams)
    (draws : nat → Z * Z) (now : Z) (frac : double) (client : Client T)
    : result (@WorkloadDriver (Client T) IHT_Op nat) :=
  op_count ← population p frac;
  t ← prepare op_count (key_lb p) (key_ub p) (cl_map client);
  '(_, driver) ← Run tsc seconds ns (op_generator draws p) Start (Apply exec) (Stop send_ok recv_ok) fuel 10
      (WorkloadDriver_new (mkClient (cl_count client) t) (workload_stream p now));
  Done driver.

(** The result is always [Ok]. *)
Definition Client_Run (tsc seconds : nat → Z) (ns : Z → Z) (fuel : nat) (p : BenchmarkParams)
    (draws : nat → Z * Z) (now : Z) (frac : double) (client : Client T) : result (StatusVal WorkloadDriverResult) :=
  driver ← drive tsc seconds ns fuel p draws now frac client;
  r ← driver_ToMetrics ns fuel driver;
  Done (mkStatusVal StatusOk (Some r)).
End run.

(** ** What it does *)
Section proofs.
Context {T : Type} (exec : @op Z → Z → T → result (T * option Z)).
Context (abs : T → gmap Z Z → Prop) (room : @op Z → Z → gmap Z Z → Prop).
Context `{!TableLaws exec abs room}.

(** The calls of a population with the keys [ks], every value its key. *)
Definition inserts (ks : list Z) : list (@op Z * Z) := (λ k, (Insert k, k)) <$> ks.
Definition after (calls : list (@op Z * Z)) (M : gmap Z Z) : gmap Z Z :=
  foldl (λ M c, (spec_op c.1 c.2 M).1) M calls.

Lemma populate_loop_spec ks draws i key_range lb t M :
  (∀ j k, ks !! j = Some k → random_key (draws (i + j)%nat) key_range lb = Done k) →
  abs t M → table_rooms room M (inserts ks) →
  ∃ t', populate_loop exec (λ k, k) (length ks) draws i key_range lb t = Done t' ∧ abs t' (after (inserts ks) M).
Proof.
  revert i t M. induction ks as [|k ks IH]; intros i t M Hk Habs Hr; [by exists t|].
  destruct Hr as [Hroom Hr]. cbn [length populate_loop].
  pose proof (Hk 0%nat k eq_refl) as Hk0. rewrite Nat.add_0_r in Hk0. rewrite Hk0, bind_done.
  destruct (exec_spec _ _ _ _ Habs Hroom) as (t1 & -> & Habs1). rewrite bind_done.
  apply (IH (S i) t1 _); [|done|done]. intros j x Hj. rewrite Nat.add_succ_comm. by apply Hk.
Qed.

Lemma inserts_self_valued ks M : self_valued M → self_valued (after (inserts ks) M).
Proof.
  revert M. induction ks as [|k ks IH]; intros M HM; [done|].
  apply IH, self_valued_step; [done|]. by intros v [= <-].
Qed.

(** What a run needs of the parameters, of the random draws and of the table: a fixed number
    of operations, draws that lead to the keys [ks], and room for every insert of the
    population and of the run. *)
Record run_fits (p : BenchmarkParams) (fuel : nat) (frac : double) (kdraws : nat → double)
    (draws : nat → Z * Z) (ks : list Z) (M0 : gmap Z Z) : Prop := {
  rf_fixed : unlimited_stream p = false;
  rf_count : 0 ≤ op_count p < INT_MAX;
  rf_fuel : (Z.to_nat (op_count p) < fuel)%nat;
  rf_population : population p frac = Done (Z.of_nat (length ks));
  rf_keys : ∀ j k, ks !! j = Some k → random_key (kdraws j) (key_ub p - key_lb p) (key_lb p) = Done k;
  rf_inserts : table_rooms room M0 (inserts ks);
  rf_calls : table_rooms room (after (inserts ks) M0)
               (calls_of (generated (op_generator draws p) (Z.to_nat (op_count p)) O)) }.

(** The table after the population and the operations. *)
Definition run_map (p : BenchmarkParams) (draws : nat → Z * Z) (ks : list Z) (M0 : gmap Z Z) : gmap Z Z :=
  after (calls_of (generated (op_generator draws p) (Z.to_nat (op_count p)) O)) (after (inserts ks) M0).

Lemma drive_spec tsc seconds ns fuel p draws now frac (kdraws : nat → double) ks t0 M0 :
  run_fits p fuel frac kdraws draws ks M0 → abs t0 M0 → self_valued M0 →
  ∃ d', drive exec true true (populate exec (λ k, k) kdraws) tsc seconds ns fuel p draws now frac (mkClient 0 t0)
      = Done d' ∧
    abs (cl_map (client_ d')) (run_map p draws ks M0) ∧ counter_ (ops_ d') = op_count p.
Proof.
  intros [Hun Hn Hf Hpop Hk Hr Hr2] Habs HM. unfold drive. rewrite Hpop, bind_done.
  assert (∃ t1, populate exec (λ k, k) kdraws (Z.of_nat (length ks)) (key_lb p) (key_ub p) t0 = Done t1 ∧
    abs t1 (after (inserts ks) M0)) as (t1 & E1 & Habs1).
  { unfold populate. unfold population in Hpop. apply bind_done_inv in Hpop as (range & Hrange & _).
    apply int_op_done in Hrange as Hrange'. destruct Hrange' as [-> _]. rewrite Hrange, bind_done, Nat2Z.id.
    by apply populate_loop_spec. }
  cbn [cl_map cl_count]. rewrite E1, bind_done.
  destruct (experiment_runs exec true true abs room tsc seconds ns fuel 10 p draws now t1 (after (inserts ks) M0))
    as (d' & HR & Hc & _ & Ht); [done..|by apply inserts_self_valued|done|].
  exists d'. rewrite HR, bind_done. split; [done|]. split; [exact Ht|].
  destruct (Run_counter _ _ _ _ _ _ _ _ _ _ _ _ "total_ops" HR) as [_ Hu]; [split; [done|unfold is_u; cbn; lia]|].
  unfold u64 in Hc. by rewrite Z.mod_small in Hc.
Qed.

(** C26: a client from start to report, over any table that behaves as a finite map while it has
    room. [Client::Run] inserts the random keys of its share of the population, applies
    exactly [op_count] generated operations, in order, without a failed assertion, and leaves
    the table as these calls leave the map; and when the measured samples are numbers it
    returns [Ok] with a report whose records have the types of their tags and whose counter
    is [op_count]. *)
Theorem client_run_reports tsc seconds ns fuel p draws now frac (kdraws : nat → double) ks t0 M0 :
  run_fits p fuel frac kdraws draws ks M0 → abs t0 M0 → self_valued M0 → (1000 ≤ fuel)%nat →
  ∃ d', drive exec true true (populate exec (λ k, k) kdraws) tsc seconds ns fuel p draws now frac (mkClient 0 t0)
      = Done d' ∧
    abs (cl_map (client_ d')) (run_map p draws ks M0) ∧
    (Forall num (qps_samples d') → Forall num (lat_samples d') →
     Z.of_nat (length (qps_samples d')) < 2 ^ 63 → Z.of_nat (length (lat_samples d')) < 2 ^ 63 →
     ∃ r, Client_Run exec true true (populate exec (λ k, k) kdraws) tsc seconds ns fuel p draws now frac (mkClient 0 t0)
         = Done (mkStatusVal StatusOk (Some r)) ∧
       result_ok (λ _, True) r ∧ try_get_counter (ops r) = Done (Some (mkCounterMetric (op_count p)))).
Proof.
  intros Hfit Habs HM Hfuel.
  destruct (drive_spec tsc seconds ns fuel p draws now frac kdraws ks t0 M0 Hfit Habs HM) as (d' & Hd & Ht & Hc).
  exists d'. split; [exact Hd|]. split; [exact Ht|]. intros Hq Hl Hql Hll.
  pose proof (rf_count _ _ _ _ _ _ _ Hfit) as Hn.
  destruct (driver_result ns (λ _, True) fuel d') as (r & Hr & (Eops & _) & Hok);
    [done..|rewrite Hc; unfold is_u, INT_MAX in *; lia|by repeat constructor|].
  exists r. rewrite Hc in Eops. unfold Client_Run. rewrite Hd, bind_done, Hr, Eops. done.
Qed.
End proofs.

(** ** A client of the one-sided table *)
Definition ex_params : BenchmarkParams := mkParams 0 10 false 12 22 1 1 30 30 40 30 0 40 2.
Definition ex_kdraws (i : nat) : double := lit (Z.of_nat i * 25 + 5) 2.
Definition ex_keys : list Z := [2; 12; 22; 32].

(** The root of the table that [InitAsFirst] makes on an empty pool. *)
Definition iht_root : remote_ptr := (InitAsFirst 4 next_block (∅ : gmap remote_ptr (@obj Z Z))).1.
Definition iht_empty : gmap remote_ptr (@obj Z Z) * IhtRdma.caches :=
  ((InitAsFirst 4 next_block ∅).2, mkCaches [replicate 1 None; replicate 4 None; replicate 32 None]).
Definition iht_exec := RdmaIHT_exec (λ x : Z, u64 x) 2 4 2 0 next_block (raw_zz 2) iht_root 41.

Lemma ex_fits :
  run_fits (room (λ x : Z, u64 x) 2 4) ex_params 1000 (lit 1 1) ex_kdraws small_draws ex_keys ∅.
Proof.
  split.
  - reflexivity.
  - unfold INT_MAX. cbn. lia.
  - cbn. lia.
  - vm_compute. reflexivity.
  - intros [|[|[|[|j]]]] k; cbn; [intros [= <-]; vm_compute; reflexivity..|done].
  - vm_compute. repeat split; intros; lia.
  - vm_compute. repeat split; intros; lia.
Qed.

(** The clock advances 20 ms between readings, so that every operation is sampled. *)
Definition ex_tsc (i : nat) : Z := Z.of_nat i * 20000000.
Definition ex_drive :=
  drive iht_exec true true (populate iht_exec (λ k, k) ex_kdraws) ex_tsc Z.of_nat (λ x, x) 1000 ex_params small_draws 0
    (lit 1 1) (mkClient 0 iht_empty).

#[local] Instance num_dec x : Decision (num x).
Proof. unfold num. apply _. Defined.

Definition samples_fine (d : @WorkloadDriver (Client (gmap remote_ptr (@obj Z Z) * IhtRdma.caches)) IHT_Op nat) : bool :=
  bool_decide (Forall num (qps_samples d)) && bool_decide (Forall num (lat_samples d)) &&
  (length (qps_samples d) =? 12)%nat && (length (lat_samples d) =? 12)%nat.

Lemma ex_samples_fine : match ex_drive with Done d => samples_fine d | Fault _ => false end = true.
Proof. vm_compute. reflexivity. Qed.

Lemma ex_samples d : ex_drive = Done d →
  Forall num (qps_samples d) ∧ Forall num (lat_samples d) ∧
  length (qps_samples d) = 12%nat ∧ length (lat_samples d) = 12%nat.
Proof.
  intros Hd. pose proof ex_samples_fine as Hs. rewrite Hd in Hs. unfold samples_fine in Hs.
  rewrite !andb_true_iff, !bool_decide_eq_true, !Nat.eqb_eq in Hs. tauto.
Qed.

#[export] Instance iht_laws : TableLaws iht_exec (RdmaIHT_abs (λ x : Z, u64 x) 2 4 iht_root) (room (λ x : Z, u64 x) 2 4).
Proof. exact (RdmaIHT_laws (λ x : Z, u64 x) 2 4 2 0 next_block (raw_zz 2) iht_root 41 (le_n 2) (le_n 41)). Qed.

Lemma iht_empty_abs : RdmaIHT_abs (λ x : Z, u64 x) 2 4 iht_root iht_empty ∅.
Proof. apply RdmaIHT_abs_new; reflexivity. Qed.

Lemma client_run_reports_witness :
  ∃ r, Client_Run iht_exec true true (populate iht_exec (λ k, k) ex_kdraws) ex_tsc Z.of_nat (λ x, x) 1000 ex_params
      small_draws 0 (lit 1 1) (mkClient 0 iht_empty) = Done (mkStatusVal StatusOk (Some r)) ∧
    try_get_counter (ops r) = Done (Some (mkCounterMetric 12)).
Proof.
  destruct (client_run_reports iht_exec (RdmaIHT_abs (λ x : Z, u64 x) 2 4 iht_root) (room (λ x : Z, u64 x) 2 4)
    ex_tsc Z.of_nat (λ x, x) 1000 ex_params small_draws 0 (lit 1 1) ex_kdraws ex_keys iht_empty ∅
    ex_fits iht_empty_abs (map_Forall_empty _) ltac:(lia)) as (d & Hd & _ & Hr).
  destruct (ex_samples d Hd) as (Hq & Hl & Hql & Hll).
  destruct (Hr Hq Hl) as (r & HR & _ & Hget); [rewrite Hql; lia|rewrite Hll; lia|].
  exists r. split; [exact HR|exact Hget].
Defined.
