(* ===== verification/RandomKeys.v ===== *)
(** * The keys of a population (iht/iht_ds.h, iht/rpc.h)

    [populate] scales a random double to a key. Its product and sum are rounded, and the key
    still lies in the range of the table, so that on a partitioned table it has a node. *)
From Stdlib Require Import Floats.SpecFloat.
From S2P Require Import Prelude ATree Double DoubleRound IhtRdma IhtSpec IhtLocal Rpc Experiment ClientRun.
Local Open Scope Z_scope.

(** What [std::uniform_real_distribution<double>(0.0, 1.0)] returns. *)
Record unit_draw (d : double) : Prop := {
  ud_num : num d;
  ud_low : dltb d (of_int 0) = false;
  ud_high : dltb d (of_int 1) = true }.

Lemma num_good d : num d → is_finite d = true → good d.
Proof. intros [_ Hv] Hf. destruct d; try done. apply bounded_facts in Hv as [? _]. unfold good. lia. Qed.

Lemma unit_draw_good d : unit_draw d → good d ∧ 0 ≤ dpos d ≤ 2 ^ 1074.
Proof.
  intros [Hn Hlo Hhi]. assert (num (of_int 0) ∧ num (of_int 1)) as [H0 H1] by (vm_compute; done).
  rewrite dltb_dpos in Hlo, Hhi by done. apply Z.ltb_ge in Hlo. apply Z.ltb_lt in Hhi.
  assert (dpos (of_int 0) = 0 ∧ dpos (of_int 1) = 2 ^ 1074) as [E0 E1] by (vm_compute; done). rewrite E0 in Hlo. rewrite E1 in Hhi.
  split; [|lia]. apply num_good; [done|]. destruct d as [| [|] | |]; [done|by vm_compute in Hlo|by vm_compute in Hhi|by destruct Hn|done].
Qed.

(** For every draw between zero and one and every range of [int]s whose length is an [int], the
    computation of a key has no undefined conversion and its result is at least the lower bound
    and at most the upper bound, whatever the roundings are. *)
Lemma random_key_in_range d lb ub :
  unit_draw d → INT_MIN ≤ lb ≤ ub → ub ≤ INT_MAX → ub - lb ≤ INT_MAX →
  ∃ k, random_key d (ub - lb) lb = Done k ∧ lb ≤ k ≤ ub.
Proof.
  intros Hd Hlb Hub Hr. destruct (unit_draw_good d Hd) as [Hg Hd1]. unfold INT_MIN, INT_MAX in *.
  destruct (of_int_good (ub - lb)) as [Hgr Er]; [lia|]. destruct (of_int_good lb) as [Hgl El]; [lia|].
  destruct (dmul_fraction d (of_int (ub - lb)) (ub - lb) Hg Hgr Hd1 Er ltac:(lia)) as [Hgp Hp].
  destruct (dadd_between (d * of_int (ub - lb))%D (of_int lb) lb ub Hgp Hgl) as [Hgs Hs]; [lia|lia|rewrite El; lia|].
  destruct (truncate_between _ lb ub Hgs Hs) as (k & Ek & Hk). exists k. split; [|done].
  unfold random_key, to_int. rewrite Ek, defined_Some, bind_done. apply int_op_done. split; [done|]. unfold INT_MIN, INT_MAX. lia.
Qed.

(** ** A population of the partitioned table *)
(** The calls of [TwoSidedIHT] find the node of the key before anything else. *)
Definition routed {T} (c : conf) (call : Z → @op Z → Z → T → result (T * option Z)) (o : @op Z) (key : Z) (t : T)
    : result (T * option Z) :=
  target_id ← to_id c key; call target_id o key t.

Section populate.
Context {T : Type} (exec : @op Z → Z → T → result (T * option Z)) (value : Z → Z) (draws : nat → double) (lb ub : Z).
Context (Hdraws : ∀ i, unit_draw (draws i)) (Hlb : INT_MIN ≤ lb ≤ ub) (Hub : ub ≤ INT_MAX) (Hr : ub - lb ≤ INT_MAX).

Lemma populate_loop_returns (P : T → Prop) n i t :
  (∀ k t, P t → lb ≤ k ≤ ub → ∃ t' r, exec (Insert (value k)) k t = Done (t', r) ∧ P t') → P t →
  ∃ t', populate_loop exec value n draws i (ub - lb) lb t = Done t' ∧ P t'.
Proof.
  intros Hex. revert i t. induction n as [|n IH]; intros i t Ht; [by exists t|]. cbn [populate_loop].
  destruct (random_key_in_range (draws i) lb ub (Hdraws i) Hlb Hub Hr) as (k & -> & Hk). rewrite bind_done.
  destruct (Hex k t Ht Hk) as (t1 & r & -> & Ht1). rewrite bind_done. by apply IH.
Qed.
End populate.


(** Three nodes with a table each, and a draw that is as close to one as can be. *)
Definition ex_draw : double := S754_finite false (2 ^ 53 - 1) (-53).
Definition ex_call (id : Z) (o : @op Z) (key : Z) (t : list (Z * Z)) : result (list (Z * Z) * option Z) := Done ((id, key) :: t, None).

