(* ===== verification/Benchmark.v ===== *)
(** * The benchmark with all its clients at once (iht/role_client.h over iht/iht_ds.h)

    Every node runs client threads that apply generated operations to the one table and assert
    that a value they get is the key they asked for. Here [Client::Apply] is cut into its
    call, the remote accesses of the table and its assertion, and the accesses of all clients
    interleave. *)
From S2P Require Import Prelude RemotePtr IhtRdma IhtElist IhtInv IhtExample IhtRehash IhtCache IhtSpec IhtConc IhtAtomic IhtView IhtCrit IhtLin IhtLive Experiment.

(** ** Keys and answers in a history *)
Section history.
Implicit Types (M : gmap Z Z) (x : @status Z Z) (keys : list (option Z)) (e : @event Z Z) (o : @op Z).

Definition self_insert o (key : Z) : Prop := ∀ v, o = Insert v → v = key.
Definition answer_fits (key : Z) (r : option Z) : Prop := ∀ v, r = Some v → v = key.

(** The key each client is asking for, and how the events change it. *)
Definition track keys e : list (option Z) :=
  match e with ECall j _ key => <[j := Some key]> keys | ERet j _ => <[j := None]> keys end.
Definition event_fits keys e : Prop :=
  match e with ECall _ _ _ => True | ERet j r => ∃ key, keys !! j = Some (Some key) ∧ answer_fits key r end.
Fixpoint answers_fit keys (l : list (@event Z Z)) : Prop :=
  match l with [] => True | e :: l => event_fits keys e ∧ answers_fit (track keys e) l end.

Definition status_fits (key : option Z) x : Prop :=
  match x with
  | AIdle => key = None
  | ACalled o k | ASeen o k => key = Some k ∧ self_insert o k
  | AAnswered r => ∃ k, key = Some k ∧ answer_fits k r
  end.
Definition history_ok keys (t : gmap Z Z * list (@status Z Z)) : Prop :=
  self_valued t.1 ∧ Forall2 status_fits keys t.2.
Definition calls_fit (l : list (@event Z Z)) : Prop := ∀ j o key, ECall j o key ∈ l → self_insert o key.

Lemma calls_fit_nil : calls_fit [].
Proof. intros j o key Hin. by apply elem_of_nil in Hin. Qed.
Lemma calls_fit_ret j r : calls_fit [ERet j r].
Proof. by intros i o key Hin%list_elem_of_singleton. Qed.
Lemma calls_fit_call j o key : self_insert o key → calls_fit [ECall j o key].
Proof. by intros Ho i o' key' [= -> -> ->]%list_elem_of_singleton. Qed.

Lemma spec_answer M o key : self_valued M → answer_fits key (spec_op o key M).2.
Proof. intros HM v Hv. assert (M !! key = Some v) as E by (by destruct o). exact (HM _ _ E). Qed.

Lemma fits_at keys st j x : Forall2 status_fits keys st → st !! j = Some x → ∃ key, keys !! j = Some key ∧ status_fits key x.
Proof. intros Hall Hx. destruct (Forall2_lookup_r _ _ _ _ _ Hall Hx) as (key & ? & ?). by exists key. Qed.

Lemma fits_set keys st j key x : Forall2 status_fits keys st → keys !! j = Some key → status_fits key x →
  Forall2 status_fits keys (<[j := x]> st).
Proof. intros Hall Hk Hx. rewrite <- (list_insert_id keys j key Hk). by apply Forall2_insert. Qed.

Lemma silent_fits M st j o key keys : self_valued M → Forall2 status_fits keys st →
  (∃ k, keys !! j = Some k ∧ k = Some key ∧ self_insert o key) →
  history_ok keys ((spec_op o key M).1, <[j := AAnswered (spec_op o key M).2]> st).
Proof.
  intros HM Hall (k & Hk & -> & Ho). split; [by apply self_valued_step|].
  eapply fits_set; [done..|]. exists key. split; [done|]. by apply spec_answer.
Qed.

Lemma peek_fits keys t l t' : history_ok keys t → calls_fit l → peek_step t l t' →
  history_ok (foldl track keys l) t' ∧ answers_fit keys l.
Proof.
  intros [HM Hall] Hc Hs. destruct Hs as [c l c' [M st j o key Hj|M st j o key Hj|M st j r Hj]
    |M st j o key Hj Ho HMk|M st j o key Hj|M st j o key Hj]; cbn in *; destruct (fits_at _ _ _ _ Hall Hj) as (k & Hk & Hfit); cbn in Hfit.
  - split; [|done]. split; [done|]. apply Forall2_insert; [done|]. cbn. split; [done|]. apply (Hc j). by apply list_elem_of_singleton.
  - split; [|done]. apply silent_fits; eauto.
  - split; [|by destruct Hfit as (key & -> & Hr); split; [exists key|]]. split; [done|]. by apply Forall2_insert.
  - split; [|done]. split; [done|]. by eapply fits_set.
  - split; [|done]. apply silent_fits; eauto.
  - split; [|done]. split; [done|]. eapply fits_set; [done..|]. exists key. destruct Hfit. by split.
Qed.

Lemma answers_app keys l1 l2 : answers_fit keys (l1 ++ l2) ↔ answers_fit keys l1 ∧ answers_fit (foldl track keys l1) l2.
Proof. revert keys. induction l1 as [|e l1 IH]; intros keys; cbn; [tauto|]. rewrite IH. tauto. Qed.

(** In a history of the atomic map whose insertions are of keys as their own values, so are the
    answers. *)
Lemma history_fits keys t l t' : history_ok keys t → calls_fit l → traces peek_step t l t' →
  history_ok (foldl track keys l) t' ∧ answers_fit keys l.
Proof.
  intros Hok Hc Htr. revert keys Hok Hc. induction Htr as [t|t1 l t2 tr t3 Hs _ IH]; intros keys Hok Hc; [by split|].
  assert (calls_fit l ∧ calls_fit tr) as [Hc1 Hc2] by (split; intros j o key Hin; apply (Hc j); set_solver).
  destruct (peek_fits _ _ _ _ Hok Hc1 Hs) as [Hok1 Ha1]. destruct (IH _ Hok1 Hc2) as [Hok2 Ha2].
  rewrite foldl_app. split; [done|]. by apply answers_app.
Qed.
End history.

Section bench.
Context (to_num : Z → Z) (ELIST_SIZE PLIST_SIZE cache_depth_ : nat) (self_id : Z).
Context (palloc : gmap remote_ptr (@obj Z Z) → remote_ptr) (raw_elist : @EList Z Z).
Context `{!Geometry ELIST_SIZE PLIST_SIZE} `{!PoolLaws ELIST_SIZE palloc raw_elist}.
Abbreviation memory := (gmap remote_ptr (@obj Z Z)).
Abbreviation client := (@IhtRdma.client Z Z).
Abbreviation sys := (memory * list client)%type.
Abbreviation client_step := (client_step to_num ELIST_SIZE PLIST_SIZE cache_depth_ self_id palloc raw_elist).
Abbreviation calm := (calm to_num ELIST_SIZE PLIST_SIZE cache_depth_ self_id palloc raw_elist).
Abbreviation lin_ok := (lin_ok to_num ELIST_SIZE PLIST_SIZE).
Implicit Types (m : memory) (ks : list client) (k : client) (j : nat) (o : IHT_Op) (os : list IHT_Op).

(** ** The clients *)
(** A client's operations still to come, the key of the one it is in, and [count]. *)
Record bench := mkBench { b_todo : list IHT_Op; b_key : option Z; b_count : Z }.
Abbreviation state := (sys * list bench)%type.

(** The assertion of [Apply] on the outcome. *)
Definition Apply_check (key : Z) (r : option Z) : result unit :=
  rome_assert (match r with Some v => v =? key | None => true end).

(** A client calls, makes one access of its call, or returns; [None] is a program that has
    stopped: on an assertion, an unknown operation, an overflow or a fault in the table. *)
Inductive bench_step : state → option state → Prop :=
| bs_call m ks bs j k b o os mo n :
    ks !! j = Some k → k_pc k = PDone → bs !! j = Some b → b_todo b = o :: os → b_key b = None →
    int_op (b_count b + 1) = Done n → map_op o = Some mo →
    bench_step (m, ks, bs) (Some (m, <[j := call PLIST_SIZE (k_root k) (k_caches k) (op_key o) mo]> ks,
                                  <[j := mkBench os (Some (op_key o)) n]> bs))
| bs_call_stops m ks bs j k b o os :
    ks !! j = Some k → k_pc k = PDone → bs !! j = Some b → b_todo b = o :: os → b_key b = None →
    (∃ f, int_op (b_count b + 1) = Fault f) ∨ map_op o = None → bench_step (m, ks, bs) None
| bs_access m ks bs j k m' k' :
    ks !! j = Some k → k_pc k ≠ PDone → client_step m k = Done (m', k') → k_pc k' ≠ PDone →
    bench_step (m, ks, bs) (Some (m', <[j := k']> ks, bs))
| bs_faults m ks bs j k f :
    ks !! j = Some k → k_pc k ≠ PDone → client_step m k = Fault f → bench_step (m, ks, bs) None
| bs_return m ks bs j k m' k' b key u :
    ks !! j = Some k → k_pc k ≠ PDone → client_step m k = Done (m', k') → k_pc k' = PDone →
    bs !! j = Some b → b_key b = Some key → Apply_check key (k_result k') = Done u →
    bench_step (m, ks, bs) (Some (m', <[j := k']> ks, <[j := mkBench (b_todo b) None (b_count b)]> bs))
| bs_return_stops m ks bs j k m' k' b key f :
    ks !! j = Some k → k_pc k ≠ PDone → client_step m k = Done (m', k') → k_pc k' = PDone →
    bs !! j = Some b → b_key b = Some key → Apply_check key (k_result k') = Fault f →
    bench_step (m, ks, bs) None.

(** A step from a state without a stale insertion. *)
Definition bench_run (s s' : option state) : Prop := ∃ x, s = Some x ∧ unstale x.1 ∧ bench_step x s'.

(** ** Nothing stops the program *)
Context (root : remote_ptr) (U : gset Z) (Hcd : (cache_depth_ ≤ 2)%nat) (HU : spread to_num ELIST_SIZE PLIST_SIZE U).

(** What is still to do fits, and [count] is what has been begun. *)
Definition bench_ok (os : list IHT_Op) (b : bench) : Prop :=
  Forall (λ o, op_ok o ∧ op_key o ∈ U) (b_todo b) ∧ 0 ≤ b_count b ∧
  b_count b + Z.of_nat (length (b_todo b)) = Z.of_nat (length os) ∧ Z.of_nat (length os) ≤ INT_MAX.

Record state_ok (works : list (list IHT_Op)) (s : state) : Prop := {
  st_lin : ∃ t, lin_ok root U s.1 t ∧ history_ok (b_key <$> s.2) t;
  st_bench : Forall2 bench_ok works s.2 }.

(** A step of the benchmark as one of the history. *)
Lemma state_ok_history works s s1 bs' l : state_ok works s → calm U s.1 l s1 → calls_fit l →
  b_key <$> bs' = foldl track (b_key <$> s.2) l → Forall2 bench_ok works bs' → state_ok works (s1, bs').
Proof.
  intros [(t & Hlin & Hh) _] Hs Hc Hk Hb. split; [|done].
  destruct (calm_step_ok to_num ELIST_SIZE PLIST_SIZE cache_depth_ self_id palloc raw_elist root U _ _ _ _ Hcd HU Hlin Hs)
    as (t' & Htr & Hlin'). exists t'. split; [done|]. cbn. rewrite Hk. by apply (history_fits _ _ _ _ Hh Hc Htr).
Qed.

(** A call that returns answers the client's key. *)
Lemma return_fits works m ks bs j k m' k' : state_ok works (m, ks, bs) → unstale (m, ks) →
  ks !! j = Some k → k_pc k ≠ PDone → client_step m k = Done (m', k') → k_pc k' = PDone →
  calm U (m, ks) [ERet j (k_result k')] (m', <[j := k']> ks) ∧
  ∃ b key, bs !! j = Some b ∧ b_key b = Some key ∧ answer_fits key (k_result k').
Proof.
  intros [(t & Hlin & Hh) _] Hun Hk Hnd Hs Hd. cbn in Hlin, Hh.
  assert (calm U (m, ks) [ERet j (k_result k')] (m', <[j := k']> ks)) as Hcalm.
  { assert (step_event j k' = [ERet j (k_result k')]) as <- by (unfold step_event; by rewrite Hd).
    split; [by eapply hist_move|]. split; [done|]. intros i o key Hin. unfold step_event in Hin. rewrite Hd in Hin.
    by apply list_elem_of_singleton in Hin. }
  split; [done|].
  destruct (calm_step_ok to_num ELIST_SIZE PLIST_SIZE cache_depth_ self_id palloc raw_elist root U _ _ _ _ Hcd HU Hlin Hcalm)
    as (t' & Htr & _).
  destruct (history_fits _ _ _ _ Hh (calls_fit_ret _ _) Htr) as [_ [(key & Hkey & Hr) _]].
  apply list_lookup_fmap_Some in Hkey as (b & Hb & Hbs). by exists b, key.
Qed.

Lemma bench_at works s j b : state_ok works s → s.2 !! j = Some b → ∃ os, works !! j = Some os ∧ bench_ok os b.
Proof. intros [_ Hall] Hb. destruct (Forall2_lookup_r _ _ _ _ _ Hall Hb) as (os & ? & ?). by exists os. Qed.

Lemma bench_set works s j os b : state_ok works s → works !! j = Some os → bench_ok os b → Forall2 bench_ok works (<[j := b]> s.2).
Proof. intros [_ Hall] Hj Hb. rewrite <- (list_insert_id works j os Hj). by apply Forall2_insert. Qed.

(** The next operation is one [Apply] knows, and [count] has room for it. *)
Lemma call_fits os b o rest : bench_ok os b → b_todo b = o :: rest →
  op_key o ∈ U ∧ (∃ mo, map_op o = Some mo ∧ self_insert mo (op_key o)) ∧
  int_op (b_count b + 1) = Done (b_count b + 1) ∧ ∀ key, bench_ok os (mkBench rest key (b_count b + 1)).
Proof.
  intros (Hall & H0 & Hlen & Hmax) E. rewrite E in Hall, Hlen. apply Forall_cons in Hall as [[Hop HoU] Hall]. cbn in Hlen.
  split; [done|]. split; [done|]. split; [apply int_op_done; split; [done|unfold INT_MIN; lia]|].
  intros key. split; [done|]. cbn. lia.
Qed.

Lemma Apply_check_done key r : Apply_check key r = Done () ↔ answer_fits key r.
Proof.
  unfold Apply_check, answer_fits. destruct r as [v|]; cbn; [|by split].
  destruct (Z.eqb_spec v key) as [->|Hne]; cbn; [split; [by intros _ ? [= ->]|done]|].
  split; [done|]. intros Ha. by destruct Hne; apply Ha.
Qed.

(** Every step of the benchmark keeps the invariant and none stops the program. *)
Lemma bench_step_ok works s s' : state_ok works s → unstale s.1 → bench_step s s' → ∃ y, s' = Some y ∧ state_ok works y.
Proof.
  intros Hok Hun Hs. destruct Hs as [m ks bs j k b o os mo n Hk Hd Hb Hto Hkey Hn Hmo|m ks bs j k b o os Hk Hd Hb Hto Hkey Hbad
    |m ks bs j k m' k' Hk Hnd Hs Hnd'|m ks bs j k f Hk Hnd Hs|m ks bs j k m' k' b key u Hk Hnd Hs Hd Hb Hkey Hch
    |m ks bs j k m' k' b key f Hk Hnd Hs Hd Hb Hkey Hch]; cbn in *.
  - destruct (bench_at _ _ _ _ Hok Hb) as (os0 & Hos & Hbok). destruct (call_fits _ _ _ _ Hbok Hto) as (HoU & (mo' & Hmo' & Hself) & Hn' & Hnext).
    rewrite Hmo in Hmo'. injection Hmo' as <-. rewrite Hn in Hn'. injection Hn' as ->. eexists. split; [done|].
    apply (state_ok_history works (m, ks, bs) _ _ [ECall j mo (op_key o)] Hok).
    + split; [by apply hist_call|]. split; [done|]. by intros i o' key [= -> -> ->]%list_elem_of_singleton.
    + by apply calls_fit_call.
    + cbn. by rewrite list_fmap_insert.
    + by apply (bench_set works (m, ks, bs) j os0).
  - exfalso. destruct (bench_at _ _ _ _ Hok Hb) as (os0 & _ & Hbok). destruct (call_fits _ _ _ _ Hbok Hto) as (_ & (mo & Hmo & _) & Hn & _).
    destruct Hbad as [[f Hf]|Hf]; congruence.
  - eexists. split; [done|]. apply (state_ok_history works (m, ks, bs) _ _ [] Hok); [| |done|apply Hok].
    + assert (step_event j k' = []) as <- by (unfold step_event; by destruct (k_pc k')).
      split; [by eapply hist_move|]. split; [done|]. intros i o key Hin. unfold step_event in Hin.
      destruct (k_pc k'); (by apply elem_of_nil in Hin) || by apply list_elem_of_singleton in Hin.
    + apply calls_fit_nil.
  - exfalso. destruct Hok as [(t & Hlin & _) _].
    destruct (step_on to_num ELIST_SIZE PLIST_SIZE cache_depth_ self_id palloc raw_elist root U Hcd HU (m, ks) j k)
      as (m' & k' & Hs' & _); [by split; [|exists t]|done|done|]. cbn in Hs'. congruence.
  - destruct (return_fits works m ks bs j k m' k' Hok Hun Hk Hnd Hs Hd) as (Hcalm & _).
    destruct (bench_at _ _ _ _ Hok Hb) as (os0 & Hos & Hbok). eexists. split; [done|].
    apply (state_ok_history works (m, ks, bs) _ _ _ Hok Hcalm).
    + apply calls_fit_ret.
    + cbn. by rewrite list_fmap_insert.
    + by apply (bench_set works (m, ks, bs) j os0).
  - exfalso. destruct (return_fits works m ks bs j k m' k' Hok Hun Hk Hnd Hs Hd) as (_ & b' & key' & Hb' & Hkey' & Hfit).
    rewrite Hb in Hb'. injection Hb' as <-. rewrite Hkey in Hkey'. injection Hkey' as <-.
    apply Apply_check_done in Hfit. congruence.
Qed.

(** A table at rest with its clients. *)
Lemma state_ok_new m ca key0 M works : iht_inv to_num ELIST_SIZE PLIST_SIZE m root → iht_abs ELIST_SIZE m root M →
  caches_ok PLIST_SIZE m root ca → dom M ⊆ U → self_valued M →
  Forall (λ os, Forall (λ o, op_ok o ∧ op_key o ∈ U) os ∧ Z.of_nat (length os) ≤ INT_MAX) works →
  state_ok works (m, replicate (length works) (idle PLIST_SIZE root ca key0), (λ os, mkBench os None 0) <$> works).
Proof.
  intros Hinv Habs Hca HM Hself Hworks. split.
  - exists (M, replicate (length works) AIdle). split.
    + assert (∀ i k, replicate (length works) (idle PLIST_SIZE root ca key0 : client) !! i = Some k → k = idle PLIST_SIZE root ca key0)
        as Hk0 by by intros i k [-> _]%lookup_replicate.
      split; cbn; [|done|].
      * split; cbn; [intros i k a h ->%Hk0 [[?|[? ?]] _]|intros i i' k k' a h ->%Hk0 _ [[?|[? ?]] _]]; done.
      * exists m. split; [done|]. split; [done|]. split; [apply view_refl|]. apply Forall2_replicate. by split.
    + split; [done|]. cbn. apply Forall2_same_length_lookup_2; [by rewrite !length_fmap, length_replicate|].
      intros i key x Hkey Hx. apply lookup_replicate in Hx as [-> _]. apply list_lookup_fmap_Some in Hkey as (b & -> & Hb).
      by apply list_lookup_fmap_Some in Hb as (os & -> & _).
  - cbn. apply Forall2_fmap_r, Forall_Forall2_diag. eapply Forall_impl; [done|]. intros os [Hall Hlen].
    split; [done|]. cbn. lia.
Qed.

(** C5: the benchmark over the one-sided table. Clients with caches of at most two layers apply
    their lists of generated operations, of at most [INT_MAX] each, to one table that holds
    keys as their own values, over keys of which no more than fit into one bucket agree on the
    hashes of all levels; however their accesses interleave, as long as no insertion is about to
    act on a stale null base pointer, the program does not stop:
    no assertion of [Apply] on an outcome fails, no access faults, no counter overflows. Each
    client's [count] is the number of operations it has begun, and once all lists are done the
    table represents a map of keys to themselves. *)
Theorem benchmark_runs m ca key0 M works s :
  iht_inv to_num ELIST_SIZE PLIST_SIZE m root → iht_abs ELIST_SIZE m root M → caches_ok PLIST_SIZE m root ca →
  dom M ⊆ U → self_valued M →
  Forall (λ os, Forall (λ o, op_ok o ∧ op_key o ∈ U) os ∧ Z.of_nat (length os) ≤ INT_MAX) works →
  star bench_run (Some (m, replicate (length works) (idle PLIST_SIZE root ca key0), (λ os, mkBench os None 0) <$> works)) s →
  ∃ m' ks bs, s = Some (m', ks, bs) ∧
    Forall2 (λ os b, b_count b + Z.of_nat (length (b_todo b)) = Z.of_nat (length os)) works bs ∧
    (Forall (λ b, b_todo b = [] ∧ b_key b = None) bs →
     ∃ M', iht_inv to_num ELIST_SIZE PLIST_SIZE m' root ∧ iht_abs ELIST_SIZE m' root M' ∧ self_valued M').
Proof.
  intros Hinv Habs Hca HM Hself Hworks Hst.
  assert (∃ x, s = Some x ∧ state_ok works x) as ([[m' ks] bs] & -> & [(t & Hlin & [HM' Hh]) Hb]).
  { eapply (star_invariant bench_run (λ s, ∃ x, s = Some x ∧ state_ok works x)); [| |exact Hst].
    - intros s1 s2 (x & -> & Hok) (y & [= <-] & Hun & Hs). by eapply bench_step_ok.
    - eexists. split; [done|]. by eapply state_ok_new. }
  exists m', ks, bs. split; [done|]. split; [eapply Forall2_impl; [exact Hb|]; by intros os b (_ & _ & ? & _)|].
  intros Hdone. destruct t as [M' st]. destruct Hlin as [_ _ (g & Hinv' & Habs' & Hv & Hall)]. cbn in *.
  assert (∀ j k, ks !! j = Some k → k_pc k = PDone) as Hquiet.
  { intros j k Hk. destruct (Forall2_lookup_l _ _ _ _ _ Hall Hk) as (x & Hx & _ & _ & Hpc).
    destruct (fits_at _ _ _ _ Hh Hx) as (key & Hkey & Hfit). apply list_lookup_fmap_Some in Hkey as (b & -> & Hbj).
    destruct (Forall_lookup_1 _ _ _ _ Hdone Hbj) as [_ E]. rewrite E in Hfit.
    assert (x = AIdle) as -> by (destruct x; [done|by destruct Hfit..|by destruct Hfit as (? & ? & _)]).
    assert (¬ pending k AIdle) as Hno by by intros [?|?].
    destruct (k_pc k) as [| | | | |w|]; [..|done]; exfalso; [by destruct Hpc as (_ & ? & _)|by destruct Hpc as (_ & ? & _)..|].
    destruct Hpc as [_ Hpc]. by destruct (w =? E_UNLOCKED); [|destruct Hpc as (_ & _ & ? & _)]. }
  rewrite (view_quiet _ _ _ Hquiet Hv) in *. by exists M'.
Qed.

(** ** Executable runs *)
(** Client [j] takes its next step, if the program does not stop. *)
Definition bench_act (j : nat) (s : state) : option state :=
  let '(m, ks, bs) := s in
  if existsb (stale_insertb m) ks then None else
  k ← ks !! j; b ← bs !! j;
  if is_done k then
    match b_todo b, b_key b, int_op (b_count b + 1) with
    | o :: os, None, Done n =>
        mo ← map_op o;
        Some (m, <[j := call PLIST_SIZE (k_root k) (k_caches k) (op_key o) mo]> ks, <[j := mkBench os (Some (op_key o)) n]> bs)
    | _, _, _ => None
    end
  else
    match client_step m k with
    | Done (m', k') =>
        if is_done k' then
          key ← b_key b;
          match Apply_check key (k_result k') with
          | Done _ => Some (m', <[j := k']> ks, <[j := mkBench (b_todo b) None (b_count b)]> bs)
          | Fault _ => None
          end
        else Some (m', <[j := k']> ks, bs)
    | Fault _ => None
    end.
Definition bench_sched (js : list nat) (s : state) : option state := foldl (λ s j, s ≫= bench_act j) (Some s) js.

Lemma is_done_true k : is_done k = true ↔ k_pc k = PDone.
Proof. unfold is_done. by destruct (k_pc k). Qed.

Lemma bench_act_run j s s' : bench_act j s = Some s' → bench_run (Some s) (Some s').
Proof.
  destruct s as [[m ks] bs]. unfold bench_act. destruct (existsb _ _) eqn:Ex; [done|]. intros Ha.
  exists (m, ks, bs). split; [done|]. split.
  { by apply unstale_check. }
  destruct (ks !! j) as [k|] eqn:Hk; [|done]. destruct (bs !! j) as [b|] eqn:Hb; [|done]. cbn in Ha.
  destruct (is_done k) eqn:Hd.
  - apply is_done_true in Hd. destruct (b_todo b) as [|o os] eqn:Hto; [done|]. destruct (b_key b) eqn:Hkey; [done|].
    destruct (int_op _) as [n|] eqn:Hn; [|done]. destruct (map_op o) as [mo|] eqn:Hmo; [|done]. injection Ha as <-.
    by eapply bs_call.
  - assert (k_pc k ≠ PDone) as Hnd by (intros E; apply is_done_true in E; congruence).
    destruct (client_step m k) as [[m' k']|] eqn:Hs; [|done]. destruct (is_done k') eqn:Hd'.
    + apply is_done_true in Hd'. destruct (b_key b) as [key|] eqn:Hkey; [|done]. cbn in Ha.
      destruct (Apply_check key (k_result k')) eqn:Hch; [|done]. injection Ha as <-. by eapply bs_return.
    + injection Ha as <-. eapply bs_access; [done..|]. intros E. apply is_done_true in E. congruence.
Qed.

Lemma bench_sched_run js s s' : bench_sched js s = Some s' → star bench_run (Some s) (Some s').
Proof.
  unfold bench_sched. revert s. induction js as [|j js IH]; intros s; cbn [foldl]; [intros [= <-]; apply star_refl|].
  cbn. destruct (bench_act j s) as [s1|] eqn:Ha.
  - intros Hs. eapply star_step; [by eapply bench_act_run|by apply IH].
  - intros Hs. exfalso. clear -Hs. induction js as [|i js IH]; [done|by apply IH].
Qed.
End bench.

(** Two clients in turn, with the keys 1, 3 and 7, two of which meet in a bucket. *)
Definition ex_works : list (list IHT_Op) :=
  [[mkOp INSERT 1 1; mkOp CONTAINS 3 0; mkOp INSERT 7 7; mkOp CONTAINS 7 0];
   [mkOp CONTAINS 1 0; mkOp INSERT 3 3; mkOp REMOVE 1 0]].
Definition ex_schedule : list nat := concat (replicate 24 [0; 1]%nat) ++ replicate 6 0%nat.
Definition ex_start : (gmap remote_ptr (@obj Z Z) * list (@IhtRdma.client Z Z)) * list bench :=
  (ex_mem, replicate (length ex_works) (idle 4 ex_root ex_caches 0), (λ os, mkBench os None 0) <$> ex_works).
Definition ex_end := match bench_sched (λ x : Z, u64 x) 2 4 2 0 next_block (raw_zz 2) ex_schedule ex_start with
  | Some s => s | None => (∅, [], []) end.

Lemma ex_works_fit :
  Forall (λ os, Forall (λ o, op_ok o ∧ op_key o ∈ ex_keys) os ∧ Z.of_nat (length os) ≤ INT_MAX) ex_works.
Proof.
  assert (∀ key, op_ok (mkOp CONTAINS key 0)) as Hc by (intros key; by exists Contains).
  assert (∀ key, op_ok (mkOp INSERT key key)) as Hi by (intros key; exists (Insert key); by split; [|intros v [= <-]]).
  assert (∀ key, op_ok (mkOp REMOVE key 0)) as Hr by (intros key; by exists Remove).
  repeat constructor; try apply Hc; try apply Hi; try apply Hr; try (cbn; apply (bool_decide_unpack _); vm_compute; exact I);
    unfold INT_MAX; cbn; lia.
Qed.

Lemma benchmark_runs_witness :
  b_count <$> ex_end.2 = [4; 3] ∧ b_todo <$> ex_end.2 = [[]; []] ∧
  ∃ M', iht_abs 2 ex_end.1.1 ex_root M' ∧ self_valued M'.
Proof.
  assert (b_todo <$> ex_end.2 = [[]; []] ∧ b_key <$> ex_end.2 = [None; None]) as [Ht Hk] by (vm_compute; split; reflexivity).
  split; [vm_compute; reflexivity|]. split; [exact Ht|].
  pose proof (InitAsFirst_inv (λ x : Z, u64 x) 2 4 next_block (∅ : gmap remote_ptr (@obj Z Z))) as Hinit.
  destruct (benchmark_runs (λ x : Z, u64 x) 2 4 2 0 next_block (raw_zz 2) ex_root ex_keys (le_n 2) ex_keys_spread
    ex_mem ex_caches 0 ∅ ex_works (Some ex_end)) as (m' & ks & bs & E & _ & Hend).
  - exact (proj1 Hinit).
  - exact (proj2 Hinit).
  - by apply caches_ok_new.
  - rewrite dom_empty. apply empty_subseteq.
  - apply map_Forall_empty.
  - exact ex_works_fit.
  - apply (bench_sched_run _ _ _ _ _ _ _ ex_schedule). vm_compute. reflexivity.
  - apply (inj Some) in E. rewrite E in Ht, Hk |- *. cbn [fst snd] in *. destruct Hend as (M' & _ & Habs & Hself).
    + destruct bs as [|b1 [|b2 [|]]]; try discriminate Ht. injection Ht as Ht1 Ht2. injection Hk as Hk1 Hk2.
      repeat constructor; assumption.
    + exists M'. split; [exact Habs|exact Hself].
Defined.
